(* ===== verification/_CoqProject ===== *)
-Q . S2P
Prelude.v
Json.v
Errors.v
RequestId.v
Job.v
Queue.v
AgePriority.v
Store.v
UserLimit.v
MemoryStore.v
StrictAdmission.v
TikvStore.v
NatsStore.v
Dispatcher.v
Actions.v
RemotePool.v
Routing.v
Broker.v
Server.v
Recovery.v
WorkerServer.v
Registry.v
Config.v
Bootstrap.v
Heartbeat.v
HttpTarget.v
PyBindings.v
Sweeper.v
Cluster.v
Leases.v
Metrics.v
Api.v
PoolApi.v
PyClient.v
Main.v
