(* ===== verification/Prelude.v ===== *)
(** * The BITS broker: a verification library

    BITS is a request broker: clients submit jobs and long-poll for their
    results; a routing tree sends each job through checks and transforms to a
    target; targets run behind dispatchers with queues, executors and per-user
    limits; brokers of a cluster share a store through which a job whose owner
    died is recovered by another.  The library models the broker crate
    [src/bits/src] and its Python bindings, one file per component.

    ** Files and what they model

    - [Prelude]: Rust's [Result] and [?], machine integers, UTF-8 text, number
      parsing, counting over finite maps, a bounded loop combinator.
    - [Json]: [serde_json::Value] behind the class [JsonValue]; [sample] is a
      concrete instance.
    - [Errors]: [error.rs], [result.rs] and the errors of actions and stores.
    - [RequestId]: [request_id.rs], the public job id.
    - [Job]: [job.rs]; a job value holds a handle to the cell of atomics its
      clones share, and cells live in a map, so aliasing is visible.
    - [Queue], [AgePriority]: [dispatcher/queue/*]; the class [Queue] and its
      FIFO, cost-weighted and age-priority implementations.
    - [Store]: [db/mod.rs]; the storage traits as classes over an abstract store
      state and [JobStoreLaws], what the broker relies on.  [MemoryStore]:
      [db/memory.rs], an instance of the classes and of the laws; [TikvStore]:
      [db/tikv.rs], a second instance, over optimistic transactions;
      [NatsStore]: [db/nats.rs], a third, over revision-checked updates, with
      its per-user slots.
    - [UserLimit]: the per-user admission of [dispatcher/mod.rs];
      [StrictAdmission]: its strict branch cut at its await points and run by
      any number of brokers on one store.
    - [Dispatcher]: the rest of [dispatcher/mod.rs] with the executors
      [async_pool.rs] and [thread_pool.rs]; [RemotePool]: [remote_pool.rs].
    - [Actions], [Routing]: [actions/mod.rs], [routing/*].
    - [Broker]: the job table of [bits.rs] with [runtime/submission.rs],
      [runtime/runner.rs]; [Sweeper]: the expiry thread of
      [runtime/maintenance.rs].
    - [Server]: the responses of [server.rs] and how [runtime/recovery.rs]
      reads them back; [Recovery]: [Bits::poll] with the claims of
      [runtime/recovery.rs]; [Heartbeat]: its lease thread, the shutdown signal
      and the cleanup worker.
    - [WorkerServer]: [worker_server.rs]; [Registry]: [actions/registry.rs];
      [HttpTarget]: [actions/target_http.rs].
    - [Config]: [config.rs] from single values to the route tree, a state monad
      over the cache of named targets and the worker server; [Bootstrap]: its
      [parse_bootstrap], the construction of the broker, [add_route] and [Drop]
      of [bits.rs].
    - [PyBindings]: [src/bits-py/src/lib.rs], Python actions and what a poll
      hands to Python; [PyClient]: its class [Bits] and a program that uses it.
    - [Cluster]: any number of the brokers of [Broker] on one store that keeps
      the laws of [Store], with their crashes and recoveries; [Api]: the routes
      of [server.rs], a client that follows them, and a poll through a second
      broker; [PoolApi]: the same for the routes of a remote pool, behind the
      worker server, and a worker; [Metrics]: [metrics.rs] and the measurements
      of [Broker].
    - [Leases]: the brokers of [Cluster] with wall clocks and the threads of
      [Heartbeat], where polls read, judge and claim at different instants.
    - [Main]: the binary [src/bits-server/src/main.rs] with the signals and the
      listener of [server.rs] and the log lines of [telemetry.rs].

    ** How state and operations correspond to the code

    Sequential code is functions on explicit state returning [result] or
    [option].  Code that threads interleave (the dispatcher, strict admission,
    the job table) is cut into the actions that are atomic in the source (one
    access of an atomic, one critical section of a lock, one operation of a
    concurrent map) and the system is an inductive step relation over them, with
    any number of participants; its theorems hold in every reachable state.
    Time is an argument: nanoseconds, on the wall clock or the monotonic clock
    as the source has it.  Foreign actions, HTTP, YAML and serde, JSON
    rendering, f64, sockets, the Python interpreter and the duration conversions
    of chrono are class or section parameters, with their documented behaviour
    as laws where something depends on it and a concrete instance each.
    Atomic orderings are read as sequentially consistent.

    ** What is shown

    - Ids: encoding and decoding are inverse, ids are canonical, encoding fails
      exactly on bad tags or instants, and an id leads back to its broker.
    - Queues: arrival order; cheapest first; the age ranking is a total order
      and is what the worker serves; the integer square root loop is exact.
    - Admission: the ceiling is the maximum of its candidates; the local count
      is exact; the jobs strict mode admitted by a verdict never exceed the
      greatest ceiling across brokers, for jobs that come again after their last
      release has run, while no lease of a broker with jobs lapses; the two
      races that break it, a late release and a recovered job's slot reclaimed
      with its dead owner's, are exhibited; a store failure never rejects.
    - Store: one claimant of an orphaned job, from the laws alone; broker slots
      in order; on TiKV a claim and a slot allocation take effect at one instant
      whatever other brokers do between their snapshots and commits, a commit
      that ends undetermined included, and the allocation loop ends once it is
      let alone; the same on NATS, where a
      listing is exactly the user's slots and a reclaim removes exactly the
      orphaned ones; what a lost race makes of a NATS reservation and of a
      listing is exhibited.
    - Dispatchers: no caller is left waiting on a closed dispatcher, an
      abandoned call never runs, also when its job is dispatched again, the queue is bounded and its depth exact; remote
      calls are accounted for, a completion is exclusive, the reaper drops
      exactly the silent workers.
    - Routing: validation accepts exactly the well-formed trees; dispatch computes
      exactly the relation [routes_to], a big-step semantics of actions, routes
      and switches; nothing runs for a cancelled job.
    - Broker: accepted jobs are kept until delivered or expired, results are
      delivered once, durable records are cleaned up, the counter and the
      capacity are exact; submission and submit polls on every branch; the
      sweeper's loop is a run of the broker's atomic steps, and a pass removes
      exactly the finished jobs without a client.
    - Recovery: a durable job is never reported missing, an orphan is run again,
      a live owner is left alone, claiming terminates; what the proxy hop keeps
      and what becomes of the rest.  A running broker's lease never lapses while no
      two renewals in a row fail, and its shutdown ends with one deletion of the
      lease, after the drain; that the lease may run out while the broker drains
      is exhibited.
    - Cluster: a persisted job stays in the store until it is delivered or
      expired, whatever crashes; while leases are kept it has one runner in the
      whole cluster; a job whose second owner dies is stranded.  That a delivered
      job may run again and that a lapsed owner may delete another's record is
      exhibited.
    - Leases: heartbeats, drains, lookups and clocks that are late or off within
      the margin of the lease keep leases, so a job has one runner, provided no
      turn fails to renew twice and polls ask only about brokers that had a
      lease or are down; the loop of [Heartbeat] is a run of these steps.  That a
      broker polled about before its first lease, or that drains for long, loses
      its job is exhibited.
    - API: a client that follows the redirects gets its result; any broker can be
      asked about a live owner's job, and what it makes of each answer; a worker
      that keeps its heartbeats in time, and whose job nobody else answers, is
      the one that answers its job's caller; the job counters balance.  What a HEAD
      request takes and drops, of either API, is exhibited.
    - Configuration: limits, buckets and routes are accepted exactly when they
      are well formed; every entry gets the dispatcher, the limiter and the
      remote pool it asks for; a named target is one thing wherever it is named;
      parsing terminates; an accepted start has sane timings and one identity;
      adding a route is all or nothing; the retries of the NATS start.  Two
      routes parsed side by side may disagree on a target, which is exhibited.
    - Process: what serves was configured so, polls for as long as configured and
      persists before that; it drains at the first signal it can hear.
    - Edges: a pool is reachable from its registration on; a name stands for one
      action factory; routes of one HTTP target each are a failover; a poll
      raises in Python only when a body breaks off, and never tells a queued job
      from a processing one; a registered class only makes actions of its kind.

    ** Fuel and bounds

    The structural recursions need none.  The Newton loop of [AgePriority] runs
    under [iter2] with fuel 2^w for a measure below 2^w; [claim_loop] has fuel 6
    and returns within it (the delays 100, 200, 400, 800 and 1000 ms exceed the
    2 s budget).  [Config.parse_routes] needs fuel above the depth of the value;
    the drain of [Heartbeat] needs a turn per 50 ms of the lease; the loops of
    [Heartbeat], of [Sweeper] and of the store clients are read up to any
    number of turns.  Machine integers are [Z], with the wrap-around, saturation
    or checked arithmetic of the source written out.

    ** What is not modelled

    The repr and attribute methods of the Python classes and the test hooks:
    they compute nothing the broker depends on.  The delivery of signals, the
    sockets, the rendering of the metrics page and the event fields of the
    logging crate are parameters.  In [Leases] the deletion of its lease is the
    last thing a broker does and no broker starts again under its name.  Some
    pairs of neighbouring accesses are one step: the insertion into the table
    and the gauge of jobs in flight, the result and that gauge, a measurement
    and what it measures ([Broker], [Metrics]), the sweeper's request to delete
    a record and the removal of the entry, the drain of a dispatcher and the
    replies to what it held.  The laws of [Store] let a failed operation change
    nothing; [TikvStore] says when its operations keep them.  Stale reads of
    NATS replicas are left out.  A job is dispatched through a dispatcher by one
    route at a time. *)

From stdpp Require Export base tactics list gmap strings pretty.
From Stdlib Require Export ZArith Lia.
From Stdlib Require Import Ascii.
From Stdlib Require Export String.
From stdpp Require Export base list strings.

#[global] Open Scope Z_scope.
#[export] Set Default Goal Selector "1".

(** ** Fallible computations: Rust's [Result] and the [?] operator *)

Inductive result (E A : Type) : Type :=
| Ok (a : A)
| Err (e : E).
Arguments Ok {E A} a.
Arguments Err {E A} e.

Declare Scope rust_scope.
Delimit Scope rust_scope with rust.
#[global] Open Scope rust_scope.

Notation "'let?' x ':=' e 'in' k" :=
  (match e with Ok x => k | Err err => Err err end)
    (at level 10, x pattern, e at level 100, k at level 200,
     format "'[v' 'let?'  x  ':='  e  'in' '/' k ']'") : rust_scope.

Definition map_err {E F A} (f : E -> F) (r : result E A) : result F A :=
  match r with Ok a => Ok a | Err e => Err (f e) end.

Definition map_ok {E A B} (f : A -> B) (r : result E A) : result E B :=
  match r with Ok a => Ok (f a) | Err e => Err e end.

Definition ok_or {E A} (o : option A) (e : E) : result E A :=
  match o with Some a => Ok a | None => Err e end.

(** [Option::map(f).transpose()]: an absent value is fine, a present one must
    satisfy [f]. *)
Definition transpose {E A B} (f : A -> result E B) (o : option A) : result E (option B) :=
  match o with
  | None => Ok None
  | Some a => map_ok Some (f a)
  end.

Definition is_ok {E A} (r : result E A) : bool :=
  match r with Ok _ => true | Err _ => false end.

(** [iter().map(f).collect::<Result<Vec<_>, _>>()]: stops at the first error. *)
Fixpoint collect {E A B} (f : A -> result E B) (l : list A) : result E (list B) :=
  match l with
  | [] => Ok []
  | a :: l' => let? b := f a in let? bs := collect f l' in Ok (b :: bs)
  end.

Lemma collect_ok_Forall2 {E A B} (f : A -> result E B) l bs :
  collect f l = Ok bs <-> Forall2 (fun a b => f a = Ok b) l bs.
Proof.
  revert bs; induction l as [|a l IH]; intros bs; simpl.
  - split; [intros [= <-]; constructor | by inversion 1].
  - split.
    + destruct (f a) eqn:Ha; [|done]. destruct (collect f l) eqn:Hl; [|done].
      intros [= <-]. constructor; [done | by apply IH].
    + inversion 1 as [|? b ? bs' Hb Hbs]; subst. rewrite Hb.
      apply IH in Hbs. by rewrite Hbs.
Qed.

(** ** Machine integers *)

Definition u8_max : Z := 2 ^ 8 - 1.
Definition u16_max : Z := 2 ^ 16 - 1.
Definition u32_max : Z := 2 ^ 32 - 1.
Definition u64_max : Z := 2 ^ 64 - 1.
Definition u128_max : Z := 2 ^ 128 - 1.

(** Unsigned wrap-around of an operation performed at width [w]. *)
Definition wrap (w v : Z) : Z := v mod 2 ^ w.

(** [checked_add]/[checked_mul] at u128. *)
Definition checked_u128 (v : Z) : option Z :=
  if (0 <=? v) && (v <=? u128_max) then Some v else None.

Lemma checked_u128_Some v w : checked_u128 v = Some w <-> w = v /\ 0 <= v <= u128_max.
Proof.
  unfold checked_u128. destruct ((0 <=? v) && (v <=? u128_max)) eqn:E.
  - apply andb_true_iff in E as [?%Z.leb_le ?%Z.leb_le]. split; [intros [= ->]; lia | intros [-> _]; done].
  - apply andb_false_iff in E as [?%Z.leb_gt|?%Z.leb_gt]; (split; [done | lia]).
Qed.

Lemma checked_u128_ok v : 0 <= v <= u128_max -> checked_u128 v = Some v.
Proof. intros. by apply checked_u128_Some. Qed.

(** [saturating_mul] at u128. *)
Definition saturating_u128 (v : Z) : Z := Z.min v u128_max.

(** ** Loops: [while] with a decreasing measure

    [iter2 n step s] performs at most [2 ^ n] steps and stops at the first
    [inr], so a loop over machine integers has enough fuel with [n] equal to
    the width while it still evaluates. *)
Fixpoint iter2 {S R} (n : nat) (step : S -> S + R) (s : S) : S + R :=
  match n with
  | O => step s
  | S n' => match iter2 n' step s with
            | inl s' => iter2 n' step s'
            | inr r => inr r
            end
  end.

Section iter2.
Context {S R : Type} (step : S -> S + R) (I : S -> Prop) (Post : R -> Prop) (m : S -> Z).
Hypothesis Hcont : forall s s', I s -> step s = inl s' -> I s' /\ 0 <= m s' < m s.
Hypothesis Hdone : forall s r, I s -> step s = inr r -> Post r.

Lemma iter2_progress n s :
  I s -> match iter2 n step s with
         | inl s' => I s' /\ 0 <= m s' /\ m s' + 2 ^ Z.of_nat n <= m s
         | inr r => Post r
         end.
Proof.
  revert s; induction n as [|n IH]; intros s Hs; simpl iter2.
  - destruct (step s) as [s'|r] eqn:E; [|by eapply Hdone].
    destruct (Hcont s s' Hs E). change (2 ^ Z.of_nat 0) with 1. split_and!; [done|lia|lia].
  - specialize (IH s Hs) as H1. destruct (iter2 n step s) as [s'|r]; [|done].
    destruct H1 as (Hs' & ? & ?). specialize (IH s' Hs').
    destruct (iter2 n step s') as [s''|r]; [|done].
    rewrite Nat2Z.inj_succ, Z.pow_succ_r by lia. destruct IH as (? & ? & ?).
    split_and!; [done|lia|lia].
Qed.

(** Enough fuel: the loop returns, and its result satisfies [Post]. *)
Lemma iter2_total n s :
  I s -> m s < 2 ^ Z.of_nat n -> exists r, iter2 n step s = inr r /\ Post r.
Proof.
  intros Hs Hm. specialize (iter2_progress n s Hs) as H.
  destruct (iter2 n step s) as [s'|r]; [lia | eauto].
Qed.
End iter2.

(** ** Strings

    A Rust [str] is its UTF-8 byte string; [chars] are its code points.  A
    sequence that is not well formed (which a [str] never holds) reads as
    U+FFFD, so a code point below 128 always comes from its own single byte. *)
Definition byte_val (a : ascii) : Z := Z.of_N (N_of_ascii a).

Definition replacement_char : Z := 65533.

Definition multibyte (cp : Z) : Z := if cp <? 128 then replacement_char else cp.

Fixpoint chars (s : string) : list Z :=
  match s with
  | EmptyString => []
  | String a s1 =>
      let b := byte_val a in
      if b <? 128 then b :: chars s1
      else match s1 with
           | EmptyString => [replacement_char]
           | String a1 s2 =>
               let b1 := byte_val a1 mod 64 in
               if b <? 224 then multibyte (b mod 32 * 64 + b1) :: chars s2
               else match s2 with
                    | EmptyString => [replacement_char]
                    | String a2 s3 =>
                        let b2 := byte_val a2 mod 64 in
                        if b <? 240 then multibyte ((b mod 16 * 64 + b1) * 64 + b2) :: chars s3
                        else match s3 with
                             | EmptyString => [replacement_char]
                             | String a3 s4 =>
                                 let b3 := byte_val a3 mod 64 in
                                 multibyte (((b mod 8 * 64 + b1) * 64 + b2) * 64 + b3) :: chars s4
                             end
                    end
           end
  end.

(** [String::from_utf8] of ASCII bytes, and [chars().collect()] of ASCII chars. *)
Fixpoint string_of_ascii (l : list Z) : string :=
  match l with
  | [] => EmptyString
  | c :: l' => String (ascii_of_N (Z.to_N c)) (string_of_ascii l')
  end.

Definition is_ascii (c : Z) : Prop := 0 <= c < 128.

Lemma byte_val_range a : 0 <= byte_val a < 256.
Proof. unfold byte_val. specialize (N_ascii_bounded a). lia. Qed.

Lemma byte_val_ascii c : 0 <= c < 256 -> byte_val (ascii_of_N (Z.to_N c)) = c.
Proof. intros H. unfold byte_val. rewrite N_ascii_embedding; lia. Qed.

Lemma ascii_byte_val a : ascii_of_N (Z.to_N (byte_val a)) = a.
Proof. unfold byte_val. rewrite N2Z.id. apply ascii_N_embedding. Qed.

Lemma chars_string_of_ascii l : Forall is_ascii l -> chars (string_of_ascii l) = l.
Proof.
  induction 1 as [|c l Hc _ IH]; [done|]. cbn [string_of_ascii chars].
  unfold is_ascii in Hc. rewrite byte_val_ascii by lia.
  destruct (Z.ltb_spec c 128); [|lia]. by rewrite IH.
Qed.

Lemma multibyte_not_ascii cp : ~ is_ascii (multibyte cp).
Proof. unfold multibyte, is_ascii, replacement_char. case_match; lia. Qed.

Lemma string_of_ascii_chars s : Forall is_ascii (chars s) -> string_of_ascii (chars s) = s.
Proof.
  assert (forall n s, (String.length s <= n)%nat ->
            Forall is_ascii (chars s) -> string_of_ascii (chars s) = s) as Hn.
  { clear s. induction n as [|n IH]; intros [|a s1] Hlen Hf; try done; simpl in Hlen; [lia|].
    specialize (byte_val_range a) as Hr. cbn [chars] in *.
    destruct (Z.ltb_spec (byte_val a) 128).
    - apply Forall_cons in Hf as [_ Hf]. cbn [string_of_ascii].
      rewrite ascii_byte_val, IH by (done || lia). done.
    - exfalso. revert Hf. repeat case_match; intros Hf; try (apply Forall_cons in Hf as [Hf _]);
        first [by apply multibyte_not_ascii in Hf | unfold is_ascii, replacement_char in Hf; lia]. }
  eauto.
Qed.

(** ** Lists *)

(** [iter().position(p)]. *)
Fixpoint position {A} (p : A -> bool) (l : list A) : option nat :=
  match l with
  | [] => None
  | a :: l' => if p a then Some O else S <$> position p l'
  end.

Lemma position_Some {A} (p : A -> bool) l i :
  position p l = Some i -> exists a, l !! i = Some a /\ p a = true.
Proof.
  revert i; induction l as [|a l IH]; intros i; simpl; [done|].
  destruct (p a) eqn:Hp; [intros [= <-]; eauto|].
  destruct (position p l) as [j|] eqn:E; [|done]. intros [= <-]. by apply IH.
Qed.

Lemma position_None {A} (p : A -> bool) l a :
  position p l = None -> a ∈ l -> p a = false.
Proof.
  induction l as [|b l IH]; simpl; [by intros _ ?%not_elem_of_nil|].
  destruct (p b) eqn:Hp; [done|]. destruct (position p l); [done|].
  intros _ [->|]%elem_of_cons; auto.
Qed.

Lemma position_lt {A} (p : A -> bool) l i : position p l = Some i -> (i < length l)%nat.
Proof. intros (a & H & _)%position_Some. by eapply lookup_lt_Some. Qed.

(** ** Counting the values of a map that satisfy a test *)

Section map_count.
Context {K A : Type} `{Countable K} (P : A -> bool).

Definition map_count (m : gmap K A) : Z := Z.of_nat (size (filter (fun p : K * A => P p.2 = true) m)).

Lemma map_count_empty : map_count ∅ = 0.
Proof. unfold map_count. by rewrite map_filter_empty, map_size_empty. Qed.

Lemma map_count_nonneg m : 0 <= map_count m.
Proof. unfold map_count. lia. Qed.

Lemma map_count_fresh m k a :
  m !! k = None -> map_count (<[k := a]> m) = map_count m + Z.b2z (P a).
Proof.
  intros Hk. unfold map_count. rewrite map_filter_insert. simpl. case_decide as HP.
  - rewrite map_size_insert_None by (apply map_lookup_filter_None; by left). rewrite HP. simpl. lia.
  - rewrite delete_id by done. apply not_true_is_false in HP. rewrite HP. simpl. lia.
Qed.

Lemma map_count_delete m k a :
  m !! k = Some a -> map_count (delete k m) = map_count m - Z.b2z (P a).
Proof.
  intros Hk. rewrite <- (insert_delete_id m k a) at 2 by done.
  rewrite map_count_fresh by apply lookup_delete_eq. lia.
Qed.

Lemma map_count_update m k a b :
  m !! k = Some a -> map_count (<[k := b]> m) = map_count m - Z.b2z (P a) + Z.b2z (P b).
Proof.
  intros Hk. rewrite <- insert_delete_eq, map_count_fresh by apply lookup_delete_eq.
  by rewrite (map_count_delete m k a).
Qed.
Lemma map_count_alter m k f :
  (forall a, P (f a) = P a) -> map_count (alter f k m) = map_count m.
Proof.
  intros Hf. destruct (m !! k) as [a|] eqn:Hk.
  - assert (alter f k m = <[k := f a]> m) as ->.
    { apply map_eq. intros i. destruct (decide (k = i)) as [->|].
      - by rewrite lookup_alter_eq, lookup_insert_eq, Hk.
      - by rewrite lookup_alter_ne, lookup_insert_ne. }
    rewrite (map_count_update _ _ _ _ Hk), Hf. lia.
  - assert (alter f k m = m) as ->; [|done]. apply map_eq. intros i. destruct (decide (k = i)) as [->|].
    + by rewrite lookup_alter_eq, Hk.
    + by rewrite lookup_alter_ne.
Qed.
End map_count.

(** ** The values of a map, in some order *)

Definition values {K A} `{Countable K} (m : gmap K A) : list A := (map_to_list m).*2.

Section values.
Context {K A : Type} `{Countable K}.
Implicit Types m : gmap K A.

Lemma values_empty : values (∅ : gmap K A) = [].
Proof. unfold values. by rewrite map_to_list_empty. Qed.

Lemma values_fresh m k a : m !! k = None -> values (<[k := a]> m) ≡ₚ a :: values m.
Proof. intros Hk. unfold values. by rewrite map_to_list_insert. Qed.

Lemma values_delete m k a : m !! k = Some a -> values m ≡ₚ a :: values (delete k m).
Proof.
  intros Hk. rewrite <- (insert_delete_id m k a) at 1 by done. apply values_fresh, lookup_delete_eq.
Qed.

Lemma values_replace m k a b : m !! k = Some b -> b :: values (<[k := a]> m) ≡ₚ a :: values m.
Proof.
  intros Hk. rewrite <- insert_delete_eq, values_fresh by apply lookup_delete_eq.
  rewrite (values_delete m k b) by done. constructor.
Qed.

Lemma elem_of_values m a : a ∈ values m <-> exists k, m !! k = Some a.
Proof.
  unfold values. rewrite list_elem_of_fmap. split.
  - intros ([k b] & -> & Hb%elem_of_map_to_list). eauto.
  - intros [k Hk]. exists (k, a). split; [done|]. by apply elem_of_map_to_list.
Qed.

Lemma values_filter m (P : A -> bool) :
  values m ≡ₚ values (filter (fun p : K * A => P p.2 = true) m)
              ++ values (filter (fun p : K * A => ~ P p.2 = true) m).
Proof.
  induction m as [|k a m Hk IH] using map_ind; [by rewrite !map_filter_empty, values_empty|].
  rewrite !map_filter_insert, (values_fresh m k a), IH by done. simpl.
  repeat case_decide; try done.
  - rewrite values_fresh by (apply map_lookup_filter_None; by left). by rewrite (delete_id m) by done.
  - rewrite (values_fresh (filter _ m) k a) by (apply map_lookup_filter_None; by left).
    rewrite (delete_id m) by done. apply Permutation_middle.
Qed.
End values.

(** Positional notation, most significant digit first. *)
Fixpoint of_digits (b acc : Z) (l : list Z) : Z :=
  match l with
  | [] => acc
  | d :: l' => of_digits b (acc * b + d) l'
  end.

Fixpoint to_digits (b : Z) (n : nat) (v : Z) (acc : list Z) : list Z :=
  match n with
  | O => acc
  | S n' => to_digits b n' (v / b) (v mod b :: acc)
  end.

Section digits.
Context (b : Z) (Hb : 1 < b).

Definition is_digit (d : Z) : Prop := 0 <= d < b.

Lemma of_digits_app acc l1 l2 :
  of_digits b acc (l1 ++ l2) = of_digits b (of_digits b acc l1) l2.
Proof. revert acc; induction l1; simpl; auto. Qed.

Lemma of_digits_acc acc l :
  of_digits b acc l = acc * b ^ Z.of_nat (length l) + of_digits b 0 l.
Proof.
  revert acc; induction l as [|d l IH]; intros acc; cbn [of_digits length]; [lia|].
  rewrite IH, (IH (0 * b + d)), Nat2Z.inj_succ, Z.pow_succ_r by lia. lia.
Qed.

Lemma to_digits_acc n v acc : to_digits b n v acc = to_digits b n v [] ++ acc.
Proof.
  revert v acc; induction n as [|n IH]; intros v acc; [done|]. cbn [to_digits].
  rewrite IH, (IH _ [_]), <- app_assoc. done.
Qed.

Lemma to_digits_length n v : length (to_digits b n v []) = n.
Proof.
  revert v; induction n as [|n IH]; intros v; [done|]. cbn [to_digits].
  rewrite to_digits_acc, length_app, IH. simpl. lia.
Qed.

Lemma to_digits_range n v : Forall is_digit (to_digits b n v []).
Proof.
  revert v; induction n as [|n IH]; intros v; [constructor|]. cbn [to_digits].
  rewrite to_digits_acc. apply Forall_app. split; [done|].
  constructor; [|constructor]. unfold is_digit. specialize (Z.mod_pos_bound v b). lia.
Qed.

Lemma of_to_digits n v : 0 <= v < b ^ Z.of_nat n -> of_digits b 0 (to_digits b n v []) = v.
Proof.
  revert v; induction n as [|n IH]; intros v Hv; cbn [to_digits].
  { simpl in Hv. simpl. lia. }
  rewrite Nat2Z.inj_succ, Z.pow_succ_r in Hv by lia.
  rewrite to_digits_acc, of_digits_app, IH.
  2: { split; [apply Z.div_pos; lia | apply Z.div_lt_upper_bound; lia]. }
  simpl. specialize (Z.div_mod v b). lia.
Qed.

Lemma of_digits_range l : Forall is_digit l -> 0 <= of_digits b 0 l < b ^ Z.of_nat (length l).
Proof.
  induction l as [|d l IH] using rev_ind; intros Hl; [simpl; lia|].
  apply Forall_app in Hl as [Hl [Hd _]%Forall_cons]. specialize (IH Hl).
  rewrite of_digits_app, length_app, Nat.add_1_r, Nat2Z.inj_succ, Z.pow_succ_r by lia.
  simpl. unfold is_digit in Hd. nia.
Qed.

Lemma to_of_digits l : Forall is_digit l -> to_digits b (length l) (of_digits b 0 l) [] = l.
Proof.
  induction l as [|d l IH] using rev_ind; intros Hl; [done|].
  apply Forall_app in Hl as [Hl [Hd _]%Forall_cons]. unfold is_digit in Hd.
  rewrite of_digits_app, length_app, Nat.add_1_r. cbn [to_digits of_digits].
  rewrite to_digits_acc.
  rewrite (Z.add_comm _ d), Z.div_add, Z.mod_add, Z.div_small, Z.mod_small by lia.
  rewrite Z.add_0_l, IH by done. done.
Qed.
End digits.

(** ** Text of numbers: [str::parse] and [to_string] *)

Definition digit_of (c : Z) : option Z := if (48 <=? c) && (c <=? 57) then Some (c - 48) else None.

Definition parse_digits (cs : list Z) : option Z :=
  match cs with
  | [] => None
  | _ => of_digits 10 0 <$> mapM digit_of cs
  end.

(** [str::parse::<i64>]. *)
Definition parse_i64 (s : string) : option Z :=
  let v := match chars s with
           | 43 :: cs => parse_digits cs
           | 45 :: cs => Z.opp <$> parse_digits cs
           | cs => parse_digits cs
           end in
  v ≫= fun n => if (- 2 ^ 63 <=? n) && (n <? 2 ^ 63) then Some n else None.

(** [str::parse::<u64>]. *)
Definition parse_u64 (s : string) : option Z :=
  let v := match chars s with
           | 43 :: cs => parse_digits cs
           | cs => parse_digits cs
           end in
  v ≫= fun n => if n <=? u64_max then Some n else None.

Lemma chars_ascii a s : byte_val a < 128 -> chars (String a s) = byte_val a :: chars s.
Proof. intros Ha. cbn [chars]. by rewrite (proj2 (Z.ltb_lt _ _) Ha). Qed.

Lemma chars_app s1 s2 : Forall is_ascii (chars s1) -> chars (s1 ++ s2) = chars s1 ++ chars s2.
Proof.
  induction s1 as [|a s1 IH]; [done|]. intros Ha.
  assert (byte_val a < 128) as Hb.
  { destruct (Z.ltb_spec (byte_val a) 128) as [|Hge]; [done|exfalso]. revert Ha. clear -Hge.
    cbn [chars]. rewrite (proj2 (Z.ltb_ge _ _)) by done.
    repeat case_match; intros Hf; apply Forall_cons in Hf as [Hf _];
      try (by apply multibyte_not_ascii in Hf); unfold is_ascii, replacement_char in Hf; lia. }
  change ((String a s1 ++ s2)%string) with (String a (s1 ++ s2)). rewrite !chars_ascii in * by done.
  apply Forall_cons in Ha as [_ Ha]. by rewrite (IH Ha).
Qed.

Lemma pretty_N_char_val d : (d < 10)%N -> byte_val (pretty_N_char d) = 48 + Z.of_N d.
Proof.
  intros Hd. assert (d = 0 \/ d = 1 \/ d = 2 \/ d = 3 \/ d = 4 \/ d = 5 \/ d = 6 \/ d = 7 \/ d = 8 \/ d = 9)%N
    as Hc by lia. by destruct_or! Hc; subst.
Qed.

Lemma chars_pretty_go n s :
  exists ds, chars (pretty_N_go n s) = map (Z.add 48) ds ++ chars s /\
    Forall (fun d => 0 <= d < 10) ds /\ of_digits 10 0 ds = Z.of_N n /\ ((0 < n)%N -> ds <> []).
Proof.
  revert s; induction (N.lt_wf_0 n) as [n _ IH]; intros s.
  destruct (decide (n = 0)%N) as [->|Hn].
  { exists []. rewrite pretty_N_go_0. split_and!; [done|constructor|done|lia]. }
  rewrite pretty_N_go_step by lia.
  destruct (IH (n `div` 10)%N ltac:(apply N.div_lt; lia) (String (pretty_N_char (n `mod` 10)) s))
    as (ds & Hc & Hd & Hv & _).
  assert (n `mod` 10 < 10)%N by (apply N.mod_lt; lia).
  rewrite Hc, chars_ascii by (rewrite pretty_N_char_val by done; lia).
  rewrite pretty_N_char_val by done.
  exists (ds ++ [Z.of_N (n `mod` 10)]). split_and!.
  - by rewrite map_app, <- app_assoc.
  - apply Forall_app. split; [done|]. constructor; [|constructor]. rewrite N2Z.inj_mod. by apply Z.mod_pos_bound.
  - rewrite of_digits_app, Hv. simpl. rewrite N2Z.inj_div, N2Z.inj_mod. simpl.
    specialize (Z.div_mod (Z.of_N n) 10). lia.
  - intros _. by destruct ds.
Qed.

Lemma digit_of_48 d : 0 <= d < 10 -> digit_of (48 + d) = Some d.
Proof.
  intros Hd. unfold digit_of. rewrite (proj2 (Z.leb_le _ _)), (proj2 (Z.leb_le _ _)) by lia.
  simpl. f_equal. lia.
Qed.

Lemma parse_digits_48 ds :
  ds <> [] -> Forall (fun d => 0 <= d < 10) ds -> parse_digits (map (Z.add 48) ds) = Some (of_digits 10 0 ds).
Proof.
  intros Hne Hd. assert (mapM digit_of (map (Z.add 48) ds) = Some ds) as Hm.
  { clear Hne. induction Hd as [|d ds Hd _ IH]; [done|]. simpl. rewrite digit_of_48 by done. simpl. by rewrite IH. }
  unfold parse_digits. destruct ds; [done|]. simpl map in *. by rewrite Hm.
Qed.

Lemma chars_pretty n :
  0 <= n -> exists ds, chars (pretty n) = map (Z.add 48) ds /\
    Forall (fun d => 0 <= d < 10) ds /\ of_digits 10 0 ds = n /\ ds <> [].
Proof.
  intros Hn. assert (pretty n = pretty (Z.to_N n)) as -> by (destruct n; [done|done|lia]).
  unfold pretty, pretty_N. case_decide as H0.
  - exists [0]. split_and!; [done|repeat constructor; lia|simpl; lia|done].
  - destruct (chars_pretty_go (Z.to_N n) "") as (ds & Hc & Hd & Hv & Hne).
    exists ds. rewrite Hc. simpl. rewrite app_nil_r. split_and!; [done|done|lia|apply Hne; lia].
Qed.

(** Parsing what [to_string] wrote. *)
Lemma parse_u64_pretty n : 0 <= n <= u64_max -> parse_u64 (pretty n) = Some n.
Proof.
  intros Hn. destruct (chars_pretty n) as (ds & Hc & Hd & Hv & Hne); [lia|].
  unfold parse_u64. rewrite Hc.
  assert (match map (Z.add 48) ds with 43 :: cs => parse_digits cs | cs => parse_digits cs end
          = parse_digits (map (Z.add 48) ds)) as ->.
  { destruct ds as [|d ds]; [done|]. apply Forall_cons in Hd as [Hd _].
    assert (d = 0 \/ d = 1 \/ d = 2 \/ d = 3 \/ d = 4 \/ d = 5 \/ d = 6 \/ d = 7 \/ d = 8 \/ d = 9)
      as Hc' by lia. by destruct_or! Hc'; subst. }
  rewrite parse_digits_48, Hv by done. simpl. by rewrite (proj2 (Z.leb_le _ _)) by lia.
Qed.

(** ** Splitting at a character *)

(** [str::split]; never empty. *)
Fixpoint split_str (c : ascii) (s : string) : list string :=
  match s with
  | EmptyString => [EmptyString]
  | String a s' =>
      if decide (a = c) then EmptyString :: split_str c s'
      else match split_str c s' with
           | [] => [String a EmptyString]
           | x :: xs => String a x :: xs
           end
  end.

Fixpoint has_char (c : ascii) (s : string) : bool :=
  match s with EmptyString => false | String a s' => bool_decide (a = c) || has_char c s' end.

(** [trim_end_matches]. *)
Fixpoint trim_end (c : ascii) (s : string) : string :=
  match s with
  | EmptyString => EmptyString
  | String a s' =>
      let t := trim_end c s' in
      if decide (t = EmptyString /\ a = c) then EmptyString else String a t
  end.

Lemma split_none c s : has_char c s = false -> split_str c s = [s].
Proof.
  induction s as [|a s IH]; [done|]. cbn [has_char split_str].
  rewrite orb_false_iff, bool_decide_eq_false. intros [Ha Hs]. rewrite decide_False by done. by rewrite IH.
Qed.

Lemma has_char_ascii c l :
  Forall (fun x => is_ascii x /\ x <> byte_val c) l -> has_char c (string_of_ascii l) = false.
Proof.
  induction 1 as [|x l [Hx Hne] _ IH]; [done|]. cbn [string_of_ascii has_char].
  rewrite IH, orb_false_r. apply bool_decide_eq_false. intros Heq. apply Hne.
  rewrite <- Heq, byte_val_ascii; unfold is_ascii in *; lia.
Qed.

Lemma has_char_chars c s : Forall (fun x => is_ascii x /\ x <> byte_val c) (chars s) -> has_char c s = false.
Proof.
  intros Hf. rewrite <- (string_of_ascii_chars s) by (eapply Forall_impl; [exact Hf|]; by intros x [Hx _]).
  by apply has_char_ascii.
Qed.

(** ** Automation *)

Create HintDb bits discriminated.

(** Splits every [match]/[if] of the hypotheses and the goal, closing the
    branches that are contradictory. *)
Ltac case_all :=
  repeat first
    [ progress simplify_eq/=
    | match goal with
      | H : context [match ?x with _ => _ end] |- _ => destruct x eqn:?
      | |- context [match ?x with _ => _ end] => destruct x eqn:?
      end ].

(** Case split on one scrutinee of the goal. *)
Ltac case_goal :=
  match goal with |- context [match ?x with _ => _ end] => destruct x eqn:? end.

(** Inverts a chain of [let?] steps known to end in [Ok]. *)
Ltac inv_ok H :=
  repeat match type of H with
  | match ?e with Ok _ => _ | Err _ => _ end = Ok _ =>
      let E := fresh "Hok" in destruct e eqn:E; [|discriminate H]
  | (if ?b then _ else _) = Ok _ => let E := fresh "Hif" in destruct b eqn:E; try discriminate H
  end; simplify_eq/=.

(** [Forall] over an explicit list whose elements are covered by hypotheses. *)
Ltac solve_Forall :=
  repeat first [ assumption | apply Forall_nil_2 | apply Forall_cons_2 ].
