(* ===== verification/Json.v ===== *)
(** * JSON values

    [serde_json::Value] is a third-party type: the development sees it through
    the interface [JsonValue], whose single operation [view] shows which
    variant of the documented enum a value is, one level deep.  The accessors
    the broker calls ([as_str], [as_u64], [get], [pointer], indexing) are the
    documented functions of that view.  [sample] is a concrete instance on
    which the witnesses evaluate. *)
From S2P Require Import Prelude.

(** One level of a JSON value.  A number shows its [as_u64] and its text; an
    object lists its entries in iteration order. *)
Inductive json_view (V : Type) : Type :=
| VNull
| VBool (b : bool)
| VNumber (n : option Z) (text : string)
| VString (s : string)
| VArray (l : list V)
| VObject (l : list (string * V)).
Arguments VNull {V}.
Arguments VBool {V} b.
Arguments VNumber {V} n text.
Arguments VString {V} s.
Arguments VArray {V} l.
Arguments VObject {V} l.

Class JsonValue (V : Type) : Type := {
  view : V -> json_view V;
  null : V;
  object : list (string * V) -> V;
  display : V -> string;
  view_null : view null = VNull;
  view_object : forall l, view (object l) = VObject l
}.

Section accessors.
Context {V : Type} `{JsonValue V}.

Definition as_bool (v : V) : option bool :=
  match view v with VBool b => Some b | _ => None end.
Definition as_u64 (v : V) : option Z :=
  match view v with VNumber n _ => n | _ => None end.
Definition as_str (v : V) : option string :=
  match view v with VString s => Some s | _ => None end.
Definition as_array (v : V) : option (list V) :=
  match view v with VArray l => Some l | _ => None end.
Definition as_object (v : V) : option (list (string * V)) :=
  match view v with VObject l => Some l | _ => None end.

(** [Map::get] and [Map::contains_key]. *)
Fixpoint map_get (k : string) (l : list (string * V)) : option V :=
  match l with
  | [] => None
  | (k', v) :: l' => if decide (k' = k) then Some v else map_get k l'
  end.
Definition contains_key (k : string) (l : list (string * V)) : bool :=
  match map_get k l with Some _ => true | None => false end.

(** [Value::get(key)]: [None] on anything that is not an object. *)
Definition get (k : string) (v : V) : option V := as_object v ≫= map_get k.

(** [value[key]] on a shared reference: [Null] when absent. *)
Definition index (v : V) (k : string) : V := default null (get k v).

(** [Value::pointer("/a/b")] for keys that are not array indices. *)
Definition pointer (ks : list string) (v : V) : option V :=
  foldl (fun o k => o ≫= get k) (Some v) ks.

Lemma map_get_elem k l v : map_get k l = Some v -> (k, v) ∈ l.
Proof.
  induction l as [|[k' v'] l IH]; simpl; [done|].
  case_decide; [intros [= ->]; subst; by left | intros ?; right; auto].
Qed.
End accessors.

(** A concrete instance. *)
Inductive sample : Type :=
| JNull
| JBool (b : bool)
| JNumber (n : Z)
| JString (s : string)
| JArray (l : list sample)
| JObject (l : list (string * sample)).

Definition sample_view (j : sample) : json_view sample :=
  match j with
  | JNull => VNull
  | JBool b => VBool b
  | JNumber n => VNumber (if (0 <=? n) && (n <=? u64_max) then Some n else None) (pretty n)
  | JString s => VString s
  | JArray l => VArray l
  | JObject l => VObject l
  end.

#[export] Instance sample_json : JsonValue sample := {|
  view := sample_view;
  null := JNull;
  object := JObject;
  display := fun _ => "<json>"%string;
  view_null := eq_refl;
  view_object := fun _ => eq_refl
|}.
