(* ===== verification/Errors.v ===== *)
(** * Errors and terminal results

    The error enums of [error.rs], [actions/mod.rs] and [db/mod.rs] with their
    stable codes, retryability and texts, and the terminal results of
    [result.rs].  An error wrapped from another crate (serde, YAML) is its
    rendered text. *)
From S2P Require Import Prelude.

(** ** actions/mod.rs *)
Inductive ActionError : Type :=
| NetworkError (msg : string)
| QueueFull (msg : string)
| Timeout (msg : string)
| ActionConfigError (msg : string)
| AuthError (msg : string)
| ResourceError (msg : string)
| Cancelled
| ClientGone
| UserLimitExceeded (msg : string).

#[export] Instance ActionError_eq_dec : EqDecision ActionError.
Proof. solve_decision. Defined.

Module ActionError.
Open Scope string_scope.

Definition fmt (e : ActionError) : string :=
  match e with
  | NetworkError msg => "Network error: " ++ msg
  | QueueFull msg => "Queue full: " ++ msg
  | Timeout msg => "Timeout: " ++ msg
  | ActionConfigError msg => "Config error: " ++ msg
  | AuthError msg => "Auth error: " ++ msg
  | ResourceError msg => "Resource error: " ++ msg
  | Cancelled => "Cancelled"
  | ClientGone => "Client disconnected before data could be delivered"
  | UserLimitExceeded msg => "User limit exceeded: " ++ msg
  end.

Definition code (e : ActionError) : string :=
  match e with
  | NetworkError _ => "ACTION_NETWORK"
  | QueueFull _ => "ACTION_QUEUE_FULL"
  | Timeout _ => "ACTION_TIMEOUT"
  | ActionConfigError _ => "ACTION_CONFIG"
  | AuthError _ => "ACTION_AUTH"
  | ResourceError _ => "ACTION_RESOURCE"
  | Cancelled => "ACTION_CANCELLED"
  | ClientGone => "ACTION_CLIENT_GONE"
  | UserLimitExceeded _ => "ACTION_USER_LIMIT"
  end.

Definition is_retryable (e : ActionError) : bool :=
  match e with NetworkError _ | Timeout _ | QueueFull _ => true | _ => false end.
End ActionError.

(** ** db/mod.rs *)
Inductive DbError : Type :=
| Conflict (msg : string)
| Backend (msg : string)
| SlotExhausted (site env : string) (ceiling : Z).

#[export] Instance DbError_eq_dec : EqDecision DbError.
Proof. solve_decision. Defined.

Module DbError.
Open Scope string_scope.

Definition code (e : DbError) : string :=
  match e with
  | Conflict _ => "PERSISTENCE_CONFLICT"
  | Backend _ => "PERSISTENCE_BACKEND"
  | SlotExhausted _ _ _ => "PERSISTENCE_SLOT_EXHAUSTED"
  end.

Definition is_retryable (e : DbError) : bool :=
  match e with SlotExhausted _ _ _ => false | _ => true end.

Definition fmt (e : DbError) : string :=
  match e with
  | Conflict message => "conflict: " ++ message
  | Backend message => "backend error: " ++ message
  | SlotExhausted site env ceiling =>
      "broker slot allocation exhausted for site '" ++ site ++ "' env '" ++ env
      ++ "': reached slot ceiling " ++ pretty ceiling
      ++ "; recovery requires bumping the broker-id version byte before allocating more broker slots"
  end.
End DbError.

(** ** error.rs *)
Inductive ConfigError : Type :=
| Yaml (e : string)
| Validation (path reason : string)
| MissingField (path : string)
| FeatureDisabled (path feature : string)
| Decode (path target source : string)
| PersistenceInit (path backend reason : string).

Inductive RoutingError : Type :=
| InvalidRoute (route reason : string)
| InvalidAction (route action reason : string)
| MissingTarget (route : string).

Inductive WorkerServerError : Type :=
| Bind (address reason : string)
| PoolRegistration (name reason : string).

Inductive BitsError : Type :=
| BConfig (e : ConfigError)
| BRouting (e : RoutingError)
| BPersistence (e : DbError)
| BAction (e : ActionError)
| BWorkerServer (e : WorkerServerError).

Module BitsError.
Open Scope string_scope.

Definition config_code (e : ConfigError) : string :=
  match e with
  | Yaml _ => "CONFIG_YAML_SYNTAX"
  | Validation _ _ => "CONFIG_VALIDATION"
  | MissingField _ => "CONFIG_MISSING_FIELD"
  | FeatureDisabled _ _ => "CONFIG_FEATURE_DISABLED"
  | Decode _ _ _ => "CONFIG_DECODE"
  | PersistenceInit _ _ _ => "CONFIG_PERSISTENCE_INIT"
  end.

Definition routing_code (e : RoutingError) : string :=
  match e with
  | InvalidRoute _ _ => "ROUTING_INVALID_ROUTE"
  | InvalidAction _ _ _ => "ROUTING_INVALID_ACTION"
  | MissingTarget _ => "ROUTING_MISSING_TARGET"
  end.

Definition worker_server_code (e : WorkerServerError) : string :=
  match e with
  | Bind _ _ => "WORKER_BIND"
  | PoolRegistration _ _ => "WORKER_POOL"
  end.

Definition code (e : BitsError) : string :=
  match e with
  | BConfig e => config_code e
  | BRouting e => routing_code e
  | BPersistence e => DbError.code e
  | BAction e => ActionError.code e
  | BWorkerServer e => worker_server_code e
  end.

Definition is_retryable (e : BitsError) : bool :=
  match e with
  | BPersistence e => DbError.is_retryable e
  | BAction e => ActionError.is_retryable e
  | _ => false
  end.

Definition all_codes : list string :=
  [ "CONFIG_YAML_SYNTAX"; "CONFIG_VALIDATION"; "CONFIG_MISSING_FIELD";
    "CONFIG_FEATURE_DISABLED"; "CONFIG_DECODE"; "CONFIG_PERSISTENCE_INIT";
    "ROUTING_INVALID_ROUTE"; "ROUTING_INVALID_ACTION"; "ROUTING_MISSING_TARGET";
    "PERSISTENCE_CONFLICT"; "PERSISTENCE_BACKEND"; "PERSISTENCE_SLOT_EXHAUSTED";
    "ACTION_NETWORK"; "ACTION_QUEUE_FULL"; "ACTION_TIMEOUT"; "ACTION_CONFIG";
    "ACTION_AUTH"; "ACTION_RESOURCE"; "ACTION_CANCELLED"; "ACTION_CLIENT_GONE";
    "ACTION_USER_LIMIT"; "WORKER_BIND"; "WORKER_POOL" ].
End BitsError.

(** ** result.rs *)

(** A response body: the frames of the stream, each data or an I/O error. *)
Abbreviation ByteStream := (list (result string string)).

Inductive JobResult : Type :=
| Success (content_type : string) (size : Z) (stream : ByteStream)
| Redirect (location message : string) (content_type : option string)
    (content_length : option Z)
| Error (message : string)
| Failed (reason : string)
| Overloaded (reason : string)
| RateLimited (reason : string)
| JobCancelled
| JobClientGone.

Module JobResult.
Open Scope string_scope.

Definition is_deliverable (r : JobResult) : bool :=
  match r with Success _ _ _ | Redirect _ _ _ _ => true | _ => false end.

Definition fmt (r : JobResult) : string :=
  match r with
  | Success content_type size _ =>
      "Success(" ++ pretty size ++ " bytes, " ++ content_type ++ ")"
  | Redirect location message _ _ => "Redirect(" ++ location ++ ", " ++ message ++ ")"
  | Error message => "Error(" ++ message ++ ")"
  | Failed reason => "Failed(" ++ reason ++ ")"
  | Overloaded reason => "Overloaded(" ++ reason ++ ")"
  | RateLimited reason => "RateLimited(" ++ reason ++ ")"
  | JobCancelled => "Cancelled"
  | JobClientGone => "ClientGone"
  end.

(** metrics.rs, [job_result_outcome]. *)
Definition job_result_outcome (r : JobResult) : string :=
  match r with
  | Success _ _ _ => "success"
  | Redirect _ _ _ _ => "redirect"
  | Error _ => "error"
  | Failed _ => "failed"
  | Overloaded _ => "overloaded"
  | RateLimited _ => "rate_limited"
  | JobCancelled => "cancelled"
  | JobClientGone => "client_gone"
  end.
End JobResult.

(** The outcome labels tell the eight results apart. *)
Lemma job_result_outcome_kind r1 r2 :
  JobResult.job_result_outcome r1 = JobResult.job_result_outcome r2 ->
  JobResult.is_deliverable r1 = JobResult.is_deliverable r2.
Proof. destruct r1, r2; (done || discriminate). Qed.

(** Retrying is only ever advised for errors of the persistence layer and of
    actions, and never for a cancelled job or a client that has gone. *)
Lemma retryable_codes e :
  BitsError.is_retryable e = true ->
  BitsError.code e ∈ [ "PERSISTENCE_CONFLICT"; "PERSISTENCE_BACKEND"; "ACTION_NETWORK";
                       "ACTION_TIMEOUT"; "ACTION_QUEUE_FULL" ]%string.
Proof.
  destruct e as [[]|[]|[]|[]|[]]; simpl; intros; try discriminate; set_solver.
Qed.
