(* ===== verification/RequestId.v ===== *)
(** * Public request IDs ([request_id.rs])

    A request ID is 26 lower-case Crockford base-32 characters that carry 16
    packed bytes: version, site tag, environment tag, seconds since the custom
    epoch, broker slot and five random bytes.  A [DateTime] is nanoseconds
    since the Unix epoch; the random bytes [OsRng] supplies are an argument. *)
From S2P Require Import Prelude.

Abbreviation DateTime := Z.

Definition nanos_per_sec : Z := 10 ^ 9.

Definition ID_VERSION : Z := 1.
Definition CROCKFORD_ALPHABET : list Z := chars "0123456789abcdefghjkmnpqrstvwxyz".
Definition ID_LEN : nat := 26.
Definition PACKED_LEN : nat := 16.
Definition BASE37_SENTINEL : Z := 36.
Definition BASE37_RADIX : Z := 37.
Definition BASE37_MAX : Z := BASE37_RADIX * BASE37_RADIX * BASE37_RADIX.

Record DecodedId : Type := mkDecodedId {
  version : Z;
  site : string;
  env : string;
  timestamp : DateTime;
  broker_slot : Z;
  random : list Z
}.

Inductive DecodeError : Type :=
| WrongLength (actual : nat)
| DisallowedCrockfordCharacter (ch : Z)
| Base32ValueOutOfRange
| UnknownVersion (version : Z)
| TagPackedValueOutOfRange (value : Z)
| DecodeEmptyTag
| EmbeddedSentinel.

Inductive EncodeError : Type :=
| EmptyTag
| TagTooLong (actual : nat)
| InvalidTagCharacter (ch : Z)
| TimestampBeforeCustomEpoch
| TimestampTooLarge.

(** 2025-01-01T00:00:00Z. *)
Definition custom_epoch : DateTime := 1735689600 * nanos_per_sec.

Definition char_of (s : string) : Z := default 0 (head (chars s)).

Definition tag_char_value (ch : Z) : result EncodeError Z :=
  if (char_of "0" <=? ch) && (ch <=? char_of "9") then Ok (ch - char_of "0")
  else if (char_of "a" <=? ch) && (ch <=? char_of "z") then Ok (ch - char_of "a" + 10)
  else Err (InvalidTagCharacter ch).

(** The third arm of the source is [unreachable!]; [unpack_tag_value_char]
    below shows it is never taken. *)
Definition value_char (value : Z) : Z :=
  if (0 <=? value) && (value <=? 9) then char_of "0" + value
  else if (10 <=? value) && (value <=? 35) then char_of "a" + (value - 10)
  else replacement_char.

Definition pack_tag (tag : string) : result EncodeError Z :=
  let len := length (chars tag) in
  if decide (len = 0)%nat then Err EmptyTag
  else if decide (3 < len)%nat then Err (TagTooLong len)
  else
    let? filled := collect tag_char_value (chars tag) in
    match filled ++ replicate (3 - len) BASE37_SENTINEL with
    | [d0; d1; d2] => Ok (d0 * BASE37_RADIX * BASE37_RADIX + d1 * BASE37_RADIX + d2)
    | _ => Err (TagTooLong len)
    end.

Definition base37_digits (value : Z) : list Z :=
  [ value / (BASE37_RADIX * BASE37_RADIX);
    (value / BASE37_RADIX) mod BASE37_RADIX;
    value mod BASE37_RADIX ].

Definition unpack_tag (value : Z) : result DecodeError string :=
  if BASE37_MAX <=? value then Err (TagPackedValueOutOfRange value)
  else
    let digits := base37_digits value in
    match position (Z.eqb BASE37_SENTINEL) digits with
    | Some O => Err DecodeEmptyTag
    | Some index =>
        if existsb (fun digit => negb (digit =? BASE37_SENTINEL)) (drop (S index) digits)
        then Err EmbeddedSentinel
        else Ok (string_of_ascii (map value_char (take index digits)))
    | None => Ok (string_of_ascii (map value_char digits))
    end.

Definition timestamp_seconds (timestamp : DateTime) : result EncodeError Z :=
  if timestamp <? custom_epoch then Err TimestampBeforeCustomEpoch
  else
    let seconds := Z.quot (timestamp - custom_epoch) nanos_per_sec in
    if seconds <=? u32_max then Ok seconds else Err TimestampTooLarge.

(** [to_be_bytes] and [from_be_bytes]. *)
Definition to_be_bytes (n : nat) (v : Z) : list Z := to_digits 256 n v [].
Definition from_be_bytes (bytes : list Z) : Z := of_digits 256 0 bytes.

Definition alphabet_at (i : Z) : Z := nth (Z.to_nat i) CROCKFORD_ALPHABET 0.

Fixpoint encode_loop (n : nat) (value : Z) (encoded : list Z) : list Z :=
  match n with
  | O => encoded
  | S n' => encode_loop n' (Z.shiftr value 5) (alphabet_at (Z.land value 0x1f) :: encoded)
  end.

Definition encode_crockford_base32 (packed : list Z) : string :=
  string_of_ascii (encode_loop ID_LEN (from_be_bytes packed) []).

Definition crockford_value (ch : Z) : option Z :=
  if (0 <=? ch) && (ch <? 128)
  then Z.of_nat <$> position (fun candidate => candidate =? ch) CROCKFORD_ALPHABET
  else None.

Fixpoint decode_loop (value : Z) (cs : list Z) : result DecodeError Z :=
  match cs with
  | [] => Ok value
  | ch :: cs' =>
      let? digit := ok_or (crockford_value ch) (DisallowedCrockfordCharacter ch) in
      let? value' := ok_or (checked_u128 (value * 32) ≫= fun v => checked_u128 (v + digit))
                           Base32ValueOutOfRange in
      decode_loop value' cs'
  end.

Definition decode_crockford_base32 (id : string) : result DecodeError (list Z) :=
  let actual_len := length (chars id) in
  if decide (actual_len = ID_LEN) then
    let? value := decode_loop 0 (chars id) in Ok (to_be_bytes PACKED_LEN value)
  else Err (WrongLength actual_len).

Definition slice (from to : nat) (l : list Z) : list Z := take (to - from) (drop from l).

Definition encode_with_fixed_random (site env : string) (broker_slot : Z)
    (timestamp : DateTime) (random : list Z) : result EncodeError string :=
  let? site_packed := pack_tag site in
  let? env_packed := pack_tag env in
  let? timestamp_sec := timestamp_seconds timestamp in
  let packed := [ID_VERSION] ++ to_be_bytes 2 site_packed ++ to_be_bytes 2 env_packed
                ++ to_be_bytes 4 timestamp_sec ++ to_be_bytes 2 broker_slot ++ random in
  Ok (encode_crockford_base32 packed).

(** [encode] draws the random bytes from [OsRng]. *)
Definition encode (rng : list Z) (site env : string) (broker_slot : Z) (timestamp : DateTime)
    : result EncodeError string :=
  encode_with_fixed_random site env broker_slot timestamp rng.

Definition decode (id : string) : result DecodeError DecodedId :=
  let? packed := decode_crockford_base32 id in
  let version := from_be_bytes (slice 0 1 packed) in
  if negb (version =? ID_VERSION) then Err (UnknownVersion version)
  else
    let? site := unpack_tag (from_be_bytes (slice 1 3 packed)) in
    let? env := unpack_tag (from_be_bytes (slice 3 5 packed)) in
    let timestamp_sec := from_be_bytes (slice 5 9 packed) in
    Ok (mkDecodedId version site env (custom_epoch + timestamp_sec * nanos_per_sec)
          (from_be_bytes (slice 9 11 packed)) (slice 11 16 packed)).

(** The vectors of the source's own tests. *)
Example roundtrip_known_vector :
  encode_with_fixed_random "bol" "dev" 42 (custom_epoch + 97445 * nanos_per_sec)
    [0x01; 0x23; 0x45; 0x67; 0x89] = Ok "017sg4fag005yaa01a04hmasw9"%string.
Proof. vm_compute. reflexivity. Qed.

Example decode_known_vector :
  decode "017sg4fag005yaa01a04hmasw9" =
  Ok (mkDecodedId 1 "bol" "dev" (custom_epoch + 97445 * nanos_per_sec) 42
        [0x01; 0x23; 0x45; 0x67; 0x89]).
Proof. vm_compute. reflexivity. Qed.

(** ** Tags *)

Definition tag_char (ch : Z) : Prop := 48 <= ch <= 57 \/ 97 <= ch <= 122.

(** The tags the broker may be configured with. *)
Definition valid_tag (tag : string) : Prop :=
  (1 <= length (chars tag) <= 3)%nat /\ Forall tag_char (chars tag).

#[export] Instance tag_char_dec ch : Decision (tag_char ch).
Proof. unfold tag_char. apply _. Defined.
#[export] Instance valid_tag_dec tag : Decision (valid_tag tag).
Proof. unfold valid_tag. apply _. Defined.

Ltac unfold_chars :=
  change (char_of "0") with 48 in *; change (char_of "9") with 57 in *;
  change (char_of "a") with 97 in *; change (char_of "z") with 122 in *.

Lemma tag_char_value_Ok ch v :
  tag_char_value ch = Ok v -> tag_char ch /\ 0 <= v < BASE37_SENTINEL /\ value_char v = ch.
Proof.
  unfold tag_char_value, tag_char, value_char, BASE37_SENTINEL. unfold_chars.
  intros H. destruct ((48 <=? ch) && (ch <=? 57)) eqn:E1; simplify_eq.
  - apply andb_true_iff in E1 as [?%Z.leb_le ?%Z.leb_le].
    destruct ((0 <=? ch - 48) && (ch - 48 <=? 9)) eqn:E; [lia|].
    apply andb_false_iff in E as [E|E]; lia.
  - destruct ((97 <=? ch) && (ch <=? 122)) eqn:E2; simplify_eq.
    apply andb_true_iff in E2 as [?%Z.leb_le ?%Z.leb_le].
    destruct ((0 <=? ch - 97 + 10) && (ch - 97 + 10 <=? 9)) eqn:E; [lia|].
    destruct ((10 <=? ch - 97 + 10) && (ch - 97 + 10 <=? 35)) eqn:E'; [lia|].
    apply andb_false_iff in E' as [?|?]; lia.
Qed.

Lemma tag_char_value_char v :
  0 <= v < BASE37_SENTINEL -> tag_char_value (value_char v) = Ok v.
Proof.
  unfold BASE37_SENTINEL. intros Hv.
  assert (Hin : v ∈ map Z.of_nat (seq 0 36)).
  { apply list_elem_of_In, in_map_iff. exists (Z.to_nat v). split; [lia|]. apply in_seq. lia. }
  clear Hv. revert v Hin. apply Forall_forall. vm_compute. repeat constructor.
Qed.

Lemma tag_char_value_total ch : tag_char ch -> exists v, tag_char_value ch = Ok v.
Proof.
  unfold tag_char, tag_char_value. unfold_chars. intros H.
  destruct ((48 <=? ch) && (ch <=? 57)) eqn:E1; [eauto|].
  destruct ((97 <=? ch) && (ch <=? 122)) eqn:E2; [eauto|]. exfalso.
  apply andb_false_iff in E1; apply andb_false_iff in E2. lia.
Qed.

Lemma tag_char_ascii ch : tag_char ch -> is_ascii ch.
Proof. unfold tag_char, is_ascii. lia. Qed.

#[export] Hint Resolve tag_char_ascii tag_char_value_char : bits.

Lemma collect_tag_values cs vs :
  collect tag_char_value cs = Ok vs ->
  Forall tag_char cs /\ Forall (fun v => 0 <= v < BASE37_SENTINEL) vs /\
  map value_char vs = cs /\ length vs = length cs.
Proof.
  rewrite collect_ok_Forall2. induction 1 as [|c v cs vs Hcv _ IH]; [by split_and!|].
  apply tag_char_value_Ok in Hcv as (? & ? & <-). destruct IH as (? & ? & <- & IHl).
  split_and!; simpl; [constructor..| |]; try done. by rewrite IHl.
Qed.

Lemma collect_value_chars vs :
  Forall (fun v => 0 <= v < BASE37_SENTINEL) vs ->
  collect tag_char_value (map value_char vs) = Ok vs /\ Forall tag_char (map value_char vs).
Proof.
  induction 1 as [|v vs Hv _ [IH1 IH2]]; [done|]. simpl.
  rewrite tag_char_value_char, IH1 by done. split; [done|]. constructor; [|done].
  by apply (tag_char_value_Ok _ v), tag_char_value_char.
Qed.

Lemma base37_digits_of d0 d1 d2 :
  0 <= d0 < 37 -> 0 <= d1 < 37 -> 0 <= d2 < 37 ->
  base37_digits (d0 * BASE37_RADIX * BASE37_RADIX + d1 * BASE37_RADIX + d2) = [d0; d1; d2].
Proof.
  unfold base37_digits, BASE37_RADIX. intros.
  repeat f_equal; Z.div_mod_to_equations; lia.
Qed.

Lemma base37_digits_inv v :
  0 <= v < BASE37_MAX -> exists d0 d1 d2, base37_digits v = [d0; d1; d2] /\
    0 <= d0 < 37 /\ 0 <= d1 < 37 /\ 0 <= d2 < 37 /\
    v = d0 * BASE37_RADIX * BASE37_RADIX + d1 * BASE37_RADIX + d2.
Proof.
  unfold base37_digits, BASE37_MAX, BASE37_RADIX. intros. do 3 eexists.
  split; [reflexivity|]. Z.div_mod_to_equations. lia.
Qed.

Lemma pack_tag_inv tag v :
  pack_tag tag = Ok v ->
  valid_tag tag /\
  exists vs d0 d1 d2,
    vs ++ replicate (3 - length vs) BASE37_SENTINEL = [d0; d1; d2] /\
    (1 <= length vs <= 3)%nat /\
    Forall (fun d => 0 <= d < BASE37_SENTINEL) vs /\ map value_char vs = chars tag /\
    v = d0 * BASE37_RADIX * BASE37_RADIX + d1 * BASE37_RADIX + d2.
Proof.
  unfold pack_tag, valid_tag. do 2 (case_decide; [done|]).
  destruct (collect tag_char_value (chars tag)) as [vs|] eqn:Hvs; [|done].
  apply collect_tag_values in Hvs as (Htag & Hd & Hmap & Hlen). rewrite <- Hlen in *.
  destruct (vs ++ _) as [|d0 [|d1 [|d2 [|]]]] eqn:Happ; try discriminate.
  intros [= <-]. split; [split; [lia|done]|]. exists vs, d0, d1, d2. split_and!; auto; lia.
Qed.

Lemma padded_digits vs d0 d1 d2 :
  vs ++ replicate (3 - length vs) BASE37_SENTINEL = [d0; d1; d2] ->
  Forall (fun d => 0 <= d < BASE37_SENTINEL) vs ->
  0 <= d0 < 37 /\ 0 <= d1 < 37 /\ 0 <= d2 < 37.
Proof.
  unfold BASE37_SENTINEL. intros Happ Hvs.
  assert (Forall (fun d => 0 <= d < 37) (vs ++ replicate (3 - length vs) 36)) as Hall.
  { apply Forall_app. split; [eapply Forall_impl; [done|simpl; lia]|].
    apply Forall_replicate. lia. }
  rewrite Happ in Hall. by repeat apply Forall_cons in Hall as [? Hall].
Qed.

Lemma pack_tag_range tag v : pack_tag tag = Ok v -> 0 <= v < BASE37_MAX.
Proof.
  intros (_ & vs & d0 & d1 & d2 & Happ & _ & Hvs & _ & ->)%pack_tag_inv.
  destruct (padded_digits _ _ _ _ Happ Hvs) as (? & ? & ?).
  unfold BASE37_MAX, BASE37_RADIX. lia.
Qed.

(** The tag a sequence of base-37 digits stands for: digits below the sentinel,
    then only sentinels. *)
Lemma unpack_digits vs d0 d1 d2 v :
  vs ++ replicate (3 - length vs) BASE37_SENTINEL = [d0; d1; d2] ->
  (1 <= length vs <= 3)%nat ->
  Forall (fun d => 0 <= d < BASE37_SENTINEL) vs ->
  v = d0 * BASE37_RADIX * BASE37_RADIX + d1 * BASE37_RADIX + d2 ->
  unpack_tag v = Ok (string_of_ascii (map value_char vs)).
Proof.
  intros Happ Hlen Hvs ->. destruct (padded_digits _ _ _ _ Happ Hvs) as (? & ? & ?).
  unfold unpack_tag. destruct (Z.leb_spec BASE37_MAX
    (d0 * BASE37_RADIX * BASE37_RADIX + d1 * BASE37_RADIX + d2)) as [Hle|_].
  { unfold BASE37_MAX, BASE37_RADIX in Hle. lia. }
  rewrite base37_digits_of by done. unfold BASE37_SENTINEL in *.
  assert (Hneq : forall d, 0 <= d < 36 -> (36 =? d) = false) by (intros; apply Z.eqb_neq; lia).
  destruct vs as [|v0 [|v1 [|v2 [|]]]]; simpl in Hlen; try lia; simplify_eq/=;
    repeat match goal with Hf : Forall _ (_ :: _) |- _ => apply Forall_cons in Hf as [? Hf] end;
    rewrite ?Hneq by done; simpl; rewrite ?Hneq by done; done.
Qed.

Lemma unpack_tag_inv v tag :
  0 <= v -> unpack_tag v = Ok tag ->
  v < BASE37_MAX /\
  exists vs d0 d1 d2,
    vs ++ replicate (3 - length vs) BASE37_SENTINEL = [d0; d1; d2] /\
    (1 <= length vs <= 3)%nat /\
    Forall (fun d => 0 <= d < BASE37_SENTINEL) vs /\
    tag = string_of_ascii (map value_char vs) /\
    v = d0 * BASE37_RADIX * BASE37_RADIX + d1 * BASE37_RADIX + d2.
Proof.
  unfold unpack_tag. destruct (Z.leb_spec BASE37_MAX v) as [|Hlt]; [done|]. intros H0 H.
  destruct (base37_digits_inv v) as (d0 & d1 & d2 & Hd & ? & ? & ? & Hv); [done|].
  rewrite Hd in H. split; [done|]. unfold BASE37_SENTINEL in *. cbn [position] in H.
  destruct (Z.eqb_spec 36 d0); [done|]. destruct (Z.eqb_spec 36 d1).
  - simpl in H. destruct (Z.eqb_spec d2 36); simplify_eq/=.
    exists [d0], d0, 36, 36. split_and!; try done; simpl; try lia. by repeat constructor; lia.
  - destruct (Z.eqb_spec 36 d2); simplify_eq/=.
    + exists [d0; d1], d0, d1, 36. split_and!; try done; simpl; try lia. by repeat constructor; lia.
    + exists [d0; d1; d2], d0, d1, d2.
      split_and!; try done; simpl; try lia. by repeat constructor; lia.
Qed.

(** [value_char] is only applied to base-37 digits that are not the sentinel:
    the [unreachable!] arm of the source is not reached. *)
Lemma unpack_tag_value_char v tag :
  0 <= v -> unpack_tag v = Ok tag -> Forall tag_char (chars tag).
Proof.
  intros H0 (_ & vs & _ & _ & _ & _ & _ & Hvs & -> & _)%unpack_tag_inv; [|done].
  apply collect_value_chars in Hvs as [_ Hf].
  rewrite chars_string_of_ascii; [done|]. eapply Forall_impl; [done|]. auto with bits.
Qed.

Lemma unpack_pack_tag tag v : pack_tag tag = Ok v -> unpack_tag v = Ok tag.
Proof.
  intros ([_ Hv] & vs & d0 & d1 & d2 & Happ & Hlen & Hvs & Hmap & ->)%pack_tag_inv.
  erewrite unpack_digits by done. rewrite Hmap, string_of_ascii_chars; [done|].
  eapply Forall_impl; [done|]. auto with bits.
Qed.

Lemma pack_unpack_tag v tag : 0 <= v -> unpack_tag v = Ok tag -> pack_tag tag = Ok v.
Proof.
  intros H0 (_ & vs & d0 & d1 & d2 & Happ & Hlen & Hvs & -> & ->)%unpack_tag_inv; [|done].
  destruct (collect_value_chars vs Hvs) as [Hc Hf]. unfold pack_tag.
  rewrite chars_string_of_ascii by (eapply Forall_impl; [done|]; auto with bits).
  rewrite length_map, Hc. do 2 (case_decide; [lia|]). by rewrite Happ.
Qed.

Lemma pack_tag_valid tag : (exists v, pack_tag tag = Ok v) <-> valid_tag tag.
Proof.
  split; [intros [v Hv]; by apply pack_tag_inv in Hv as [? _]|].
  intros [Hlen Hf]. unfold pack_tag. do 2 (case_decide; [lia|]).
  destruct (collect tag_char_value (chars tag)) as [vs|] eqn:Hc.
  - apply collect_tag_values in Hc as (_ & _ & _ & Hl).
    destruct vs as [|? [|? [|? [|]]]]; simpl in *; rewrite <- Hl in *; simpl; eauto; lia.
  - exfalso. revert e Hc. clear Hlen H H0. induction Hf as [|c cs Hch _ IH]; intros e Hc; [done|].
    simpl in Hc. destruct (tag_char_value_total c Hch) as [w Hw]. rewrite Hw in Hc.
    destruct (collect tag_char_value cs); [done|]. by eapply IH.
Qed.

(** ** Base 32 *)

Definition b32 (value : Z) : string :=
  string_of_ascii (map alphabet_at (to_digits 32 ID_LEN value [])).

Lemma digits32_elem d : 0 <= d < 32 -> d ∈ map Z.of_nat (seq 0 32).
Proof.
  intros. apply list_elem_of_In, in_map_iff. exists (Z.to_nat d). split; [lia|]. apply in_seq. lia.
Qed.

Lemma crockford_value_at d :
  0 <= d < 32 -> crockford_value (alphabet_at d) = Some d /\ is_ascii (alphabet_at d).
Proof.
  intros Hd%digits32_elem. revert d Hd. apply Forall_forall.
  vm_compute. repeat constructor; discriminate.
Qed.

Lemma crockford_value_Some ch d :
  crockford_value ch = Some d -> 0 <= d < 32 /\ alphabet_at d = ch.
Proof.
  unfold crockford_value. case_match; [|done]. intros (i & Hi & ->)%fmap_Some.
  specialize (position_lt _ _ _ Hi) as Hlt. change (length CROCKFORD_ALPHABET) with 32%nat in Hlt.
  apply position_Some in Hi as (c & Hc & ->%Z.eqb_eq). split; [lia|].
  unfold alphabet_at. rewrite Nat2Z.id. erewrite nth_lookup, Hc. done.
Qed.

Lemma encode_loop_digits n value acc :
  encode_loop n value acc = map alphabet_at (to_digits 32 n value []) ++ acc.
Proof.
  revert value acc; induction n as [|n IH]; intros value acc; [done|].
  cbn [encode_loop to_digits]. rewrite IH, (to_digits_acc 32 n _ [_]).
  change (Z.land value 31) with (Z.land value (Z.ones 5)).
  rewrite Z.land_ones, Z.shiftr_div_pow2 by lia.
  rewrite map_app, <- app_assoc. done.
Qed.

Lemma decode_loop_inv v cs w :
  0 <= v <= u128_max -> decode_loop v cs = Ok w ->
  0 <= w <= u128_max /\
  exists ds, cs = map alphabet_at ds /\ Forall (is_digit 32) ds /\ w = of_digits 32 v ds.
Proof.
  revert v; induction cs as [|ch cs IH]; intros v Hv; cbn [decode_loop].
  { intros [= <-]. split; [done|]. by exists []. }
  destruct (crockford_value ch) as [d|] eqn:Hd; [|done]. cbn [ok_or].
  apply crockford_value_Some in Hd as [Hd Hch].
  destruct (checked_u128 (v * 32) ≫= _) as [v'|] eqn:Hr; [|done]. cbn [ok_or].
  apply bind_Some in Hr as (? & [-> _]%checked_u128_Some & [-> ?]%checked_u128_Some).
  intros (? & ds & -> & ? & ->)%IH; [|lia]. split; [done|].
  exists (d :: ds). rewrite <- Hch. split_and!; [done|by constructor|done].
Qed.

Lemma decode_loop_digits v ds :
  0 <= v -> Forall (is_digit 32) ds -> of_digits 32 v ds <= u128_max ->
  decode_loop v (map alphabet_at ds) = Ok (of_digits 32 v ds).
Proof.
  intros Hv Hds. revert v Hv; induction Hds as [|d ds Hd Hds IH]; intros v Hv Hmax; [done|].
  unfold is_digit in Hd. cbn [map decode_loop of_digits] in *.
  destruct (crockford_value_at d Hd) as [-> _]. cbn [ok_or].
  assert (v * 32 + d <= u128_max) as Hle.
  { etrans; [|done]. rewrite of_digits_acc by lia. specialize (of_digits_range 32 ltac:(lia) ds Hds).
    specialize (Z.pow_pos_nonneg 32 (Z.of_nat (length ds))). nia. }
  rewrite checked_u128_ok by lia. cbn.
  rewrite checked_u128_ok by lia. cbn [ok_or].
  apply IH; [lia|done].
Qed.

Lemma u128_max_b32 : u128_max < 32 ^ Z.of_nat ID_LEN.
Proof. by vm_compute. Qed.

Lemma b32_ascii value : Forall is_ascii (map alphabet_at (to_digits 32 ID_LEN value [])).
Proof.
  apply Forall_map. eapply Forall_impl; [by apply to_digits_range|].
  intros d Hd. by apply crockford_value_at.
Qed.

Lemma chars_b32 value : chars (b32 value) = map alphabet_at (to_digits 32 ID_LEN value []).
Proof. apply chars_string_of_ascii, b32_ascii. Qed.

Lemma decode_b32 value :
  0 <= value <= u128_max ->
  decode_crockford_base32 (b32 value) = Ok (to_be_bytes PACKED_LEN value).
Proof.
  intros Hv. specialize u128_max_b32 as Hmax. unfold decode_crockford_base32.
  rewrite chars_b32, length_map, to_digits_length. case_decide; [|done].
  rewrite decode_loop_digits, of_to_digits; try done; try lia.
  - by apply to_digits_range.
  - rewrite of_to_digits; lia.
Qed.

Lemma decode_crockford_inv id packed :
  decode_crockford_base32 id = Ok packed ->
  exists value, 0 <= value <= u128_max /\ id = b32 value /\ packed = to_be_bytes PACKED_LEN value.
Proof.
  unfold decode_crockford_base32. case_decide as Hlen; [|done].
  destruct (decode_loop 0 (chars id)) as [value|] eqn:Hl; [|done]. intros [= <-].
  apply decode_loop_inv in Hl as (Hv & ds & Hcs & Hds & Hval); [|by vm_compute].
  exists value. split_and!; [lia..| |done]. unfold b32.
  rewrite Hcs, length_map in Hlen.
  rewrite <- Hlen, Hval, to_of_digits by (done || lia).
  rewrite <- Hcs, string_of_ascii_chars; [done|]. rewrite Hcs. apply Forall_map.
  eapply Forall_impl; [done|]. intros d Hd. by apply crockford_value_at.
Qed.

(** ** The packed bytes *)

Lemma to_be_bytes_range n v : Forall (is_digit 256) (to_be_bytes n v).
Proof. by apply to_digits_range. Qed.

Lemma from_to_be_bytes n v : 0 <= v < 256 ^ Z.of_nat n -> from_be_bytes (to_be_bytes n v) = v.
Proof. intros. by apply of_to_digits. Qed.

Lemma to_from_be_bytes n l :
  length l = n -> Forall (is_digit 256) l -> to_be_bytes n (from_be_bytes l) = l.
Proof. intros <- Hl. by apply to_of_digits. Qed.

Lemma from_be_bytes_range n l :
  length l = n -> Forall (is_digit 256) l -> 0 <= from_be_bytes l < 256 ^ Z.of_nat n.
Proof. intros <- Hl. by apply of_digits_range. Qed.

Lemma encode_crockford_b32 packed :
  encode_crockford_base32 packed = b32 (from_be_bytes packed).
Proof. unfold encode_crockford_base32, b32. by rewrite encode_loop_digits, app_nil_r. Qed.

Lemma timestamp_seconds_Ok ts sec :
  timestamp_seconds ts = Ok sec ->
  0 <= sec <= u32_max /\ custom_epoch + sec * nanos_per_sec = ts - (ts - custom_epoch) mod nanos_per_sec.
Proof.
  unfold timestamp_seconds. destruct (Z.ltb_spec ts custom_epoch) as [|Hge]; [done|].
  rewrite Z.quot_div_nonneg by (unfold nanos_per_sec; lia).
  destruct (Z.leb_spec ((ts - custom_epoch) / nanos_per_sec) u32_max); [|done]. intros [= <-].
  split; [split; [apply Z.div_pos; unfold nanos_per_sec; lia|done]|].
  specialize (Z.div_mod (ts - custom_epoch) nanos_per_sec). unfold nanos_per_sec in *. lia.
Qed.

Lemma timestamp_seconds_epoch sec :
  0 <= sec <= u32_max -> timestamp_seconds (custom_epoch + sec * nanos_per_sec) = Ok sec.
Proof.
  intros H. unfold timestamp_seconds. destruct (Z.ltb_spec (custom_epoch + sec * nanos_per_sec) custom_epoch).
  { unfold nanos_per_sec in *. lia. }
  replace (custom_epoch + sec * nanos_per_sec - custom_epoch) with (sec * nanos_per_sec) by lia.
  rewrite Z.quot_mul by done. destruct (Z.leb_spec sec u32_max); [done|lia].
Qed.

(** The instant an ID keeps: fractions of a second are dropped. *)
Definition to_second (ts : DateTime) : DateTime := ts - (ts - custom_epoch) mod nanos_per_sec.

Definition byte_list (n : nat) (l : list Z) : Prop := length l = n /\ Forall (is_digit 256) l.

#[export] Instance byte_list_dec n l : Decision (byte_list n l).
Proof. unfold byte_list, is_digit. apply _. Defined.

Lemma encode_inv site env slot ts rnd id :
  encode_with_fixed_random site env slot ts rnd = Ok id ->
  exists ps pe sec, pack_tag site = Ok ps /\ pack_tag env = Ok pe /\ timestamp_seconds ts = Ok sec /\
    id = b32 (from_be_bytes ([ID_VERSION] ++ to_be_bytes 2 ps ++ to_be_bytes 2 pe
                             ++ to_be_bytes 4 sec ++ to_be_bytes 2 slot ++ rnd)).
Proof.
  unfold encode_with_fixed_random.
  destruct (pack_tag site) as [ps|]; [|done]. destruct (pack_tag env) as [pe|]; [|done].
  destruct (timestamp_seconds ts) as [sec|]; [|done]. intros [= <-].
  exists ps, pe, sec. by rewrite encode_crockford_b32.
Qed.

Lemma decode_encode_aux site env slot ts rnd id :
  0 <= slot <= u16_max -> byte_list 5 rnd ->
  encode_with_fixed_random site env slot ts rnd = Ok id ->
  decode id = Ok (mkDecodedId ID_VERSION site env (to_second ts) slot rnd).
Proof.
  intros Hslot [Hlen Hrnd] (ps & pe & sec & Hs & He & Ht & ->)%encode_inv.
  specialize (pack_tag_range _ _ Hs) as Hps. specialize (pack_tag_range _ _ He) as Hpe.
  apply timestamp_seconds_Ok in Ht as [Hsec Hts]. unfold BASE37_MAX, BASE37_RADIX in *.
  set (packed := _ ++ _). assert (Forall (is_digit 256) packed) as Hp.
  { unfold packed. rewrite !Forall_app. split_and!; try apply to_be_bytes_range; [|done].
    by repeat constructor. }
  assert (length packed = 16%nat) as Hl.
  { unfold packed, to_be_bytes. rewrite !length_app, !to_digits_length, Hlen. done. }
  unfold decode. rewrite decode_b32.
  2: { specialize (from_be_bytes_range 16 packed Hl Hp). unfold u128_max. lia. }
  rewrite to_from_be_bytes by done. unfold packed. clear Hp Hl packed.
  destruct rnd as [|r0 [|r1 [|r2 [|r3 [|r4 [|]]]]]]; try discriminate Hlen.
  set (packed := _ ++ _).
  change (slice 0 1 packed) with [ID_VERSION].
  change (slice 1 3 packed) with (to_be_bytes 2 ps).
  change (slice 3 5 packed) with (to_be_bytes 2 pe).
  change (slice 5 9 packed) with (to_be_bytes 4 sec).
  change (slice 9 11 packed) with (to_be_bytes 2 slot).
  change (slice 11 16 packed) with [r0; r1; r2; r3; r4].
  unfold u32_max, u16_max in *.
  change (negb (from_be_bytes [ID_VERSION] =? ID_VERSION)) with false. cbv iota.
  rewrite !from_to_be_bytes by (simpl; lia).
  rewrite (unpack_pack_tag site), (unpack_pack_tag env) by done.
  unfold to_second. by rewrite <- Hts.
Qed.

Lemma decode_inv id d :
  decode id = Ok d ->
  exists packed, byte_list 16 packed /\ id = b32 (from_be_bytes packed) /\ decode_crockford_base32 id = Ok packed.
Proof.
  unfold decode. destruct (decode_crockford_base32 id) as [packed|] eqn:Hd; [|done]. intros _.
  apply decode_crockford_inv in Hd as (v & Hv & -> & ->).
  exists (to_be_bytes PACKED_LEN v). split_and!; [| |done].
  - split; [apply to_digits_length | apply to_be_bytes_range].
  - rewrite from_to_be_bytes; [done|]. unfold u128_max, PACKED_LEN in *. simpl. lia.
Qed.

Lemma encode_decode_aux id d :
  decode id = Ok d ->
  encode_with_fixed_random d.(site) d.(env) d.(broker_slot) d.(timestamp) d.(random) = Ok id.
Proof.
  intros Hd. destruct (decode_inv id d Hd) as (packed & [Hl Hp] & Hid & Hc).
  unfold decode in Hd. rewrite Hc in Hd. clear Hc.
  do 16 (destruct packed as [|? packed]; [discriminate Hl|]). destruct packed; [|discriminate Hl].
  cbn [slice take drop Nat.sub] in Hd.
  destruct (negb _) eqn:Hver in Hd; [done|]. apply negb_false_iff, Z.eqb_eq in Hver.
  destruct (unpack_tag (from_be_bytes [_; _])) as [s|] eqn:Hs in Hd; [|done].
  destruct (unpack_tag (from_be_bytes [_; _])) as [e|] eqn:He in Hd; [|done].
  injection Hd as <-. cbn [site env broker_slot timestamp random]. subst id.
  repeat match goal with
  | Hf : Forall (is_digit 256) (_ :: _) |- _ =>
      let H := fresh "Hb" in apply Forall_cons in Hf as [H Hf]
  end.
  assert (forall l, Forall (is_digit 256) l -> 0 <= from_be_bytes l) as Hpos.
  { intros l Hf. by apply (from_be_bytes_range (length l) l). }
  unfold encode_with_fixed_random.
  apply pack_unpack_tag in Hs as ->; [|apply Hpos; solve_Forall].
  apply pack_unpack_tag in He as ->; [|apply Hpos; solve_Forall].
  rewrite timestamp_seconds_epoch.
  2: { match goal with |- 0 <= from_be_bytes ?l <= _ =>
         assert (0 <= from_be_bytes l < 256 ^ Z.of_nat 4) as Hr
           by (apply from_be_bytes_range; [done|solve_Forall]) end.
       unfold u32_max. simpl Z.of_nat in Hr. lia. }
  rewrite encode_crockford_b32.
  rewrite !to_from_be_bytes by (done || solve_Forall).
  simpl app. replace ID_VERSION with z by (unfold from_be_bytes in Hver; simpl in Hver; lia). done.
Qed.

(** ** Properties *)

(** C10. Round trip: decoding the ID a broker minted gives back the site, the
    environment, the broker slot, the random bytes and the creation time to
    the second, for every tag, slot and timestamp the encoder accepts. *)
Theorem decode_encode site env slot ts rnd id :
  0 <= slot <= u16_max -> byte_list 5 rnd ->
  encode rnd site env slot ts = Ok id ->
  decode id = Ok (mkDecodedId ID_VERSION site env (to_second ts) slot rnd).
Proof. apply decode_encode_aux. Qed.

Lemma decode_encode_witness :
  decode "017sg4fag005yaa01a04hmasw9" =
  Ok (mkDecodedId 1 "bol" "dev" (to_second (custom_epoch + 97445999999999)) 42
        [0x01; 0x23; 0x45; 0x67; 0x89]).
Proof.
  apply (decode_encode "bol" "dev" 42 (custom_epoch + 97445999999999)
           [0x01; 0x23; 0x45; 0x67; 0x89]).
  - by vm_compute.
  - apply (bool_decide_unpack _). by vm_compute.
  - by vm_compute.
Defined.

(** C29. Canonical form: an ID that decodes is the very string the encoder
    produces from the decoded fields, so two different strings never decode to
    the same fields (a request ID cannot be spelled in two ways). *)
Theorem encode_decode id d :
  decode id = Ok d ->
  encode d.(random) d.(site) d.(env) d.(broker_slot) d.(timestamp) = Ok id.
Proof. apply encode_decode_aux. Qed.

Lemma encode_decode_witness :
  encode [0x01; 0x23; 0x45; 0x67; 0x89] "bol" "dev" 42 (custom_epoch + 97445 * nanos_per_sec)
  = Ok "017sg4fag005yaa01a04hmasw9"%string.
Proof.
  apply (encode_decode "017sg4fag005yaa01a04hmasw9"
           (mkDecodedId 1 "bol" "dev" (custom_epoch + 97445 * nanos_per_sec) 42
              [0x01; 0x23; 0x45; 0x67; 0x89])).
  by vm_compute.
Defined.

(** Encoding succeeds exactly on valid tags and representable instants. *)
Lemma encode_succeeds_iff rnd site env slot ts :
  is_ok (encode rnd site env slot ts) = true <->
  valid_tag site /\ valid_tag env /\
  custom_epoch <= ts < custom_epoch + 2 ^ 32 * nanos_per_sec.
Proof.
  unfold encode, encode_with_fixed_random. rewrite <- !pack_tag_valid.
  assert (is_ok (timestamp_seconds ts) = true <->
          custom_epoch <= ts < custom_epoch + 2 ^ 32 * nanos_per_sec) as Hts.
  { unfold timestamp_seconds. destruct (Z.ltb_spec ts custom_epoch); [by split; [discriminate|lia]|].
    rewrite Z.quot_div_nonneg by (unfold nanos_per_sec; lia).
    destruct (Z.leb_spec ((ts - custom_epoch) / nanos_per_sec) u32_max) as [Hle|Hgt];
      unfold u32_max, nanos_per_sec in *; split; intros; try done;
      Z.div_mod_to_equations; lia. }
  destruct (pack_tag site) as [ps|]; [|simpl; naive_solver].
  destruct (pack_tag env) as [pe|]; [|simpl; naive_solver].
  rewrite <- Hts. destruct (timestamp_seconds ts); simpl; naive_solver.
Qed.

(** Two brokers never mint the same ID: IDs of different (site, env, slot)
    triples differ whatever the clock and the random bytes. *)
Lemma ids_of_brokers_differ s1 e1 n1 t1 r1 s2 e2 n2 t2 r2 id :
  0 <= n1 <= u16_max -> 0 <= n2 <= u16_max -> byte_list 5 r1 -> byte_list 5 r2 ->
  encode r1 s1 e1 n1 t1 = Ok id -> encode r2 s2 e2 n2 t2 = Ok id ->
  s1 = s2 /\ e1 = e2 /\ n1 = n2.
Proof.
  intros ? ? ? ? H1 H2. apply decode_encode_aux in H1; [|done..].
  apply decode_encode_aux in H2; [|done..]. rewrite H1 in H2. by injection H2 as -> -> _ -> _.
Qed.
