(* ===== verification/Job.v ===== *)
(** * Jobs ([job.rs], and the poller guard of [runtime/maintenance.rs])

    A job value carries its domain fields and a handle to the lifecycle cell
    its clones share (the [Arc]'d atomics of the source).  The cells live in a
    store [gmap nat Lifecycle], so a write through one clone is seen through
    every other.  Instants are nanoseconds on the monotonic clock; the process
    epoch [EPOCH] is 0. *)
From S2P Require Import Prelude Json Errors.

Inductive PendingStatus : Type := Queued | Processing.

#[export] Instance PendingStatus_eq_dec : EqDecision PendingStatus.
Proof. solve_decision. Defined.

Module PendingStatus.
Open Scope string_scope.

Definition as_u8 (s : PendingStatus) : Z := match s with Queued => 0 | Processing => 1 end.

Definition as_str (s : PendingStatus) : string :=
  match s with Queued => "queued" | Processing => "processing" end.

Definition from_header (value : string) : option PendingStatus :=
  if decide (value = "queued") then Some Queued
  else if decide (value = "processing") then Some Processing
  else None.

Lemma from_header_as_str s : from_header (as_str s) = Some s.
Proof. by destruct s. Qed.
End PendingStatus.

Definition instant_to_nanos (instant : Z) : Z := wrap 64 (Z.max 0 instant).
Definition nanos_to_instant (nanos : Z) : Z := nanos.

(** The atomics shared by all clones of a job.  [notify] and [dispatch_notify]
    count the [notify_waiters] calls. *)
Record Lifecycle : Type := mkLifecycle {
  cancelled : bool;
  active_pollers : Z;
  reconnect_deadline_nanos : Z;
  pending_status_u8 : Z;
  notify : nat;
  dispatch_notify : nat
}.

Definition new_lifecycle (now : Z) : Lifecycle :=
  mkLifecycle false 0 (instant_to_nanos now) (PendingStatus.as_u8 Queued) 0 0.

Definition is_client_present (now : Z) (c : Lifecycle) : bool :=
  (0 <? c.(active_pollers)) || (now <? nanos_to_instant c.(reconnect_deadline_nanos)).

Definition cell_status (c : Lifecycle) : PendingStatus :=
  if c.(pending_status_u8) =? PendingStatus.as_u8 Processing then Processing else Queued.

Definition cell_request_cancel (c : Lifecycle) : Lifecycle :=
  mkLifecycle true c.(active_pollers) c.(reconnect_deadline_nanos) c.(pending_status_u8)
    c.(notify) (S c.(dispatch_notify)).

Definition cell_mark_processing (c : Lifecycle) : Lifecycle :=
  let previous := c.(pending_status_u8) in
  let woken := if negb (previous =? PendingStatus.as_u8 Processing)
               then S c.(notify) else c.(notify) in
  mkLifecycle c.(cancelled) c.(active_pollers) c.(reconnect_deadline_nanos)
    (PendingStatus.as_u8 Processing) woken c.(dispatch_notify).

Definition cell_set_reconnect_deadline (deadline : Z) (c : Lifecycle) : Lifecycle :=
  mkLifecycle c.(cancelled) c.(active_pollers) (instant_to_nanos deadline)
    c.(pending_status_u8) c.(notify) c.(dispatch_notify).

(** [ConnectedGuard::new] and its [Drop]. *)
Definition guard_new (c : Lifecycle) : Lifecycle :=
  mkLifecycle c.(cancelled) (wrap 64 (c.(active_pollers) + 1)) c.(reconnect_deadline_nanos)
    c.(pending_status_u8) c.(notify) (S c.(dispatch_notify)).

Definition guard_drop (now reconnect_buffer : Z) (c : Lifecycle) : Lifecycle :=
  mkLifecycle c.(cancelled) (wrap 64 (c.(active_pollers) - 1))
    (instant_to_nanos (now + reconnect_buffer))
    c.(pending_status_u8) c.(notify) (S c.(dispatch_notify)).

Abbreviation Cells := (gmap nat Lifecycle).

(** db/mod.rs *)
Record PersistentJobRecord (V : Type) : Type := mkRecord {
  rec_job_id : string;
  rec_broker_id : string;
  rec_original_request : V;
  rec_user : V;
  rec_metadata : V;
  rec_created_at : Z
}.
Arguments mkRecord {V}.
Arguments rec_job_id {V}. Arguments rec_broker_id {V}. Arguments rec_original_request {V}.
Arguments rec_user {V}. Arguments rec_metadata {V}. Arguments rec_created_at {V}.

(** [persisted] and [result] belong to one job object and are not shared by
    its clones. *)
Record Job (V : Type) : Type := mkJob {
  id : string;
  original_request : V;
  request : V;
  user : V;
  created_at : Z;
  metadata : V;
  cell : nat;
  persisted : bool;
  job_result : option JobResult
}.
Arguments mkJob {V}.
Arguments id {V}. Arguments original_request {V}. Arguments request {V}. Arguments user {V}.
Arguments created_at {V}. Arguments metadata {V}. Arguments cell {V}. Arguments persisted {V}.
Arguments job_result {V}.

Section Job.
Context {V : Type} `{JsonValue V}.

(** [Job::new_with_id]; [l] is the handle of the freshly allocated cell. *)
Definition new_with_id (jid : string) (req : V) (now_utc : Z) (l : nat) : Job V :=
  mkJob jid req req (object []) now_utc (object []) l false None.

(** [Job::new] draws the id from a UUID generator. *)
Definition new (uuid : string) (req : V) (now_utc : Z) (l : nat) : Job V :=
  new_with_id uuid req now_utc l.

Definition restore (record : PersistentJobRecord V) (l : nat) : Job V :=
  mkJob record.(rec_job_id) record.(rec_original_request) record.(rec_original_request)
    record.(rec_user) record.(rec_created_at) record.(rec_metadata) l false None.

Definition clone (job : Job V) : Job V :=
  mkJob job.(id) job.(original_request) job.(request) job.(user) job.(created_at)
    job.(metadata) job.(cell) false None.

Definition on_cell {A} (d : A) (f : Lifecycle -> A) (h : Cells) (job : Job V) : A :=
  from_option f d (h !! job.(cell)).

Definition is_cancelled (h : Cells) (job : Job V) : bool := on_cell false cancelled h job.
Definition client_present (now : Z) (h : Cells) (job : Job V) : bool :=
  on_cell false (is_client_present now) h job.
Definition pending_status (h : Cells) (job : Job V) : PendingStatus :=
  on_cell Queued cell_status h job.

Definition request_cancel (h : Cells) (job : Job V) : Cells :=
  alter cell_request_cancel job.(cell) h.
Definition mark_processing (h : Cells) (job : Job V) : Cells :=
  alter cell_mark_processing job.(cell) h.
Definition set_reconnect_deadline (deadline : Z) (h : Cells) (job : Job V) : Cells :=
  alter (cell_set_reconnect_deadline deadline) job.(cell) h.

(** The record [spawn_job] writes when the persistence delay expires. *)
Definition record_of (broker_id : string) (job : Job V) : PersistentJobRecord V :=
  mkRecord job.(id) broker_id job.(original_request) job.(user) job.(metadata) job.(created_at).

(** Shared by a clone: whatever is read through the original is read through
    the clone. *)
Lemma clone_shares now h (job : Job V) :
  is_cancelled h (clone job) = is_cancelled h job /\
  client_present now h (clone job) = client_present now h job /\
  pending_status h (clone job) = pending_status h job.
Proof. done. Qed.

Lemma mark_processing_seen h (job : Job V) :
  is_Some (h !! job.(cell)) ->
  pending_status (mark_processing h (clone job)) job = Processing.
Proof.
  intros [c Hc]. unfold pending_status, mark_processing, on_cell. simpl.
  rewrite lookup_alter_eq, Hc. done.
Qed.

(** A restored job restarts from the original request with a fresh
    lifecycle, and writing its record again gives the same record back. *)
Lemma record_of_restore record l :
  record_of record.(rec_broker_id) (restore record l) = record /\
  request (restore record l) = record.(rec_original_request) /\
  persisted (restore record l) = false /\ job_result (restore record l) = None.
Proof. by destruct record. Qed.
End Job.

(** ** Client presence

    The life of the poller guards of one job: each poll creates a guard and
    drops it when the poll ends, for whatever reason. *)
Inductive guard_event : Type :=
| GuardNew
| GuardDrop (now : Z).

Definition guard_step (reconnect_buffer : Z) (c : Lifecycle) (e : guard_event) : Lifecycle :=
  match e with
  | GuardNew => guard_new c
  | GuardDrop now => guard_drop now reconnect_buffer c
  end.

Definition guard_delta (n : Z) (e : guard_event) : Z :=
  match e with GuardNew => n + 1 | GuardDrop _ => n - 1 end.

Definition live_guards (n : Z) (es : list guard_event) : Z := foldl guard_delta n es.

(** A guard is dropped only once it exists, and there are fewer than 2^64. *)
Fixpoint well_bracketed (n : Z) (es : list guard_event) : bool :=
  match es with
  | [] => true
  | e :: es' => let n' := guard_delta n e in
                (0 <=? n') && (n' <=? u64_max) && well_bracketed n' es'
  end.

(** The deadline after the history: [deadline] until the first drop. *)
Definition last_deadline (reconnect_buffer deadline : Z) (es : list guard_event) : Z :=
  foldl (fun d e => match e with
                    | GuardNew => d
                    | GuardDrop now => instant_to_nanos (now + reconnect_buffer)
                    end) deadline es.

Lemma guards_count buffer c es :
  well_bracketed c.(active_pollers) es = true ->
  let c' := foldl (guard_step buffer) c es in
  c'.(active_pollers) = live_guards c.(active_pollers) es /\
  c'.(reconnect_deadline_nanos) = last_deadline buffer c.(reconnect_deadline_nanos) es.
Proof.
  revert c; induction es as [|e es IH]; intros c; [done|]. cbn [well_bracketed foldl].
  rewrite !andb_true_iff, !Z.leb_le. intros [[? ?] Hw].
  assert ((guard_step buffer c e).(active_pollers) = guard_delta c.(active_pollers) e) as Hd.
  { destruct e; simpl in *; apply Z.mod_small; unfold u64_max in *; lia. }
  specialize (IH (guard_step buffer c e)). rewrite Hd in IH. destruct (IH Hw) as [-> ->].
  by destruct e.
Qed.

(** Client presence: after any history of poller guards (submit polls,
    normal polls, however they end) the client of a job counts as present
    exactly when a guard is alive or the reconnect window opened by the last
    dropped guard has not passed; the poller count never leaks or wraps. *)
Theorem client_present_spec buffer t0 es now :
  well_bracketed 0 es = true ->
  is_client_present now (foldl (guard_step buffer) (new_lifecycle t0) es) =
  (0 <? live_guards 0 es) || (now <? last_deadline buffer (instant_to_nanos t0) es).
Proof.
  intros Hw. destruct (guards_count buffer (new_lifecycle t0) es Hw) as [Hp Hd].
  unfold is_client_present. by rewrite Hp, Hd.
Qed.

Lemma client_present_spec_witness :
  let es := [GuardNew; GuardNew; GuardDrop 7; GuardDrop 9] in
  is_client_present 13 (foldl (guard_step 5) (new_lifecycle 0) es) = true /\
  is_client_present 14 (foldl (guard_step 5) (new_lifecycle 0) es) = false.
Proof.
  split.
  - exact (client_present_spec 5 0 [GuardNew; GuardNew; GuardDrop 7; GuardDrop 9] 13 eq_refl).
  - exact (client_present_spec 5 0 [GuardNew; GuardNew; GuardDrop 7; GuardDrop 9] 14 eq_refl).
Defined.
