(* ===== verification/Queue.v ===== *)
(** * Dispatcher queues ([dispatcher/queue/])

    What every queue promises its dispatcher ([QueueLaws]), the FIFO queue and
    the cost-weighted queue with its background worker.  The age-priority queue
    is in [AgePriority]. *)
From S2P Require Import Prelude.
From Stdlib Require Import Sorted Permutation.

Inductive QueueKind : Type := Fifo | CostWeighted | AgePriority.

#[export] Instance QueueKind_eq_dec : EqDecision QueueKind.
Proof. solve_decision. Defined.

(** The outcome of polling [dequeue]: still waiting, [None] because the queue
    is closed, or a job. *)
Inductive dequeue_result (J Q : Type) : Type :=
| Waiting
| Closed
| Dequeued (j : J) (q : Q).
Arguments Waiting {J Q}.
Arguments Closed {J Q}.
Arguments Dequeued {J Q} j q.

(** The [Queue] trait. *)
Class QueueOps (Q J : Type) : Type := {
  enqueue : J -> Q -> Q;
  dequeue : Q -> dequeue_result J Q;
  close : Q -> Q;
  buffered : Q -> list J;
  is_open : Q -> bool
}.

(** The contract: no job is duplicated or invented, an open queue loses none,
    and once closed it takes no more. *)
Class QueueLaws (Q J : Type) `{QueueOps Q J} : Prop := {
  enqueue_open q j : is_open q = true -> buffered (enqueue j q) ≡ₚ j :: buffered q;
  enqueue_is_open q j : is_open (enqueue j q) = is_open q;
  enqueue_closed q j : is_open q = false -> buffered (enqueue j q) = buffered q;
  dequeue_some q j q' : dequeue q = Dequeued j q' ->
    buffered q ≡ₚ j :: buffered q' /\ is_open q' = is_open q;
  dequeue_waiting q : dequeue q = Waiting -> buffered q = [] /\ is_open q = true;
  dequeue_closed q : dequeue q = Closed -> is_open q = false;
  close_is_open q : is_open (close q) = false
}.

(** ** fifo.rs *)
Record FifoQueue (J : Type) : Type := mkFifo { tx : bool; channel : list J }.
Arguments mkFifo {J}. Arguments tx {J}. Arguments channel {J}.

Module FifoQueue.
Section fifo.
Context {J : Type}.

Definition new : FifoQueue J := mkFifo true [].

Definition enqueue (job : J) (q : FifoQueue J) : FifoQueue J :=
  if q.(tx) then mkFifo true (q.(channel) ++ [job]) else q.

Definition dequeue (q : FifoQueue J) : dequeue_result J (FifoQueue J) :=
  match q.(channel) with
  | j :: rest => Dequeued j (mkFifo q.(tx) rest)
  | [] => if q.(tx) then Waiting else Closed
  end.

Definition close (q : FifoQueue J) : FifoQueue J := mkFifo false q.(channel).
End fifo.
End FifoQueue.

#[export] Instance fifo_ops J : QueueOps (FifoQueue J) J := {|
  enqueue := FifoQueue.enqueue;
  dequeue := FifoQueue.dequeue;
  close := FifoQueue.close;
  buffered := channel;
  is_open := tx
|}.

#[export] Instance fifo_laws J : QueueLaws (FifoQueue J) J.
Proof.
  split.
  - intros [[] c] j ?; simpl in *; [|done]. by rewrite Permutation_app_comm.
  - by intros [[] c] j.
  - by intros [[] c] j.
  - intros [b [|j' c]] j q'; unfold dequeue; simpl; [by destruct b|]. intros [= -> <-]. done.
  - intros [[] []]; by intros.
  - intros [[] []]; by intros.
  - done.
Qed.

(** Running [dequeue] until it waits or the queue is drained. *)
Fixpoint drain {Q J} `{QueueOps Q J} (fuel : nat) (q : Q) : list J :=
  match fuel with
  | O => []
  | S n => match dequeue q with
           | Dequeued j q' => j :: drain n q'
           | _ => []
           end
  end.

Lemma fifo_enqueue_all {J} (js : list J) c :
  foldl (fun q j => enqueue j q) (mkFifo true c) js = mkFifo true (c ++ js).
Proof.
  revert c; induction js as [|j js IH]; intros c; cbn [foldl]; [by rewrite app_nil_r|].
  change (enqueue j (mkFifo true c)) with (mkFifo true (c ++ [j])).
  by rewrite IH, <- app_assoc.
Qed.

Lemma fifo_drain {J} b (c : list J) n :
  (length c <= n)%nat -> drain n (mkFifo b c) = c.
Proof.
  revert n; induction c as [|j c IH]; intros [|n] Hn; simpl in *; try done; try lia.
  - by destruct b.
  - f_equal. apply IH. lia.
Qed.

(** FIFO: the jobs come out in the order they went in, also when the queue
    was closed meanwhile (buffered items drain), and jobs enqueued after the
    close never come out. *)
Theorem fifo_order {J} (before after : list J) (n : nat) :
  (length before <= n)%nat ->
  drain n (foldl (fun q j => enqueue j q)
             (close (foldl (fun q j => enqueue j q) FifoQueue.new before)) after) = before.
Proof.
  intros Hn. unfold FifoQueue.new. rewrite (fifo_enqueue_all before []).
  change (close _) with (mkFifo false before).
  assert (forall l, foldl (fun q j => enqueue j q) (mkFifo false before) l = mkFifo false before)
    as -> by (intros l; induction l; done).
  by apply fifo_drain.
Qed.

Lemma fifo_order_witness :
  drain 5 (foldl (fun q j => enqueue j q)
             (close (foldl (fun q j => enqueue j q) FifoQueue.new [1; 2; 3])) [4; 5]) = [1; 2; 3].
Proof. apply (fifo_order [1; 2; 3] [4; 5] 5). apply (bool_decide_unpack _). by vm_compute. Defined.

(** ** cost_weighted.rs *)

(** [Ordering::then]. *)
Definition ord_then (o1 o2 : comparison) : comparison :=
  match o1 with Eq => o2 | _ => o1 end.

Module CostWeightedQueue.
Record Entry (J : Type) : Type := mkEntry { cost : Z; seq : Z; job : J }.
Arguments mkEntry {J}. Arguments cost {J}. Arguments seq {J}. Arguments job {J}.

Inductive WorkerCmd (J : Type) : Type :=
| Enqueue (cost seq : Z) (job : J)
| Dequeue (reply : nat).
Arguments Enqueue {J}. Arguments Dequeue {J}.

Section cost_weighted.
Context {J : Type}.
(** [job.metadata["cost"].as_u64().unwrap_or(0)]. *)
Context (job_cost : J -> Z).

(** [Ord for Entry], which the [BinaryHeap] of the source pops by. *)
Definition cmp (self other : Entry J) : comparison :=
  ord_then (other.(cost) ?= self.(cost)) (other.(seq) ?= self.(seq)).

(** [BinaryHeap::pop]: a greatest element. *)
Fixpoint pop (heap : list (Entry J)) : option (Entry J * list (Entry J)) :=
  match heap with
  | [] => None
  | e :: heap' =>
      match pop heap' with
      | None => Some (e, [])
      | Some (m, rest) => match cmp e m with
                          | Lt => Some (m, e :: rest)
                          | _ => Some (e, heap')
                          end
      end
  end.

(** The inner loop of [worker].  A waiter is the handle of its one-shot
    reply channel; [alive] tells whether the receiver still exists, so
    whether [reply.send] succeeds. *)
Fixpoint serve (alive : nat -> bool) (waiters : list nat) (heap : list (Entry J))
    : list (nat * J) * list (Entry J) * list nat :=
  match waiters with
  | [] => ([], heap, [])
  | reply :: waiters' =>
      match pop heap with
      | None => ([], heap, waiters)
      | Some (entry, heap') =>
          if alive reply then
            let '(sent, heap'', rest) := serve alive waiters' heap' in
            ((reply, entry.(job)) :: sent, heap'', rest)
          else
            serve alive waiters' (mkEntry (job_cost entry.(job)) entry.(seq) entry.(job) :: heap')
      end
  end.

(** One turn of [worker]: a command, then the inner loop. *)
Definition worker_turn (alive : nat -> bool) (cmd : WorkerCmd J)
    (heap : list (Entry J)) (waiters : list nat)
    : list (nat * J) * list (Entry J) * list nat :=
  match cmd with
  | Enqueue cost seq job => serve alive waiters (mkEntry cost seq job :: heap)
  | Dequeue reply => serve alive (waiters ++ [reply]) heap
  end.

(** The handle: the sender (gone once closed), the sequence counter, the
    [dead] flag and the commands sent so far. *)
Record State : Type := mkState {
  sender : bool;
  next_seq : Z;
  dead : bool;
  inbox : list (WorkerCmd J)
}.

Definition new : State := mkState true 0 false [].

Definition enqueue (j : J) (q : State) : State :=
  let c := job_cost j in
  let s := q.(next_seq) in
  let next := wrap 64 (s + 1) in
  if q.(sender) then mkState true next q.(dead) (q.(inbox) ++ [Enqueue c s j])
  else mkState false next true q.(inbox).

(** [dequeue] up to the await: [Some reply] is the pending reply channel,
    [None] the immediate [None]. *)
Definition dequeue (reply : nat) (q : State) : option nat * State :=
  if q.(dead) then (None, q)
  else if q.(sender)
       then (Some reply, mkState true q.(next_seq) false (q.(inbox) ++ [Dequeue reply]))
       else (None, mkState false q.(next_seq) true q.(inbox)).

(** The rest of [dequeue]: the reply came, or its sender was dropped. *)
Definition dequeue_reply (reply : option J) (q : State) : option J * State :=
  match reply with
  | Some j => (Some j, q)
  | None => (None, mkState q.(sender) q.(next_seq) true q.(inbox))
  end.

Definition close (q : State) : State := mkState false q.(next_seq) true q.(inbox).

(** *** Heap order *)

(** [e] leaves the heap no later than [e']. *)
Definition before (e e' : Entry J) : Prop :=
  e.(cost) < e'.(cost) \/ (e.(cost) = e'.(cost) /\ e.(seq) <= e'.(seq)).

Lemma cmp_before e e' : cmp e e' <> Lt <-> before e e'.
Proof.
  unfold cmp, before, ord_then.
  destruct (Z.compare_spec e'.(cost) e.(cost)), (Z.compare_spec e'.(seq) e.(seq)); split;
    intros; try done; try lia; right; lia.
Qed.

Lemma before_trans e1 e2 e3 : before e1 e2 -> before e2 e3 -> before e1 e3.
Proof. unfold before. lia. Qed.
Lemma before_total e e' : before e e' \/ before e' e.
Proof. unfold before. lia. Qed.
Lemma before_refl e : before e e.
Proof. unfold before. lia. Qed.

Lemma pop_None heap : pop heap = None -> heap = [].
Proof. destruct heap; [done|]. simpl. repeat case_match; done. Qed.

Lemma pop_Some heap m rest :
  pop heap = Some (m, rest) -> heap ≡ₚ m :: rest /\ Forall (before m) heap.
Proof.
  revert m rest; induction heap as [|e heap IH]; intros m rest; simpl; [done|].
  destruct (pop heap) as [[m' rest']|] eqn:Hp.
  - destruct (IH m' rest' eq_refl) as [Hperm Hmin].
    destruct (cmp e m') eqn:Hc; intros [= <- <-]; (split; [try done|]).
    + assert (before e m') by (apply cmp_before; congruence).
      constructor; [apply before_refl|].
      eapply Forall_impl; [done|]. intros. by eapply before_trans.
    + rewrite Hperm. by rewrite Permutation_swap.
    + constructor; [|done]. destruct (before_total m' e) as [?|Hb]; [done|].
      apply cmp_before in Hb. congruence.
    + assert (before e m') by (apply cmp_before; congruence).
      constructor; [apply before_refl|].
      eapply Forall_impl; [done|]. intros. by eapply before_trans.
  - apply pop_None in Hp as ->. intros [= <- <-]. split; [done|].
    constructor; [apply before_refl|constructor].
Qed.

(** Entries carry the cost of their job. *)
Definition entry_ok (e : Entry J) : Prop := e.(cost) = job_cost e.(job).

Lemma entry_ok_repush e : entry_ok e -> mkEntry (job_cost e.(job)) e.(seq) e.(job) = e.
Proof. destruct e. unfold entry_ok. simpl. by intros ->. Qed.

Lemma serve_spec alive waiters heap sent heap' rest :
  Forall entry_ok heap -> serve alive waiters heap = (sent, heap', rest) ->
  (exists es, map snd sent = map job es /\ heap ≡ₚ es ++ heap' /\
     StronglySorted before es /\ (forall e e', e ∈ es -> e' ∈ heap' -> before e e')) /\
  map fst sent ++ List.filter alive rest = List.filter alive waiters /\
  (rest = [] \/ heap' = []).
Proof.
  revert heap sent heap' rest; induction waiters as [|w ws IH];
    intros heap sent heap' rest Hok; cbn [serve].
  { intros [= <- <- <-]. split_and!; [|done|by left]. exists []. split_and!; try done.
    - constructor.
    - by intros ? ? ?%not_elem_of_nil. }
  destruct (pop heap) as [[m r]|] eqn:Hp.
  2: { apply pop_None in Hp as ->. intros [= <- <- <-]. split_and!; [|done|by right].
       exists []. split_and!; try done; [constructor|]. by intros ? ? ?%not_elem_of_nil. }
  apply pop_Some in Hp as [Hperm Hmin]. rewrite Hperm in Hok, Hmin.
  pose proof Hok as [Hm Hr]%Forall_cons. simpl. destruct (alive w) eqn:Ha.
  - destruct (serve alive ws r) as [[sent1 heap1] rest1] eqn:Hs. intros [= <- <- <-].
    destruct (IH r sent1 heap1 rest1 Hr Hs) as ((es & Hes & Hpe & Hsort & Hlt) & Hw & Hrest).
    split_and!; [|simpl; by rewrite Hw|done]. exists (m :: es).
    rewrite Forall_cons, Hpe, Forall_app in Hmin. destruct Hmin as (_ & Hm1 & Hm2).
    split_and!.
    + simpl. by rewrite Hes.
    + rewrite Hperm. simpl. by rewrite Hpe.
    + by constructor.
    + intros e e' [->|He]%elem_of_cons He'; [|by apply Hlt].
      by rewrite Forall_forall in Hm2; apply Hm2.
  - rewrite entry_ok_repush by done. intros Hs.
    destruct (IH (m :: r) sent heap' rest Hok Hs) as ((es & Hes & Hpe & Hrem) & Hrest).
    split; [|done]. exists es. rewrite Hperm. done.
Qed.

(** What [worker] has buffered once it has received [cmd]. *)
Definition heap_after (cmd : WorkerCmd J) (heap : list (Entry J)) : list (Entry J) :=
  match cmd with
  | Enqueue cost seq job => mkEntry cost seq job :: heap
  | Dequeue _ => heap
  end.
Definition waiters_after (cmd : WorkerCmd J) (waiters : list nat) : list nat :=
  match cmd with Enqueue _ _ _ => waiters | Dequeue reply => waiters ++ [reply] end.

(** C28. Cost order: in every turn the worker hands jobs out cheapest first
    and, at equal cost, in arrival order; no job it keeps would have gone
    before one it sent; each goes to the longest-waiting caller still
    there; a caller that gave up costs no job (what was buffered is exactly
    what is sent plus what is kept); and it never leaves a live caller
    waiting while a job is buffered. *)
Theorem worker_turn_cost_order alive cmd heap waiters sent heap' rest :
  Forall entry_ok (heap_after cmd heap) ->
  worker_turn alive cmd heap waiters = (sent, heap', rest) ->
  (exists es, map snd sent = map job es /\ heap_after cmd heap ≡ₚ es ++ heap' /\
     StronglySorted before es /\ (forall e e', e ∈ es -> e' ∈ heap' -> before e e')) /\
  map fst sent ++ List.filter alive rest = List.filter alive (waiters_after cmd waiters) /\
  (rest = [] \/ heap' = []).
Proof. destruct cmd; apply serve_spec. Qed.

(** The costs in the inbox are those of the jobs, whatever was called. *)
Definition inbox_ok (q : State) : Prop :=
  Forall (fun cmd => Forall entry_ok (heap_after cmd [])) q.(inbox).

Lemma enqueue_inbox_ok j q : inbox_ok q -> inbox_ok (enqueue j q).
Proof.
  unfold inbox_ok, enqueue. intros Hq. case_match; [|done]. simpl. apply Forall_app.
  split; [done|]. by repeat constructor.
Qed.

Lemma dequeue_inbox_ok r q : inbox_ok q -> inbox_ok (dequeue r q).2.
Proof.
  unfold inbox_ok, dequeue. intros Hq. repeat case_match; try done. simpl. apply Forall_app.
  split; [done|]. by repeat constructor.
Qed.

(** After [close], no call reaches the worker and every [dequeue] is [None]. *)
Lemma closed_is_dead q r j :
  (dequeue r (close q)).1 = None /\ (enqueue j (close q)).(inbox) = q.(inbox).
Proof. done. Qed.
End cost_weighted.
End CostWeightedQueue.

Lemma worker_turn_cost_order_witness :
  let e c s := CostWeightedQueue.mkEntry c s c in
  let res := CostWeightedQueue.worker_turn (fun c => c) (fun w => negb (w =? 1)%nat)
               (CostWeightedQueue.Dequeue 3%nat) [e 9 0; e 4 1; e 7 2] [1%nat; 2%nat] in
  res = ([(2%nat, 4); (3%nat, 7)], [e 9 0], []) /\
  map fst (fst (fst res)) ++ List.filter (fun w => negb (w =? 1)%nat) (snd res)
  = [2%nat; 3%nat].
Proof.
  split; [by vm_compute|].
  refine (proj1 (proj2 (CostWeightedQueue.worker_turn_cost_order (fun c => c)
    (fun w => negb (w =? 1)%nat) (CostWeightedQueue.Dequeue 3%nat)
    [CostWeightedQueue.mkEntry 9 0 9; CostWeightedQueue.mkEntry 4 1 4; CostWeightedQueue.mkEntry 7 2 7]
    [1%nat; 2%nat] _ _ _ _ _))); [|reflexivity].
  repeat constructor.
Defined.
