(* ===== verification/AgePriority.v ===== *)
(** * The age-priority queue ([dispatcher/queue/age_priority.rs])

    Entries are ranked by waiting time over the integer square root of their
    cost; a worker thread re-sorts its vector and serves waiting callers from
    its end.  Instants are nanoseconds, costs are u64, scores are u128. *)
From S2P Require Import Prelude Queue.
From Stdlib Require Import Sorted Permutation.

Record Entry (J : Type) : Type := mkEntry { cost : Z; seq : Z; enqueued_at : Z; job : J }.
Arguments mkEntry {J}. Arguments cost {J}. Arguments seq {J}. Arguments enqueued_at {J}.
Arguments job {J}.

Inductive WorkerCmd (J : Type) : Type :=
| Enqueue (entry : Entry J)
| Dequeue (reply : nat).
Arguments Enqueue {J}. Arguments Dequeue {J}.

(** ** integer_sqrt *)
Definition sqrt_step (value : Z) (s : Z * Z) : (Z * Z) + Z :=
  let '(x, y) := s in
  if y <? x then inl (y, (y + value / y) / 2) else inr x.

Definition integer_sqrt (value : Z) : Z :=
  let x := value in
  let y := (x + 1) / 2 in
  match iter2 128 (sqrt_step value) (x, y) with
  | inr x => Z.max x 1
  | inl _ => 1
  end.

Lemma newton_lower value y :
  1 <= y -> 0 <= value -> Z.sqrt value <= (y + value / y) / 2.
Proof.
  intros Hy Hv. destruct (Z.sqrt_spec value Hv) as [Hs _]. specialize (Z.sqrt_nonneg value).
  set (s := Z.sqrt value) in *. intros Hs0.
  apply Z.div_le_lower_bound; [lia|].
  assert (2 * s - y <= value / y); [|lia].
  apply Z.div_le_lower_bound; [lia|]. assert (0 <= (s - y) * (s - y)) by apply Z.square_nonneg.
  replace (y * (2 * s - y)) with (s * s - (s - y) * (s - y)) by ring. lia.
Qed.

Lemma newton_upper value y :
  1 <= y -> 0 <= value -> y <= (y + value / y) / 2 -> y <= Z.sqrt value.
Proof.
  intros Hy Hv Hle. assert (y <= value / y) by (Z.div_mod_to_equations; lia).
  apply Z.sqrt_le_square; [done|lia|].
  specialize (Z.mul_div_le value y). nia.
Qed.

Lemma sqrt_loop value :
  1 <= value <= u128_max ->
  iter2 128 (sqrt_step value) (value, (value + 1) / 2) = inr (Z.sqrt value).
Proof.
  intros Hv. assert (1 <= Z.sqrt value) as H1 by (apply Z.sqrt_le_square; lia).
  set (I := fun s : Z * Z => Z.sqrt value <= s.1 <= value /\ Z.sqrt value <= s.2 /\
                            (s.1 <= s.2 -> s.1 <= Z.sqrt value)).
  destruct (iter2_total (sqrt_step value) I (fun x => x = Z.sqrt value) fst) with
    (n := 128%nat) (s := (value, (value + 1) / 2)) as (r & Hr & ->); [..|done].
  - intros [x y] s' (Hx & Hy & Hxy). simpl in *. destruct (Z.ltb_spec y x); [|done].
    intros [= <-]. unfold I; simpl. split_and!; try lia.
    + apply newton_lower; lia.
    + intros. apply newton_upper; lia.
  - intros [x y] r (Hx & Hy & Hxy). simpl in *. destruct (Z.ltb_spec y x); [done|].
    intros [= <-]. lia.
  - unfold I; simpl. assert (Z.sqrt value <= value) by (apply Z.sqrt_le_lin; lia). split_and!; try lia.
    + assert (Z.sqrt value * Z.sqrt value <= value) by (apply Z.sqrt_spec; lia).
      apply Z.div_le_lower_bound; nia.
    + intros Hle. assert (value = 1) as -> by (Z.div_mod_to_equations; lia). done.
  - simpl. unfold u128_max in Hv. lia.
Qed.

Lemma integer_sqrt_correct_aux value :
  1 <= value <= u128_max -> integer_sqrt value = Z.sqrt value.
Proof.
  intros Hv. unfold integer_sqrt. rewrite sqrt_loop by done.
  assert (1 <= Z.sqrt value) by (apply Z.sqrt_le_square; lia). lia.
Qed.

(** ** Ranking *)
Section ranking.
Context {J : Type}.

(** [now.duration_since(t).as_nanos()], which saturates at zero. *)
Definition waited (now : Z) (e : Entry J) : Z := Z.max 0 (now - e.(enqueued_at)).

Definition compare_entries (left right : Entry J) (now : Z) : comparison :=
  let left_cost := integer_sqrt (Z.max left.(cost) 1) in
  let right_cost := integer_sqrt (Z.max right.(cost) 1) in
  let left_wait := waited now left in
  let right_wait := waited now right in
  let left_score := saturating_u128 (left_wait * right_cost) in
  let right_score := saturating_u128 (right_wait * left_cost) in
  match left_score ?= right_score with
  | Eq => right.(seq) ?= left.(seq)
  | other => other
  end.

(** What the types of the source guarantee: a u64 cost, and a waiting time
    that fits a [Duration] (u64 seconds). *)
Definition entry_wf (now : Z) (e : Entry J) : Prop :=
  0 <= e.(cost) <= u64_max /\ now - e.(enqueued_at) < 2 ^ 64 * 10 ^ 9.

Definition weight (e : Entry J) : Z := Z.sqrt (Z.max e.(cost) 1).

Lemma weight_range now e : entry_wf now e -> 1 <= weight e < 2 ^ 32.
Proof.
  intros [Hc _]. unfold weight, u64_max in *. split.
  - apply Z.sqrt_le_square; lia.
  - apply Z.sqrt_lt_square; lia.
Qed.

(** The scores never saturate: the comparison is that of the exact ratios
    waited / weight, ties going to the older sequence number. *)
Lemma compare_entries_exact now l r :
  entry_wf now l -> entry_wf now r ->
  compare_entries l r now =
  ord_then (waited now l * weight r ?= waited now r * weight l) (r.(seq) ?= l.(seq)).
Proof.
  intros Hl Hr. specialize (weight_range now l Hl) as Wl.
  specialize (weight_range now r Hr) as Wr. destruct Hl as [Cl Tl], Hr as [Cr Tr].
  unfold compare_entries. unfold u64_max in *.
  rewrite !integer_sqrt_correct_aux by (unfold u128_max; lia).
  fold (weight l) (weight r).
  assert (forall w k, 0 <= w < 2 ^ 64 * 10 ^ 9 -> 1 <= k < 2 ^ 32 -> saturating_u128 (w * k) = w * k)
    as Hsat. { intros. unfold saturating_u128, u128_max. nia. }
  rewrite !Hsat by (unfold waited; lia). unfold ord_then. by destruct (_ ?= _).
Qed.

Lemma compare_entries_antisym now l r :
  entry_wf now l -> entry_wf now r ->
  compare_entries r l now = CompOpp (compare_entries l r now).
Proof.
  intros. rewrite !compare_entries_exact by done. unfold ord_then.
  rewrite (Z.compare_antisym (waited now l * weight r)), (Z.compare_antisym (seq r)).
  by destruct (_ ?= _).
Qed.

Lemma ratio_trans w1 s1 w2 s2 w3 s3 :
  0 < s1 -> 0 < s2 -> 0 < s3 -> w1 * s2 <= w2 * s1 -> w2 * s3 <= w3 * s2 ->
  w1 * s3 <= w3 * s1 /\ (w1 * s3 = w3 * s1 -> w1 * s2 = w2 * s1 /\ w2 * s3 = w3 * s2).
Proof.
  intros. assert (s2 * (w1 * s3) <= s2 * (w3 * s1)) by nia. split; [nia|].
  intros Heq. assert (s2 * (w1 * s3) = s2 * (w3 * s1)) by (f_equal; done). nia.
Qed.

(** [l] is served no later than [r]. *)
Definition outranks (now : Z) (l r : Entry J) : Prop := compare_entries l r now <> Lt.

Lemma outranks_iff now l r :
  entry_wf now l -> entry_wf now r ->
  outranks now l r <->
  waited now r * weight l < waited now l * weight r \/
  (waited now r * weight l = waited now l * weight r /\ l.(seq) <= r.(seq)).
Proof.
  intros. unfold outranks. rewrite compare_entries_exact by done. unfold ord_then.
  destruct (Z.compare_spec (waited now l * weight r) (waited now r * weight l)),
    (Z.compare_spec r.(seq) l.(seq)); split; intros; try done; lia.
Qed.

Lemma outranks_refl now e : entry_wf now e -> outranks now e e.
Proof. intros. apply outranks_iff; [done..|]. lia. Qed.

Lemma outranks_total now l r :
  entry_wf now l -> entry_wf now r -> outranks now l r \/ outranks now r l.
Proof. intros. rewrite !outranks_iff by done. lia. Qed.

Lemma outranks_trans now a b c :
  entry_wf now a -> entry_wf now b -> entry_wf now c ->
  outranks now a b -> outranks now b c -> outranks now a c.
Proof.
  intros Ha Hb Hc. rewrite !outranks_iff by done. intros Hab Hbc.
  specialize (weight_range _ _ Ha). specialize (weight_range _ _ Hb).
  specialize (weight_range _ _ Hc). intros.
  destruct (ratio_trans (waited now c) (weight c) (waited now b) (weight b)
              (waited now a) (weight a)) as [? He]; lia.
Qed.
End ranking.

(** C39. [integer_sqrt] terminates on every u128 value and returns the floor of
    the square root: the Newton loop strictly decreases, so 2^128 steps are
    enough fuel, and the result of the model's out-of-fuel arm is never used. *)
Theorem integer_sqrt_correct value :
  1 <= value <= u128_max ->
  integer_sqrt value = Z.sqrt value /\
  iter2 128 (sqrt_step value) (value, (value + 1) / 2) = inr (integer_sqrt value).
Proof. intros Hv. by rewrite integer_sqrt_correct_aux, sqrt_loop. Qed.

Lemma integer_sqrt_correct_witness :
  integer_sqrt 18446744073709551615 = 4294967295 /\ integer_sqrt 2 = 1.
Proof.
  split.
  - rewrite (proj1 (integer_sqrt_correct 18446744073709551615 ltac:(by vm_compute))).
    by vm_compute.
  - by vm_compute.
Defined.

(** ** The worker *)
Section worker.
Context {J : Type}.

(** [slice::sort_by]: the stable sort by a comparison. *)
Fixpoint insert_by (cmp : Entry J -> Entry J -> comparison) (e : Entry J) (l : list (Entry J)) :=
  match l with
  | [] => [e]
  | x :: l' => match cmp e x with Gt => x :: insert_by cmp e l' | _ => e :: l end
  end.
Definition sort_by (cmp : Entry J -> Entry J -> comparison) (l : list (Entry J)) :=
  foldr (insert_by cmp) [] l.

Definition rebalance (now : Z) (entries : list (Entry J)) : list (Entry J) :=
  if decide (length entries < 2)%nat then entries
  else sort_by (fun left right => compare_entries left right now) entries.

(** [Vec::pop]. *)
Fixpoint pop (entries : list (Entry J)) : option (list (Entry J) * Entry J) :=
  match entries with
  | [] => None
  | e :: l => match pop l with
              | None => Some ([], e)
              | Some (l', last) => Some (e :: l', last)
              end
  end.

(** [closed] is [reply.is_closed()]; [alive] tells whether the receiver is
    still there when [reply.send] runs. *)
Fixpoint service_waiters (closed alive : nat -> bool) (entries : list (Entry J))
    (waiters : list nat) : list (nat * J) * list (Entry J) * list nat :=
  match waiters with
  | [] => ([], entries, [])
  | reply :: waiters' =>
      match pop entries with
      | None => ([], entries, waiters)
      | Some (entries', entry) =>
          if closed reply then service_waiters closed alive entries waiters'
          else if alive reply then
            let '(sent, entries'', rest) := service_waiters closed alive entries' waiters' in
            ((reply, entry.(job)) :: sent, entries'', rest)
          else
            service_waiters closed alive
              (entries' ++ [mkEntry entry.(cost) entry.(seq) entry.(enqueued_at) entry.(job)])
              waiters'
      end
  end.

Definition handle_cmd (cmd : WorkerCmd J) (entries : list (Entry J)) (waiters : list nat)
    : list (Entry J) * list nat :=
  match cmd with
  | Enqueue entry => (entries ++ [entry], waiters)
  | Dequeue reply => (entries, waiters ++ [reply])
  end.

Definition is_enqueue (cmd : WorkerCmd J) : bool :=
  match cmd with Enqueue _ => true | Dequeue _ => false end.

(** What [recv_timeout] and the [try_recv] loop yield in one turn. *)
Inductive input : Type :=
| Received (cmd : WorkerCmd J) (more : list (WorkerCmd J))
| TimedOut
| Disconnected.

Definition drain_cmds (needs_rebalance : bool) (cmds : list (WorkerCmd J))
    (entries : list (Entry J)) (waiters : list nat) : bool * (list (Entry J) * list nat) :=
  foldl (fun '(nr, (es, ws)) cmd => (nr || is_enqueue cmd, handle_cmd cmd es ws))
        (needs_rebalance, (entries, waiters)) cmds.

(** One turn of the loop of [worker]; [None] is its [break]. *)
Definition worker_turn (closed alive : nat -> bool) (now : Z) (i : input)
    (entries : list (Entry J)) (waiters : list nat)
    : option (list (nat * J) * list (Entry J) * list nat) :=
  match i with
  | Disconnected => None
  | TimedOut =>
      let needs_rebalance := bool_decide (1 < length entries)%nat in
      let entries' := if needs_rebalance then rebalance now entries else entries in
      Some (service_waiters closed alive entries' waiters)
  | Received cmd more =>
      let rebalance_requested := is_enqueue cmd in
      let '(entries1, waiters1) := handle_cmd cmd entries waiters in
      let '(needs_rebalance, (entries2, waiters2)) := drain_cmds false more entries1 waiters1 in
      let entries3 := if needs_rebalance || rebalance_requested
                      then rebalance now entries2 else entries2 in
      Some (service_waiters closed alive entries3 waiters2)
  end.

Lemma insert_by_perm cmp e l : insert_by cmp e l ≡ₚ e :: l.
Proof.
  induction l as [|x l IH]; simpl; [done|]. case_match; try done.
  rewrite IH. apply Permutation_swap.
Qed.

Lemma sort_by_perm cmp l : sort_by cmp l ≡ₚ l.
Proof. induction l as [|e l IH]; simpl; [done|]. by rewrite insert_by_perm, IH. Qed.

(** Ascending priority: the entry served next is the last one. *)
Definition ranked (now : Z) (l : list (Entry J)) : Prop :=
  StronglySorted (fun x y => outranks now y x) l.

Lemma rebalance_perm now l : rebalance now l ≡ₚ l.
Proof. unfold rebalance. case_decide; [done|apply sort_by_perm]. Qed.

Lemma insert_by_ranked now e l :
  Forall (entry_wf now) (e :: l) -> ranked now l ->
  ranked now (insert_by (fun x y => compare_entries x y now) e l).
Proof.
  intros [He Hl]%Forall_cons Hs. induction Hs as [|x l Hs IH Hx]; simpl.
  { repeat constructor. }
  pose proof Hl as [Hwx Hwl]%Forall_cons.
  assert (compare_entries e x now <> Gt -> outranks now x e) as Hle.
  { intros Hc. unfold outranks. rewrite (compare_entries_antisym now e x) by done.
    by destruct (compare_entries e x now). }
  assert (compare_entries e x now <> Gt -> ranked now (e :: x :: l)) as Hcons.
  { intros Hc. constructor; [by constructor|]. constructor; [auto|].
    rewrite Forall_forall in Hx, Hwl |- *. intros y Hy.
    apply outranks_trans with x; auto. }
  destruct (compare_entries e x now) eqn:Hc; [by apply Hcons..|].
  constructor; [by apply IH|]. rewrite insert_by_perm. constructor; [|done].
  unfold outranks. congruence.
Qed.

Lemma rebalance_ranked now l : Forall (entry_wf now) l -> ranked now (rebalance now l).
Proof.
  intros Hl. unfold rebalance. case_decide as Hlen.
  { destruct l as [|e [|]]; simpl in Hlen; [constructor| |lia]. repeat constructor. }
  clear Hlen. induction Hl as [|e l He Hl IH]; simpl; [constructor|].
  apply insert_by_ranked; [|done]. rewrite sort_by_perm. by constructor.
Qed.

Lemma pop_spec l : match pop l with None => l = [] | Some (l', e) => l = l' ++ [e] end.
Proof.
  induction l as [|x l IH]; simpl; [done|]. destruct (pop l) as [[l' e]|]; subst; done.
Qed.

Lemma pop_snoc l e : pop (l ++ [e]) = Some (l, e).
Proof. induction l as [|x l IH]; simpl; [done|]. by rewrite IH. Qed.

Lemma service_waiters_spec closed alive entries waiters sent entries' rest :
  service_waiters closed alive entries waiters = (sent, entries', rest) ->
  exists es, map snd sent = map job es /\ entries = entries' ++ reverse es /\
    map fst sent ++ List.filter (fun w => negb (closed w) && alive w) rest
    = List.filter (fun w => negb (closed w) && alive w) waiters /\
    (rest = [] \/ entries' = []).
Proof.
  revert entries sent entries' rest; induction waiters as [|w ws IH];
    intros entries sent entries' rest; cbn [service_waiters].
  { intros [= <- <- <-]. exists []. rewrite app_nil_r. by split_and!; [..|left]. }
  specialize (pop_spec entries) as Hp. destruct (pop entries) as [[l e]|].
  2: { intros [= <- <- <-]. exists []. subst. by split_and!; [..|right]. }
  subst entries. simpl. destruct (closed w) eqn:Hc; simpl; [apply IH|].
  destruct (alive w) eqn:Ha.
  - destruct (service_waiters closed alive l ws) as [[sent1 l1] rest1] eqn:Hs.
    intros [= <- <- <-]. destruct (IH l sent1 l1 rest1 Hs) as (es & Hes & -> & Hw & Hr).
    exists (e :: es). simpl. rewrite Hes, Hw, reverse_cons, app_assoc. done.
  - replace (mkEntry (cost e) (seq e) (enqueued_at e) (job e)) with e by by destruct e.
    apply IH.
Qed.
End worker.
Arguments Received {J}. Arguments TimedOut {J}. Arguments Disconnected {J}.

Section turn_order.
Context {J : Type}.
Implicit Types (l es : list (Entry J)) (i : @input J).

Lemma strongly_sorted_snoc (R : Entry J -> Entry J -> Prop) l e :
  StronglySorted R (l ++ [e]) -> StronglySorted R l /\ Forall (fun x => R x e) l.
Proof.
  induction l as [|x l IH]; simpl; [intros; split; constructor|].
  inversion 1 as [|? ? Hs Hx]; subst. apply Forall_app in Hx as [Hx [He _]%Forall_cons].
  destruct (IH Hs). split; by constructor.
Qed.

Lemma ranked_served now l es :
  ranked now (l ++ reverse es) ->
  StronglySorted (outranks now) es /\ (forall e e', e ∈ es -> e' ∈ l -> outranks now e e').
Proof.
  induction es as [|e es IH]; intros Hr; [split; [constructor|by intros ? ? ?%not_elem_of_nil]|].
  rewrite reverse_cons, app_assoc in Hr. apply strongly_sorted_snoc in Hr as [Hr He].
  destruct (IH Hr) as [Hs Hc]. apply Forall_app in He as [Hl Hes]. split.
  - constructor; [done|]. by rewrite reverse_Permutation in Hes.
  - intros x y [->|Hx]%elem_of_cons Hy; [|by apply Hc]. rewrite Forall_forall in Hl. by apply Hl.
Qed.

Definition commands i : list (WorkerCmd J) :=
  match i with Received cmd more => cmd :: more | _ => [] end.
Definition entries_after i l : list (Entry J) :=
  foldl (fun l cmd => match cmd with Enqueue e => l ++ [e] | Dequeue _ => l end) l (commands i).
Definition waiters_after i (ws : list nat) : list nat :=
  foldl (fun ws cmd => match cmd with Enqueue _ => ws | Dequeue w => ws ++ [w] end) ws (commands i).

(** The turns that re-sort: a new job arrived, or the 5 ms tick fired. *)
Definition reorders i : bool :=
  match i with
  | Received cmd more => existsb is_enqueue (cmd :: more)
  | TimedOut => true
  | Disconnected => false
  end.

Lemma drain_cmds_spec b cmds l ws :
  drain_cmds b cmds l ws =
  (b || existsb is_enqueue cmds,
    (foldl (fun l cmd => match cmd with Enqueue e => l ++ [e] | Dequeue _ => l end) l cmds,
     foldl (fun ws cmd => match cmd with Enqueue _ => ws | Dequeue w => ws ++ [w] end) ws cmds)).
Proof.
  unfold drain_cmds. revert b l ws; induction cmds as [|[e|w] cmds IH]; intros b l ws; simpl.
  - by rewrite orb_false_r.
  - rewrite IH. by rewrite orb_true_r.
  - rewrite IH. by rewrite orb_false_r.
Qed.

(** The vector [service_waiters] works on. *)
Definition ready now i l : list (Entry J) :=
  if reorders i then rebalance now (entries_after i l) else entries_after i l.

Lemma worker_turn_ready closed alive now i l ws :
  worker_turn closed alive now i l ws =
  match i with
  | Disconnected => None
  | _ => Some (service_waiters closed alive (ready now i l) (waiters_after i ws))
  end.
Proof.
  destruct i as [cmd more| |]; [|..|done]; unfold ready, entries_after, waiters_after; simpl.
  - destruct cmd as [e|w]; simpl; rewrite drain_cmds_spec; simpl.
    + by rewrite orb_true_r.
    + by rewrite orb_false_r.
  - unfold rebalance. case_bool_decide; [done|]. by case_decide; [|lia].
Qed.

Lemma ready_perm now i l : ready now i l ≡ₚ entries_after i l.
Proof. unfold ready. case_match; [apply rebalance_perm|done]. Qed.

(** The comparison [sort_by] is given is a total order at any instant
    (antisymmetric, transitive, equal only for equal sequence numbers), as
    [slice::sort_by] requires, and the u128 scores it compares never
    saturate: it orders jobs by the exact ratio of waiting time to weight. *)
Theorem compare_entries_total_order now (a b c : Entry J) :
  entry_wf now a -> entry_wf now b -> entry_wf now c ->
  compare_entries b a now = CompOpp (compare_entries a b now) /\
  (compare_entries a b now <> Lt -> compare_entries b c now <> Lt -> compare_entries a c now <> Lt) /\
  (compare_entries a b now = Eq -> seq a = seq b) /\
  (compare_entries a b now = Gt <->
     waited now b * weight a < waited now a * weight b \/
     (waited now b * weight a = waited now a * weight b /\ seq a < seq b)).
Proof.
  intros Ha Hb Hc. split_and!.
  - by apply compare_entries_antisym.
  - by apply outranks_trans.
  - rewrite compare_entries_exact by done. unfold ord_then.
    destruct (_ ?= _); try done. by intros ->%Z.compare_eq.
  - rewrite compare_entries_exact by done. unfold ord_then.
    destruct (Z.compare_spec (waited now a * weight b) (waited now b * weight a)),
      (Z.compare_spec (seq b) (seq a)); split; intros; try done; lia.
Qed.

Lemma strongly_sorted_app_l (R : Entry J -> Entry J -> Prop) l1 l2 : StronglySorted R (l1 ++ l2) -> StronglySorted R l1.
Proof.
  induction l2 as [|e l2 IH] using rev_ind; [by rewrite app_nil_r|]. rewrite app_assoc.
  intros [Hs _]%strongly_sorted_snoc. by apply IH.
Qed.

Lemma entries_kept i l : reorders i = false -> entries_after i l = l.
Proof.
  destruct i as [cmd more| |]; [|done..]. unfold entries_after, reorders, commands.
  generalize (cmd :: more) as cmds. intros cmds. induction cmds as [|[e|w] cmds IH]; [done..|]. apply IH.
Qed.

(** The instant whose order a turn serves in: its own if it re-sorts, or else
    that of the order the vector is in. *)
Definition order_instant (before now : Z) i : Z := if reorders i then now else before.

(** C27. Age order: in every turn the worker sends jobs in the rank order of the
    last instant it sorted at, which is the turn's own if a job arrived or the
    tick fired, and an earlier one in a turn of dequeues alone, which does not
    re-sort; no job it keeps outranked then one it sent, and what it keeps is
    in that order for the next turn.  Each job goes to the longest-waiting live
    caller, no job is lost or duplicated even when a caller disappears between
    the check and the send, and no live caller is left waiting beside a
    buffered job. *)
Theorem worker_turn_age_order closed alive before now i l ws sent l' rest :
  Forall (entry_wf now) (entries_after i l) -> ranked before l ->
  worker_turn closed alive now i l ws = Some (sent, l', rest) ->
  (exists es, map snd sent = map job es /\ entries_after i l ≡ₚ es ++ l' /\
     StronglySorted (outranks (order_instant before now i)) es /\
     (forall e e', e ∈ es -> e' ∈ l' -> outranks (order_instant before now i) e e')) /\
  ranked (order_instant before now i) l' /\
  map fst sent ++ List.filter (fun w => negb (closed w) && alive w) rest
  = List.filter (fun w => negb (closed w) && alive w) (waiters_after i ws) /\
  (rest = [] \/ l' = []).
Proof.
  intros Hwf Hord Hturn. rewrite worker_turn_ready in Hturn.
  assert (ranked (order_instant before now i) (ready now i l)) as Hr.
  { unfold ready, order_instant. destruct (reorders i) eqn:Hi; [by apply rebalance_ranked|by rewrite entries_kept]. }
  destruct i; [injection Hturn as Hturn..|done];
    apply service_waiters_spec in Hturn as (es & Hes & Hl & Hw & Hrest);
    rewrite Hl in Hr; pose proof (strongly_sorted_app_l _ _ _ Hr); apply ranked_served in Hr as [Hs Hc];
    (split_and!; [|done..]);
    exists es; split_and!; try done;
    rewrite <- (ready_perm now), Hl, reverse_Permutation; apply Permutation_app_comm.
Qed.
End turn_order.

Definition sample_entry (c s t : Z) : Entry Z := mkEntry c s t s.

Lemma compare_entries_total_order_witness :
  let e := sample_entry in
  compare_entries (e 100 0 0) (e 1 1 950) 1000 = Gt /\
  compare_entries (e 1 1 950) (e 100 0 0) 1000 = Lt.
Proof.
  split; [by vm_compute|].
  rewrite (proj1 (compare_entries_total_order 1000 (sample_entry 100 0 0) (sample_entry 1 1 950)
             (sample_entry 100 0 0) ltac:(by vm_compute) ltac:(by vm_compute) ltac:(by vm_compute))).
  by vm_compute.
Defined.

Lemma worker_turn_age_order_witness :
  let e := sample_entry in
  worker_turn (fun _ => false) (fun w => negb (w =? 1)%nat) 1000
    (Received (Enqueue (e 1 1 950)) [Dequeue 1%nat; Dequeue 2%nat]) [e 100 0 0] []
  = Some ([(2%nat, 0)], [e 1 1 950], []) /\
  (exists es, map snd [(2%nat, 0)] = map job es /\
     entries_after (Received (Enqueue (e 1 1 950)) [Dequeue 1%nat; Dequeue 2%nat]) [e 100 0 0]
     ≡ₚ es ++ [e 1 1 950] /\ StronglySorted (outranks 1000) es /\
     (forall x y, x ∈ es -> y ∈ [e 1 1 950] -> outranks 1000 x y)).
Proof.
  split; [by vm_compute|].
  refine (proj1 (worker_turn_age_order (fun _ => false) (fun w => negb (w =? 1)%nat) 0 1000
    (Received (Enqueue (sample_entry 1 1 950)) [Dequeue 1%nat; Dequeue 2%nat])
    [sample_entry 100 0 0] [] _ _ [] _ _ _)).
  - repeat constructor; by vm_compute.
  - repeat constructor.
  - by vm_compute.
Defined.

(** A turn of dequeues alone serves a stale order: at 1000 the cheap job had
    waited too little, at 3000 it outranks the costly one that is sent. *)
Example stale_order_served :
  let l := rebalance 1000 [sample_entry 100 0 0; sample_entry 1 1 950] in
  worker_turn (fun _ => false) (fun _ => true) 3000 (Received (Dequeue 1%nat) []) l []
    = Some ([(1%nat, 0)], [sample_entry 1 1 950], []) /\
  compare_entries (sample_entry 100 0 0) (sample_entry 1 1 950) 3000 = Lt.
Proof. by vm_compute. Qed.

(** ** The handle *)
Module AgePriorityQueue.
Record State (J : Type) : Type := mkState {
  sender : bool;
  next_seq : Z;
  dead : bool;
  inbox : list (WorkerCmd J)
}.
Arguments mkState {J}. Arguments sender {J}. Arguments next_seq {J}. Arguments dead {J}.
Arguments inbox {J}.

Section handle.
Context {J : Type}.
(** [job.metadata["cost"].as_u64().unwrap_or(1)]. *)
Context (job_cost : J -> Z).

Definition new : State J := mkState true 0 false [].

Definition enqueue (now : Z) (j : J) (q : State J) : State J :=
  let c := job_cost j in
  let s := q.(next_seq) in
  let next := wrap 64 (s + 1) in
  if q.(sender)
  then mkState true next q.(dead) (q.(inbox) ++ [Enqueue (mkEntry c s now j)])
  else mkState false next true q.(inbox).

Definition dequeue (reply : nat) (q : State J) : option nat * State J :=
  if q.(dead) then (None, q)
  else if q.(sender)
       then (Some reply, mkState true q.(next_seq) false (q.(inbox) ++ [Dequeue reply]))
       else (None, mkState false q.(next_seq) true q.(inbox)).

Definition dequeue_reply (reply : option J) (q : State J) : option J * State J :=
  match reply with
  | Some j => (Some j, q)
  | None => (None, mkState q.(sender) q.(next_seq) true q.(inbox))
  end.

Definition close (q : State J) : State J := mkState false q.(next_seq) true q.(inbox).

Definition inbox_wf (now : Z) (q : State J) : Prop :=
  Forall (fun cmd => match cmd with Enqueue e => entry_wf now e | Dequeue _ => True end) q.(inbox).

(** The entries that reach the worker satisfy what its order relies on. *)
Lemma enqueue_inbox_wf now j q :
  0 <= job_cost j <= u64_max -> inbox_wf now q -> inbox_wf now (enqueue now j q).
Proof.
  unfold inbox_wf, enqueue. intros Hc Hq. case_match; [|done]. simpl. apply Forall_app.
  split; [done|]. repeat constructor; simpl; lia.
Qed.
End handle.
End AgePriorityQueue.
