(* ===== verification/Store.v ===== *)
(** * The persistence boundary ([db/mod.rs])

    The storage traits as interfaces over an abstract store state, the laws the
    broker relies on, and what follows from the laws alone: a durable job has a
    single claimant, and the presence probe leaves it untouched. *)
From S2P Require Import Prelude Errors Job.

Record BrokerLeaseRecord : Type := mkLease {
  broker_id : string;
  internal_poll_base_url : string;
  lease_until : Z;
  updated_at : Z
}.

Record UserLimitEntry : Type := mkUserLimitEntry {
  ul_scope : string;
  ul_user : string;
  ul_job_id : string;
  owner_broker_id : string;
  seq : Z;
  ul_created_at : Z
}.

Inductive ClaimResult (V : Type) : Type :=
| NotFound
| Active (owner_broker_id : string)
| Claimed (record : PersistentJobRecord V).
Arguments NotFound {V}. Arguments Active {V}. Arguments Claimed {V}.

Class JobStore (V S : Type) : Type := {
  upsert_job : PersistentJobRecord V -> S -> result DbError unit * S;
  delete_job : string -> S -> result DbError unit * S;
  claim_if_owner : string -> string -> string -> S -> result DbError (ClaimResult V) * S
}.

Class BrokerLeaseStore (S : Type) : Type := {
  upsert_broker_lease : Z -> string -> string -> Z -> S -> result DbError unit * S;
  get_broker_lease : string -> S -> result DbError (option BrokerLeaseRecord);
  delete_broker_lease : string -> S -> result DbError unit * S
}.

Class BrokerSlotStore (S : Type) : Type := {
  allocate_broker_slot : string -> string -> S -> result DbError Z * S
}.

Class UserLimitStore (S : Type) : Type := {
  reserve_user_slot : Z -> string -> string -> string -> string -> S -> result DbError Z * S;
  release_user_slot : string -> string -> string -> S -> result DbError unit * S;
  list_user_slots : string -> string -> S -> result DbError (list UserLimitEntry);
  reclaim_user_slots : Z -> S -> result DbError Z * S
}.

(** serde_json, on what a store keeps. *)
Class Codec (A Bytes : Type) : Type := {
  serialize : A -> result DbError Bytes;
  deserialize : Bytes -> result DbError A;
  deserialize_serialize a v : serialize a = Ok v -> deserialize v = Ok a
}.

Section job_store.
Context {V : Type}.

Definition with_broker (b : string) (r : PersistentJobRecord V) : PersistentJobRecord V :=
  mkRecord r.(rec_job_id) b r.(rec_original_request) r.(rec_user) r.(rec_metadata)
    r.(rec_created_at).

(** The compare-and-set [claim_if_owner] promises, on one record. *)
Definition claim_spec (expected claimant : string) (o : option (PersistentJobRecord V))
    : ClaimResult V * option (PersistentJobRecord V) :=
  match o with
  | None => (NotFound, None)
  | Some r =>
      if decide (r.(rec_broker_id) = claimant) then (Claimed r, Some r)
      else if decide (r.(rec_broker_id) = expected)
           then (Claimed (with_broker claimant r), Some (with_broker claimant r))
           else (Active r.(rec_broker_id), Some r)
  end.

(** A store holds at most one record per job id ([lookup_job]).  An operation
    either takes effect on that record alone or fails and changes nothing. *)
Class JobStoreLaws (S : Type) `{JobStore V S} (lookup_job : string -> S -> option (PersistentJobRecord V))
    : Prop := {
  upsert_law r s s' : upsert_job r s = (Ok tt, s') ->
    forall id, lookup_job id s' = if decide (id = r.(rec_job_id)) then Some r else lookup_job id s;
  upsert_err r s s' e : upsert_job r s = (Err e, s') -> forall id, lookup_job id s' = lookup_job id s;
  delete_law jid s s' : delete_job jid s = (Ok tt, s') ->
    forall id, lookup_job id s' = if decide (id = jid) then None else lookup_job id s;
  delete_err jid s s' e : delete_job jid s = (Err e, s') -> forall id, lookup_job id s' = lookup_job id s;
  claim_law jid expected claimant s c s' : claim_if_owner jid expected claimant s = (Ok c, s') ->
    c = (claim_spec expected claimant (lookup_job jid s)).1 /\
    forall id, lookup_job id s' =
      if decide (id = jid) then (claim_spec expected claimant (lookup_job jid s)).2
      else lookup_job id s;
  claim_err jid expected claimant s e s' : claim_if_owner jid expected claimant s = (Err e, s') ->
    forall id, lookup_job id s' = lookup_job id s
}.

(** A store keeps one lease per broker ([lease_of]), apart from the records.  A
    renewal that fails may have taken effect all the same; [granted] is how long
    a lease of a given duration is written for. *)
Class LeaseStoreLaws (S : Type) `{JobStore V S} `{BrokerLeaseStore S}
    (lookup_job : string -> S -> option (PersistentJobRecord V))
    (lease_of : string -> S -> option BrokerLeaseRecord) (granted : Z -> Z) : Prop := {
  get_lease_law b s o : get_broker_lease b s = Ok o -> o = lease_of b s;
  renew_law now b url ttl s s' : upsert_broker_lease now b url ttl s = (Ok tt, s') ->
    lease_of b s' = Some (mkLease b url (now + granted ttl) now);
  renew_any now b url ttl s r s' : upsert_broker_lease now b url ttl s = (r, s') ->
    lease_of b s' = lease_of b s \/ lease_of b s' = Some (mkLease b url (now + granted ttl) now);
  renew_other now b url ttl s r s' b' : upsert_broker_lease now b url ttl s = (r, s') -> b' <> b ->
    lease_of b' s' = lease_of b' s;
  renew_jobs now b url ttl s r s' i : upsert_broker_lease now b url ttl s = (r, s') ->
    lookup_job i s' = lookup_job i s;
  end_lease b s s' : delete_broker_lease b s = (Ok tt, s') -> lease_of b s' = None;
  end_other b s r s' b' : delete_broker_lease b s = (r, s') -> b' <> b -> lease_of b' s' = lease_of b' s;
  end_jobs b s r s' i : delete_broker_lease b s = (r, s') -> lookup_job i s' = lookup_job i s;
  upsert_job_leases rec s r s' b : upsert_job rec s = (r, s') -> lease_of b s' = lease_of b s;
  delete_job_leases jid s r s' b : delete_job jid s = (r, s') -> lease_of b s' = lease_of b s;
  claim_leases jid expected claimant s r s' b : claim_if_owner jid expected claimant s = (r, s') ->
    lease_of b s' = lease_of b s
}.

Context {S : Type} `{JobStore V S}.

(** [durable_job_present]. *)
Definition durable_job_present (job_id : string) (s : S) : result DbError bool * S :=
  let '(r, s') := claim_if_owner job_id "__never_expected__" "__presence_probe__" s in
  (let? c := r in
   Ok (match c with NotFound => false | Active _ | Claimed _ => true end), s').

(** A run of claims of one job by successive brokers, all acting on the same
    observed owner: the outcome of each. *)
Fixpoint claims (jid expected : string) (claimants : list string) (s : S)
    : list (string * result DbError (ClaimResult V)) * S :=
  match claimants with
  | [] => ([], s)
  | b :: bs => let '(r, s1) := claim_if_owner jid expected b s in
               let '(rs, s2) := claims jid expected bs s1 in ((b, r) :: rs, s2)
  end.

Definition claimed_by (rs : list (string * result DbError (ClaimResult V))) : list string :=
  omap (fun '(b, r) => match r with Ok (Claimed _) => Some b | _ => None end) rs.

Context {lookup_job : string -> S -> option (PersistentJobRecord V)} `{!JobStoreLaws S lookup_job}.

Lemma claims_settled jid expected bs s rs s' owner r :
  lookup_job jid s = Some r -> rec_broker_id r = owner -> owner <> expected ->
  claims jid expected bs s = (rs, s') ->
  Forall (eq owner) (claimed_by rs).
Proof.
  revert s rs s'; induction bs as [|b bs IH]; intros s rs s' Hr Ho Hne; cbn [claims].
  { intros [= <- <-]. constructor. }
  destruct (claim_if_owner jid expected b s) as [res s1] eqn:Hc.
  destruct (claims jid expected bs s1) as [rs1 s2] eqn:Hcs. intros [= <- <-].
  assert (lookup_job jid s1 = Some r /\ (forall x, res = Ok (Claimed x) -> owner = b)) as [Hr1 Hb].
  { destruct res as [c|e].
    - apply claim_law in Hc as [-> Hl]. specialize (Hl jid). rewrite decide_True in Hl by done.
      rewrite Hl, Hr. unfold claim_spec. case_decide as Hob; [naive_solver|].
      rewrite decide_False by congruence. naive_solver.
    - rewrite (claim_err _ _ _ _ _ _ Hc). naive_solver. }
  specialize (IH s1 rs1 s2 Hr1 Ho Hne Hcs). unfold claimed_by in *. simpl.
  destruct res as [[| |]|]; simpl; try done. constructor; [by eapply Hb|done].
Qed.

(** C34. Single claimant: when several brokers race to reclaim a job they all
    saw under the same dead owner, in any order and with any claims failing,
    the successful claims all belong to one broker (who may retry), on every
    store whose claims are the compare-and-set and change nothing when they
    fail. *)
Theorem single_claimant jid expected bs s rs s' :
  expected ∉ bs ->
  claims jid expected bs s = (rs, s') ->
  exists owner, Forall (eq owner) (claimed_by rs).
Proof.
  revert s rs s'; induction bs as [|b bs IH]; intros s rs s' Hn; cbn [claims].
  { intros [= <- <-]. exists ""%string. constructor. }
  apply not_elem_of_cons in Hn as [Hne Hn].
  destruct (claim_if_owner jid expected b s) as [res s1] eqn:Hc.
  destruct (claims jid expected bs s1) as [rs1 s2] eqn:Hcs. intros [= <- <-].
  destruct res as [[| |r]|]; try (by destruct (IH _ _ _ Hn Hcs) as [o Ho]; exists o).
  exists b. apply claim_law in Hc as [Hr Hl]. specialize (Hl jid). rewrite decide_True in Hl by done.
  unfold claim_spec in *. destruct (lookup_job jid s) as [r0|]; [|done]. simpl in *.
  assert (exists r1, lookup_job jid s1 = Some r1 /\ rec_broker_id r1 = b) as (r1 & Hr1 & Hb).
  { repeat case_decide; simplify_eq/=; rewrite Hl; eauto. }
  unfold claimed_by. simpl. constructor; [done|]. by eapply claims_settled.
Qed.

(** The probe answers whether a record exists and changes nothing, as long as
    no broker is called like its two reserved names. *)
Lemma durable_job_present_spec jid s b s' :
  (forall r, lookup_job jid s = Some r -> rec_broker_id r <> "__never_expected__"%string) ->
  durable_job_present jid s = (Ok b, s') ->
  b = bool_decide (is_Some (lookup_job jid s)) /\ forall id, lookup_job id s' = lookup_job id s.
Proof.
  intros Hname. unfold durable_job_present.
  destruct (claim_if_owner _ _ _ s) as [[c|] s1] eqn:Hc; [|done]. intros [= <- <-].
  apply claim_law in Hc as [-> Hl]. unfold claim_spec in *.
  destruct (lookup_job jid s) as [r|] eqn:Hr; simpl in *.
  - assert (forall id, lookup_job id s1 = lookup_job id s).
    { intros id. rewrite Hl. destruct (decide (id = jid)) as [->|]; [|done]. rewrite Hr.
      repeat case_decide; simpl; try done. exfalso. by eapply Hname. }
    split; [|done]. by repeat case_decide.
  - split; [done|].
    intros id. rewrite Hl. by case_decide; subst.
Qed.
End job_store.
