(* ===== verification/UserLimit.v ===== *)
(** * Per-user admission ([dispatcher/mod.rs], the user limiter)

    The identity-derived ceiling, the broker-local counts, the strict (ranked)
    and lazy (reconciled) admission against a store, and the guard whose drop
    gives the slot back.  The store is any implementation of [UserLimitStore];
    the release it gets on a drop runs on a spawned task, modelled as a [task]
    the caller runs whenever it likes. *)
From Stdlib Require Import Sorted.
From S2P Require Import Prelude Json Errors Store.

(** ** Configuration and identity *)

Record RealmLimit : Type := mkRealmLimit {
  realm_default : option Z;
  realm_roles : gmap string Z
}.

Record UserLimitConfig : Type := mkUserLimitConfig {
  cfg_default : option Z;
  cfg_realms : gmap string RealmLimit
}.

Definition unit_separator : string := String (Ascii.ascii_of_nat 31) EmptyString.

(** [format!("{realm}\u{1f}{username}")]. *)
Definition user_key (realm username : string) : string :=
  (realm ++ unit_separator ++ username)%string.

(** [effective.map_or(m, |e| e.max(m))]. *)
Definition raise_to (effective : option Z) (m : Z) : option Z :=
  Some (match effective with None => m | Some e => Z.max e m end).

(** The roles that are strings, in document order. *)
Definition role_names `{JsonValue V} (user : V) : option (list string) :=
  match pointer ["auth"; "roles"] user with
  | Some v => option_map (omap (M:=list) as_str) (as_array v)
  | None => None
  end.

Definition raise_role (roles : gmap string Z) (effective : option Z) (role : string) : option Z :=
  match roles !! role with
  | Some role_max => raise_to effective role_max
  | None => effective
  end.

Definition resolve `{JsonValue V} (cfg : UserLimitConfig) (user : V) : option (string * Z) :=
  realm ← pointer ["auth"; "realm"] user ≫= as_str;
  username ← pointer ["auth"; "username"] user ≫= as_str;
  let key := user_key realm username in
  let effective := cfg.(cfg_default) in
  let effective :=
    match cfg.(cfg_realms) !! realm with
    | None => effective
    | Some realm_block =>
        let effective := match realm_block.(realm_default) with
                         | Some d => raise_to effective d
                         | None => effective
                         end in
        match role_names user with
        | Some roles => fold_left (raise_role realm_block.(realm_roles)) roles effective
        | None => effective
        end
    end in
  (fun m => (key, m)) <$> effective.

(** ** The limiter *)

Definition LAZY_RECONCILE_INTERVAL : Z := 2 * 10 ^ 9.
Definition STRICT_MAX_THRESHOLD : Z := 3.
Definition strict (max : Z) : bool := max <=? STRICT_MAX_THRESHOLD.

(** [counts] and [cached_count] are the concurrent maps; a cached count carries
    the instant (in nanoseconds) it was refreshed at. *)
Record UserLimiter : Type := mkUserLimiter {
  limit_cfg : UserLimitConfig;
  limit_scope : string;
  limit_broker_id : string;
  counts : gmap string Z;
  cached_count : gmap string (Z * Z)
}.

Definition new (cfg : UserLimitConfig) (scope broker_id : string) : UserLimiter :=
  mkUserLimiter cfg scope broker_id ∅ ∅.

Definition with_counts (c : gmap string Z) (l : UserLimiter) : UserLimiter :=
  mkUserLimiter l.(limit_cfg) l.(limit_scope) l.(limit_broker_id) c l.(cached_count).

Definition with_cached (c : gmap string (Z * Z)) (l : UserLimiter) : UserLimiter :=
  mkUserLimiter l.(limit_cfg) l.(limit_scope) l.(limit_broker_id) l.(counts) c.

Definition local_count (l : UserLimiter) (key : string) : Z := default 0 (l.(counts) !! key).

(** [or_insert(0)] leaves the entry behind also when the cap is reached. *)
Definition try_admit_local (key : string) (max : Z) (l : UserLimiter) : result Z Z * UserLimiter :=
  let slot := local_count l key in
  if max <=? slot then (Err slot, with_counts (<[key := slot]> l.(counts)) l)
  else (Ok (slot + 1), with_counts (<[key := slot + 1]> l.(counts)) l).

Definition incr_local (key : string) (l : UserLimiter) : UserLimiter :=
  with_counts (<[key := local_count l key + 1]> l.(counts)) l.

(** [saturating_sub(1)], then the entry goes at zero. *)
Definition release_local (key : string) (l : UserLimiter) : UserLimiter :=
  match l.(counts) !! key with
  | None => l
  | Some slot =>
      let slot' := Z.max 0 (slot - 1) in
      with_counts (if slot' =? 0 then delete key l.(counts) else <[key := slot']> l.(counts)) l
  end.

Record UserLimitGuard : Type := mkGuard { guard_key : string; guard_job_id : string }.

(** The spawned, fire-and-forget store release. *)
Inductive task : Type := ReleaseTask (scope key job_id : string).

(** [Drop for UserLimitGuard].  Outside a runtime the store release is skipped. *)
Definition drop_guard (in_runtime has_store : bool) (g : UserLimitGuard) (l : UserLimiter)
    : UserLimiter * list task :=
  (release_local g.(guard_key) l,
   if has_store && in_runtime
   then [ReleaseTask l.(limit_scope) g.(guard_key) g.(guard_job_id)] else []).

(** The lexicographic order of [(u64, &str)]. *)
Definition entry_le (a b : Z * string) : bool :=
  (a.1 <? b.1) || ((a.1 =? b.1) && String.leb a.2 b.2).

Fixpoint insert_entry (a : Z * string) (l : list (Z * string)) : list (Z * string) :=
  match l with
  | [] => [a]
  | b :: l' => if entry_le a b then a :: l else b :: insert_entry a l'
  end.

(** [sort_unstable]: equal pairs are indistinguishable, so any sort will do. *)
Definition sort_entries (l : list (Z * string)) : list (Z * string) :=
  fold_right insert_entry [] l.

Definition entry_key (e : UserLimitEntry) : Z * string := (e.(seq), e.(ul_job_id)).

(** The rank of our entry among the listed ones, 0 when it is not there. *)
Definition strict_rank (job_id : string) (s : Z) (entries : list UserLimitEntry) : Z :=
  Z.of_nat (default O (position (fun '(s', j) => (s' =? s) && (j =? job_id)%string)
                                (sort_entries (entry_key <$> entries)))).

(** What the clock and the scheduler decide during one admission: the instants
    the two [elapsed]/[now] calls read, whether the listing outlived its
    timeout, and whether a drop happens inside a runtime. *)
Record admit_env : Type := mkEnv {
  env_now : Z;
  env_listed_at : Z;
  env_list_timed_out : bool;
  env_in_runtime : bool
}.

Section admission.
Context {S : Type} `{UserLimitStore S}.

Definition run_task (t : task) (s : S) : S :=
  match t with ReleaseTask scope key job_id => (release_user_slot scope key job_id s).2 end.

(** The listing under its timeout; [None] covers the error and the timeout,
    which the callers treat alike. *)
Definition list_with_timeout (e : admit_env) (scope key : string) (s : S)
    : option (list UserLimitEntry) :=
  if e.(env_list_timed_out) then None
  else match list_user_slots scope key s with Ok es => Some es | Err _ => None end.

(** The verdict of strict admission once the reservation's answer is known. *)
Definition strict_verdict (max : Z) (job_id : string) (reserved : option Z)
    (listed : option (list UserLimitEntry)) : bool :=
  match reserved, listed with
  | Some s, Some entries => strict_rank job_id s entries <? max
  | _, _ => true
  end.

Definition admit_strict (e : admit_env) (key job_id : string) (max : Z) (l : UserLimiter) (s : S)
    : option UserLimitGuard * list task * UserLimiter * S :=
  let '(r, s) := reserve_user_slot e.(env_now) l.(limit_scope) key job_id l.(limit_broker_id) s in
  let reserved := match r with Ok q => Some q | Err _ => None end in
  let l := incr_local key l in
  let guard := mkGuard key job_id in
  let listed := match reserved with
                | Some _ => list_with_timeout e l.(limit_scope) key s
                | None => None
                end in
  if strict_verdict max job_id reserved listed then (Some guard, [], l, s)
  else let '(l, ts) := drop_guard e.(env_in_runtime) true guard l in (None, ts, l, s).

(** The cached per-dispatcher count, while it is fresh. *)
Definition fresh_count (e : admit_env) (key : string) (l : UserLimiter) : option Z :=
  match l.(cached_count) !! key with
  | Some (n, at_) => if e.(env_now) - at_ <? LAZY_RECONCILE_INTERVAL then Some n else None
  | None => None
  end.

(** The count lazy admission trusts: the fresh one, else the length of a
    listing, which refreshes the cache; [None] when the listing fails. *)
Definition synced_count (e : admit_env) (key : string) (l : UserLimiter) (s : S)
    : option Z * UserLimiter :=
  match fresh_count e key l with
  | Some n => (Some n, l)
  | None =>
      match list_with_timeout e l.(limit_scope) key s with
      | Some es => let n := Z.of_nat (length es) in
                   (Some n, with_cached (<[key := (n, e.(env_listed_at))]> l.(cached_count)) l)
      | None => (None, l)
      end
  end.

Definition admit_lazy (e : admit_env) (key job_id : string) (max : Z) (l : UserLimiter) (s : S)
    : option UserLimitGuard * list task * UserLimiter * S :=
  let '(local, l) := try_admit_local key max l in
  if negb (is_ok local) then (None, [], l, s)
  else
    let guard := mkGuard key job_id in
    let '(r, s) := reserve_user_slot e.(env_now) l.(limit_scope) key job_id l.(limit_broker_id) s in
    if negb (is_ok r) then (Some guard, [], l, s)
    else
      let '(synced, l) := synced_count e key l s in
      match synced with
      | None => (Some guard, [], l, s)
      | Some n =>
          if max <? n
          then let '(l, ts) := drop_guard e.(env_in_runtime) true guard l in (None, ts, l, s)
          else (Some guard, [], l, s)
      end.

Definition admit_local (key job_id : string) (max : Z) (l : UserLimiter)
    : option UserLimitGuard * UserLimiter :=
  let '(local, l) := try_admit_local key max l in
  (if is_ok local then Some (mkGuard key job_id) else None, l).

Definition admit_user (e : admit_env) (key job_id : string) (max : Z) (l : UserLimiter) (store : option S)
    : option UserLimitGuard * list task * UserLimiter * option S :=
  if max =? 0 then (None, [], l, store)
  else match store with
       | None => let '(g, l) := admit_local key job_id max l in (g, [], l, None)
       | Some s =>
           let '(g, ts, l, s) :=
             if strict max then admit_strict e key job_id max l s
             else admit_lazy e key job_id max l s in
           (g, ts, l, Some s)
       end.
End admission.

(** ** The effective ceiling *)

(** The ceilings that apply to [user] of [realm]: the global default, the realm
    default, and one per string role the realm block names. *)
Inductive candidate `{JsonValue V} (cfg : UserLimitConfig) (user : V) (realm : string) : Z -> Prop :=
| candidate_default m : cfg.(cfg_default) = Some m -> candidate cfg user realm m
| candidate_realm block m :
    cfg.(cfg_realms) !! realm = Some block -> block.(realm_default) = Some m ->
    candidate cfg user realm m
| candidate_role block roles role m :
    cfg.(cfg_realms) !! realm = Some block -> role_names user = Some roles -> role ∈ roles ->
    block.(realm_roles) !! role = Some m -> candidate cfg user realm m.

(** [o] is the maximum of [P], [None] when [P] is empty. *)
Definition max_of (P : Z -> Prop) (o : option Z) : Prop :=
  match o with
  | None => forall m, ~ P m
  | Some m => P m /\ forall n, P n -> n <= m
  end.

Lemma max_of_ext P Q o : (forall m, P m <-> Q m) -> max_of P o -> max_of Q o.
Proof. intros HPQ. destruct o; simpl; naive_solver. Qed.

Lemma raise_to_max P o m : max_of P o -> max_of (fun n => P n \/ n = m) (raise_to o m).
Proof.
  unfold raise_to. destruct o as [e|]; simpl.
  - intros [He Hmax]. split.
    + destruct (Z.max_spec e m) as [[? ->]|[? ->]]; auto.
    + intros n [Hn| ->]; [specialize (Hmax n Hn)|]; lia.
  - intros Hno. split; [auto|]. intros n [Hn| ->]; [by destruct (Hno n)|lia].
Qed.

Lemma raise_roles_max P roles o l :
  max_of P o ->
  max_of (fun n => P n \/ exists role, role ∈ l /\ roles !! role = Some n)
         (fold_left (raise_role roles) l o).
Proof.
  revert P o; induction l as [|r l IH]; intros P o HP; simpl.
  { eapply max_of_ext; [|done]. intros m. split; [auto|]. intros [|(r & []%not_elem_of_nil & _)]; done. }
  destruct (roles !! r) as [m|] eqn:Hr; unfold raise_role at 2; rewrite Hr.
  - eapply max_of_ext; [|apply IH, raise_to_max, HP]. intros n. simpl.
    setoid_rewrite elem_of_cons. naive_solver.
  - eapply max_of_ext; [|apply IH, HP]. intros n. simpl. setoid_rewrite elem_of_cons. naive_solver.
Qed.

Section resolve.
Context `{JsonValue V}.

Lemma resolve_max_of cfg (user : V) realm username :
  pointer ["auth"; "realm"] user ≫= as_str = Some realm ->
  pointer ["auth"; "username"] user ≫= as_str = Some username ->
  exists o, resolve cfg user = (fun m => (user_key realm username, m)) <$> o /\
            max_of (candidate cfg user realm) o.
Proof.
  intros Hr Hu. unfold resolve. rewrite Hr, Hu. simpl. eexists; split; [done|].
  assert (max_of (fun m => cfg.(cfg_default) = Some m) cfg.(cfg_default)) as Hd.
  { destruct (cfg_default cfg) as [d|]; simpl; [|done]. split; [done|]. intros n [= ->]; lia. }
  destruct (cfg_realms cfg !! realm) as [block|] eqn:Hb.
  2: { eapply max_of_ext; [|done]. intros m. split; [by constructor|]. by inversion 1; simplify_eq. }
  assert (exists o, o = match realm_default block with
                        | Some d => raise_to (cfg_default cfg) d | None => cfg_default cfg end /\
          max_of (fun m => cfg_default cfg = Some m \/ realm_default block = Some m) o) as (o & <- & Ho).
  { destruct (realm_default block) as [d|]; (eexists; split; [done|]).
    - eapply max_of_ext; [|by apply raise_to_max]. naive_solver.
    - eapply max_of_ext; [|done]. naive_solver. }
  destruct (role_names user) as [roles|] eqn:Hn.
  - eapply max_of_ext; [|by apply raise_roles_max]. intros m. split.
    + intros [[?|?]|(r & ? & ?)];
        [by apply candidate_default | by eapply candidate_realm | by eapply candidate_role].
    + inversion 1; simplify_eq; eauto.
  - eapply max_of_ext; [|done]. intros m. split.
    + intros [?|?]; [by apply candidate_default | by eapply candidate_realm].
    + inversion 1; simplify_eq; eauto.
Qed.

(** A job is limited exactly when its user is identified by a string realm and
    a string username and some ceiling applies; the limit is then the greatest
    of the global default, the default of the user's own realm, and the
    ceilings of the roles held in that realm, and it is filed under the key of
    realm and username. *)
Theorem resolve_is_max cfg (user : V) key m :
  resolve cfg user = Some (key, m) <->
  exists realm username,
    pointer ["auth"; "realm"] user ≫= as_str = Some realm /\
    pointer ["auth"; "username"] user ≫= as_str = Some username /\
    key = user_key realm username /\
    candidate cfg user realm m /\ forall n, candidate cfg user realm n -> n <= m.
Proof.
  split.
  - intros Hres. destruct (pointer ["auth"; "realm"] user ≫= as_str) as [realm|] eqn:Hr.
    2: { unfold resolve in Hres. by rewrite Hr in Hres. }
    destruct (pointer ["auth"; "username"] user ≫= as_str) as [username|] eqn:Hu.
    2: { unfold resolve in Hres. by rewrite Hr, Hu in Hres. }
    destruct (resolve_max_of cfg user realm username Hr Hu) as (o & Ho & Hmax).
    rewrite Ho in Hres. destruct o as [m'|]; [|done]. simplify_eq/=. exists realm, username. naive_solver.
  - intros (realm & username & Hr & Hu & -> & Hc & Hmax).
    destruct (resolve_max_of cfg user realm username Hr Hu) as (o & -> & Ho).
    destruct o as [m'|]; simpl in *; [|by destruct (Ho m)].
    destruct Ho as [Hc' Hmax']. specialize (Hmax _ Hc'). specialize (Hmax' _ Hc).
    do 2 f_equal. lia.
Qed.
End resolve.

(** Two users share a key only when a realm contains the separator. *)
Fixpoint has_separator (s : string) : bool :=
  match s with
  | EmptyString => false
  | String a s' => Ascii.eqb a (Ascii.ascii_of_nat 31) || has_separator s'
  end.

Lemma user_key_inj r1 u1 r2 u2 :
  has_separator r1 = false -> has_separator r2 = false ->
  user_key r1 u1 = user_key r2 u2 -> r1 = r2 /\ u1 = u2.
Proof.
  unfold user_key, unit_separator. revert r2; induction r1 as [|a r1 IH]; intros [|b r2] H1 H2; simpl in *.
  - intros [=]. by simplify_eq/=.
  - intros [= <- _]. by rewrite Ascii.eqb_refl in H2.
  - intros [= -> _]. by rewrite Ascii.eqb_refl in H1.
  - intros [= -> Heq]. apply orb_false_iff in H1 as [_ H1], H2 as [_ H2].
    by destruct (IH r2 H1 H2 Heq) as [-> ->].
Qed.

(** ** The strict rank *)

Lemma string_leb_refl s : String.leb s s = true.
Proof. by destruct (String.leb_total s s). Qed.

Lemma string_leb_total s t : String.leb s t = true \/ String.leb t s = true.
Proof. destruct (String.leb_total s t); auto. Qed.

Lemma string_leb_antisym s t : String.leb s t = true -> String.leb t s = true -> s = t.
Proof. apply String.leb_antisym. Qed.

Lemma ascii_compare_lt_trans a b c :
  Ascii.compare a b = Lt -> Ascii.compare b c = Lt -> Ascii.compare a c = Lt.
Proof. unfold Ascii.compare. rewrite !N.compare_lt_iff. lia. Qed.

Lemma string_leb_trans s t u : String.leb s t = true -> String.leb t u = true -> String.leb s u = true.
Proof.
  unfold String.leb. revert t u; induction s as [|a s IH]; intros [|b t] [|c u]; simpl; try done.
  destruct (Ascii.compare a b) eqn:Hab, (Ascii.compare b c) eqn:Hbc; try done; intros H1 H2.
  - apply Ascii.compare_eq_iff in Hab; subst b. rewrite Hbc. by eapply IH.
  - apply Ascii.compare_eq_iff in Hab; subst b. by rewrite Hbc.
  - apply Ascii.compare_eq_iff in Hbc; subst c. by rewrite Hab.
  - by rewrite (ascii_compare_lt_trans _ _ _ Hab Hbc).
Qed.

Lemma entry_le_iff a b :
  entry_le a b = true <-> a.1 < b.1 \/ (a.1 = b.1 /\ String.leb a.2 b.2 = true).
Proof. unfold entry_le. rewrite orb_true_iff, andb_true_iff, Z.ltb_lt, Z.eqb_eq. done. Qed.

Lemma entry_le_refl a : entry_le a a = true.
Proof. apply entry_le_iff. right. split; [done | apply string_leb_refl]. Qed.

Lemma entry_le_total a b : entry_le a b = true \/ entry_le b a = true.
Proof.
  rewrite !entry_le_iff. destruct (string_leb_total a.2 b.2), (Z.lt_total a.1 b.1) as [?|[?|?]]; auto.
Qed.

Lemma entry_le_antisym a b : entry_le a b = true -> entry_le b a = true -> a = b.
Proof.
  rewrite !entry_le_iff. intros H1 H2. destruct a as [x s], b as [y t]; simpl in *.
  assert (x = y) as -> by lia. f_equal. apply string_leb_antisym; intuition lia.
Qed.

Lemma entry_le_trans a b c : entry_le a b = true -> entry_le b c = true -> entry_le a c = true.
Proof.
  rewrite !entry_le_iff. intros [?|[? H1]] [?|[? H2]]; [left; lia..|].
  right. split; [lia|]. by eapply string_leb_trans.
Qed.

(** [a] comes strictly before [b] in the admission order. *)
Definition entry_lt (a b : Z * string) : bool := entry_le a b && negb (entry_le b a).

Lemma entry_lt_irrefl a : entry_lt a a = false.
Proof. unfold entry_lt. by rewrite entry_le_refl. Qed.

Lemma entry_lt_neq a b : entry_le a b = true -> a <> b -> entry_lt a b = true.
Proof.
  intros Hab Hne. unfold entry_lt. rewrite Hab. simpl.
  destruct (entry_le b a) eqn:Hba; [|done]. by destruct Hne; apply entry_le_antisym.
Qed.

Definition before_count (x : Z * string) (l : list (Z * string)) : nat :=
  length (filter (fun y => entry_lt y x = true) l).

Lemma insert_entry_perm a l : insert_entry a l ≡ₚ a :: l.
Proof.
  induction l as [|b l IH]; simpl; [done|]. case_match; [done|]. rewrite IH. constructor.
Qed.

Lemma sort_entries_perm l : sort_entries l ≡ₚ l.
Proof. induction l as [|a l IH]; simpl; [done|]. by rewrite insert_entry_perm, IH. Qed.

Definition sorted_entries (l : list (Z * string)) : Prop :=
  StronglySorted (fun a b => entry_le a b = true) l.

Lemma insert_entry_sorted a l : sorted_entries l -> sorted_entries (insert_entry a l).
Proof.
  induction 1 as [|b l Hl IH Hb]; simpl; [by repeat constructor|].
  destruct (entry_le a b) eqn:Hab.
  - constructor; [by constructor|]. constructor; [done|].
    eapply Forall_impl; [done|]. intros c Hc. by eapply entry_le_trans.
  - constructor; [done|]. rewrite insert_entry_perm. constructor; [|done].
    destruct (entry_le_total a b); congruence.
Qed.

Lemma sort_entries_sorted l : sorted_entries (sort_entries l).
Proof. induction l as [|a l IH]; simpl; [constructor | by apply insert_entry_sorted]. Qed.

Lemma none_before x l : Forall (fun y => entry_le x y = true) l -> before_count x l = O.
Proof.
  unfold before_count. induction 1 as [|b l Hb _ IH]; [done|]. rewrite filter_cons, decide_False; [done|].
  unfold entry_lt. by rewrite Hb, andb_false_r.
Qed.

Lemma position_before x l :
  sorted_entries l -> NoDup l -> x ∈ l ->
  position (fun '(s', j) => (s' =? x.1) && (j =? x.2)%string) l = Some (before_count x l).
Proof.
  unfold before_count. induction 1 as [|a l Hl IH Ha]; intros Hnd Hx; [by apply not_elem_of_nil in Hx|].
  apply NoDup_cons in Hnd as [Hna Hnd]. cbn [position]. rewrite filter_cons.
  assert (forall y : Z * string, (let '(s', j) := y in (s' =? x.1) && (j =? x.2)%string) = bool_decide (y = x)) as Heq.
  { intros [s j]. destruct x as [xs xj]; simpl.
    case_bool_decide as Hd; [simplify_eq; by rewrite Z.eqb_refl, String.eqb_refl|].
    destruct (Z.eqb_spec s xs), (String.eqb_spec j xj); simpl; congruence. }
  rewrite Heq. case_bool_decide as Hax.
  - subst a. rewrite decide_False by (by rewrite entry_lt_irrefl). f_equal.
    symmetry. by apply (none_before x l).
  - apply elem_of_cons in Hx as [->|Hx]; [done|]. rewrite IH by done.
    rewrite decide_True; [done|]. apply entry_lt_neq; [|done].
    rewrite Forall_forall in Ha. by apply Ha.
Qed.

Lemma strict_rank_before job_id s entries :
  NoDup (entry_key <$> entries) -> (s, job_id) ∈ entry_key <$> entries ->
  strict_rank job_id s entries = Z.of_nat (before_count (s, job_id) (entry_key <$> entries)).
Proof.
  intros Hnd Hin. unfold strict_rank.
  pose proof (sort_entries_perm (entry_key <$> entries)) as Hp.
  rewrite (position_before (s, job_id)); [|apply sort_entries_sorted|by rewrite Hp|by rewrite Hp].
  simpl. unfold before_count. by rewrite Hp.
Qed.

(** ** Broker-local admission over a whole run *)

Definition live_count (key : string) (live : list UserLimitGuard) : Z :=
  Z.of_nat (length (filter (fun g => guard_key g = key) live)).

Lemma live_count_cons key g live :
  live_count key (g :: live) = live_count key live + (if decide (guard_key g = key) then 1 else 0).
Proof. unfold live_count. rewrite filter_cons. case_decide; simpl length; lia. Qed.

Lemma live_count_perm key l1 l2 : l1 ≡ₚ l2 -> live_count key l1 = live_count key l2.
Proof. unfold live_count. by intros ->. Qed.

Lemma live_count_nonneg key live : 0 <= live_count key live.
Proof. unfold live_count. lia. Qed.

(** The counts say how many guards each key has, and no entry sits at zero
    apart from what a refused admission leaves behind. *)
Definition counts_live (l : UserLimiter) (live : list UserLimitGuard) : Prop :=
  forall key, local_count l key = live_count key live.

Lemma local_count_insert l key key' v :
  local_count (with_counts (<[key := v]> l.(counts)) l) key' =
  if decide (key = key') then v else local_count l key'.
Proof.
  unfold local_count; simpl. case_decide; subst; [by rewrite lookup_insert_eq | by rewrite lookup_insert_ne].
Qed.

Lemma release_local_count l key key' :
  local_count (release_local key l) key' =
  if decide (key = key') then Z.max 0 (local_count l key' - 1) else local_count l key'.
Proof.
  unfold release_local. destruct (counts l !! key) as [slot|] eqn:Hs.
  - destruct (Z.max 0 (slot - 1) =? 0) eqn:Hz; unfold local_count; simpl; case_decide; subst.
    + rewrite lookup_delete_eq, Hs. simpl. lia.
    + by rewrite lookup_delete_ne.
    + by rewrite lookup_insert_eq, Hs.
    + by rewrite lookup_insert_ne.
  - case_decide; [|done]. subst. unfold local_count. by rewrite Hs.
Qed.

Lemma try_admit_local_spec key max l r l' :
  try_admit_local key max l = (r, l') ->
  is_ok r = (local_count l key <? max) /\
  (forall k, local_count l' k = local_count l k + (if decide (key = k) then if is_ok r then 1 else 0 else 0)).
Proof.
  unfold try_admit_local. destruct (Z.leb_spec max (local_count l key)); intros [= <- <-]; simpl is_ok.
  - split; [by destruct (Z.ltb_spec (local_count l key) max); [lia|]|].
    intros k. rewrite local_count_insert. case_decide; subst; lia.
  - split; [by destruct (Z.ltb_spec (local_count l key) max); [|lia]|].
    intros k. rewrite local_count_insert. case_decide; subst; lia.
Qed.

Section local_run.
Context {S : Type} `{UserLimitStore S}.

(** Admissions and guard drops on a broker without a store; [limit] bounds the
    ceilings that the admissions of each key resolve to. *)
Inductive local_step (limit : string -> Z)
    : UserLimiter * list UserLimitGuard -> UserLimiter * list UserLimitGuard -> Prop :=
| step_admit e key job_id max g l l' ts live :
    0 <= max <= limit key ->
    admit_user (S:=S) e key job_id max l None = (g, ts, l', None) ->
    local_step limit (l, live) (l', option_list g ++ live)
| step_drop in_runtime g l live1 live2 :
    local_step limit (l, live1 ++ g :: live2) ((drop_guard in_runtime false g l).1, live1 ++ live2).

Definition local_inv (limit : string -> Z) (st : UserLimiter * list UserLimitGuard) : Prop :=
  counts_live st.1 st.2 /\ forall key, live_count key st.2 <= Z.max 0 (limit key).

Lemma admit_local_spec e key job_id max l live g ts l' s' :
  0 <= max -> counts_live l live ->
  admit_user (S:=S) e key job_id max l None = (g, ts, l', s') ->
  g = (if live_count key live <? max then Some (mkGuard key job_id) else None) /\
  counts_live l' (option_list g ++ live).
Proof.
  intros Hmax Hinv. unfold admit_user, admit_local. pose proof (live_count_nonneg key live).
  destruct (Z.eqb_spec max 0) as [->|Hne].
  { intros [= <- <- <- <-]. by destruct (Z.ltb_spec (live_count key live) 0); [lia|]. }
  destruct (try_admit_local key max l) as [r l1] eqn:Ht. apply try_admit_local_spec in Ht as [Hr Hc].
  rewrite (Hinv key) in Hr. intros [= <- <- <- <-]. split; [by rewrite Hr|].
  intros k. rewrite Hc, (Hinv k). destruct (is_ok r); simpl app; [|case_decide; lia].
  by rewrite live_count_cons.
Qed.

Lemma local_step_inv limit st st' : local_step limit st st' -> local_inv limit st -> local_inv limit st'.
Proof.
  unfold local_inv. destruct 1 as [e key job_id max g l l' ts live Hmax Ha | in_rt g l live1 live2];
    intros [Hinv Hle]; simpl in *.
  - destruct (admit_local_spec _ _ _ _ _ _ _ _ _ _ (proj1 Hmax) Hinv Ha) as [-> Hinv'].
    split; [done|]. intros k. specialize (Hle k).
    destruct (Z.ltb_spec (live_count key live) max); simpl app; [|done].
    rewrite live_count_cons; simpl. case_decide; subst; lia.
  - assert (forall k, live_count k (live1 ++ g :: live2) =
              live_count k (live1 ++ live2) + (if decide (guard_key g = k) then 1 else 0)) as Hk.
    { intros k. rewrite <- live_count_cons. apply live_count_perm. symmetry. apply Permutation_middle. }
    split.
    + intros k. rewrite release_local_count, (Hinv k), Hk.
      pose proof (live_count_nonneg k (live1 ++ live2)). case_decide; lia.
    + intros k. specialize (Hle k). rewrite Hk in Hle. case_decide; lia.
Qed.

Lemma local_run_inv limit cfg scope broker_id st :
  rtc (local_step limit) (new cfg scope broker_id, []) st -> local_inv limit st.
Proof.
  intros Hrun. remember (new cfg scope broker_id, []) as st0 eqn:H0.
  assert (local_inv limit st0) as Hinv.
  { subst. split; [done|]. intros key. unfold live_count. simpl. lia. }
  clear H0. induction Hrun; eauto using local_step_inv.
Qed.

(** C36. The broker-local cap: along any run of admissions and drops the users'
    counts are exactly their live guards, a user never has more live guards
    than the largest ceiling his admissions resolve to, and an admission is
    granted exactly when he has fewer than its ceiling. *)
Theorem local_cap limit cfg scope broker_id l live key :
  rtc (local_step limit) (new cfg scope broker_id, []) (l, live) ->
  local_count l key = live_count key live /\
  live_count key live <= Z.max 0 (limit key) /\
  forall e job_id max, 0 <= max ->
    (admit_user (S:=S) e key job_id max l None).1.1.1 =
    if live_count key live <? max then Some (mkGuard key job_id) else None.
Proof.
  intros [Hinv Hle]%local_run_inv. split_and!; [done..|].
  intros e job_id max Hmax. destruct (admit_user e key job_id max l None) as [[[g ts] l'] s'] eqn:Ha.
  by destruct (admit_local_spec _ _ _ _ _ _ _ _ _ _ Hmax Hinv Ha).
Qed.

(** Availability: with a ceiling above zero, strict admission grants whenever
    the store fails the reservation or cannot list in time; lazy admission
    does, too, once its local gate let the job through. *)
Theorem admit_fails_open e key job_id max l (s : S) :
  max <> 0 -> (strict max = false -> local_count l key < max) ->
  is_ok (reserve_user_slot e.(env_now) l.(limit_scope) key job_id l.(limit_broker_id) s).1 = false \/
  (fresh_count e key l = None /\
   list_with_timeout e l.(limit_scope) key
     (reserve_user_slot e.(env_now) l.(limit_scope) key job_id l.(limit_broker_id) s).2 = None) ->
  (admit_user e key job_id max l (Some s)).1.1.1 = Some (mkGuard key job_id).
Proof.
  intros Hmax Hgate Hfail. unfold admit_user. rewrite (proj2 (Z.eqb_neq _ _) Hmax).
  destruct (strict max) eqn:Hs.
  - unfold admit_strict. destruct (reserve_user_slot _ _ _ _ _ s) as [[q|err] s1]; simpl in *; [|done].
    destruct Hfail as [?|[_ Hl]]; [done|]. by rewrite Hl.
  - unfold admit_lazy. destruct (try_admit_local key max l) as [r l1] eqn:Ht.
    assert (limit_scope l1 = limit_scope l /\ limit_broker_id l1 = limit_broker_id l /\
            cached_count l1 = cached_count l) as (E1 & E2 & E3).
    { unfold try_admit_local in Ht. case_match; by simplify_eq. }
    apply try_admit_local_spec in Ht as [Hr _].
    rewrite Hr, (proj2 (Z.ltb_lt _ _)) by auto. simpl. rewrite E1, E2.
    destruct (reserve_user_slot _ _ _ _ _ s) as [[q|err] s1]; simpl in *; [|done].
    destruct Hfail as [?|[Hc Hl]]; [done|]. unfold synced_count, fresh_count in *. by rewrite E1, E3, Hc, Hl.
Qed.
End local_run.

(** ** Concrete runs *)

(** A backend without user slots answers every call with an error. *)
Definition no_user_slots : DbError :=
  Backend "user-limit store not implemented for this persistence backend".

Definition unsupported_store : UserLimitStore unit := {|
  reserve_user_slot := fun _ _ _ _ _ s => (Err no_user_slots, s);
  release_user_slot := fun _ _ _ s => (Err no_user_slots, s);
  list_user_slots := fun _ _ _ => Err no_user_slots;
  reclaim_user_slots := fun _ s => (Err no_user_slots, s)
|}.

Definition sample_env : admit_env := mkEnv 0 0 false true.
Definition sample_limiter : UserLimiter := new (mkUserLimitConfig (Some 1) ∅) "mars" "b1".

Lemma local_cap_witness :
  let l := incr_local "u" sample_limiter in
  live_count "u" [mkGuard "u" "A"] = 1 /\
  admit_user (H:=unsupported_store) sample_env "u" "B" 1 l None = (None, [], l, None).
Proof.
  assert (rtc (local_step (H:=unsupported_store) (fun _ => 1)) (sample_limiter, [])
            (incr_local "u" sample_limiter, [mkGuard "u" "A"])) as Hrun.
  { apply rtc_once. by apply (step_admit (H:=unsupported_store) (fun _ => 1) sample_env "u" "A" 1
                                (Some (mkGuard "u" "A")) sample_limiter _ []). }
  destruct (local_cap (H:=unsupported_store) (fun _ => 1) _ "mars" "b1" _ _ "u" Hrun) as (Hc & _ & Ha).
  specialize (Ha sample_env "B"%string 1 ltac:(lia)). split; [done|]. by vm_compute.
Defined.

Lemma admit_fails_open_witness :
  (admit_user (H:=unsupported_store) sample_env "u" "A" 5 sample_limiter (Some tt)).1.1.1 = Some (mkGuard "u" "A").
Proof.
  apply (admit_fails_open (H:=unsupported_store) sample_env "u" "A" 5 sample_limiter tt).
  - done.
  - by vm_compute.
  - by left.
Defined.
