(* ===== verification/MemoryStore.v ===== *)
(** * The in-memory store ([db/memory.rs])

    Every operation of [MemoryStore] on its four maps, the instances of the
    storage interfaces, and the proof that it keeps the promises of
    [JobStoreLaws].  [now] is the instant [Utc::now()] returns. *)
From S2P Require Import Prelude Errors RequestId Job Store.

(** [MemoryText] renders the message of an invalid job id; [from_std] is
    [chrono::Duration::from_std], which fails beyond chrono's range. *)
Class MemoryText : Type := invalid_id_text : string -> DecodeError -> string.
Class Chrono : Type := from_std : Z -> option Z.

Record MemoryStore (V : Type) : Type := mkMemoryStore {
  jobs : gmap string (PersistentJobRecord V);
  brokers : gmap string BrokerLeaseRecord;
  broker_slots : gmap (string * string) Z;
  user_slots : gmap (string * string) (gmap string UserLimitEntry);
  user_seq : Z
}.
Arguments mkMemoryStore {V}. Arguments jobs {V}. Arguments brokers {V}.
Arguments broker_slots {V}. Arguments user_slots {V}. Arguments user_seq {V}.

Definition memory_job_key {text : MemoryText} (job_id : string) : result DbError string :=
  let? decoded := map_err (fun err => Backend (invalid_id_text job_id err)) (decode job_id) in
  Ok (decoded.(site) ++ "/" ++ decoded.(env) ++ "/" ++ pretty decoded.(broker_slot) ++ "/" ++ job_id)%string.

Section memory.
Context {V : Type} {text : MemoryText} {chrono : Chrono}.

Definition new : MemoryStore V := mkMemoryStore ∅ ∅ ∅ ∅ 0.

Definition with_jobs (j : gmap string (PersistentJobRecord V)) (s : MemoryStore V) : MemoryStore V :=
  mkMemoryStore j s.(brokers) s.(broker_slots) s.(user_slots) s.(user_seq).
Definition with_brokers (b : gmap string BrokerLeaseRecord) (s : MemoryStore V) : MemoryStore V :=
  mkMemoryStore s.(jobs) b s.(broker_slots) s.(user_slots) s.(user_seq).
Definition with_broker_slots (b : gmap (string * string) Z) (s : MemoryStore V) : MemoryStore V :=
  mkMemoryStore s.(jobs) s.(brokers) b s.(user_slots) s.(user_seq).
Definition with_user_slots (u : gmap (string * string) (gmap string UserLimitEntry)) (q : Z)
    (s : MemoryStore V) : MemoryStore V :=
  mkMemoryStore s.(jobs) s.(brokers) s.(broker_slots) u q.

(** ** Jobs *)

Definition upsert_job_memory (record : PersistentJobRecord V) (s : MemoryStore V)
    : result DbError unit * MemoryStore V :=
  match memory_job_key record.(rec_job_id) with
  | Err e => (Err e, s)
  | Ok key => (Ok tt, with_jobs (<[key := record]> s.(jobs)) s)
  end.

Definition delete_job_memory (job_id : string) (s : MemoryStore V)
    : result DbError unit * MemoryStore V :=
  match memory_job_key job_id with
  | Err e => (Err e, s)
  | Ok key => (Ok tt, with_jobs (delete key s.(jobs)) s)
  end.

Definition claim_if_owner_memory (job_id expected_owner_broker_id claimant_broker_id : string)
    (s : MemoryStore V) : result DbError (ClaimResult V) * MemoryStore V :=
  match memory_job_key job_id with
  | Err e => (Err e, s)
  | Ok key =>
      match s.(jobs) !! key with
      | None => (Ok NotFound, s)
      | Some record =>
          if (record.(rec_broker_id) =? claimant_broker_id)%string then (Ok (Claimed record), s)
          else if negb (record.(rec_broker_id) =? expected_owner_broker_id)%string
               then (Ok (Active record.(rec_broker_id)), s)
               else let record := with_broker claimant_broker_id record in
                    (Ok (Claimed record), with_jobs (<[key := record]> s.(jobs)) s)
      end
  end.

#[export] Instance memory_job_store : JobStore V (MemoryStore V) := {|
  upsert_job := upsert_job_memory;
  delete_job := delete_job_memory;
  claim_if_owner := claim_if_owner_memory
|}.

(** ** Leases *)

Definition fallback_ttl : Z := 60 * 10 ^ 9.

Definition upsert_broker_lease_memory (now : Z) (broker_id internal_poll_base_url : string) (ttl : Z)
    (s : MemoryStore V) : result DbError unit * MemoryStore V :=
  (Ok tt, with_brokers
     (<[broker_id := mkLease broker_id internal_poll_base_url
                       (now + default fallback_ttl (from_std ttl)) now]> s.(brokers)) s).

Definition get_broker_lease_memory (broker_id : string) (s : MemoryStore V)
    : result DbError (option BrokerLeaseRecord) := Ok (s.(brokers) !! broker_id).

Definition delete_broker_lease_memory (broker_id : string) (s : MemoryStore V)
    : result DbError unit * MemoryStore V := (Ok tt, with_brokers (delete broker_id s.(brokers)) s).

#[export] Instance memory_lease_store : BrokerLeaseStore (MemoryStore V) := {|
  upsert_broker_lease := upsert_broker_lease_memory;
  get_broker_lease := get_broker_lease_memory;
  delete_broker_lease := delete_broker_lease_memory
|}.

(** ** Broker slots: a u32 counter per site and environment *)

Definition allocate_memory_broker_slot (site_tag env_tag : string) (s : MemoryStore V)
    : result DbError Z * MemoryStore V :=
  let next_slot := default 0 (s.(broker_slots) !! (site_tag, env_tag)) in
  if u16_max <? next_slot
  then (Err (SlotExhausted site_tag env_tag u16_max),
        with_broker_slots (<[(site_tag, env_tag) := next_slot]> s.(broker_slots)) s)
  else (Ok (wrap 16 next_slot),
        with_broker_slots (<[(site_tag, env_tag) := wrap 32 (next_slot + 1)]> s.(broker_slots)) s).

#[export] Instance memory_slot_store : BrokerSlotStore (MemoryStore V) := {|
  allocate_broker_slot := allocate_memory_broker_slot
|}.

(** ** User slots *)

Definition entries_of (scope user : string) (s : MemoryStore V) : gmap string UserLimitEntry :=
  default ∅ (s.(user_slots) !! (scope, user)).

Definition reserve_user_slot_memory (now : Z) (scope user job_id owner : string) (s : MemoryStore V)
    : result DbError Z * MemoryStore V :=
  let entries := entries_of scope user s in
  match entries !! job_id with
  | Some existing =>
      (Ok existing.(seq), with_user_slots (<[(scope, user) := entries]> s.(user_slots)) s.(user_seq) s)
  | None =>
      let q := wrap 64 (s.(user_seq) + 1) in
      let entry := mkUserLimitEntry scope user job_id owner q now in
      (Ok q, with_user_slots (<[(scope, user) := <[job_id := entry]> entries]> s.(user_slots)) q s)
  end.

Definition release_user_slot_memory (scope user job_id : string) (s : MemoryStore V)
    : result DbError unit * MemoryStore V :=
  (Ok tt,
   match s.(user_slots) !! (scope, user) with
   | None => s
   | Some entries =>
       let entries := delete job_id entries in
       with_user_slots (if decide (entries = ∅) then delete (scope, user) s.(user_slots)
                        else <[(scope, user) := entries]> s.(user_slots)) s.(user_seq) s
   end).

Definition list_user_slots_memory (scope user : string) (s : MemoryStore V)
    : result DbError (list UserLimitEntry) :=
  Ok (match s.(user_slots) !! (scope, user) with
      | Some entries => (map_to_list entries).*2
      | None => []
      end).

Definition live_brokers (now : Z) (s : MemoryStore V) : gset string :=
  list_to_set (broker_id <$> filter (fun b => now < b.(lease_until)) (map_to_list s.(brokers)).*2).

Definition kept (live : gset string) (p : string * UserLimitEntry) : Prop :=
  p.2.(owner_broker_id) ∈ live.

#[export] Instance kept_dec live p : Decision (kept live p).
Proof. unfold kept. apply _. Defined.

Definition retain_entries (live : gset string) (entries : gmap string UserLimitEntry)
    : option (gmap string UserLimitEntry) :=
  let entries := filter (kept live) entries in
  if decide (entries = ∅) then None else Some entries.

Definition reclaim_user_slots_memory (now : Z) (s : MemoryStore V)
    : result DbError Z * MemoryStore V :=
  let live := live_brokers now s in
  let removed := map_fold (fun _ entries n =>
                   n + Z.of_nat (size (filter (fun p => ~ kept live p) entries))) 0 s.(user_slots) in
  (Ok removed, with_user_slots (omap (retain_entries live) s.(user_slots)) s.(user_seq) s).

#[export] Instance memory_user_store : UserLimitStore (MemoryStore V) := {|
  reserve_user_slot := reserve_user_slot_memory;
  release_user_slot := release_user_slot_memory;
  list_user_slots := list_user_slots_memory;
  reclaim_user_slots := reclaim_user_slots_memory
|}.
End memory.

(** ** The keys of jobs *)

Lemma string_app_assoc (s t u : string) : (s ++ (t ++ u) = (s ++ t) ++ u)%string.
Proof.
  induction s as [|a s IH]; [done|].
  change (String a (s ++ (t ++ u)) = String a ((s ++ t) ++ u))%string. by rewrite IH.
Qed.

Lemma append_suffix_inj (s1 s2 t1 t2 : string) :
  String.length t1 = String.length t2 -> (s1 ++ t1 = s2 ++ t2)%string -> t1 = t2.
Proof.
  assert (forall s t : string, String.length (s ++ t) = (String.length s + String.length t)%nat) as Hlen.
  { induction s as [|a s IH]; intros t; simpl; [done|]. by rewrite IH. }
  intros Ht. revert s2; induction s1 as [|a s1 IH]; intros [|b s2] Heq; [done|..|].
  1, 2: apply (f_equal String.length) in Heq; rewrite !Hlen in Heq; simpl in Heq; lia.
  change (String a (s1 ++ t1) = String b (s2 ++ t2))%string in Heq.
  injection Heq as _ Heq. eauto.
Qed.

Lemma string_of_ascii_length l : String.length (string_of_ascii l) = length l.
Proof. induction l; simpl; congruence. Qed.

Lemma decode_length id d : decode id = Ok d -> String.length id = ID_LEN.
Proof.
  intros (packed & _ & -> & _)%decode_inv. unfold b32.
  by rewrite string_of_ascii_length, length_map, to_digits_length.
Qed.

(** Ids have one length, so a key that ends in an id determines it. *)
Lemma id_suffix_inj id1 id2 d1 d2 (p1 p2 : string) :
  decode id1 = Ok d1 -> decode id2 = Ok d2 -> (p1 ++ id1 = p2 ++ id2)%string -> id1 = id2.
Proof.
  intros H1 H2. apply append_suffix_inj. by rewrite (decode_length _ _ H1), (decode_length _ _ H2).
Qed.

(** Keys of the form [p ++ id] with [p] made of what the id decodes to. *)
Ltac solve_key_inj :=
  repeat match goal with
  | |- context [decode ?a] => let H := fresh in destruct (decode a) eqn:H; [simpl|done]
  end;
  let H := fresh in
  intros [= <-] [= H]; rewrite !string_app_assoc in H; symmetry; by eapply id_suffix_inj.

Lemma memory_job_key_inj {text : MemoryText} id1 id2 k :
  memory_job_key id1 = Ok k -> memory_job_key id2 = Ok k -> id1 = id2.
Proof. unfold memory_job_key. solve_key_inj. Qed.

Section memory_laws.
Context {V : Type} {text : MemoryText} {chrono : Chrono}.

Definition lookup_job_memory (job_id : string) (s : MemoryStore V) : option (PersistentJobRecord V) :=
  match memory_job_key job_id with Ok key => s.(jobs) !! key | Err _ => None end.

Lemma lookup_insert_memory id key r (s : MemoryStore V) id' :
  memory_job_key id = Ok key ->
  lookup_job_memory id' (with_jobs (<[key := r]> s.(jobs)) s) =
  if decide (id' = id) then Some r else lookup_job_memory id' s.
Proof.
  intros Hk. unfold lookup_job_memory. case_decide as Hid.
  - subst id'. rewrite Hk. simpl. by rewrite lookup_insert_eq.
  - destruct (memory_job_key id') as [key'|] eqn:Hk'; [|done]. simpl.
    rewrite lookup_insert_ne; [done|]. intros ->. by apply Hid, (memory_job_key_inj _ _ _ Hk').
Qed.

#[export] Instance memory_job_laws : JobStoreLaws (MemoryStore V) lookup_job_memory.
Proof.
  split.
  - simpl. unfold upsert_job_memory. intros r s s'.
    destruct (memory_job_key _) as [key|] eqn:Hk; [|done]. intros [= <-] id. by apply lookup_insert_memory.
  - simpl. unfold upsert_job_memory. intros r s s' e.
    destruct (memory_job_key _); [done|]. by intros [= <- <-].
  - simpl. unfold delete_job_memory, lookup_job_memory. intros jid s s'.
    destruct (memory_job_key jid) as [key|] eqn:Hk; [|done]. intros [= <-] id. simpl. case_decide as Hid.
    + subst id. rewrite Hk. by rewrite lookup_delete_eq.
    + destruct (memory_job_key id) as [key'|] eqn:Hk'; [|done].
      rewrite lookup_delete_ne; [done|]. intros ->. by apply Hid, (memory_job_key_inj _ _ _ Hk').
  - simpl. unfold delete_job_memory. intros jid s s' e.
    destruct (memory_job_key _); [done|]. by intros [= <- <-].
  - simpl. unfold claim_if_owner_memory. intros jid expected claimant s c s'.
    destruct (memory_job_key jid) as [key|] eqn:Hk; [|done].
    assert (lookup_job_memory jid s = s.(jobs) !! key) as Hl by (unfold lookup_job_memory; by rewrite Hk).
    rewrite Hl. unfold claim_spec. destruct (s.(jobs) !! key) as [r|] eqn:Hr.
    2: { intros [= <- <-]. split; [done|]. intros id. simpl. case_decide; congruence. }
    destruct (String.eqb_spec (rec_broker_id r) claimant); [rewrite decide_True by done|rewrite decide_False by done].
    { intros [= <- <-]. split; [done|]. intros id. simpl. case_decide; congruence. }
    destruct (String.eqb_spec (rec_broker_id r) expected); simpl;
      [rewrite decide_True by done|rewrite decide_False by done]; intros [= <- <-]; (split; [done|]); intros id; simpl.
    + by apply lookup_insert_memory.
    + case_decide; congruence.
  - simpl. unfold claim_if_owner_memory. intros jid expected claimant s e s'.
    destruct (memory_job_key jid) as [key|]; [|by intros [= <- <-]]. intros Hc. by case_all.
Qed.

Definition lease_of_memory (broker_id : string) (s : MemoryStore V) : option BrokerLeaseRecord :=
  s.(brokers) !! broker_id.

#[export] Instance memory_lease_laws :
  LeaseStoreLaws (MemoryStore V) lookup_job_memory lease_of_memory (fun ttl => default fallback_ttl (from_std ttl)).
Proof.
  split; simpl; unfold lease_of_memory.
  - unfold get_broker_lease_memory. by intros b s o [= <-].
  - unfold upsert_broker_lease_memory. intros * [= <-]. simpl. apply lookup_insert_eq.
  - unfold upsert_broker_lease_memory. intros * [= <- <-]. right. simpl. apply lookup_insert_eq.
  - unfold upsert_broker_lease_memory. intros * [= <- <-] Hb. simpl. by apply lookup_insert_ne.
  - unfold upsert_broker_lease_memory. by intros * [= <- <-].
  - unfold delete_broker_lease_memory. intros * [= <-]. simpl. apply lookup_delete_eq.
  - unfold delete_broker_lease_memory. intros * [= <- <-] Hb. simpl. by apply lookup_delete_ne.
  - unfold delete_broker_lease_memory. by intros * [= <- <-].
  - unfold upsert_job_memory. intros * Hu. by case_all.
  - unfold delete_job_memory. intros * Hu. by case_all.
  - unfold claim_if_owner_memory. intros * Hu. by case_all.
Qed.

(** ** Broker slots *)

(** The allocations of a sequence of brokers, each for its site and environment. *)
Fixpoint allocate_all (reqs : list (string * string)) (s : MemoryStore V)
    : list (result DbError Z) * MemoryStore V :=
  match reqs with
  | [] => ([], s)
  | (site_tag, env_tag) :: reqs =>
      let '(r, s) := allocate_broker_slot site_tag env_tag s in
      let '(rs, s) := allocate_all reqs s in (r :: rs, s)
  end.

(** What the contract wants: the next number of its site and environment while
    there is one. *)
Definition slot_spec (site_tag env_tag : string) (n : Z) : result DbError Z :=
  if n <=? u16_max then Ok n else Err (SlotExhausted site_tag env_tag u16_max).

Definition slots_taken (k : string * string) (s : MemoryStore V) : Z :=
  default 0 (s.(broker_slots) !! k).

Definition requests_of (k : string * string) (reqs : list (string * string)) : Z :=
  Z.of_nat (length (filter (eq k) reqs)).

Lemma requests_of_cons k k' reqs :
  requests_of k (k' :: reqs) = (if decide (k = k') then 1 else 0) + requests_of k reqs.
Proof. unfold requests_of. rewrite filter_cons. case_decide; simpl length; lia. Qed.

Lemma allocate_spec site_tag env_tag (s : MemoryStore V) r s' :
  0 <= slots_taken (site_tag, env_tag) s <= u16_max + 1 ->
  allocate_broker_slot site_tag env_tag s = (r, s') ->
  r = slot_spec site_tag env_tag (slots_taken (site_tag, env_tag) s) /\
  (forall k, slots_taken k s' =
     if decide (k = (site_tag, env_tag)) then Z.min (u16_max + 1) (slots_taken k s + 1) else slots_taken k s).
Proof.
  simpl. unfold allocate_memory_broker_slot. fold (slots_taken (site_tag, env_tag) s).
  unfold slot_spec, u16_max, wrap. intros Hr.
  destruct (Z.ltb_spec (2 ^ 16 - 1) (slots_taken (site_tag, env_tag) s)) as [Hlt|Hge]; intros [= <- <-].
  - split; [by destruct (Z.leb_spec (slots_taken (site_tag, env_tag) s) (2 ^ 16 - 1)); [lia|]|].
    intros k. case_decide as Hk; unfold slots_taken in *; simpl.
    + subst k. rewrite lookup_insert_eq. simpl. lia.
    + by rewrite lookup_insert_ne.
  - split.
    + destruct (Z.leb_spec (slots_taken (site_tag, env_tag) s) (2 ^ 16 - 1)); [|lia].
      f_equal. apply Z.mod_small. lia.
    + intros k. case_decide as Hk; unfold slots_taken in *; simpl.
      * subst k. rewrite lookup_insert_eq. simpl. rewrite Z.mod_small; lia.
      * by rewrite lookup_insert_ne.
Qed.

Lemma allocate_all_spec reqs (s : MemoryStore V) rs s' :
  (forall k, 0 <= slots_taken k s <= u16_max + 1) ->
  allocate_all reqs s = (rs, s') ->
  forall i site_tag env_tag, reqs !! i = Some (site_tag, env_tag) ->
    rs !! i = Some (slot_spec site_tag env_tag
                      (slots_taken (site_tag, env_tag) s + requests_of (site_tag, env_tag) (take i reqs))).
Proof.
  revert s rs s'; induction reqs as [|[st en] reqs IH]; intros s rs s' Hs; cbn [allocate_all]; [done|].
  destruct (allocate_broker_slot st en s) as [r s1] eqn:Ha.
  destruct (allocate_all reqs s1) as [rs1 s2] eqn:Hall. intros [= <- <-].
  apply allocate_spec in Ha as [-> Hk]; [|apply Hs].
  assert (forall k, 0 <= slots_taken k s1 <= u16_max + 1) as Hs1.
  { intros k. rewrite Hk. specialize (Hs k). unfold u16_max in *. case_decide; lia. }
  intros [|i] site_tag env_tag; simpl.
  - intros [= <- <-]. unfold requests_of. simpl. by rewrite Z.add_0_r.
  - intros Hi. rewrite (IH _ _ _ Hs1 Hall _ _ _ Hi). f_equal. rewrite requests_of_cons, Hk.
    case_decide as Heq; [|f_equal; lia]. rewrite Heq. unfold slot_spec.
    assert (0 <= requests_of (st, en) (take i reqs)) by (unfold requests_of; lia).
    specialize (Hs (st, en)). unfold u16_max in *.
    destruct (Z.leb_spec (Z.min (2 ^ 16 - 1 + 1) (slots_taken (st, en) s + 1) + requests_of (st, en) (take i reqs)) (2 ^ 16 - 1)),
      (Z.leb_spec (slots_taken (st, en) s + (1 + requests_of (st, en) (take i reqs))) (2 ^ 16 - 1)); try lia; f_equal; lia.
Qed.

(** Broker slots are handed out in order: the n-th request of a site and
    environment, whatever is requested for others in between, gets slot n as
    long as n fits 16 bits and is told the space is exhausted ever after. *)
Theorem allocate_in_order reqs i site_tag env_tag :
  reqs !! i = Some (site_tag, env_tag) ->
  (allocate_all reqs new).1 !! i =
  Some (slot_spec site_tag env_tag (requests_of (site_tag, env_tag) (take i reqs))).
Proof.
  intros Hi. destruct (allocate_all reqs new) as [rs s'] eqn:Hall. simpl.
  assert (forall k, slots_taken k (new (V:=V)) = 0) as Hnew by done.
  rewrite (allocate_all_spec reqs new rs s' ltac:(intros; rewrite Hnew; unfold u16_max; lia) Hall _ _ _ Hi).
  by rewrite Hnew, Z.add_0_l.
Qed.
End memory_laws.

(** ** Concrete stores *)

Definition no_text : MemoryText := fun _ _ => "invalid public job ID"%string.
Definition no_chrono : Chrono := fun _ => None.

Definition sample_id : string := "017sg4fag005yaa01a04hmasw9".

Definition sample_store : MemoryStore unit :=
  (upsert_job_memory (text:=no_text) (mkRecord sample_id "dead" tt tt tt 0) new).2.

Lemma single_claimant_witness :
  let run := claims (H:=memory_job_store (text:=no_text)) sample_id "dead" ["b1"; "b2"; "b1"] sample_store in
  claimed_by run.1 = ["b1"; "b1"]%string /\
  exists owner, Forall (eq owner) (claimed_by run.1).
Proof.
  split; [by vm_compute|].
  apply (single_claimant (H:=memory_job_store (text:=no_text))
           (lookup_job:=lookup_job_memory (text:=no_text)) sample_id "dead" ["b1"; "b2"; "b1"] sample_store _
           (claims (H:=memory_job_store (text:=no_text)) sample_id "dead" ["b1"; "b2"; "b1"] sample_store).2).
  - rewrite !not_elem_of_cons. split_and!; try done. apply not_elem_of_nil.
  - apply surjective_pairing.
Defined.

(** The third broker, the second of its site and environment, gets slot 1. *)
Lemma allocate_in_order_witness :
  (allocate_all [("bol", "dev"); ("bol", "prd"); ("bol", "dev")] (new (V:=unit))).1 !! 2%nat = Some (Ok 1).
Proof.
  exact (allocate_in_order [("bol", "dev"); ("bol", "prd"); ("bol", "dev")] 2 "bol" "dev" eq_refl).
Defined.
