(* ===== verification/StrictAdmission.v ===== *)
(** * Strict admission across brokers

    Several brokers sharing one store run the strict branch of
    [UserLimiter::admit_user] for the same dispatcher scope.  The steps are cut at
    its await points, so reservations, listings, drops and the spawned
    releases of different jobs interleave in every order. *)
From stdpp Require Import relations.
From S2P Require Import Prelude Errors RequestId Job Store UserLimit MemoryStore.

(** Where the admission of a job stands.  [q] is the sequence number the store
    gave it.  [Held] is a job admitted by a verdict, [Opened] one admitted
    because the store failed: after its reservation if it has a slot, at the
    reservation if not.  [Lost] went down with its broker, or its release
    failed: nothing of it will act on the store any more. *)
Inductive phase : Type :=
| Reserved (q : Z) (broker : string)
| Held (q : Z) (broker : string)
| Opened (slot : option (Z * string))
| Releasing
| Released
| Lost.

Section strict_admission.
Context {V : Type}.
(** The dispatcher's scope, and a bound on the ceilings the jobs of a user
    resolve to. *)
Context (scope : string) (limit : string -> Z).

(** The store, and the admissions, by user key and job id. *)
Record sys : Type := mkSys {
  store : MemoryStore V;
  attempts : gmap (string * string) phase
}.

Definition holds_slot (ph : phase) : option (Z * string) :=
  match ph with Reserved q b | Held q b => Some (q, b) | Opened slot => slot | _ => None end.

(** The phases in which a guard, or the future that will make one, is alive. *)
Definition is_guarded (ph : phase) : bool :=
  match ph with Reserved _ _ | Held _ _ | Opened _ => true | _ => false end.

Definition is_held (ph : phase) : bool := match ph with Held _ _ => true | _ => false end.

(** A job may come to the dispatcher, again if it was there before: its last
    release has run, or it was lost and its entry is gone. *)
Definition may_enter (s : MemoryStore V) (key job_id : string) (o : option phase) : Prop :=
  match o with
  | None | Some Released => True
  | Some Lost => entries_of scope key s !! job_id = None
  | Some _ => False
  end.

(** One step of the system. *)
Inductive strict_step : sys -> sys -> Prop :=
| step_reserve s a key job_id broker now q s' :
    may_enter s key job_id (a !! (key, job_id)) -> s.(user_seq) < u64_max ->
    reserve_user_slot now scope key job_id broker s = (Ok q, s') ->
    strict_step (mkSys s a) (mkSys s' (<[(key, job_id) := Reserved q broker]> a))
| step_reserve_failed s a key job_id :
    may_enter s key job_id (a !! (key, job_id)) ->
    strict_step (mkSys s a) (mkSys s (<[(key, job_id) := Opened None]> a))
| step_decide s a key job_id broker q entries max :
    a !! (key, job_id) = Some (Reserved q broker) -> max <= limit key ->
    list_user_slots scope key s = Ok entries ->
    strict_step (mkSys s a)
      (mkSys s (<[(key, job_id) := if strict_verdict max job_id (Some q) (Some entries)
                                   then Held q broker else Releasing]> a))
| step_list_failed s a key job_id broker q :
    a !! (key, job_id) = Some (Reserved q broker) ->
    strict_step (mkSys s a) (mkSys s (<[(key, job_id) := Opened (Some (q, broker))]> a))
| step_drop s a key job_id ph :
    a !! (key, job_id) = Some ph -> is_guarded ph = true ->
    strict_step (mkSys s a) (mkSys s (<[(key, job_id) := Releasing]> a))
| step_release s a key job_id :
    a !! (key, job_id) = Some Releasing ->
    strict_step (mkSys s a)
      (mkSys (run_task (ReleaseTask scope key job_id) s) (<[(key, job_id) := Released]> a))
| step_lose s a key job_id ph :
    a !! (key, job_id) = Some ph -> ph <> Released ->
    strict_step (mkSys s a) (mkSys s (<[(key, job_id) := Lost]> a))
| step_reclaim s a now s' r :
    (forall k ph q b, a !! k = Some ph -> holds_slot ph = Some (q, b) -> b ∈ live_brokers now s) ->
    reclaim_user_slots now s = (r, s') ->
    strict_step (mkSys s a) (mkSys s' a)
| step_elsewhere s a s' :
    (forall key, entries_of scope key s' = entries_of scope key s) ->
    s.(user_seq) <= s'.(user_seq) ->
    strict_step (mkSys s a) (mkSys s' a).

Definition held_jobs (key : string) (a : gmap (string * string) phase) : gset string :=
  set_map snd (dom (filter (fun p => p.1.1 = key /\ is_held p.2 = true) a)).

(** The jobs with an entry before [q]. *)
Definition before_jobs (key : string) (q : Z) (s : MemoryStore V) : gset string :=
  dom (filter (fun p : string * UserLimitEntry => p.2.(seq) < q) (entries_of scope key s)).

Lemma elem_of_before_jobs key q s j :
  j ∈ before_jobs key q s <-> exists e, entries_of scope key s !! j = Some e /\ e.(seq) < q.
Proof.
  unfold before_jobs. rewrite elem_of_dom. unfold is_Some.
  setoid_rewrite map_lookup_filter_Some. simpl. naive_solver.
Qed.

Lemma elem_of_held_jobs key a j :
  j ∈ held_jobs key a <-> exists q b, a !! (key, j) = Some (Held q b).
Proof.
  unfold held_jobs. rewrite elem_of_map. split.
  - intros ([k j'] & -> & [ph Hph]%elem_of_dom). simpl.
    apply map_lookup_filter_Some in Hph as [? [Hk Hp]]; simpl in *. subst. destruct ph; naive_solver.
  - intros (q & b & Hj). exists (key, j). split; [done|]. apply elem_of_dom.
    exists (Held q b). by apply map_lookup_filter_Some.
Qed.

Record strict_inv (st : sys) : Prop := mkStrictInv {
  inv_pos : 0 <= st.(store).(user_seq);
  inv_entry key j e :
    entries_of scope key st.(store) !! j = Some e ->
    e.(ul_job_id) = j /\ e.(seq) <= st.(store).(user_seq) /\
    exists ph, st.(attempts) !! (key, j) = Some ph /\ ph <> Released;
  inv_seq key j1 j2 e1 e2 :
    entries_of scope key st.(store) !! j1 = Some e1 ->
    entries_of scope key st.(store) !! j2 = Some e2 -> e1.(seq) = e2.(seq) -> j1 = j2;
  inv_slot key j ph q b :
    st.(attempts) !! (key, j) = Some ph -> holds_slot ph = Some (q, b) ->
    exists e, entries_of scope key st.(store) !! j = Some e /\ e.(seq) = q /\ e.(owner_broker_id) = b;
  inv_held key j q b :
    st.(attempts) !! (key, j) = Some (Held q b) ->
    Z.of_nat (size (before_jobs key q st.(store))) < limit key
}.

(** ** What the store operations do to the entries *)

Lemma entries_of_insert (s : MemoryStore V) sc key m q key' sc' :
  entries_of sc' key' (with_user_slots (<[(sc, key) := m]> s.(user_slots)) q s) =
  if decide ((sc, key) = (sc', key')) then m else entries_of sc' key' s.
Proof.
  unfold entries_of; simpl. case_decide as Hk.
  - by rewrite Hk, lookup_insert_eq.
  - by rewrite lookup_insert_ne.
Qed.

Lemma reserve_entries now key j b (s : MemoryStore V) q s' key' :
  reserve_user_slot now scope key j b s = (Ok q, s') -> entries_of scope key s !! j = None ->
  user_seq s < u64_max -> 0 <= user_seq s ->
  q = user_seq s + 1 /\ user_seq s' = q /\
  entries_of scope key' s' =
    if decide (key' = key) then <[j := mkUserLimitEntry scope key j b q now]> (entries_of scope key s)
    else entries_of scope key' s.
Proof.
  simpl. unfold reserve_user_slot_memory. intros Hr Hj Hmax Hpos. rewrite Hj in Hr.
  assert (wrap 64 (user_seq s + 1) = user_seq s + 1) as Hw.
  { unfold wrap, u64_max in *. apply Z.mod_small. lia. }
  rewrite Hw in Hr. injection Hr as <- <-. split_and!; [done..|].
  rewrite entries_of_insert. do 2 case_decide; congruence.
Qed.

Lemma release_entries key j (s : MemoryStore V) key' :
  entries_of scope key' (run_task (ReleaseTask scope key j) s) =
    (if decide (key' = key) then delete j (entries_of scope key s) else entries_of scope key' s) /\
  user_seq (run_task (ReleaseTask scope key j) s) = user_seq s.
Proof.
  simpl. unfold release_user_slot_memory. simpl. unfold entries_of at 2 3.
  destruct (user_slots s !! (scope, key)) as [m|] eqn:Hm; simpl.
  - split; [|done]. unfold entries_of. case_decide as He; simpl.
    + case_decide as Hk; [subst; rewrite lookup_delete_eq; simpl; congruence|].
      by rewrite lookup_delete_ne by congruence.
    + case_decide as Hk; [subst; by rewrite lookup_insert_eq|].
      by rewrite lookup_insert_ne by congruence.
  - split; [|done]. unfold entries_of. case_decide as Hk; [|done]. subst. rewrite Hm. simpl.
    by rewrite delete_empty.
Qed.

Lemma reclaim_entries now (s : MemoryStore V) r s' key :
  reclaim_user_slots now s = (r, s') ->
  entries_of scope key s' = filter (kept (live_brokers now s)) (entries_of scope key s) /\
  user_seq s' = user_seq s.
Proof.
  simpl. unfold reclaim_user_slots_memory. intros [= _ <-]. split; [|done].
  unfold entries_of. simpl. rewrite lookup_omap.
  destruct (user_slots s !! (scope, key)) as [m|]; simpl; [|by rewrite map_filter_empty].
  unfold retain_entries. case_decide as He; simpl; congruence.
Qed.

(** ** The invariant *)

Lemma before_jobs_shrink key q (s s' : MemoryStore V) :
  (forall j e, entries_of scope key s' !! j = Some e -> e.(seq) < q -> entries_of scope key s !! j = Some e) ->
  (size (before_jobs key q s') <= size (before_jobs key q s))%nat.
Proof.
  intros Hsub. apply subseteq_size. intros j. rewrite !elem_of_before_jobs. naive_solver.
Qed.

Lemma elem_of_list_memory (s : MemoryStore V) key entries e :
  list_user_slots scope key s = Ok entries ->
  (forall j x, entries_of scope key s !! j = Some x -> x.(ul_job_id) = j) ->
  e ∈ entries <-> entries_of scope key s !! e.(ul_job_id) = Some e.
Proof.
  simpl. unfold list_user_slots_memory, entries_of. intros [= <-] Hid.
  destruct (user_slots s !! (scope, key)) as [m|]; simpl in *.
  2: { rewrite lookup_empty. split; [by intros ?%not_elem_of_nil | done]. }
  rewrite list_elem_of_fmap. split.
  - intros ([j x] & -> & Hx%elem_of_map_to_list). simpl. by rewrite (Hid j x).
  - intros He. exists (ul_job_id e, e). split; [done|]. by apply elem_of_map_to_list.
Qed.

Lemma NoDup_entry_keys (s : MemoryStore V) key entries :
  list_user_slots scope key s = Ok entries ->
  (forall j x, entries_of scope key s !! j = Some x -> x.(ul_job_id) = j) ->
  NoDup (entry_key <$> entries).
Proof.
  simpl. unfold list_user_slots_memory, entries_of. intros [= <-] Hid.
  destruct (user_slots s !! (scope, key)) as [m|]; simpl in *; [|constructor].
  apply (NoDup_fmap_1 snd).
  assert (snd <$> (entry_key <$> (map_to_list m).*2) = (map_to_list m).*1) as ->.
  { rewrite <- !list_fmap_compose. apply list_fmap_ext. intros i [j x] Hj. simpl.
    apply Hid, elem_of_map_to_list. by eapply list_elem_of_lookup_2. }
  apply NoDup_fst_map_to_list.
Qed.

(** An admitting verdict: fewer than [max] jobs are before this one. *)
Lemma verdict_before (s : MemoryStore V) key job_id q b max entries :
  list_user_slots scope key s = Ok entries ->
  (forall j x, entries_of scope key s !! j = Some x -> x.(ul_job_id) = j) ->
  (exists e, entries_of scope key s !! job_id = Some e /\ e.(seq) = q /\ e.(owner_broker_id) = b) ->
  strict_verdict max job_id (Some q) (Some entries) = true ->
  Z.of_nat (size (before_jobs key q s)) < max.
Proof.
  intros Hl Hid (e & He & <- & _). unfold strict_verdict. rewrite Z.ltb_lt.
  specialize (elem_of_list_memory s key entries) as Hin.
  rewrite strict_rank_before; [|by eapply NoDup_entry_keys|].
  2: { apply list_elem_of_fmap. exists e. unfold entry_key. rewrite (Hid _ _ He).
       split; [done|]. apply Hin; [done..|]. by rewrite (Hid _ _ He). }
  intros Hb. eapply Z.le_lt_trans; [|exact Hb]. apply inj_le. unfold before_count.
  transitivity (length (filter (fun y => entry_lt y (seq e, job_id) = true) (entry_key <$> entries)).*2);
    [|by rewrite length_fmap].
  apply submseteq_length, NoDup_submseteq; [apply NoDup_elements|].
  intros j Hj%elem_of_elements. apply elem_of_before_jobs in Hj as (x & Hx & Hlt).
  apply list_elem_of_fmap. exists (entry_key x). unfold entry_key at 1. simpl. split; [by rewrite (Hid _ _ Hx)|].
  apply list_elem_of_filter. split.
  - unfold entry_key. apply entry_lt_neq; [apply entry_le_iff; by left | intros [=]; lia].
  - apply list_elem_of_fmap. exists x. split; [done|]. apply Hin; [done..|]. by rewrite (Hid _ _ Hx).
Qed.

(** Replacing the phase of one attempt that keeps, or gives up, its slot. *)
Lemma inv_rephase s a key j ph ph' :
  strict_inv (mkSys s a) -> a !! (key, j) = Some ph ->
  (ph' = Released -> entries_of scope key s !! j = None) ->
  (forall q b, holds_slot ph' = Some (q, b) -> holds_slot ph = Some (q, b)) ->
  (forall q b, ph' = Held q b -> Z.of_nat (size (before_jobs key q s)) < limit key) ->
  strict_inv (mkSys s (<[(key, j) := ph']> a)).
Proof.
  intros [Hpos Hent Hseq Hslot Hheld] Hph Hrel Hkeep Hlim. split; simpl in *; [done| |done| |].
  - intros k i e He. destruct (Hent k i e He) as (? & ? & ?). split_and!; [done..|].
    destruct (decide ((key, j) = (k, i))) as [[= <- <-]|]; [|by rewrite lookup_insert_ne].
    rewrite lookup_insert_eq. eexists. split; [done|]. intros Hr%Hrel. congruence.
  - intros k i ph1 q b. destruct (decide ((key, j) = (k, i))) as [[= <- <-]|].
    + rewrite lookup_insert_eq. intros [= <-] Hq. by eapply Hslot, Hkeep.
    + rewrite lookup_insert_ne by done. eauto.
  - intros k i q b. destruct (decide ((key, j) = (k, i))) as [[= <- <-]|].
    + rewrite lookup_insert_eq. intros [= ->]. by eapply Hlim.
    + rewrite lookup_insert_ne by done. eauto.
Qed.

(** Changing the store: entries may only go, and never those of a slot in use. *)
Lemma inv_restore s s' a :
  strict_inv (mkSys s a) -> user_seq s <= user_seq s' ->
  (forall key j e, entries_of scope key s' !! j = Some e -> entries_of scope key s !! j = Some e) ->
  (forall key j ph q b e, a !! (key, j) = Some ph -> holds_slot ph = Some (q, b) ->
     entries_of scope key s !! j = Some e -> e.(owner_broker_id) = b -> entries_of scope key s' !! j = Some e) ->
  strict_inv (mkSys s' a).
Proof.
  intros [Hpos Hent Hseq Hslot Hheld] Hq Hsub Hkeep. split; simpl in *; [lia| | | |].
  - intros k j e He%Hsub. destruct (Hent _ _ _ He) as (? & ? & ?). split_and!; [done|lia|done].
  - eauto.
  - intros k j ph q b Ha Hp. destruct (Hslot _ _ _ _ _ Ha Hp) as (e & He & ? & ?). eauto.
  - intros k j q b Ha. eapply Z.le_lt_trans; [|by eapply Hheld]. apply inj_le, before_jobs_shrink. eauto.
Qed.

(** A job that may enter has no entry and no slot. *)
Lemma may_enter_none s a key j :
  strict_inv (mkSys s a) -> may_enter s key j (a !! (key, j)) ->
  entries_of scope key s !! j = None /\ forall ph, a !! (key, j) = Some ph -> holds_slot ph = None.
Proof.
  intros [_ Hent _ _ _] Hm. simpl in Hent. destruct (a !! (key, j)) as [[| | | | |]|] eqn:Ha; try done.
  - split; [|by intros ? [= <-]]. apply eq_None_not_Some. intros [e He].
    destruct (Hent _ _ _ He) as (_ & _ & ph & ? & ?). congruence.
  - split; [done|]. by intros ? [= <-].
  - split; [|done]. apply eq_None_not_Some. intros [e He]. destruct (Hent _ _ _ He) as (_ & _ & ph & ? & _). congruence.
Qed.

Lemma inv_open s a key j :
  strict_inv (mkSys s a) -> may_enter s key j (a !! (key, j)) -> strict_inv (mkSys s (<[(key, j) := Opened None]> a)).
Proof.
  intros Hinv Hm. destruct (may_enter_none _ _ _ _ Hinv Hm) as [Hnone _].
  destruct Hinv as [Hpos Hent Hseq Hslot Hheld]. split; simpl in *; [done| |done| |].
  - intros k i e He. destruct (Hent k i e He) as (? & ? & ?). split_and!; [done..|].
    rewrite lookup_insert_ne; [done|]. intros [= <- <-]. congruence.
  - intros k i ph q b. rewrite lookup_insert_Some. intros [[_ <-]|[_ Ha]]; [done|eauto].
  - intros k i q b. rewrite lookup_insert_Some. intros [[_ [=]]|[_ Ha]]. eauto.
Qed.

Lemma inv_reserve s a key job_id broker now q s' :
  strict_inv (mkSys s a) -> may_enter s key job_id (a !! (key, job_id)) -> user_seq s < u64_max ->
  reserve_user_slot now scope key job_id broker s = (Ok q, s') ->
  strict_inv (mkSys s' (<[(key, job_id) := Reserved q broker]> a)).
Proof.
  intros Hinv Hm Hmax Hr. destruct (may_enter_none _ _ _ _ Hinv Hm) as [Hnone _].
  destruct Hinv as [Hpos Hent Hseq Hslot Hheld]; simpl in *.
  assert (forall k, q = user_seq s + 1 /\ user_seq s' = q /\ entries_of scope k s' =
            if decide (k = key) then <[job_id := mkUserLimitEntry scope key job_id broker q now]> (entries_of scope key s)
            else entries_of scope k s) as Hs' by (intros k; by eapply reserve_entries).
  assert (forall k j e, entries_of scope k s' !! j = Some e ->
            (k = key /\ j = job_id /\ e = mkUserLimitEntry scope key job_id broker q now) \/
            (entries_of scope k s !! j = Some e /\ (k, j) <> (key, job_id))) as Hinv'.
  { intros k j e. rewrite (proj2 (proj2 (Hs' k))). case_decide as Hk.
    - subst k. rewrite lookup_insert_Some. intros [[<- <-]|[Hj He]]; [by left|right; split; congruence].
    - right. split; congruence. }
  assert (forall k j e, entries_of scope k s !! j = Some e -> entries_of scope k s' !! j = Some e) as Hold.
  { intros k j e He. rewrite (proj2 (proj2 (Hs' k))). case_decide; [|done]. subst k.
    rewrite lookup_insert_ne; [done|]. congruence. }
  destruct (Hs' key) as (Hq & Hu & Hkey). split; simpl; [lia| | | |].
  - intros k j e [(-> & -> & ->)|[He Hne]]%Hinv'; simpl.
    + rewrite lookup_insert_eq. split_and!; [done|lia|by eexists].
    + destruct (Hent _ _ _ He) as (? & ? & ?). rewrite lookup_insert_ne by done. split_and!; [done|lia|done].
  - intros k j1 j2 e1 e2 [(-> & -> & ->)|[He1 Hne1]]%Hinv' [(? & -> & ->)|[He2 Hne2]]%Hinv'; simpl; try done.
    + destruct (Hent _ _ _ He2) as (_ & ? & _). lia.
    + destruct (Hent _ _ _ He1) as (_ & ? & _). lia.
    + eauto.
  - intros k j ph q' b. destruct (decide ((key, job_id) = (k, j))) as [[= <- <-]|].
    + rewrite lookup_insert_eq. intros [= <-] [= <- <-]. rewrite Hkey, decide_True, lookup_insert_eq by done. eauto.
    + rewrite lookup_insert_ne by done. intros Ha Hp.
      destruct (Hslot _ _ _ _ _ Ha Hp) as (e & He & ? & ?). eauto.
  - intros k j q' b. destruct (decide ((key, job_id) = (k, j))) as [[= <- <-]|].
    { by rewrite lookup_insert_eq. }
    rewrite lookup_insert_ne by done. intros Ha. eapply Z.le_lt_trans; [|by eapply Hheld].
    apply inj_le, before_jobs_shrink. intros i e [(-> & -> & ->)|[He _]]%Hinv' Hlt; [|done]. simpl in Hlt.
    destruct (Hslot _ _ _ _ _ Ha eq_refl) as (e & He & <- & _).
    destruct (Hent _ _ _ He) as (_ & ? & _). lia.
Qed.

Lemma strict_inv_release s a key job_id :
  strict_inv (mkSys s a) -> a !! (key, job_id) = Some Releasing ->
  strict_inv (mkSys (run_task (ReleaseTask scope key job_id) s) (<[(key, job_id) := Released]> a)).
Proof.
  intros Hinv Ha. eapply inv_rephase; [|done| |done|done].
  - eapply inv_restore; [done| | |].
    + by rewrite (proj2 (release_entries key job_id s key)).
    + intros k j e. rewrite (proj1 (release_entries key job_id s k)). case_decide; [|done].
      subst. rewrite lookup_delete_Some. by intros [_ ?].
    + intros k j ph q b e Hph Hp He _. rewrite (proj1 (release_entries key job_id s k)). case_decide; [|done].
      subst. rewrite lookup_delete_ne; [done|]. intros <-. by simplify_eq.
  - intros _. rewrite (proj1 (release_entries key job_id s key)), decide_True by done. apply lookup_delete_eq.
Qed.

Lemma inv_reclaim s a now s' r :
  strict_inv (mkSys s a) ->
  (forall k ph q b, a !! k = Some ph -> holds_slot ph = Some (q, b) -> b ∈ live_brokers now s) ->
  reclaim_user_slots now s = (r, s') -> strict_inv (mkSys s' a).
Proof.
  intros Hinv Hlive Hr. eapply inv_restore; [done| | |].
  - by rewrite (proj2 (reclaim_entries _ _ _ _ ""%string Hr)).
  - intros k j e. rewrite (proj1 (reclaim_entries _ _ _ _ k Hr)). by intros [? _]%map_lookup_filter_Some.
  - intros k j ph q b e Hph Hp He Hb. rewrite (proj1 (reclaim_entries _ _ _ _ k Hr)).
    apply map_lookup_filter_Some. split; [done|]. unfold kept. simpl. rewrite Hb. by eapply Hlive.
Qed.

Lemma strict_step_inv st st' : strict_step st st' -> strict_inv st -> strict_inv st'.
Proof.
  destruct 1 as [s a key job_id broker now q s' Hm Hmax Hr | s a key job_id Hm
                | s a key job_id broker q entries max Ha Hle Hl | s a key job_id broker q Ha
                | s a key job_id ph Ha Hg | s a key job_id Ha | s a key job_id ph Ha Hne
                | s a now s' r Hlive Hr | s a s' Hsame Hq];
    intros Hinv; pose proof Hinv as [Hpos Hent Hseq Hslot Hheld]; cbn [store attempts] in *.
  - by eapply inv_reserve.
  - by apply inv_open.
  - destruct (strict_verdict _ _ _ _) eqn:Hv; (eapply inv_rephase; [done..| | |]); try done.
    intros q' b [= <- <-]. eapply Z.lt_le_trans; [|exact Hle]. eapply verdict_before; [done| | |done].
    + intros j e He. by apply (Hent _ _ _ He).
    + by eapply Hslot.
  - by eapply inv_rephase.
  - by eapply inv_rephase.
  - by apply strict_inv_release.
  - by eapply inv_rephase.
  - by eapply inv_reclaim.
  - eapply inv_restore; [done..| |]; intros k j; [|intros ????]; by rewrite Hsame.
Qed.

Lemma strict_inv_new : strict_inv (mkSys new ∅).
Proof. by split. Qed.

Lemma strict_inv_reachable st : rtc strict_step (mkSys new ∅) st -> strict_inv st.
Proof.
  intros Hrun. remember (mkSys new ∅) as st0 eqn:E0.
  assert (strict_inv st0) as Hinv by (subst; apply strict_inv_new).
  clear E0. induction Hrun; eauto using strict_step_inv.
Qed.

Lemma held_max (a : gmap (string * string) phase) key :
  held_jobs key a = ∅ \/
  exists j q b, a !! (key, j) = Some (Held q b) /\
    forall j' q' b', a !! (key, j') = Some (Held q' b') -> q' <= q.
Proof.
  assert (forall D : gset string, D ⊆ held_jobs key a -> D = ∅ \/
            exists j q b, j ∈ D /\ a !! (key, j) = Some (Held q b) /\
              forall j' q' b', j' ∈ D -> a !! (key, j') = Some (Held q' b') -> q' <= q) as HD.
  { intros D; induction D as [|j D Hj IH] using set_ind_L; [by left|]. intros Hsub. right.
    assert (exists q b, a !! (key, j) = Some (Held q b)) as (q & b & Ha)
      by (apply elem_of_held_jobs; set_solver).
    destruct IH as [->|(j1 & q1 & b1 & Hj1 & Ha1 & Hmax)]; [set_solver| |].
    - exists j, q, b. split_and!; [set_solver|done|]. intros j' q' b' Hj'%elem_of_union ?.
      destruct Hj' as [->%elem_of_singleton|?]; [by simplify_eq|set_solver].
    - destruct (Z.le_gt_cases q q1).
      + exists j1, q1, b1. split_and!; [set_solver|done|]. intros j' q' b' Hj'%elem_of_union ?.
        destruct Hj' as [->%elem_of_singleton|?]; [by simplify_eq|eauto].
      + exists j, q, b. split_and!; [set_solver|done|]. intros j' q' b' Hj'%elem_of_union ?.
        destruct Hj' as [->%elem_of_singleton|?]; [by simplify_eq|].
        assert (q' <= q1) by eauto. lia. }
  destruct (HD (held_jobs key a)) as [?|(j & q & b & _ & Ha & Hmax)]; [done|by left|right].
  exists j, q, b. split; [done|]. intros j' q' b' Ha'. eapply Hmax; [|done]. apply elem_of_held_jobs. eauto.
Qed.

(** C4. The strict cap across brokers: however the reservations, verdicts, drops
    and releases of any number of brokers on one store interleave, with jobs
    admitted without a verdict when the store fails, jobs lost with their
    brokers, and jobs that come again once their last release has run, a user
    has at most as many jobs past a dispatcher that a verdict admitted as the
    greatest ceiling they resolve to; no slot is reclaimed while its job has it,
    which is so while no lease of a broker with jobs lapses. *)
Theorem strict_cap st key :
  rtc strict_step (mkSys new ∅) st ->
  Z.of_nat (size (held_jobs key st.(attempts))) <= Z.max 0 (limit key).
Proof.
  intros [Hpos Hent Hseq Hslot Hheld]%strict_inv_reachable.
  destruct (held_max st.(attempts) key) as [->|(j & q & b & Ha & Hmax)].
  { rewrite size_empty. lia. }
  specialize (Hheld _ _ _ _ Ha).
  assert (held_jobs key st.(attempts) ⊆ {[j]} ∪ before_jobs key q st.(store)) as Hsub%subseteq_size.
  { intros j' (q' & b' & Ha')%elem_of_held_jobs. destruct (decide (j' = j)) as [->|Hne]; [set_solver|].
    apply elem_of_union_r, elem_of_before_jobs.
    destruct (Hslot _ _ _ _ _ Ha' eq_refl) as (e' & He' & Hq' & _). exists e'. split; [done|].
    destruct (Hslot _ _ _ _ _ Ha eq_refl) as (e & He & Hq & _).
    assert (q' <> q) by (intros ->; apply Hne; eapply Hseq; [done..|congruence]).
    specialize (Hmax _ _ _ Ha'). lia. }
  assert (size ({[j]} ∪ before_jobs key q (store st)) <= 1 + size (before_jobs key q (store st)))%nat.
  { rewrite <- (size_singleton (C:=gset string) j). rewrite size_union_alt.
    apply Nat.add_le_mono_l, subseteq_size. set_solver. }
  lia.
Qed.

(** One call of [admit_strict] is a reservation followed by a decision, or by
    the job's opening when the listing fails. *)
Lemma admit_strict_runs e key job_id max l s a g ts l' s' :
  limit_scope l = scope -> may_enter s key job_id (a !! (key, job_id)) -> s.(user_seq) < u64_max -> max <= limit key ->
  admit_strict e key job_id max l s = (g, ts, l', s') ->
  exists ph, rtc strict_step (mkSys s a) (mkSys s' (<[(key, job_id) := ph]> a)) /\
             is_guarded ph = bool_decide (is_Some g).
Proof.
  intros Hs Ha Hmax Hle. unfold admit_strict, list_with_timeout. rewrite Hs.
  destruct (reserve_user_slot _ _ _ _ _ s) as [[q|err] s1] eqn:Hr.
  2: { simpl in Hr. unfold reserve_user_slot_memory in Hr. by case_all. }
  destruct (list_user_slots scope key s1) as [entries|] eqn:Hl; [|done].
  change (limit_scope (incr_local key l)) with (limit_scope l). rewrite Hs, Hl.
  assert (rtc strict_step (mkSys s a) (mkSys s1 (<[(key, job_id) := Reserved q (limit_broker_id l)]> a))) as Hres
    by (eapply rtc_once, step_reserve; [done..|exact Hr]).
  assert (forall ph, <[(key, job_id) := ph]> a = <[(key, job_id) := ph]> (<[(key, job_id) := Reserved q (limit_broker_id l)]> a))
    as Hins by (intros; by rewrite insert_insert_eq).
  destruct (env_list_timed_out e).
  { intros [= <- _ _ <-]. exists (Opened (Some (q, limit_broker_id l))). split; [|done].
    rewrite Hins. eapply rtc_r; [exact Hres|]. eapply step_list_failed. by rewrite lookup_insert_eq. }
  set (v := strict_verdict _ _ _ _). intros Hout.
  assert (s' = s1 /\ bool_decide (is_Some g) = v) as [-> Hg].
  { destruct v; [|destruct (drop_guard _ _ _ _)]; by simplify_eq. }
  exists (if v then Held q (limit_broker_id l) else Releasing). split; [|rewrite Hg; by destruct v].
  rewrite Hins. eapply rtc_r; [exact Hres|]. eapply step_decide; [by rewrite lookup_insert_eq|done..].
Qed.
End strict_admission.

(** ** Concrete runs *)


(** One broker reserves a slot and is admitted. *)
Definition sample_store : MemoryStore unit := (reserve_user_slot 0 "mars" "u" "A" "b1" new).2.
Definition sample_attempts : gmap (string * string) phase := <[("u", "A") := Reserved 1 "b1"]> ∅.
Definition sample_state : sys := mkSys sample_store (<[("u", "A") := Held 1 "b1"]> sample_attempts).

Lemma sample_state_reachable : rtc (strict_step "mars" (fun _ => 1)) (mkSys new ∅) sample_state.
Proof.
  apply (rtc_l _ _ (mkSys sample_store sample_attempts)).
  - by apply (step_reserve "mars" _ new ∅ "u" "A" "b1" 0 1).
  - apply rtc_once.
    by apply (step_decide "mars" (fun _ => 1) sample_store sample_attempts "u" "A" "b1" 1
                [mkUserLimitEntry "mars" "u" "A" "b1" 1 0] 1).
Qed.

Lemma strict_cap_witness :
  held_jobs "u" sample_state.(attempts) = {["A"]} /\
  Z.of_nat (size (held_jobs "u" sample_state.(attempts))) <= Z.max 0 1.
Proof.
  split; [by vm_compute|].
  exact (strict_cap "mars" (fun _ => 1) sample_state "u" sample_state_reachable).
Defined.

(** Job A is admitted, dropped and admitted again before its release runs; then
    job B is admitted.  The answer: which admissions were granted, and the
    user's live count at the end. *)
Definition late_release_run (max : Z) (l : UserLimiter) (s : MemoryStore unit)
    : list bool * Z :=
  let granted (g : option UserLimitGuard) := bool_decide (is_Some g) in
  let '(gA, _, l, s) := admit_strict sample_env "u" "A" max l s in
  let '(l, released) := drop_guard true true (mkGuard "u" "A") l in
  let '(gA', _, l, s) := admit_strict sample_env "u" "A" max l s in
  let s := fold_right run_task s released in
  let '(gB, _, l, s) := admit_strict sample_env "u" "B" max l s in
  ([granted gA; granted gA'; granted gB], local_count l "u").

(** A job that re-enters a dispatcher before the spawned release of its first
    pass has run gets its old entry back, loses it to that release, and no
    longer counts: here one user holds two slots of a ceiling of one. *)
Theorem late_release_exceeds_cap :
  late_release_run 1 sample_limiter new = ([true; true; true], 2).
Proof. vm_compute. reflexivity. Qed.

(** Broker b1 goes down with job A admitted; b2 recovers A and admits it before
    the next sweep, then sweeps, and admits job B. *)
Definition recovered_run (max : Z) (s : MemoryStore unit) : list bool * Z :=
  let granted (g : option UserLimitGuard) := bool_decide (is_Some g) in
  let l2 := UserLimit.new (mkUserLimitConfig (Some 1) ∅) "mars" "b2" in
  let '(gA, _, _, s) := admit_strict sample_env "u" "A" max sample_limiter s in
  let '(gA', _, l2, s) := admit_strict sample_env "u" "A" max l2 s in
  let s := (reclaim_user_slots 0 s).2 in
  let '(gB, _, l2, _) := admit_strict sample_env "u" "B" max l2 s in
  ([granted gA; granted gA'; granted gB], local_count l2 "u").

(** The reservation of a recovered job finds the entry of the broker that went
    down and leaves it in that broker's name, so the sweep takes it away: here
    too one user holds two slots of a ceiling of one. *)
Theorem recovered_slot_reclaimed :
  recovered_run 1 (with_brokers {["b2"%string := mkLease "b2" "" 100 0]} new) = ([true; true; true], 2).
Proof. vm_compute. reflexivity. Qed.
