(* ===== verification/TikvStore.v ===== *)
(** * The TiKV store ([db/tikv.rs])

    Every operation as optimistic transactions on the store's state.  The
    client is behind [TikvClient] with the laws of optimistic transactions: a
    transaction reads its snapshot, and a commit succeeds only if the keys it
    writes did not change since.  Between the snapshot and the commit other
    brokers act, by [env]; each claim and each slot allocation is shown to take
    effect at one instant all the same. *)
From stdpp Require Import relations.
From S2P Require Import Prelude Errors RequestId Job Store MemoryStore.

(** ** The client *)

Inductive TikvError : Type :=
| KeyError (conflict : bool)
| MultipleKeyErrors (errs : list TikvError)
| ExtractedErrors (errs : list TikvError)
| OtherError.

Fixpoint is_write_conflict (err : TikvError) : bool :=
  match err with
  | KeyError conflict => conflict
  | MultipleKeyErrors errs | ExtractedErrors errs => existsb is_write_conflict errs
  | OtherError => false
  end.

(** [T] is a transaction; [error_text] renders an error. *)
Class TikvClient (S T Bytes : Type) : Type := {
  connect : S -> result string unit;
  begin_optimistic : S -> result TikvError T;
  txn_get : T -> string -> result TikvError (option Bytes);
  txn_put : T -> string -> Bytes -> result TikvError T;
  txn_delete : T -> string -> result TikvError T;
  commit : T -> S -> result TikvError unit * S;
  error_text : TikvError -> string
}.

(** [value_at]: the committed value of a key; [snapshot], [writes]: what a
    transaction read from and will write.  A commit is atomic.  One that meets a
    write conflict does nothing; any other failure may be the client's
    [UndeterminedError], after which the writes are all there or all not. *)
Definition committed {S T Bytes : Type} (value_at : S -> string -> option Bytes) (snapshot : T -> string -> option Bytes)
    (writes : T -> gmap string (option Bytes)) (t : T) (s s' : S) : Prop :=
  (forall k, is_Some (writes t !! k) -> value_at s k = snapshot t k) /\
  (forall k, value_at s' k = match writes t !! k with Some w => w | None => value_at s k end).

Class TikvLaws (S T Bytes : Type) `{TikvClient S T Bytes} (value_at : S -> string -> option Bytes)
    (snapshot : T -> string -> option Bytes) (writes : T -> gmap string (option Bytes)) : Prop := {
  begin_law s t : begin_optimistic s = Ok t -> (forall k, snapshot t k = value_at s k) /\ writes t = ∅;
  get_law t k o : txn_get t k = Ok o -> o = snapshot t k;
  put_law t k v t' : txn_put t k v = Ok t' ->
    (forall k', snapshot t' k' = snapshot t k') /\ writes t' = <[k := Some v]> (writes t);
  txn_delete_law t k t' : txn_delete t k = Ok t' ->
    (forall k', snapshot t' k' = snapshot t k') /\ writes t' = <[k := None]> (writes t);
  commit_law t s s' : commit t s = (Ok tt, s') -> committed value_at snapshot writes t s s';
  commit_conflict t s e s' : commit t s = (Err e, s') -> is_write_conflict e = true ->
    forall k, value_at s' k = value_at s k;
  commit_failed t s e s' : commit t s = (Err e, s') ->
    (forall k, value_at s' k = value_at s k) \/ committed value_at snapshot writes t s s'
}.

(** A client none of whose commits ends undetermined. *)
Class Determined (S T Bytes : Type) `{TikvClient S T Bytes} (value_at : S -> string -> option Bytes) : Prop :=
  commit_err t s e s' : commit t s = (Err e, s') -> forall k, value_at s' k = value_at s k.

Definition JOB_PREFIX : string := "jobs/".
Definition BROKER_PREFIX : string := "brokers/".
Definition BROKER_SLOT_COUNTER_PREFIX : string := "counters/broker_slot/".

Section tikv.
Context {V S T Bytes : Type} `{TikvClient S T Bytes} {text : MemoryText} {chrono : Chrono}
  `{!Codec (PersistentJobRecord V) Bytes} `{!Codec BrokerLeaseRecord Bytes} `{!Codec Z Bytes}.

Definition job_key (job_id : string) : result DbError string :=
  let? decoded := map_err (fun err => Backend (invalid_id_text job_id err)) (decode job_id) in
  Ok (JOB_PREFIX ++ decoded.(site) ++ "/" ++ decoded.(env) ++ "/" ++ pretty decoded.(broker_slot) ++ "/" ++ job_id)%string.

Definition broker_key (broker_id : string) : string := (BROKER_PREFIX ++ broker_id)%string.
Definition broker_slot_counter_key (site_tag env_tag : string) : string :=
  (BROKER_SLOT_COUNTER_PREFIX ++ site_tag ++ "/" ++ env_tag)%string.

Definition backend {A} (what : string) (r : result TikvError A) : result DbError A :=
  map_err (fun e => Backend (what ++ error_text e)) r.

Definition client (s : S) : result DbError unit := map_err Backend (connect s).

(** A transaction without a read: [write] fills it. *)
Definition write_txn (write : T -> result DbError T) (s : S) : result DbError unit * S :=
  match (let? _ := client s in let? t := backend "begin txn failed: " (begin_optimistic s) in write t) with
  | Err e => (Err e, s)
  | Ok t => match commit t s with
            | (Ok _, s) => (Ok tt, s)
            | (Err e, s) => (Err (Backend ("commit failed: " ++ error_text e)), s)
            end
  end.

(** ** Jobs *)

Definition upsert_job_tikv (record : PersistentJobRecord V) (s : S) : result DbError unit * S :=
  match job_key record.(rec_job_id) with
  | Err e => (Err e, s)
  | Ok key =>
      write_txn (fun t => let? v := serialize record in backend "put failed: " (txn_put t key v)) s
  end.

Definition delete_job_tikv (job_id : string) (s : S) : result DbError unit * S :=
  match job_key job_id with
  | Err e => (Err e, s)
  | Ok key => write_txn (fun t => backend "delete failed: " (txn_delete t key)) s
  end.

(** What one attempt decides from its snapshot: an answer, or a write. *)
Definition claim_decide (key expected_owner claimant : string) (s : S)
    : result DbError (ClaimResult V + (T * PersistentJobRecord V)) :=
  let? t := backend "begin txn failed: " (begin_optimistic s) in
  let? current := backend "get failed: " (txn_get t key) in
  match current with
  | None => Ok (inl NotFound)
  | Some current =>
      let? record := deserialize current in
      if (record.(rec_broker_id) =? claimant)%string then Ok (inl (Claimed record))
      else if negb (record.(rec_broker_id) =? expected_owner)%string then Ok (inl (Active record.(rec_broker_id)))
      else
        let record := with_broker claimant record in
        let? v := serialize record in
        let? t := backend "put failed: " (txn_put t key v) in
        Ok (inr (t, record))
  end.

(** Other brokers act between the [k]th snapshot and its commit. *)
Context (env : nat -> S -> S).

Fixpoint claim_attempts (n k : nat) (job_id key expected_owner claimant : string) (s : S)
    : result DbError (ClaimResult V) * S :=
  match n with
  | O => (Err (Conflict ("claim conflict for job '" ++ job_id ++ "'")), s)
  | Datatypes.S n =>
      match claim_decide key expected_owner claimant s with
      | Err e => (Err e, s)
      | Ok (inl answer) => (Ok answer, s)
      | Ok (inr (t, record)) =>
          match commit t (env k s) with
          | (Ok _, s) => (Ok (Claimed record), s)
          | (Err e, s) =>
              if is_write_conflict e then claim_attempts n (Datatypes.S k) job_id key expected_owner claimant s
              else (Err (Backend ("commit failed: " ++ error_text e)), s)
          end
      end
  end.

Definition claim_with_owner (job_id expected_owner claimant : string) (s : S)
    : result DbError (ClaimResult V) * S :=
  match (let? key := job_key job_id in let? _ := client s in Ok key) with
  | Err e => (Err e, s)
  | Ok key => claim_attempts 2 0 job_id key expected_owner claimant s
  end.

(** ** Broker slots *)

(** The loop runs until its commit meets no conflict: [None] is the end of the
    fuel, still in conflict. *)
Definition slot_decide (key site_tag env_tag : string) (s : S) : result DbError (T * Z) :=
  let? t := backend "begin txn failed: " (begin_optimistic s) in
  let? current := backend "get broker slot counter failed: " (txn_get t key) in
  let? stored := transpose deserialize current in
  let next_slot := default 0 stored in
  if u16_max <? next_slot then Err (SlotExhausted site_tag env_tag u16_max)
  else
    let? v := serialize (next_slot + 1) in
    let? t := backend "put broker slot counter failed: " (txn_put t key v) in
    Ok (t, next_slot).

Fixpoint allocate_loop (fuel k : nat) (key site_tag env_tag : string) (s : S) : option (result DbError Z * S) :=
  match fuel with
  | O => None
  | Datatypes.S fuel =>
      match slot_decide key site_tag env_tag s with
      | Err e => Some (Err e, s)
      | Ok (t, slot) =>
          match commit t (env k s) with
          | (Ok _, s) => Some (Ok slot, s)
          | (Err e, s) =>
              if is_write_conflict e then allocate_loop fuel (Datatypes.S k) key site_tag env_tag s
              else Some (Err (Backend ("commit broker slot counter failed: " ++ error_text e)), s)
          end
      end
  end.

Definition allocate_tikv_broker_slot (fuel : nat) (site_tag env_tag : string) (s : S)
    : option (result DbError Z * S) :=
  match client s with
  | Err e => Some (Err e, s)
  | Ok _ => allocate_loop fuel 0 (broker_slot_counter_key site_tag env_tag) site_tag env_tag s
  end.

(** ** Leases *)

Definition upsert_broker_lease_tikv (now : Z) (broker_id internal_poll_base_url : string) (ttl : Z) (s : S)
    : result DbError unit * S :=
  let record := mkLease broker_id internal_poll_base_url (now + default fallback_ttl (from_std ttl)) now in
  write_txn (fun t => let? v := serialize record in backend "put failed: " (txn_put t (broker_key broker_id) v)) s.

Definition get_broker_lease_tikv (broker_id : string) (s : S) : result DbError (option BrokerLeaseRecord) :=
  let? _ := client s in
  let? t := backend "begin txn failed: " (begin_optimistic s) in
  let? value := backend "get failed: " (txn_get t (broker_key broker_id)) in
  transpose deserialize value.

Definition delete_broker_lease_tikv (broker_id : string) (s : S) : result DbError unit * S :=
  write_txn (fun t => backend "delete failed: " (txn_delete t (broker_key broker_id))) s.
End tikv.

(** ** What the store holds, and the laws it keeps *)

Section tikv_laws.
Context {V S T Bytes : Type} `{TikvClient S T Bytes} {text : MemoryText} {chrono : Chrono}
  `{!Codec (PersistentJobRecord V) Bytes} `{!Codec BrokerLeaseRecord Bytes} `{!Codec Z Bytes}.
Context {value_at : S -> string -> option Bytes} {snapshot : T -> string -> option Bytes}
  {writes : T -> gmap string (option Bytes)} `{!TikvLaws S T Bytes value_at snapshot writes}.

Definition decoded {A} `{!Codec A Bytes} (o : option Bytes) : option A :=
  o ≫= fun v => match deserialize v with Ok a => Some a | Err _ => None end.

Definition job_at (job_id : string) (s : S) : option (PersistentJobRecord V) :=
  match job_key job_id with Ok key => decoded (value_at s key) | Err _ => None end.

Lemma decoded_serialize {A} `{!Codec A Bytes} (a : A) v : serialize a = Ok v -> decoded (Some v) = Some a.
Proof. intros Hs. unfold decoded. simpl. by rewrite (deserialize_serialize _ _ Hs). Qed.

Lemma job_key_inj id1 id2 k : job_key id1 = Ok k -> job_key id2 = Ok k -> id1 = id2.
Proof. unfold job_key. solve_key_inj. Qed.

(** Writing one job key and nothing else. *)
Lemma job_at_write s s' jid key w :
  job_key jid = Ok key ->
  (forall k, value_at s' k = if decide (k = key) then w else value_at s k) ->
  forall id, job_at id s' = if decide (id = jid) then decoded w else job_at id s.
Proof.
  intros Hk Hw id. unfold job_at. case_decide as Hid.
  - subst. rewrite Hk, Hw. by rewrite decide_True.
  - destruct (job_key id) as [key'|] eqn:Hk'; [|done]. rewrite Hw, decide_False; [done|].
    intros ->. by apply Hid, (job_key_inj _ _ _ Hk').
Qed.

Lemma job_at_same s s' : (forall k, value_at s' k = value_at s k) -> forall id, job_at id s' = job_at id s.
Proof. intros Hs id. unfold job_at. case_match; [by rewrite Hs|done]. Qed.

Lemma backend_put what t key v t' :
  backend what (txn_put t key v) = Ok t' ->
  (forall k, snapshot t' k = snapshot t k) /\ writes t' = <[key := Some v]> (writes t).
Proof. unfold backend. destruct (txn_put t key v) as [t1|] eqn:Hp; [|done]. intros [= <-]. by apply put_law. Qed.

Lemma backend_delete what t key t' :
  backend what (txn_delete t key) = Ok t' ->
  (forall k, snapshot t' k = snapshot t k) /\ writes t' = <[key := None]> (writes t).
Proof. unfold backend. destruct (txn_delete t key) as [t1|] eqn:Hp; [|done]. intros [= <-]. by apply txn_delete_law. Qed.

(** A transaction that writes [w] under [key] and nothing else. *)
Lemma write_txn_spec write key w s s' r :
  (forall t t', write t = Ok t' -> (forall k, snapshot t' k = snapshot t k) /\ writes t' = <[key := w]> (writes t)) ->
  write_txn write s = (r, s') ->
  let written := forall k, value_at s' k = if decide (k = key) then w else value_at s k in
  let same := forall k, value_at s' k = value_at s k in
  (is_ok r = true -> written) /\ (same \/ written) /\ (is_ok r = false -> Determined S T Bytes value_at -> same).
Proof.
  intros Hwr. unfold write_txn, backend. destruct (client s); [|intros [= <- <-]; split_and!; [done|by left|done]].
  destruct (begin_optimistic s) as [t|] eqn:Hb; simpl; [|intros [= <- <-]; split_and!; [done|by left|done]].
  destruct (write t) as [t'|] eqn:Hw; [|intros [= <- <-]; split_and!; [done|by left|done]].
  apply begin_law in Hb as [_ Hb]. apply Hwr in Hw as [_ Hw]. rewrite Hb in Hw.
  assert (forall s1, committed value_at snapshot writes t' s s1 ->
            forall k, value_at s1 k = if decide (k = key) then w else value_at s k) as Hcom.
  { intros s1 [_ Hc] k. rewrite Hc, Hw. case_decide; [subst; by rewrite lookup_insert_eq|].
    by rewrite lookup_insert_ne, lookup_empty. }
  destruct (commit t' s) as [[[]|e] s1] eqn:Hc; intros [= <- <-]; simpl.
  - pose proof (Hcom _ (commit_law _ _ _ Hc)) as Hk. split_and!; [done|by right|done].
  - split_and!; [done| |].
    + destruct (commit_failed _ _ _ _ Hc) as [?|Hd]; [by left|right; by apply Hcom].
    + intros _ Hdet. by eapply commit_err.
Qed.

Lemma claim_decide_answer key expected claimant s a :
  claim_decide key expected claimant s = Ok (inl a) ->
  a = (claim_spec expected claimant (decoded (value_at s key))).1 /\
  (claim_spec expected claimant (decoded (value_at s key))).2 = decoded (value_at s key).
Proof.
  unfold claim_decide, backend. destruct (begin_optimistic s) as [t|] eqn:Hb; [|done]. simpl.
  destruct (txn_get t key) as [o|] eqn:Hg; [|done]. simpl.
  apply begin_law in Hb as [Hb _]. apply get_law in Hg as ->. rewrite Hb.
  destruct (value_at s key) as [v|]; [|by intros [= <-]]. unfold decoded. simpl.
  destruct (deserialize v) as [r|]; [|done].
  destruct (String.eqb_spec (rec_broker_id r) claimant); simpl.
  { intros [= <-]. by rewrite decide_True. }
  rewrite decide_False by done.
  destruct (String.eqb_spec (rec_broker_id r) expected); simpl.
  - destruct (serialize _); [|done]. by destruct (txn_put _ _ _).
  - intros [= <-]. by rewrite decide_False.
Qed.

Lemma claim_decide_write key expected claimant s t record :
  claim_decide key expected claimant s = Ok (inr (t, record)) ->
  exists w, writes t = {[key := Some w]} /\ decoded (Some w) = Some record /\
    claim_spec expected claimant (decoded (snapshot t key)) = (Claimed record, Some record).
Proof.
  unfold claim_decide, backend. destruct (begin_optimistic s) as [t0|] eqn:Hb; [|done]. simpl.
  destruct (txn_get t0 key) as [o|] eqn:Hg; [|done]. simpl.
  apply begin_law in Hb as [Hb Hw]. apply get_law in Hg as ->.
  destruct (snapshot t0 key) as [v|] eqn:Hsn; [|done].
  destruct (deserialize v) as [r|] eqn:Hd; [|done].
  destruct (String.eqb_spec (rec_broker_id r) claimant); [done|].
  destruct (String.eqb_spec (rec_broker_id r) expected); [simpl|done].
  destruct (serialize (with_broker claimant r)) as [w|] eqn:Hs; [|done].
  destruct (txn_put t0 key w) as [t1|] eqn:Hp; [|done]. simpl. intros [= <- <-].
  apply put_law in Hp as [Hsnap Hwr]. exists w. split_and!.
  - by rewrite Hwr, Hw.
  - by apply decoded_serialize.
  - rewrite Hsnap, Hsn. unfold decoded. simpl. rewrite Hd. unfold claim_spec.
    by rewrite decide_False, decide_True.
Qed.

Lemma slot_decide_spec key site_tag env_tag s t n :
  slot_decide key site_tag env_tag s = Ok (t, n) ->
  exists w, writes t = {[key := Some w]} /\ decoded (Some w) = Some (n + 1) /\
    n = default 0 (decoded (snapshot t key)) /\ n <= u16_max.
Proof.
  unfold slot_decide, backend. destruct (begin_optimistic s) as [t0|] eqn:Hb; [|done]. simpl.
  destruct (txn_get t0 key) as [o|] eqn:Hg; [|done]. simpl.
  apply begin_law in Hb as [Hb Hw]. apply get_law in Hg as ->.
  destruct (transpose deserialize (snapshot t0 key)) as [stored|] eqn:Ht; [|done].
  destruct (Z.ltb_spec u16_max (default 0 stored)); [done|].
  destruct (serialize (default 0 stored + 1)) as [w|] eqn:Hs; [|done].
  destruct (txn_put t0 key w) as [t1|] eqn:Hp; [|done]. simpl. intros [= <- <-].
  apply put_law in Hp as [Hsnap Hwr]. exists w. split_and!; [by rewrite Hwr, Hw|by apply decoded_serialize| |lia].
  rewrite Hsnap. unfold decoded. destruct (snapshot t0 key) as [v|]; simpl in *; [|by injection Ht as <-].
  destruct (deserialize v); [|done]. by injection Ht as <-.
Qed.

(** ** Other brokers *)

Section interference.
Context (env : nat -> S -> S) (others : S -> S -> Prop) (Henv : forall k s, others s (env k s)).

(** Other brokers act, or nothing changes. *)
Definition elsewhere (s s' : S) : Prop := others s s' \/ forall k, value_at s' k = value_at s k.

(** What a call left behind that had the effect of the claim, if it had one. *)
Definition claimed_at (jid expected claimant : string) (s0 s' : S) : Prop :=
  forall id, job_at id s' = if decide (id = jid) then (claim_spec expected claimant (job_at jid s0)).2 else job_at id s0.

Definition untouched (s0 s' : S) : Prop := forall id, job_at id s' = job_at id s0.

(** The outcomes of a claim: answered, failed, or failed with the answer to its
    commit lost. *)
Definition claim_outcome (jid expected claimant : string) (r : result DbError (ClaimResult V)) (s0 s' : S) : Prop :=
  match r with
  | Ok c => c = (claim_spec expected claimant (job_at jid s0)).1 /\ claimed_at jid expected claimant s0 s'
  | Err e =>
      (Determined S T Bytes value_at -> untouched s0 s') /\
      (untouched s0 s' \/
       (exists what record, e = Backend what /\ (claim_spec expected claimant (job_at jid s0)).1 = Claimed record) /\
       claimed_at jid expected claimant s0 s')
  end.

Lemma commit_claims t key w record jid expected claimant s s' :
  job_key jid = Ok key -> writes t = {[key := Some w]} -> decoded (Some w) = Some record ->
  claim_spec expected claimant (decoded (snapshot t key)) = (Claimed record, Some record) ->
  committed value_at snapshot writes t s s' ->
  (claim_spec expected claimant (job_at jid s)).1 = Claimed record /\ claimed_at jid expected claimant s s'.
Proof.
  intros Hk Hw Hdec Hspec [Hsame Hval]. rewrite Hw in *. assert (job_at jid s = decoded (snapshot t key)) as Hj.
  { unfold job_at. rewrite Hk, (Hsame key); [done|]. rewrite lookup_singleton_eq. eauto. }
  unfold claimed_at. rewrite Hj, Hspec. split; [done|]. simpl. rewrite <- Hdec.
  apply (job_at_write _ _ _ key); [done|]. intros k. rewrite Hval.
  case_decide; [subst; by rewrite lookup_singleton_eq|by rewrite lookup_singleton_ne].
Qed.

Lemma claim_attempts_linear n k jid key expected claimant s r s' :
  job_key jid = Ok key ->
  claim_attempts env n k jid key expected claimant s = (r, s') ->
  exists s0, rtc elsewhere s s0 /\ claim_outcome jid expected claimant r s0 s'.
Proof.
  intros Hk. revert k s; induction n as [|n IH]; intros k s; cbn [claim_attempts].
  { intros [= <- <-]. exists s. split; [done|]. split; [done|by left]. }
  destruct (claim_decide key expected claimant s) as [[a|[t record]]|e] eqn:Hd.
  - intros [= <- <-]. exists s. split; [done|]. apply claim_decide_answer in Hd as [-> Hd].
    assert (job_at jid s = decoded (value_at s key)) as Hj by (unfold job_at; by rewrite Hk).
    split; [by rewrite Hj|]. intros id. case_decide; [|done]. subst. by rewrite Hj, Hd.
  - apply claim_decide_write in Hd as (w & Hw & Hdec & Hspec).
    destruct (commit t (env k s)) as [[[]|e] s1] eqn:Hc.
    + intros [= <- <-]. exists (env k s). split; [apply rtc_once; by left|].
      apply commit_law in Hc. destruct (commit_claims _ _ _ _ _ _ _ _ _ Hk Hw Hdec Hspec Hc) as [Heq ?]. by split.
    + destruct (is_write_conflict e) eqn:He.
      * intros (s0 & Hr & Hs0)%IH. exists s0. split; [|done]. apply (rtc_l _ _ (env k s)); [by left|].
        apply (rtc_l _ _ s1); [|done]. right. by eapply commit_conflict.
      * intros [= <- <-]. exists (env k s). split; [apply rtc_once; by left|]. split.
        { intros Hdet id. apply job_at_same. by eapply commit_err. }
        destruct (commit_failed _ _ _ _ Hc) as [Hsame|Hcom]; [left; intros id; by apply job_at_same|right].
        destruct (commit_claims _ _ _ _ _ _ _ _ _ Hk Hw Hdec Hspec Hcom) as [Hr ?]. eauto.
  - intros [= <- <-]. exists s. split; [done|]. split; [done|by left].
Qed.
Lemma claim_with_owner_linear jid expected claimant s r s' :
  claim_with_owner env jid expected claimant s = (r, s') ->
  exists s0, rtc elsewhere s s0 /\ claim_outcome jid expected claimant r s0 s'.
Proof.
  unfold claim_with_owner.
  destruct (job_key jid) as [key|] eqn:Hk; [|intros [= <- <-]; exists s; split; [done|]; split; [done|by left]].
  destruct (client s); [|intros [= <- <-]; exists s; split; [done|]; split; [done|by left]].
  by apply claim_attempts_linear.
Qed.

(** C13. A claim takes effect at one instant: with other brokers acting
    between any of its transactions' snapshots and commits, a claim on TiKV
    that answers made exactly the atomic compare-and-set of [claim_spec] at
    some state of the run.  One that fails changed no record itself, unless its
    commit ended undetermined: then a [Backend] error may hide that very
    compare-and-set, all of it, of a claim that took the record over. *)
Theorem claim_linearizable jid expected claimant s r s' :
  claim_with_owner env jid expected claimant s = (r, s') ->
  exists s0, rtc elsewhere s s0 /\
  match r with
  | Ok c => c = (claim_spec expected claimant (job_at jid s0)).1 /\
            forall id, job_at id s' = if decide (id = jid) then (claim_spec expected claimant (job_at jid s0)).2
                                      else job_at id s0
  | Err e =>
      (Determined S T Bytes value_at -> forall id, job_at id s' = job_at id s0) /\
      ((forall id, job_at id s' = job_at id s0) \/
       (exists what record, e = Backend what /\ (claim_spec expected claimant (job_at jid s0)).1 = Claimed record) /\
       forall id, job_at id s' = if decide (id = jid) then (claim_spec expected claimant (job_at jid s0)).2
                                 else job_at id s0)
  end.
Proof. apply claim_with_owner_linear. Qed.

(** ** Broker slots *)

Definition counter_at (key : string) (s : S) : Z := default 0 (decoded (value_at s key)).

(** C16. A slot is handed out once: whatever other brokers do in between, an
    allocation on TiKV that answers slot [n] moved the counter from [n] to
    [n + 1] at one instant, and [n] fits 16 bits; an allocation that fails
    left the counter to the others, or, if its commit ended undetermined, moved
    it by one and hands the slot to nobody. *)
Theorem allocate_linearizable fuel site_tag env_tag s r s' :
  let key := broker_slot_counter_key site_tag env_tag in
  allocate_tikv_broker_slot env fuel site_tag env_tag s = Some (r, s') ->
  exists s0, rtc elsewhere s s0 /\
  match r with
  | Ok n => n = counter_at key s0 /\ n <= u16_max /\ counter_at key s' = n + 1 /\
            forall k, k <> key -> value_at s' k = value_at s0 k
  | Err _ => (Determined S T Bytes value_at -> forall k, value_at s' k = value_at s0 k) /\
             ((forall k, value_at s' k = value_at s0 k) \/
              counter_at key s' = counter_at key s0 + 1 /\ forall k, k <> key -> value_at s' k = value_at s0 k)
  end.
Proof.
  intros key. unfold allocate_tikv_broker_slot.
  destruct (client s); [|intros [= <- <-]; exists s; split; [done|]; split; [done|by left]].
  fold key. generalize 0%nat. revert s; induction fuel as [|fuel IH]; intros s k; [done|]. cbn [allocate_loop].
  destruct (slot_decide key site_tag env_tag s) as [[t n]|e] eqn:Hd;
    [|intros [= <- <-]; exists s; split; [done|]; split; [done|by left]].
  apply slot_decide_spec in Hd as (w & Hw & Hdec & Hn & Hmax).
  assert (forall s s', committed value_at snapshot writes t s s' ->
            n = counter_at key s /\ counter_at key s' = n + 1 /\ forall k, k <> key -> value_at s' k = value_at s k) as Hcom.
  { intros s1 s2 [Hsame Hval]. rewrite Hw in *. unfold counter_at.
    rewrite (Hsame key) by (rewrite lookup_singleton_eq; eauto). split_and!; [done| |].
    - rewrite Hval, lookup_singleton_eq, Hdec. done.
    - intros k' Hk'. by rewrite Hval, lookup_singleton_ne. }
  destruct (commit t (env k s)) as [[[]|e] s1] eqn:Hc.
  - intros [= <- <-]. exists (env k s). split; [apply rtc_once; by left|].
    apply commit_law, Hcom in Hc as (? & ? & ?). by split_and!.
  - destruct (is_write_conflict e) eqn:He.
    + intros (s0 & Hr & Hs0)%IH. exists s0. split; [|done]. apply (rtc_l _ _ (env k s)); [by left|].
      apply (rtc_l _ _ s1); [|done]. right. by eapply commit_conflict.
    + intros [= <- <-]. exists (env k s). split; [apply rtc_once; by left|]. split.
      { intros Hdet. by eapply commit_err. }
      destruct (commit_failed _ _ _ _ Hc) as [Hsame|(-> & ? & ?)%Hcom]; [by left|by right].
Qed.

(** The allocation loop ends: once no other broker gets in between a snapshot
    and its commit from the [n]-th attempt on, [n + 1] attempts are enough to
    answer, whatever happened to the earlier ones. *)
Theorem allocate_returns n site_tag env_tag s :
  (forall k s t slot e s', (n <= k)%nat ->
     slot_decide (broker_slot_counter_key site_tag env_tag) site_tag env_tag s = Ok (t, slot) ->
     commit t (env k s) = (Err e, s') -> is_write_conflict e = false) ->
  is_Some (allocate_tikv_broker_slot env (Datatypes.S n) site_tag env_tag s).
Proof.
  set (key := broker_slot_counter_key site_tag env_tag). intros Hquiet.
  unfold allocate_tikv_broker_slot. destruct (client s); [|by eexists]. fold key.
  assert (forall fuel k s, (n < fuel + k)%nat -> (0 < fuel)%nat ->
            is_Some (allocate_loop env fuel k key site_tag env_tag s)) as Hloop; [|apply Hloop; lia].
  clear s. induction fuel as [|fuel IH]; intros k s Hk Hpos; [lia|]. cbn [allocate_loop].
  destruct (slot_decide key site_tag env_tag s) as [[t slot]|] eqn:Hd; [|by eexists].
  destruct (commit t (env k s)) as [[|e] s1] eqn:Hc; [by eexists|].
  destruct (is_write_conflict e) eqn:He; [|by eexists].
  destruct (decide (n <= k)%nat) as [Hle|].
  - by rewrite (Hquiet _ _ _ _ _ _ Hle Hd Hc) in He.
  - apply IH; lia.
Qed.
End interference.

(** ** The storage laws *)

#[export] Instance tikv_job_store : JobStore V S := {|
  upsert_job := upsert_job_tikv;
  delete_job := delete_job_tikv;
  claim_if_owner := claim_with_owner (fun _ s => s)
|}.

(** The laws of [JobStoreLaws] ask that an operation that fails change nothing:
    they hold as long as no commit ends undetermined. *)
#[export] Instance tikv_job_laws `{!Determined S T Bytes value_at} : JobStoreLaws S job_at.
Proof.
  assert (forall r s x s', upsert_job_tikv r s = (x, s') -> forall id, job_at id s' =
            if is_ok x then if decide (id = r.(rec_job_id)) then Some r else job_at id s else job_at id s) as Hup.
  { unfold upsert_job_tikv. intros r s x s'. destruct (job_key _) as [key|] eqn:Hk; [|by intros [= <- <-]].
    destruct (serialize r) as [v|] eqn:Hs.
    - intros (Hok & _ & Herr)%(write_txn_spec _ key (Some v)); [|intros t t'; apply backend_put].
      destruct (is_ok x); [|apply job_at_same; by apply Herr].
      rewrite <- (decoded_serialize _ _ Hs). eapply job_at_write; [done|by apply Hok].
    - unfold write_txn. destruct (client s); [|by intros [= <- <-]].
      by destruct (backend _ (begin_optimistic s)); intros [= <- <-]. }
  assert (forall jid s x s', delete_job_tikv jid s = (x, s') -> forall id, job_at id s' =
            if is_ok x then if decide (id = jid) then None else job_at id s else job_at id s) as Hdel.
  { unfold delete_job_tikv. intros jid s x s'. destruct (job_key _) as [key|] eqn:Hk; [|by intros [= <- <-]].
    intros (Hok & _ & Herr)%(write_txn_spec _ key None); [|intros t t'; apply backend_delete].
    destruct (is_ok x); [|apply job_at_same; by apply Herr].
    change None with (decoded (A:=PersistentJobRecord V) None). eapply job_at_write; [done|by apply Hok]. }
  assert (forall s s0, rtc (elsewhere eq) s s0 -> forall k, value_at s0 k = value_at s k) as Hrtc.
  { induction 1 as [|s1 s2 s3 [<-|Hs] _ IH]; [done|done|]. intros k. by rewrite IH. }
  split; simpl; intros *.
  - exact (Hup _ _ _ _).
  - exact (Hup _ _ _ _).
  - exact (Hdel _ _ _ _).
  - exact (Hdel _ _ _ _).
  - intros Hc. apply (claim_with_owner_linear _ eq) in Hc as (s0 & Hs0 & -> & Hl); [|done].
    unfold claimed_at in Hl. rewrite (job_at_same s s0) in * by (by apply Hrtc). split; [done|]. intros id. rewrite Hl.
    case_decide; [done|]. by apply job_at_same, Hrtc.
  - intros Hc. apply (claim_with_owner_linear _ eq) in Hc as (s0 & Hs0 & Hl & _); [|done]. intros id.
    rewrite (Hl _ id). by apply job_at_same, Hrtc.
Qed.

(** ** Leases are kept apart from the records *)

Definition lease_at (broker_id : string) (s : S) : option BrokerLeaseRecord := decoded (value_at s (broker_key broker_id)).

#[export] Instance tikv_lease_store : BrokerLeaseStore S := {|
  upsert_broker_lease := upsert_broker_lease_tikv;
  get_broker_lease := get_broker_lease_tikv;
  delete_broker_lease := delete_broker_lease_tikv
|}.

Lemma job_not_broker jid key b : job_key jid = Ok key -> broker_key b <> key.
Proof. unfold job_key. destruct (decode jid); [|done]. by intros [= <-]. Qed.

Lemma claim_elsewhere jid expected claimant s r s' b :
  claim_with_owner (fun _ s => s) jid expected claimant s = (r, s') -> lease_at b s' = lease_at b s.
Proof.
  unfold claim_with_owner. destruct (job_key jid) as [key|] eqn:Hk; [|by intros [= <- <-]].
  destruct (client s); [|by intros [= <- <-]]. apply (job_not_broker _ _ b) in Hk.
  generalize 0%nat, 2%nat. intros k n. revert k s. induction n as [|n IH]; intros k s; cbn [claim_attempts].
  { by intros [= <- <-]. }
  destruct (claim_decide key expected claimant s) as [[?|[t rec]]|e] eqn:Hd; [by intros [= <- <-]| |by intros [= <- <-]].
  apply claim_decide_write in Hd as (w & Hw & _).
  destruct (commit t s) as [[[]|e] s1] eqn:Hc.
  - intros [= <- <-]. apply commit_law in Hc as [_ Hval]. unfold lease_at. by rewrite Hval, Hw, lookup_singleton_ne.
  - assert (lease_at b s1 = lease_at b s) as Hs.
    { unfold lease_at. destruct (commit_failed _ _ _ _ Hc) as [->|[_ ->]]; [done|]. by rewrite Hw, lookup_singleton_ne. }
    destruct (is_write_conflict e); [by intros ->%IH|by intros [= <- <-]].
Qed.

(** What a renewal leaves under each key. *)
Lemma renew_values now b url ttl s r s' k :
  upsert_broker_lease_tikv now b url ttl s = (r, s') ->
  value_at s' k = value_at s k \/
  k = broker_key b /\ decoded (value_at s' k) = Some (mkLease b url (now + default fallback_ttl (from_std ttl)) now).
Proof.
  unfold upsert_broker_lease_tikv. set (rec := mkLease _ _ _ _). destruct (serialize rec) as [v|] eqn:Hs; simpl.
  - intros (_ & [Hw|Hw] & _)%(write_txn_spec _ (broker_key b) (Some v)); [by left| |intros t t'; apply backend_put].
    rewrite Hw. case_decide; [right|by left]. split; [done|]. by apply decoded_serialize.
  - unfold write_txn. destruct (client s); [|intros [= <- <-]; by left].
    destruct (backend _ (begin_optimistic s)); intros [= <- <-]; by left.
Qed.

(** What a deletion of a lease does to the values. *)
Lemma end_spec b s r s' :
  delete_broker_lease_tikv b s = (r, s') ->
  (r = Ok tt -> forall k, value_at s' k = if decide (k = broker_key b) then None else value_at s k) /\
  ((forall k, value_at s' k = value_at s k) \/
   forall k, value_at s' k = if decide (k = broker_key b) then None else value_at s k).
Proof.
  intros (Hok & Hany & _)%(write_txn_spec _ (broker_key b) None); [|intros t t'; apply backend_delete].
  split; [|done]. intros ->. by apply Hok.
Qed.

#[export] Instance tikv_lease_laws :
  LeaseStoreLaws S job_at lease_at (fun ttl => default fallback_ttl (from_std ttl)).
Proof.
  split; simpl; intros *.
  - unfold get_broker_lease_tikv, backend, lease_at. destruct (client s); [|done]. simpl.
    destruct (begin_optimistic s) as [t|] eqn:Hb; [|done]. simpl. apply begin_law in Hb as [Hb _].
    destruct (txn_get t _) as [v|] eqn:Hg; [|done]. simpl. apply get_law in Hg as ->. rewrite Hb. unfold decoded.
    destruct (value_at s (broker_key b)) as [v|]; simpl; [|by intros [= <-]].
    destruct (deserialize v); [|done]. by intros [= <-].
  - unfold upsert_broker_lease_tikv, lease_at. set (rec := mkLease _ _ _ _).
    destruct (serialize rec) as [v|] eqn:Hs; simpl.
    + intros (Hw & _)%(write_txn_spec _ (broker_key b) (Some v)); [|intros t t'; apply backend_put].
      rewrite Hw, decide_True by done. by apply decoded_serialize.
    + unfold write_txn. destruct (client s); [|done]. by destruct (backend _ (begin_optimistic s)).
  - unfold lease_at. intros [->|[_ ->]]%(renew_values _ _ _ _ _ _ _ (broker_key b)); auto.
  - intros Hu Hb. unfold lease_at.
    destruct (renew_values _ _ _ _ _ _ _ (broker_key b') Hu) as [->|[[=] _]]; done.
  - intros Hu. unfold job_at. destruct (job_key i) as [key|] eqn:Hk; [|done].
    destruct (renew_values _ _ _ _ _ _ _ key Hu) as [->|[Hkey _]]; [done|].
    by destruct (job_not_broker _ _ b Hk).
  - intros [Hw _]%end_spec. unfold lease_at. by rewrite Hw, decide_True.
  - intros Hu Hb. unfold lease_at. apply end_spec in Hu as (_ & [Hw|Hw]); rewrite Hw; [done|].
    rewrite decide_False; [done|]. by intros [=].
  - intros Hu. unfold job_at. destruct (job_key i) as [key|] eqn:Hk; [|done].
    apply end_spec in Hu as (_ & [Hw|Hw]); rewrite Hw; [done|]. rewrite decide_False; [done|].
    by apply (job_not_broker _ _ b) in Hk.
  - unfold upsert_job_tikv, lease_at. destruct (job_key _) as [key|] eqn:Hk; [|by intros [= <- <-]].
    intros Hu. apply (job_not_broker _ _ b) in Hk. destruct (serialize rec) as [v|].
    + apply (write_txn_spec _ key (Some v)) in Hu as (_ & [-> | ->] & _); [done|by rewrite decide_False|].
      intros t t'; apply backend_put.
    + unfold write_txn in Hu. destruct (client s); [|by injection Hu as <- <-].
      by destruct (backend _ (begin_optimistic s)); injection Hu as <- <-.
  - unfold delete_job_tikv, lease_at. destruct (job_key _) as [key|] eqn:Hk; [|by intros [= <- <-]].
    intros Hu. apply (job_not_broker _ _ b) in Hk.
    apply (write_txn_spec _ key None) in Hu as (_ & [->| ->] & _); [done|by rewrite decide_False|].
    intros t t'; apply backend_delete.
  - apply claim_elsewhere.
Qed.
End tikv_laws.

(** ** A concrete cluster *)

Module Sample.
Inductive value : Type :=
| VJob (r : PersistentJobRecord unit)
| VLease (l : BrokerLeaseRecord)
| VCounter (n : Z).

#[export] Instance record_eq_dec : EqDecision (PersistentJobRecord unit).
Proof. solve_decision. Defined.
#[export] Instance lease_eq_dec : EqDecision BrokerLeaseRecord.
Proof. solve_decision. Defined.
#[export] Instance value_eq_dec : EqDecision value.
Proof. solve_decision. Defined.

#[export] Instance job_codec : Codec (PersistentJobRecord unit) value.
Proof.
  refine {| serialize := fun r => Ok (VJob r);
            deserialize := fun v => match v with VJob r => Ok r | _ => Err (Backend "deserialize failed: ") end |}.
  by intros a v [= <-].
Defined.
#[export] Instance lease_codec : Codec BrokerLeaseRecord value.
Proof.
  refine {| serialize := fun r => Ok (VLease r);
            deserialize := fun v => match v with VLease r => Ok r | _ => Err (Backend "deserialize failed: ") end |}.
  by intros a v [= <-].
Defined.
#[export] Instance counter_codec : Codec Z value.
Proof.
  refine {| serialize := fun r => Ok (VCounter r);
            deserialize := fun v => match v with VCounter r => Ok r | _ => Err (Backend "deserialize failed: ") end |}.
  by intros a v [= <-].
Defined.

Abbreviation kv := (gmap string value).
Abbreviation txn := (gmap string value * gmap string (option value))%type.

Definition unchanged (t : txn) (s : kv) : bool :=
  bool_decide (map_Forall (fun k (_ : option value) => s !! k = t.1 !! k) t.2).

Definition apply_writes (w : gmap string (option value)) (s : kv) : kv :=
  merge (fun w v => match w with Some w => w | None => v end) w s.

Lemma lookup_apply_writes w s k :
  apply_writes w s !! k = match w !! k with Some w => w | None => s !! k end.
Proof. unfold apply_writes. rewrite lookup_merge. by destruct (w !! k), (s !! k). Qed.

#[export] Instance client : TikvClient kv txn value := {|
  connect := fun _ => Ok tt;
  begin_optimistic := fun s => Ok (s, ∅);
  txn_get := fun t k => Ok (t.1 !! k);
  txn_put := fun t k v => Ok (t.1, <[k := Some v]> t.2);
  txn_delete := fun t k => Ok (t.1, <[k := None]> t.2);
  commit := fun t s => if unchanged t s
                       then (Ok tt, apply_writes t.2 s)
                       else (Err (KeyError true), s);
  error_text := fun _ => "write conflict"%string
|}.

Definition value_of (s : kv) (k : string) : option value := s !! k.

Definition snapshot_of (t : txn) (k : string) : option value := t.1 !! k.
Definition writes_of (t : txn) : gmap string (option value) := t.2.

#[export] Instance client_laws :
  TikvLaws kv txn value value_of snapshot_of writes_of.
Proof.
  split; simpl; try (by intros * [= <-]).
  - intros t s s'. destruct (unchanged t s) eqn:Hu; [|done]. intros [= <-].
    apply bool_decide_eq_true in Hu. split.
    + intros k [w Hw]. by apply (Hu k w).
    + intros k. unfold value_of, writes_of. apply lookup_apply_writes.
  - intros t s e s'. destruct (unchanged t s); [done|]. by intros [= <- <-].
  - intros t s e s'. destruct (unchanged t s); [done|]. intros [= <- <-]. by left.
Qed.

#[export] Instance client_determined : Determined kv txn value value_of.
Proof. intros t s e s'. simpl. destruct (unchanged t s); [done|]. by intros [= <- <-]. Qed.

#[export] Existing Instance no_text.

Definition claim (env : nat -> kv -> kv) : string -> string -> string -> kv -> result DbError (ClaimResult unit) * kv :=
  claim_with_owner (T:=txn) (Bytes:=value) env.
Definition allocate (env : nat -> kv -> kv) : nat -> string -> string -> kv -> option (result DbError Z * kv) :=
  allocate_tikv_broker_slot (T:=txn) (Bytes:=value) env.
Definition job (jid : string) (s : kv) : option (PersistentJobRecord unit) := job_at (value_at:=value_of) jid s.
Definition counter (key : string) (s : kv) : Z := counter_at (value_at:=value_of) key s.
Definition anything : kv -> kv -> Prop := elsewhere (value_at:=value_of) (fun _ _ => True).

Definition store (owner : string) : kv :=
  (upsert_job_tikv (T:=txn) (mkRecord sample_id owner tt tt tt 0) (∅ : kv)).2.

(** Another broker claims the record between the snapshot and the commit. *)
Example claim_run :
  claim (fun _ _ => store "b1") sample_id "dead" "b2" (store "dead") = (Ok (Active "b1"), store "b1").
Proof. vm_compute. reflexivity. Qed.

Lemma claim_linearizable_witness :
  exists s0, rtc anything (store "dead") s0 /\
    Active "b1" = (claim_spec "dead" "b2" (job sample_id s0)).1.
Proof.
  destruct (claim_linearizable (V:=unit) (T:=txn) (Bytes:=value) (value_at:=value_of) (snapshot:=snapshot_of)
              (writes:=writes_of) (fun _ _ => store "b1") (fun _ _ => True) (fun _ _ => I)
              sample_id "dead" "b2" (store "dead") _ _ claim_run) as (s0 & Hs0 & Ha & _).
  exists s0. by split.
Defined.

(** Another broker takes slot 0 first; this one gets slot 1. *)
Definition counter_key : string := "counters/broker_slot/bol/dev".
Definition busy_env (k : nat) (s : kv) : kv :=
  match k with O => {[ counter_key := VCounter 1 ]} | _ => s end.

Example allocate_run : allocate busy_env 2 "bol" "dev" ∅ = Some (Ok 1, {[ counter_key := VCounter 2 ]}).
Proof. vm_compute. reflexivity. Qed.

Lemma allocate_linearizable_witness :
  exists s0, rtc anything ∅ s0 /\ 1 = counter counter_key s0.
Proof.
  destruct (allocate_linearizable (T:=txn) (Bytes:=value) (value_at:=value_of) (snapshot:=snapshot_of)
              (writes:=writes_of) busy_env (fun _ _ => True) (fun _ _ => I) 2 "bol" "dev" ∅ _ _ allocate_run)
    as (s0 & Hs0 & Hc & _).
  exists s0. by split.
Defined.

(** The busy cluster is quiet from the second attempt on. *)
Lemma allocate_returns_witness : is_Some (allocate busy_env 2 "bol" "dev" ∅).
Proof.
  apply (allocate_returns (T:=txn) (Bytes:=value) busy_env 1).
  intros [|k] s t slot e s' Hk Hd; [lia|]. change (busy_env (S k) s) with s.
  unfold slot_decide in Hd. simpl in Hd. destruct (transpose _ _) as [stored|] eqn:Ht; [|done].
  simpl in Hd. destruct (u16_max <? default 0 stored); [done|]. injection Hd as <- _. simpl.
  unfold unchanged. rewrite bool_decide_eq_true_2; [done|]. by intros ???.
Defined.
End Sample.
