(* ===== verification/NatsStore.v ===== *)
(** * The NATS store ([db/nats.rs])

    The storage traits over three JetStream key-value buckets.  A session is a
    broker's handle on the cluster: its configuration, the cluster's state and
    the number of requests made.  Every request is preceded by what other
    brokers, and the expiry of old messages, do to the cluster ([env]), so each
    operation is modelled with interference at every await point.  The client
    is behind [Nats] with the laws of revision-checked updates; a request that
    fails changes nothing itself, and one the server still carries out after
    the client gave up counts as an action of [env]. *)
From stdpp Require Import relations.
From Stdlib Require Import Ascii.
From S2P Require Import Prelude Errors RequestId Job Store MemoryStore.

(** ** The client *)

Inductive Operation : Type := Put | Delete | Purge.

Record Entry (Bytes : Type) : Type := mkEntry {
  key : string;
  value : Bytes;
  revision : Z;
  operation : Operation;
  seen_current : bool
}.
Arguments mkEntry {Bytes}. Arguments key {Bytes}. Arguments value {Bytes}.
Arguments revision {Bytes}. Arguments operation {Bytes}. Arguments seen_current {Bytes}.

Record KvConfig : Type := mkKvConfig {
  bucket : string;
  history : Z;
  num_replicas_of : Z;
  in_memory : bool;
  max_age : option Z;
  limit_markers : option Z
}.

Inductive CreateError : Type := AlreadyExists | CreateFailed (text : string).
Inductive UpdateError : Type := WrongLastRevision | UpdateFailed (text : string).

(** A [watch] is what the stream delivers and whether it then ends; one that
    does not end blocks.  Buckets are named. *)
Class Nats (S Bytes : Type) : Type := {
  nats_connect : string -> option Z -> S -> result string unit;
  create_key_value : KvConfig -> S -> result string unit * S;
  update_key_value : KvConfig -> S -> result string unit * S;
  get_key_value : string -> S -> result string unit;
  entry : string -> string -> S -> result string (option (Entry Bytes));
  put : string -> string -> Bytes -> S -> result string Z * S;
  create : string -> string -> Bytes -> S -> result CreateError Z * S;
  update : string -> string -> Bytes -> Z -> S -> result UpdateError Z * S;
  kv_delete : string -> string -> S -> result string unit * S;
  purge : string -> string -> S -> result string unit * S;
  purge_with_ttl : string -> string -> Z -> S -> result string unit * S;
  info_with_subjects : string -> string -> S -> result string (list string);
  watch_with_history : string -> string -> S -> result string (list (result string (Entry Bytes)) * bool);
  secs_text : Z -> string
}.

(** ** Configuration of the store *)

Definition secs (n : Z) : Z := n * 10 ^ 9.

Definition USER_LIMIT_TOMBSTONE_TTL : Z := secs 600.
Definition USER_LIMIT_DELETE_MARKER_TTL : Z := secs 600.
Definition DEFAULT_JOB_TOMBSTONE_TTL : Z := secs (24 * 60 * 60).
Definition JOB_DELETE_MARKER_TTL : Z := secs 600.

(** [Duration::MAX]. *)
Definition duration_max : Z := u64_max * 10 ^ 9 + 999999999.

(** [stores] of the source: whether the once-cell is filled. *)
Record NatsStore : Type := mkNatsStore {
  url : string;
  jobs_bucket : string;
  leases_bucket : string;
  user_limits_bucket : string;
  lease_ttl : Z;
  num_replicas : Z;
  connect_timeout : Z;
  subscription_capacity : option Z;
  user_limit_tombstone_ttl_override : option Z;
  user_limit_delete_marker_ttl_override : option Z;
  job_tombstone_ttl : Z;
  job_delete_marker_ttl_override : option Z;
  stores_set : bool
}.

Definition new (url jobs_bucket leases_bucket : string) (lease_ttl num_replicas connect_timeout : Z) : NatsStore :=
  mkNatsStore url jobs_bucket leases_bucket (leases_bucket ++ "-userlimits") lease_ttl num_replicas connect_timeout
    None None None DEFAULT_JOB_TOMBSTONE_TTL None false.

Definition with_job_tombstone_ttl (ttl : Z) (n : NatsStore) : NatsStore :=
  mkNatsStore n.(url) n.(jobs_bucket) n.(leases_bucket) n.(user_limits_bucket) n.(lease_ttl) n.(num_replicas)
    n.(connect_timeout) n.(subscription_capacity) n.(user_limit_tombstone_ttl_override)
    n.(user_limit_delete_marker_ttl_override) ttl n.(job_delete_marker_ttl_override) n.(stores_set).

Definition with_stores (n : NatsStore) : NatsStore :=
  mkNatsStore n.(url) n.(jobs_bucket) n.(leases_bucket) n.(user_limits_bucket) n.(lease_ttl) n.(num_replicas)
    n.(connect_timeout) n.(subscription_capacity) n.(user_limit_tombstone_ttl_override)
    n.(user_limit_delete_marker_ttl_override) n.(job_tombstone_ttl) n.(job_delete_marker_ttl_override) true.

Definition job_delete_marker_ttl (n : NatsStore) : Z :=
  default JOB_DELETE_MARKER_TTL n.(job_delete_marker_ttl_override).
Definition user_limit_tombstone_ttl (n : NatsStore) : Z :=
  default USER_LIMIT_TOMBSTONE_TTL n.(user_limit_tombstone_ttl_override).
Definition user_limit_delete_marker_ttl (n : NatsStore) : Z :=
  default USER_LIMIT_DELETE_MARKER_TTL n.(user_limit_delete_marker_ttl_override).

Definition jobs_config (n : NatsStore) : KvConfig :=
  mkKvConfig n.(jobs_bucket) 1 n.(num_replicas) false None (Some (job_delete_marker_ttl n)).
Definition leases_config (n : NatsStore) : KvConfig :=
  mkKvConfig n.(leases_bucket) 1 n.(num_replicas) true (Some (Z.min (n.(lease_ttl) * 2) duration_max)) None.
Definition user_limits_config (n : NatsStore) : KvConfig :=
  mkKvConfig n.(user_limits_bucket) 1 n.(num_replicas) true None (Some (user_limit_delete_marker_ttl n)).

(** ** Keys *)

Definition hex_digit (d : Z) : ascii := ascii_of_N (Z.to_N (if d <? 10 then 48 + d else 87 + d)).

Definition hex_byte (c : ascii) (rest : string) : string :=
  String (hex_digit (byte_val c / 16)) (String (hex_digit (byte_val c mod 16)) rest).

Fixpoint hex_token (s : string) : string :=
  match s with
  | EmptyString => EmptyString
  | String c s => hex_byte c (hex_token s)
  end.

Definition user_slot_key (scope user job_id : string) : string :=
  ("ul." ++ hex_token scope ++ "." ++ hex_token user ++ "." ++ hex_token job_id)%string.

Definition user_slot_prefix (scope user : string) : string :=
  ("ul." ++ hex_token scope ++ "." ++ hex_token user ++ ".")%string.

Definition job_key {text : MemoryText} (public_id : string) : result DbError string :=
  let? decoded := map_err (fun e => Backend (invalid_id_text public_id e)) (decode public_id) in
  Ok ("jobs." ++ decoded.(site) ++ "." ++ decoded.(env) ++ "." ++ pretty decoded.(broker_slot) ++ "." ++ public_id)%string.

Definition broker_lease_key (broker_id : string) : string := ("brokers." ++ broker_id)%string.
Definition broker_slot_counter_key (site_tag env_tag : string) : string :=
  ("counters.broker_slot." ++ site_tag ++ "." ++ env_tag)%string.

(** ** Sessions: requests with interference *)

Record Session (S : Type) : Type := mkSession { nats : NatsStore; cluster : S; turn : nat }.
Arguments mkSession {S}. Arguments nats {S}. Arguments cluster {S}. Arguments turn {S}.

(** [Elapsed]: [tokio::time::timeout] gave up. *)
Inductive Interrupted (E : Type) : Type := Elapsed | Failed (e : E).
Arguments Elapsed {E}. Arguments Failed {E}.

Definition M (S E A : Type) : Type := Session S -> result E A * Session S.

Definition ret {S E A} (a : A) : M S E A := fun w => (Ok a, w).
Definition fail {S E A} (e : E) : M S E A := fun w => (Err e, w).
Definition of_result {S E A} (r : result E A) : M S E A := fun w => (r, w).
Definition bind {S E A B} (m : M S E A) (k : A -> M S E B) : M S E B := fun w =>
  match m w with (Ok a, w) => k a w | (Err e, w) => (Err e, w) end.
Definition map_fail {S E F A} (f : E -> F) (m : M S E A) : M S F A := fun w =>
  let '(r, w) := m w in (map_err f r, w).
(** [match m { Ok(a) => Ok(a), Err(e) => h(e) }]. *)
Definition or_else {S E F A} (m : M S E A) (h : E -> M S F A) : M S F A := fun w =>
  match m w with (Ok a, w) => (Ok a, w) | (Err e, w) => h e w end.
Definition get_nats {S E} : M S E NatsStore := fun w => (Ok w.(nats), w).
Definition put_nats {S E} (n : NatsStore) : M S E unit := fun w => (Ok tt, mkSession n w.(cluster) w.(turn)).

Notation "'let!' x ':=' m 'in' k" := (bind m (fun x => k))
  (at level 10, x pattern, m at level 100, k at level 200, format "'[v' 'let!'  x  ':='  m  'in' '/' k ']'").

Section nats.
Context {V S Bytes : Type} `{Nats S Bytes} {text : MemoryText} {chrono : Chrono}
  `{!Codec (PersistentJobRecord V) Bytes} `{!Codec BrokerLeaseRecord Bytes} `{!Codec Z Bytes}
  `{!Codec UserLimitEntry Bytes}.

(** What others do before a request, and whether the connect timeout has
    elapsed by then. *)
Context (env : nat -> S -> S) (elapsed : nat -> bool).

Definition request {E A} (f : S -> result E A * S) : M S E A := fun w =>
  let '(r, s) := f (env w.(turn) w.(cluster)) in (r, mkSession w.(nats) s (Datatypes.S w.(turn))).

Definition query {E A} (f : S -> result E A) : M S E A := request (fun s => (f s, s)).

(** A request of the initialisation: dropped if the time is up. *)
Definition timed {E A} (f : S -> result E A * S) : M S (Interrupted E) A := fun w =>
  if elapsed w.(turn)
  then (Err Elapsed, mkSession w.(nats) (env w.(turn) w.(cluster)) (Datatypes.S w.(turn)))
  else map_fail Failed (request f) w.

Definition backend (what e : string) : DbError := Backend (what ++ e).

(** ** Initialisation *)

Definition get_or_create_bucket (config : KvConfig) : M S (Interrupted string) string :=
  let bucket_name := config.(bucket) in
  let! _ := or_else (timed (create_key_value config)) (fun e =>
    match e with
    | Elapsed => fail Elapsed
    | Failed create_err =>
        or_else (timed (update_key_value config)) (fun e =>
          match e with
          | Elapsed => fail Elapsed
          | Failed update_err =>
              or_else (timed (fun s => (get_key_value bucket_name s, s))) (fun e =>
                match e with
                | Elapsed => fail Elapsed
                | Failed e => fail (Failed ("bucket '" ++ bucket_name ++ "': create failed (" ++ create_err
                                ++ "), update failed (" ++ update_err ++ "), get also failed: " ++ e)%string)
                end)
          end)
    end) in
  ret bucket_name.

Definition interrupted (f : string -> DbError) (e : Interrupted string) : Interrupted DbError :=
  match e with Elapsed => Elapsed | Failed e => Failed (f e) end.

Definition init_stores (n : NatsStore) : M S (Interrupted DbError) unit :=
  let! _ := map_fail (interrupted (backend "NATS connect failed: "))
              (timed (fun s => (nats_connect n.(url) n.(subscription_capacity) s, s))) in
  let! _ := map_fail (interrupted (backend "jobs bucket: ")) (get_or_create_bucket (jobs_config n)) in
  let! _ := map_fail (interrupted (backend "leases bucket: ")) (get_or_create_bucket (leases_config n)) in
  let! _ := map_fail (interrupted (backend "user-limits bucket: ")) (get_or_create_bucket (user_limits_config n)) in
  ret tt.

(** The once-cell: filled by the first success. *)
Definition stores : M S DbError NatsStore :=
  let! n := get_nats in
  if n.(stores_set) then ret n
  else
    let! _ := map_fail (fun e => match e with
                 | Elapsed => Backend ("NATS init timed out after " ++ secs_text n.(connect_timeout) ++ "s")
                 | Failed e => e
                 end) (init_stores n) in
    let! _ := put_nats (with_stores n) in
    ret (with_stores n).

Definition init : M S DbError unit := let! _ := stores in ret tt.

Definition jobs : M S DbError string := let! n := stores in ret n.(jobs_bucket).
Definition leases : M S DbError string := let! n := stores in ret n.(leases_bucket).
Definition user_limits : M S DbError string := let! n := stores in ret n.(user_limits_bucket).

Definition purge_expiring (store key : string) (ttl : Z) : M S DbError unit :=
  or_else (request (purge_with_ttl store key ttl)) (fun _ =>
    map_fail (backend ("purge " ++ key ++ " (fallback): ")) (request (purge store key))).

(** ** User slots *)

Definition is_put (o : Operation) : bool := match o with Put => true | _ => false end.

(** The live entry of an answer: a tombstone is none. *)
Definition live_entry (o : option (Entry Bytes)) : option (Entry Bytes) :=
  match o with Some e => if is_put e.(operation) then Some e else None | None => None end.

Definition reserve_user_slot_nats (now : Z) (scope user job_id owner : string) : M S DbError Z :=
  let! store := user_limits in
  let key := user_slot_key scope user job_id in
  let! e := map_fail (backend "get user slot: ") (query (entry store key)) in
  match live_entry e with
  | Some e => ret e.(revision)
  | None =>
      let! v := of_result (serialize (mkUserLimitEntry scope user job_id owner 0 now)) in
      or_else (request (create store key v)) (fun e =>
        match e with
        | AlreadyExists =>
            let! existing := map_fail (backend "get user slot after race: ") (query (entry store key)) in
            ret (match existing with Some en => en.(revision) | None => 0 end)
        | CreateFailed e => fail (backend "create user slot: " e)
        end)
  end.

Definition release_user_slot_nats (scope user job_id : string) : M S DbError unit :=
  let! n := stores in
  purge_expiring n.(user_limits_bucket) (user_slot_key scope user job_id) (user_limit_tombstone_ttl n).

(** The scan reads the stream up to the entry that is current: [None] when the
    stream neither delivers it nor ends. *)
Fixpoint scan_loop (items : list (result string (Entry Bytes))) (ended : bool) (out : list (Entry Bytes))
    : option (result DbError (list (Entry Bytes))) :=
  match items with
  | [] => if ended then Some (Ok (rev out)) else None
  | item :: items =>
      match map_err (backend "watch entry: ") item with
      | Err e => Some (Err e)
      | Ok entry => if entry.(seen_current) then Some (Ok (rev (entry :: out)))
                    else scan_loop items ended (entry :: out)
      end
  end.

Definition scan_current_entries (store key_pattern : string)
    : Session S -> option (result DbError (list (Entry Bytes)) * Session S) := fun w =>
  match map_fail (backend ("info " ++ key_pattern ++ ": ")) (query (info_with_subjects store key_pattern)) w with
  | (Err e, w) => Some (Err e, w)
  | (Ok [], w) => Some (Ok [], w)
  | (Ok (_ :: _), w) =>
      match map_fail (backend ("watch " ++ key_pattern ++ ": ")) (query (watch_with_history store key_pattern)) w with
      | (Err e, w) => Some (Err e, w)
      | (Ok (items, ended), w) =>
          match scan_loop items ended [] with Some r => Some (r, w) | None => None end
      end
  end.

Definition with_seq (q : Z) (e : UserLimitEntry) : UserLimitEntry :=
  mkUserLimitEntry e.(ul_scope) e.(ul_user) e.(ul_job_id) e.(owner_broker_id) q e.(ul_created_at).

(** The entries that are puts, deserialised, with the revision of each; the
    first that does not deserialise is the answer. *)
Fixpoint decode_puts {A} `{!Codec A Bytes} (entries : list (Entry Bytes)) : result DbError (list (Entry Bytes * A)) :=
  match entries with
  | [] => Ok []
  | e :: entries =>
      if is_put e.(operation)
      then let? a := deserialize e.(value) in let? rest := decode_puts entries in Ok ((e, a) :: rest)
      else decode_puts entries
  end.

Definition list_user_slots_nats (scope user : string)
    : Session S -> option (result DbError (list UserLimitEntry) * Session S) := fun w =>
  match user_limits w with
  | (Err e, w) => Some (Err e, w)
  | (Ok store, w) =>
      match scan_current_entries store (user_slot_prefix scope user ++ ">") w with
      | None => None
      | Some (Err e, w) => Some (Err e, w)
      | Some (Ok entries, w) =>
          Some (map_ok (map (fun '(e, ent) => with_seq e.(revision) ent)) (decode_puts entries), w)
      end
  end.

Definition live_owners (now : Z) (l : list (Entry Bytes * BrokerLeaseRecord)) : gset string :=
  list_to_set (broker_id <$> filter (fun r => now < r.(lease_until)) (snd <$> l)).

(** The sweep over the slots: each is deserialised when its turn comes, and an
    error ends the sweep with the purges done so far in place. *)
Fixpoint reclaim_loop (store : string) (ttl : Z) (live : gset string) (entries : list (Entry Bytes)) (removed : Z)
    : M S DbError Z :=
  match entries with
  | [] => ret removed
  | e :: entries =>
      if String.prefix "ul." e.(key) && is_put e.(operation) then
        let! ent := of_result (deserialize e.(value)) in
        if bool_decide (ent.(owner_broker_id) ∈ live) then reclaim_loop store ttl live entries removed
        else let! _ := purge_expiring store e.(key) ttl in
             reclaim_loop store ttl live entries (wrap 64 (removed + 1))
      else reclaim_loop store ttl live entries removed
  end.

Definition reclaim_user_slots_nats (now : Z) : Session S -> option (result DbError Z * Session S) := fun w =>
  match leases w with
  | (Err e, w) => Some (Err e, w)
  | (Ok store, w) =>
      match scan_current_entries store ">" w with
      | None => None
      | Some (Err e, w) => Some (Err e, w)
      | Some (Ok entries, w) =>
          match decode_puts entries with
          | Err e => Some (Err e, w)
          | Ok leases =>
              match user_limits w with
              | (Err e, w) => Some (Err e, w)
              | (Ok ul, w) =>
                  match scan_current_entries ul ">" w with
                  | None => None
                  | Some (Err e, w) => Some (Err e, w)
                  | Some (Ok entries, w) =>
                      Some (reclaim_loop ul (user_limit_tombstone_ttl w.(nats)) (live_owners now leases) entries 0 w)
                  end
              end
          end
      end
  end.

(** ** Broker slots: revision-checked increments of a u32 counter *)

(** One turn of the loop: [None] is a lost race. *)
Definition allocate_turn (key site_tag env_tag jobs : string) : M S DbError (option Z) :=
  let! e := map_fail (backend "get broker slot counter: ") (query (entry jobs key)) in
  match e with
  | None =>
      let! v := of_result (serialize 1) in
      or_else (let! _ := request (create jobs key v) in ret (Some 0)) (fun e =>
        match e with
        | AlreadyExists => ret None
        | CreateFailed e => fail (backend "create broker slot counter: " e)
        end)
  | Some e =>
      if negb (is_put e.(operation)) then
        let! v := of_result (serialize 1) in
        or_else (let! _ := request (update jobs key v e.(revision)) in ret (Some 0)) (fun e =>
          match e with
          | WrongLastRevision => ret None
          | UpdateFailed e => fail (backend "recreate broker slot counter: " e)
          end)
      else
        let! next_slot := of_result (deserialize e.(value)) in
        if u16_max <? next_slot then fail (SlotExhausted site_tag env_tag u16_max)
        else
          let! v := of_result (serialize (next_slot + 1)) in
          or_else (let! _ := request (update jobs key v e.(revision)) in ret (Some next_slot)) (fun e =>
            match e with
            | WrongLastRevision => ret None
            | UpdateFailed e => fail (backend "update broker slot counter: " e)
            end)
  end.

Fixpoint allocate_loop (fuel : nat) (key site_tag env_tag jobs : string) (w : Session S)
    : option (result DbError Z * Session S) :=
  match fuel with
  | O => None
  | Datatypes.S fuel =>
      match allocate_turn key site_tag env_tag jobs w with
      | (Err e, w) => Some (Err e, w)
      | (Ok (Some slot), w) => Some (Ok slot, w)
      | (Ok None, w) => allocate_loop fuel key site_tag env_tag jobs w
      end
  end.

Definition allocate_nats_broker_slot (fuel : nat) (site_tag env_tag : string) (w : Session S)
    : option (result DbError Z * Session S) :=
  match jobs w with
  | (Err e, w) => Some (Err e, w)
  | (Ok jobs, w) => allocate_loop fuel (broker_slot_counter_key site_tag env_tag) site_tag env_tag jobs w
  end.

(** ** Jobs *)

Definition upsert_job_nats (record : PersistentJobRecord V) : M S DbError unit :=
  let! key := of_result (job_key record.(rec_job_id)) in
  let! v := of_result (serialize record) in
  let! jobs := jobs in
  let! _ := map_fail (backend "put job: ") (request (put jobs key v)) in
  ret tt.

Definition delete_job_nats (job_id : string) : M S DbError unit :=
  let! key := of_result (job_key job_id) in
  let! n := stores in
  purge_expiring n.(jobs_bucket) key n.(job_tombstone_ttl).

(** One attempt: [None] is a lost race. *)
Definition claim_turn (jobs key expected_owner claimant : string) : M S DbError (option (ClaimResult V)) :=
  let! e := map_fail (backend "get job entry: ") (query (entry jobs key)) in
  match live_entry e with
  | None => ret (Some NotFound)
  | Some e =>
      let! record := of_result (deserialize e.(value)) in
      if (record.(rec_broker_id) =? claimant)%string then ret (Some (Claimed record))
      else if negb (record.(rec_broker_id) =? expected_owner)%string then ret (Some (Active record.(rec_broker_id)))
      else
        let claimed := with_broker claimant record in
        let! v := of_result (serialize claimed) in
        or_else (let! _ := request (update jobs key v e.(revision)) in ret (Some (Claimed claimed))) (fun e =>
          match e with
          | WrongLastRevision => ret None
          | UpdateFailed e => fail (backend "update job: " e)
          end)
  end.

Definition MAX_CAS_ATTEMPTS : nat := 3.

Fixpoint claim_turns (n : nat) (jobs key expected_owner claimant : string) : M S DbError (option (ClaimResult V)) :=
  match n with
  | O => ret None
  | Datatypes.S n =>
      let! c := claim_turn jobs key expected_owner claimant in
      match c with
      | Some c => ret (Some c)
      | None => claim_turns n jobs key expected_owner claimant
      end
  end.

Definition claim_refreshed (jobs key claimant : string) : M S DbError (ClaimResult V) :=
  let! refreshed := map_fail (backend "re-read after CAS retries: ") (query (entry jobs key)) in
  match live_entry refreshed with
  | Some e =>
      let! current := of_result (deserialize e.(value)) in
      if (current.(rec_broker_id) =? claimant)%string then ret (Claimed current)
      else ret (Active current.(rec_broker_id))
  | None => ret NotFound
  end.

Definition claim_if_owner_nats (job_id expected_owner claimant : string) : M S DbError (ClaimResult V) :=
  let! key := of_result (job_key job_id) in
  let! jobs := jobs in
  let! c := claim_turns MAX_CAS_ATTEMPTS jobs key expected_owner claimant in
  match c with
  | Some c => ret c
  | None => claim_refreshed jobs key claimant
  end.

(** ** Leases *)

Definition out_of_range_text : string := "Source duration value is out of range for the target type".

Definition upsert_broker_lease_nats (now : Z) (broker_id internal_poll_base_url : string) (ttl : Z)
    : M S DbError unit :=
  let! lease_duration := of_result (ok_or (from_std ttl) (backend "invalid broker lease ttl: " out_of_range_text)) in
  let record := mkLease broker_id internal_poll_base_url (now + lease_duration) now in
  let! v := of_result (serialize record) in
  let! leases := leases in
  let! _ := map_fail (backend "put lease: ") (request (put leases (broker_lease_key broker_id) v)) in
  ret tt.

Definition get_broker_lease_nats (broker_id : string) : M S DbError (option BrokerLeaseRecord) :=
  let! leases := leases in
  let! e := map_fail (backend "get lease entry: ") (query (entry leases (broker_lease_key broker_id))) in
  match live_entry e with
  | Some e => let! r := of_result (deserialize e.(value)) in ret (Some r)
  | None => ret None
  end.

Definition delete_broker_lease_nats (broker_id : string) : M S DbError unit :=
  let! leases := leases in
  let! _ := map_fail (backend "delete lease: ") (request (kv_delete leases (broker_lease_key broker_id))) in
  ret tt.
End nats.

(** ** Keys of user slots *)

Lemma prefix_app (p s : string) : String.prefix p s = true <-> exists r, s = (p ++ r)%string.
Proof.
  revert s; induction p as [|a p IH]; intros s; [split; [by exists s|by destruct s]|].
  destruct s as [|b s]; simpl; [split; [done|by intros [r [=]]]|].
  destruct (Ascii.ascii_dec a b) as [->|Hab].
  - rewrite IH. split; intros [r Hr]; exists r.
    + by rewrite Hr.
    + change (String b s = String b (p ++ r)) in Hr. by injection Hr.
  - split; [done|]. intros [r Hr]. change (String b s = String a (p ++ r)) in Hr. injection Hr. congruence.
Qed.

Lemma hex_digit_val d : 0 <= d < 16 -> byte_val (hex_digit d) = if d <? 10 then 48 + d else 87 + d.
Proof. intros Hd. apply byte_val_ascii. destruct (Z.ltb_spec d 10); lia. Qed.

Lemma hex_digit_inj d d' : 0 <= d < 16 -> 0 <= d' < 16 -> hex_digit d = hex_digit d' -> d = d'.
Proof.
  intros Hd Hd' Heq%(f_equal byte_val). rewrite !hex_digit_val in Heq by done. repeat case_match; lia.
Qed.

Lemma hex_digit_not_dot d : 0 <= d < 16 -> hex_digit d <> "."%char.
Proof.
  intros Hd Heq%(f_equal byte_val). rewrite hex_digit_val in Heq by done. change (byte_val ".") with 46 in Heq.
  case_match; lia.
Qed.

Lemma byte_digits c : 0 <= byte_val c / 16 < 16 /\ 0 <= byte_val c mod 16 < 16.
Proof. pose proof (byte_val_range c). Z.to_euclidean_division_equations. lia. Qed.

(** A hex token ends where the next dot is. *)
Lemma hex_token_split s s' r r' :
  (hex_token s ++ String "." r = hex_token s' ++ String "." r')%string -> s = s' /\ r = r'.
Proof.
  revert s'; induction s as [|c s IH]; intros [|c' s'] Heq.
  - by injection Heq.
  - injection Heq as Hd _. by destruct (hex_digit_not_dot (byte_val c' / 16)); [apply byte_digits|].
  - injection Heq as Hd _. by destruct (hex_digit_not_dot (byte_val c / 16)); [apply byte_digits|].
  - cbn [hex_token] in Heq. unfold hex_byte in Heq.
    change (String (hex_digit (byte_val c / 16)) (String (hex_digit (byte_val c mod 16)) (hex_token s ++ String "." r))
          = String (hex_digit (byte_val c' / 16)) (String (hex_digit (byte_val c' mod 16)) (hex_token s' ++ String "." r')))
      in Heq. injection Heq as Hhi Hlo Hrest. apply IH in Hrest as [-> ->].
    apply hex_digit_inj in Hhi; [|apply byte_digits..]. apply hex_digit_inj in Hlo; [|apply byte_digits..].
    split; [|done]. f_equal. rewrite <- (ascii_byte_val c), <- (ascii_byte_val c'). do 2 f_equal.
    rewrite (Z.div_mod (byte_val c) 16), (Z.div_mod (byte_val c') 16) by done. congruence.
Qed.

Lemma hex_token_inj s s' : hex_token s = hex_token s' -> s = s'.
Proof. intros Heq. apply (hex_token_split s s' "" ""). by rewrite Heq. Qed.

(** What a slot key begins with says whose slot it is. *)
Lemma user_slot_prefix_spec scope user scope' user' job_id :
  String.prefix (user_slot_prefix scope user) (user_slot_key scope' user' job_id) = true <->
  scope' = scope /\ user' = user.
Proof.
  rewrite prefix_app. unfold user_slot_prefix, user_slot_key. split.
  - intros [r Hr]. rewrite <- !string_app_assoc in Hr. injection Hr as Hr.
    apply hex_token_split in Hr as [-> Hr]. by apply hex_token_split in Hr as [-> _].
  - intros [-> ->]. exists (hex_token job_id). by rewrite <- !string_app_assoc.
Qed.

Lemma user_slot_key_inj scope user job_id scope' user' job_id' :
  user_slot_key scope user job_id = user_slot_key scope' user' job_id' ->
  scope = scope' /\ user = user' /\ job_id = job_id'.
Proof.
  unfold user_slot_key. intros Heq. injection Heq as Heq.
  apply hex_token_split in Heq as [-> Heq]. apply hex_token_split in Heq as [-> Heq]. by apply hex_token_inj in Heq.
Qed.

Lemma user_slot_key_ul scope user job_id : String.prefix "ul." (user_slot_key scope user job_id) = true.
Proof. apply prefix_app. by eexists. Qed.

(** ** The laws of the client *)

Section laws_of_client.
Context {S Bytes : Type} (value_at : string -> string -> S -> option (Bytes * Z)).

Definition same (s s' : S) : Prop := forall b k, value_at b k s' = value_at b k s.

Lemma same_refl s : same s s.
Proof. done. Qed.

(** Clusters with the same values are interchangeable for whoever reads them. *)
#[export] Instance same_equivalence : Equivalence same.
Proof.
  split; [exact same_refl| |].
  - intros s s' Hs b k. symmetry. apply Hs.
  - intros s1 s2 s3 H12 H23 b k. by rewrite H23.
Qed.

#[export] Instance value_at_proper b k : Proper (same ==> eq) (value_at b k).
Proof. intros s s' Hs. symmetry. apply Hs. Qed.

Definition written (b k : string) (o : option (Bytes * Z)) (s s' : S) : Prop :=
  forall b' k', value_at b' k' s' = if decide (b' = b /\ k' = k) then o else value_at b' k' s.

Context (rev_at : string -> string -> S -> option Z).

(** [e] is the last message of its key. *)
Definition current (b : string) (s : S) (e : Entry Bytes) : Prop :=
  rev_at b e.(key) s = Some e.(revision) /\
  value_at b e.(key) s = if is_put e.(operation) then Some (e.(value), e.(revision)) else None.

Definition has_message (b p : string) (s : S) : Prop :=
  exists k, String.prefix p k = true /\ is_Some (rev_at b k s).

(** [es] is the last message of every key that begins with [p], once. *)
Definition replay (b p : string) (s : S) (es : list (Entry Bytes)) : Prop :=
  NoDup (key <$> es) /\
  Forall (fun e => String.prefix p e.(key) = true /\ current b s e) es /\
  forall k, String.prefix p k = true -> is_Some (rev_at b k s) -> k ∈ key <$> es.

(** The stream delivers [es], the last one flagged, or breaks off before. *)
Definition delivers (items : list (result string (Entry Bytes))) (es : list (Entry Bytes)) : Prop :=
  exists before last, es = before ++ [last] /\ last.(seen_current) = true /\
    Forall (fun e => e.(seen_current) = false) before /\
    ((exists rest, items = (Ok <$> before) ++ Ok last :: rest) \/
     (exists n err rest, items = (Ok <$> take n before) ++ Err err :: rest)).
End laws_of_client.

(** [value_at]: the live value of a key and its revision; [rev_at]: the
    revision of the last message on the key, tombstones included. *)
Class NatsLaws (S Bytes : Type) `{Nats S Bytes} (value_at : string -> string -> S -> option (Bytes * Z))
    (rev_at : string -> string -> S -> option Z) : Prop := {
  create_bucket_law c s r s' : create_key_value c s = (r, s') -> same value_at s s';
  update_bucket_law c s r s' : update_key_value c s = (r, s') -> same value_at s s';
  entry_law b k s o : entry b k s = Ok o ->
    match o with
    | None => value_at b k s = None /\ rev_at b k s = None
    | Some e => e.(key) = k /\ current value_at rev_at b s e
    end;
  put_law b k v s r s' : put b k v s = (Ok r, s') -> written value_at b k (Some (v, r)) s s';
  put_err b k v s e s' : put b k v s = (Err e, s') -> same value_at s s';
  create_law b k v s r s' : create b k v s = (Ok r, s') ->
    value_at b k s = None /\ written value_at b k (Some (v, r)) s s';
  create_err b k v s e s' : create b k v s = (Err e, s') ->
    same value_at s s' /\ (e = AlreadyExists -> value_at b k s <> None);
  update_law b k v rev s r s' : update b k v rev s = (Ok r, s') ->
    rev_at b k s = Some rev /\ written value_at b k (Some (v, r)) s s';
  update_err b k v rev s e s' : update b k v rev s = (Err e, s') ->
    same value_at s s' /\ (e = WrongLastRevision -> rev_at b k s <> Some rev);
  delete_law b k s s' : kv_delete b k s = (Ok tt, s') -> written value_at b k None s s';
  delete_err b k s e s' : kv_delete b k s = (Err e, s') -> same value_at s s';
  purge_law b k s s' : purge b k s = (Ok tt, s') -> written value_at b k None s s';
  purge_err b k s e s' : purge b k s = (Err e, s') -> same value_at s s';
  purge_ttl_law b k ttl s s' : purge_with_ttl b k ttl s = (Ok tt, s') -> written value_at b k None s s';
  purge_ttl_err b k ttl s e s' : purge_with_ttl b k ttl s = (Err e, s') -> same value_at s s';
  info_law b p s l : info_with_subjects b (p ++ ">") s = Ok l -> l <> [] <-> has_message rev_at b p s;
  watch_law b p s items ended : watch_with_history b (p ++ ">") s = Ok (items, ended) -> has_message rev_at b p s ->
    exists es, replay value_at rev_at b p s es /\ delivers items es;
  no_message_law b k s : rev_at b k s = None -> value_at b k s = None
}.

Section nats_laws.
Context {V S Bytes : Type} `{Nats S Bytes} {text : MemoryText} {chrono : Chrono}
  `{!Codec (PersistentJobRecord V) Bytes} `{!Codec BrokerLeaseRecord Bytes} `{!Codec Z Bytes}
  `{!Codec UserLimitEntry Bytes}.
Context {value_at : string -> string -> S -> option (Bytes * Z)} {rev_at : string -> string -> S -> option Z}
  `{!NatsLaws S Bytes value_at rev_at}.
Context (env : nat -> S -> S) (elapsed : nat -> bool).
Context (others : S -> S -> Prop) (Henv : forall k s, others s (env k s)).

(** Others act, or no value changes. *)
Definition elsewhere (s s' : S) : Prop := others s s' \/ same value_at s s'.

Definition same_config (n n' : NatsStore) : Prop := n' = n \/ n' = with_stores n.

(** What an operation that writes nothing itself does to a session. *)
Definition moves (w w' : Session S) : Prop :=
  same_config w.(nats) w'.(nats) /\ rtc elsewhere w.(cluster) w'.(cluster).

#[export] Instance moves_preorder : PreOrder moves.
Proof.
  split.
  - intros w. split; [by left|done].
  - intros w1 w2 w3 [Hc1 Hr1] [Hc2 Hr2]. split; [|by etrans].
    destruct Hc1 as [E1|E1], Hc2 as [E2|E2]; rewrite E2, E1; [left|right..]; done.
Qed.

Definition quiet {E A} (m : M S E A) : Prop := forall w r w', m w = (r, w') -> moves w w'.

Lemma quiet_ret {E A} (a : A) : quiet (E:=E) (ret a).
Proof. by intros w r w' [= <- <-]. Qed.
Lemma quiet_fail {E A} (e : E) : quiet (A:=A) (fail e).
Proof. by intros w r w' [= <- <-]. Qed.
Lemma quiet_of_result {E A} (x : result E A) : quiet (of_result x).
Proof. by intros w r w' [= <- <-]. Qed.
Lemma quiet_get_nats {E} : quiet (E:=E) get_nats.
Proof. by intros w r w' [= <- <-]. Qed.
Lemma quiet_bind {E A B} (m : M S E A) (k : A -> M S E B) : quiet m -> (forall a, quiet (k a)) -> quiet (bind m k).
Proof.
  intros Hm Hk w r w'. unfold bind. destruct (m w) as [[a|e] w1] eqn:Hmw.
  - intros Hkw. etrans; [by eapply Hm|by eapply Hk].
  - intros [= <- <-]. by eapply Hm.
Qed.
Lemma quiet_map_fail {E F A} (f : E -> F) (m : M S E A) : quiet m -> quiet (map_fail f m).
Proof. intros Hm w r w'. unfold map_fail. destruct (m w) eqn:Hmw. intros [= <- <-]. by eapply Hm. Qed.
Lemma quiet_or_else {E F A} (m : M S E A) (h : E -> M S F A) : quiet m -> (forall e, quiet (h e)) -> quiet (or_else m h).
Proof.
  intros Hm Hh w r w'. unfold or_else. destruct (m w) as [[a|e] w1] eqn:Hmw.
  - intros [= <- <-]. by eapply Hm.
  - intros Hkw. etrans; [by eapply Hm|by eapply Hh].
Qed.
Lemma quiet_request {E A} (f : S -> result E A * S) :
  (forall s r s', f s = (r, s') -> same value_at s s') -> quiet (request env f).
Proof.
  intros Hf w r w'. unfold request. destruct (f _) as [x s] eqn:Hfs. intros [= <- <-]. split; [by left|]. simpl.
  apply (rtc_l _ _ (env w.(turn) w.(cluster))); [by left|]. apply rtc_once. right. by eapply Hf.
Qed.
Lemma quiet_query {E A} (f : S -> result E A) : quiet (query env f).
Proof. apply quiet_request. intros s r s' [= <- <-]. apply same_refl. Qed.
Lemma quiet_timed {E A} (f : S -> result E A * S) :
  (forall s r s', f s = (r, s') -> same value_at s s') -> quiet (timed env elapsed f).
Proof.
  intros Hf w r w'. unfold timed. destruct (elapsed _).
  - intros [= <- <-]. split; [by left|]. apply rtc_once. left. apply Henv.
  - by apply quiet_map_fail, quiet_request.
Qed.
Lemma quiet_bucket c : quiet (get_or_create_bucket env elapsed c).
Proof.
  apply quiet_bind; [|intros; apply quiet_ret]. apply quiet_or_else; [apply quiet_timed, create_bucket_law|].
  intros [|e]; [apply quiet_fail|]. apply quiet_or_else; [apply quiet_timed, update_bucket_law|].
  intros [|e']; [apply quiet_fail|]. apply quiet_or_else; [apply quiet_timed; intros s r s' [= <- <-]; apply same_refl|].
  intros [|e'']; apply quiet_fail.
Qed.

Lemma quiet_init n : quiet (init_stores env elapsed n).
Proof.
  apply quiet_bind; [apply quiet_map_fail, quiet_timed; intros s r s' [= <- <-]; apply same_refl|].
  intros _. repeat (apply quiet_bind; [apply quiet_map_fail, quiet_bucket|intros _]). apply quiet_ret.
Qed.

Lemma stores_spec w r w' :
  stores env elapsed w = (r, w') -> moves w w' /\ match r with Ok n => n = w'.(nats) | Err _ => True end.
Proof.
  unfold stores, bind, get_nats, ret, put_nats. destruct (stores_set w.(nats)) eqn:Hset.
  { by intros [= <- <-]. }
  destruct (map_fail _ _ w) as [[[]|e] w1] eqn:Hi.
  - apply quiet_map_fail in Hi as [Hc Hr]; [|by apply quiet_init]. intros [= <- <-]. split; [|done].
    split; [by right|done].
  - intros [= <- <-]. split; [|done]. eapply quiet_map_fail; [by apply quiet_init|done].
Qed.

Lemma jobs_bucket_same n n' : same_config n n' -> n'.(jobs_bucket) = n.(jobs_bucket).
Proof. by intros [-> | ->]. Qed.
Lemma user_limits_bucket_same n n' : same_config n n' -> n'.(user_limits_bucket) = n.(user_limits_bucket).
Proof. by intros [-> | ->]. Qed.

Lemma jobs_spec w r w' :
  jobs env elapsed w = (r, w') -> moves w w' /\ match r with Ok b => b = w.(nats).(jobs_bucket) | Err _ => True end.
Proof.
  unfold jobs, bind. destruct (stores env elapsed w) as [[n|e] w1] eqn:Hs; apply stores_spec in Hs as [Hm Hn];
    intros [= <- <-]; split; try done. subst n. by apply jobs_bucket_same, Hm.
Qed.

Lemma quiet_jobs : quiet (jobs env elapsed).
Proof. intros w r w' Hj. by apply jobs_spec in Hj as [Hm _]. Qed.

(** ** Jobs *)

Definition decoded {A} `{!Codec A Bytes} (o : option (Bytes * Z)) : option A :=
  o ≫= fun '(v, _) => match deserialize v with Ok a => Some a | Err _ => None end.

Definition job_at (b job_id : string) (s : S) : option (PersistentJobRecord V) :=
  match job_key job_id with Ok key => decoded (value_at b key s) | Err _ => None end.

Lemma nats_decoded_serialize {A} `{!Codec A Bytes} (a : A) v r : serialize a = Ok v -> decoded (Some (v, r)) = Some a.
Proof. intros Hs. unfold decoded. simpl. by rewrite (deserialize_serialize _ _ Hs). Qed.

Lemma nats_job_key_inj id1 id2 k : job_key id1 = Ok k -> job_key id2 = Ok k -> id1 = id2.
Proof. unfold job_key. solve_key_inj. Qed.

Lemma job_at_written b jid key o s s' :
  job_key jid = Ok key -> written value_at b key o s s' ->
  forall id, job_at b id s' = if decide (id = jid) then decoded o else job_at b id s.
Proof.
  intros Hk Hw id. unfold job_at. case_decide as Hid.
  - subst. rewrite Hk, Hw. by rewrite decide_True.
  - destruct (job_key id) as [key'|] eqn:Hk'; [|done]. rewrite Hw, decide_False; [done|].
    intros [_ ->]. by apply Hid, (nats_job_key_inj _ _ _ Hk').
Qed.

Lemma nats_job_at_same b s s' : same value_at s s' -> forall id, job_at b id s' = job_at b id s.
Proof. intros Hs id. unfold job_at. case_match; [by rewrite Hs|done]. Qed.

Lemma live_entry_spec b k s o :
  entry b k s = Ok o ->
  value_at b k s = (fun e => (e.(value), e.(revision))) <$> live_entry o /\
  forall e, live_entry o = Some e -> rev_at b k s = Some e.(revision).
Proof.
  intros He. apply entry_law in He. destruct o as [e|]; simpl; [|by destruct He].
  destruct He as [<- [Hr ->]]. destruct (is_put _); split; naive_solver.
Qed.

(** Others do not reuse a revision: as long as the last message on a key has
    the same revision, its value is the same. *)
Context (Hfresh : forall s s' b k r, others s s' ->
  rev_at b k s = Some r -> rev_at b k s' = Some r -> value_at b k s' = value_at b k s).

(** Someone else wrote the key in between two requests. *)
Definition raced (b key : string) : Prop := exists k s, rev_at b key (env k s) <> rev_at b key s.

(** What an atomic claim does. *)
Definition claim_effect (b jid expected claimant : string) (s0 s' : S) (c : ClaimResult V) : Prop :=
  c = (claim_spec expected claimant (job_at b jid s0)).1 /\
  forall id, job_at b id s' = if decide (id = jid) then (claim_spec expected claimant (job_at b jid s0)).2
                              else job_at b id s0.

Lemma claim_effect_read b jid expected claimant s c :
  claim_spec expected claimant (job_at b jid s) = (c, job_at b jid s) ->
  claim_effect b jid expected claimant s s c.
Proof. intros Hc. unfold claim_effect. rewrite Hc. split; [done|]. intros id. by case_decide; subst. Qed.

(** An early return after the request that left the cluster at [s]. *)
Ltac stop_at s := intros [= <- <-]; split; [done|]; exists s; split; [done|apply same_refl].

Lemma claim_turn_spec b key jid expected claimant w r w' :
  job_key jid = Ok key ->
  claim_turn env b key expected claimant w = (r, w') ->
  w'.(nats) = w.(nats) /\ exists s0, rtc elsewhere w.(cluster) s0 /\
  match r with
  | Ok (Some c) => claim_effect b jid expected claimant s0 w'.(cluster) c
  | Ok None => same value_at s0 w'.(cluster) /\ raced b key
  | Err _ => same value_at s0 w'.(cluster)
  end.
Proof.
  intros Hk. unfold claim_turn, bind, map_fail, query, request. set (s1 := env w.(turn) w.(cluster)).
  assert (rtc elsewhere w.(cluster) s1) as Hs1 by (apply rtc_once; left; apply Henv).
  assert (forall s, job_at b jid s = decoded (value_at b key s)) as Hj by (intros s; unfold job_at; by rewrite Hk).
  destruct (entry b key s1) as [o|] eqn:He; simpl; [|stop_at s1].
  apply live_entry_spec in He as [Hv Hr].
  destruct (live_entry o) as [e|]; simpl in Hv.
  2: { intros [= <- <-]. split; [done|]. exists s1. split; [done|]. apply (claim_effect_read _ _ _ _ s1). by rewrite !Hj, Hv. }
  specialize (Hr _ eq_refl). unfold of_result. destruct (deserialize e.(value)) as [rec|] eqn:Hd; [|stop_at s1].
  assert (job_at b jid s1 = Some rec) as Hrec by (rewrite Hj, Hv; unfold decoded; simpl; by rewrite Hd).
  destruct (String.eqb_spec (rec_broker_id rec) claimant) as [Hcl|Hcl].
  { intros [= <- <-]. split; [done|]. exists s1. split; [done|]. apply (claim_effect_read _ _ _ _ s1).
    rewrite Hrec. simpl. by rewrite decide_True. }
  destruct (String.eqb_spec (rec_broker_id rec) expected) as [Hex|Hex]; simpl.
  2: { intros [= <- <-]. split; [done|]. exists s1. split; [done|]. apply (claim_effect_read _ _ _ _ s1).
       rewrite Hrec. simpl. by rewrite !decide_False. }
  destruct (serialize _) as [v|] eqn:Hs; [|stop_at s1].
  unfold or_else. simpl. set (s2 := env _ s1).
  assert (others s1 s2) as Ho by apply Henv.
  assert (rtc elsewhere w.(cluster) s2) as Hs2 by (etrans; [exact Hs1|apply rtc_once; by left]).
  destruct (update b key v e.(revision) s2) as [[q|[|err]] s3] eqn:Hu; simpl; intros [= <- <-]; (split; [done|]); exists s2;
    (split; [done|]); simpl.
  - apply update_law in Hu as [Hrev Hw]. pose proof (Hfresh _ _ _ _ _ Ho Hr Hrev) as Hsame.
    assert (job_at b jid s2 = Some rec) as Hrec2 by (rewrite Hj, Hsame, <- Hj; done).
    unfold claim_effect. rewrite Hrec2. simpl. rewrite decide_False, decide_True by done. split; [done|].
    intros id. rewrite (job_at_written _ _ _ _ _ _ Hk Hw), (nats_decoded_serialize _ _ _ Hs). done.
  - apply update_err in Hu as [Hu Hne]. split; [done|]. eexists _, s1. rewrite Hr. by apply Hne.
  - by apply update_err in Hu as [Hu _].
Qed.

Lemma elsewhere_same s0 s s' : rtc elsewhere s0 s -> same value_at s s' -> rtc elsewhere s0 s'.
Proof. intros Hr Hs. etrans; [exact Hr|]. apply rtc_once. by right. Qed.

Lemma claim_turns_spec n b key jid expected claimant w r w' :
  job_key jid = Ok key ->
  claim_turns env n b key expected claimant w = (r, w') ->
  w'.(nats) = w.(nats) /\ exists s0, rtc elsewhere w.(cluster) s0 /\
  match r with
  | Ok (Some c) => claim_effect b jid expected claimant s0 w'.(cluster) c
  | Ok None => same value_at s0 w'.(cluster) /\ (n <> 0%nat -> raced b key)
  | Err _ => same value_at s0 w'.(cluster)
  end.
Proof.
  intros Hk. revert w; induction n as [|n IH]; intros w; cbn [claim_turns].
  { unfold ret. intros [= <- <-]. split; [done|]. exists w.(cluster). split; [done|]. split; [apply same_refl|done]. }
  unfold bind. destruct (claim_turn env b key expected claimant w) as [[[c|]|e] w1] eqn:Ht;
    apply (claim_turn_spec _ _ _ _ _ _ _ _ Hk) in Ht as (Hn1 & s0 & Hs0 & Hout).
  - intros [= <- <-]. split; [done|]. by exists s0.
  - destruct Hout as [Hsame Hrace]. intros (Hn2 & s2 & Hs2 & Hout)%IH. split; [congruence|].
    exists s2. split; [etrans; [by eapply elsewhere_same|done]|].
    destruct r as [[c|]|e]; [done| |done]. split; [apply Hout|by intros _].
  - intros [= <- <-]. split; [done|]. by exists s0.
Qed.

(** After the lost races the stored owner is reported, even if it is still the
    one that was expected. *)
Definition claim_reported (b jid claimant : string) (s0 s' : S) (c : ClaimResult V) : Prop :=
  c = match job_at b jid s0 with
      | None => NotFound
      | Some r => if decide (r.(rec_broker_id) = claimant) then Claimed r else Active r.(rec_broker_id)
      end /\
  same value_at s0 s'.

Lemma claim_refreshed_spec b key jid claimant w r w' :
  job_key jid = Ok key ->
  claim_refreshed env b key claimant w = (r, w') ->
  w'.(nats) = w.(nats) /\ exists s0, rtc elsewhere w.(cluster) s0 /\
  match r with
  | Ok c => claim_reported b jid claimant s0 w'.(cluster) c
  | Err _ => same value_at s0 w'.(cluster)
  end.
Proof.
  intros Hk. unfold claim_refreshed, bind, map_fail, query, request. set (s1 := env w.(turn) w.(cluster)).
  assert (rtc elsewhere w.(cluster) s1) as Hs1 by (apply rtc_once; left; apply Henv).
  assert (job_at b jid s1 = decoded (value_at b key s1)) as Hj by (unfold job_at; by rewrite Hk).
  destruct (entry b key s1) as [o|] eqn:He; simpl; [|stop_at s1].
  apply live_entry_spec in He as [Hv _]. destruct (live_entry o) as [e|]; simpl in Hv.
  - unfold of_result. destruct (deserialize e.(value)) as [rec|] eqn:Hd; [|stop_at s1].
    assert (job_at b jid s1 = Some rec) as Hrec by (rewrite Hj, Hv; unfold decoded; simpl; by rewrite Hd).
    destruct (String.eqb_spec (rec_broker_id rec) claimant); intros [= <- <-]; (split; [done|]); exists s1;
      (split; [done|]); split; try apply same_refl; rewrite Hrec; [by rewrite decide_True|by rewrite decide_False].
  - intros [= <- <-]. split; [done|]. exists s1. split; [done|]. split; [|apply same_refl]. by rewrite Hj, Hv.
Qed.

Lemma claim_if_owner_spec jid expected claimant w r w' :
  let b := w.(nats).(jobs_bucket) in
  claim_if_owner_nats env elapsed jid expected claimant w = (r, w') ->
  same_config w.(nats) w'.(nats) /\ exists s0, rtc elsewhere w.(cluster) s0 /\
  match r with
  | Ok c => claim_effect b jid expected claimant s0 w'.(cluster) c \/
            (exists key, job_key jid = Ok key /\ raced b key) /\ claim_reported b jid claimant s0 w'.(cluster) c
  | Err _ => same value_at s0 w'.(cluster)
  end.
Proof.
  intros b. unfold claim_if_owner_nats. unfold bind at 1, of_result.
  destruct (job_key jid) as [key|] eqn:Hk; [|intros [= <- <-]; split; [by left|]; by exists w.(cluster)].
  unfold bind at 1. destruct (jobs env elapsed w) as [[b'|e] w1] eqn:Hj; apply jobs_spec in Hj as [[Hc Hr1] Hb'].
  2: { intros [= <- <-]. split; [done|]. by exists w1.(cluster). }
  subst b'. fold b. unfold bind.
  destruct (claim_turns _ _ _ _ _ _ w1) as [[[c|]|e] w2] eqn:Ht;
    apply (claim_turns_spec _ _ _ _ _ _ _ _ _ Hk) in Ht as (Hn & s0 & Hs0 & Hout).
  - intros [= <- <-]. split; [by rewrite Hn|]. exists s0. split; [by etrans|by left].
  - destruct Hout as [Hsame Hrace].
    intros (Hn' & s1 & Hs1 & Hout)%(claim_refreshed_spec _ _ _ _ _ _ _ Hk).
    split; [by rewrite Hn', Hn|]. exists s1.
    split; [etrans; [done|]; etrans; [by eapply elsewhere_same|done]|].
    destruct r; [right|done]. split; [|done]. exists key. split; [done|]. by apply Hrace.
  - intros [= <- <-]. split; [by rewrite Hn|]. exists s0. split; [by etrans|done].
Qed.

Lemma purge_expiring_spec b key ttl w r w' :
  purge_expiring env b key ttl w = (r, w') ->
  w'.(nats) = w.(nats) /\ exists s0, rtc elsewhere w.(cluster) s0 /\
  match r with Ok _ => written value_at b key None s0 w'.(cluster) | Err _ => same value_at s0 w'.(cluster) end.
Proof.
  unfold purge_expiring, or_else, map_fail, request. set (s1 := env w.(turn) w.(cluster)).
  assert (rtc elsewhere w.(cluster) s1) as Hs1 by (apply rtc_once; left; apply Henv).
  destruct (purge_with_ttl b key ttl s1) as [[[]|e] s2] eqn:Hp.
  { intros [= <- <-]. split; [done|]. exists s1. split; [done|]. by eapply purge_ttl_law. }
  apply purge_ttl_err in Hp. simpl. set (s3 := env _ s2).
  assert (rtc elsewhere w.(cluster) s3) as Hs3
    by (etrans; [by eapply elsewhere_same|apply rtc_once; left; apply Henv]).
  destruct (purge b key s3) as [[[]|e'] s4] eqn:Hp'; intros [= <- <-]; (split; [done|]); exists s3; (split; [done|]); simpl.
  - by eapply purge_law.
  - by eapply purge_err.
Qed.

Lemma upsert_job_spec record w r w' :
  upsert_job_nats env elapsed record w = (r, w') ->
  same_config w.(nats) w'.(nats) /\ exists s0, rtc elsewhere w.(cluster) s0 /\
  match r with
  | Ok _ => forall id, job_at w.(nats).(jobs_bucket) id w'.(cluster) =
              if decide (id = record.(rec_job_id)) then Some record else job_at w.(nats).(jobs_bucket) id s0
  | Err _ => same value_at s0 w'.(cluster)
  end.
Proof.
  unfold upsert_job_nats. unfold bind at 1, of_result.
  destruct (job_key _) as [key|] eqn:Hk; [|intros [= <- <-]; split; [by left|]; by exists w.(cluster)].
  unfold bind at 1. destruct (serialize record) as [v|] eqn:Hs; [|intros [= <- <-]; split; [by left|]; by exists w.(cluster)].
  unfold bind at 1. destruct (jobs env elapsed w) as [[b|e] w1] eqn:Hj; apply jobs_spec in Hj as [[Hc Hr1] Hb].
  2: { intros [= <- <-]. split; [done|]. by exists w1.(cluster). }
  subst b. unfold bind, map_fail, request, ret. set (s1 := env w1.(turn) w1.(cluster)).
  assert (rtc elsewhere w.(cluster) s1) as Hs1 by (etrans; [exact Hr1|apply rtc_once; left; apply Henv]).
  destruct (put _ key v s1) as [[q|e] s2] eqn:Hp; intros [= <- <-]; (split; [done|]); exists s1; (split; [done|]); simpl.
  - apply put_law in Hp. intros id. rewrite (job_at_written _ _ _ _ _ _ Hk Hp). by rewrite (nats_decoded_serialize _ _ _ Hs).
  - by apply put_err in Hp.
Qed.

Lemma delete_job_spec job_id w r w' :
  delete_job_nats env elapsed job_id w = (r, w') ->
  same_config w.(nats) w'.(nats) /\ exists s0, rtc elsewhere w.(cluster) s0 /\
  match r with
  | Ok _ => forall id, job_at w.(nats).(jobs_bucket) id w'.(cluster) =
              if decide (id = job_id) then None else job_at w.(nats).(jobs_bucket) id s0
  | Err _ => same value_at s0 w'.(cluster)
  end.
Proof.
  unfold delete_job_nats. unfold bind at 1, of_result.
  destruct (job_key _) as [key|] eqn:Hk; [|intros [= <- <-]; split; [by left|]; by exists w.(cluster)].
  unfold bind. destruct (stores env elapsed w) as [[n|e] w1] eqn:Hs; apply stores_spec in Hs as [[Hc Hr1] Hn].
  2: { intros [= <- <-]. split; [done|]. by exists w1.(cluster). }
  subst n. rewrite (jobs_bucket_same _ _ Hc).
  intros (Hn & s0 & Hs0 & Hout)%purge_expiring_spec. split; [by rewrite Hn|]. exists s0. split; [by etrans|].
  destruct r; [|done]. intros id. by rewrite (job_at_written _ _ _ _ _ _ Hk Hout).
Qed.

(** C14. A claim on NATS, with other brokers acting before each of its requests: an
    answer is the atomic compare-and-set of [claim_spec] at one state of the
    run, or, after lost races only, the owner stored at that state with nothing
    changed; so a claim that succeeds over another owner did it in one instant,
    and a claim that fails changed no record itself. *)
Theorem nats_claim_linearizable jid expected claimant w r w' :
  let b := w.(nats).(jobs_bucket) in
  claim_if_owner_nats env elapsed jid expected claimant w = (r, w') ->
  exists s0, rtc elsewhere w.(cluster) s0 /\
  match r with
  | Ok c => claim_effect b jid expected claimant s0 w'.(cluster) c \/
            (exists key, job_key jid = Ok key /\ raced b key) /\ claim_reported b jid claimant s0 w'.(cluster) c
  | Err _ => same value_at s0 w'.(cluster)
  end.
Proof. intros b Hc. by apply claim_if_owner_spec in Hc as [_ Hc]. Qed.

(** ** Broker slots *)

Definition counter_at (b key : string) (s : S) : Z := default 0 (decoded (value_at b key s)).

(** The counter of [key] goes from [n] to [n + 1] and nothing else changes. *)
Definition counted (b key : string) (n : Z) (s0 s' : S) : Prop :=
  n = counter_at b key s0 /\ n <= u16_max /\ counter_at b key s' = n + 1 /\
  forall b' k', ~ (b' = b /\ k' = key) -> value_at b' k' s' = value_at b' k' s0.

Lemma counted_written b key n v q s0 s' :
  written value_at b key (Some (v, q)) s0 s' -> serialize (n + 1) = Ok v ->
  n = counter_at b key s0 -> n <= u16_max -> counted b key n s0 s'.
Proof.
  intros Hw Hs Hn Hmax. split; [done|]. split; [done|]. split.
  - unfold counter_at. by rewrite Hw, decide_True, (nats_decoded_serialize _ _ _ Hs).
  - intros b' k' Hk. by rewrite Hw, decide_False.
Qed.

(** A write that is checked against what [s1] held: either the counter moves,
    or the race is lost or the request fails with nothing changed. *)
Definition counted_or_same (b key : string) (s0 s' : S) (r : result DbError (option Z)) : Prop :=
  match r with Ok (Some n) => counted b key n s0 s' | _ => same value_at s0 s' end.

Lemma allocate_turn_spec b key site_tag env_tag w r w' :
  allocate_turn env key site_tag env_tag b w = (r, w') ->
  w'.(nats) = w.(nats) /\ exists s0, rtc elsewhere w.(cluster) s0 /\ counted_or_same b key s0 w'.(cluster) r.
Proof.
  unfold allocate_turn, bind, map_fail, query, request. set (s1 := env w.(turn) w.(cluster)).
  assert (rtc elsewhere w.(cluster) s1) as Hs1 by (apply rtc_once; left; apply Henv).
  destruct (entry b key s1) as [o|] eqn:He; simpl; [|stop_at s1].
  assert (forall k, rtc elsewhere w.(cluster) (env k s1)) as Hs2
    by (intros k; etrans; [exact Hs1|apply rtc_once; left; apply Henv]).
  apply entry_law in He as He'. unfold of_result, or_else. destruct o as [e|].
  2: { destruct (serialize 1) as [v|] eqn:Hs; simpl; [|stop_at s1].
       destruct (create b key v _) as [[q|[|]] s3] eqn:Hc; simpl; intros [= <- <-]; (split; [done|]);
         eexists; (split; [apply Hs2|]); simpl; try by apply create_err in Hc as [Hc _].
       apply create_law in Hc as [Hnone Hw]. eapply counted_written; try done. unfold counter_at. by rewrite Hnone. }
  destruct He' as [Hkey [Hrev Hv]]. rewrite Hkey in Hrev, Hv.
  assert (forall k v n q s3, update b key v e.(revision) (env k s1) = (Ok q, s3) ->
            serialize (n + 1) = Ok v -> n <= u16_max ->
            n = default 0 (decoded (value_at b key s1)) -> counted b key n (env k s1) s3) as Hup.
  { intros k v n q s3 Hu Hs Hmax Hn. apply update_law in Hu as [Hrev2 Hw]. eapply counted_written; try done.
    unfold counter_at. by rewrite (Hfresh _ _ _ _ _ (Henv k s1) Hrev Hrev2). }
  destruct (is_put e.(operation)); simpl.
  - destruct (deserialize e.(value)) as [n|] eqn:Hd; simpl; [|stop_at s1].
    destruct (Z.ltb_spec u16_max n); [unfold fail; stop_at s1|].
    destruct (serialize (n + 1)) as [v|] eqn:Hs; simpl; [|stop_at s1].
    destruct (update b key v _ _) as [[q|[|]] s3] eqn:Hu; simpl; intros [= <- <-]; (split; [done|]);
      eexists; (split; [apply Hs2|]); simpl; try by apply update_err in Hu as [Hu _].
    eapply Hup; try done. unfold decoded. rewrite Hv. simpl. by rewrite Hd.
  - destruct (serialize 1) as [v|] eqn:Hs; simpl; [|stop_at s1].
    destruct (update b key v _ _) as [[q|[|]] s3] eqn:Hu; simpl; intros [= <- <-]; (split; [done|]);
      eexists; (split; [apply Hs2|]); simpl; try by apply update_err in Hu as [Hu _].
    eapply Hup; try done. by rewrite Hv.
Qed.

(** A slot is handed out once on NATS: whatever others do between the
    requests, an allocation that answers slot [n] moved the counter from [n] to
    [n + 1] at one instant, from an absent or deleted counter as from a live
    one, and [n] fits 16 bits; one that fails wrote nothing. *)
Theorem nats_allocate_linearizable fuel site_tag env_tag w r w' :
  let b := w.(nats).(jobs_bucket) in
  let key := broker_slot_counter_key site_tag env_tag in
  allocate_nats_broker_slot env elapsed fuel site_tag env_tag w = Some (r, w') ->
  exists s0, rtc elsewhere w.(cluster) s0 /\
  match r with
  | Ok n => counted b key n s0 w'.(cluster)
  | Err _ => same value_at s0 w'.(cluster)
  end.
Proof.
  intros b key. unfold allocate_nats_broker_slot.
  destruct (jobs env elapsed w) as [[b'|e] w1] eqn:Hj; apply jobs_spec in Hj as [[_ Hr] Hb].
  2: { intros [= <- <-]. by exists w1.(cluster). }
  subst b'. fold b key. intros Hloop.
  assert (exists s0, rtc elsewhere w1.(cluster) s0 /\
          match r with Ok n => counted b key n s0 w'.(cluster) | Err _ => same value_at s0 w'.(cluster) end)
    as (s0 & Hs0 & Hout); [|exists s0; split; [by etrans|done]].
  clear Hr. revert w1 Hloop. induction fuel as [|fuel IH]; intros w1; [done|]. cbn [allocate_loop].
  destruct (allocate_turn env key site_tag env_tag b w1) as [[[n|]|e] w2] eqn:Ht;
    apply allocate_turn_spec in Ht as (_ & s0 & Hs0 & Hout).
  - intros [= <- <-]. by exists s0.
  - intros (s2 & Hs2 & Hout2)%IH. exists s2. split; [etrans; [by eapply elsewhere_same|done]|done].
  - intros [= <- <-]. by exists s0.
Qed.

(** ** Scans *)

(** No last message of a key goes away between two requests. *)
Definition no_expiry : Prop := forall k s b key, is_Some (rev_at b key s) -> is_Some (rev_at b key (env k s)).

Lemma scan_loop_delivers (items : list (result string (Entry Bytes))) es ended out :
  delivers items es ->
  scan_loop items ended out = Some (Ok (rev out ++ es)) \/ exists e, scan_loop items ended out = Some (Err e).
Proof.
  intros (before & last & -> & Hlast & Hbefore & Hitems).
  assert (forall rest (pre out : list (Entry Bytes)), Forall (fun e => e.(seen_current) = false) pre ->
    scan_loop ((Ok <$> pre) ++ rest) ended out = scan_loop rest ended (rev pre ++ out)) as Hskip.
  { intros rest pre. induction pre as [|x pre IH]; intros out' Hpre; [done|]. inversion Hpre as [|?? Hx Hpre']; subst.
    cbn. rewrite Hx. rewrite IH by done. by rewrite <- app_assoc. }
  destruct Hitems as [[rest ->]|(n & err & rest & ->)].
  - left. rewrite Hskip by done. cbn. rewrite Hlast. by rewrite rev_app_distr, rev_involutive, app_assoc.
  - right. rewrite Hskip by (by apply Forall_take). cbn. by eexists.
Qed.

(** A scan reports the state at one instant; it returns unless messages expire
    between its two requests. *)
Lemma scan_spec b p w :
  no_expiry -> exists r w', scan_current_entries env b (p ++ ">") w = Some (r, w') /\
    w'.(nats) = w.(nats) /\ rtc elsewhere w.(cluster) w'.(cluster) /\
    match r with Ok es => replay value_at rev_at b p w'.(cluster) es | Err _ => True end.
Proof.
  intros Hkeep. unfold scan_current_entries, map_fail, query, request. simpl. set (s1 := env w.(turn) w.(cluster)).
  assert (rtc elsewhere w.(cluster) s1) as Hs1 by (apply rtc_once; left; apply Henv).
  destruct (info_with_subjects b (p ++ ">") s1) as [l|e] eqn:Hi; simpl; [|by eexists _, _].
  apply info_law in Hi. destruct l as [|x l].
  - eexists _, _. split; [done|]. split; [done|]. split; [done|]. simpl. split; [constructor|]. split; [constructor|].
    intros k Hp Hk. exfalso. by apply Hi; [exists k|].
  - destruct Hi as [Hi _]. destruct (Hi ltac:(done)) as (k & Hp & Hk). set (s2 := env _ s1).
    assert (rtc elsewhere w.(cluster) s2) as Hs2 by (etrans; [exact Hs1|apply rtc_once; left; apply Henv]).
    destruct (watch_with_history b (p ++ ">") s2) as [[items ended]|e] eqn:Hw; simpl; [|by eexists _, _].
    apply watch_law in Hw as (es & Hes & Hdel); [|exists k; split; [done|by apply Hkeep]].
    destruct (scan_loop_delivers _ _ ended [] Hdel) as [-> | [e ->]]; by eexists _, _.
Qed.

Lemma decode_puts_spec {A} `{!Codec A Bytes} es (l : list (Entry Bytes * A)) :
  decode_puts es = Ok l ->
  l.*1 = filter (fun e => is_put e.(operation) = true) es /\
  Forall (fun '(e, a) => deserialize e.(value) = Ok a) l.
Proof.
  revert l; induction es as [|e es IH]; intros l; simpl; [by intros [= <-]|].
  rewrite filter_cons. case_decide as Hput.
  - rewrite Hput. destruct (deserialize e.(value)) as [a|] eqn:Hd; [|done].
    destruct (decode_puts es) as [l'|]; [|done]. intros [= <-]. destruct (IH _ eq_refl) as [Hl Hf].
    split; [by rewrite fmap_cons, Hl|by constructor].
  - apply not_true_is_false in Hput. rewrite Hput. apply IH.
Qed.

(** A live key under the prefix is replayed as a put, and a replayed put is
    live. *)
Lemma live_replayed b p s es k v q :
  replay value_at rev_at b p s es -> String.prefix p k = true -> value_at b k s = Some (v, q) ->
  exists e, e ∈ filter (fun e => is_put e.(operation) = true) es /\ e.(key) = k /\ e.(value) = v /\ e.(revision) = q.
Proof.
  intros (_ & Hes & Hall) Hp Hv. rewrite Forall_forall in Hes.
  assert (k ∈ key <$> es) as (e & -> & He)%list_elem_of_fmap.
  { apply Hall; [done|]. destruct (rev_at b k s) eqn:Hr; [by eexists|]. by rewrite (no_message_law _ _ _ Hr) in Hv. }
  exists e. destruct (Hes _ He) as [_ [_ Hcur]]. rewrite Hcur in Hv.
  destruct (is_put e.(operation)) eqn:Hput; [|done]. injection Hv as <- <-. by rewrite list_elem_of_filter.
Qed.

Lemma replayed_live b p s es e :
  replay value_at rev_at b p s es -> e ∈ filter (fun e => is_put e.(operation) = true) es ->
  String.prefix p e.(key) = true /\ value_at b e.(key) s = Some (e.(value), e.(revision)).
Proof.
  intros (_ & Hes & _) [Hput He]%list_elem_of_filter. rewrite Forall_forall in Hes.
  destruct (Hes _ He) as [Hp [_ Hv]]. by rewrite Hput in Hv.
Qed.

(** What was deserialised is what was replayed as a put. *)
Lemma decoded_puts {A} `{!Codec A Bytes} es (l : list (Entry Bytes * A)) :
  decode_puts es = Ok l ->
  (forall e a, (e, a) ∈ l -> e ∈ filter (fun e => is_put e.(operation) = true) es /\ deserialize e.(value) = Ok a) /\
  (forall e a, e ∈ filter (fun e => is_put e.(operation) = true) es -> deserialize e.(value) = Ok a -> (e, a) ∈ l).
Proof.
  intros [Hfst Hdes]%decode_puts_spec. rewrite Forall_forall in Hdes. rewrite <- Hfst. split.
  - intros e a Hin. split; [apply list_elem_of_fmap; by exists (e, a)|]. exact (Hdes _ Hin).
  - intros e a ([e' a'] & He & Hin)%list_elem_of_fmap Hd. simpl in He. subst e'.
    pose proof (Hdes _ Hin) as Hd'. simpl in Hd'. by assert (a' = a) as -> by congruence.
Qed.

(** ** User slots *)

(** The slot of a job as the bucket has it, numbered by its revision. *)
Definition slot_at (b scope user job_id : string) (s : S) : option UserLimitEntry :=
  '(v, q) ← value_at b (user_slot_key scope user job_id) s;
  match deserialize v with Ok e => Some (with_seq q e) | Err _ => None end.

(** Every slot is stored under the key its own fields make. *)
Definition slots_wf (b : string) (s : S) : Prop := forall k v q,
  value_at b k s = Some (v, q) -> String.prefix "ul." k = true ->
  exists e, deserialize v = Ok e /\ k = user_slot_key e.(ul_scope) e.(ul_user) e.(ul_job_id).

Lemma user_limits_spec w r w' :
  user_limits env elapsed w = (r, w') ->
  moves w w' /\ match r with Ok b => b = w.(nats).(user_limits_bucket) | Err _ => True end.
Proof.
  unfold user_limits, bind. destruct (stores env elapsed w) as [[n|e] w1] eqn:Hs; apply stores_spec in Hs as [Hm Hn];
    intros [= <- <-]; split; try done. subst n. by apply user_limits_bucket_same, Hm.
Qed.

Lemma prefix_ul scope user k :
  String.prefix (user_slot_prefix scope user) k = true -> String.prefix "ul." k = true.
Proof. rewrite !prefix_app. intros [r ->]. unfold user_slot_prefix. rewrite <- string_app_assoc. by eexists. Qed.

(** The live messages under a user's prefix are that user's slots. *)
Lemma replayed_slots b scope user s es (l : list (Entry Bytes * UserLimitEntry)) :
  slots_wf b s -> replay value_at rev_at b (user_slot_prefix scope user) s es -> decode_puts es = Ok l ->
  Forall (fun '(e, a) => e.(key) = user_slot_key scope user a.(ul_job_id) /\ a.(ul_scope) = scope /\
            a.(ul_user) = user /\ value_at b e.(key) s = Some (e.(value), e.(revision)) /\
            deserialize e.(value) = Ok a) l.
Proof.
  intros Hwf Hrep [Hl _]%decoded_puts. apply Forall_forall. intros [e a] [He Hd]%Hl.
  destruct (replayed_live _ _ _ _ _ Hrep He) as [Hp Hv].
  destruct (Hwf _ _ _ Hv (prefix_ul _ _ _ Hp)) as (a' & Hd' & Hk). assert (a' = a) as -> by congruence.
  rewrite Hk in Hp. apply user_slot_prefix_spec in Hp as [Hs Hu]. rewrite Hk, Hs, Hu.
  split_and!; try done. by rewrite <- Hs, <- Hu, <- Hk.
Qed.

Lemma listed_slots b scope user s es l :
  slots_wf b s -> replay value_at rev_at b (user_slot_prefix scope user) s es -> decode_puts es = Ok l ->
  let out := map (fun '(e, ent) => with_seq e.(revision) ent) l in
  NoDup (ul_job_id <$> out) /\
  forall x, x ∈ out <-> x.(ul_scope) = scope /\ x.(ul_user) = user /\ slot_at b scope user x.(ul_job_id) s = Some x.
Proof.
  intros Hwf Hrep Hdec out. pose proof (replayed_slots _ _ _ _ _ _ Hwf Hrep Hdec) as Hl.
  apply decode_puts_spec in Hdec as Hfst. destruct Hfst as [Hfst _]. apply decoded_puts in Hdec as [_ Hputs]. split.
  - destruct Hrep as [Hnd _]. apply (NoDup_fmap_1 (user_slot_key scope user)).
    assert (user_slot_key scope user <$> (ul_job_id <$> out) = key <$> l.*1) as ->.
    { unfold out. clear -Hl. induction Hl as [|[e a] l [Hk _] Hl IH]; [done|]. simpl. f_equal; [by rewrite Hk|exact IH]. }
    rewrite Hfst. eapply sublist_NoDup; [exact Hnd|]. apply fmap_sublist, sublist_filter.
  - rewrite Forall_forall in Hl. intros x. unfold out. rewrite list_elem_of_fmap. split.
    + intros ([e a] & -> & Hin). destruct (Hl _ Hin) as (Hk & Hs & Hu & Hv & Hd). split_and!; try done.
      unfold slot_at. simpl. rewrite <- Hk, Hv. simpl. by rewrite Hd.
    + intros (Hs & Hu & Hslot). unfold slot_at in Hslot.
      destruct (value_at b _ s) as [[v q]|] eqn:Hv; [|done]. simpl in Hslot.
      destruct (deserialize v) as [a|] eqn:Hd; [|done]. injection Hslot as Hx.
      destruct (live_replayed _ _ _ _ _ _ _ Hrep (proj2 (user_slot_prefix_spec scope user _ _ _) (conj eq_refl eq_refl)) Hv) as (e & He & _ & <- & <-).
      exists (e, a). split; [done|]. by apply Hputs.
Qed.

(** A listing returns, and lists exactly the slots of that user in that scope
    at one instant, each once and numbered by its revision: no slot of another
    user or scope whatever characters their names contain, and no released
    one.  It needs that no message expires between the scan's two requests. *)
Theorem nats_list_exact scope user w :
  no_expiry ->
  let b := w.(nats).(user_limits_bucket) in
  (forall s, rtc elsewhere w.(cluster) s -> slots_wf b s) ->
  exists r w', list_user_slots_nats env elapsed scope user w = Some (r, w') /\
    rtc elsewhere w.(cluster) w'.(cluster) /\
    match r with
    | Ok l => NoDup (ul_job_id <$> l) /\ forall x, x ∈ l <->
                x.(ul_scope) = scope /\ x.(ul_user) = user /\ slot_at b scope user x.(ul_job_id) w'.(cluster) = Some x
    | Err _ => True
    end.
Proof.
  intros Hkeep b Hwf. unfold list_user_slots_nats.
  destruct (user_limits env elapsed w) as [[b'|e] w1] eqn:Hu; apply user_limits_spec in Hu as [[_ Hr] Hb].
  2: { by eexists _, _. }
  subst b'. fold b.
  destruct (scan_spec b (user_slot_prefix scope user) w1 Hkeep) as (r & w2 & -> & _ & Hr2 & Hrep).
  destruct r as [es|e]; eexists _, _; (split; [done|]); (split; [by etrans|]); [|done].
  destruct (decode_puts es) as [l|e] eqn:Hdec; simpl; [|done].
  eapply listed_slots; try done. apply Hwf. by etrans.
Qed.

(** Someone else created the slot between two requests. *)
Definition created_elsewhere (b key : string) : Prop :=
  exists k s, value_at b key s = None /\ value_at b key (env k s) <> None.

(** What a reservation that answers [q] did at [s0]: found the slot, made it,
    or lost a race and read the revision of whatever message is left. *)
Definition reserved (b key : string) (entry : UserLimitEntry) (q : Z) (s0 s' : S) : Prop :=
  (same value_at s0 s' /\ exists v, value_at b key s0 = Some (v, q)) \/
  (value_at b key s0 = None /\ exists v, serialize entry = Ok v /\ written value_at b key (Some (v, q)) s0 s') \/
  (created_elsewhere b key /\ same value_at s0 s' /\ q = default 0 (rev_at b key s0)).

Lemma reserve_spec now scope user job_id owner w r w' :
  let b := w.(nats).(user_limits_bucket) in
  let key := user_slot_key scope user job_id in
  reserve_user_slot_nats env elapsed now scope user job_id owner w = (r, w') ->
  exists s0, rtc elsewhere w.(cluster) s0 /\
  match r with
  | Ok q => reserved b key (mkUserLimitEntry scope user job_id owner 0 now) q s0 w'.(cluster)
  | Err _ => same value_at s0 w'.(cluster)
  end.
Proof.
  intros b key. unfold reserve_user_slot_nats. unfold bind at 1.
  destruct (user_limits env elapsed w) as [[b'|e] w1] eqn:Hu; apply user_limits_spec in Hu as [[_ Hr1] Hb].
  2: { intros [= <- <-]. by exists w1.(cluster). }
  subst b'. fold b key. unfold bind, map_fail, query, request. set (s1 := env w1.(turn) w1.(cluster)).
  assert (rtc elsewhere w.(cluster) s1) as Hs1 by (etrans; [exact Hr1|apply rtc_once; left; apply Henv]).
  destruct (entry b key s1) as [o|] eqn:He; simpl; [|intros [= <- <-]; by exists s1].
  apply live_entry_spec in He as [Hv _]. destruct (live_entry o) as [e|]; simpl in Hv.
  { intros [= <- <-]. exists s1. split; [done|]. left. split; [apply same_refl|]. by exists e.(value). }
  unfold of_result. destruct (serialize _) as [v|] eqn:Hs; [|intros [= <- <-]; by exists s1].
  unfold or_else. simpl. set (s2 := env _ s1).
  assert (rtc elsewhere w.(cluster) s2) as Hs2 by (etrans; [exact Hs1|apply rtc_once; left; apply Henv]).
  destruct (create b key v s2) as [[q|e] s3] eqn:Hc.
  { intros [= <- <-]. apply create_law in Hc as [Hnone Hw]. exists s2. split; [done|]. right. left. eauto. }
  apply create_err in Hc as [Hsame Hex]. destruct e as [|e]; [|intros [= <- <-]; by exists s2].
  simpl. set (s4 := env _ s3).
  assert (rtc elsewhere w.(cluster) s4) as Hs4
    by (etrans; [eapply elsewhere_same; [exact Hs2|exact Hsame]|apply rtc_once; left; apply Henv]).
  destruct (entry b key s4) as [o'|] eqn:He; simpl; intros [= <- <-]; exists s4; (split; [done|]); [|done].
  right. right. split; [|split; [apply same_refl|]].
  - eexists _, s1. split; [done|]. by apply Hex.
  - apply entry_law in He. destruct o' as [e|]; simpl; [|by destruct He as [_ ->]].
    destruct He as [Hke [Hr _]]. rewrite Hke in Hr. by rewrite Hr.
Qed.

Lemma release_spec scope user job_id w r w' :
  release_user_slot_nats env elapsed scope user job_id w = (r, w') ->
  exists s0, rtc elsewhere w.(cluster) s0 /\
  match r with
  | Ok _ => written value_at w.(nats).(user_limits_bucket) (user_slot_key scope user job_id) None s0 w'.(cluster)
  | Err _ => same value_at s0 w'.(cluster)
  end.
Proof.
  unfold release_user_slot_nats, bind. destruct (stores env elapsed w) as [[n|e] w1] eqn:Hs;
    apply stores_spec in Hs as [[Hc Hr] Hn].
  - subst n. rewrite (user_limits_bucket_same _ _ Hc).
    intros (_ & s0 & Hs0 & Hout)%purge_expiring_spec. exists s0. split; [by etrans|done].
  - intros [= <- <-]. by exists w1.(cluster).
Qed.

(** *** Slots stay under the keys of their fields *)

Lemma slots_wf_same b s s' : same value_at s s' -> slots_wf b s -> slots_wf b s'.
Proof. intros Hs Hwf k v q. rewrite Hs. apply Hwf. Qed.

Lemma slots_wf_delete b key s s' : written value_at b key None s s' -> slots_wf b s -> slots_wf b s'.
Proof. intros Hw Hwf k v q. rewrite Hw. case_decide; [done|]. apply Hwf. Qed.

Lemma slots_wf_put b e v q s s' :
  serialize e = Ok v ->
  written value_at b (user_slot_key e.(ul_scope) e.(ul_user) e.(ul_job_id)) (Some (v, q)) s s' ->
  slots_wf b s -> slots_wf b s'.
Proof.
  intros Hs Hw Hwf k v' q'. rewrite Hw. case_decide as Hk; [|apply Hwf].
  intros [= <- <-] _. exists e. split; [by eapply deserialize_serialize|]. by destruct Hk.
Qed.

Lemma slots_wf_elsewhere b s s' :
  (forall s s', others s s' -> slots_wf b s -> slots_wf b s') -> rtc elsewhere s s' -> slots_wf b s -> slots_wf b s'.
Proof.
  intros Ho. induction 1 as [|s1 s2 s3 [H12|H12] _ IH]; [done|eauto|]. intros Hwf. by eapply IH, slots_wf_same.
Qed.

(** As long as the other brokers keep to it, every slot is stored under the key
    its own fields make: reservations and releases, succeeding or failing, keep
    that, whatever happens between their requests. *)
Theorem nats_slots_invariant w :
  let b := w.(nats).(user_limits_bucket) in
  (forall s s', others s s' -> slots_wf b s -> slots_wf b s') ->
  slots_wf b w.(cluster) ->
  (forall now scope user job_id owner r w',
     reserve_user_slot_nats env elapsed now scope user job_id owner w = (r, w') -> slots_wf b w'.(cluster)) /\
  (forall scope user job_id r w',
     release_user_slot_nats env elapsed scope user job_id w = (r, w') -> slots_wf b w'.(cluster)).
Proof.
  intros b Ho Hwf. split.
  - intros * (s0 & Hs0 & Hout)%reserve_spec. apply (slots_wf_elsewhere _ _ _ Ho Hs0) in Hwf.
    destruct r as [q|]; [|by eapply slots_wf_same].
    destruct Hout as [[Hs _]|[(_ & v & Hv & Hw)|(_ & Hs & _)]]; [by eapply slots_wf_same| |by eapply slots_wf_same].
    by eapply (slots_wf_put _ _ _ _ _ _ Hv Hw).
  - intros * (s0 & Hs0 & Hout)%release_spec. apply (slots_wf_elsewhere _ _ _ Ho Hs0) in Hwf.
    destruct r; [by eapply slots_wf_delete|by eapply slots_wf_same].
Qed.

(** ** An undisturbed cluster *)

Section undisturbed.
Context (Hquiet : forall s s', others s s' -> same value_at s s').

Lemma undisturbed s s' : rtc elsewhere s s' -> same value_at s s'.
Proof.
  induction 1 as [|s1 s2 s3 [H12|H12] _ IH]; [apply same_refl|..]; intros b k; rewrite IH; [by apply Hquiet|apply H12].
Qed.

(** A live slot whose owner holds no unexpired lease. *)
Definition live_owner (now : Z) (b : string) (s : S) (o : string) : Prop :=
  exists k v q r, value_at b k s = Some (v, q) /\ deserialize v = Ok r /\ r.(broker_id) = o /\ now < r.(lease_until).

Definition orphaned (live : string -> Prop) (b : string) (s : S) (k : string) : Prop :=
  String.prefix "ul." k = true /\ exists v q e, value_at b k s = Some (v, q) /\ deserialize v = Ok e /\
    ~ live e.(owner_broker_id).

(** The entries the sweep purges. *)
Definition doomed (live : gset string) (e : Entry Bytes) : bool :=
  String.prefix "ul." e.(key) && is_put e.(operation) &&
  match deserialize e.(value) with Ok ent => negb (bool_decide (owner_broker_id ent ∈ live)) | Err _ => false end.

Definition purged (b : string) (ks : list string) (s s' : S) : Prop :=
  forall b' k, value_at b' k s' = if decide (b' = b /\ k ∈ ks) then None else value_at b' k s.

Lemma purged_nil b s s' : same value_at s s' -> purged b [] s s'.
Proof. intros Hs b' k. rewrite Hs, decide_False; [done|]. by intros [_ ?%elem_of_nil]. Qed.

Lemma purged_cons b k ks s s1 s' : written value_at b k None s s1 -> purged b ks s1 s' -> purged b (k :: ks) s s'.
Proof.
  intros Hw Hp b' k'. rewrite Hp, Hw. assert (k' ∈ k :: ks <-> k' = k \/ k' ∈ ks) by apply elem_of_cons. repeat case_decide; naive_solver.
Qed.

Lemma wrap_step n m : wrap 64 (wrap 64 (n + 1) + m) = wrap 64 (n + (1 + m)).
Proof. unfold wrap. rewrite Zplus_mod_idemp_l. f_equal. lia. Qed.

Lemma reclaim_loop_spec b ttl live es n w r w' :
  reclaim_loop env b ttl live es (wrap 64 n) w = (r, w') ->
  exists gone todo, filter (fun e => doomed live e = true) es = gone ++ todo /\
    purged b (key <$> gone) w.(cluster) w'.(cluster) /\
    match r with Ok m => todo = [] /\ m = wrap 64 (n + Z.of_nat (length gone)) | Err _ => True end.
Proof.
  revert n w; induction es as [|e es IH]; intros n w; cbn [reclaim_loop].
  { intros [= <- <-]. exists [], []. split; [done|]. split; [by apply purged_nil|]. by rewrite Z.add_0_r. }
  rewrite filter_cons. destruct (String.prefix "ul." e.(key) && is_put e.(operation)) eqn:Hp.
  2: { rewrite decide_False; [apply IH|]. unfold doomed. by rewrite Hp. }
  unfold bind at 1, of_result. destruct (deserialize e.(value)) as [ent|err] eqn:Hd.
  2: { rewrite decide_False; [|unfold doomed; by rewrite Hd, andb_false_r]. intros [= <- <-].
       eexists [], _. split; [done|]. split; [by apply purged_nil|done]. }
  case_bool_decide as Hlive.
  { rewrite decide_False; [apply IH|]. unfold doomed. by rewrite Hd, bool_decide_true, andb_false_r. }
  rewrite decide_True by (unfold doomed; by rewrite Hp, Hd, bool_decide_false).
  unfold bind. destruct (purge_expiring env b e.(key) ttl w) as [[[]|err] w1] eqn:Hpu;
    apply purge_expiring_spec in Hpu as (_ & s0 & Hs0%undisturbed & Hw).
  - assert (wrap 64 (wrap 64 n + 1) = wrap 64 (n + 1)) as -> by (unfold wrap; by rewrite Zplus_mod_idemp_l).
    intros (gone & todo & Hf & Hpd & Hr)%IH. exists (e :: gone), todo. split; [by rewrite Hf|]. split.
    + rewrite fmap_cons. eapply purged_cons; [|exact Hpd]. intros b' k'. rewrite Hw. case_decide; [done|apply Hs0].
    + destruct r as [m|]; [|done]. destruct Hr as [-> ->]. split; [done|]. f_equal. simpl. lia.
  - intros [= <- <-]. exists [], (e :: filter (fun e => doomed live e = true) es). split; [done|]. split; [|done].
    apply purged_nil. intros b' k'. rewrite Hw. apply Hs0.
Qed.

Lemma doomed_orphaned live (P : string -> Prop) b s es :
  replay value_at rev_at b "" s es -> (forall o, P o <-> o ∈ live) ->
  forall k, k ∈ key <$> filter (fun e => doomed live e = true) es <-> orphaned P b s k.
Proof.
  intros Hrep HP k. rewrite list_elem_of_fmap. split.
  - intros (e & -> & [Hdoom He]%list_elem_of_filter). unfold doomed in Hdoom.
    apply andb_true_iff in Hdoom as [[Hul Hput]%andb_true_iff Hd].
    destruct (replayed_live _ _ _ _ e Hrep) as [_ Hv]; [by apply list_elem_of_filter|].
    destruct (deserialize _) as [ent|] eqn:Hde; [|done]. apply negb_true_iff, bool_decide_eq_false in Hd.
    split; [done|]. exists e.(value), e.(revision), ent. by rewrite HP.
  - intros [Hul (v & q & ent & Hv & Hd & Hn)]. rewrite HP in Hn.
    destruct (live_replayed _ _ _ _ k _ _ Hrep ltac:(by destruct k) Hv) as (e & He & <- & <- & <-).
    apply list_elem_of_filter in He as [Hput He]. exists e. split; [done|]. apply list_elem_of_filter.
    split; [|done]. unfold doomed. by rewrite Hul, Hput, Hd, bool_decide_false.
Qed.

Lemma live_owners_spec now b s es l :
  replay value_at rev_at b "" s es -> decode_puts es = Ok l ->
  forall o, live_owner now b s o <-> o ∈ live_owners now l.
Proof.
  intros Hrep [Hl Hputs]%decoded_puts o. unfold live_owners. rewrite elem_of_list_to_set, list_elem_of_fmap. split.
  - intros (k & v & q & r & Hv & Hd & Ho & Hnow).
    destruct (live_replayed _ _ _ _ k _ _ Hrep ltac:(by destruct k) Hv) as (e & He & <- & <- & <-).
    exists r. split; [done|]. apply list_elem_of_filter. split; [done|]. apply list_elem_of_fmap.
    exists (e, r). split; [done|]. by apply Hputs.
  - intros (r & -> & [Hnow ([e r'] & -> & [He Hd]%Hl)%list_elem_of_fmap]%list_elem_of_filter).
    apply (replayed_live _ _ _ _ _ Hrep) in He as [_ Hv]. by exists e.(key), e.(value), e.(revision), r'.
Qed.

Lemma leases_spec w r w' :
  leases env elapsed w = (r, w') ->
  moves w w' /\ match r with Ok b => b = w.(nats).(leases_bucket) | Err _ => True end.
Proof.
  unfold leases, bind. destruct (stores env elapsed w) as [[n|e] w1] eqn:Hs; apply stores_spec in Hs as [Hm Hn];
    intros [= <- <-]; split; try done. subst n. destruct Hm as [Hc _]. by destruct Hc as [-> | ->].
Qed.

(** What a reclaim did: on success exactly the orphaned slots are gone and
    counted, on failure only orphaned slots are. *)
Definition reclaimed (live : string -> Prop) (b : string) (s s' : S) (r : result DbError Z) : Prop :=
  exists ks, NoDup ks /\ purged b ks s s' /\ (forall k, k ∈ ks -> orphaned live b s k) /\
  match r with
  | Ok n => (forall k, orphaned live b s k -> k ∈ ks) /\ n = wrap 64 (Z.of_nat (length ks))
  | Err _ => True
  end.

Lemma reclaimed_nothing live b s s' e : rtc elsewhere s s' -> reclaimed live b s s' (Err e).
Proof.
  intros Hs%undisturbed. exists []. split; [constructor|]. split; [by apply purged_nil|]. split; [|done].
  by intros k ?%elem_of_nil.
Qed.

Lemma sweep_reclaims (P : string -> Prop) live b ttl es s w r w' :
  rtc elsewhere s w.(cluster) -> replay value_at rev_at b "" w.(cluster) es -> (forall o, P o <-> o ∈ live) ->
  reclaim_loop env b ttl live es 0 w = (r, w') -> reclaimed P b s w'.(cluster) r.
Proof.
  intros Hs%undisturbed Hrep HP (gone & todo & Hf & Hpd & Hout)%(reclaim_loop_spec _ _ _ _ 0).
  assert (forall k, k ∈ key <$> (gone ++ todo) <-> orphaned P b s k) as Hks.
  { intros k. rewrite <- Hf, (doomed_orphaned _ _ _ _ _ Hrep HP). unfold orphaned. by setoid_rewrite Hs. }
  assert (NoDup (key <$> (gone ++ todo))) as Hnd.
  { rewrite <- Hf. destruct Hrep as [Hnd _]. eapply sublist_NoDup; [exact Hnd|]. apply fmap_sublist, sublist_filter. }
  rewrite fmap_app in Hnd, Hks. exists (key <$> gone). split; [by apply NoDup_app in Hnd as [? _]|]. split.
  { intros b' k. rewrite Hpd. case_decide; [done|apply Hs]. }
  split; [intros k Hk; apply Hks, elem_of_app; by left|].
  destruct r as [n|]; [|done]. destruct Hout as [-> ->]. rewrite app_nil_r in Hks. split; [intros k; apply Hks|].
  by rewrite length_fmap.
Qed.

(** C37. The reclaim of an undisturbed cluster returns; when it succeeds it has
    removed exactly the slots whose owner holds no unexpired lease and answers
    how many they were, and when it fails it has removed only such slots. *)
Theorem nats_reclaim_exact now w :
  no_expiry ->
  exists r w', reclaim_user_slots_nats env elapsed now w = Some (r, w') /\
  reclaimed (live_owner now w.(nats).(leases_bucket) w.(cluster)) w.(nats).(user_limits_bucket)
    w.(cluster) w'.(cluster) r.
Proof.
  intros Hkeep. set (b := w.(nats).(user_limits_bucket)). unfold reclaim_user_slots_nats.
  destruct (leases env elapsed w) as [[lb|e] w1] eqn:Hl; apply leases_spec in Hl as [[Hc1 Hr1] Hlb].
  2: { eexists _, _. split; [done|]. by apply reclaimed_nothing. }
  destruct (scan_spec lb "" w1 Hkeep) as (r2 & w2 & Hsc & Hn2 & Hr2 & Hrep). change ("" ++ ">")%string with ">"%string in Hsc. rewrite Hsc.
  assert (rtc elsewhere w.(cluster) w2.(cluster)) as Hr12 by (by etrans).
  destruct r2 as [es|e]; [|eexists _, _; split; [done|]; by apply reclaimed_nothing].
  destruct (decode_puts es) as [l|e] eqn:Hdec; [|eexists _, _; split; [done|]; by apply reclaimed_nothing].
  destruct (user_limits env elapsed w2) as [[ub|e] w3] eqn:Hu; apply user_limits_spec in Hu as [[Hc3 Hr3] Hub].
  2: { eexists _, _. split; [done|]. apply reclaimed_nothing. by etrans. }
  destruct (scan_spec ub "" w3 Hkeep) as (r4 & w4 & Hsc4 & Hn4 & Hr4 & Hrep4). change ("" ++ ">")%string with ">"%string in Hsc4.
  rewrite Hsc4.
  assert (rtc elsewhere w.(cluster) w4.(cluster)) as Hr14 by (etrans; [exact Hr12|by etrans]).
  destruct r4 as [es4|e]; [|eexists _, _; split; [done|]; by apply reclaimed_nothing].
  assert (ub = b) as -> by (subst ub; unfold b; by rewrite Hn2, (user_limits_bucket_same _ _ Hc1)).
  destruct (reclaim_loop _ _ _ _ es4 0 w4) as [r w5] eqn:Hloop. eexists _, _. split; [done|].
  eapply sweep_reclaims; try done. subst lb. intros o. rewrite <- (live_owners_spec now _ _ _ _ Hrep Hdec).
  unfold live_owner. by setoid_rewrite (undisturbed _ _ Hr12).
Qed.
End undisturbed.
End nats_laws.

(** ** The storage laws, on an undisturbed cluster *)

Section instances.
Context {V S Bytes : Type} `{Nats S Bytes} {text : MemoryText} {chrono : Chrono}
  `{!Codec (PersistentJobRecord V) Bytes} `{!Codec BrokerLeaseRecord Bytes} `{!Codec Z Bytes}
  `{!Codec UserLimitEntry Bytes}.
Context {value_at : string -> string -> S -> option (Bytes * Z)} {rev_at : string -> string -> S -> option Z}
  `{!NatsLaws S Bytes value_at rev_at}.
Context (elapsed : nat -> bool).

Definition alone (k : nat) (s : S) : S := s.

Definition nats_job_store : JobStore V (Session S) := {|
  upsert_job := upsert_job_nats alone elapsed;
  delete_job := delete_job_nats alone elapsed;
  claim_if_owner := claim_if_owner_nats alone elapsed
|}.

Definition stored_job (job_id : string) (w : Session S) : option (PersistentJobRecord V) :=
  job_at (value_at:=value_at) w.(nats).(jobs_bucket) job_id w.(cluster).

Lemma alone_reached s s' : rtc (elsewhere (value_at:=value_at) eq) s s' -> same value_at s s'.
Proof. apply undisturbed. intros s1 s2 <-. apply same_refl. Qed.

Lemma stored_job_same n w w' id :
  same_config n w'.(nats) -> n = w.(nats) -> same value_at w.(cluster) w'.(cluster) ->
  stored_job id w' = stored_job id w.
Proof. intros Hc -> Hs. unfold stored_job. rewrite (jobs_bucket_same _ _ Hc). by apply nats_job_at_same. Qed.

(** A store with no one else on it keeps the laws every client of the job
    store relies on. *)
Lemma nats_job_laws : @JobStoreLaws V (Session S) nats_job_store stored_job.
Proof.
  split; simpl; intros *.
  - intros Hop id. apply (upsert_job_spec alone elapsed eq) in Hop as (Hc & s0 & Hs0%alone_reached & Hout); [|done]. unfold stored_job.
    rewrite (jobs_bucket_same _ _ Hc), Hout. case_decide; [done|]. by apply nats_job_at_same.
  - intros Hop id. apply (upsert_job_spec alone elapsed eq) in Hop as (Hc & s0 & Hs0%alone_reached & Hout); [|done]. eapply stored_job_same; [done|done|].
    by etrans.
  - intros Hop id. apply (delete_job_spec alone elapsed eq) in Hop as (Hc & s0 & Hs0%alone_reached & Hout); [|done]. unfold stored_job.
    rewrite (jobs_bucket_same _ _ Hc), Hout. case_decide; [done|]. by apply nats_job_at_same.
  - intros Hop id. apply (delete_job_spec alone elapsed eq) in Hop as (Hc & s0 & Hs0%alone_reached & Hout); [|done]. eapply stored_job_same; [done|done|].
    by etrans.
  - intros Hcl. apply (claim_if_owner_spec alone elapsed eq) in Hcl as (Hc & s0 & Hs0%alone_reached & Hout); [|done|naive_solver].
    destruct Hout as [[-> Hjobs]|[(key & _ & k & s1 & Hraced) _]]; [|done].
    unfold stored_job. rewrite (jobs_bucket_same _ _ Hc). rewrite (nats_job_at_same _ _ _ Hs0) in *. split; [done|].
    intros id. rewrite Hjobs. case_decide; [done|]. by apply nats_job_at_same.
  - intros Hcl id. apply (claim_if_owner_spec alone elapsed eq) in Hcl as (Hc & s0 & Hs0%alone_reached & Hout); [|done|naive_solver].
    eapply stored_job_same; [done|done|]. by etrans.
Qed.
End instances.

(** ** A concrete cluster *)

Module Sample.
Inductive datum : Type :=
| VJob (r : PersistentJobRecord unit)
| VLease (l : BrokerLeaseRecord)
| VCounter (n : Z)
| VSlot (e : UserLimitEntry).

#[export] Instance job_codec : Codec (PersistentJobRecord unit) datum.
Proof.
  refine {| serialize := fun r => Ok (VJob r);
            deserialize := fun v => match v with VJob r => Ok r | _ => Err (Backend "deserialize failed: ") end |}.
  by intros a v [= <-].
Defined.
#[export] Instance lease_codec : Codec BrokerLeaseRecord datum.
Proof.
  refine {| serialize := fun r => Ok (VLease r);
            deserialize := fun v => match v with VLease r => Ok r | _ => Err (Backend "deserialize failed: ") end |}.
  by intros a v [= <-].
Defined.
#[export] Instance counter_codec : Codec Z datum.
Proof.
  refine {| serialize := fun r => Ok (VCounter r);
            deserialize := fun v => match v with VCounter r => Ok r | _ => Err (Backend "deserialize failed: ") end |}.
  by intros a v [= <-].
Defined.
#[export] Instance slot_codec : Codec UserLimitEntry datum.
Proof.
  refine {| serialize := fun r => Ok (VSlot r);
            deserialize := fun v => match v with VSlot r => Ok r | _ => Err (Backend "deserialize failed: ") end |}.
  by intros a v [= <-].
Defined.

(** The last message of each key: its revision and, unless it is a tombstone,
    its value. *)
Record kv : Type := mkKv { seq_no : Z; buckets : gmap string (gmap string (Z * option datum)) }.

Definition messages (b : string) (s : kv) : gmap string (Z * option datum) := default ∅ (s.(buckets) !! b).
Definition rev_of (b k : string) (s : kv) : option Z := fst <$> messages b s !! k.
Definition value_of (b k : string) (s : kv) : option (datum * Z) :=
  match messages b s !! k with Some (r, Some v) => Some (v, r) | _ => None end.

Definition next_rev (b k : string) (s : kv) : Z := Z.max s.(seq_no) (default 0 (rev_of b k s)) + 1.
Definition store_msg (b k : string) (o : option datum) (s : kv) : kv :=
  let r := next_rev b k s in mkKv r (<[b := <[k := (r, o)]> (messages b s)]> s.(buckets)).
(** A tombstone expires. *)
Definition expire (b k : string) (s : kv) : kv :=
  mkKv s.(seq_no) (<[b := delete k (messages b s)]> s.(buckets)).

Definition entry_of (m : string * (Z * option datum)) : Entry datum :=
  let '(k, (r, o)) := m in
  mkEntry k (default (VCounter 0) o) r (match o with Some _ => Put | None => Purge end) false.

Fixpoint flag_last (es : list (Entry datum)) : list (Entry datum) :=
  match es with
  | [] => []
  | [e] => [mkEntry e.(key) e.(value) e.(revision) e.(operation) true]
  | e :: es => e :: flag_last es
  end.

Definition matching (b p : string) (s : kv) : list (Entry datum) :=
  entry_of <$> map_to_list (filter (fun m => String.prefix p m.1 = true) (messages b s)).

Definition pattern_prefix (pattern : string) : string := String.substring 0 (String.length pattern - 1) pattern.

#[export] Instance nats_cluster : Nats kv datum := {|
  nats_connect := fun _ _ _ => Ok tt;
  create_key_value := fun _ s => (Ok tt, s);
  update_key_value := fun _ s => (Ok tt, s);
  get_key_value := fun _ _ => Ok tt;
  entry := fun b k s => Ok ((fun m => entry_of (k, m)) <$> messages b s !! k);
  put := fun b k v s => (Ok (next_rev b k s), store_msg b k (Some v) s);
  create := fun b k v s => match value_of b k s with
                           | Some _ => (Err AlreadyExists, s)
                           | None => (Ok (next_rev b k s), store_msg b k (Some v) s)
                           end;
  update := fun b k v rev s => if decide (rev_of b k s = Some rev)
                               then (Ok (next_rev b k s), store_msg b k (Some v) s)
                               else (Err WrongLastRevision, s);
  kv_delete := fun b k s => (Ok tt, store_msg b k None s);
  purge := fun b k s => (Ok tt, store_msg b k None s);
  purge_with_ttl := fun b k _ s => (Ok tt, store_msg b k None s);
  info_with_subjects := fun b pattern s => Ok (key <$> matching b (pattern_prefix pattern) s);
  watch_with_history := fun b pattern s => Ok (Ok <$> flag_last (matching b (pattern_prefix pattern) s), false);
  secs_text := fun _ => "5.0"%string
|}.

Lemma messages_store b k o s b' :
  messages b' (store_msg b k o s) =
  if decide (b' = b) then <[k := (next_rev b k s, o)]> (messages b s) else messages b' s.
Proof. unfold messages. simpl. case_decide; [subst; by rewrite lookup_insert_eq|by rewrite lookup_insert_ne]. Qed.

Lemma store_msg_written b k v s :
  written value_of b k (Some (v, next_rev b k s)) s (store_msg b k (Some v) s).
Proof.
  intros b' k'. unfold value_of. rewrite messages_store. case_decide; subst; [|by rewrite decide_False by naive_solver].
  destruct (decide (k' = k)) as [->|Hk]; [by rewrite lookup_insert_eq, decide_True|].
  by rewrite lookup_insert_ne, decide_False by naive_solver.
Qed.

Lemma store_msg_removed b k s : written value_of b k None s (store_msg b k None s).
Proof.
  intros b' k'. unfold value_of. rewrite messages_store. case_decide; subst; [|by rewrite decide_False by naive_solver].
  destruct (decide (k' = k)) as [->|Hk]; [by rewrite lookup_insert_eq, decide_True|].
  by rewrite lookup_insert_ne, decide_False by naive_solver.
Qed.

Lemma pattern_prefix_all p : pattern_prefix (p ++ ">") = p.
Proof.
  unfold pattern_prefix. assert (String.length (p ++ ">") - 1 = String.length p)%nat as ->.
  { assert (String.length (p ++ ">") = S (String.length p)) as ->; [|lia].
    induction p as [|a p IH]; [done|]. change (S (String.length (p ++ ">")) = S (S (String.length p))). by rewrite IH. }
  induction p as [|a p IH]; [done|]. change (String a (substring 0 (String.length p) (p ++ ">")) = String a p).
  by rewrite IH.
Qed.

Lemma flag_last_snoc es e : flag_last (es ++ [e]) = es ++ [mkEntry e.(key) e.(value) e.(revision) e.(operation) true].
Proof.
  induction es as [|x es IH]; [done|]. simpl. rewrite IH. by destruct es.
Qed.

Lemma matching_replay b p s : replay value_of rev_of b p s (matching b p s).
Proof.
  unfold matching. set (m := filter (fun m => String.prefix p m.1 = true) (messages b s)).
  assert (forall l : list (string * (Z * option datum)), key <$> (entry_of <$> l) = l.*1) as Hkeys.
  { intros l. rewrite <- list_fmap_compose. apply list_fmap_ext. by intros _ [k [r o]] _. }
  split; [rewrite Hkeys; apply NoDup_fst_map_to_list|]. split.
  - apply Forall_forall. intros e ([k [r o]] & -> & [Hm Hp]%elem_of_map_to_list%map_lookup_filter_Some)%list_elem_of_fmap.
    split; [done|]. unfold current, rev_of, value_of. simpl. rewrite Hm. by destruct o.
  - intros k Hp [r Hr]. rewrite Hkeys. unfold rev_of in Hr. destruct (messages b s !! k) as [[r' o]|] eqn:Hm; [|done].
    apply list_elem_of_fmap. exists (k, (r', o)). split; [done|]. by apply elem_of_map_to_list, map_lookup_filter_Some.
Qed.

(** The flag is not part of what an entry says. *)
Lemma replay_flag_last b p s es : replay value_of rev_of b p s es -> replay value_of rev_of b p s (flag_last es).
Proof.
  destruct es as [|e es _] using rev_ind; [done|]. rewrite flag_last_snoc.
  intros (Hnd & Hes & Hall). split; [by rewrite fmap_app in *|].
  split; [|intros k Hp Hk; specialize (Hall k Hp Hk); by rewrite fmap_app in *].
  apply Forall_app in Hes as [Hes He]. apply Forall_app. split; [done|]. by inversion He; constructor.
Qed.

Lemma has_message_matching b p s : has_message rev_of b p s <-> matching b p s <> [].
Proof.
  destruct (matching_replay b p s) as (_ & Hes & Hall). split.
  - intros (k & Hp & Hk) Hnil. specialize (Hall k Hp Hk). rewrite Hnil in Hall. by apply elem_of_nil in Hall.
  - destruct (matching b p s) as [|e es]; [done|]. intros _. inversion Hes as [|?? [Hp [Hr _]] _]; subst.
    exists e.(key). by rewrite Hr.
Qed.

Lemma delivers_flag_last es : es <> [] -> Forall (fun e => e.(seen_current) = false) es ->
  delivers (Ok <$> flag_last es) (flag_last es).
Proof.
  destruct es as [|e es _] using rev_ind; [done|]. intros _ [Hes _]%Forall_app. rewrite flag_last_snoc.
  eexists es, _. split; [done|]. split; [done|]. split; [done|]. left. exists []. by rewrite fmap_app.
Qed.

#[export] Instance nats_cluster_laws : NatsLaws kv datum value_of rev_of.
Proof.
  split; simpl; try (by intros * [= <-]); intros *.
  - intros _ s r s' [= <- <-]. apply same_refl.
  - intros _ s r s' [= <- <-]. apply same_refl.
  - intros [= <-]. unfold value_of, rev_of. destruct (messages b s !! k) as [[r o]|] eqn:Hm; [|done]. split; [done|].
    unfold current, rev_of, value_of. simpl. rewrite Hm. by destruct o.
  - intros [= <- <-]. apply store_msg_written.
  - destruct (value_of b k s) eqn:Hv; [done|]. intros [= <- <-]. split; [done|]. apply store_msg_written.
  - destruct (value_of b k s) eqn:Hv; [|done]. intros [= <- <-]. split; [apply same_refl|done].
  - case_decide; [|done]. intros [= <- <-]. split; [done|]. apply store_msg_written.
  - case_decide; [done|]. intros [= <- <-]. split; [apply same_refl|done].
  - intros [= <-]. apply store_msg_removed.
  - intros [= <-]. apply store_msg_removed.
  - intros _ s s' [= <-]. apply store_msg_removed.
  - by intros _ s e s' [= <-].
  - rewrite pattern_prefix_all. intros [= <-]. rewrite has_message_matching. by destruct (matching b p s).
  - rewrite pattern_prefix_all, has_message_matching. intros [= <- <-] Hne. exists (flag_last (matching b p s)).
    split; [apply replay_flag_last, matching_replay|]. apply delivers_flag_last; [done|].
    apply Forall_forall. by intros e ([k [r o]] & -> & _)%list_elem_of_fmap.
  - unfold rev_of, value_of. by destruct (messages b s !! k).
Qed.

(** ** Runs *)

#[export] Existing Instance no_text.
#[export] Instance chrono_any : Chrono := fun ttl => Some ttl.

Definition never (k : nat) : bool := false.

(** A broker's handle before its first request. *)
Definition start (s : kv) : Session kv :=
  mkSession (new "nats://localhost" "jobs" "leases" (secs 30) 1 (secs 5)) s 0.

Definition no_messages : kv := mkKv 0 ∅.

Definition fresh (s s' : kv) : Prop := forall b k r,
  rev_of b k s = Some r -> rev_of b k s' = Some r -> value_of b k s' = value_of b k s.

Lemma fresh_refl s : fresh s s.
Proof. done. Qed.

Lemma fresh_store b k o s : fresh s (store_msg b k o s).
Proof.
  intros b' k' r. unfold rev_of, value_of. rewrite messages_store. case_decide; [subst|naive_solver].
  destruct (decide (k' = k)) as [->|]; [|rewrite lookup_insert_ne by done; naive_solver].
  rewrite lookup_insert_eq. simpl. intros Hr [= Hr']. unfold next_rev, rev_of in Hr'. rewrite Hr in Hr'. simpl in Hr'. lia.
Qed.

Lemma fresh_same s s' b k r :
  fresh s s' -> rev_of b k s = Some r -> rev_of b k s' = Some r -> value_of b k s' = value_of b k s.
Proof. intros Hf. apply Hf. Qed.

(** One other broker writes [o] under [k] of bucket [b] just before request
    [at_turn]. *)
Definition writer (at_turn : nat) (b k : string) (o : option datum) (turn : nat) (s : kv) : kv :=
  if Nat.eqb turn at_turn then store_msg b k o s else s.

Lemma fresh_writer at_turn b k o turn s : fresh s (writer at_turn b k o turn s).
Proof. unfold writer. destruct (Nat.eqb _ _); [apply fresh_store|apply fresh_refl]. Qed.

Definition sample_key : string := match job_key sample_id with Ok k => k | Err _ => "" end.
Definition record (owner : string) : PersistentJobRecord unit := mkRecord sample_id owner tt tt tt 0.
Definition with_record (owner : string) : kv := store_msg "jobs" sample_key (Some (VJob (record owner))) no_messages.

Abbreviation claim env := (claim_if_owner_nats (V:=unit) (S:=kv) (Bytes:=datum) env never).
Definition job_in (s : kv) : option (PersistentJobRecord unit) := job_at (value_at:=value_of) "jobs" sample_id s.

Lemma answer_has_record (c : ClaimResult unit) o claimant :
  c <> NotFound ->
  c = (claim_spec "dead" claimant o).1 \/
  c = match o with None => NotFound
               | Some r => if decide (r.(rec_broker_id) = claimant) then Claimed r else Active r.(rec_broker_id) end ->
  o <> None.
Proof. destruct o; [done|]. naive_solver. Qed.

(** Another broker claims the record between the read and the update. *)
Definition rival : nat -> kv -> kv := writer 5 "jobs" sample_key (Some (VJob (record "b1"))).

Example nats_claim_run :
  (claim rival sample_id "dead" "b2" (start (with_record "dead"))).1 = Ok (Active "b1").
Proof. vm_compute. reflexivity. Qed.

Lemma run_eq {A B} (p : A * B) a : p.1 = a -> p = (a, p.2).
Proof. destruct p; simpl. by intros ->. Qed.

Lemma nats_claim_linearizable_witness :
  exists s0, rtc (elsewhere (value_at:=value_of) fresh) (with_record "dead") s0 /\ job_in s0 <> None.
Proof.
  destruct (nats_claim_linearizable (V:=unit) (value_at:=value_of) (rev_at:=rev_of) rival never fresh
              (fresh_writer _ _ _ _) (fun s s' b k r Hf => Hf b k r)
              sample_id "dead" "b2" (start (with_record "dead")) _ _ (run_eq _ _ nats_claim_run)) as (s0 & Hs0 & Hr).
  exists s0. split; [exact Hs0|]. apply (answer_has_record (Active "b1") _ "b2"); [done|].
  destruct Hr as [[Hr _]|[_ [Hr _]]]; [left|right]; exact Hr.
Defined.

(** Another broker takes slot 0 between the read and the create; this one gets
    slot 1. *)
Definition counter_key : string := "counters.broker_slot.bol.dev".
Definition busy : nat -> kv -> kv := writer 5 "jobs" counter_key (Some (VCounter 1)).
Abbreviation allocate env := (allocate_nats_broker_slot (S:=kv) (Bytes:=datum) env never).

Example nats_allocate_run : fst <$> allocate busy 2 "bol" "dev" (start no_messages) = Some (Ok 1).
Proof. vm_compute. reflexivity. Qed.

Lemma nats_allocate_linearizable_witness :
  exists w' s0, allocate busy 2 "bol" "dev" (start no_messages) = Some (Ok 1, w') /\
    rtc (elsewhere (value_at:=value_of) fresh) no_messages s0 /\
    counter_at (value_at:=value_of) "jobs" counter_key s0 = 1.
Proof.
  destruct (allocate busy 2 "bol" "dev" (start no_messages)) as [[r w']|] eqn:Hrun.
  - assert (r = Ok 1) as -> by (pose proof nats_allocate_run as Hr; rewrite Hrun in Hr; by injection Hr).
    destruct (nats_allocate_linearizable (value_at:=value_of) (rev_at:=rev_of) busy never fresh
                (fresh_writer _ _ _ _) (fun s s' b k r Hf => Hf b k r) 2 "bol" "dev" (start no_messages) _ _ Hrun)
      as (s0 & Hs0 & Hr & _).
    exists w', s0. split; [done|]. split; [exact Hs0|]. symmetry. exact Hr.
  - exfalso. pose proof nats_allocate_run as Hr. by rewrite Hrun in Hr.
Defined.

(** Two users with slots in one scope; the owner of the second is dead. *)
Definition ul : string := "leases-userlimits".
Definition slot (user job_id owner : string) : UserLimitEntry := mkUserLimitEntry "q" user job_id owner 0 0.
Definition add_slot (e : UserLimitEntry) (s : kv) : kv :=
  store_msg ul (user_slot_key e.(ul_scope) e.(ul_user) e.(ul_job_id)) (Some (VSlot e)) s.
Definition two_users : kv :=
  add_slot (slot "ann.x" "j2" "b2")
    (add_slot (slot "ann" "j1" "b1")
       (store_msg "leases" (broker_lease_key "b1") (Some (VLease (mkLease "b1" "http://b1" 100 0))) no_messages)).

Lemma add_slot_wf e s : slots_wf (value_at:=value_of) ul s -> slots_wf (value_at:=value_of) ul (add_slot e s).
Proof. eapply slots_wf_put; [reflexivity|apply store_msg_written]. Qed.

Lemma two_users_wf : slots_wf (value_at:=value_of) ul two_users.
Proof. do 2 apply add_slot_wf. by intros k v q. Qed.

Lemma alone_keeps : no_expiry (rev_at:=rev_of) (alone (S:=kv)).
Proof. by intros k s b k' Hk. Qed.

Lemma alone_wf s : slots_wf (value_at:=value_of) ul s ->
  forall s', rtc (elsewhere (value_at:=value_of) eq) s s' -> slots_wf (value_at:=value_of) ul s'.
Proof. intros Hs s' Hr%alone_reached. by eapply slots_wf_same. Qed.

Abbreviation list_slots := (list_user_slots_nats (S:=kv) (Bytes:=datum) alone never).
Abbreviation reclaim := (reclaim_user_slots_nats (S:=kv) (Bytes:=datum) alone never).

Example list_run : fst <$> list_slots "q" "ann" (start two_users) = Some (Ok [with_seq 2 (slot "ann" "j1" "b1")]).
Proof. vm_compute. reflexivity. Qed.

Lemma nats_list_exact_witness :
  exists r w', list_slots "q" "ann" (start two_users) = Some (r, w') /\
    match r with
    | Ok l => forall x, x ∈ l <-> x.(ul_scope) = "q"%string /\ x.(ul_user) = "ann"%string /\
        slot_at (value_at:=value_of) ul "q" "ann" x.(ul_job_id) w'.(cluster) = Some x
    | Err _ => True
    end.
Proof.
  destruct (nats_list_exact (value_at:=value_of) (rev_at:=rev_of) alone never eq (fun k s => eq_refl)
              "q" "ann" (start two_users) alone_keeps (alone_wf _ two_users_wf)) as (r & w' & Hrun & _ & Hr).
  exists r, w'. split; [exact Hrun|]. destruct r; [exact (proj2 Hr)|done].
Defined.

Example reclaim_run : fst <$> reclaim 50 (start two_users) = Some (Ok 1).
Proof. vm_compute. reflexivity. Qed.

Lemma nats_reclaim_exact_witness :
  exists r w', reclaim 50 (start two_users) = Some (r, w') /\
    reclaimed (value_at:=value_of) (live_owner (value_at:=value_of) 50 "leases" two_users) ul two_users w'.(cluster) r.
Proof.
  exact (nats_reclaim_exact (value_at:=value_of) (rev_at:=rev_of) alone never eq (fun k s => eq_refl)
           (fun s s' Hs => eq_ind s (same value_of s) (same_refl value_of s) s' Hs) 50 (start two_users) alone_keeps).
Defined.

Lemma nats_slots_invariant_witness :
  slots_wf (value_at:=value_of) ul
    (reserve_user_slot_nats (Bytes:=datum) alone never 0 "q" "ann" "j3" "b1" (start two_users)).2.(cluster).
Proof.
  destruct (nats_slots_invariant (value_at:=value_of) (rev_at:=rev_of) alone never eq (fun k s => eq_refl)
              (start two_users) (fun s s' Hs Hwf => eq_ind s (slots_wf (value_at:=value_of) ul) Hwf s' Hs) two_users_wf)
    as [Hreserve _].
  exact (Hreserve _ _ _ _ _ _ _ (surjective_pairing _)).
Defined.

(** *** Two races *)

(** Another broker creates the slot of the job between this one's read and
    create, and releases it before the read after the race: the reservation
    answers the revision of the tombstone, and no slot is there. *)
Definition winner_gone (k : nat) (s : kv) : kv :=
  match k with
  | 5 => add_slot (slot "ann" "j1" "b2") s
  | 6 => store_msg ul (user_slot_key "q" "ann" "j1") None s
  | _ => s
  end%nat.

Example phantom_reservation :
  let '(r, w') := reserve_user_slot_nats (Bytes:=datum) winner_gone never 0 "q" "ann" "j1" "b1" (start no_messages) in
  r = Ok 2 /\ slot_at (value_at:=value_of) ul "q" "ann" "j1" w'.(cluster) = None.
Proof. vm_compute. split; reflexivity. Qed.

(** The last tombstone of a user expires between the probe and the watch: the
    watch has nothing to replay and the listing does not return. *)
Definition tombstone_expires (k : nat) (s : kv) : kv :=
  match k with 5 => expire ul (user_slot_key "q" "ann" "j1") s | _ => s end%nat.

Example listing_hangs :
  list_user_slots_nats (Bytes:=datum) tombstone_expires never "q" "ann"
    (start (store_msg ul (user_slot_key "q" "ann" "j1") None no_messages)) = None.
Proof. vm_compute. reflexivity. Qed.
End Sample.
