(* ===== verification/Dispatcher.v ===== *)
(** * The dispatcher ([dispatcher/mod.rs], [executor/async_pool.rs],
    [executor/thread_pool.rs])

    The state [dispatch], [close] and the executor loops share, each atomic
    action on it as a function, and the system they form as a step relation in
    which any number of callers, executor workers and one closer interleave
    between any two actions.  The queue is any [QueueOps]; the work is the
    result it will have. *)
From stdpp Require Import relations.
From S2P Require Import Prelude Errors Job Queue.

Inductive DispatchGuard : Type := GuardNone | GuardCancelled | GuardCancelledOrClientGone.

#[export] Instance DispatchGuard_eq_dec : EqDecision DispatchGuard.
Proof. solve_decision. Defined.

(** The test of [guarded_work] before the work, and [queued_error] while the
    caller waits. *)
Definition check_guard (guard : DispatchGuard) (now : Z) (cell : Lifecycle) : option ActionError :=
  match guard with
  | GuardNone => None
  | GuardCancelled => if cell.(cancelled) then Some Cancelled else None
  | GuardCancelledOrClientGone =>
      if cell.(cancelled) then Some Cancelled
      else if negb (is_client_present now cell) then Some ClientGone else None
  end.

(** [guarded_work]: [None] lets the work run. *)
Definition guarded_work {T} (guard : DispatchGuard) (now : Z) (cell : Lifecycle)
    (work : result ActionError T) : result ActionError T :=
  match check_guard guard now cell with Some err => Err err | None => work end.

(** The recheck under the pending lock. *)
Definition still_abandoned (error : ActionError) (now : Z) (cell : Lifecycle) : bool :=
  match error with
  | Cancelled => cell.(cancelled)
  | ClientGone => negb (is_client_present now cell)
  | _ => false
  end.

(** ** The shared state *)

(** An entry of the pending map: the reply channel is named by the call that
    waits on it. *)
Record PendingItem : Type := mkItem { item_guard : DispatchGuard; item_call : nat; item_permit : bool }.

Record Dispatcher (Q : Type) : Type := mkDispatcher {
  queue : Q;
  pending : gmap string PendingItem;
  permits : Z;
  admission_closed : bool;
  closing : bool;
  queue_depth : Z
}.
Arguments mkDispatcher {Q}. Arguments queue {Q}. Arguments pending {Q}. Arguments permits {Q}.
Arguments admission_closed {Q}. Arguments closing {Q}. Arguments queue_depth {Q}.

Inductive TryAcquireError : Type := NoPermits | AcquireClosed.

Definition dispatcher_closed : ActionError := ResourceError "dispatcher closed".
Definition dispatcher_full : ActionError := QueueFull "dispatcher queue is full".

Section dispatcher.
Context {Q J : Type} `{QueueOps Q J} (job_id : J -> string).
Notation Dispatcher := (Dispatcher Q).

(** [Dispatcher::new]; the executor's scheduler starts on the shared maps. *)
Definition new (q : Q) (queue_capacity : Z) : result string Dispatcher :=
  if queue_capacity =? 0 then Err "queue_capacity must be greater than zero"%string
  else Ok (mkDispatcher q ∅ queue_capacity false false 0).

(** *** Actions of [dispatch] *)

Definition add_permits (n : Z) (d : Dispatcher) : Dispatcher :=
  mkDispatcher d.(queue) d.(pending) (d.(permits) + n) d.(admission_closed) d.(closing) d.(queue_depth).

(** [admission.try_acquire_owned()]. *)
Definition try_acquire_owned (d : Dispatcher) : result TryAcquireError unit * Dispatcher :=
  if d.(admission_closed) then (Err AcquireClosed, d)
  else if d.(permits) =? 0 then (Err NoPermits, d)
  else (Ok tt, add_permits (-1) d).

Definition acquire_error (e : TryAcquireError) : ActionError :=
  match e with NoPermits => dispatcher_full | AcquireClosed => dispatcher_closed end.

(** Dropping the permit of an item, when it still holds one. *)
Definition drop_permit (it : PendingItem) (d : Dispatcher) : Dispatcher :=
  if it.(item_permit) then add_permits 1 d else d.

Definition with_pending (m : gmap string PendingItem) (d : Dispatcher) : Dispatcher :=
  mkDispatcher d.(queue) m d.(permits) d.(admission_closed) d.(closing) d.(queue_depth).

(** Locking the map, rechecking [closing], inserting.  An entry that was there
    under the same id is dropped, permit and reply channel with it. *)
Definition insert_pending (id : string) (it : PendingItem) (d : Dispatcher)
    : result ActionError (option PendingItem) * Dispatcher :=
  if d.(closing) then (Err dispatcher_closed, add_permits 1 d)
  else let old := d.(pending) !! id in
       let d := with_pending (<[id := it]> d.(pending)) d in
       (Ok old, match old with Some o => drop_permit o d | None => d end).

Definition add_depth (n : Z) (d : Dispatcher) : Dispatcher :=
  mkDispatcher d.(queue) d.(pending) d.(permits) d.(admission_closed) d.(closing) (d.(queue_depth) + n).

Definition with_queue (q : Q) (d : Dispatcher) : Dispatcher :=
  mkDispatcher q d.(pending) d.(permits) d.(admission_closed) d.(closing) d.(queue_depth).

(** Locking the map and removing an entry. *)
Definition take_pending (id : string) (d : Dispatcher) : option PendingItem * Dispatcher :=
  (d.(pending) !! id, with_pending (delete id d.(pending)) d).

(** What the winner of a removal owes: the permit back and one off the gauge. *)
Definition settle (it : PendingItem) (d : Dispatcher) : Dispatcher := add_depth (-1) (drop_permit it d).

(** *** Actions of [close] *)

Definition close_flag (d : Dispatcher) : Dispatcher :=
  mkDispatcher d.(queue) d.(pending) d.(permits) d.(admission_closed) true d.(queue_depth).
Definition close_admission (d : Dispatcher) : Dispatcher :=
  mkDispatcher d.(queue) d.(pending) d.(permits) true d.(closing) d.(queue_depth).
Definition close_queue (d : Dispatcher) : Dispatcher := with_queue (close d.(queue)) d.

(** Draining the map: the stranded items lose their permits, the gauge goes
    down by their number, and their calls are answered. *)
Definition drain (d : Dispatcher) : list PendingItem * Dispatcher :=
  let stranded := (map_to_list d.(pending)).*2 in
  (stranded, add_depth (- Z.of_nat (length stranded))
               (with_pending ∅ (fold_right drop_permit d stranded))).

(** [close], its four actions in order. *)
Definition close_dispatcher (d : Dispatcher) : list PendingItem * Dispatcher :=
  drain (close_queue (close_admission (close_flag d))).

(** ** The system *)

Context {T : Type}.

(** How far one call of [dispatch] is.  The wait loop is [CWaiting];
    [CDraining] has lost the removal race and only awaits the reply. *)
Inductive call_phase : Type :=
| CNew | CAdmitted | CPermit | CChecked | CInserted | CCounted | CWaiting | CDraining
| CDone (r : result ActionError T)
| CAbandoned (e : ActionError)
| CDropped.

(** The reply channel as its receiver sees it. *)
Inductive reply_state : Type :=
| ReplyOpen
| ReplySent (r : result ActionError T)
| ReplyDropped.

Record Call : Type := mkCall {
  call_job : J;
  call_guard : DispatchGuard;
  call_cell : Lifecycle;
  call_phase_of : call_phase;
  call_reply : reply_state
}.

Definition to_phase (ph : call_phase) (c : Call) : Call :=
  mkCall c.(call_job) c.(call_guard) c.(call_cell) ph c.(call_reply).
Definition to_reply (r : reply_state) (c : Call) : Call :=
  mkCall c.(call_job) c.(call_guard) c.(call_cell) c.(call_phase_of) r.
Definition to_cell (l : Lifecycle) (c : Call) : Call :=
  mkCall c.(call_job) c.(call_guard) l c.(call_phase_of) c.(call_reply).

(** [reply_tx.is_closed()]: the future that awaited the reply is gone. *)
Definition receiver_gone (c : Call) : bool :=
  match c.(call_phase_of) with CDone _ | CAbandoned _ | CDropped => true | _ => false end.

(** The shared state; the calls; the jobs a worker has dequeued and not yet
    looked up; the removed items not settled yet; the calls whose work is in an
    executor's hands, and those whose work has been started; how many of
    [close]'s four actions have run. *)
Record sys : Type := mkSys {
  disp : Dispatcher;
  calls : gmap nat Call;
  in_hand : list J;
  unsettled : list PendingItem;
  running : gset nat;
  started : gset nat;
  close_stage : nat
}.

Definition upd_disp (d : Dispatcher) (s : sys) : sys :=
  mkSys d s.(calls) s.(in_hand) s.(unsettled) s.(running) s.(started) s.(close_stage).
Definition upd_call (c : nat) (x : Call) (s : sys) : sys :=
  mkSys s.(disp) (<[c := x]> s.(calls)) s.(in_hand) s.(unsettled) s.(running) s.(started) s.(close_stage).
Definition upd_in_hand (l : list J) (s : sys) : sys :=
  mkSys s.(disp) s.(calls) l s.(unsettled) s.(running) s.(started) s.(close_stage).
Definition upd_unsettled (l : list PendingItem) (s : sys) : sys :=
  mkSys s.(disp) s.(calls) s.(in_hand) l s.(running) s.(started) s.(close_stage).
Definition upd_running (r : gset nat) (s : sys) : sys :=
  mkSys s.(disp) s.(calls) s.(in_hand) s.(unsettled) r s.(started) s.(close_stage).
Definition upd_started (r : gset nat) (s : sys) : sys :=
  mkSys s.(disp) s.(calls) s.(in_hand) s.(unsettled) s.(running) r s.(close_stage).
Definition upd_stage (d : Dispatcher) (n : nat) (s : sys) : sys :=
  mkSys d s.(calls) s.(in_hand) s.(unsettled) s.(running) s.(started) n.

Definition sys_new (d : Dispatcher) : sys := mkSys d ∅ [] [] ∅ ∅ 0.

(** Answering, or dropping the channel of, the calls of some items. *)
Definition reply_to (r : reply_state) (c : nat) (m : gmap nat Call) : gmap nat Call :=
  alter (to_reply r) c m.

Arguments reply_to : simpl never.

Definition upd_calls (m : gmap nat Call) (s : sys) : sys :=
  mkSys s.(disp) m s.(in_hand) s.(unsettled) s.(running) s.(started) s.(close_stage).

(** Only while it awaits can a dispatch future be dropped. *)
Definition at_await (ph : call_phase) : bool :=
  match ph with CNew | CWaiting | CDraining => true | _ => false end.

(** The call gave its answer. *)
Definition returned (ph : call_phase) : bool :=
  match ph with CDone _ | CAbandoned _ => true | _ => false end.

(** A job is dispatched by one route at a time, so a call finds the earlier ones
    of its job returned; of other jobs any number of calls is under way.
    [close] drains the map and answers the drained calls in one step. *)
Inductive step : sys -> sys -> Prop :=
(* the caller: [dispatch] up to the wait loop *)
| step_call s c job guard cell :
    s.(calls) !! c = None ->
    (forall c' x, s.(calls) !! c' = Some x -> job_id x.(call_job) = job_id job -> returned x.(call_phase_of) = true) ->
    step s (upd_call c (mkCall job guard cell CNew ReplyOpen) s)
| step_limit s c x msg :
    s.(calls) !! c = Some x -> x.(call_phase_of) = CNew ->
    step s (upd_call c (to_phase (CDone (Err (UserLimitExceeded msg))) x) s)
| step_admitted s c x :
    s.(calls) !! c = Some x -> x.(call_phase_of) = CNew ->
    step s (upd_call c (to_phase CAdmitted x) s)
| step_acquire s c x r d :
    s.(calls) !! c = Some x -> x.(call_phase_of) = CAdmitted ->
    try_acquire_owned s.(disp) = (r, d) ->
    step s (upd_call c (to_phase (match r with
                                  | Ok _ => CPermit
                                  | Err e => CDone (Err (acquire_error e))
                                  end) x) (upd_disp d s))
| step_precheck s c x :
    s.(calls) !! c = Some x -> x.(call_phase_of) = CPermit ->
    step s (if s.(disp).(closing)
            then upd_call c (to_phase (CDone (Err dispatcher_closed)) x) (upd_disp (add_permits 1 s.(disp)) s)
            else upd_call c (to_phase CChecked x) s)
| step_insert_refused s c x e d :
    s.(calls) !! c = Some x -> x.(call_phase_of) = CChecked ->
    insert_pending (job_id x.(call_job)) (mkItem x.(call_guard) c true) s.(disp) = (Err e, d) ->
    step s (upd_call c (to_phase (CDone (Err e)) x) (upd_disp d s))
| step_insert s c x old d :
    s.(calls) !! c = Some x -> x.(call_phase_of) = CChecked ->
    insert_pending (job_id x.(call_job)) (mkItem x.(call_guard) c true) s.(disp) = (Ok old, d) ->
    step s (upd_calls (<[c := to_phase CInserted x]>
                         (match old with
                          | Some o => reply_to ReplyDropped o.(item_call) s.(calls)
                          | None => s.(calls)
                          end)) (upd_disp d s))
| step_count s c x :
    s.(calls) !! c = Some x -> x.(call_phase_of) = CInserted ->
    step s (upd_call c (to_phase CCounted x) (upd_disp (add_depth 1 s.(disp)) s))
| step_enqueue s c x :
    s.(calls) !! c = Some x -> x.(call_phase_of) = CCounted ->
    step s (upd_call c (to_phase CWaiting x)
              (upd_disp (with_queue (enqueue x.(call_job) s.(disp).(queue)) s.(disp)) s))
(* the wait loop *)
| step_abandon s c x now0 cell0 error now it d :
    s.(calls) !! c = Some x -> x.(call_phase_of) = CWaiting ->
    check_guard x.(call_guard) now0 cell0 = Some error ->
    still_abandoned error now x.(call_cell) = true ->
    take_pending (job_id x.(call_job)) s.(disp) = (it, d) ->
    step s (match it with
            | Some it => upd_unsettled (it :: s.(unsettled))
                           (upd_calls (reply_to ReplyDropped it.(item_call)
                                         (<[c := to_phase (CAbandoned error) x]> s.(calls))) (upd_disp d s))
            | None => upd_call c (to_phase CDraining x) s
            end)
| step_receive s c x r :
    s.(calls) !! c = Some x -> (x.(call_phase_of) = CWaiting \/ x.(call_phase_of) = CDraining) ->
    match x.(call_reply) with
    | ReplyOpen => None
    | ReplySent r => Some r
    | ReplyDropped => Some (Err dispatcher_closed)
    end = Some r ->
    step s (upd_call c (to_phase (CDone r) x) s)
| step_drop s c x :
    s.(calls) !! c = Some x -> at_await x.(call_phase_of) = true ->
    step s (upd_call c (to_phase CDropped x) s)
| step_settle s l1 it l2 :
    s.(unsettled) = l1 ++ it :: l2 ->
    step s (upd_unsettled (l1 ++ l2) (upd_disp (settle it s.(disp)) s))
(* the executor's loop *)
| step_dequeue s j q :
    dequeue s.(disp).(queue) = Dequeued j q ->
    step s (upd_in_hand (j :: s.(in_hand)) (upd_disp (with_queue q s.(disp)) s))
| step_take s l1 j l2 it d :
    s.(in_hand) = l1 ++ j :: l2 ->
    take_pending (job_id j) s.(disp) = (it, d) ->
    step s (upd_in_hand (l1 ++ l2)
              (match it with
               | None => s
               | Some it => upd_unsettled (it :: s.(unsettled))
                              (upd_running ({[it.(item_call)]} ∪ s.(running)) (upd_disp d s))
               end))
| step_skip s c x :
    c ∈ s.(running) -> c ∉ s.(started) -> s.(calls) !! c = Some x -> receiver_gone x = true ->
    step s (upd_running (s.(running) ∖ {[c]}) (upd_calls (reply_to ReplyDropped c s.(calls)) s))
| step_begin s c x now :
    c ∈ s.(running) -> c ∉ s.(started) -> s.(calls) !! c = Some x ->
    step s (match check_guard x.(call_guard) now x.(call_cell) with
            | Some err => upd_running (s.(running) ∖ {[c]})
                            (upd_calls (reply_to (ReplySent (Err err)) c s.(calls)) s)
            | None => upd_started ({[c]} ∪ s.(started)) s
            end)
| step_finish s c r :
    c ∈ s.(running) -> c ∈ s.(started) ->
    step s (upd_running (s.(running) ∖ {[c]}) (upd_calls (reply_to (ReplySent r) c s.(calls)) s))
(* the work panics, and the reply channel with it *)
| step_panic s c :
    c ∈ s.(running) -> c ∈ s.(started) ->
    step s (upd_running (s.(running) ∖ {[c]}) (upd_calls (reply_to ReplyDropped c s.(calls)) s))
(* [close] *)
| step_close_flag s :
    s.(close_stage) = 0%nat -> step s (upd_stage (close_flag s.(disp)) 1 s)
| step_close_admission s :
    s.(close_stage) = 1%nat -> step s (upd_stage (close_admission s.(disp)) 2 s)
| step_close_queue s :
    s.(close_stage) = 2%nat -> step s (upd_stage (close_queue s.(disp)) 3 s)
| step_drain s stranded d :
    s.(close_stage) = 3%nat -> drain s.(disp) = (stranded, d) ->
    step s (upd_calls (foldr (reply_to (ReplySent (Err dispatcher_closed))) s.(calls) (item_call <$> stranded))
              (upd_stage d 4 s))
(* cancellations, pollers and deadlines of the job *)
| step_cell s c x cell :
    s.(calls) !! c = Some x -> (x.(call_cell).(cancelled) = true -> cell.(cancelled) = true) ->
    step s (upd_call c (to_cell cell x) s).

(** One iteration of an executor's loop up to [work.await]: the call whose work
    is to run, if any.  [gone] is [reply_tx.is_closed()]. *)
Definition async_pool_turn (gone : nat -> bool) (d : Dispatcher) : option nat * Dispatcher :=
  match dequeue d.(queue) with
  | Waiting | Closed => (None, d)
  | Dequeued job q =>
      match take_pending (job_id job) (with_queue q d) with
      | (None, d) => (None, d)
      | (Some item, d) =>
          let d := settle item d in
          (if gone item.(item_call) then None else Some item.(item_call), d)
      end
  end.

(** The thread pool's loop is the same up to where the future is polled. *)
Definition thread_pool_turn (gone : nat -> bool) (d : Dispatcher) : option nat * Dispatcher :=
  async_pool_turn gone d.

(** ** Who owns a call's reply *)

Definition early (ph : call_phase) : bool :=
  match ph with CNew | CAdmitted | CPermit | CChecked => true | _ => false end.
Definition posted (ph : call_phase) : bool :=
  match ph with CInserted | CCounted | CWaiting | CDraining => true | _ => false end.
Definition alive (ph : call_phase) : bool :=
  match ph with CDropped => true | _ => posted ph end.
Definition abandoned (ph : call_phase) : bool :=
  match ph with CAbandoned _ => true | _ => false end.

(** Every entry of the map, and every call an executor has, is a call whose
    channel is open; a caller past insertion with an open channel is in one of
    the two places; the rest are not.  Of the calls of one job one has not
    returned. *)
Record owned (m : gmap nat Call) (p : gmap string PendingItem) (run st : gset nat) : Prop := mkOwned {
  own_uniq c1 c2 x1 x2 :
    m !! c1 = Some x1 -> m !! c2 = Some x2 -> job_id x1.(call_job) = job_id x2.(call_job) ->
    returned x1.(call_phase_of) = false -> returned x2.(call_phase_of) = false -> c1 = c2;
  own_pend id it :
    p !! id = Some it -> it.(item_permit) = true /\ it.(item_call) ∉ run /\ it.(item_call) ∉ st /\
    exists x, m !! it.(item_call) = Some x /\ job_id x.(call_job) = id /\
              x.(call_reply) = ReplyOpen /\ alive x.(call_phase_of) = true;
  own_run c : c ∈ run ->
    exists x, m !! c = Some x /\ x.(call_reply) = ReplyOpen /\ alive x.(call_phase_of) = true;
  own_open c x :
    m !! c = Some x -> posted x.(call_phase_of) = true -> x.(call_reply) = ReplyOpen ->
    (exists it, p !! job_id x.(call_job) = Some it /\ it.(item_call) = c) \/ c ∈ run;
  own_early c x :
    m !! c = Some x -> early x.(call_phase_of) = true \/ abandoned x.(call_phase_of) = true -> c ∉ st;
  own_early_open c x :
    m !! c = Some x -> early x.(call_phase_of) = true -> x.(call_reply) = ReplyOpen;
  own_started c : c ∈ st -> is_Some (m !! c)
}.

Lemma not_alive_early ph : early ph = true \/ abandoned ph = true -> alive ph = true -> False.
Proof. by destruct ph; simpl; intros [?|?]. Qed.

Lemma alive_not_returned ph : alive ph = true -> returned ph = false.
Proof. by destruct ph. Qed.
Lemma early_not_returned ph : early ph = true -> returned ph = false.
Proof. by destruct ph. Qed.
Lemma posted_not_returned ph : posted ph = true -> returned ph = false.
Proof. by destruct ph. Qed.
#[local] Hint Resolve alive_not_returned early_not_returned posted_not_returned : core.

(** Calls change, job ids do not, and what has returned stays so. *)
Lemma own_uniq_update m p run st c x y :
  owned m p run st -> m !! c = Some x -> call_job y = call_job x ->
  (returned x.(call_phase_of) = true -> returned y.(call_phase_of) = true) ->
  forall c1 c2 x1 x2, <[c := y]> m !! c1 = Some x1 -> <[c := y]> m !! c2 = Some x2 ->
    job_id x1.(call_job) = job_id x2.(call_job) ->
    returned x1.(call_phase_of) = false -> returned x2.(call_phase_of) = false -> c1 = c2.
Proof.
  intros Ho Hc Hj Hret c1 c2 x1 x2. rewrite !lookup_insert_Some.
  assert (returned y.(call_phase_of) = false -> returned x.(call_phase_of) = false) as Hr
    by (destruct (returned x.(call_phase_of)); [by rewrite Hret|done]).
  intros [[<- <-]|[? ?]] [[<- <-]|[? ?]]; try done; rewrite ?Hj; intros ???; eapply own_uniq; eauto.
Qed.

Lemma owned_phase m p run st c x ph :
  owned m p run st -> m !! c = Some x ->
  (posted ph = true -> posted x.(call_phase_of) = true) ->
  (early ph = true -> early x.(call_phase_of) = true) ->
  (alive x.(call_phase_of) = true -> x.(call_reply) = ReplyOpen -> alive ph = true) ->
  abandoned ph = false ->
  (returned x.(call_phase_of) = true -> returned ph = true) ->
  owned (<[c := to_phase ph x]> m) p run st.
Proof.
  intros Ho Hc Hp He Ha Hb Hret. pose proof Ho as [Hu Hpend Hrun Hopen Hearly Heo Hst]. split.
  - by eapply own_uniq_update.
  - intros id it Hit. destruct (Hpend id it Hit) as (? & ? & ? & y & Hy & ? & ? & ?). split_and!; [done..|].
    destruct (decide (c = item_call it)) as [->|]; [|by rewrite lookup_insert_ne; eauto].
    rewrite lookup_insert_eq. simplify_eq. eexists. split_and!; [done..|simpl; auto].
  - intros c' Hc'. destruct (Hrun c' Hc') as (y & Hy & ? & ?).
    destruct (decide (c = c')) as [->|]; [|by rewrite lookup_insert_ne; eauto].
    rewrite lookup_insert_eq. simplify_eq. eexists. split_and!; [done..|simpl; auto].
  - intros c' y. rewrite lookup_insert_Some. intros [[<- <-]|[? ?]]; simpl; eauto.
  - intros c' y. rewrite lookup_insert_Some. intros [[<- <-]|[? ?]]; simpl; [|eauto].
    intros [?|?]; [|congruence]. eapply Hearly; eauto.
  - intros c' y. rewrite lookup_insert_Some. intros [[<- <-]|[? ?]]; simpl; eauto.
  - intros c' Hc'. destruct (decide (c = c')) as [->|]; [by rewrite lookup_insert_eq|].
    rewrite lookup_insert_ne by done. auto.
Qed.

Lemma owned_insert m p run st c x :
  owned m p run st -> m !! c = Some x -> x.(call_phase_of) = CChecked ->
  p !! job_id x.(call_job) = None /\
  owned (<[c := to_phase CInserted x]> m)
        (<[job_id x.(call_job) := mkItem x.(call_guard) c true]> p) run st.
Proof.
  intros Ho Hc Hph. pose proof Ho as [Hu Hpend Hrun Hopen Hearly Heo Hst].
  assert (early (call_phase_of x) = true) as Hex by by rewrite Hph.
  assert (p !! job_id x.(call_job) = None) as Hnone.
  { apply eq_None_not_Some. intros [it Hit]. destruct (Hpend _ _ Hit) as (_ & _ & _ & y & Hy & Hj & _ & Hal).
    assert (item_call it = c) as Hic by eauto. rewrite Hic in Hy. simplify_eq.
    by eapply not_alive_early; [left|]. }
  assert (c ∉ run) as Hnr.
  { intros Hr. destruct (Hrun _ Hr) as (y & Hy & _ & Hal). simplify_eq. by eapply not_alive_early; [left|]. }
  split; [done|]. split.
  - eapply own_uniq_update; [done..|by rewrite Hph].
  - intros id it. rewrite lookup_insert_Some. intros [[<- <-]|[Hne Hit]]; simpl.
    + split_and!; [done|done|by eapply Hearly; eauto|].
      exists (to_phase CInserted x). rewrite lookup_insert_eq. split_and!; [done..|simpl; by eapply Heo|done].
    + destruct (Hpend id it Hit) as (? & ? & ? & y & Hy & ? & ? & ?). split_and!; [done..|].
      rewrite lookup_insert_ne by naive_solver. eauto.
  - intros c' Hc'. destruct (Hrun c' Hc') as (y & Hy & ? & ?).
    rewrite lookup_insert_ne by naive_solver. eauto.
  - intros c' y. rewrite lookup_insert_Some. intros [[<- <-]|[Hne Hy]]; simpl.
    + intros _ _. left. eexists. by rewrite lookup_insert_eq.
    + intros Hpo Hop. rewrite lookup_insert_ne; [by apply Hopen|]. intros Heq. apply Hne, (Hu _ _ _ _ Hc Hy); auto.
  - intros c' y. rewrite lookup_insert_Some. intros [[<- <-]|[? ?]]; simpl; [by intros [?|?]|eauto].
  - intros c' y. rewrite lookup_insert_Some. intros [[<- <-]|[? ?]]; simpl; [done|eauto].
  - intros c' Hc'. destruct (decide (c = c')) as [->|]; [by rewrite lookup_insert_eq|].
    rewrite lookup_insert_ne by done. auto.
Qed.

(** Taking an item out for an executor. *)
Lemma owned_take m p run st id it :
  owned m p run st -> p !! id = Some it -> owned m (delete id p) ({[it.(item_call)]} ∪ run) st.
Proof.
  intros Ho Hit. pose proof Ho as [Hu Hpend Hrun Hopen Hearly Heo Hst].
  destruct (Hpend _ _ Hit) as (_ & _ & _ & x & Hx & Hj & Hr & Ha). split; [done| | | |done..].
  - intros id' it' [Hne Hit']%lookup_delete_Some. destruct (Hpend _ _ Hit') as (? & ? & ? & y & Hy & Hjy & ? & ?).
    split_and!; [done| |done|eauto]. apply not_elem_of_union. split; [|done].
    intros Heq%elem_of_singleton. rewrite Heq in Hy. congruence.
  - intros c [->%elem_of_singleton|Hc]%elem_of_union; eauto.
  - intros c y Hy Hp Hop. destruct (decide (c = item_call it)) as [->|Hne]; [right; set_solver|].
    destruct (Hopen _ _ Hy Hp Hop) as [(it' & Hit' & Hc)|?]; [left|right; set_solver].
    exists it'. split; [|done]. rewrite lookup_delete_ne; [done|]. intros Heq.
    rewrite <- Heq in Hit'. simplify_eq.
Qed.

(** An executor lets go of a call and its channel is settled. *)
Lemma owned_release m p run st c r :
  owned m p run st -> c ∈ run -> r <> ReplyOpen -> owned (reply_to r c m) p (run ∖ {[c]}) st.
Proof.
  intros Ho Hc Hr. pose proof Ho as [Hu Hpend Hrun Hopen Hearly Heo Hst].
  destruct (Hrun _ Hc) as (x & Hx & Hxo & Hxa).
  assert (reply_to r c m = <[c := to_reply r x]> m) as ->.
  { unfold reply_to. apply map_eq. intros i. destruct (decide (c = i)) as [->|].
    - by rewrite lookup_alter_eq, lookup_insert_eq, Hx.
    - by rewrite lookup_alter_ne, lookup_insert_ne. }
  split.
  - by eapply own_uniq_update.
  - intros id it Hit. destruct (Hpend id it Hit) as (? & Hn & ? & y & Hy & ? & ? & ?).
    split_and!; [done|set_solver|done|]. rewrite lookup_insert_ne; [eauto|]. by intros ->.
  - intros c' [Hc' Hne%not_elem_of_singleton]%elem_of_difference.
    destruct (Hrun c' Hc') as (y & Hy & ? & ?). rewrite lookup_insert_ne by done. eauto.
  - intros c' y. rewrite lookup_insert_Some. intros [[<- <-]|[Hne Hy]]; simpl; [done|].
    intros Hp Hop. destruct (Hopen _ _ Hy Hp Hop); [by left|right; set_solver].
  - intros c' y. rewrite lookup_insert_Some. intros [[<- <-]|[? ?]]; simpl; eauto.
  - intros c' y. rewrite lookup_insert_Some. intros [[<- <-]|[? ?]]; simpl; [|eauto].
    intros He. exfalso. by eapply not_alive_early; [left|].
  - intros c' Hc'. destruct (decide (c = c')) as [->|]; [by rewrite lookup_insert_eq|].
    rewrite lookup_insert_ne by done. auto.
Qed.

(** The caller wins the removal of its own item. *)
Lemma owned_abandon m p run st c x e it :
  owned m p run st -> m !! c = Some x -> x.(call_phase_of) = CWaiting ->
  p !! job_id x.(call_job) = Some it ->
  it.(item_call) = c /\
  owned (reply_to ReplyDropped c (<[c := to_phase (CAbandoned e) x]> m))
        (delete (job_id x.(call_job)) p) run st.
Proof.
  intros Ho Hc Hph Hit. pose proof Ho as [Hu Hpend Hrun Hopen Hearly Heo Hst].
  destruct (Hpend _ _ Hit) as (_ & Hnr & Hns & y & Hy & Hj & _ & Hal).
  assert (item_call it = c) as Hic by (eapply Hu; eauto; by rewrite Hph). rewrite Hic in *. simplify_eq. split; [done|].
  assert (reply_to ReplyDropped (item_call it) (<[item_call it := to_phase (CAbandoned e) x]> m)
          = <[item_call it := to_reply ReplyDropped (to_phase (CAbandoned e) x)]> m) as ->.
  { unfold reply_to. apply map_eq. intros i. destruct (decide (item_call it = i)) as [->|].
    - by rewrite lookup_alter_eq, !lookup_insert_eq.
    - by rewrite lookup_alter_ne, !lookup_insert_ne. }
  split.
  - eapply own_uniq_update; [done..|by rewrite Hph].
  - intros id it' [Hne Hit']%lookup_delete_Some. destruct (Hpend _ _ Hit') as (? & ? & ? & y & Hy' & ? & ? & ?).
    split_and!; [done..|]. rewrite lookup_insert_ne; [eauto|]. intros Heq. rewrite <- Heq in Hy'. congruence.
  - intros c' Hc'. destruct (Hrun c' Hc') as (y & Hy' & ? & ?). rewrite lookup_insert_ne by naive_solver. eauto.
  - intros c' y. rewrite lookup_insert_Some. intros [[<- <-]|[Hne Hy']]; simpl; [done|].
    intros Hp Hop. destruct (Hopen _ _ Hy' Hp Hop) as [(it' & Hit' & Hc')|?]; [left|by right].
    exists it'. split; [|done]. rewrite lookup_delete_ne; [done|]. intros Heq.
    rewrite <- Heq in Hit'. simplify_eq.
  - intros c' y. rewrite lookup_insert_Some. intros [[<- <-]|[? ?]]; simpl; eauto.
  - intros c' y. rewrite lookup_insert_Some. intros [[<- <-]|[? ?]]; simpl; [done|eauto].
  - intros c' Hc'. destruct (decide (item_call it = c')) as [->|]; [by rewrite lookup_insert_eq|].
    rewrite lookup_insert_ne by done. auto.
Qed.

Lemma owned_call m p run st c job guard cell :
  owned m p run st -> m !! c = None ->
  (forall c' x, m !! c' = Some x -> job_id x.(call_job) = job_id job -> returned x.(call_phase_of) = true) ->
  owned (<[c := mkCall job guard cell CNew ReplyOpen]> m) p run st.
Proof.
  intros Ho Hc Hid. pose proof Ho as [Hu Hpend Hrun Hopen Hearly Heo Hst]. split.
  - intros c1 c2 x1 x2. rewrite !lookup_insert_Some.
    intros [[<- <-]|[? Hx1]] [[<- <-]|[? Hx2]] Heq Hr1 Hr2; [done|..].
    + rewrite (Hid _ _ Hx2) in Hr2; done.
    + rewrite (Hid _ _ Hx1) in Hr1; done.
    + by eapply Hu.
  - intros id it Hit. destruct (Hpend id it Hit) as (? & ? & ? & y & Hy & ? & ? & ?). split_and!; [done..|].
    rewrite lookup_insert_ne by naive_solver. eauto.
  - intros c' Hc'. destruct (Hrun c' Hc') as (y & Hy & ? & ?). rewrite lookup_insert_ne by naive_solver. eauto.
  - intros c' y. rewrite lookup_insert_Some. intros [[<- <-]|[? ?]]; simpl; [done|eauto].
  - intros c' y. rewrite lookup_insert_Some. intros [[<- <-]|[? ?]]; simpl; [|eauto].
    intros _ Hs. destruct (Hst _ Hs) as [? ?]. congruence.
  - intros c' y. rewrite lookup_insert_Some. intros [[<- <-]|[? ?]]; simpl; [done|eauto].
  - intros c' Hc'. destruct (decide (c = c')) as [->|]; [by rewrite lookup_insert_eq|].
    rewrite lookup_insert_ne by done. auto.
Qed.

Lemma owned_start m p run st c : owned m p run st -> c ∈ run -> owned m p run ({[c]} ∪ st).
Proof.
  intros Ho Hc. pose proof Ho as [Hu Hpend Hrun Hopen Hearly Heo Hst]. destruct (Hrun _ Hc) as (x & Hx & ? & Ha).
  split; [done| |done..| |done|].
  - intros id it Hit. destruct (Hpend id it Hit) as (? & ? & ? & ?). split_and!; [done|done|set_solver|done].
  - intros c' y Hy He. apply not_elem_of_union. split; [|eauto].
    intros ->%elem_of_singleton. simplify_eq. by eapply not_alive_early.
  - intros c' [->%elem_of_singleton|?]%elem_of_union; eauto.
Qed.

Lemma owned_cell m p run st c x cell :
  owned m p run st -> m !! c = Some x -> owned (<[c := to_cell cell x]> m) p run st.
Proof.
  intros Ho Hc. pose proof Ho as [Hu Hpend Hrun Hopen Hearly Heo Hst]. split.
  - by eapply own_uniq_update.
  - intros id it Hit. destruct (Hpend id it Hit) as (? & ? & ? & y & Hy & ? & ? & ?). split_and!; [done..|].
    destruct (decide (c = item_call it)) as [->|]; [|by rewrite lookup_insert_ne; eauto].
    rewrite lookup_insert_eq. simplify_eq. by eexists.
  - intros c' Hc'. destruct (Hrun c' Hc') as (y & Hy & ? & ?).
    destruct (decide (c = c')) as [->|]; [|by rewrite lookup_insert_ne; eauto].
    rewrite lookup_insert_eq. simplify_eq. by eexists.
  - intros c' y. rewrite lookup_insert_Some. intros [[<- <-]|[? ?]]; simpl; eauto.
  - intros c' y. rewrite lookup_insert_Some. intros [[<- <-]|[? ?]]; simpl; eauto.
  - intros c' y. rewrite lookup_insert_Some. intros [[<- <-]|[? ?]]; simpl; eauto.
  - intros c' Hc'. destruct (decide (c = c')) as [->|]; [by rewrite lookup_insert_eq|].
    rewrite lookup_insert_ne by done. auto.
Qed.

Lemma reply_all_lookup r l (m : gmap nat Call) c :
  foldr (reply_to r) m l !! c = if decide (c ∈ l) then to_reply r <$> m !! c else m !! c.
Proof.
  induction l as [|a l IH]; cbn [foldr]; [by destruct (decide (c ∈ [])) as [?%not_elem_of_nil|]|].
  unfold reply_to at 1. destruct (decide (c ∈ a :: l)) as [Hin|Hn].
  - destruct (decide (c = a)) as [->|Hne].
    + rewrite lookup_alter_eq, IH. case_decide; [|done]. by destruct (m !! a).
    + rewrite lookup_alter_ne, IH by done. apply elem_of_cons in Hin as [|Hin]; [done|]. by destruct (decide (c ∈ l)).
  - apply not_elem_of_cons in Hn as [Hne Hn]. rewrite lookup_alter_ne, IH by done. by destruct (decide (c ∈ l)).
Qed.

Lemma owned_drain m p run st r :
  owned m p run st -> r <> ReplyOpen ->
  owned (foldr (reply_to r) m (item_call <$> (map_to_list p).*2)) ∅ run st.
Proof.
  intros Ho Hr. pose proof Ho as [Hu Hpend Hrun Hopen Hearly Heo Hst].
  set (l := item_call <$> (map_to_list p).*2).
  assert (forall c, c ∈ l -> exists id it, p !! id = Some it /\ item_call it = c) as Hl.
  { intros c (it & -> & ([id it'] & -> & Hit%elem_of_map_to_list)%list_elem_of_fmap)%list_elem_of_fmap. eauto. }
  assert (forall c y, foldr (reply_to r) m l !! c = Some y ->
            exists x, m !! c = Some x /\ y = (if decide (c ∈ l) then to_reply r x else x)) as Hlook.
  { intros c y. rewrite reply_all_lookup. case_decide; [|eauto].
    destruct (m !! c); simpl; [|done]. intros [= <-]. eauto. }
  assert (forall c x, m !! c = Some x ->
            foldr (reply_to r) m l !! c = Some (if decide (c ∈ l) then to_reply r x else x)) as Hlook'.
  { intros c x Hx. rewrite reply_all_lookup, Hx. by case_decide. }
  split.
  - intros c1 c2 y1 y2 (x1 & H1 & ->)%Hlook (x2 & H2 & ->)%Hlook Heq Hr1 Hr2. eapply Hu; [done..| | |]; by repeat case_decide.
  - intros id it. by rewrite lookup_empty.
  - intros c Hc. destruct (Hrun _ Hc) as (x & Hx & ? & ?). exists x. rewrite (Hlook' _ _ Hx).
    case_decide as Hin; [|done]. destruct (Hl _ Hin) as (id & it & Hit & <-).
    by destruct (Hpend _ _ Hit) as (_ & ? & _).
  - intros c y (x & Hx & ->)%Hlook. case_decide as Hin; simpl; [done|].
    intros Hp Hop. destruct (Hopen _ _ Hx Hp Hop) as [(it & Hit & Hc)|?]; [|by right].
    exfalso. apply Hin. apply list_elem_of_fmap. exists it. split; [done|].
    apply list_elem_of_fmap. exists (job_id (call_job x), it). split; [done|]. by apply elem_of_map_to_list.
  - intros c y (x & Hx & ->)%Hlook. case_decide; simpl; eauto.
  - intros c y (x & Hx & ->)%Hlook He. case_decide as Hin; simpl in *; [|eauto].
    destruct (Hl _ Hin) as (id & it & Hit & <-).
    destruct (Hpend _ _ Hit) as (_ & _ & _ & x' & Hx' & _ & _ & Ha). simplify_eq.
    exfalso. by eapply not_alive_early; [left|].
  - intros c Hc. destruct (Hst _ Hc) as [x Hx]. rewrite (Hlook' _ _ Hx). by eexists.
Qed.

(** ** Accounting *)

Definition in_slot (c : Call) : bool :=
  match c.(call_phase_of) with CPermit | CChecked => true | _ => false end.
Definition uncounted (c : Call) : bool :=
  match c.(call_phase_of) with CInserted => true | _ => false end.

Definition pending_size (d : Dispatcher) : Z := Z.of_nat (size d.(pending)).

(** Permits and the gauge against the entries: the free permits, the pending
    and unsettled entries and the calls about to insert make up the capacity;
    the gauge is behind by the calls that have not counted themselves yet and
    ahead by the removals nobody has settled yet. *)
Record accounted (cap : Z) (s : sys) : Prop := mkAccounted {
  acc_permits : s.(disp).(permits) + pending_size s.(disp) + Z.of_nat (length s.(unsettled))
                + map_count in_slot s.(calls) = cap;
  acc_depth : s.(disp).(queue_depth) + map_count uncounted s.(calls)
              = pending_size s.(disp) + Z.of_nat (length s.(unsettled));
  acc_unsettled : Forall (fun it => it.(item_permit) = true) s.(unsettled)
}.

Record inv (cap : Z) (s : sys) : Prop := mkInv {
  inv_owned : owned s.(calls) s.(disp).(pending) s.(running) s.(started);
  inv_accounted : accounted cap s;
  inv_permits : 0 <= s.(disp).(permits);
  inv_stage : s.(disp).(closing) = true <-> (1 <= s.(close_stage))%nat;
  inv_drained : s.(close_stage) = 4%nat -> s.(disp).(pending) = ∅
}.

Lemma accounted_update cap s c x y d ih u run st n :
  accounted cap s -> s.(calls) !! c = Some x ->
  d.(permits) + pending_size d + Z.of_nat (length u) + Z.b2z (in_slot y)
  = s.(disp).(permits) + pending_size s.(disp) + Z.of_nat (length s.(unsettled)) + Z.b2z (in_slot x) ->
  d.(queue_depth) + Z.b2z (uncounted y) - pending_size d - Z.of_nat (length u)
  = s.(disp).(queue_depth) + Z.b2z (uncounted x) - pending_size s.(disp) - Z.of_nat (length s.(unsettled)) ->
  Forall (fun it => it.(item_permit) = true) u ->
  accounted cap (mkSys d (<[c := y]> s.(calls)) ih u run st n).
Proof.
  intros [Hp Hd Hu] Hc Ep Ed Fu. split; simpl; [| |done];
    rewrite (map_count_update _ _ _ _ _ Hc); lia.
Qed.

(** The calls' phases stay; the rest may change as long as the sums do not. *)
Lemma accounted_same cap s d m ih u run st n :
  accounted cap s ->
  map_count in_slot m = map_count in_slot s.(calls) ->
  map_count uncounted m = map_count uncounted s.(calls) ->
  d.(permits) + pending_size d + Z.of_nat (length u)
  = s.(disp).(permits) + pending_size s.(disp) + Z.of_nat (length s.(unsettled)) ->
  d.(queue_depth) - pending_size d - Z.of_nat (length u)
  = s.(disp).(queue_depth) - pending_size s.(disp) - Z.of_nat (length s.(unsettled)) ->
  Forall (fun it => it.(item_permit) = true) u ->
  accounted cap (mkSys d m ih u run st n).
Proof. intros [Hp Hd Hu] Es Eu Ep Ed Fu. split; simpl; [lia..|done]. Qed.

Lemma reply_count P r c (m : gmap nat Call) :
  (forall x, P (to_reply r x) = P x) -> map_count P (reply_to r c m) = map_count P m.
Proof. intros HP. by apply map_count_alter. Qed.

Lemma reply_all_count P r l (m : gmap nat Call) :
  (forall x, P (to_reply r x) = P x) -> map_count P (foldr (reply_to r) m l) = map_count P m.
Proof. intros HP. induction l as [|c l IH]; simpl; [done|]. by rewrite reply_count. Qed.

Lemma pending_size_delete (d : Dispatcher) id it :
  d.(pending) !! id = Some it ->
  pending_size (with_pending (delete id d.(pending)) d) = pending_size d - 1.
Proof.
  intros Hit. unfold pending_size. simpl. rewrite map_size_delete, Hit.
  assert (size (pending d) <> 0%nat) by (intros H0%map_size_empty_inv; by rewrite H0 in Hit). lia.
Qed.

Lemma drop_permits_spec (l : list PendingItem) (d : Dispatcher) :
  Forall (fun it => it.(item_permit) = true) l ->
  let d' := fold_right drop_permit d l in
  d'.(permits) = d.(permits) + Z.of_nat (length l) /\ d'.(queue_depth) = d.(queue_depth) /\
  d'.(closing) = d.(closing) /\ d'.(pending) = d.(pending).
Proof.
  induction 1 as [|it l Hit _ (IHp & IHd & IHc & IHm)]; simpl; [split_and!; lia || done|].
  assert (forall d0, drop_permit it d0 = add_permits 1 d0) as Hdrop by (intros; unfold drop_permit; by rewrite Hit).
  rewrite Hdrop. simpl. split_and!; [lia|done..].
Qed.

(** A step that only moves one call to another phase. *)
Lemma inv_phase cap s c x ph d :
  inv cap s -> s.(calls) !! c = Some x ->
  d.(pending) = s.(disp).(pending) -> d.(closing) = s.(disp).(closing) -> 0 <= d.(permits) ->
  (posted ph = true -> posted x.(call_phase_of) = true) ->
  (early ph = true -> early x.(call_phase_of) = true) ->
  (alive x.(call_phase_of) = true -> x.(call_reply) = ReplyOpen -> alive ph = true) ->
  abandoned ph = false ->
  (returned x.(call_phase_of) = true -> returned ph = true) ->
  d.(permits) + Z.b2z (in_slot (to_phase ph x)) = s.(disp).(permits) + Z.b2z (in_slot x) ->
  d.(queue_depth) + Z.b2z (uncounted (to_phase ph x)) = s.(disp).(queue_depth) + Z.b2z (uncounted x) ->
  inv cap (upd_call c (to_phase ph x) (upd_disp d s)).
Proof.
  intros [Ho Ha Hp Hs Hd] Hc Em Ec Hpos H1 H2 H3 H4 H5 Ep Ed. split; simpl.
  - rewrite Em. by apply owned_phase.
  - assert (pending_size d = pending_size (disp s)) by (unfold pending_size; by rewrite Em).
    apply (accounted_update cap s c x); [done|done|simpl; lia..|apply Ha].
  - done.
  - by rewrite Ec.
  - intros. rewrite Em. auto.
Qed.

Lemma inv_insert cap s c x old d :
  inv cap s -> s.(calls) !! c = Some x -> x.(call_phase_of) = CChecked ->
  insert_pending (job_id x.(call_job)) (mkItem x.(call_guard) c true) s.(disp) = (Ok old, d) ->
  old = None /\ inv cap (upd_calls (<[c := to_phase CInserted x]> s.(calls)) (upd_disp d s)).
Proof.
  intros [Ho Ha Hp Hs Hd] Hc Hph Hins.
  destruct (owned_insert _ _ _ _ _ _ Ho Hc Hph) as [Hnone Ho']. unfold insert_pending in Hins.
  destruct (closing (disp s)) eqn:Hcl; [done|]. rewrite Hnone in Hins. injection Hins as <- <-.
  split; [done|]. split; simpl; [done| |done|by rewrite Hcl|].
  - apply (accounted_update cap s c x); [done|done|..|apply Ha]; simpl;
      unfold pending_size, in_slot, uncounted; simpl; rewrite map_size_insert_None, Hph by done; simpl; lia.
  - intros Hst. by discriminate (proj2 Hs ltac:(lia)).
Qed.

(** Taking an entry out leaves it to be settled. *)
Lemma accounted_take cap s m id it run ih st n :
  accounted cap s -> s.(disp).(pending) !! id = Some it -> it.(item_permit) = true ->
  map_count in_slot m = map_count in_slot s.(calls) ->
  map_count uncounted m = map_count uncounted s.(calls) ->
  accounted cap (mkSys (with_pending (delete id s.(disp).(pending)) s.(disp)) m ih
                   (it :: s.(unsettled)) run st n).
Proof.
  intros Ha Hit Hp E1 E2. apply (accounted_same cap s); [done|done|done|..].
  1, 2: rewrite (pending_size_delete _ _ _ Hit); simpl; lia.
  constructor; [done|apply Ha].
Qed.

Lemma inv_abandon cap s c x e it :
  inv cap s -> s.(calls) !! c = Some x -> x.(call_phase_of) = CWaiting ->
  s.(disp).(pending) !! job_id x.(call_job) = Some it ->
  inv cap (upd_unsettled (it :: s.(unsettled))
             (upd_calls (reply_to ReplyDropped it.(item_call) (<[c := to_phase (CAbandoned e) x]> s.(calls)))
                (upd_disp (with_pending (delete (job_id x.(call_job)) s.(disp).(pending)) s.(disp)) s))).
Proof.
  intros [Ho Ha Hp Hs Hd] Hc Hph Hit.
  destruct (owned_abandon _ _ _ _ _ _ e _ Ho Hc Hph Hit) as [Hic Ho'].
  destruct (own_pend _ _ _ _ Ho _ _ Hit) as (Hperm & _). rewrite Hic. split; simpl; [done| |done|done|].
  - apply (accounted_take cap s); [done..| |]; simpl; rewrite reply_count by done;
      rewrite (map_count_update _ _ _ _ _ Hc); unfold in_slot, uncounted; simpl; rewrite Hph; simpl; lia.
  - intros Hst. by rewrite Hd in Hit.
Qed.

Lemma inv_take cap s id it ih :
  inv cap s -> s.(disp).(pending) !! id = Some it ->
  inv cap (upd_in_hand ih (upd_unsettled (it :: s.(unsettled))
             (upd_running ({[it.(item_call)]} ∪ s.(running))
                (upd_disp (with_pending (delete id s.(disp).(pending)) s.(disp)) s)))).
Proof.
  intros [Ho Ha Hp Hs Hd] Hit. destruct (own_pend _ _ _ _ Ho _ _ Hit) as (Hperm & _).
  split; simpl; [by apply owned_take| |done|done|].
  - by apply (accounted_take cap s).
  - intros Hst. by rewrite Hd in Hit.
Qed.

Lemma inv_release cap s c r :
  inv cap s -> c ∈ s.(running) -> r <> ReplyOpen ->
  inv cap (upd_running (s.(running) ∖ {[c]}) (upd_calls (reply_to r c s.(calls)) s)).
Proof.
  intros [Ho Ha Hp Hs Hd] Hc Hr. split; simpl; [by apply owned_release| |done..].
  apply (accounted_same cap s); try done; try apply Ha; by apply reply_count.
Qed.

Lemma inv_settle cap s l1 it l2 :
  inv cap s -> s.(unsettled) = l1 ++ it :: l2 ->
  inv cap (upd_unsettled (l1 ++ l2) (upd_disp (settle it s.(disp)) s)).
Proof.
  intros [Ho Ha Hp Hs Hd] Hu. pose proof (acc_unsettled _ _ Ha) as Hf. rewrite Hu in Hf.
  apply Forall_app in Hf as [Hf1 [Hit Hf2]%Forall_cons].
  unfold settle, drop_permit. rewrite Hit. split; simpl; [done| |lia|done|done].
  apply (accounted_same cap s); [done..| | |by apply Forall_app]; unfold pending_size; simpl;
    rewrite Hu, !length_app; simpl; lia.
Qed.

Lemma inv_drain cap s stranded d :
  inv cap s -> s.(close_stage) = 3%nat -> drain s.(disp) = (stranded, d) ->
  inv cap (upd_calls (foldr (reply_to (ReplySent (Err dispatcher_closed))) s.(calls) (item_call <$> stranded))
             (upd_stage d 4 s)).
Proof.
  intros [Ho Ha Hp Hs Hd] Hst Hdr. unfold drain in Hdr. injection Hdr as <- <-.
  assert (Forall (fun it => it.(item_permit) = true) (map_to_list (disp s).(pending)).*2) as Hf.
  { apply Forall_fmap, Forall_forall. intros [id it] Hit%elem_of_map_to_list.
    by destruct (own_pend _ _ _ _ Ho _ _ Hit). }
  destruct (drop_permits_spec _ (disp s) Hf) as (Ep & Ed & Ec & _).
  assert (Z.of_nat (length (map_to_list (disp s).(pending)).*2) = pending_size (disp s)) as El
    by (by rewrite length_fmap, length_map_to_list).
  split; simpl.
  - by apply owned_drain.
  - apply (accounted_same cap s); simpl; [done|by apply reply_all_count|by apply reply_all_count| | |apply Ha];
      unfold pending_size at 1; simpl; rewrite map_size_empty; lia.
  - lia.
  - rewrite Ec. split; [lia|]. intros _. apply Hs. lia.
  - done.
Qed.

Lemma to_phase_id_disp s c (y : Call) : upd_call c y s = upd_call c y (upd_disp s.(disp) s).
Proof. by destruct s. Qed.

(** A step that moves one call, in phase [Hph], to another phase. *)
Ltac phase_step Hph :=
  apply inv_phase; rewrite ?Hph; unfold in_slot, uncounted; simpl; rewrite ?Hph;
  try done; simpl; try lia.

(** A step that moves nothing the sums are about. *)
Ltac same_sums Ha := apply accounted_same; try done; apply Ha.

Lemma step_inv cap s s' : step s s' -> inv cap s -> inv cap s'.
Proof.
  intros Hstep Hinv. pose proof Hinv as [Ho Ha Hp Hs Hd].
  destruct Hstep as [s c job guard cell Hc Hid | s c x msg Hc Hph | s c x Hc Hph
    | s c x r d Hc Hph Hacq | s c x Hc Hph | s c x e d Hc Hph Hins | s c x old d Hc Hph Hins
    | s c x Hc Hph | s c x Hc Hph
    | s c x now0 cell0 error now it d Hc Hph Hg Hst Ht | s c x r Hc Hph Hr | s c x Hc Haw | s l1 it l2 Hu
    | s j q Hdq | s l1 j l2 it d Hh Ht | s c x Hrun Hns Hc Hg | s c x now Hrun Hns Hc | s c r Hrun Hst | s c Hrun Hst
    | s Hst | s Hst | s Hst | s stranded d Hst Hdr | s c x cell Hc Hcan].
  - split; simpl; [by apply owned_call| |done..]. destruct Ha as [Ep Ed Eu].
    split; simpl; [| |done]; rewrite map_count_fresh by done; simpl; lia.
  - rewrite to_phase_id_disp. phase_step Hph.
  - rewrite to_phase_id_disp. phase_step Hph.
  - unfold try_acquire_owned in Hacq. destruct (admission_closed (disp s)).
    { injection Hacq as <- <-. phase_step Hph. }
    destruct (Z.eqb_spec (permits (disp s)) 0); injection Hacq as <- <-;
      phase_step Hph.
  - destruct (closing (disp s)) eqn:Hcl; [|rewrite to_phase_id_disp];
      phase_step Hph.
  - unfold insert_pending in Hins. destruct (closing (disp s)) eqn:Hcl; [|done]. injection Hins as <- <-.
    phase_step Hph.
  - by destruct (inv_insert _ _ _ _ _ _ Hinv Hc Hph Hins) as [-> ?].
  - phase_step Hph.
  - phase_step Hph.
  - unfold take_pending in Ht. injection Ht as <- <-.
    destruct (pending (disp s) !! job_id (call_job x)) as [it|] eqn:Hit; [by apply inv_abandon|].
    rewrite to_phase_id_disp. phase_step Hph.
  - rewrite to_phase_id_disp. destruct Hph as [Hph|Hph];
      phase_step Hph;
      intros _ Hop; by rewrite Hop in Hr.
  - rewrite to_phase_id_disp. destruct (call_phase_of x) eqn:Hph; try done;
      phase_step Hph.
  - by apply inv_settle.
  - split; simpl; [done| |done..]. apply (accounted_same cap s); try done; apply Ha.
  - unfold take_pending in Ht. injection Ht as <- <-.
    destruct (pending (disp s) !! job_id j) as [it|] eqn:Hit; [by apply inv_take|].
    split; simpl; try done. by apply (accounted_same cap s); try done; apply Ha.
  - by apply inv_release.
  - destruct (check_guard _ _ _); [by apply inv_release|]. split; simpl; [by apply owned_start| |done..].
    by apply (accounted_same cap s); try done; apply Ha.
  - by apply inv_release.
  - by apply inv_release.
  - split; simpl; [done| |done| |intros [=]]; [by apply (accounted_same cap s); try done; apply Ha|].
    split; [lia|done].
  - split; simpl; [done| |done| |intros [=]]; [by apply (accounted_same cap s); try done; apply Ha|].
    rewrite Hs, Hst. lia.
  - split; simpl; [done| |done| |intros [=]]; [by apply (accounted_same cap s); try done; apply Ha|].
    rewrite Hs, Hst. lia.
  - by apply inv_drain.
  - split; simpl; [by apply owned_cell| |done..].
    apply (accounted_update cap s c x); try done; apply Ha.
Qed.

(** A turn of the loop is a run of the system: it dequeues, takes the entry,
    settles it, and drops the call whose receiver is gone. *)
Lemma async_pool_turn_runs cap s gone r d :
  inv cap s ->
  (forall c x, s.(calls) !! c = Some x -> gone c = receiver_gone x) ->
  async_pool_turn gone s.(disp) = (r, d) ->
  exists s', rtc step s s' /\ s'.(disp) = d /\
             match r with
             | Some c => c ∈ s'.(running) /\ c ∉ s'.(started)
             | None => s'.(running) = s.(running) /\ s'.(started) = s.(started)
             end.
Proof.
  intros [Ho _ _ _ _] Hgone. unfold async_pool_turn, take_pending.
  destruct (dequeue (queue (disp s))) as [| |j q] eqn:Hq; [intros [= <- <-]; by eexists..|].
  pose (s1 := upd_in_hand (j :: s.(in_hand)) (upd_disp (with_queue q s.(disp)) s)).
  assert (rtc step s s1) as H1 by (by apply rtc_once, step_dequeue).
  simpl. destruct (pending (disp s) !! job_id j) as [it|] eqn:Hit.
  2: { intros [= <- <-]. exists s1. split_and!; [done| |done|done]. simpl.
       unfold with_pending. simpl. by rewrite delete_id. }
  destruct (own_pend _ _ _ _ Ho _ _ Hit) as (_ & Hnr & Hns & x & Hx & _).
  set (d1 := with_pending (delete (job_id j) (pending (disp s))) (with_queue q (disp s))).
  pose (s2 := upd_in_hand s.(in_hand)
    (upd_unsettled (it :: s.(unsettled)) (upd_running ({[it.(item_call)]} ∪ s.(running)) (upd_disp d1 s1)))).
  assert (step s1 s2) as H2.
  { pose proof (step_take s1 [] j s.(in_hand) (Some it) d1 eq_refl) as Hs. apply Hs.
    unfold take_pending. simpl. by rewrite Hit. }
  pose (s3 := upd_unsettled s.(unsettled) (upd_disp (settle it d1) s2)).
  assert (step s2 s3) as H3 by (by apply (step_settle s2 [] it s.(unsettled))).
  assert (rtc step s s3) as Hrun by (etrans; [done|]; eapply rtc_l; [done|]; by apply rtc_once).
  rewrite (Hgone _ _ Hx). destruct (receiver_gone x) eqn:Hg; intros [= <- <-].
  - exists (upd_running (s3.(running) ∖ {[item_call it]})
              (upd_calls (reply_to ReplyDropped (item_call it) s3.(calls)) s3)).
    split_and!; [|done| |done].
    + eapply rtc_r; [done|]. eapply step_skip; [simpl; set_solver|done|done|done].
    + simpl. set_solver.
  - exists s3. split_and!; [done|done|simpl; set_solver|done].
Qed.

(** ** What holds in every reachable state *)

Lemma inv_reachable q cap d s :
  0 <= cap -> new q cap = Ok d -> rtc step (sys_new d) s -> inv cap s.
Proof.
  intros Hcap Hnew Hrun. unfold new in Hnew. destruct (cap =? 0); [done|]. injection Hnew as <-.
  remember (sys_new _) as s0 eqn:E0. assert (inv cap s0) as Hinv.
  { subst. split; simpl; [split; set_solver| |done| |done].
    - split; simpl; [|done|constructor]. rewrite map_count_empty. unfold pending_size. simpl.
      rewrite map_size_empty. lia.
    - split; [done|lia]. }
  clear E0. induction Hrun; eauto using step_inv.
Qed.

(** Calls stay, and an abandoned one stays abandoned. *)
Definition kept (m m' : gmap nat Call) : Prop :=
  forall c x, m !! c = Some x ->
    exists y, m' !! c = Some y /\ (call_phase_of y = call_phase_of x \/ abandoned (call_phase_of x) = false).

Lemma kept_refl m : kept m m.
Proof. intros c x Hc. eauto. Qed.

Lemma kept_trans m1 m2 m3 : kept m1 m2 -> kept m2 m3 -> kept m1 m3.
Proof.
  intros H1 H2 c x Hx. destruct (H1 _ _ Hx) as (y & Hy & Hor). destruct (H2 _ _ Hy) as (z & Hz & Hor').
  exists z. split; [done|]. destruct Hor as [Heq|?]; [|by right]. rewrite Heq in Hor'. done.
Qed.

Lemma kept_update m c x y :
  m !! c = Some x -> call_phase_of y = call_phase_of x \/ abandoned (call_phase_of x) = false ->
  kept m (<[c := y]> m).
Proof.
  intros Hc Hor c' x' Hx'. destruct (decide (c = c')) as [->|].
  - rewrite lookup_insert_eq. simplify_eq. eauto.
  - rewrite lookup_insert_ne by done. eauto.
Qed.

Lemma kept_fresh m c y : m !! c = None -> kept m (<[c := y]> m).
Proof. intros Hc c' x' Hx'. rewrite lookup_insert_ne by naive_solver. eauto. Qed.

Lemma kept_reply r c m : kept m (reply_to r c m).
Proof.
  intros c' x Hx. unfold reply_to. destruct (decide (c = c')) as [->|].
  - rewrite lookup_alter_eq, Hx. eexists; split; [done|by left].
  - rewrite lookup_alter_ne by done. eauto.
Qed.

Lemma kept_replies r l m : kept m (foldr (reply_to r) m l).
Proof. induction l; simpl; [apply kept_refl|]. eapply kept_trans; [done|apply kept_reply]. Qed.

Lemma step_kept s s' : step s s' -> kept s.(calls) s'.(calls).
Proof.
  assert (forall c x ph m, m !! c = Some x -> abandoned (call_phase_of x) = false ->
            kept m (<[c := to_phase ph x]> m)) as Hup by (intros; eapply kept_update; eauto).
  destruct 1 as [| | | | | | s c x old d Hc Hph Hins | | | s c x now0 cell0 error now it d Hc Hph Hg Hst Ht
    | s c x r Hc Hph Hr | s c x Hc Haw | | | s l1 j l2 it d Hh Ht | | s c x now Hrun Hns Hc | | | | | |
    | s c x cell Hc Hcan]; simpl;
    try (apply kept_refl || apply kept_reply || apply kept_replies || by apply kept_fresh);
    try (apply Hup; [done|]; by match goal with H : call_phase_of _ = _ |- _ => rewrite H end).
  - destruct (closing (disp s)); simpl; (apply Hup; [done|]; by match goal with H : call_phase_of _ = _ |- _ => rewrite H end).
  - eapply kept_trans; [apply (Hup c x CInserted _ Hc); by rewrite Hph|].
    destruct old as [o|]; [|apply kept_refl].
    intros c' y Hy. destruct (decide (c = c')) as [->|].
    + rewrite lookup_insert_eq in Hy. simplify_eq. rewrite lookup_insert_eq. eauto.
    + rewrite lookup_insert_ne in Hy by done. rewrite lookup_insert_ne by done. by eapply kept_reply.
  - destruct it; simpl; [|apply Hup; [done|by rewrite Hph]].
    eapply kept_trans; [|apply kept_reply]. apply Hup; [done|by rewrite Hph].
  - apply Hup; [done|]. by destruct Hph as [-> | ->].
  - apply Hup; [done|]. by destruct (call_phase_of x).
  - destruct it; apply kept_refl.
  - destruct (check_guard _ _ _); [apply kept_reply|apply kept_refl].
  - eapply kept_update; [done|by left].
Qed.

Lemma abandoned_kept s s' c x :
  rtc step s s' -> s.(calls) !! c = Some x -> abandoned x.(call_phase_of) = true ->
  exists y, s'.(calls) !! c = Some y /\ call_phase_of y = call_phase_of x.
Proof.
  intros Hrun Hc Hab. assert (kept s.(calls) s'.(calls)) as Hk.
  { clear Hc. induction Hrun; [apply kept_refl|]. eapply kept_trans; [by apply step_kept|done]. }
  destruct (Hk _ _ Hc) as (y & ? & [?|?]); [eauto|congruence].
Qed.

(** Bounded admission: permits are conserved, so the queue never holds more
    than its capacity, whatever races are lost or won. *)
Theorem queue_bounded q cap d s :
  0 <= cap -> new q cap = Ok d -> rtc step (sys_new d) s ->
  s.(disp).(permits) + pending_size s.(disp) + Z.of_nat (length s.(unsettled))
    + map_count in_slot s.(calls) = cap /\
  0 <= s.(disp).(permits) /\ pending_size s.(disp) <= cap.
Proof.
  intros Hcap Hnew Hrun. destruct (inv_reachable _ _ _ _ Hcap Hnew Hrun) as [_ [Ep _ _] Hp _ _].
  pose proof (map_count_nonneg in_slot s.(calls)). split_and!; lia.
Qed.

(** The gauge does not leak: it equals the number of entries waiting, up to the
    callers between their insertion and their count and the removals between
    the map and the count; when neither is under way it is exact. *)
Theorem queue_depth_exact q cap d s :
  0 <= cap -> new q cap = Ok d -> rtc step (sys_new d) s ->
  s.(disp).(queue_depth) + map_count uncounted s.(calls)
  = pending_size s.(disp) + Z.of_nat (length s.(unsettled)).
Proof. intros Hcap Hnew Hrun. by destruct (inv_reachable _ _ _ _ Hcap Hnew Hrun) as [_ [] _ _ _]. Qed.

(** C5. No caller is left behind: one that still waits on an open channel has its
    entry in the map, where an executor, an abandonment or [close] will find
    it, or its work is in an executor's hands; after [close] only the latter. *)
Theorem no_stranded_caller q cap d s c x :
  0 <= cap -> new q cap = Ok d -> rtc step (sys_new d) s ->
  s.(calls) !! c = Some x -> posted x.(call_phase_of) = true -> x.(call_reply) = ReplyOpen ->
  ((exists it, s.(disp).(pending) !! job_id x.(call_job) = Some it /\ it.(item_call) = c) \/
   c ∈ s.(running)) /\
  (s.(close_stage) = 4%nat -> s.(disp).(pending) = ∅ /\ c ∈ s.(running)).
Proof.
  intros Hcap Hnew Hrun Hc Hp Hr. destruct (inv_reachable _ _ _ _ Hcap Hnew Hrun) as [Ho _ _ _ Hd].
  pose proof (own_open _ _ _ _ Ho _ _ Hc Hp Hr) as Hor. split; [done|]. intros H4.
  specialize (Hd H4). split; [done|]. destruct Hor as [(it & Hit & _)|?]; [by rewrite Hd in Hit|done].
Qed.

(** C26. The single removal winner: a caller that gave up because it was cancelled
    or its client left has its entry out of the map for good, whatever is
    dispatched later, under the id of its job or another, and its work was not
    started, is not in an executor's hands, and never will be. *)
Theorem abandoned_never_runs q cap d s s' c x :
  0 <= cap -> new q cap = Ok d -> rtc step (sys_new d) s -> rtc step s s' ->
  s.(calls) !! c = Some x -> abandoned x.(call_phase_of) = true ->
  exists x', s'.(calls) !! c = Some x' /\ call_phase_of x' = call_phase_of x /\
             (forall i it, s'.(disp).(pending) !! i = Some it -> it.(item_call) <> c) /\
             c ∉ s'.(running) /\ c ∉ s'.(started).
Proof.
  intros Hcap Hnew Hrun0 Hrun Hc Hab.
  assert (rtc step (sys_new d) s') as Hrun' by by etrans.
  pose proof (inv_reachable _ _ _ _ Hcap Hnew Hrun') as [Ho _ _ _ _].
  destruct (abandoned_kept _ _ _ _ Hrun Hc Hab) as (x' & Hx' & Hph).
  exists x'. split_and!; [done..| | |].
  - intros i it Hit <-. destruct (own_pend _ _ _ _ Ho _ _ Hit) as (_ & _ & _ & y & Hy & _ & _ & Hal). simplify_eq.
    eapply not_alive_early; [right|done]. by rewrite Hph.
  - intros Hin. destruct (own_run _ _ _ _ Ho _ Hin) as (y & Hy & _ & Hal). simplify_eq.
    eapply not_alive_early; [right|done]. by rewrite Hph.
  - eapply own_early; [done..|right]. by rewrite Hph.
Qed.
End dispatcher.

(** ** Building a dispatcher from its configuration *)

Section from_config.
(** [F] is [f64] and [try_from_secs_f64] the standard conversion to a duration
    in nanoseconds, with the text of its error. *)
Context {F : Type} (try_from_secs_f64 : F -> result string Z).

Inductive ExecutorKind : Type :=
| AsyncPool (concurrency : option Z)
| ThreadPool (concurrency : option Z)
| RemotePool (heartbeat_timeout_secs : F).

(** The executor that is constructed. *)
Inductive Executor : Type :=
| AsyncPoolExecutor (concurrency : Z)
| ThreadPoolExecutor (concurrency : Z)
| RemotePoolExecutor (pool_name : string) (heartbeat_timeout : Z) (callback_url : option string).

Definition DEFAULT_POOL_SIZE : Z := 256.

Record dispatcher_config : Type := mkDispatcherConfig {
  built_queue : QueueKind;
  built_executor : Executor;
  built_capacity : Z
}.

Definition executor_from_config (target_results : bool) (executor : option ExecutorKind)
    (pool_name : option string) (worker_server : option (string -> option string))
    : result string Executor :=
  match executor with
  | None => Ok (AsyncPoolExecutor DEFAULT_POOL_SIZE)
  | Some (AsyncPool concurrency) => Ok (AsyncPoolExecutor (default DEFAULT_POOL_SIZE concurrency))
  | Some (ThreadPool concurrency) => Ok (ThreadPoolExecutor (default DEFAULT_POOL_SIZE concurrency))
  | Some (RemotePool secs) =>
      if negb target_results
      then Err "remote_pool executor can only be used with target actions"%string
      else
        let? pool_name := ok_or pool_name
          "remote_pool executor requires a named target registry entry (pool name)"%string in
        let? worker_server := ok_or worker_server
          "remote_pool executor requires bits.worker_server to be configured"%string in
        let? heartbeat_timeout :=
          map_err (fun e => "remote_pool: invalid heartbeat_timeout_secs: " ++ e)%string
            (try_from_secs_f64 secs) in
        if heartbeat_timeout =? 0
        then Err "remote_pool: heartbeat_timeout_secs must be positive"%string
        else Ok (RemotePoolExecutor pool_name heartbeat_timeout (worker_server pool_name))
  end.

(** [None]: neither queue nor executor is configured.  [worker_server] gives
    the callback URL of a pool. *)
Definition from_config (target_results : bool) (queue : option QueueKind)
    (executor : option ExecutorKind) (pool_name : option string)
    (worker_server : option (string -> option string)) (queue_capacity : Z)
    : result string (option dispatcher_config) :=
  match queue, executor with
  | None, None => Ok None
  | _, _ =>
      let? ex := executor_from_config target_results executor pool_name worker_server in
      let kind := default Fifo queue in
      if queue_capacity =? 0 then Err "queue_capacity must be greater than zero"%string
      else Ok (Some (mkDispatcherConfig kind ex queue_capacity))
  end.

(** A remote pool is only ever built with everything it needs. *)
Lemma remote_pool_complete tr q ex pn ws cap cfg pool hb url :
  from_config tr q ex pn ws cap = Ok (Some cfg) ->
  built_executor cfg = RemotePoolExecutor pool hb url ->
  tr = true /\ pn = Some pool /\ hb <> 0 /\ cap <> 0 /\
  exists server, ws = Some server /\ url = server pool.
Proof.
  intros Hc He. assert (exists e, executor_from_config tr ex pn ws = Ok e /\
    cap <> 0 /\ built_executor cfg = e) as (e & Hex & Hcap & Hb).
  { clear He. unfold from_config in Hc. destruct q, ex; try done;
      destruct (executor_from_config _ _ _ _) as [e0|]; try done;
      destruct (Z.eqb_spec cap 0); try done; injection Hc as <-; eauto. }
  rewrite Hb in He. subst e. destruct ex as [[| |secs]|]; try done. simpl in Hex.
  destruct tr, pn as [pn|], ws as [ws|]; try done. simpl in Hex.
  destruct (try_from_secs_f64 secs) as [h|]; try done. simpl in Hex.
  destruct (Z.eqb_spec h 0); [done|]. injection Hex as -> -> <-. eauto 10.
Qed.
End from_config.

(** ** A concrete run *)

(** Jobs are their ids. *)
Definition name_of (j : string) : string := j.

Definition sample_call (ph : call_phase (T:=unit)) (cancel : bool) : Call (J:=string) (T:=unit) :=
  mkCall "j1" GuardCancelled (mkLifecycle cancel 0 0 0 0 0) ph ReplyOpen.

Definition sample_disp : Dispatcher (FifoQueue string) := mkDispatcher FifoQueue.new ∅ 2 false false 0.

(** One call waits with its entry queued. *)
Definition sample_s0 : sys := sys_new (J:=string) (T:=unit) sample_disp.
Definition sample_s1 := upd_call 0 (sample_call CNew false) sample_s0.
Definition sample_s2 := upd_call 0 (sample_call CAdmitted false) sample_s1.
Definition sample_s3 := upd_call 0 (sample_call CPermit false) (upd_disp (add_permits (-1) sample_disp) sample_s2).
Definition sample_s4 := upd_call 0 (sample_call CChecked false) sample_s3.
Definition sample_s5 := upd_calls (<[0%nat := sample_call CInserted false]> sample_s4.(calls))
  (upd_disp (with_pending (<["j1"%string := mkItem GuardCancelled 0 true]> sample_s4.(disp).(pending))
               sample_s4.(disp)) sample_s4).
Definition sample_s6 := upd_call 0 (sample_call CCounted false) (upd_disp (add_depth 1 sample_s5.(disp)) sample_s5).
Definition sample_waiting := upd_call 0 (sample_call CWaiting false)
  (upd_disp (with_queue (enqueue "j1"%string sample_s6.(disp).(queue)) sample_s6.(disp)) sample_s6).
(** It is cancelled, and takes its entry back. *)
Definition sample_s8 := upd_call 0 (sample_call CWaiting true) sample_waiting.
Definition sample_abandoned :=
  upd_unsettled [mkItem GuardCancelled 0 true]
    (upd_calls (reply_to ReplyDropped 0 (<[0%nat := sample_call (CAbandoned Cancelled) true]> sample_s8.(calls)))
       (upd_disp (with_pending (delete "j1"%string sample_s8.(disp).(pending)) sample_s8.(disp)) sample_s8)).

Lemma sample_waiting_reachable : rtc (step name_of) sample_s0 sample_waiting.
Proof.
  apply (rtc_l _ _ sample_s1); [by apply (step_call name_of sample_s0 0 "j1" GuardCancelled)|].
  apply (rtc_l _ _ sample_s2); [by apply (step_admitted name_of sample_s1 0 (sample_call CNew false))|].
  apply (rtc_l _ _ sample_s3); [by apply (step_acquire name_of sample_s2 0 (sample_call CAdmitted false) (Ok tt))|].
  apply (rtc_l _ _ sample_s4); [by apply (step_precheck name_of sample_s3 0 (sample_call CPermit false))|].
  apply (rtc_l _ _ sample_s5); [by apply (step_insert name_of sample_s4 0 (sample_call CChecked false) None)|].
  apply (rtc_l _ _ sample_s6); [by apply (step_count name_of sample_s5 0 (sample_call CInserted false))|].
  apply rtc_once. by apply (step_enqueue name_of sample_s6 0 (sample_call CCounted false)).
Qed.

Lemma sample_abandoned_reachable : rtc (step name_of) sample_s0 sample_abandoned.
Proof.
  etrans; [apply sample_waiting_reachable|].
  apply (rtc_l _ _ sample_s8); [by apply (step_cell name_of sample_waiting 0 (sample_call CWaiting false))|].
  apply rtc_once.
  by apply (step_abandon name_of sample_s8 0 (sample_call CWaiting true) 0 (mkLifecycle true 0 0 0 0 0) Cancelled 0
              (Some (mkItem GuardCancelled 0 true))).
Qed.

(** Another route dispatches the job here afterwards. *)
Definition sample_again := upd_call 1 (sample_call CNew false) sample_abandoned.

Lemma sample_again_reachable : rtc (step name_of) sample_abandoned sample_again.
Proof.
  apply rtc_once, (step_call name_of sample_abandoned 1 "j1"%string GuardCancelled); [done|].
  intros [|c] x Hc Hid; [by injection Hc as <-|]. cbn in Hc. unfold reply_to in Hc.
  rewrite lookup_alter_ne in Hc by done. by repeat rewrite lookup_insert_ne in Hc by done.
Qed.

Lemma queue_bounded_witness :
  pending_size sample_waiting.(disp) = 1 /\ 0 <= 1 /\ pending_size sample_waiting.(disp) <= 2.
Proof.
  destruct (queue_bounded name_of FifoQueue.new 2 sample_disp sample_waiting ltac:(lia) eq_refl
              sample_waiting_reachable) as (_ & _ & Hle).
  split_and!; [by vm_compute|lia|exact Hle].
Defined.

Lemma queue_depth_exact_witness :
  sample_waiting.(disp).(queue_depth) = 1 /\
  sample_waiting.(disp).(queue_depth) + map_count uncounted sample_waiting.(calls)
  = pending_size sample_waiting.(disp) + 0.
Proof.
  split; [by vm_compute|].
  exact (queue_depth_exact name_of FifoQueue.new 2 sample_disp sample_waiting ltac:(lia) eq_refl
           sample_waiting_reachable).
Defined.

Lemma no_stranded_caller_witness :
  (exists it, sample_waiting.(disp).(pending) !! "j1"%string = Some it /\ it.(item_call) = 0%nat) \/
  0%nat ∈ sample_waiting.(running).
Proof.
  exact (proj1 (no_stranded_caller name_of FifoQueue.new 2 sample_disp sample_waiting 0
                  (sample_call CWaiting false) ltac:(lia) eq_refl sample_waiting_reachable
                  eq_refl eq_refl eq_refl)).
Defined.

Lemma abandoned_never_runs_witness :
  exists x', sample_again.(calls) !! 0%nat = Some x' /\ call_phase_of x' = CAbandoned Cancelled /\
             (forall i it, sample_again.(disp).(pending) !! i = Some it -> it.(item_call) <> 0%nat) /\
             0%nat ∉ sample_again.(running) /\ 0%nat ∉ sample_again.(started).
Proof.
  exact (abandoned_never_runs name_of FifoQueue.new 2 sample_disp sample_abandoned sample_again 0
           (to_reply ReplyDropped (sample_call (CAbandoned Cancelled) true)) ltac:(lia) eq_refl
           sample_abandoned_reachable sample_again_reachable eq_refl eq_refl).
Defined.
