(* ===== verification/Actions.v ===== *)
(** * Results of actions ([actions/mod.rs])

    What a check, a transform and a target answer. *)
From S2P Require Import Prelude Errors.

Inductive CheckResult : Type :=
| CheckPass
| CheckReject (reason : string) (silent : bool).

Inductive TransformResult : Type :=
| TransformContinue
| TransformReject (reason : string) (silent : bool).

Inductive TargetResult : Type :=
| TargetComplete (r : JobResult)
| TargetReject (reason : string) (silent : bool).
