(* ===== verification/RemotePool.v ===== *)
(** * The remote pool ([executor/remote_pool.rs])

    The worker-facing handlers, the translation of worker outcomes, the
    heartbeat reaper and the shutdown drain, as functions on the state they
    share with the dispatcher.  A call of [dispatch] is named by a number; what
    its reply channel carries is logged in [replies]. *)
From S2P Require Import Prelude Json Errors Job Queue Actions Dispatcher.

(** ** Worker outcomes *)

Inductive WorkerOutcome : Type :=
| WorkerComplete (content_type : string) (size : Z) (stream : ByteStream)
| WorkerRedirect (location message : string) (content_type : option string) (content_length : option Z)
| WorkerReject (reason : string)
| WorkerError (message : string).

(** What the spawned task sends back; [None]: the outcome channel was dropped. *)
Definition translate (outcome : option WorkerOutcome) : result ActionError TargetResult :=
  match outcome with
  | Some (WorkerComplete content_type size stream) => Ok (TargetComplete (Success content_type size stream))
  | Some (WorkerRedirect location message content_type content_length) =>
      Ok (TargetComplete (Redirect location message content_type content_length))
  | Some (WorkerReject reason) => Ok (TargetReject reason true)
  | Some (WorkerError message) => Ok (TargetComplete (Error message))
  | None => Err (ResourceError "worker heartbeat timeout or disconnect")
  end.

(** ** Request headers *)

(** A header is absent, not valid text, or text. *)
Definition header_value := option (option string).

Definition content_type_of (h : header_value) : string :=
  match h with Some (Some s) => s | _ => "application/octet-stream" end.

Definition content_length_of (h : header_value) : Z :=
  match h with
  | Some (Some s) => match parse_i64 s with Some n => if 0 <=? n then n else -1 | None => -1 end
  | _ => -1
  end.

(** ** State *)

Record InProgressJob : Type := mkInProgress { result_tx : nat; last_heartbeat : Z }.

Record WorkResponse (V : Type) : Type := mkWorkResponse {
  work_job_id : string;
  work_request : V;
  work_user : V;
  work_metadata : V;
  work_callback_url : option string
}.
Arguments mkWorkResponse {V}. Arguments work_job_id {V}.

(** [cells] are the jobs' shared atomics, [replies] the log of what the callers
    were sent, [abandoned] the calls whose channel was dropped unanswered. *)
Record RemotePoolState (Q : Type) : Type := mkPool {
  dispatcher : Dispatcher Q;
  in_progress : gmap string InProgressJob;
  heartbeat_timeout : Z;
  callback_url : option string;
  cells : Cells;
  replies : list (nat * result ActionError TargetResult);
  abandoned : list nat
}.
Arguments mkPool {Q}. Arguments dispatcher {Q}. Arguments in_progress {Q}. Arguments heartbeat_timeout {Q}.
Arguments callback_url {Q}. Arguments cells {Q}. Arguments replies {Q}. Arguments abandoned {Q}.

Definition OK : Z := 200.
Definition NO_CONTENT : Z := 204.
Definition NOT_FOUND : Z := 404.

Section pool.
Context {V Q : Type} `{JsonValue V} `{QueueOps Q (Job V)}.
Notation State := (RemotePoolState Q).

Definition with_dispatcher (d : Dispatcher Q) (st : State) : State :=
  mkPool d st.(in_progress) st.(heartbeat_timeout) st.(callback_url) st.(cells) st.(replies) st.(abandoned).
Definition with_in_progress (m : gmap string InProgressJob) (st : State) : State :=
  mkPool st.(dispatcher) m st.(heartbeat_timeout) st.(callback_url) st.(cells) st.(replies) st.(abandoned).
Definition with_cells (h : Cells) (st : State) : State :=
  mkPool st.(dispatcher) st.(in_progress) st.(heartbeat_timeout) st.(callback_url) h st.(replies) st.(abandoned).
Definition send_reply (c : nat) (r : result ActionError TargetResult) (st : State) : State :=
  mkPool st.(dispatcher) st.(in_progress) st.(heartbeat_timeout) st.(callback_url) st.(cells)
    (st.(replies) ++ [(c, r)]) st.(abandoned).
Definition drop_reply (c : nat) (st : State) : State :=
  mkPool st.(dispatcher) st.(in_progress) st.(heartbeat_timeout) st.(callback_url) st.(cells) st.(replies)
    (c :: st.(abandoned)).

(** The state [start_scheduler] creates. *)
Definition new_pool (d : Dispatcher Q) (heartbeat_timeout : Z) (callback_url : option string)
    (h : Cells) : State := mkPool d ∅ heartbeat_timeout callback_url h [] [].

(** ** Handlers *)

Definition work_guard (guard : DispatchGuard) (now : Z) (h : Cells) (job : Job V) : option ActionError :=
  match guard with
  | GuardNone => None
  | GuardCancelled => if is_cancelled h job then Some Cancelled else None
  | GuardCancelledOrClientGone =>
      if is_cancelled h job then Some Cancelled
      else if negb (client_present now h job) then Some ClientGone else None
  end.

(** Dropping the outcome channel of an entry makes its task answer the error. *)
Definition drop_outcome (e : InProgressJob) (st : State) : State :=
  send_reply e.(result_tx) (translate None) st.

(** Inserting over an entry drops the one that was there. *)
Definition insert_in_progress (id : string) (e : InProgressJob) (st : State) : State :=
  let old := st.(in_progress) !! id in
  let st := with_in_progress (<[id := e]> st.(in_progress)) st in
  match old with Some o => drop_outcome o st | None => st end.

(** [handle_get_work]: [gone] tells which callers have dropped their end. A
    queue that is closed, or still waiting when the timeout fires, gives 204. *)
Definition handle_get_work (now : Z) (gone : nat -> bool) (st : State)
    : result Z (WorkResponse V) * State :=
  match dequeue st.(dispatcher).(queue) with
  | Closed | Waiting => (Err NO_CONTENT, st)
  | Dequeued job q =>
      let d := with_queue q st.(dispatcher) in
      match take_pending job.(id) d with
      | (None, d) => (Err NO_CONTENT, with_dispatcher d st)
      | (Some item, d) =>
          let st := with_dispatcher (settle item d) st in
          if gone item.(item_call) then (Err NO_CONTENT, drop_reply item.(item_call) st)
          else match work_guard item.(item_guard) now st.(cells) job with
               | Some err => (Err NO_CONTENT, send_reply item.(item_call) (Err err) st)
               | None =>
                   let st := insert_in_progress job.(id) (mkInProgress item.(item_call) now) st in
                   let st := with_cells (mark_processing st.(cells) job) st in
                   (Ok (mkWorkResponse job.(id) job.(request) job.(user) job.(metadata)
                          st.(callback_url)), st)
               end
      end
  end.

Definition handle_heartbeat (now : Z) (job_id : string) (st : State) : Z * State :=
  match st.(in_progress) !! job_id with
  | Some e => (OK, with_in_progress (<[job_id := mkInProgress e.(result_tx) now]> st.(in_progress)) st)
  | None => (NOT_FOUND, st)
  end.

(** What the four completion handlers share: remove the entry, send the outcome. *)
Definition complete (job_id : string) (outcome : WorkerOutcome) (st : State) : Z * State :=
  match st.(in_progress) !! job_id with
  | Some e => (OK, send_reply e.(result_tx) (translate (Some outcome))
                     (with_in_progress (delete job_id st.(in_progress)) st))
  | None => (NOT_FOUND, st)
  end.

Definition handle_complete_data (job_id : string) (content_type content_length : header_value)
    (body : ByteStream) (st : State) : Z * State :=
  complete job_id (WorkerComplete (content_type_of content_type) (content_length_of content_length) body) st.

Definition handle_complete_redirect (job_id location message : string) (content_type : option string)
    (content_length : option Z) (st : State) : Z * State :=
  complete job_id (WorkerRedirect location message content_type content_length) st.

Definition handle_complete_reject (job_id reason : string) (st : State) : Z * State :=
  complete job_id (WorkerReject reason) st.

Definition handle_complete_error (job_id message : string) (st : State) : Z * State :=
  complete job_id (WorkerError message) st.

(** ** The reaper *)

Definition heartbeat_alive (now timeout : Z) (e : InProgressJob) : bool :=
  Z.max 0 (now - e.(last_heartbeat)) <? timeout.

Definition keep_alive (now : Z) (st : State) : gmap string InProgressJob :=
  filter (fun p => heartbeat_alive now st.(heartbeat_timeout) p.2 = true) st.(in_progress).
Definition expired (now : Z) (st : State) : list InProgressJob :=
  values (filter (fun p => ~ heartbeat_alive now st.(heartbeat_timeout) p.2 = true) st.(in_progress)).

(** A tick: [retain] drops the entries whose heartbeat is too old. *)
Definition reap (now : Z) (st : State) : State :=
  fold_right drop_outcome (with_in_progress (keep_alive now st) st) (expired now st).

(** The shutdown branch drains every entry. *)
Definition shutdown (st : State) : State :=
  fold_right drop_outcome (with_in_progress ∅ st) (values st.(in_progress)).

(** ** The dispatcher's side *)

(** A call of [dispatch] posts its entry and enqueues its job. *)
Definition post (job : Job V) (guard : DispatchGuard) (c : nat) (st : State) : State :=
  match insert_pending job.(id) (mkItem guard c true) st.(dispatcher) with
  | (Err e, d) => send_reply c (Err e) (with_dispatcher d st)
  | (Ok old, d) =>
      let st := with_dispatcher (with_queue (enqueue job d.(queue)) (add_depth 1 d)) st in
      match old with Some o => drop_reply o.(item_call) st | None => st end
  end.

(** A caller takes its entry back. *)
Definition take_back (job_id : string) (st : State) : State :=
  match take_pending job_id st.(dispatcher) with
  | (None, _) => st
  | (Some item, d) => drop_reply item.(item_call) (with_dispatcher (settle item d) st)
  end.

(** ** Runs *)

Inductive event : Type :=
| EvDispatch (job : Job V) (guard : DispatchGuard)
| EvTakeBack (job_id : string)
| EvWork (now : Z) (gone : nat -> bool)
| EvHeartbeat (now : Z) (job_id : string)
| EvData (job_id : string) (content_type content_length : header_value) (body : ByteStream)
| EvRedirect (job_id location message : string) (content_type : option string) (content_length : option Z)
| EvReject (job_id reason : string)
| EvError (job_id message : string)
| EvReap (now : Z)
| EvShutdown.

(** The calls are numbered in order of dispatch. *)
Definition run_event (st : nat * State) (e : event) : nat * State :=
  let '(n, s) := st in
  match e with
  | EvDispatch job guard => (S n, post job guard n s)
  | EvTakeBack job_id => (n, take_back job_id s)
  | EvWork now gone => (n, (handle_get_work now gone s).2)
  | EvHeartbeat now job_id => (n, (handle_heartbeat now job_id s).2)
  | EvData job_id ct cl body => (n, (handle_complete_data job_id ct cl body s).2)
  | EvRedirect job_id l m ct cl => (n, (handle_complete_redirect job_id l m ct cl s).2)
  | EvReject job_id r => (n, (handle_complete_reject job_id r s).2)
  | EvError job_id m => (n, (handle_complete_error job_id m s).2)
  | EvReap now => (n, reap now s)
  | EvShutdown => (n, shutdown s)
  end.

Definition run (es : list event) (st : nat * State) : nat * State := foldl run_event st es.

(** Where every call is: waiting, with a worker, answered, or dropped. *)
Definition places (s : State) : list nat :=
  (item_call <$> values s.(dispatcher).(pending)) ++ (result_tx <$> values s.(in_progress))
  ++ s.(replies).*1 ++ s.(abandoned).

Lemma places_send c r s : places (send_reply c r s) ≡ₚ c :: places s.
Proof.
  unfold places. csimpl. rewrite fmap_app. csimpl.
  rewrite <- (app_assoc (replies s).*1 [c]). csimpl. by rewrite !Permutation_middle.
Qed.

Lemma places_drop c s : places (drop_reply c s) ≡ₚ c :: places s.
Proof. unfold places. csimpl. by rewrite !Permutation_middle. Qed.

Lemma places_insert_in_progress id e s :
  places (insert_in_progress id e s) ≡ₚ result_tx e :: places s.
Proof.
  unfold insert_in_progress. destruct (in_progress s !! id) as [o|] eqn:Ho.
  - unfold drop_outcome. rewrite places_send. unfold places. csimpl.
    rewrite Permutation_middle, (app_comm_cons _ _ (result_tx o)), <- (fmap_cons result_tx o).
    rewrite (values_replace _ _ _ _ Ho). csimpl. by rewrite <- Permutation_middle.
  - unfold places. csimpl. rewrite (values_fresh _ _ _ Ho). csimpl. by rewrite <- Permutation_middle.
Qed.

Lemma places_take s id item (d' : Dispatcher Q) :
  s.(dispatcher).(pending) !! id = Some item -> d'.(pending) = delete id s.(dispatcher).(pending) ->
  places s ≡ₚ item_call item :: places (with_dispatcher d' s).
Proof. intros Hi Hd. unfold places. csimpl. rewrite Hd, (values_delete _ _ _ Hi). reflexivity. Qed.

Lemma places_same s (d' : Dispatcher Q) :
  d'.(pending) = s.(dispatcher).(pending) -> places (with_dispatcher d' s) = places s.
Proof. intros Hd. unfold places. csimpl. by rewrite Hd. Qed.

Lemma pending_settle item (d : Dispatcher Q) : (settle item d).(pending) = d.(pending).
Proof. unfold settle, drop_permit. by destruct (item_permit item). Qed.

Lemma places_complete id o s : places (complete id o s).2 ≡ₚ places s.
Proof.
  unfold complete. destruct (in_progress s !! id) as [e|] eqn:He; csimpl; [|done].
  rewrite places_send. unfold places. csimpl. rewrite (values_delete _ _ _ He). csimpl.
  by rewrite <- Permutation_middle.
Qed.

Lemma places_heartbeat now id s : places (handle_heartbeat now id s).2 ≡ₚ places s.
Proof.
  unfold handle_heartbeat. destruct (in_progress s !! id) as [e|] eqn:He; csimpl; [|done].
  unfold places. csimpl. apply Permutation_app_head, Permutation_app_tail.
  apply (Permutation_cons_inv (a := result_tx e)).
  change (result_tx e :: (result_tx <$> values (in_progress s)))
    with (result_tx <$> (mkInProgress (result_tx e) now :: values (in_progress s))).
  by rewrite <- (values_replace _ _ _ _ He).
Qed.

Lemma places_drop_outcomes l s : places (fold_right drop_outcome s l) ≡ₚ (result_tx <$> l) ++ places s.
Proof.
  induction l as [|e l IH]; csimpl; [done|]. unfold drop_outcome at 1. by rewrite places_send, IH.
Qed.

Lemma places_in_progress m s l :
  values s.(in_progress) ≡ₚ values m ++ l ->
  (result_tx <$> l) ++ places (with_in_progress m s) ≡ₚ places s.
Proof.
  intros Hm. unfold places. csimpl. rewrite Hm, fmap_app.
  rewrite !app_assoc. do 2 apply Permutation_app_tail.
  rewrite <- app_assoc. apply Permutation_app_comm.
Qed.

Lemma places_reap now s : places (reap now s) ≡ₚ places s.
Proof.
  unfold reap. rewrite places_drop_outcomes. apply places_in_progress.
  apply (values_filter _ (heartbeat_alive now (heartbeat_timeout s))).
Qed.

Lemma places_shutdown s : places (shutdown s) ≡ₚ places s.
Proof.
  unfold shutdown. rewrite places_drop_outcomes. apply places_in_progress. by rewrite values_empty.
Qed.

Lemma places_work now gone s : places (handle_get_work now gone s).2 ≡ₚ places s.
Proof.
  unfold handle_get_work. destruct (dequeue _) as [| |job q]; csimpl; [done..|].
  destruct (pending (dispatcher s) !! id job) as [item|] eqn:Hi; csimpl.
  2: { rewrite places_same; [done|]. csimpl. by rewrite delete_id. }
  set (d := settle item _).
  assert (places s ≡ₚ item_call item :: places (with_dispatcher d s)) as Hp.
  { eapply places_take; [done|]. unfold d. by rewrite pending_settle. }
  destruct (gone (item_call item)); csimpl; [by rewrite places_drop, Hp|].
  destruct (work_guard _ _ _ _) as [err|]; csimpl; [by rewrite places_send, Hp|].
  transitivity (places (insert_in_progress (id job) (mkInProgress (item_call item) now) (with_dispatcher d s))).
  - done.
  - by rewrite places_insert_in_progress, Hp.
Qed.

Lemma places_post job guard c s : places (post job guard c s) ≡ₚ c :: places s.
Proof.
  unfold post, insert_pending. destruct (closing (dispatcher s)).
  { rewrite places_send. by rewrite places_same. }
  destruct (pending (dispatcher s) !! id job) as [o|] eqn:Ho; csimpl.
  - rewrite places_drop. unfold places. csimpl. unfold drop_permit.
    assert (forall d : Dispatcher Q, pending (if item_permit o then add_permits 1 d else d) = pending d) as Hd
      by (intros; by destruct (item_permit o)).
    rewrite Hd. csimpl. rewrite app_comm_cons, <- (fmap_cons item_call), (values_replace _ _ _ _ Ho). done.
  - unfold places. csimpl. by rewrite (values_fresh _ _ _ Ho).
Qed.

Lemma places_take_back id s : places (take_back id s) ≡ₚ places s.
Proof.
  unfold take_back, take_pending. destruct (pending (dispatcher s) !! id) as [item|] eqn:Hi; [|done].
  rewrite places_drop. symmetry. eapply places_take; [done|]. by rewrite pending_settle.
Qed.

Lemma run_places es n s n' s' :
  run es (n, s) = (n', s') -> places s ≡ₚ seq 0 n -> places s' ≡ₚ seq 0 n'.
Proof.
  revert n s; induction es as [|e es IH]; intros n s; [by intros [= <- <-]|].
  change (run (e :: es) (n, s)) with (run es (run_event (n, s) e)). intros Hr Hp. destruct (run_event (n, s) e) as [n1 s1] eqn:He.
  eapply IH; [done|].
  destruct e; injection He as <- <-;
    rewrite ?places_take_back, ?places_work, ?places_heartbeat, ?places_reap, ?places_shutdown; try done;
    try (unfold handle_complete_data, handle_complete_redirect, handle_complete_reject, handle_complete_error;
         by rewrite places_complete).
  rewrite places_post, Hp, seq_S. apply Permutation_cons_append.
Qed.

(** C18. Every call of [dispatch] is accounted for once: along any run of worker
    requests, heartbeats, completions, reaper ticks and shutdown it waits in
    the pending map, or one worker has it, or it was answered once, or its
    channel was dropped; none is lost and none is answered twice. *)
Theorem calls_accounted es d timeout url h n s :
  d.(pending) = ∅ ->
  run es (0%nat, new_pool d timeout url h) = (n, s) ->
  places s ≡ₚ seq 0 n /\ NoDup s.(replies).*1.
Proof.
  intros Hd Hr. apply run_places in Hr.
  2: { unfold places. simpl. by rewrite Hd, !values_empty. }
  split; [done|]. assert (NoDup (places s)) as Hnd by (rewrite Hr; apply NoDup_seq).
  unfold places in Hnd. by apply NoDup_app in Hnd as (_ & _ & (_ & _ & (? & _)%NoDup_app)%NoDup_app).
Qed.

(** Exclusive completion: only a worker holding the job is heard.  The first
    outcome is answered with 200 and reaches the caller translated; whatever
    comes after it for the same job, heartbeat or outcome, gets 404 and
    changes nothing. *)
Theorem completion_exclusive job_id o o' now s st1 :
  complete job_id o s = (OK, st1) ->
  (exists e, s.(in_progress) !! job_id = Some e /\
             st1.(replies) = s.(replies) ++ [(e.(result_tx), translate (Some o))]) /\
  complete job_id o' st1 = (NOT_FOUND, st1) /\ handle_heartbeat now job_id st1 = (NOT_FOUND, st1).
Proof.
  unfold complete, handle_heartbeat. destruct (in_progress s !! job_id) as [e|] eqn:He; [|done].
  intros [= <-]. simpl. rewrite lookup_delete_eq. eauto.
Qed.

Lemma drop_outcomes_in_progress l s :
  in_progress (fold_right drop_outcome s l) = in_progress s /\
  heartbeat_timeout (fold_right drop_outcome s l) = heartbeat_timeout s /\
  replies (fold_right drop_outcome s l) ≡ₚ replies s ++ ((fun e => (result_tx e, translate None)) <$> l).
Proof.
  induction l as [|e l (IH1 & IH2 & IH3)]; simpl; [by rewrite app_nil_r|]. split_and!; [done..|].
  rewrite IH3. rewrite <- app_assoc. apply Permutation_app_head. rewrite <- Permutation_cons_append. done.
Qed.

(** The reaper evicts exactly the jobs silent for the timeout: the others stay,
    each evicted one is answered with the heartbeat error, and a worker whose
    last heartbeat is younger than the timeout keeps its job. *)
Theorem reaper_exact now s job_id e :
  s.(in_progress) !! job_id = Some e ->
  (heartbeat_alive now s.(heartbeat_timeout) e = true ->
     (reap now s).(in_progress) !! job_id = Some e) /\
  (heartbeat_alive now s.(heartbeat_timeout) e = false ->
     (reap now s).(in_progress) !! job_id = None /\
     (e.(result_tx), translate None) ∈ (reap now s).(replies)) /\
  (forall t, t <= now -> now - t < s.(heartbeat_timeout) ->
     is_Some ((reap now (handle_heartbeat t job_id s).2).(in_progress) !! job_id)).
Proof.
  intros He. unfold reap at 1 2 3.
  destruct (drop_outcomes_in_progress (expired now s) (with_in_progress (keep_alive now s) s)) as (Hm & _ & Hr).
  rewrite Hm. split_and!.
  - intros Ha. by apply map_lookup_filter_Some.
  - intros Ha. split; [apply map_lookup_filter_None; right; intros x Hx; simpl; by simplify_eq; rewrite Ha|].
    rewrite Hr. apply elem_of_app. right. apply list_elem_of_fmap. exists e. split; [done|].
    apply elem_of_values. exists job_id. apply map_lookup_filter_Some. simpl. by rewrite Ha.
  - intros t Ht Hlt. unfold handle_heartbeat. rewrite He. simpl. unfold reap.
    set (s1 := with_in_progress _ s).
    destruct (drop_outcomes_in_progress (expired now s1) (with_in_progress (keep_alive now s1) s1)) as (-> & _ & _).
    exists (mkInProgress (result_tx e) t). apply map_lookup_filter_Some. simpl.
    split; [by rewrite lookup_insert_eq|]. apply Z.ltb_lt. simpl. lia.
Qed.
End pool.

(** ** A concrete run *)

Definition sample_job (name : string) : Job sample := new_with_id name JNull 0 0.
Definition sample_pool : RemotePoolState (FifoQueue (Job sample)) :=
  new_pool (mkDispatcher FifoQueue.new ∅ 2 false false 0) 10 None {[ 0%nat := new_lifecycle 0 ]}.

(** Two jobs are dispatched and taken; one completes, one falls silent. *)
Definition sample_events : list (event (V:=sample)) :=
  [EvDispatch (sample_job "a") GuardCancelled; EvDispatch (sample_job "b") GuardNone;
   EvWork 0 (fun _ => false); EvWork 1 (fun _ => false);
   EvData "a" None (Some (Some "12")) []; EvReap 12].

Lemma calls_accounted_witness :
  (run sample_events (0%nat, sample_pool)).2.(replies) =
    [(0%nat, Ok (TargetComplete (Success "application/octet-stream" 12 [])));
     (1%nat, Err (ResourceError "worker heartbeat timeout or disconnect"))] /\
  NoDup (run sample_events (0%nat, sample_pool)).2.(replies).*1.
Proof.
  split; [by vm_compute|].
  exact (proj2 (calls_accounted sample_events sample_pool.(dispatcher) 10 None _ _ _ eq_refl
                  (surjective_pairing (run sample_events (0%nat, sample_pool))))).
Defined.

Definition sample_taken : RemotePoolState (FifoQueue (Job sample)) :=
  (run (take 4 sample_events) (0%nat, sample_pool)).2.

Lemma completion_exclusive_witness :
  complete "a" (WorkerReject "no") (complete "a" (WorkerError "boom") sample_taken).2
  = (NOT_FOUND, (complete "a" (WorkerError "boom") sample_taken).2).
Proof.
  exact (proj1 (proj2 (completion_exclusive "a" (WorkerError "boom") (WorkerReject "no") 0 sample_taken
                         _ (surjective_pairing (complete "a" (WorkerError "boom") sample_taken))))).
Defined.

Lemma reaper_exact_witness :
  (reap 10 sample_taken).(in_progress) !! "a"%string = None /\
  (reap 10 sample_taken).(in_progress) !! "b"%string = Some (mkInProgress 1 1).
Proof.
  split.
  - exact (proj1 (proj1 (proj2 (reaper_exact 10 sample_taken "a" (mkInProgress 0 0) eq_refl)) eq_refl)).
  - exact (proj1 (reaper_exact 10 sample_taken "b" (mkInProgress 1 1) eq_refl) eq_refl).
Defined.
