(* ===== verification/Routing.v ===== *)
(** * Routing ([routing/], [actions/mod.rs], [actions/target_remote.rs])

    Actions, routes and switches, their validation, and the dispatch of a job
    through a switch.  Actions are foreign code: an action is the function it
    computes on the job and on the world [W] it runs in, which also holds the
    jobs' shared cells and the clock.  A dispatcher is seen through
    [Dispatching]: it runs the work it is handed, or fails. *)
From S2P Require Import Prelude Json Errors Job Actions Dispatcher.

Class World (W : Type) : Type := {
  world_cells : W -> Cells;
  world_now : W -> Z
}.

(** [Dispatcher::dispatch] as its caller sees it. *)
Class Dispatching (D W J : Type) : Type := {
  dispatch_via : forall T, D -> J -> DispatchGuard -> (W -> result ActionError T * W) ->
                           W -> result ActionError T * W;
  close_via : D -> W -> W
}.

(** A dispatcher answers with an error of its own or with what the work gave,
    when and if it ran it. *)
Class DispatchingLaws (D W J : Type) `{Dispatching D W J} : Prop := {
  dispatch_ok T d job guard work w t w' :
    dispatch_via T d job guard work w = (Ok t, w') -> exists w1 w2, work w1 = (Ok t, w2)
}.

Section routing.
Context {V W D : Type} `{JsonValue V} `{World W} `{Dispatching D W (Job V)}.

Record CheckAction : Type := mkCheck {
  evaluate : Job V -> W -> result ActionError CheckResult * W;
  check_describe : V
}.
(** [execute] works on [&mut Job]: it leaves a job behind whatever it answers. *)
Record TransformAction : Type := mkTransform {
  execute : Job V -> W -> (result ActionError TransformResult * Job V) * W;
  transform_describe : V
}.
Record TargetAction : Type := mkTarget {
  target_dispatch : Job V -> W -> result ActionError TargetResult * W;
  target_describe : V
}.

Inductive Action : Type :=
| Check (a : CheckAction) (dispatcher : option D) (silent : option bool)
| Transform (a : TransformAction) (dispatcher : option D) (silent : option bool)
| Target (a : TargetAction) (dispatcher : option D) (silent : option bool)
| SwitchAction (s : Switch)
with Route : Type :=
| mkRoute (name : string) (actions : list Action)
with Switch : Type :=
| mkSwitch (routes : list Route).

Definition route_name (r : Route) : string := let 'mkRoute name _ := r in name.
Definition route_actions (r : Route) : list Action := let 'mkRoute _ actions := r in actions.
Definition routes (s : Switch) : list Route := let 'mkSwitch rs := s in rs.
Definition route_names (s : Switch) : list string := route_name <$> routes s.

Definition is_terminal (a : Action) : bool :=
  match a with Target _ _ _ | SwitchAction _ => true | _ => false end.

Definition silent_override (a : Action) : option bool :=
  match a with
  | Check _ _ o | Transform _ _ o | Target _ _ o => o
  | SwitchAction _ => None
  end.

Definition describe (a : Action) : V :=
  match a with
  | Check a _ _ => check_describe a
  | Transform a _ _ => transform_describe a
  | Target a _ _ => target_describe a
  | SwitchAction _ => object []
  end.

(** ** Walks of the tree *)

(** A non-empty object is kept, anything else is dropped. *)
Definition descriptor (v : V) : list V :=
  match as_object v with Some (_ :: _) => [v] | _ => [] end.

Fixpoint describe_actions (s : Switch) : list V :=
  let 'mkSwitch rs := s in
  flat_map (fun r : Route => let 'mkRoute _ acts := r in
    flat_map (fun a => descriptor (describe a)
                       ++ match a with SwitchAction sw => describe_actions sw | _ => [] end) acts) rs.

(** The dispatchers [close_all] closes, in order. *)
Fixpoint close_all (s : Switch) : list D :=
  let 'mkSwitch rs := s in
  flat_map (fun r : Route => let 'mkRoute _ acts := r in
    flat_map (fun a => match a with
                       | Check _ d _ | Transform _ d _ | Target _ d _ => option_list d
                       | SwitchAction sw => close_all sw
                       end) acts) rs.

Definition close (a : Action) : list D :=
  match a with
  | Check _ d _ | Transform _ d _ | Target _ d _ => option_list d
  | SwitchAction sw => close_all sw
  end.

(** ** Validation *)

(** The loop over the actions of a route; [valid] validates a nested switch. *)
Section validate_route.
Context (valid : Switch -> result RoutingError unit) (name : string).

Definition validate_from :=
  fix loop (index : nat) (acts : list Action) : result RoutingError unit :=
    match acts with
    | [] => Err (MissingTarget name)
    | a :: rest =>
        let? _ := match a with SwitchAction sw => valid sw | _ => Ok tt end in
        if is_terminal a then
          match rest with
          | [] => Ok tt
          | _ => Err (InvalidRoute name
                        ("unreachable action(s) after terminal step at index " ++ pretty index)%string)
          end
        else loop (S index) rest
    end.

Definition validate_route (acts : list Action) : result RoutingError unit :=
  match acts with
  | [] => Err (InvalidRoute name "must not be empty")
  | _ => validate_from 0 acts
  end.
End validate_route.

Definition for_all (f : Route -> result RoutingError unit) :=
  fix loop (rs : list Route) : result RoutingError unit :=
    match rs with
    | [] => Ok tt
    | r :: rs => let? _ := f r in loop rs
    end.

Fixpoint validate (s : Switch) : result RoutingError unit :=
  let 'mkSwitch rs := s in
  for_all (fun r => let 'mkRoute name acts := r in validate_route validate name acts) rs.

(** ** Dispatch *)

(** [Cow<Job>]: every route starts from the borrowed job, and the first
    transform of a route clones it. *)
Inductive Cow : Type :=
| Borrowed (job : Job V)
| Owned (job : Job V).

Definition as_job (c : Cow) : Job V := match c with Borrowed j | Owned j => j end.
Definition to_mut (c : Cow) : Job V := match c with Borrowed j => clone j | Owned j => j end.

(** What one action makes of the route: go on with a job, give the route up
    with a reason to report or silently, or end the dispatch. *)
Inductive verdict : Type :=
| Proceed (job : Cow)
| GiveUp (reason : option string)
| Finish (r : result ActionError JobResult).

Definition reject_with (reason : string) (silent : bool) : verdict :=
  GiveUp (if silent then None else Some reason).

Definition unwrap_silent (override : option bool) (silent : bool) : bool := default silent override.

Definition run_check (a : CheckAction) (d : option D) (override : option bool) (current : Cow) (w : W)
    : verdict * W :=
  let job := as_job current in
  let '(r, w) := match d with
                 | Some d => dispatch_via CheckResult d job GuardCancelled (evaluate a (clone job)) w
                 | None => evaluate a job w
                 end in
  (match r with
   | Err e => Finish (Err e)
   | Ok CheckPass => Proceed current
   | Ok (CheckReject reason silent) => reject_with reason (unwrap_silent override silent)
   end, w).

(** Through a dispatcher the transform works on a clone behind a mutex, which
    replaces the current job only when it continues.  By the time the dispatcher
    has answered, the work and its share of the clone are gone, so the source's
    error for a clone still shared does not arise. *)
Definition run_transform (a : TransformAction) (d : option D) (override : option bool) (current : Cow) (w : W)
    : verdict * W :=
  let execute_on (job : Job V) (w : W) :=
    match execute a job w with
    | ((Ok t, job'), w) => (Ok (t, job'), w)
    | ((Err e, _), w) => (Err e, w)
    end in
  let '(r, w) :=
    match d with
    | Some d => dispatch_via (TransformResult * Job V) d (as_job current) GuardCancelled
                  (execute_on (clone (as_job current))) w
    | None => execute_on (to_mut current) w
    end in
  (match r with
   | Err e => Finish (Err e)
   | Ok (TransformContinue, job') => Proceed (Owned job')
   | Ok (TransformReject reason silent, _) => reject_with reason (unwrap_silent override silent)
   end, w).

Definition of_target (override : option bool) (r : result ActionError TargetResult) : verdict :=
  match r with
  | Err e => Finish (Err e)
  | Ok (TargetComplete r) => Finish (Ok r)
  | Ok (TargetReject reason silent) => reject_with reason (unwrap_silent override silent)
  end.

Definition run_target (a : TargetAction) (d : option D) (override : option bool) (current : Cow) (w : W)
    : verdict * W :=
  let job := as_job current in
  match d with
  | Some d =>
      let '(r, w) := dispatch_via TargetResult d job GuardCancelledOrClientGone
                       (target_dispatch a (clone job)) w in
      (of_target override r, w)
  | None =>
      if is_cancelled (world_cells w) job then (Finish (Err Cancelled), w)
      else if negb (client_present (world_now w) (world_cells w) job) then (Finish (Err ClientGone), w)
      else let '(r, w) := target_dispatch a job w in (of_target override r, w)
  end.

Section dispatch.
Context (nested : Switch -> Job V -> W -> result ActionError TargetResult * W).

Definition run_action (a : Action) (current : Cow) (w : W) : verdict * W :=
  if is_cancelled (world_cells w) (as_job current) then (Finish (Err Cancelled), w)
  else match a with
       | Check a d o => run_check a d o current w
       | Transform a d o => run_transform a d o current w
       | Target a d o => run_target a d o current w
       | SwitchAction s => let '(r, w) := nested s (as_job current) w in (of_target None r, w)
       end.

(** A route: [Proceed] here means its actions ran out. *)
Definition run_actions :=
  fix loop (acts : list Action) (current : Cow) (w : W) : verdict * W :=
    match acts with
    | [] => (Proceed current, w)
    | a :: acts => match run_action a current w with
                   | (Proceed current, w) => loop acts current w
                   | stop => stop
                   end
    end.

(** What the rejections of all routes add up to. *)
Definition no_match (rejections : list string) : TargetResult :=
  match rejections with
  | [] => TargetReject "no route matched the request" true
  | _ => TargetReject (String.concat "; " rejections) false
  end.

Definition run_routes (job : Job V) :=
  fix loop (rs : list Route) (rejections : list string) (w : W)
      : result ActionError TargetResult * W :=
    match rs with
    | [] => (Ok (no_match rejections), w)
    | r :: rs =>
        let 'mkRoute _ acts := r in
        match run_actions acts (Borrowed job) w with
        | (Finish r, w) => (map_ok TargetComplete r, w)
        | (GiveUp reason, w) => loop rs (rejections ++ option_list reason) w
        | (Proceed _, w) => loop rs rejections w
        end
    end.
End dispatch.

Fixpoint dispatch (s : Switch) (job : Job V) (w : W) : result ActionError TargetResult * W :=
  let 'mkSwitch rs := s in run_routes dispatch job rs [] w.

(** [RemoteTarget]: an error when it is dispatched without a remote pool. *)
Definition remote_target (description : V) : TargetAction :=
  mkTarget (fun _ w => (Err (ActionConfigError "'remote' target must be paired with 'executor: remote_pool'"), w))
    description.

(** ** Well-formed switches *)

(** A route is some steps that are not terminal followed by one that is, and
    nested switches are well formed. *)
Inductive well_formed : Switch -> Prop :=
| well_formed_switch rs :
    Forall (fun r => exists steps last,
              route_actions r = steps ++ [last] /\
              Forall (fun a => is_terminal a = false) steps /\ is_terminal last = true /\
              forall s, last = SwitchAction s -> well_formed s) rs ->
    well_formed (mkSwitch rs).

(** Induction over nested switches. *)
Fixpoint switch_depth (s : Switch) : nat :=
  let 'mkSwitch rs := s in
  S (foldr Nat.max 0%nat (map (fun r : Route => let 'mkRoute _ acts := r in
       foldr Nat.max 0%nat (map (fun a => match a with SwitchAction sw => switch_depth sw | _ => 0%nat end) acts)) rs)).

Lemma max_list_in (l : list nat) n : n ∈ l -> (n <= foldr Nat.max 0 l)%nat.
Proof. induction l as [|m l IH]; simpl; [by intros ?%not_elem_of_nil|]. intros [->|?%IH]%elem_of_cons; lia. Qed.

Lemma nested_depth rs name acts s :
  mkRoute name acts ∈ rs -> SwitchAction s ∈ acts -> (switch_depth s < switch_depth (mkSwitch rs))%nat.
Proof.
  intros Hr Ha. cbn [switch_depth]. apply Nat.lt_succ_r.
  eapply Nat.le_trans; [|apply max_list_in, list_elem_of_In, (in_map _ _ (mkRoute name acts)), list_elem_of_In, Hr].
  cbn beta iota.
  apply max_list_in, list_elem_of_In, in_map_iff. exists (SwitchAction s). split; [done|].
  by apply list_elem_of_In.
Qed.

Lemma switch_ind_depth (P : Switch -> Prop) :
  (forall rs, (forall name acts s, mkRoute name acts ∈ rs -> SwitchAction s ∈ acts -> P s) -> P (mkSwitch rs)) ->
  forall s, P s.
Proof.
  intros Hind s. remember (switch_depth s) as n eqn:Hn. assert (switch_depth s <= n)%nat as Hle by lia.
  clear Hn. revert s Hle; induction n as [|n IH]; intros [rs] Hle; [simpl in Hle; lia|].
  apply Hind. intros name acts s Hr Ha. apply IH. pose proof (nested_depth _ _ _ _ Hr Ha). lia.
Qed.

Lemma for_all_ok f rs : for_all f rs = Ok tt <-> Forall (fun r => f r = Ok tt) rs.
Proof.
  induction rs as [|r rs IH]; simpl; [by split|]. destruct (f r) as [[]|e] eqn:Hf; simpl.
  - rewrite IH. split; [by constructor|by inversion 1].
  - split; [done|]. inversion 1. congruence.
Qed.

Lemma validate_from_ok valid name i acts :
  validate_from valid name i acts = Ok tt <->
  exists steps last, acts = steps ++ [last] /\ Forall (fun a => is_terminal a = false) steps /\
    is_terminal last = true /\ forall s, last = SwitchAction s -> valid s = Ok tt.
Proof.
  revert i; induction acts as [|a acts IH]; intros i; simpl.
  { split; [done|]. by intros ([|? ?] & ? & ? & _). }
  destruct (is_terminal a) eqn:Ht.
  - split.
    + intros Hv. destruct acts as [|b acts].
      2: { destruct a; try done; by destruct (valid s) as [[]|]. }
      exists [], a. split_and!; [done..|]. intros s ->. by destruct (valid s) as [[]|].
    + intros ([|b steps] & last & Heq & Hsteps & _ & Hs); simplify_eq/=.
      * destruct last; try done. by rewrite Hs.
      * apply Forall_cons in Hsteps as [? _]. congruence.
  - assert (match a with SwitchAction sw => valid sw | _ => Ok tt end = Ok tt) as -> by by destruct a.
    rewrite IH. split.
    + intros (steps & last & -> & ? & ? & ?). exists (a :: steps), last. by split_and!; [|constructor|..].
    + intros ([|b steps] & last & Heq & Hsteps & Hl & Hs); simplify_eq/=; [congruence|].
      apply Forall_cons in Hsteps as [_ ?]. eauto 10.
Qed.

Lemma validate_route_ok valid name acts :
  validate_route valid name acts = Ok tt <->
  exists steps last, acts = steps ++ [last] /\ Forall (fun a => is_terminal a = false) steps /\
    is_terminal last = true /\ forall s, last = SwitchAction s -> valid s = Ok tt.
Proof.
  unfold validate_route. destruct acts; [|apply validate_from_ok].
  split; [done|]. by intros ([|? ?] & ? & ? & _).
Qed.

Lemma validate_well_formed s : validate s = Ok tt <-> well_formed s.
Proof.
  induction s as [rs IH] using switch_ind_depth. cbn [validate]. rewrite for_all_ok. split.
  - rewrite Forall_forall. intros Hv. constructor. apply Forall_forall.
    intros [name acts] Hr. destruct (proj1 (validate_route_ok _ _ _) (Hv _ Hr)) as (steps & last & Heq & ? & ? & Hs). simpl.
    exists steps, last. split_and!; [done..|]. intros s ->. eapply IH; [done| |by apply Hs].
    rewrite Heq. apply elem_of_app. right. by apply list_elem_of_singleton.
  - intros Hw. inversion Hw as [? Hf]; subst. rewrite Forall_forall in Hf. apply Forall_forall.
    intros [name acts] Hr. destruct (Hf _ Hr) as (steps & last & Heq & ? & ? & Hs). simpl in Heq. apply validate_route_ok.
    exists steps, last. split_and!; [done..|]. intros s ->. eapply IH; [done| |by apply Hs].
    rewrite Heq. apply elem_of_app. right. by apply list_elem_of_singleton.
Qed.

(** C38. Validation accepts exactly the well-formed switches: every route, at every
    depth, ends in a target or a switch and has none before its end. *)
Theorem validate_iff s : validate s = Ok tt <-> well_formed s.
Proof. apply validate_well_formed. Qed.

(** ** What dispatch means

    A big-step semantics of actions, routes and switches, case by case. *)

(** The reason a rejection leaves behind: none if it is silent, as the entry
    says or else as the action does. *)
Definition reported (override : option bool) (silent : bool) (reason : string) : option string :=
  match override, silent with Some true, _ | None, true => None | _, _ => Some reason end.

(** Asking an action, in place or through its dispatcher on a clone. *)
Inductive asks {T : Type} (work : Job V -> W -> result ActionError T * W) (guard : DispatchGuard) (job : Job V) (w : W)
    : option D -> result ActionError T -> W -> Prop :=
| asks_in_place r w' : work job w = (r, w') -> asks work guard job w None r w'
| asks_through d r w' : dispatch_via T d job guard (work (clone job)) w = (r, w') -> asks work guard job w (Some d) r w'.

Inductive check_means (o : option bool) (c : Cow) : result ActionError CheckResult -> verdict -> Prop :=
| check_passed : check_means o c (Ok CheckPass) (Proceed c)
| check_rejected reason silent : check_means o c (Ok (CheckReject reason silent)) (GiveUp (reported o silent reason))
| check_failed e : check_means o c (Err e) (Finish (Err e)).

Inductive transform_means (o : option bool) : result ActionError (TransformResult * Job V) -> verdict -> Prop :=
| transform_continued job : transform_means o (Ok (TransformContinue, job)) (Proceed (Owned job))
| transform_rejected reason silent job :
    transform_means o (Ok (TransformReject reason silent, job)) (GiveUp (reported o silent reason))
| transform_failed e : transform_means o (Err e) (Finish (Err e)).

Inductive target_means (o : option bool) : result ActionError TargetResult -> verdict -> Prop :=
| target_completed r : target_means o (Ok (TargetComplete r)) (Finish (Ok r))
| target_rejected reason silent : target_means o (Ok (TargetReject reason silent)) (GiveUp (reported o silent reason))
| target_failed e : target_means o (Err e) (Finish (Err e)).

(** A transform's answer with the job it left behind. *)
Definition transformed (a : TransformAction) (job : Job V) (w : W) : result ActionError (TransformResult * Job V) * W :=
  match execute a job w with
  | ((Ok t, job'), w') => (Ok (t, job'), w')
  | ((Err e, _), w') => (Err e, w')
  end.

Inductive acts_to : Action -> Cow -> W -> verdict -> W -> Prop :=
| acts_cancelled a c w :
    is_cancelled (world_cells w) (as_job c) = true -> acts_to a c w (Finish (Err Cancelled)) w
| acts_check a d o c w r v w' :
    is_cancelled (world_cells w) (as_job c) = false ->
    asks (evaluate a) GuardCancelled (as_job c) w d r w' -> check_means o c r v ->
    acts_to (Check a d o) c w v w'
| acts_transform_in_place a o c w r v w' :
    is_cancelled (world_cells w) (as_job c) = false ->
    transformed a (match c with Borrowed j => clone j | Owned j => j end) w = (r, w') -> transform_means o r v ->
    acts_to (Transform a None o) c w v w'
| acts_transform_through a d o c w r v w' :
    is_cancelled (world_cells w) (as_job c) = false ->
    asks (transformed a) GuardCancelled (as_job c) w (Some d) r w' -> transform_means o r v ->
    acts_to (Transform a (Some d) o) c w v w'
| acts_target_gone a o c w :
    is_cancelled (world_cells w) (as_job c) = false ->
    client_present (world_now w) (world_cells w) (as_job c) = false ->
    acts_to (Target a None o) c w (Finish (Err ClientGone)) w
| acts_target a d o c w r v w' :
    is_cancelled (world_cells w) (as_job c) = false ->
    (d = None -> client_present (world_now w) (world_cells w) (as_job c) = true) ->
    asks (target_dispatch a) GuardCancelledOrClientGone (as_job c) w d r w' -> target_means o r v ->
    acts_to (Target a d o) c w v w'
| acts_switch s c w r v w' :
    is_cancelled (world_cells w) (as_job c) = false ->
    routes_to s (as_job c) w r w' -> target_means None r v ->
    acts_to (SwitchAction s) c w v w'

(* a route runs its actions until one does not proceed *)
with route_to : list Action -> Cow -> W -> verdict -> W -> Prop :=
| route_ends a rest c w v w' :
    acts_to a c w v w' -> (forall c', v <> Proceed c') -> route_to (a :: rest) c w v w'
| route_goes_on a rest c w c' w1 v w' :
    acts_to a c w (Proceed c') w1 -> route_to rest c' w1 v w' -> route_to (a :: rest) c w v w'

(* routes that give up, with the reasons they reported *)
with gave_up : list Route -> Job V -> list string -> W -> W -> Prop :=
| gave_up_none job w : gave_up [] job [] w w
| gave_up_silently r rs job reasons w w1 w2 :
    route_to (route_actions r) (Borrowed job) w (GiveUp None) w1 -> gave_up rs job reasons w1 w2 ->
    gave_up (r :: rs) job reasons w w2
| gave_up_reported r rs job reason reasons w w1 w2 :
    route_to (route_actions r) (Borrowed job) w (GiveUp (Some reason)) w1 -> gave_up rs job reasons w1 w2 ->
    gave_up (r :: rs) job (reason :: reasons) w w2

with routes_to : Switch -> Job V -> W -> result ActionError TargetResult -> W -> Prop :=
| routes_completed before rt after job reasons w w1 r w2 :
    gave_up before job reasons w w1 -> route_to (route_actions rt) (Borrowed job) w1 (Finish (Ok r)) w2 ->
    routes_to (mkSwitch (before ++ rt :: after)) job w (Ok (TargetComplete r)) w2
| routes_failed before rt after job reasons w w1 e w2 :
    gave_up before job reasons w w1 -> route_to (route_actions rt) (Borrowed job) w1 (Finish (Err e)) w2 ->
    routes_to (mkSwitch (before ++ rt :: after)) job w (Err e) w2
| routes_silent rs job w w' :
    gave_up rs job [] w w' -> routes_to (mkSwitch rs) job w (Ok (TargetReject "no route matched the request" true)) w'
| routes_rejected rs job reason reasons w w' :
    gave_up rs job (reason :: reasons) w w' ->
    routes_to (mkSwitch rs) job w (Ok (TargetReject (String.concat "; " (reason :: reasons)) false)) w'.

Scheme acts_to_mind := Minimality for acts_to Sort Prop
  with route_to_mind := Minimality for route_to Sort Prop
  with gave_up_mind := Minimality for gave_up Sort Prop
  with routes_to_mind := Minimality for routes_to Sort Prop.

Lemma reject_reported o silent reason : reject_with reason (unwrap_silent o silent) = GiveUp (reported o silent reason).
Proof. unfold reject_with, unwrap_silent. by destruct o as [[]|], silent. Qed.

Lemma of_target_means o r v : target_means o r v <-> of_target o r = v.
Proof.
  split.
  - destruct 1; [done|apply reject_reported|done].
  - intros <-. destruct r as [[r|reason silent]|e]; simpl; rewrite ?reject_reported; constructor.
Qed.

Lemma of_target_stops o r c : of_target o r <> Proceed c.
Proof. unfold of_target, reject_with. by destruct r as [[]|]. Qed.

Lemma run_check_means a d o c w v w' :
  run_check a d o c w = (v, w') <->
  exists r, asks (evaluate a) GuardCancelled (as_job c) w d r w' /\ check_means o c r v.
Proof.
  assert (forall r, check_means o c r (match r with
     | Err e => Finish (Err e) | Ok CheckPass => Proceed c
     | Ok (CheckReject reason silent) => reject_with reason (unwrap_silent o silent) end)) as Hm
    by (intros [[|reason silent]|e]; rewrite ?reject_reported; constructor).
  unfold run_check. split.
  - destruct d as [d|].
    + destruct (dispatch_via _ _ _ _ _ w) as [r w1] eqn:Hd. intros [= <- <-]. exists r. split; [by constructor|done].
    + destruct (evaluate a (as_job c) w) as [r w1] eqn:Hd. intros [= <- <-]. exists r. split; [by constructor|done].
  - intros (r & Ha & Hv). destruct Ha as [r w' ->|d r w' ->]; destruct Hv; by rewrite ?reject_reported.
Qed.

Lemma run_transform_means a d o c w v w' :
  run_transform a d o c w = (v, w') <->
  exists r, (match d with
             | Some d => asks (transformed a) GuardCancelled (as_job c) w (Some d) r w'
             | None => transformed a (to_mut c) w = (r, w')
             end) /\ transform_means o r v.
Proof.
  assert (forall r, transform_means o r (match r with
     | Err e => Finish (Err e) | Ok (TransformContinue, job') => Proceed (Owned job')
     | Ok (TransformReject reason silent, _) => reject_with reason (unwrap_silent o silent) end)) as Hm
    by (intros [[[|reason silent] job]|e]; rewrite ?reject_reported; constructor).
  change (run_transform a d o c w) with
    (let '(r, w) := match d with
       | Some d => dispatch_via (TransformResult * Job V) d (as_job c) GuardCancelled (transformed a (clone (as_job c))) w
       | None => transformed a (to_mut c) w
       end in
     (match r with
      | Err e => Finish (Err e) | Ok (TransformContinue, job') => Proceed (Owned job')
      | Ok (TransformReject reason silent, _) => reject_with reason (unwrap_silent o silent) end, w)).
  split.
  - destruct d as [d|].
    + destruct (dispatch_via _ _ _ _ _ w) as [r w1] eqn:Hd. intros [= <- <-]. exists r. split; [by constructor|done].
    + destruct (transformed a (to_mut c) w) as [r w1]. intros [= <- <-]. by exists r.
  - intros (r & Ha & Hv). destruct d as [d|]; [inversion_clear Ha as [|? ? ? Ha']; rewrite Ha'|rewrite Ha];
      destruct Hv; by rewrite ?reject_reported.
Qed.

Lemma run_target_means a d o c w v w' :
  is_cancelled (world_cells w) (as_job c) = false ->
  run_target a d o c w = (v, w') -> acts_to (Target a d o) c w v w'.
Proof.
  intros Hc. unfold run_target. rewrite Hc. destruct d as [d|].
  - destruct (dispatch_via _ _ _ _ _ w) as [r w1] eqn:Hd. intros [= <- <-].
    eapply acts_target; [done|done|by constructor|by apply of_target_means].
  - destruct (client_present _ _ _) eqn:Hp; simpl; [|intros [= <- <-]; by apply acts_target_gone].
    destruct (target_dispatch a (as_job c) w) as [r w1] eqn:Hd. intros [= <- <-].
    eapply acts_target; [done|done|by constructor|by apply of_target_means].
Qed.

(** The code follows the semantics. *)

Lemma run_action_alive nested a c w :
  is_cancelled (world_cells w) (as_job c) = false ->
  run_action nested a c w =
  match a with
  | Check a d o => run_check a d o c w
  | Transform a d o => run_transform a d o c w
  | Target a d o => run_target a d o c w
  | SwitchAction s => let '(r, w) := nested s (as_job c) w in (of_target None r, w)
  end.
Proof. intros Hc. unfold run_action. by rewrite Hc. Qed.

Lemma asked_target_runs nested a d o c w r v w' :
  is_cancelled (world_cells w) (as_job c) = false ->
  (d = None -> client_present (world_now w) (world_cells w) (as_job c) = true) ->
  asks (target_dispatch a) GuardCancelledOrClientGone (as_job c) w d r w' -> target_means o r v ->
  run_action nested (Target a d o) c w = (v, w').
Proof.
  intros Hc Hp Ha Hv%of_target_means. rewrite (run_action_alive _ _ _ _ Hc). unfold run_target.
  destruct Ha as [r w' Ha|d r w' Ha]; rewrite Ha; [|by rewrite Hv].
  rewrite Hc, Hp by done. simpl. by rewrite Hv.
Qed.

Lemma routes_to_run s job w r w' : routes_to s job w r w' -> dispatch s job w = (r, w').
Proof.
  apply (routes_to_mind
    (fun a c w v w' => run_action dispatch a c w = (v, w'))
    (fun acts c w v w' => run_actions dispatch acts c w = (v, w'))
    (fun rs job reasons w w' => forall tail acc,
       run_routes dispatch job (rs ++ tail) acc w = run_routes dispatch job tail (acc ++ reasons) w')
    (fun s job w r w' => dispatch s job w = (r, w'))); clear s job w r w'.
  - intros a c w Hc. unfold run_action. by rewrite Hc.
  - intros a d o c w r v w' Hc Ha Hv. rewrite (run_action_alive _ _ _ _ Hc). apply run_check_means. eauto.
  - intros a o c w r v w' Hc Ha Hv. rewrite (run_action_alive _ _ _ _ Hc). apply run_transform_means. eauto.
  - intros a d o c w r v w' Hc Ha Hv. rewrite (run_action_alive _ _ _ _ Hc). apply run_transform_means. eauto.
  - intros a o c w Hc Hp. rewrite (run_action_alive _ _ _ _ Hc). unfold run_target. by rewrite Hc, Hp.
  - intros. by eapply asked_target_runs.
  - intros s c w r v w' Hc _ Hr Hv%of_target_means. rewrite (run_action_alive _ _ _ _ Hc), Hr. by rewrite Hv.
  - intros a rest c w v w' _ Ha Hv. simpl. rewrite Ha. by destruct v as [c'| |]; [destruct (Hv c')| |].
  - intros a rest c w c' w1 v w' _ Ha _ Hr. simpl. by rewrite Ha.
  - intros job w tail acc. by rewrite app_nil_r.
  - intros [name acts] rs job reasons w w1 w2 _ Hr _ Hrs tail acc. simpl in *. rewrite Hr, Hrs. by rewrite app_nil_r.
  - intros [name acts] rs job reason reasons w w1 w2 _ Hr _ Hrs tail acc. simpl in *. rewrite Hr, Hrs.
    by rewrite <- app_assoc.
  - intros before [name acts] after job reasons w w1 r w2 _ Hb _ Hr. cbn [dispatch]. rewrite Hb. simpl in *. by rewrite Hr.
  - intros before [name acts] after job reasons w w1 e w2 _ Hb _ Hr. cbn [dispatch]. rewrite Hb. simpl in *. by rewrite Hr.
  - intros rs job w w' _ Hb. cbn [dispatch]. specialize (Hb [] []). by rewrite !app_nil_r in Hb.
  - intros rs job reason reasons w w' _ Hb. cbn [dispatch]. specialize (Hb [] []). by rewrite app_nil_r in Hb.
Qed.

(** The semantics gives every dispatch of a well-formed switch a meaning. *)

Lemma run_action_acts a c w :
  (forall s job w, a = SwitchAction s -> routes_to s job w (dispatch s job w).1 (dispatch s job w).2) ->
  acts_to a c w (run_action dispatch a c w).1 (run_action dispatch a c w).2.
Proof.
  intros Hs. destruct (is_cancelled (world_cells w) (as_job c)) eqn:Hc.
  { unfold run_action. rewrite Hc. by apply acts_cancelled. }
  rewrite (run_action_alive _ _ _ _ Hc). destruct a as [a d o|a d o|a d o|s].
  - destruct (run_check a d o c w) as [v w'] eqn:Hr. apply run_check_means in Hr as (r & Ha & Hv). by eapply acts_check.
  - destruct (run_transform a d o c w) as [v w'] eqn:Hr. apply run_transform_means in Hr as (r & Ha & Hv).
    destruct d; [by eapply acts_transform_through|by eapply acts_transform_in_place].
  - destruct (run_target a d o c w) as [v w'] eqn:Hr. by apply run_target_means.
  - specialize (Hs s (as_job c) w eq_refl). destruct (dispatch s (as_job c) w) as [r w'].
    eapply acts_switch; [done..|]. by apply of_target_means.
Qed.

Lemma terminal_never_proceeds a c w c' : is_terminal a = true -> (run_action dispatch a c w).1 <> Proceed c'.
Proof.
  intros Ha. unfold run_action. destruct (is_cancelled _ _) eqn:Hc; [done|]. destruct a as [| |a d o|s]; try done.
  - unfold run_target. rewrite Hc. destruct d; [|destruct (client_present _ _ _); [|done]]; simpl;
      match goal with |- context [let '(_, _) := ?x in _] => destruct x end; apply of_target_stops.
  - destruct (dispatch s _ w). apply of_target_stops.
Qed.

Lemma run_actions_route steps last c w :
  Forall (fun a => is_terminal a = false) steps -> is_terminal last = true ->
  (forall s job w, last = SwitchAction s -> routes_to s job w (dispatch s job w).1 (dispatch s job w).2) ->
  let '(v, w') := run_actions dispatch (steps ++ [last]) c w in
  route_to (steps ++ [last]) c w v w' /\ forall c', v <> Proceed c'.
Proof.
  intros Hsteps Hl Hs. revert c w. induction Hsteps as [|a steps Ha _ IH]; intros c w; simpl.
  - pose proof (run_action_acts last c w Hs) as Hact. pose proof (fun c' => terminal_never_proceeds last c w c' Hl) as Hp.
    destruct (run_action dispatch last c w) as [[c'| |] w']; simpl in *; [by destruct (Hp c')|..];
      (split; [by apply route_ends|done]).
  - pose proof (run_action_acts a c w ltac:(intros ? ? ? ->; discriminate)) as Hact.
    destruct (run_action dispatch a c w) as [[c'|reason|r] w'] eqn:Hr; simpl in *; [|by (split; [apply route_ends|])..].
    specialize (IH c' w'). destruct (run_actions dispatch (steps ++ [last]) c' w') as [v w2]. destruct IH as [? ?].
    split; [|done]. by eapply route_goes_on.
Qed.

Lemma gave_up_snoc before r job reasons reason w w1 w2 :
  gave_up before job reasons w w1 -> route_to (route_actions r) (Borrowed job) w1 (GiveUp reason) w2 ->
  gave_up (before ++ [r]) job (reasons ++ option_list reason) w w2.
Proof.
  revert reasons w. induction before as [|b before IH]; intros reasons w Hb Hr; inversion Hb; subst; simpl.
  - destruct reason; [eapply gave_up_reported|eapply gave_up_silently]; try done; constructor.
  - eapply gave_up_silently; [done|]. by apply IH.
  - eapply gave_up_reported; [done|]. by apply IH.
Qed.

Lemma dispatch_means s job w : well_formed s -> routes_to s job w (dispatch s job w).1 (dispatch s job w).2.
Proof.
  revert job w. induction s as [rs IH] using switch_ind_depth. intros job w Hw. inversion_clear Hw as [? Hf].
  cbn [dispatch].
  enough (forall before acc w1, gave_up before job acc w w1 ->
    let '(r, w') := run_routes dispatch job rs acc w1 in routes_to (mkSwitch (before ++ rs)) job w r w') as H2.
  { specialize (H2 [] [] w (gave_up_none _ _)). by destruct (run_routes _ _ _ _ _). }
  induction Hf as [|[name acts] rs (steps & last & Heq & Hsteps & Hl & Hs) _ IHrs]; intros before acc w1 Hb; simpl.
  { rewrite app_nil_r. destruct acc; simpl; [by apply routes_silent|by apply routes_rejected]. }
  simpl in Heq. subst acts.
  pose proof (run_actions_route steps last (Borrowed job) w1 Hsteps Hl) as Hroute.
  destruct (run_actions dispatch (steps ++ [last]) (Borrowed job) w1) as [v w2].
  destruct Hroute as [Hroute Hp].
  { intros s j w0 ->. eapply IH; [by apply list_elem_of_here| |by apply Hs].
    apply elem_of_app. right. by apply list_elem_of_singleton. }
  change (steps ++ [last]) with (route_actions (mkRoute name (steps ++ [last]))) in Hroute.
  destruct v as [c'|reason|[r|e]]; [by destruct (Hp c')| |by eapply routes_completed|by eapply routes_failed].
  specialize (IHrs ltac:(intros ? ? ? ?; eapply IH; by apply list_elem_of_further)
    (before ++ [mkRoute name (steps ++ [last])]) (acc ++ option_list reason) w2 (gave_up_snoc _ _ _ _ _ _ _ _ Hb Hroute)).
  by rewrite <- app_assoc in IHrs.
Qed.

(** C17. A dispatch of a well-formed switch does exactly what the semantics
    says: the first route that does not give up decides, and when all give up
    the job is rejected with the reasons they reported, joined, or silently
    when none did. *)
Theorem dispatch_first_match s job w r w' :
  well_formed s -> dispatch s job w = (r, w') <-> routes_to s job w r w'.
Proof.
  intros Hw. split; [|apply routes_to_run].
  pose proof (dispatch_means s job w Hw) as H2. by intros Hd; rewrite Hd in H2.
Qed.

(** Cancellation stops a dispatch before the next action: on a job already
    cancelled nothing runs at all. *)
Theorem cancelled_runs_nothing s job w :
  well_formed s -> routes s <> [] -> is_cancelled (world_cells w) job = true ->
  dispatch s job w = (Err Cancelled, w).
Proof.
  intros [rs Hw] Hne Hc. cbn [dispatch]. destruct rs as [|[name acts] rs]; [done|].
  apply Forall_cons in Hw as [(steps & last & Heq & _ & Hl & _) _]. simpl in Heq. subst acts.
  assert (exists a rest, steps ++ [last] = a :: rest) as (a & rest & ->) by (destruct steps; eauto).
  cbn [run_routes run_actions]. unfold run_action. simpl. by rewrite Hc.
Qed.

(** A target run in place is reached only while its client is there. *)
Lemma target_needs_client nested a o c w :
  client_present (world_now w) (world_cells w) (as_job c) = false ->
  is_cancelled (world_cells w) (as_job c) = false ->
  run_action nested (Target a None o) c w = (Finish (Err ClientGone), w).
Proof. intros Hp Hc. unfold run_action, run_target. by rewrite !Hc, Hp. Qed.

(** An answer of a check behind a dispatcher is one the check gave. *)
Lemma check_behind_dispatcher `{!DispatchingLaws D W (Job V)} a d o c w c' w' :
  run_check a (Some d) o c w = (Proceed c', w') ->
  c' = c /\ exists w1 w2, evaluate a (clone (as_job c)) w1 = (Ok CheckPass, w2).
Proof.
  unfold run_check. destruct (dispatch_via _ _ _ _ _ w) as [[[]|] w1] eqn:Hd; try done; unfold reject_with.
  intros [= <- <-]. split; [done|]. by eapply dispatch_ok.
Qed.
End routing.

(** ** A concrete switch *)

#[export] Instance cells_world : World Cells := {| world_cells := fun h => h; world_now := fun _ => 0 |}.
#[export] Instance no_dispatching : Dispatching Empty_set Cells (Job sample) := {|
  dispatch_via := fun T (d : Empty_set) => match d with end;
  close_via := fun (d : Empty_set) => match d with end
|}.

Definition sample_check : CheckAction (V:=sample) (W:=Cells) :=
  mkCheck (fun _ w => (Ok (CheckReject "not today" false), w)) (JObject []).
Definition sample_target : TargetAction (V:=sample) (W:=Cells) :=
  mkTarget (fun _ w => (Ok (TargetComplete (Success "text/plain" 0 [])), w)) (JObject []).
Definition sample_switch : Switch (V:=sample) (W:=Cells) (D:=Empty_set) :=
  mkSwitch [mkRoute "checked" [Check sample_check None None; Target sample_target None None];
            mkRoute "default" [Target sample_target None None]].
Definition sample_job : Job sample := new_with_id "j1" JNull 0 0.
Definition sample_cells : Cells := {[ 0%nat := mkLifecycle false 1 0 0 0 0 ]}.

Lemma sample_switch_ok : well_formed sample_switch.
Proof. apply validate_well_formed. reflexivity. Qed.

Lemma dispatch_first_match_witness :
  routes_to sample_switch sample_job sample_cells (Ok (TargetComplete (Success "text/plain" 0 []))) sample_cells.
Proof.
  apply (dispatch_first_match sample_switch sample_job sample_cells); [apply sample_switch_ok|by vm_compute].
Defined.

Lemma cancelled_runs_nothing_witness :
  let w : Cells := {[ 0%nat := mkLifecycle true 1 0 0 0 0 ]} in
  dispatch sample_switch sample_job w = (Err Cancelled, w).
Proof.
  apply (cancelled_runs_nothing sample_switch sample_job {[ 0%nat := mkLifecycle true 1 0 0 0 0 ]}).
  - apply sample_switch_ok.
  - discriminate.
  - reflexivity.
Defined.
