(* ===== verification/Broker.v ===== *)
(** * The broker ([bits.rs], [runtime/submission.rs], [runtime/runner.rs],
    [runtime/maintenance.rs])

    The job table and its counter, submission, the runner of each job, local
    polls and the sweeper.  A job object is an [Arc<Job>]: it has a handle, and
    the table maps ids to handles, so an entry that was replaced under the same
    id is told apart from the object a poller still holds.  The step relation
    interleaves any number of submitters, runners, pollers and sweeps between
    any two actions on shared state. *)
From stdpp Require Import relations.
From S2P Require Import Prelude Json Errors RequestId Job Actions.

(** ** Outcomes *)

Inductive PollOutcome : Type :=
| Ready (r : JobResult)
| Pending (id : string) (status : PendingStatus)
| PollNotFound
| JobLost.

Definition queued (id : string) : PollOutcome := Pending id Queued.

Inductive SubmitOutcome : Type :=
| Accepted (id : string)
| SubmitOverloaded.

Inductive SubmissionAdmission : Type := EnforceLimit | BypassLimitAlreadyPersisted.

(** ** The runner's translation of a dispatch *)

Definition internal_error : JobResult := Failed "internal server error".

(** [dispatch] of runner.rs. *)
Definition job_result_of (r : result ActionError TargetResult) : JobResult :=
  match r with
  | Ok (TargetComplete result) => result
  | Ok (TargetReject reason _) => Error reason
  | Err Cancelled => JobCancelled
  | Err ClientGone => JobClientGone
  | Err (QueueFull reason) => Overloaded reason
  | Err (UserLimitExceeded reason) => RateLimited reason
  | Err _ => internal_error
  end.

(** A dispatch that panicked is [None]. *)
Definition handle_action_panic (r : option (result ActionError TargetResult)) : JobResult :=
  match r with Some r => job_result_of r | None => internal_error end.

(** ** Snapshots *)

Record ActiveJobSnapshot (V : Type) : Type := mkSnapshot {
  snap_id : string;
  snap_created_at : Z;
  snap_original_request : V;
  snap_request : V;
  snap_user : V;
  snap_metadata : V;
  snap_status : string;
  snap_location : option string;
  snap_content_type : option string;
  snap_content_length : option Z;
  snap_user_message : option string
}.
Arguments mkSnapshot {V}. Arguments snap_id {V}. Arguments snap_status {V}.

(** Status, location, content type, content length, message. *)
Definition result_fields (pending : string) (r : option JobResult)
    : string * option string * option string * option Z * option string :=
  match r with
  | None => (pending, None, None, None, None)
  | Some (Success ct size _) =>
      ("processed"%string, None, Some ct, if 0 <=? size then Some size else None, None)
  | Some (Redirect loc message ct cl) => ("processed"%string, Some loc, ct, cl, Some message)
  | Some (Error message) => ("failed"%string, None, None, None, Some message)
  | Some (Failed reason) | Some (Overloaded reason) | Some (RateLimited reason) =>
      ("failed"%string, None, None, None, Some reason)
  | Some JobCancelled => ("failed"%string, None, None, None, Some "Request cancelled"%string)
  | Some JobClientGone =>
      ("failed"%string, None, None, None, Some "request abandoned: client disconnected"%string)
  end.

Section broker.
Context {V : Type} `{JsonValue V}.

Definition with_result (r : option JobResult) (j : Job V) : Job V :=
  mkJob j.(id) j.(original_request) j.(request) j.(user) j.(created_at) j.(metadata) j.(cell)
    j.(persisted) r.
Definition with_persisted (p : bool) (j : Job V) : Job V :=
  mkJob j.(id) j.(original_request) j.(request) j.(user) j.(created_at) j.(metadata) j.(cell)
    p j.(job_result).
Definition with_id (i : string) (j : Job V) : Job V :=
  mkJob i j.(original_request) j.(request) j.(user) j.(created_at) j.(metadata) j.(cell)
    j.(persisted) j.(job_result).
Definition with_cell (l : nat) (j : Job V) : Job V :=
  mkJob j.(id) j.(original_request) j.(request) j.(user) j.(created_at) j.(metadata) l
    j.(persisted) j.(job_result).

Definition snapshot (h : Cells) (job : Job V) : ActiveJobSnapshot V :=
  let status := if is_cancelled h job then "failed"%string
                else PendingStatus.as_str (pending_status h job) in
  let '(status, location, content_type, content_length, user_message) :=
    result_fields status job.(job_result) in
  mkSnapshot job.(id) job.(created_at) job.(original_request) job.(request) job.(user)
    job.(metadata) status location content_type content_length user_message.

(** ** The shared state *)

(** The configuration a [SubmitContext] carries. *)
Record BrokerConfig : Type := mkBrokerConfig {
  max_jobs : Z;
  site_tag : string;
  env_tag : string;
  slot : Z;
  reconnect_buffer : Z;
  persist_after : bool;
  has_store : bool
}.

Definition broker_name (c : BrokerConfig) : string :=
  (c.(site_tag) ++ "-" ++ c.(env_tag) ++ "-" ++ pretty c.(slot))%string.

(** [objs] are the live job objects by handle, [jobs] the table, [job_count]
    the counter. *)
Record Bits : Type := mkBits {
  objs : gmap nat (Job V);
  cells : Cells;
  jobs : gmap string nat;
  job_count : Z;
  in_flight : Z;
  cleanup : list string
}.

Definition bits_new : Bits := mkBits ∅ ∅ ∅ 0 0 [].

Definition upd_objs (o : gmap nat (Job V)) (b : Bits) : Bits :=
  mkBits o b.(cells) b.(jobs) b.(job_count) b.(in_flight) b.(cleanup).
Definition upd_cells (h : Cells) (b : Bits) : Bits :=
  mkBits b.(objs) h b.(jobs) b.(job_count) b.(in_flight) b.(cleanup).
Definition upd_jobs (t : gmap string nat) (b : Bits) : Bits :=
  mkBits b.(objs) b.(cells) t b.(job_count) b.(in_flight) b.(cleanup).
Definition upd_count (n : Z) (b : Bits) : Bits :=
  mkBits b.(objs) b.(cells) b.(jobs) n b.(in_flight) b.(cleanup).
Definition upd_in_flight (n : Z) (b : Bits) : Bits :=
  mkBits b.(objs) b.(cells) b.(jobs) b.(job_count) n b.(cleanup).
Definition upd_cleanup (l : list string) (b : Bits) : Bits :=
  mkBits b.(objs) b.(cells) b.(jobs) b.(job_count) b.(in_flight) l.

Definition lookup_job (i : string) (b : Bits) : option (nat * Job V) :=
  l ← b.(jobs) !! i; j ← b.(objs) !! l; Some (l, j).

(** *** Submission *)

(** The admission decision: the compare-and-swap loop of [EnforceLimit] is one
    conditional increment. *)
Definition reserve (cfg : BrokerConfig) (admission : SubmissionAdmission) (b : Bits) : option Bits :=
  match admission with
  | EnforceLimit =>
      if cfg.(max_jobs) <=? b.(job_count) then None else Some (upd_count (b.(job_count) + 1) b)
  | BypassLimitAlreadyPersisted => Some (upd_count (b.(job_count) + 1) b)
  end.

(** [new_job_id]; an id that does not encode is the panic of [expect]. *)
Definition new_job_id (cfg : BrokerConfig) (rnd : list Z) (now : Z) : result EncodeError string :=
  encode rnd cfg.(site_tag) cfg.(env_tag) cfg.(slot) now.

(** A job whose id is not a request id gets a fresh one. *)
Definition assign_id (cfg : BrokerConfig) (rnd : list Z) (now : Z) (j : Job V)
    : result EncodeError (Job V) :=
  match decode j.(id) with
  | Ok _ => Ok j
  | Err _ => map_ok (fun i => with_id i j) (new_job_id cfg rnd now)
  end.

(** The entry is vacant: the object goes in under a fresh handle [l], with the
    reconnect window opened and a runner in flight. *)
Definition insert_job (cfg : BrokerConfig) (now : Z) (l : nat) (c : Lifecycle) (j : Job V) (b : Bits) : Bits :=
  mkBits (<[l := with_cell l j]> b.(objs))
    (<[l := cell_set_reconnect_deadline (now + cfg.(reconnect_buffer)) c]> b.(cells))
    (<[j.(id) := l]> b.(jobs)) b.(job_count) (b.(in_flight) + 1) b.(cleanup).

(** *** Polling and removal *)

(** [result.lock().take()]. *)
Definition take_result (l : nat) (b : Bits) : option JobResult * Bits :=
  match b.(objs) !! l with
  | Some j => match j.(job_result) with
              | Some r => (Some r, upd_objs (<[l := with_result None j]> b.(objs)) b)
              | None => (None, b)
              end
  | None => (None, b)
  end.

(** [jobs.remove(id)], and whether an entry was there. *)
Definition remove_entry (i : string) (b : Bits) : bool * Bits :=
  (bool_decide (is_Some (b.(jobs) !! i)), upd_jobs (delete i b.(jobs)) b).

(** [fetch_update(|n| n.checked_sub(1))]. *)
Definition decrement (b : Bits) : Bits := if 1 <=? b.(job_count) then upd_count (b.(job_count) - 1) b else b.

(** [remove_job], the removal followed by its decrement. *)
Definition remove_job (i : string) (b : Bits) : Bits :=
  let '(was, b) := remove_entry i b in if was then decrement b else b.

Definition schedule_durable_cleanup (cfg : BrokerConfig) (l : nat) (i : string) (b : Bits) : Bits :=
  match b.(objs) !! l with
  | Some j => if j.(persisted) && cfg.(has_store) then upd_cleanup (b.(cleanup) ++ [i]) b else b
  | None => b
  end.

Definition cancel (i : string) (b : Bits) : bool * Bits :=
  match lookup_job i b with
  | Some (_, j) => (true, upd_cells (Job.request_cancel b.(cells) j) b)
  | None => (false, b)
  end.

Definition active_jobs (b : Bits) : list (ActiveJobSnapshot V) :=
  omap (fun l => snapshot b.(cells) <$> b.(objs) !! l) (values b.(jobs)).

(** What a submit poll may take: a failure, never a deliverable payload. *)
Definition takes (submit_poll : bool) (r : JobResult) : bool :=
  negb submit_poll || negb (JobResult.is_deliverable r).

(** The sweeper's test, made again under the entry's lock. *)
Definition sweepable (now : Z) (b : Bits) (j : Job V) : bool :=
  bool_decide (is_Some j.(job_result)) && negb (client_present now b.(cells) j).

(** [submit] in one go; [utc] is the wall clock of a minted id, [now] the
    monotonic clock of the reconnect window, [l] the handle and [c] the cell of
    the new object. *)
Definition submit (cfg : BrokerConfig) (admission : SubmissionAdmission) (rnd : list Z) (utc now : Z)
    (l : nat) (c : Lifecycle) (j : Job V) (b : Bits) : result EncodeError SubmitOutcome * Bits :=
  match assign_id cfg rnd utc j with
  | Err e => (Err e, b)
  | Ok j =>
      match reserve cfg admission b with
      | None => (Ok SubmitOverloaded, b)
      | Some b =>
          match b.(jobs) !! j.(id) with
          | Some _ => (Ok SubmitOverloaded, upd_count (b.(job_count) - 1) b)
          | None => (Ok (Accepted j.(id)), insert_job cfg now l c j b)
          end
      end
  end.

(** *** Polls

    [wait] is what the rest of the broker does while the poll sleeps; its
    boolean says whether a notification ended the sleep. *)
Definition take_and_remove (cfg : BrokerConfig) (l : nat) (i : string) (b : Bits)
    : option JobResult * Bits :=
  match take_result l b with
  | (Some r, b) => (Some r, schedule_durable_cleanup cfg l i (remove_job i b))
  | (None, b) => (None, b)
  end.

Definition status_of (l : nat) (b : Bits) : PendingStatus :=
  match b.(objs) !! l with Some j => pending_status b.(cells) j | None => Queued end.

Definition connect (j : Job V) (b : Bits) : Bits :=
  upd_cells (alter guard_new j.(cell) b.(cells)) b.
Definition disconnect (cfg : BrokerConfig) (now : Z) (j : Job V) (b : Bits) : Bits :=
  upd_cells (alter (guard_drop now cfg.(reconnect_buffer)) j.(cell) b.(cells)) b.

Definition poll_local_from (cfg : BrokerConfig) (l : nat) (i : string) (wait : Bits -> bool * Bits) (b : Bits)
    : PollOutcome * Bits :=
  match take_and_remove cfg l i b with
  | (Some r, b) => (Ready r, b)
  | (None, b) =>
      match wait b with
      | (true, b) => match take_and_remove cfg l i b with
                     | (Some r, b) => (Ready r, b)
                     | (None, b) => (Pending i (status_of l b), b)
                     end
      | (false, b) => (Pending i (status_of l b), b)
      end
  end.

Definition poll_local (cfg : BrokerConfig) (i : string) (wait : Bits -> bool * Bits) (now : Z) (b : Bits)
    : option PollOutcome * Bits :=
  match lookup_job i b with
  | None => (None, b)
  | Some (l, j) =>
      let '(out, b) := poll_local_from cfg l i wait (connect j b) in
      (Some out, disconnect cfg now j b)
  end.

(** One turn of the submit poll's loop: [None] is a turn that goes to sleep. *)
Definition submit_turn (cfg : BrokerConfig) (l : nat) (i : string) (b : Bits) : option PollOutcome * Bits :=
  match b.(objs) !! l ≫= job_result with
  | Some r =>
      if JobResult.is_deliverable r then (Some (Pending i (status_of l b)), b)
      else match take_and_remove cfg l i b with
           | (Some r, b) => (Some (Ready r), b)
           | (None, b) => (None, b)
           end
  | None =>
      if decide (status_of l b = Processing) then (Some (Pending i (status_of l b)), b) else (None, b)
  end.

(** [waits] are the sleeps ended by a notification; the sleep after them ends
    at the deadline. *)
Fixpoint submit_loop (cfg : BrokerConfig) (l : nat) (i : string) (waits : list (Bits -> Bits)) (b : Bits)
    : PollOutcome * Bits :=
  match submit_turn cfg l i b with
  | (Some out, b) => (out, b)
  | (None, b) =>
      match waits with
      | [] => (Pending i (status_of l b), b)
      | wait :: waits => submit_loop cfg l i waits (wait b)
      end
  end.

Definition poll_submit_run (cfg : BrokerConfig) (i : string) (waits : list (Bits -> Bits)) (now : Z) (b : Bits)
    : PollOutcome * Bits :=
  match lookup_job i b with
  | None => (PollNotFound, b)
  | Some (l, j) =>
      let '(out, b) := submit_loop cfg l i waits (connect j b) in (out, disconnect cfg now j b)
  end.
End broker.
Arguments mkBits {V}. Arguments Bits : clear implicits.

(** ** The system *)

(** A runner: its task has not run yet; it dispatches and may still write the
    durable record when its delay expires; it is writing it; it is done. *)
Inductive runner : Type :=
| RunnerNew (already_persisted : bool)
| RunnerDispatching (may_persist : bool)
| RunnerPersisting
| RunnerDone.

(** A poll: it holds the object; it counts as present; it took a result and
    still has to remove the entry, then to schedule the cleanup, then to leave. *)
Inductive poll_phase : Type :=
| PollHolds
| PollWaits
| PollTook (r : JobResult)
| PollRemoved (r : JobResult)
| PollDone (r : JobResult).

Record poller : Type := mkPoller {
  poll_submit : bool;
  poll_handle : nat;
  poll_id : string;
  poll_phase_of : poll_phase
}.

Definition poll_to (ph : poll_phase) (p : poller) : poller :=
  mkPoller p.(poll_submit) p.(poll_handle) p.(poll_id) ph.

Section system.
Context {V : Type} `{JsonValue V} (cfg : BrokerConfig).

(** [reserving] counts the submits between the counter and the table,
    [undecremented] the removals between the table and the counter; [written]
    are the objects whose record this broker wrote, [delivered] the results
    handed to clients in order, [expired] the objects the sweeper dropped. *)
Record sys : Type := mkSys {
  bits : Bits V;
  reserving : Z;
  undecremented : Z;
  runners : gmap nat runner;
  pollers : gmap nat poller;
  written : gset nat;
  delivered : list nat;
  expired : gset nat
}.

Definition sys_new : sys := mkSys bits_new 0 0 ∅ ∅ ∅ [] ∅.

Definition set_bits (b : Bits V) (s : sys) : sys :=
  mkSys b s.(reserving) s.(undecremented) s.(runners) s.(pollers) s.(written) s.(delivered) s.(expired).
Definition set_reserving (n : Z) (s : sys) : sys :=
  mkSys s.(bits) n s.(undecremented) s.(runners) s.(pollers) s.(written) s.(delivered) s.(expired).
Definition set_undecremented (n : Z) (s : sys) : sys :=
  mkSys s.(bits) s.(reserving) n s.(runners) s.(pollers) s.(written) s.(delivered) s.(expired).
Definition set_runner (l : nat) (r : runner) (s : sys) : sys :=
  mkSys s.(bits) s.(reserving) s.(undecremented) (<[l := r]> s.(runners)) s.(pollers) s.(written)
    s.(delivered) s.(expired).
Definition set_poller (p : nat) (x : poller) (s : sys) : sys :=
  mkSys s.(bits) s.(reserving) s.(undecremented) s.(runners) (<[p := x]> s.(pollers)) s.(written)
    s.(delivered) s.(expired).
Definition drop_poller (p : nat) (s : sys) : sys :=
  mkSys s.(bits) s.(reserving) s.(undecremented) s.(runners) (delete p s.(pollers)) s.(written)
    s.(delivered) s.(expired).
Definition set_written (w : gset nat) (s : sys) : sys :=
  mkSys s.(bits) s.(reserving) s.(undecremented) s.(runners) s.(pollers) w s.(delivered) s.(expired).
Definition deliver (l : nat) (s : sys) : sys :=
  mkSys s.(bits) s.(reserving) s.(undecremented) s.(runners) s.(pollers) s.(written)
    (l :: s.(delivered)) s.(expired).
Definition expire (l : nat) (s : sys) : sys :=
  mkSys s.(bits) s.(reserving) s.(undecremented) s.(runners) s.(pollers) s.(written)
    s.(delivered) ({[l]} ∪ s.(expired)).

(** Changing one object in place. *)
Definition upd_obj (l : nat) (f : Job V -> Job V) (s : sys) : sys :=
  set_bits (upd_objs (alter f l s.(bits).(objs)) s.(bits)) s.
Definition upd_cell (l : nat) (f : Lifecycle -> Lifecycle) (s : sys) : sys :=
  set_bits (upd_cells (alter f l s.(bits).(cells)) s.(bits)) s.

Inductive step : sys -> sys -> Prop :=
(* submission *)
| step_reserve s admission b :
    (admission = BypassLimitAlreadyPersisted -> cfg.(has_store) = true) ->
    reserve cfg admission s.(bits) = Some b ->
    step s (set_reserving (s.(reserving) + 1) (set_bits b s))
| step_insert s now l c j already :
    1 <= s.(reserving) -> s.(bits).(objs) !! l = None -> s.(runners) !! l = None ->
    j.(job_result) = None ->
    s.(bits).(jobs) !! j.(id) = None ->
    step s (set_runner l (RunnerNew already)
              (set_reserving (s.(reserving) - 1) (set_bits (insert_job cfg now l c j s.(bits)) s)))
| step_duplicate s i l :
    1 <= s.(reserving) -> s.(bits).(jobs) !! i = Some l ->
    step s (set_reserving (s.(reserving) - 1) (set_bits (upd_count (s.(bits).(job_count) - 1) s.(bits)) s))
(* the runner of an object *)
| step_start s l already :
    s.(runners) !! l = Some (RunnerNew already) ->
    step s (upd_obj l (fun j => with_persisted (already || j.(persisted)) j)
              (set_runner l (RunnerDispatching cfg.(persist_after)) s))
| step_persist_begin s l j :
    s.(runners) !! l = Some (RunnerDispatching true) -> s.(bits).(objs) !! l = Some j ->
    step s (set_runner l (if cfg.(has_store) && negb j.(persisted) && bool_decide (j.(job_result) = None)
                          then RunnerPersisting else RunnerDispatching false) s)
| step_persist_end s l (ok : bool) :
    s.(runners) !! l = Some RunnerPersisting ->
    step s (set_runner l (RunnerDispatching false)
              (if ok then set_written ({[l]} ∪ s.(written)) (upd_obj l (with_persisted true) s) else s))
| step_finish s l may r :
    s.(runners) !! l = Some (RunnerDispatching may) ->
    step s (set_runner l RunnerDone (upd_obj l (with_result (Some r))
              (set_bits (upd_in_flight (s.(bits).(in_flight) - 1) s.(bits)) s)))
| step_cells s l f : step s (upd_cell l f s)
(* polls *)
| step_poll s p submit i l :
    s.(pollers) !! p = None -> s.(bits).(jobs) !! i = Some l ->
    step s (set_poller p (mkPoller submit l i PollHolds) s)
| step_connect s p x :
    s.(pollers) !! p = Some x -> x.(poll_phase_of) = PollHolds ->
    step s (set_poller p (poll_to PollWaits x) (upd_cell x.(poll_handle) guard_new s))
| step_take s p x r b :
    s.(pollers) !! p = Some x -> x.(poll_phase_of) = PollWaits ->
    take_result x.(poll_handle) s.(bits) = (Some r, b) -> takes x.(poll_submit) r = true ->
    step s (deliver x.(poll_handle) (set_poller p (poll_to (PollTook r) x) (set_bits b s)))
| step_remove s p x r :
    s.(pollers) !! p = Some x -> x.(poll_phase_of) = PollTook r ->
    step s (set_undecremented (s.(undecremented) + Z.b2z (remove_entry x.(poll_id) s.(bits)).1)
              (set_poller p (poll_to (PollRemoved r) x) (set_bits (remove_entry x.(poll_id) s.(bits)).2 s)))
| step_decrement s :
    1 <= s.(undecremented) ->
    step s (set_undecremented (s.(undecremented) - 1) (set_bits (decrement s.(bits)) s))
| step_cleanup s p x r :
    s.(pollers) !! p = Some x -> x.(poll_phase_of) = PollRemoved r ->
    step s (set_poller p (poll_to (PollDone r) x)
              (set_bits (schedule_durable_cleanup cfg x.(poll_handle) x.(poll_id) s.(bits)) s))
| step_leave s p x now :
    s.(pollers) !! p = Some x ->
    match x.(poll_phase_of) with PollWaits | PollDone _ => True | _ => False end ->
    step s (drop_poller p (upd_cell x.(poll_handle) (guard_drop now cfg.(reconnect_buffer)) s))
(* the sweeper: it removes the entry and deletes the durable record itself *)
| step_sweep s i l j now :
    s.(bits).(jobs) !! i = Some l -> s.(bits).(objs) !! l = Some j -> sweepable now s.(bits) j = true ->
    step s (set_undecremented (s.(undecremented) + 1)
              (expire l (set_bits (schedule_durable_cleanup cfg l i (remove_entry i s.(bits)).2) s))).

(** ** Invariants *)

Definition active (r : runner) : bool := match r with RunnerDone => false | _ => true end.

Definition has_taken (ph : poll_phase) : bool :=
  match ph with PollHolds | PollWaits => false | _ => true end.

(** The objects: each has one runner, which writes its result once, at the
    end; a result is taken once; table and pollers name objects by their id. *)
Record objects (o : gmap nat (Job V)) (t : gmap string nat) (rs : gmap nat runner)
    (ps : gmap nat poller) (w : gset nat) (dl : list nat) : Prop := mkObjects {
  ob_table i l : t !! i = Some l -> exists j, o !! l = Some j /\ j.(id) = i;
  ob_runner l j : o !! l = Some j -> is_Some (rs !! l);
  ob_object l r : rs !! l = Some r -> is_Some (o !! l);
  ob_active l r j : rs !! l = Some r -> active r = true -> o !! l = Some j ->
    j.(job_result) = None /\ l ∉ dl;
  ob_done l j : rs !! l = Some RunnerDone -> o !! l = Some j ->
    (l ∈ dl <-> j.(job_result) = None);
  ob_delivered l : l ∈ dl -> rs !! l = Some RunnerDone;
  ob_once : NoDup dl;
  ob_poller p x : ps !! p = Some x ->
    (exists j, o !! x.(poll_handle) = Some j /\ j.(id) = x.(poll_id)) /\
    (has_taken x.(poll_phase_of) = true -> x.(poll_handle) ∈ dl);
  ob_written l : l ∈ w -> exists j, o !! l = Some j /\ j.(persisted) = true
}.

(** The counters: what the table holds, what is on its way in and what is on
    its way out. *)
Record accounts (s : sys) : Prop := mkAccounts {
  ac_count : s.(bits).(job_count) = Z.of_nat (size s.(bits).(jobs)) + s.(reserving) + s.(undecremented);
  ac_reserving : 0 <= s.(reserving);
  ac_undecremented : 0 <= s.(undecremented);
  ac_in_flight : s.(bits).(in_flight) = map_count active s.(runners);
  ac_limit : cfg.(has_store) = false -> 0 <= cfg.(max_jobs) -> s.(bits).(job_count) <= cfg.(max_jobs)
}.

(** What becomes of an object: delivered, expired, or in the table under its
    id unless another object has the same id. *)
Definition shares_id (o : gmap nat (Job V)) (l : nat) (j : Job V) : Prop :=
  exists l' j', l' <> l /\ o !! l' = Some j' /\ j'.(id) = j.(id).

Definition keep (o : gmap nat (Job V)) (t : gmap string nat) (dl : list nat) (ex : gset nat) : Prop :=
  forall l j, o !! l = Some j ->
    l ∈ dl \/ l ∈ ex \/ t !! j.(id) = Some l \/ shares_id o l j.

Definition retained (s : sys) : Prop := keep s.(bits).(objs) s.(bits).(jobs) s.(delivered) s.(expired).

(** A poll that still has to schedule the cleanup of the object it took. *)
Definition cleaning (ps : gmap nat poller) (l : nat) : Prop :=
  exists p x, ps !! p = Some x /\ x.(poll_handle) = l /\
    match x.(poll_phase_of) with PollTook _ | PollRemoved _ => True | _ => False end.

Definition gone_cleaned (o : gmap nat (Job V)) (ps : gmap nat poller) (dl : list nat) (ex : gset nat)
    (cl : list string) : Prop :=
  forall l j, o !! l = Some j -> j.(persisted) = true ->
    (l ∈ dl -> j.(id) ∈ cl \/ cleaning ps l) /\ (l ∈ ex -> j.(id) ∈ cl).

Record cleaned (s : sys) : Prop := mkCleaned {
  cl_expired l : l ∈ s.(expired) -> s.(runners) !! l = Some RunnerDone;
  cl_gone : cfg.(has_store) = true ->
    gone_cleaned s.(bits).(objs) s.(pollers) s.(delivered) s.(expired) s.(bits).(cleanup)
}.

Lemma lookup_alter_some {K A} `{Countable K} (f : A -> A) (m : gmap K A) k i a :
  alter f k m !! i = Some a -> exists b, m !! i = Some b /\ a = if decide (k = i) then f b else b.
Proof.
  case_decide as Hk.
  - subst. rewrite lookup_alter_eq. destruct (m !! i); simpl; [|done]. intros [= <-]. eauto.
  - rewrite lookup_alter_ne by done. eauto.
Qed.

Lemma lookup_alter_of {K A} `{Countable K} (f : A -> A) (m : gmap K A) k i b :
  m !! i = Some b -> alter f k m !! i = Some (if decide (k = i) then f b else b).
Proof.
  intros Hi. case_decide as Hk; [subst; by rewrite lookup_alter_eq, Hi | by rewrite lookup_alter_ne].
Qed.

Lemma insert_alter_eq {K A} `{Countable K} (f : A -> A) (m : gmap K A) k a :
  m !! k = Some a -> <[k := f a]> m = alter f k m.
Proof.
  intros Hk. apply map_eq. intros i. destruct (decide (k = i)) as [->|].
  - by rewrite lookup_insert_eq, lookup_alter_eq, Hk.
  - by rewrite lookup_insert_ne, lookup_alter_ne.
Qed.

(** A new object. *)
Lemma objects_insert o t rs ps w dl l j already :
  objects o t rs ps w dl -> o !! l = None -> rs !! l = None -> j.(job_result) = None ->
  objects (<[l := j]> o) (<[j.(id) := l]> t) (<[l := RunnerNew already]> rs) ps w dl.
Proof.
  intros [Ht Hr Ho Ha Hd Hdl Hn Hp Hw] Hl Hrl Hj. split.
  - intros i l'. rewrite lookup_insert_Some. intros [[<- <-]|[? Hi]].
    + exists j. by rewrite lookup_insert_eq.
    + destruct (Ht _ _ Hi) as (j' & ? & ?). exists j'. rewrite lookup_insert_ne; [done|congruence].
  - intros l' j'. rewrite !lookup_insert_Some. intros [[<- <-]|[? Hl']].
    + by rewrite lookup_insert_eq.
    + rewrite lookup_insert_ne by done. eauto.
  - intros l' r. rewrite lookup_insert_Some. intros [[<- <-]|[? Hl']].
    + by rewrite lookup_insert_eq.
    + rewrite lookup_insert_ne by done. eauto.
  - intros l' r j'. rewrite !lookup_insert_Some. intros [[<- <-]|[? Hl']] Hac [[? <-]|[? Hj']]; try done.
    + split; [done|]. intros Hin. apply Hdl in Hin. congruence.
    + eauto.
  - intros l' j'. rewrite !lookup_insert_Some. intros [[? ?]|[? Hl']] [[? ?]|[? Hj']]; try done. eauto.
  - intros l' Hin. rewrite lookup_insert_ne; [auto|]. intros <-. apply Hdl in Hin. congruence.
  - done.
  - intros p x Hx. destruct (Hp _ _ Hx) as [(j' & ? & ?) ?]. split; [|done]. exists j'.
    rewrite lookup_insert_ne; [done|congruence].
  - intros l' Hin. destruct (Hw _ Hin) as (j' & ? & ?). exists j'. rewrite lookup_insert_ne; [done|congruence].
Qed.

(** The runner moves on and may set the persisted flag. *)
Lemma objects_runner o t rs ps w dl l f r r' :
  objects o t rs ps w dl -> rs !! l = Some r -> active r = true -> active r' = true ->
  (forall j, (f j).(id) = j.(id) /\ (f j).(job_result) = j.(job_result) /\
             (j.(persisted) = true -> (f j).(persisted) = true)) ->
  objects (alter f l o) t (<[l := r']> rs) ps w dl.
Proof.
  intros [Ht Hr Ho Ha Hd Hdl Hn Hp Hw] Hl Hac Hac' Hf. split.
  - intros i l' Hi. destruct (Ht _ _ Hi) as (j & Hj & <-). eexists.
    split; [by apply lookup_alter_of|]. case_decide; [apply Hf|done].
  - intros l' j' (j & Hj & _)%lookup_alter_some. rewrite lookup_insert_is_Some'. right. eauto.
  - intros l' r1. rewrite lookup_insert_Some. intros [[<- <-]|[? Hl']].
    + destruct (Ho _ _ Hl) as [j Hj]. eexists. by apply lookup_alter_of.
    + destruct (Ho _ _ Hl') as [j Hj]. eexists. by apply lookup_alter_of.
  - intros l' r1 j'. rewrite lookup_insert_Some. intros [[<- <-]|[? Hl']] Hr1 (j & Hj & ->)%lookup_alter_some.
    + rewrite decide_True by done. rewrite (proj1 (proj2 (Hf j))). eauto.
    + rewrite decide_False by done. eauto.
  - intros l' j'. rewrite lookup_insert_Some. intros [[<- ->]|[? Hl']] (j & Hj & ->)%lookup_alter_some; [done|].
    rewrite decide_False by done. eauto.
  - intros l' Hin. rewrite lookup_insert_ne; [auto|]. intros <-. apply Hdl in Hin. simplify_eq.
  - done.
  - intros p x Hx. destruct (Hp _ _ Hx) as [(j & Hj & Hid) ?]. split; [|done]. eexists.
    split; [by apply lookup_alter_of|]. case_decide; [|done]. by rewrite (proj1 (Hf j)).
  - intros l' Hin. destruct (Hw _ Hin) as (j & Hj & ?). eexists. split; [by apply lookup_alter_of|].
    case_decide; [|done]. by apply Hf.
Qed.

(** The runner stores the result. *)
Lemma objects_finish o t rs ps w dl l res r :
  objects o t rs ps w dl -> rs !! l = Some r -> active r = true ->
  objects (alter (with_result (Some res)) l o) t (<[l := RunnerDone]> rs) ps w dl.
Proof.
  intros [Ht Hr Ho Ha Hd Hdl Hn Hp Hw] Hl Hac. split.
  - intros i l' Hi. destruct (Ht _ _ Hi) as (j & Hj & <-). eexists.
    split; [by apply lookup_alter_of|]. by case_decide.
  - intros l' j' (j & Hj & _)%lookup_alter_some. rewrite lookup_insert_is_Some'. right. eauto.
  - intros l' r1. rewrite lookup_insert_Some. intros [[<- <-]|[? Hl']].
    + destruct (Ho _ _ Hl) as [j Hj]. eexists. by apply lookup_alter_of.
    + destruct (Ho _ _ Hl') as [j Hj]. eexists. by apply lookup_alter_of.
  - intros l' r1 j'. rewrite lookup_insert_Some. intros [[<- <-]|[? Hl']] Hr1 (j & Hj & ->)%lookup_alter_some; [done|].
    rewrite decide_False by done. eauto.
  - intros l' j'. rewrite lookup_insert_Some. intros [[<- _]|[? Hl']] (j & Hj & ->)%lookup_alter_some.
    + rewrite decide_True by done. simpl. split; [|done]. intros Hin. by destruct (Ha _ _ _ Hl Hac Hj) as [_ []].
    + rewrite decide_False by done. eauto.
  - intros l' Hin. destruct (decide (l = l')) as [->|]; [by rewrite lookup_insert_eq|].
    rewrite lookup_insert_ne by done. auto.
  - done.
  - intros p x Hx. destruct (Hp _ _ Hx) as [(j & Hj & Hid) ?]. split; [|done]. eexists.
    split; [by apply lookup_alter_of|]. by case_decide.
  - intros l' Hin. destruct (Hw _ Hin) as (j & Hj & ?). eexists. split; [by apply lookup_alter_of|]. by case_decide.
Qed.

(** A poll takes the result. *)
Lemma objects_take o t rs ps w dl l j res :
  objects o t rs ps w dl -> o !! l = Some j -> j.(job_result) = Some res ->
  objects (<[l := with_result None j]> o) t rs ps w (l :: dl).
Proof.
  intros [Ht Hr Ho Ha Hd Hdl Hn Hp Hw] Hj Hres.
  destruct (Hr _ _ Hj) as [r Hl].
  assert (r = RunnerDone) as ->.
  { destruct r; try done; exfalso; destruct (Ha _ _ _ Hl eq_refl Hj); congruence. }
  assert (l ∉ dl) as Hnin by (intros Hin; apply (Hd _ _ Hl Hj) in Hin; congruence).
  rewrite (insert_alter_eq _ _ _ _ Hj).
  split.
  - intros i l' Hi. destruct (Ht _ _ Hi) as (j' & Hj' & <-). eexists.
    split; [by apply lookup_alter_of|]. by case_decide.
  - intros l' j' (j1 & Hj1 & _)%lookup_alter_some. eauto.
  - intros l' r1 Hl'. destruct (Ho _ _ Hl') as [j' Hj']. eexists. by apply lookup_alter_of.
  - intros l' r1 j' Hl' Hr1 (j1 & Hj1 & ->)%lookup_alter_some. destruct (Ha _ _ _ Hl' Hr1 Hj1) as [? ?].
    split; [by case_decide|]. apply not_elem_of_cons. split; [|done]. intros ->. by simplify_eq.
  - intros l' j' Hl' (j1 & Hj1 & ->)%lookup_alter_some. case_decide as Heq.
    + subst. simpl. split; [done|]. intros _. left.
    + rewrite elem_of_cons. rewrite <- (Hd _ _ Hl' Hj1). naive_solver.
  - intros l' [->|Hin]%elem_of_cons; auto.
  - by constructor.
  - intros p x Hx. destruct (Hp _ _ Hx) as [(j' & Hj' & Hid) Htk]. split.
    + eexists. split; [by apply lookup_alter_of|]. by case_decide.
    + intros Hh. right. auto.
  - intros l' Hin. destruct (Hw _ Hin) as (j' & Hj' & ?). eexists. split; [by apply lookup_alter_of|]. by case_decide.
Qed.

Lemma objects_table o t rs ps w dl i :
  objects o t rs ps w dl -> objects o (delete i t) rs ps w dl.
Proof. intros [Ht Hr Ho Ha Hd Hdl Hn Hp Hw]. split; try done. intros i' l [_ Hi]%lookup_delete_Some. eauto. Qed.

Lemma objects_poller o t rs ps w dl p x :
  objects o t rs ps w dl ->
  (exists j, o !! x.(poll_handle) = Some j /\ j.(id) = x.(poll_id)) ->
  (has_taken x.(poll_phase_of) = true -> x.(poll_handle) ∈ dl) ->
  objects o t rs (<[p := x]> ps) w dl.
Proof.
  intros [Ht Hr Ho Ha Hd Hdl Hn Hp Hw] Hx Htk. split; try done.
  intros p' x'. rewrite lookup_insert_Some. intros [[<- <-]|[? ?]]; eauto.
Qed.

Lemma objects_written o t rs ps w dl l j :
  objects o t rs ps w dl -> o !! l = Some j -> j.(persisted) = true -> objects o t rs ps ({[l]} ∪ w) dl.
Proof.
  intros [Ht Hr Ho Ha Hd Hdl Hn Hp Hw] Hj Hpe. split; try done.
  intros l' [->%elem_of_singleton|?]%elem_of_union; eauto.
Qed.

Definition objects_of (s : sys) : Prop :=
  objects s.(bits).(objs) s.(bits).(jobs) s.(runners) s.(pollers) s.(written) s.(delivered).

Definition inv (s : sys) : Prop := objects_of s /\ accounts s /\ retained s /\ cleaned s.

(** *** How the operations act on the fields *)

Lemma take_result_Some l (b : Bits V) r b' :
  take_result l b = (Some r, b') ->
  exists j, b.(objs) !! l = Some j /\ j.(job_result) = Some r /\
            b' = upd_objs (<[l := with_result None j]> b.(objs)) b.
Proof.
  unfold take_result. intros Ht. destruct (b.(objs) !! l) as [j|]; [|done].
  destruct (j.(job_result)) as [r'|] eqn:Hr; [|done]. simplify_eq. eauto.
Qed.

Lemma schedule_fields l i (b : Bits V) :
  let b' := schedule_durable_cleanup cfg l i b in
  b'.(objs) = b.(objs) /\ b'.(cells) = b.(cells) /\ b'.(jobs) = b.(jobs) /\
  b'.(job_count) = b.(job_count) /\ b'.(in_flight) = b.(in_flight) /\
  (forall k, k ∈ b.(cleanup) -> k ∈ b'.(cleanup)) /\
  (forall j, b.(objs) !! l = Some j -> j.(persisted) = true -> cfg.(has_store) = true ->
     i ∈ b'.(cleanup)).
Proof.
  unfold schedule_durable_cleanup. simpl. case_all; split_and!; try done; intros; simplify_eq/=.
  - set_solver.
  - set_solver.
  - rewrite H1, H2 in *. done.
Qed.

Lemma decrement_fields (b : Bits V) :
  objs (decrement b) = b.(objs) /\ jobs (decrement b) = b.(jobs) /\
  in_flight (decrement b) = b.(in_flight) /\ cleanup (decrement b) = b.(cleanup).
Proof. unfold decrement. by case_match. Qed.

Lemma reserve_fields adm (b b' : Bits V) :
  reserve cfg adm b = Some b' ->
  b' = upd_count (b.(job_count) + 1) b /\ (adm = EnforceLimit -> b.(job_count) < cfg.(max_jobs)).
Proof. unfold reserve. intros. case_all; split; (done || lia). Qed.

(** *** The objects *)

Lemma objects_step s s' : objects_of s -> step s s' -> objects_of s'.
Proof.
  intros HI Hs. unfold objects_of in *. destruct Hs; simpl.
  - apply reserve_fields in H1 as [-> _]. done.
  - apply (objects_insert _ _ _ _ _ _ l (with_cell l j)); done.
  - done.
  - eapply objects_runner; [done..|]. intros j. simpl. split_and!; [done..|]. intros ->. by rewrite orb_true_r.
  - replace (s.(bits).(objs)) with (alter (fun j => j) l s.(bits).(objs)).
    + eapply objects_runner; [done..| |done]. by case_match.
    + by apply alter_id.
  - destruct ok; simpl.
    + destruct (ob_object _ _ _ _ _ _ HI _ _ H0) as [j Hj].
      eapply objects_written; [eapply objects_runner; [done..|]; by intros|by apply lookup_alter_of|].
      by rewrite decide_True.
    + replace (s.(bits).(objs)) with (alter (fun j => j) l s.(bits).(objs)).
      * eapply objects_runner; [done..|]. by intros.
      * by apply alter_id.
  - by eapply objects_finish.
  - done.
  - apply objects_poller; [done| |done]. simpl. by apply (ob_table _ _ _ _ _ _ HI).
  - apply objects_poller; [done| |done]. by apply (ob_poller _ _ _ _ _ _ HI _ _ H0).
  - apply take_result_Some in H2 as (j & Hj & Hr & ->). simpl.
    apply objects_poller; simpl; [by eapply objects_take| |by left].
    destruct (ob_poller _ _ _ _ _ _ HI _ _ H0) as [(j' & Hj' & ?) _]. simplify_eq.
    exists (with_result None j). by rewrite lookup_insert_eq.
  - destruct (ob_poller _ _ _ _ _ _ HI _ _ H0) as [Hobj Htk].
    apply objects_poller; [by apply objects_table|done|].
    intros _. apply Htk. by rewrite H1.
  - destruct (decrement_fields s.(bits)) as (-> & -> & _). done.
  - destruct (schedule_fields x.(poll_handle) x.(poll_id) s.(bits)) as (-> & _ & -> & _).
    destruct (ob_poller _ _ _ _ _ _ HI _ _ H0) as [Hobj Htk].
    apply objects_poller; [done..|]. intros _. apply Htk. by rewrite H1.
  - destruct HI. split; try done. intros p' x' [_ ?]%lookup_delete_Some. eauto.
  - destruct (schedule_fields l i (upd_jobs (delete i s.(bits).(jobs)) s.(bits))) as (-> & _ & -> & _).
    by apply objects_table.
Qed.

(** *** The counters *)

Lemma size_remove {A} (m : gmap string A) k :
  Z.of_nat (size (delete k m)) = Z.of_nat (size m) - Z.b2z (bool_decide (is_Some (m !! k))).
Proof.
  destruct (m !! k) as [a|] eqn:Hk.
  - rewrite bool_decide_eq_true_2 by eauto. rewrite <- (insert_delete_id m k a) at 2 by done.
    rewrite map_size_insert_None by apply lookup_delete_eq. simpl. lia.
  - rewrite delete_id, bool_decide_eq_false_2 by (done || apply eq_None_not_Some, Hk). simpl. lia.
Qed.

Lemma map_count_in_flight (rs : gmap nat runner) l r r' :
  rs !! l = Some r -> active r = true ->
  map_count active (<[l := r']> rs) = map_count active rs - 1 + Z.b2z (active r').
Proof. intros Hl Hr. rewrite (map_count_update _ _ _ _ _ Hl), Hr. simpl. lia. Qed.

Lemma accounts_step s s' : accounts s -> step s s' -> accounts s'.
Proof.
  intros [Hc Hr Hu Hf Hl] Hs. destruct Hs.
  - apply reserve_fields in H1 as [-> Hadm]. split; simpl; try lia.
    intros Hst Hm. destruct admission; [specialize (Hadm eq_refl); lia|]. by rewrite H0 in Hst.
  - split; simpl; try lia.
    + rewrite map_size_insert_None by done. lia.
    + rewrite map_count_fresh by done. simpl. lia.
    + done.
  - split; simpl; try done; try lia. intros Hst Hm. specialize (Hl Hst Hm). lia.
  - split; simpl; try done. rewrite (map_count_in_flight _ _ _ _ H0 eq_refl). simpl. lia.
  - split; simpl; try done. rewrite (map_count_in_flight _ _ _ _ H0 eq_refl). case_match; simpl; lia.
  - split; destruct ok; simpl; try done; rewrite (map_count_in_flight _ _ _ _ H0 eq_refl); simpl; lia.
  - split; simpl; try done. rewrite (map_count_in_flight _ _ _ _ H0 eq_refl). simpl. lia.
  - split; done.
  - split; done.
  - split; done.
  - apply take_result_Some in H2 as (j & Hj & Hres & ->). split; done.
  - split; simpl; try done; [rewrite size_remove; lia|].
    destruct (bool_decide _); simpl; lia.
  - assert (1 <= s.(bits).(job_count)) as Hpos by lia.
    unfold decrement. rewrite (proj2 (Z.leb_le _ _) Hpos). split; simpl; try done; try lia.
    intros Hst Hm. specialize (Hl Hst Hm). lia.
  - destruct (schedule_fields x.(poll_handle) x.(poll_id) s.(bits)) as (_ & _ & Hj & Hn & Hi & _).
    split; simpl; rewrite ?Hj, ?Hn, ?Hi; done.
  - split; done.
  - destruct (schedule_fields l i (upd_jobs (delete i s.(bits).(jobs)) s.(bits))) as (_ & _ & Hj & Hn & Hi & _).
    split; simpl; rewrite ?Hj, ?Hn, ?Hi; simpl; try done; [|lia].
    rewrite size_remove, bool_decide_eq_true_2 by eauto. simpl. lia.
Qed.

(** *** Nothing is lost *)

Lemma keep_alter o t dl ex l f :
  (forall j, (f j).(id) = j.(id)) -> keep o t dl ex -> keep (alter f l o) t dl ex.
Proof.
  intros Hf Hk l1 j1 (j & Hj & ->)%lookup_alter_some.
  assert (forall j0, id (if decide (l = l1) then f j0 else j0) = j0.(id)) as -> by (intros; case_decide; auto).
  destruct (Hk _ _ Hj) as [?|[?|[?|(l2 & j2 & Hne & Hj2 & Hid)]]]; auto.
  do 3 right. exists l2. eexists. split; [done|]. split; [by apply lookup_alter_of|].
  by repeat case_decide; rewrite ?Hf.
Qed.

Lemma keep_gone o t dl ex i l :
  keep o t dl ex -> t !! i = Some l -> l ∈ dl \/ l ∈ ex -> keep o (delete i t) dl ex.
Proof.
  intros Hk Hi Hgone l1 j1 Hj1. destruct (Hk _ _ Hj1) as [?|[?|[Ht|?]]]; auto.
  destruct (decide (i = j1.(id))) as [->|Hne].
  - simplify_eq. tauto.
  - rewrite lookup_delete_ne by done. auto.
Qed.

(** A poll removes the entry of its object, or that of another object with
    the same id. *)
Lemma keep_remove o t dl ex l j :
  (forall i l', t !! i = Some l' -> exists j', o !! l' = Some j' /\ j'.(id) = i) ->
  keep o t dl ex -> o !! l = Some j -> l ∈ dl -> keep o (delete j.(id) t) dl ex.
Proof.
  intros Ht Hk Hj Hdl l1 j1 Hj1. destruct (Hk _ _ Hj1) as [?|[?|[Hl|?]]]; auto.
  destruct (decide (j.(id) = j1.(id))) as [Heq|Hne].
  - destruct (decide (l = l1)) as [->|Hll]; [auto|]. do 3 right. exists l, j. auto.
  - rewrite lookup_delete_ne by done. auto.
Qed.

Lemma keep_insert o t dl ex l j :
  (forall i l', t !! i = Some l' -> exists j', o !! l' = Some j' /\ j'.(id) = i) ->
  keep o t dl ex -> o !! l = None -> t !! j.(id) = None -> keep (<[l := j]> o) (<[j.(id) := l]> t) dl ex.
Proof.
  intros Ht Hk Hl Hj l1 j1. rewrite lookup_insert_Some. intros [[<- <-]|[Hne Hj1]].
  { right; right; left. by rewrite lookup_insert_eq. }
  destruct (Hk _ _ Hj1) as [?|[?|[?|(l2 & j2 & ? & Hj2 & ?)]]]; auto.
  - do 2 right. left. rewrite lookup_insert_ne; [done|congruence].
  - do 3 right. exists l2, j2. rewrite lookup_insert_ne; [done|congruence].
Qed.

Lemma keep_more o t dl dl' ex ex' :
  dl ⊆ dl' -> ex ⊆ ex' -> keep o t dl ex -> keep o t dl' ex'.
Proof. intros ? ? Hk l j Hj. destruct (Hk _ _ Hj) as [?|[?|?]]; set_solver. Qed.

Lemma retained_step s s' : objects_of s -> retained s -> step s s' -> retained s'.
Proof.
  intros HO Hk Hs. unfold retained in *. destruct Hs; simpl.
  - apply reserve_fields in H1 as [-> _]. done.
  - apply (keep_insert _ _ _ _ l (with_cell l j)); try done. apply HO.
  - done.
  - by apply keep_alter.
  - done.
  - destruct ok; [by apply keep_alter|done].
  - by apply keep_alter.
  - done.
  - done.
  - done.
  - apply take_result_Some in H2 as (j & Hj & Hres & ->). simpl.
    eapply keep_more; [by apply list_subseteq_cons|done|]. rewrite (insert_alter_eq (with_result None) _ _ _ Hj).
    by apply keep_alter.
  - destruct (ob_poller _ _ _ _ _ _ HO _ _ H0) as [(j & Hj & <-) Htk].
    eapply keep_remove; [apply HO|done..|]. apply Htk. by rewrite H1.
  - destruct (decrement_fields s.(bits)) as (-> & -> & _). done.
  - destruct (schedule_fields x.(poll_handle) x.(poll_id) s.(bits)) as (-> & _ & -> & _). done.
  - done.
  - destruct (schedule_fields l i (upd_jobs (delete i s.(bits).(jobs)) s.(bits))) as (-> & _ & -> & _).
    simpl. eapply keep_gone; [|done|right; set_solver].
    eapply keep_more; [done| |done]. set_solver.
Qed.

(** *** Durable records are cleaned up *)

Definition is_cleaning (ph : poll_phase) : Prop :=
  match ph with PollTook _ | PollRemoved _ => True | _ => False end.

Lemma cleaning_new ps p y l : ps !! p = None -> cleaning ps l -> cleaning (<[p := y]> ps) l.
Proof. intros Hp (p' & x & Hx & ?). exists p', x. rewrite lookup_insert_ne; [done|congruence]. Qed.

Lemma cleaning_to ps p x ph l :
  ps !! p = Some x -> (is_cleaning x.(poll_phase_of) -> is_cleaning ph) ->
  cleaning ps l -> cleaning (<[p := poll_to ph x]> ps) l.
Proof.
  intros Hp Hph (p' & x' & Hx & <- & Hc). destruct (decide (p = p')) as [->|Hne].
  - simplify_eq. exists p'. eexists. rewrite lookup_insert_eq. split_and!; [done..|]. by apply Hph.
  - exists p', x'. by rewrite lookup_insert_ne.
Qed.

Lemma cleaning_delete ps p l :
  (forall x, ps !! p = Some x -> ~ is_cleaning x.(poll_phase_of)) ->
  cleaning ps l -> cleaning (delete p ps) l.
Proof.
  intros Hph (p' & x & Hx & <- & Hc). exists p', x.
  rewrite lookup_delete_ne; [done|]. intros ->. by eapply Hph.
Qed.

Lemma gone_pollers o ps ps' dl ex cl :
  (forall l, cleaning ps l -> cleaning ps' l) ->
  gone_cleaned o ps dl ex cl -> gone_cleaned o ps' dl ex cl.
Proof. intros Hps Hg l j Hj Hp. destruct (Hg _ _ Hj Hp). naive_solver. Qed.

Lemma gone_alter o ps dl ex cl l f :
  (forall j, (f j).(id) = j.(id)) ->
  (l ∈ dl \/ l ∈ ex -> forall j, (f j).(persisted) = j.(persisted)) ->
  gone_cleaned o ps dl ex cl -> gone_cleaned (alter f l o) ps dl ex cl.
Proof.
  intros Hf Hfp Hg l1 j1 (j & Hj & ->)%lookup_alter_some Hp. specialize (Hg _ _ Hj).
  case_decide as Hl; [subst|by apply Hg]. rewrite Hf.
  split; intros Hin; apply Hg; try done; rewrite <- Hfp; auto.
Qed.

(** The poll that took the object schedules its cleanup. *)
Lemma gone_scheduled o ps dl ex cl cl' p x r j :
  ps !! p = Some x -> o !! x.(poll_handle) = Some j -> j.(id) = x.(poll_id) ->
  (forall k, k ∈ cl -> k ∈ cl') -> (j.(persisted) = true -> x.(poll_id) ∈ cl') ->
  gone_cleaned o ps dl ex cl -> gone_cleaned o (<[p := poll_to (PollDone r) x]> ps) dl ex cl'.
Proof.
  intros Hx Hj Hid Hcl Hnew Hg l1 j1 Hj1 Hp1. destruct (Hg _ _ Hj1 Hp1) as [Hd He]. split; [|auto].
  intros Hin. destruct (Hd Hin) as [|(p' & x' & Hx' & <- & Hc)]; [auto|].
  destruct (decide (p' = p)) as [->|Hne].
  - simplify_eq. left. rewrite Hid. auto.
  - right. exists p', x'. by rewrite lookup_insert_ne.
Qed.

(** The sweeper expires the object and deletes its record. *)
Lemma gone_swept o ps dl ex cl cl' l j :
  o !! l = Some j -> (forall k, k ∈ cl -> k ∈ cl') -> (j.(persisted) = true -> j.(id) ∈ cl') ->
  gone_cleaned o ps dl ex cl -> gone_cleaned o ps dl ({[l]} ∪ ex) cl'.
Proof.
  intros Hj Hcl Hnew Hg l1 j1 Hj1 Hp1. destruct (Hg _ _ Hj1 Hp1) as [Hd He]. split.
  - intros Hin. destruct (Hd Hin); auto.
  - intros [->%elem_of_singleton|?]%elem_of_union; [|auto]. simplify_eq. auto.
Qed.

Lemma cleaned_step s s' : objects_of s -> cleaned s -> step s s' -> cleaned s'.
Proof.
  intros HO [He Hg] Hs.
  assert (forall l r, s.(runners) !! l = Some r -> active r = true ->
            ~ (l ∈ s.(delivered) \/ l ∈ s.(expired))) as Hact.
  { intros l r Hl Hr [Hin|Hin].
    - apply (ob_delivered _ _ _ _ _ _ HO) in Hin. by simplify_eq.
    - apply He in Hin. by simplify_eq. }
  assert (forall l r r', s.(runners) !! l = Some r -> active r = true ->
            forall l', l' ∈ s.(expired) -> <[l := r']> s.(runners) !! l' = Some RunnerDone) as Hrun.
  { intros l r r' Hl Hr l' Hin. rewrite lookup_insert_ne; [auto|]. intros ->. eapply Hact; eauto. }
  destruct Hs; split; simpl; try done; try (by eapply Hrun); try (intros Hst; specialize (Hg Hst)).
  - apply reserve_fields in H1 as [-> _]. done.
  - intros l' Hin. rewrite lookup_insert_ne; [auto|]. intros ->. apply He in Hin. congruence.
  - intros l1 j1. rewrite lookup_insert_Some. intros [[<- <-]|[_ ?]]; [|by apply Hg].
    intros _. split; intros Hin.
    + apply (ob_delivered _ _ _ _ _ _ HO) in Hin. congruence.
    + apply He in Hin. congruence.
  - apply gone_alter; [done| |done]. intros []%(Hact _ _ H0 eq_refl).
  - destruct ok; simpl; by eapply Hrun.
  - destruct ok; simpl; [|done]. apply gone_alter; [done| |done]. intros []%(Hact _ _ H0 eq_refl).
  - by apply gone_alter.
  - eapply gone_pollers; [|done]. intros. by apply cleaning_new.
  - eapply gone_pollers; [|done]. intros. apply cleaning_to; [done| |done]. by rewrite H1.
  - apply take_result_Some in H2 as (j & Hj & Hres & ->). simpl. rewrite (insert_alter_eq (with_result None) _ _ _ Hj).
    apply gone_alter; [done..|]. intros l1 j1 Hj1 Hp1. destruct (Hg _ _ Hj1 Hp1) as [Hd Hx]. split; [|done].
    intros [->|Hin]%elem_of_cons.
    + right. exists p. eexists. rewrite lookup_insert_eq. done.
    + destruct (Hd Hin) as [|Hc]; [by left|right]. by apply cleaning_to.
  - eapply gone_pollers; [|done].
    intros. by apply cleaning_to.
  - destruct (decrement_fields s.(bits)) as (-> & _ & _ & ->). done.
  - destruct (schedule_fields x.(poll_handle) x.(poll_id) s.(bits)) as (-> & _ & _ & _ & _ & Hcl & Hnew).
    destruct (ob_poller _ _ _ _ _ _ HO _ _ H0) as [(j & Hj & Hid) _].
    eapply gone_scheduled; [done..| |done]. intros Hp. by eapply Hnew.
  - eapply gone_pollers; [|done]. intros. apply cleaning_delete; [|done].
    intros x'. rewrite H0. intros [= <-]. clear -H1. destruct x.(poll_phase_of); simpl; tauto.
  - intros l' [->%elem_of_singleton|?]%elem_of_union; [|auto].
    destruct (ob_runner _ _ _ _ _ _ HO _ _ H1) as [r Hr]. unfold sweepable in H2.
    apply andb_true_iff in H2 as [Hsome%bool_decide_eq_true _].
    destruct r; try done; exfalso;
      destruct (ob_active _ _ _ _ _ _ HO _ _ _ Hr eq_refl H1) as [Hn _]; rewrite Hn in Hsome; by destruct Hsome.
  - destruct (schedule_fields l i (upd_jobs (delete i s.(bits).(jobs)) s.(bits))) as (-> & _ & _ & _ & _ & Hcl & Hnew).
    simpl in *. destruct (ob_table _ _ _ _ _ _ HO _ _ H0) as (j' & Hj' & <-). simplify_eq.
    eapply gone_swept; [done..| |done]. intros Hp. by eapply Hnew.
Qed.

(** *** Reachable states *)

Definition reachable (s : sys) : Prop := rtc step sys_new s.

Lemma inv_new : inv sys_new.
Proof.
  split_and!.
  - split; simpl; intros *; rewrite ?lookup_empty; try done; try set_solver. constructor.
  - split; simpl; done.
  - intros l j. simpl. by rewrite lookup_empty.
  - split; [simpl; set_solver|]. intros _ l j. simpl. by rewrite lookup_empty.
Qed.

Lemma inv_step s s' : inv s -> step s s' -> inv s'.
Proof.
  intros (? & ? & ? & ?) Hs. split_and!; eauto using objects_step, accounts_step, retained_step, cleaned_step.
Qed.

Lemma sys_inv_reachable s : reachable s -> inv s.
Proof.
  intros Hr. specialize inv_new as Hm. unfold reachable in Hr.
  induction Hr as [|s1 s2 s3 Hs _ IH]; [done|]. eauto using inv_step.
Qed.
End system.
Arguments sys : clear implicits.

(** ** Properties *)

Section properties.
Context {V : Type} `{JsonValue V} (cfg : BrokerConfig).

(** C25. The counter behind admission never drifts: in every reachable state
    it is the number of jobs in the table, plus the submits that have counted
    but not inserted, plus the removals that have not yet counted down; and the
    in-flight gauge is the number of runners still at work.  Once no submit or
    removal is under way the counter is the size of the table. *)
Theorem job_count_exact (s : sys V) :
  reachable cfg s ->
  s.(bits).(job_count) = Z.of_nat (size s.(bits).(jobs)) + s.(reserving) + s.(undecremented) /\
  0 <= s.(reserving) /\ 0 <= s.(undecremented) /\
  s.(bits).(in_flight) = map_count active s.(runners).
Proof. intros Hr. destruct (sys_inv_reachable cfg s Hr) as (_ & [] & _). done. Qed.

(** Capacity: a submission is let in only while the table holds fewer
    than [max_jobs] jobs, and on a broker without a store (which never
    resubmits recovered jobs) the table never holds more than [max_jobs],
    however submissions, polls and sweeps interleave. *)
Theorem capacity (s : sys V) :
  reachable cfg s ->
  (forall b, reserve cfg EnforceLimit s.(bits) = Some b -> Z.of_nat (size s.(bits).(jobs)) < cfg.(max_jobs)) /\
  (cfg.(has_store) = false -> 0 <= cfg.(max_jobs) -> Z.of_nat (size s.(bits).(jobs)) <= cfg.(max_jobs)).
Proof.
  intros Hr. destruct (sys_inv_reachable cfg s Hr) as (_ & [Hc Hres Hund _ Hl] & _). split.
  - intros b Hb. apply reserve_fields in Hb as [_ Hb]. specialize (Hb eq_refl). lia.
  - intros Hst Hm. specialize (Hl Hst Hm). lia.
Qed.

(** C9. Delivery: the result of a job is handed to at most one poll, only
    after its runner finished, and a finished job whose result was not handed
    out still has it. *)
Theorem delivered_once (s : sys V) :
  reachable cfg s ->
  NoDup s.(delivered) /\
  (forall l, l ∈ s.(delivered) -> s.(runners) !! l = Some RunnerDone) /\
  (forall l j, s.(bits).(objs) !! l = Some j -> s.(runners) !! l = Some RunnerDone ->
     l ∉ s.(delivered) -> is_Some j.(job_result)).
Proof.
  intros Hr. destruct (sys_inv_reachable cfg s Hr) as (HO & _). split_and!; [apply HO|apply HO|].
  intros l j Hj Hd Hnin. destruct (j.(job_result)) eqn:Hres; [eauto|].
  exfalso. apply Hnin. by apply (ob_done _ _ _ _ _ _ HO l j).
Qed.

(** C1. No accepted job is lost: if no other job was accepted under the same
    id, then its result was delivered, or the sweeper expired it, or the table
    still leads a poll of its id to it. *)
Theorem accepted_job_kept (s : sys V) l j :
  reachable cfg s -> s.(bits).(objs) !! l = Some j -> ~ shares_id s.(bits).(objs) l j ->
  l ∈ s.(delivered) \/ l ∈ s.(expired) \/ lookup_job j.(id) s.(bits) = Some (l, j).
Proof.
  intros Hr Hj Hsh. destruct (sys_inv_reachable cfg s Hr) as (_ & _ & Hk & _).
  destruct (Hk l j Hj) as [?|[?|[Ht|?]]]; auto; [|done].
  do 2 right. unfold lookup_job. rewrite Ht. simpl. by rewrite Hj.
Qed.

(** Durable records do not outlive their jobs: when a job whose record
    is in the store has been delivered or expired, the deletion of the record
    has been requested once the poll that took the result is past its clean-up;
    and every record this broker wrote is known to be there. *)
Theorem gone_job_cleaned (s : sys V) l j :
  reachable cfg s -> cfg.(has_store) = true -> s.(bits).(objs) !! l = Some j ->
  (l ∈ s.(written) -> j.(persisted) = true) /\
  (j.(persisted) = true -> l ∈ s.(delivered) \/ l ∈ s.(expired) -> ~ cleaning s.(pollers) l ->
   j.(id) ∈ s.(bits).(cleanup)).
Proof.
  intros Hr Hst Hj. destruct (sys_inv_reachable cfg s Hr) as (HO & _ & _ & Hcl). split.
  - intros Hw. destruct (ob_written _ _ _ _ _ _ HO l Hw) as (j' & ? & ?). by simplify_eq.
  - intros Hp Hgone Hnc. destruct (cl_gone _ _ Hcl Hst l j Hj Hp) as [Hd He].
    destruct Hgone as [Hin|Hin]; [|auto]. by destruct (Hd Hin).
Qed.

(** *** Submission and polls, run without interference *)

Lemma remove_job_fields i (b : Bits V) :
  let b' := remove_job i b in
  b'.(objs) = b.(objs) /\ b'.(cells) = b.(cells) /\ b'.(jobs) = delete i b.(jobs) /\
  b'.(cleanup) = b.(cleanup) /\
  (is_Some (b.(jobs) !! i) -> 1 <= b.(job_count) -> b'.(job_count) = b.(job_count) - 1).
Proof.
  unfold remove_job, remove_entry, decrement. simpl. case_bool_decide as Hi; simpl.
  - case_match; simpl; split_and!; try done; intros; lia.
  - by split_and!.
Qed.

Lemma take_and_remove_spec l i j r (b : Bits V) :
  b.(objs) !! l = Some j -> j.(job_result) = Some r ->
  exists b', take_and_remove cfg l i b = (Some r, b') /\ b'.(jobs) = delete i b.(jobs) /\
    (is_Some (b.(jobs) !! i) -> 1 <= b.(job_count) -> b'.(job_count) = b.(job_count) - 1) /\
    (j.(persisted) = true -> cfg.(has_store) = true -> i ∈ b'.(cleanup)).
Proof.
  intros Hj Hr. unfold take_and_remove, take_result. rewrite Hj, Hr. eexists. split; [done|].
  set (b1 := upd_objs _ b).
  destruct (remove_job_fields i b1) as (Ho & _ & Ht & _ & Hn).
  destruct (schedule_fields cfg l i (remove_job i b1)) as (_ & _ & -> & -> & _ & _ & Hc).
  split_and!; [done|done|]. intros Hp Hst. eapply (Hc (with_result None j)); [|done..].
  rewrite Ho. simpl. apply lookup_insert_eq.
Qed.

(** A submit poll never swallows a payload: when the job it watches has
    a deliverable result it answers pending and the next poll of the id still
    returns that result; a failure is returned at once, its job leaves the
    table and the counter, and a durable record it had is scheduled for
    deletion. *)
Theorem poll_submit_result i waits now wait now' l j r (b : Bits V) :
  lookup_job i b = Some (l, j) -> j.(job_result) = Some r -> 1 <= b.(job_count) ->
  let '(out, b') := poll_submit_run cfg i waits now b in
  if JobResult.is_deliverable r
  then (exists st, out = Pending i st) /\ (poll_local cfg i wait now' b').1 = Some (Ready r)
  else out = Ready r /\ b'.(jobs) = delete i b.(jobs) /\ b'.(job_count) = b.(job_count) - 1 /\
       (j.(persisted) = true -> cfg.(has_store) = true -> i ∈ b'.(cleanup)) /\
       (poll_local cfg i wait now' b').1 = None.
Proof.
  intros Hlk Hr Hn. pose proof Hlk as Hlk'. unfold lookup_job in Hlk'.
  destruct (b.(jobs) !! i) as [l'|] eqn:Hi; [|done]. simpl in Hlk'.
  destruct (b.(objs) !! l') as [j'|] eqn:Hj; simplify_eq/=.
  unfold poll_submit_run. rewrite Hlk.
  assert (submit_turn cfg l i (connect j b) =
    if JobResult.is_deliverable r then (Some (Pending i (status_of l (connect j b))), connect j b)
    else match take_and_remove cfg l i (connect j b) with
         | (Some r, b) => (Some (Ready r), b)
         | (None, b) => (None, b)
         end) as Ht by (unfold submit_turn; simpl; rewrite Hj; simpl; by rewrite Hr).
  destruct (JobResult.is_deliverable r).
  - assert (submit_loop cfg l i waits (connect j b) = (Pending i (status_of l (connect j b)), connect j b)) as ->
      by (destruct waits; simpl; by rewrite Ht).
    split; [eauto|]. unfold poll_local, lookup_job. simpl. rewrite Hi. simpl. rewrite Hj. simpl.
    unfold poll_local_from, take_and_remove, take_result. simpl. by rewrite Hj, Hr.
  - destruct (take_and_remove_spec l i j r (connect j b) Hj Hr) as (b' & Heq & Hjobs & Hcount & Hcl).
    rewrite Heq in Ht. simpl in *.
    assert (submit_loop cfg l i waits (connect j b) = (Ready r, b')) as -> by (destruct waits; simpl; by rewrite Ht).
    split_and!; try done; simpl.
    + apply Hcount; [rewrite Hi; eauto|done].
    + unfold poll_local, lookup_job. simpl. by rewrite Hjobs, lookup_delete_eq.
Qed.

(** Submission on every branch: a rejected job leaves the broker exactly
    as it was, and is rejected only at capacity or when its id is already in
    the table; an accepted job has a valid request id that was free, which now
    leads to it, with the reconnect window open, and counts once in the job
    count and once in flight.  The broker mints an id only when the job does
    not already carry a request id, and the minted id is its own. *)
Theorem submit_spec adm rnd utc now l c (j : Job V) (b : Bits V) out b' :
  0 <= cfg.(slot) <= u16_max -> byte_list 5 rnd ->
  submit cfg adm rnd utc now l c j b = (Ok out, b') ->
  exists j', assign_id cfg rnd utc j = Ok j' /\
  match out with
  | SubmitOverloaded =>
      b' = b /\ ((adm = EnforceLimit /\ cfg.(max_jobs) <= b.(job_count)) \/ is_Some (b.(jobs) !! j'.(id)))
  | Accepted i =>
      i = j'.(id) /\ b.(jobs) !! i = None /\
      (exists d, decode i = Ok d /\
         (decode j.(id) = Ok d /\ i = j.(id) \/
          d.(site) = cfg.(site_tag) /\ d.(env) = cfg.(env_tag) /\ d.(broker_slot) = cfg.(slot))) /\
      b'.(job_count) = b.(job_count) + 1 /\ b'.(in_flight) = b.(in_flight) + 1 /\
      lookup_job i b' = Some (l, with_cell l j') /\
      b'.(cells) !! l = Some (cell_set_reconnect_deadline (now + cfg.(reconnect_buffer)) c) /\
      (adm = EnforceLimit -> b.(job_count) < cfg.(max_jobs))
  end.
Proof.
  intros Hslot Hrnd. unfold submit. destruct (assign_id cfg rnd utc j) as [j'|e] eqn:Hid; [|done].
  destruct (reserve cfg adm b) as [b1|] eqn:Hres.
  - apply reserve_fields in Hres as [-> Hadm]. simpl. destruct (b.(jobs) !! j'.(id)) eqn:Hj; intros [= <- <-].
    + exists j'. split_and!; [done| |eauto]. destruct b; unfold upd_count; simpl. f_equal. lia.
    + exists j'. split_and!; try done; simpl.
      * unfold assign_id in Hid. destruct (decode j.(id)) as [d|] eqn:Hd.
        -- simplify_eq. eauto.
        -- destruct (new_job_id cfg rnd utc) as [i|] eqn:Hn; [|done]. simplify_eq/=.
           unfold new_job_id in Hn. apply decode_encode_aux in Hn; [|done..]. rewrite Hn.
           eexists. split; [done|]. right. done.
      * unfold lookup_job. simpl. rewrite lookup_insert_eq. simpl. by rewrite lookup_insert_eq.
      * apply lookup_insert_eq.
  - intros [= <- <-]. exists j'. split_and!; [done..|]. left. unfold reserve in Hres.
    destruct adm; [|done]. split; [done|]. case_match; [|done]. lia.
Qed.
End properties.

(** ** Concrete runs *)

Definition demo_cfg : BrokerConfig := mkBrokerConfig 2 "bol" "dev" 42 10 true true.
Definition demo_id : string := "017sg4fag005yaa01a04hmasw9".
Definition demo_job : Job sample := new_with_id demo_id JNull 0 0.
Definition demo_payload : JobResult := Success "text/plain" 0 [].

(** Takes one step and evaluates the state it leads to. *)
Ltac norm_state :=
  lazymatch goal with |- rtc _ ?a _ => let a' := eval vm_compute in a in change a with a' end.
Tactic Notation "run" uconstr(r) := eapply rtc_l; [eapply r; (vm_compute; first [reflexivity|discriminate|exact I])|norm_state].

(** A job is accepted, persisted, finished, polled and cleaned up while a
    second one is waiting. *)
Definition demo_run : {s : sys sample | reachable demo_cfg s}.
Proof.
  eexists. unfold reachable.
  run (step_reserve _ _ EnforceLimit).
  run (step_insert _ _ 0 0%nat (new_lifecycle 0) demo_job false).
  run (step_start _ _ 0%nat).
  run (step_persist_begin _ _ 0%nat).
  run (step_persist_end _ _ 0%nat true).
  run (step_poll _ _ 0%nat false demo_id).
  run (step_finish _ _ 0%nat _ demo_payload).
  run (step_connect _ _ 0%nat).
  run (step_take _ _ 0%nat).
  run (step_remove _ _ 0%nat).
  run (step_decrement _ _).
  run (step_cleanup _ _ 0%nat).
  run (step_leave _ _ 0%nat _ 5).
  run (step_reserve _ _ EnforceLimit).
  run (step_insert _ _ 0 1%nat (new_lifecycle 0) (with_id "b" demo_job) false).
  apply rtc_refl.
Defined.

Definition demo_sys : sys sample := proj1_sig demo_run.

Lemma demo_reachable : reachable demo_cfg demo_sys.
Proof. exact (proj2_sig demo_run). Qed.

Example demo_facts : delivered demo_sys = [0%nat] /\ job_count (bits demo_sys) = 1.
Proof. split; vm_compute; reflexivity. Qed.

(** The sweeper expires a job a poll already holds, the id is accepted again
    (a recovery does this), and the poll's removal, which goes by id, takes the
    entry of the new job: the condition on ids in [accepted_job_kept] is
    needed. *)
Definition reused_run : {s : sys sample | reachable demo_cfg s}.
Proof.
  eexists. unfold reachable.
  run (step_reserve _ _ EnforceLimit).
  run (step_insert _ _ 0 0%nat (new_lifecycle 0) demo_job false).
  run (step_start _ _ 0%nat).
  run (step_poll _ _ 0%nat false demo_id).
  run (step_finish _ _ 0%nat _ demo_payload).
  eapply rtc_l; [eapply (step_sweep _ _ demo_id 0%nat _ 100); [vm_compute; reflexivity..]|norm_state].
  run (step_decrement _ _).
  run (step_reserve _ _ BypassLimitAlreadyPersisted).
  run (step_insert _ _ 0 1%nat (new_lifecycle 0) demo_job true).
  run (step_connect _ _ 0%nat).
  run (step_take _ _ 0%nat).
  run (step_remove _ _ 0%nat).
  apply rtc_refl.
Defined.

Example reused_id_loses_entry :
  let s := proj1_sig reused_run in
  delivered s = [0%nat] /\ expired s = {[0%nat]} /\
  is_Some (objs (bits s) !! 1%nat) /\ jobs (bits s) !! demo_id = None.
Proof. split_and!; [reflexivity|reflexivity|eexists; reflexivity|reflexivity]. Qed.

(** ** Witnesses *)

Lemma job_count_exact_witness :
  job_count (bits demo_sys) = 1 /\ Z.of_nat (size (jobs (bits demo_sys))) = 1.
Proof.
  pose proof (job_count_exact demo_cfg demo_sys demo_reachable) as [Hc _].
  split; vm_compute; reflexivity.
Defined.

Lemma capacity_witness :
  exists b, reserve demo_cfg EnforceLimit (bits demo_sys) = Some b /\
  Z.of_nat (size (jobs (bits demo_sys))) < 2.
Proof.
  eexists. split; [reflexivity|].
  eapply (proj1 (capacity demo_cfg demo_sys demo_reachable)). reflexivity.
Defined.

Lemma delivered_once_witness :
  NoDup (delivered demo_sys) /\ delivered demo_sys = [0%nat].
Proof. split; [exact (proj1 (delivered_once demo_cfg demo_sys demo_reachable))|vm_compute; reflexivity]. Defined.

Lemma accepted_job_kept_witness :
  let j := with_cell 1 (with_id "b" demo_job) in
  1%nat ∈ delivered demo_sys \/ 1%nat ∈ expired demo_sys \/ lookup_job "b" (bits demo_sys) = Some (1%nat, j).
Proof.
  apply (accepted_job_kept demo_cfg demo_sys 1%nat (with_cell 1 (with_id "b" demo_job)) demo_reachable).
  - vm_compute. reflexivity.
  - intros (l' & j' & Hne & Hj & Hid).
    assert (objs (bits demo_sys) !! l' = ((<[1%nat := with_cell 1 (with_id "b" demo_job)]>
              (<[0%nat := with_result None (with_persisted true demo_job)]> ∅)) : gmap nat (Job sample)) !! l') as Heq
      by (f_equal; vm_compute; reflexivity).
    rewrite Heq, !lookup_insert_Some, lookup_empty in Hj. destruct Hj as [[? _]|[_ [[_ <-]|[_ ?]]]]; [congruence| |done].
    discriminate Hid.
Defined.

Lemma gone_job_cleaned_witness : demo_id ∈ cleanup (bits demo_sys).
Proof.
  eapply (proj2 (gone_job_cleaned demo_cfg demo_sys 0%nat (with_result None (with_persisted true demo_job))
                   demo_reachable eq_refl _)).
  - reflexivity.
  - left. vm_compute. left.
  - intros (p & x & Hx & _). assert (pollers demo_sys = ∅) as He by (vm_compute; reflexivity).
    by rewrite He, lookup_empty in Hx.
Unshelve.
  vm_compute. reflexivity.
Defined.

Definition demo_bits (r : JobResult) : Bits sample :=
  mkBits {[0%nat := with_result (Some r) demo_job]} {[0%nat := new_lifecycle 0]} {[demo_id := 0%nat]} 1 0 [].

Lemma poll_submit_result_witness :
  (poll_local demo_cfg demo_id (fun b => (false, b)) 0
     (poll_submit_run demo_cfg demo_id [] 0 (demo_bits demo_payload)).2).1 = Some (Ready demo_payload) /\
  (poll_submit_run demo_cfg demo_id [] 0 (demo_bits (Overloaded "full"))).1 = Ready (Overloaded "full").
Proof.
  split.
  - apply (poll_submit_result demo_cfg demo_id [] 0 (fun b => (false, b)) 0 0%nat
             (with_result (Some demo_payload) demo_job) demo_payload (demo_bits demo_payload));
      [reflexivity|reflexivity|discriminate].
  - apply (poll_submit_result demo_cfg demo_id [] 0 (fun b => (false, b)) 0 0%nat
             (with_result (Some (Overloaded "full")) demo_job) (Overloaded "full") (demo_bits (Overloaded "full")));
      [reflexivity|reflexivity|discriminate].
Defined.

Lemma submit_spec_witness :
  exists i b', submit demo_cfg EnforceLimit [1; 2; 3; 4; 5] (custom_epoch + 97445999999999) 0 0%nat (new_lifecycle 0)
                 (with_id "" demo_job) bits_new = (Ok (Accepted i), b') /\ b'.(job_count) = 1.
Proof.
  eexists. eexists. split; [vm_compute; reflexivity|].
  edestruct (submit_spec demo_cfg EnforceLimit [1; 2; 3; 4; 5] (custom_epoch + 97445999999999) 0 0%nat
               (new_lifecycle 0) (with_id "" demo_job) bits_new) as (j' & _ & Hspec).
  - by vm_compute.
  - apply (bool_decide_unpack _). by vm_compute.
  - vm_compute. reflexivity.
  - destruct Hspec as (_ & _ & _ & Hc & _). exact Hc.
Defined.
