(* ===== verification/Server.v ===== *)
(** * The HTTP boundary ([server.rs], and the proxy half of [runtime/recovery.rs])

    What a broker answers to a poll, and how another broker that proxied the
    poll reads that answer back.  The HTTP libraries are behind two classes:
    [HttpText] renders bodies and judges header values, [Wire] carries a
    response from the one broker to the other. *)
From Stdlib Require Import Ascii.
From S2P Require Import Prelude Errors RequestId Job Broker.


(** ** Responses *)

Inductive Body : Type :=
| BodyEmpty
| BodyJson (code message : string) (retryable : bool)
| BodyStream (stream : ByteStream).

Record Response : Type := mkResponse {
  status : Z;
  headers : list (string * string);
  body : Body
}.

(** [value_ok]: [HeaderValue] accepts the string; [text_ok]: it reads back as
    a [str]; [json_text]: the text of an error body; [bad_header]: what axum
    answers when a header tuple holds an invalid value. *)
Class HttpText : Type := {
  value_ok : string -> bool;
  text_ok : string -> bool;
  json_text : string -> string -> bool -> string;
  bad_header : Response;
  visible_ok s : Forall (fun c => 32 <= c < 127) (chars s) -> value_ok s = true /\ text_ok s = true
}.

Definition CODE_JOB_NOT_FOUND : string := "JOB_NOT_FOUND".
Definition CODE_JOB_LOST : string := "JOB_LOST".
Definition CODE_JOB_ERROR : string := "JOB_ERROR".
Definition CODE_JOB_FAILED : string := "JOB_FAILED".
Definition CODE_ACTION_CANCELLED : string := "ACTION_CANCELLED".
Definition CODE_ACTION_CLIENT_GONE : string := "ACTION_CLIENT_GONE".
Definition CODE_QUEUE_FULL : string := "QUEUE_FULL".
Definition CODE_USER_LIMIT_EXCEEDED : string := "USER_LIMIT_EXCEEDED".

Definition LOCATION : string := "location".
Definition CONTENT_TYPE : string := "content-type".
Definition RETRY_AFTER : string := "retry-after".
Definition PENDING_STATUS_HEADER : string := "x-bits-pending-status".
Definition POLYTOPE_CONTENT_TYPE : string := "x-polytope-content-type".
Definition POLYTOPE_CONTENT_LENGTH : string := "x-polytope-content-length".

Section server.
Context {text : HttpText}.

Definition json_error (st : Z) (code message : string) (retryable : bool) : Response :=
  mkResponse st [] (BodyJson code message retryable).

Definition overloaded_response (reason : string) (retry_after_secs : Z) : Response :=
  mkResponse 529 [(RETRY_AFTER, pretty retry_after_secs)] (BodyJson CODE_QUEUE_FULL reason true).

Definition rate_limited_response (reason : string) (retry_after_secs : Z) : Response :=
  mkResponse 429 [(RETRY_AFTER, pretty retry_after_secs)] (BodyJson CODE_USER_LIMIT_EXCEEDED reason true).

(** The response builder: [None] is the panic of [unwrap] on an invalid value. *)
Definition build (st : Z) (hs : list (string * string)) (b : Body) : option Response :=
  if forallb (fun h => value_ok h.2) hs then Some (mkResponse st hs b) else None.

Definition result_to_response (result : JobResult) (retry_after_secs : Z) : option Response :=
  match result with
  | Success content_type _ stream =>
      Some (if value_ok content_type then mkResponse 200 [(CONTENT_TYPE, content_type)] (BodyStream stream)
            else bad_header)
  | Redirect location _ content_type content_length =>
      build 303
        ((LOCATION, location)
         :: match content_type with Some ct => [(POLYTOPE_CONTENT_TYPE, ct)] | None => [] end
         ++ match content_length with Some cl => [(POLYTOPE_CONTENT_LENGTH, pretty cl)] | None => [] end)
        BodyEmpty
  | Error message => Some (json_error 400 CODE_JOB_ERROR message false)
  | Failed _ => Some (json_error 500 CODE_JOB_FAILED "internal server error" false)
  | Overloaded reason => Some (overloaded_response reason retry_after_secs)
  | RateLimited reason => Some (rate_limited_response reason retry_after_secs)
  | JobCancelled => Some (json_error 410 CODE_ACTION_CANCELLED "job was cancelled" false)
  | JobClientGone => Some (json_error 410 CODE_ACTION_CLIENT_GONE "client disconnected" false)
  end.

(** The answer to a poll. *)
Definition poll_response (outcome : PollOutcome) (retry_after_secs : Z) : option Response :=
  match outcome with
  | Ready result => result_to_response result retry_after_secs
  | Pending id st =>
      build 303 [(LOCATION, ("/job/" ++ id)%string); (RETRY_AFTER, "0");
                 (PENDING_STATUS_HEADER, PendingStatus.as_str st)] BodyEmpty
  | PollNotFound => Some (json_error 404 CODE_JOB_NOT_FOUND "job does not exist or was already consumed" false)
  | JobLost => Some (json_error 410 CODE_JOB_LOST "job existed but is no longer recoverable" false)
  end.
End server.

(** ** The proxy's side *)

(** A reply as the HTTP client shows it: [rp_header] gives the value of a
    header that is present and reads as text. *)
Record Reply : Type := mkReply {
  rp_status : Z;
  rp_header : string -> option string;
  rp_content_length : option Z;
  rp_text : option string;
  rp_stream : ByteStream
}.

Definition as_i64 (n : Z) : Z := (n + 2 ^ 63) mod 2 ^ 64 - 2 ^ 63.

(** The last path segment of a location, its query cut off. *)
Definition last_segment (location : string) : string :=
  default ""%string (last (split_str "/"%char (default location (head (split_str "?"%char location))))).

Definition proxy_url (base id : string) : string := (trim_end "/"%char base ++ "/" ++ id)%string.

Definition is_redirect (st : Z) : bool := (st =? 303) || (st =? 307) || (st =? 302) || (st =? 308).

Definition reply_redirect (id : string) (pending_status : PendingStatus) (reply : Reply) : PollOutcome :=
  let location := default ""%string (reply.(rp_header) LOCATION) in
  if decide (location = ""%string) then Pending id pending_status
  else if decide (last_segment location = id) then Pending id pending_status
  else Ready (Redirect location "proxied redirect" (reply.(rp_header) POLYTOPE_CONTENT_TYPE)
                (reply.(rp_header) POLYTOPE_CONTENT_LENGTH ≫= parse_u64)).

(** [None] asks [owner_not_found_outcome]. *)
Definition reply_outcome (id : string) (reply : Reply) : option PollOutcome :=
  let pending_status :=
    default Queued (reply.(rp_header) PENDING_STATUS_HEADER ≫= PendingStatus.from_header) in
  if reply.(rp_status) =? 200 then
    Some (Ready (Success (default "application/octet-stream"%string (reply.(rp_header) CONTENT_TYPE))
                   (from_option as_i64 (-1) reply.(rp_content_length)) reply.(rp_stream)))
  else if is_redirect reply.(rp_status) then Some (reply_redirect id pending_status reply)
  else if reply.(rp_status) =? 404 then None
  else if reply.(rp_status) =? 400 then Some (Ready (Error (default ""%string reply.(rp_text))))
  else if reply.(rp_status) =? 410 then Some (Ready JobCancelled)
  else Some (queued id).

(** ** The proxy hop *)

(** The bytes of a stream that ends without an error. *)
Fixpoint bytes_of (s : ByteStream) : option string :=
  match s with
  | [] => Some EmptyString
  | Ok b :: s => String.append b <$> bytes_of s
  | Err _ :: _ => None
  end.

Fixpoint header_of (name : string) (hs : list (string * string)) : option string :=
  match hs with
  | [] => None
  | (n, v) :: hs => if decide (n = name) then Some v else header_of name hs
  end.

Definition header {text : HttpText} (name : string) (r : Response) : option string :=
  header_of name r.(headers) ≫= fun v => if text_ok v then Some v else None.

(** What HTTP preserves: the status, the text of the headers this code reads,
    the text of a JSON body, and the bytes of a complete stream, whose length
    is not announced. *)
Class Wire {text : HttpText} : Type := {
  wire : Response -> Reply;
  wire_status r : (wire r).(rp_status) = r.(status);
  wire_header r name :
    name ∈ [LOCATION; PENDING_STATUS_HEADER; POLYTOPE_CONTENT_TYPE; POLYTOPE_CONTENT_LENGTH] ->
    (wire r).(rp_header) name = header name r;
  wire_content_type r s : r.(body) = BodyStream s -> (wire r).(rp_header) CONTENT_TYPE = header CONTENT_TYPE r;
  wire_json r code message retryable :
    r.(body) = BodyJson code message retryable -> (wire r).(rp_text) = Some (json_text code message retryable);
  wire_stream r s b :
    r.(body) = BodyStream s -> bytes_of s = Some b ->
    (wire r).(rp_content_length) = None /\ bytes_of (wire r).(rp_stream) = Some b
}.

Section proxy.
Context {text : HttpText} `{!Wire}.

Definition visible (s : string) : Prop := Forall (fun c => 32 <= c < 127) (chars s).

Lemma visible_app s1 s2 :
  Forall is_ascii (chars s1) -> visible s1 -> visible s2 -> visible (s1 ++ s2).
Proof. intros Ha H1 H2. unfold visible. rewrite (chars_app _ _ Ha). by apply Forall_app. Qed.

Lemma visible_pretty n : 0 <= n -> visible (pretty n).
Proof.
  intros Hn. destruct (chars_pretty n Hn) as (ds & Hc & Hd & _). unfold visible. rewrite Hc.
  apply Forall_map. eapply Forall_impl; [done|]. simpl. lia.
Qed.

Lemma visible_as_str st : visible (PendingStatus.as_str st).
Proof. destruct st; apply (bool_decide_unpack _); by vm_compute. Qed.

(** A request id is made of digits and lower-case letters: visible, and a single
    path segment. *)
Lemma request_id_chars id d : decode id = Ok d -> Forall (fun c => 48 <= c <= 57 \/ 97 <= c <= 122) (chars id).
Proof.
  intros (packed & _ & -> & _)%decode_inv. rewrite chars_b32.
  apply Forall_map. eapply Forall_impl; [by apply to_digits_range|]. intros x Hx. unfold is_digit in Hx.
  assert (Forall (fun c => 48 <= c <= 57 \/ 97 <= c <= 122) CROCKFORD_ALPHABET) as Ha
    by (apply (bool_decide_unpack _); by vm_compute).
  unfold alphabet_at. rewrite Forall_forall in Ha. apply Ha. apply list_elem_of_In, nth_In.
  change (length CROCKFORD_ALPHABET) with 32%nat. lia.
Qed.

Lemma request_id_text id d :
  decode id = Ok d ->
  visible id /\ has_char "/"%char id = false /\ has_char "?"%char id = false /\ has_char "%"%char id = false.
Proof.
  intros Hf%request_id_chars.
  assert (forall c, ~ (48 <= byte_val c <= 57 \/ 97 <= byte_val c <= 122) -> has_char c id = false) as Hc.
  { intros c Hc. apply has_char_chars. eapply Forall_impl; [done|]. unfold is_ascii. intros x Hx.
    split; [lia|]. by intros ->. }
  split_and!; [|apply Hc; cbv; intuition congruence..].
  unfold visible. eapply Forall_impl; [done|]. simpl. lia.
Qed.

Lemma last_segment_job id d : decode id = Ok d -> last_segment ("/job/" ++ id) = id.
Proof.
  intros (_ & Hs & Hq & _)%request_id_text. unfold last_segment.
  change (("/job/" ++ id)%string) with (String "/" (String "j" (String "o" (String "b" (String "/" id))))).
  rewrite (split_none "?"%char); [|cbn [has_char]; by rewrite Hq]. cbn [head default from_option Datatypes.id split_str].
  rewrite (split_none "/"%char id) by done. done.
Qed.

Lemma build_ok st hs b : Forall (fun h => value_ok h.2 = true) hs -> build st hs b = Some (mkResponse st hs b).
Proof. intros Hf. unfold build. assert (forallb (fun h => value_ok h.2) hs = true) as ->; [|done].
  induction Hf as [|h hs Hh _ IH]; [done|]. simpl. by rewrite Hh, IH. Qed.

(** The pending answer is always well formed. *)
Lemma pending_response id d st secs :
  decode id = Ok d ->
  poll_response (Pending id st) secs =
  Some (mkResponse 303 [(LOCATION, ("/job/" ++ id)%string); (RETRY_AFTER, "0"%string);
                        (PENDING_STATUS_HEADER, PendingStatus.as_str st)] BodyEmpty).
Proof.
  intros Hd. destruct (request_id_text id d Hd) as [Hv _]. apply build_ok.
  assert (visible ("/job/" ++ id)) as Hl.
  { apply visible_app; [| |done]; apply (bool_decide_unpack _); by vm_compute. }
  repeat constructor; simpl; apply visible_ok; [done| |apply visible_as_str].
  apply (bool_decide_unpack _). by vm_compute.
Qed.

(** The proxy hop preserves what a client must see: for any reply the
    owner gives to a poll of a request id, a pending job stays pending with its
    status, a payload arrives with its type and its bytes, a redirect with its
    target and content metadata, and an unknown job is checked against the
    store. *)
Theorem proxy_preserves id d outcome secs resp :
  decode id = Ok d -> poll_response outcome secs = Some resp ->
  match outcome with
  | Pending i st => i = id -> reply_outcome id (wire resp) = Some (Pending id st)
  | Ready (Success ct _ stream) =>
      forall b, bytes_of stream = Some b -> value_ok ct = true -> text_ok ct = true ->
      exists stream', reply_outcome id (wire resp) = Some (Ready (Success ct (-1) stream')) /\
                      bytes_of stream' = Some b
  | Ready (Redirect location _ ct cl) =>
      location <> ""%string -> last_segment location <> id -> text_ok location = true ->
      (forall c, ct = Some c -> text_ok c = true) -> (forall n, cl = Some n -> 0 <= n <= u64_max) ->
      reply_outcome id (wire resp) = Some (Ready (Redirect location "proxied redirect" ct cl))
  | PollNotFound => reply_outcome id (wire resp) = None
  | _ => True
  end.
Proof.
  intros Hid. destruct outcome as [[ct size stream|location message ct cl| | | | | |]|i st| |]; try done.
  - simpl. intros [= <-] b Hb Hv Ht. rewrite Hv. set (r := mkResponse _ _ _).
    destruct (wire_stream r stream b eq_refl Hb) as [Hcl Hs].
    unfold reply_outcome. rewrite wire_status. simpl. rewrite (wire_content_type r stream eq_refl), Hcl.
    unfold header. simpl. rewrite Ht. eauto.
  - cbn [poll_response result_to_response]. unfold build. case_match; [|done]. intros [= <-] Hne Hseg Ht Hct Hcl.
    set (r := mkResponse _ _ _). unfold reply_outcome. rewrite wire_status. simpl.
    unfold reply_redirect. rewrite !wire_header by set_solver.
    assert (header LOCATION r = Some location) as -> by (unfold header; simpl; by rewrite Ht).
    simpl. rewrite decide_False, decide_False by done.
    do 3 f_equal; unfold header.
    + destruct ct as [c|]; simpl; [by rewrite (Hct c)|]. by destruct cl.
    + assert (header_of POLYTOPE_CONTENT_LENGTH (headers r) = pretty <$> cl) as ->
        by (destruct ct, cl; done).
      destruct cl as [n|]; [|done]. simpl. specialize (Hcl n eq_refl).
      rewrite (proj2 (visible_ok _ (visible_pretty n ltac:(lia)))). simpl. by apply parse_u64_pretty.
  - intros Hr ->. rewrite (pending_response _ _ _ _ Hid) in Hr. injection Hr as <-.
    set (r := mkResponse _ _ _). unfold reply_outcome. rewrite wire_status. simpl.
    unfold reply_redirect. rewrite !wire_header by set_solver.
    assert (header PENDING_STATUS_HEADER r = Some (PendingStatus.as_str st)) as ->
      by (unfold header; simpl; by rewrite (proj2 (visible_ok _ (visible_as_str st)))).
    simpl. rewrite PendingStatus.from_header_as_str. simpl.
    destruct (request_id_text id d Hid) as [Hv _].
    assert (visible ("/job/" ++ id)) as Hl.
    { apply visible_app; [| |done]; apply (bool_decide_unpack _); by vm_compute. }
    assert (header LOCATION r = Some ("/job/" ++ id)%string) as ->
      by (unfold header; simpl; by rewrite (proj2 (visible_ok _ Hl))).
    simpl. rewrite (last_segment_job id d Hid). by repeat case_decide.
  - simpl. intros [= <-]. unfold reply_outcome. by rewrite wire_status.
Qed.

(** What the proxy hop loses: a failure, an overload or a rate limit,
    which the owner handed out and forgot, reaches the client as a job still
    queued; a lost or abandoned job arrives as cancelled; an error arrives with
    the whole JSON body as its message. *)
Theorem proxy_loses_failures id secs :
  (forall reason outcome resp,
     outcome ∈ [Ready (Failed reason); Ready (Overloaded reason); Ready (RateLimited reason)] ->
     poll_response outcome secs = Some resp -> reply_outcome id (wire resp) = Some (queued id)) /\
  (forall outcome resp, outcome ∈ [JobLost; Ready JobClientGone; Ready JobCancelled] ->
     poll_response outcome secs = Some resp -> reply_outcome id (wire resp) = Some (Ready JobCancelled)) /\
  (forall message resp, poll_response (Ready (Error message)) secs = Some resp ->
     reply_outcome id (wire resp) = Some (Ready (Error (json_text CODE_JOB_ERROR message false)))).
Proof.
  split_and!.
  - intros reason o r. rewrite !elem_of_cons, elem_of_nil. intros [->|[->|[->|[]]]] [= <-];
      unfold reply_outcome; by rewrite wire_status.
  - intros o r. rewrite !elem_of_cons, elem_of_nil. intros [->|[->|[->|[]]]] [= <-];
      unfold reply_outcome; by rewrite wire_status.
  - intros m r [= <-]. unfold reply_outcome. rewrite wire_status. simpl. by erewrite wire_json by done.
Qed.
End proxy.

(** ** A concrete hop *)

#[export] Instance plain_text : HttpText := {|
  value_ok := fun _ => true;
  text_ok := fun _ => true;
  json_text := fun code message _ => (code ++ ": " ++ message)%string;
  bad_header := mkResponse 500 [] BodyEmpty;
  visible_ok := fun _ _ => conj eq_refl eq_refl
|}.

Definition plain_wire (r : Response) : Reply :=
  mkReply r.(status) (fun name => header name r) None
    (match r.(body) with BodyJson c m b => Some (json_text c m b) | _ => None end)
    (match r.(body) with BodyStream s => s | _ => [] end).

#[export] Instance plain_hop : Wire.
Proof.
  refine {| wire := plain_wire |}; try done.
  - intros r c m b Hb. unfold plain_wire. simpl. by rewrite Hb.
  - intros r s b Hs Hb. unfold plain_wire. simpl. by rewrite Hs.
Defined.

Lemma proxy_preserves_witness :
  let id := "017sg4fag005yaa01a04hmasw9"%string in
  reply_outcome id (wire (mkResponse 303 [(LOCATION, ("/job/" ++ id)%string); (RETRY_AFTER, "0"%string);
     (PENDING_STATUS_HEADER, "processing"%string)] BodyEmpty)) = Some (Pending id Processing).
Proof.
  eapply (proxy_preserves "017sg4fag005yaa01a04hmasw9" _ (Pending "017sg4fag005yaa01a04hmasw9" Processing) 5).
  - vm_compute. reflexivity.
  - reflexivity.
  - reflexivity.
Defined.

Lemma proxy_loses_failures_witness :
  reply_outcome "a" (wire (overloaded_response "full" 5)) = Some (queued "a").
Proof.
  apply (proj1 (proxy_loses_failures "a" 5) "full"%string (Ready (Overloaded "full"))).
  - apply elem_of_cons; right; apply elem_of_cons; left; reflexivity.
  - reflexivity.
Defined.
