(* ===== verification/Recovery.v ===== *)
(** * Polling across brokers ([bits.rs], [poll]; [runtime/recovery.rs])

    A poll that finds no local job decodes the owner from the id, asks the
    owner's lease, proxies to a live owner, and otherwise claims the durable
    record and runs the job again.  [wait] and [wait'] are what the rest of the
    broker does while the two local polls sleep, [send] is the HTTP client, and
    the store is reached through its interfaces only. *)
From S2P Require Import Prelude Json Errors RequestId Job Store MemoryStore Broker Server.

(** ** Ids and owners *)

Definition decode_job_id (job_id : string) : result DecodeError DecodedId := decode job_id.

Definition slot_from_job_id (job_id : string) : result DecodeError string :=
  let? decoded := decode_job_id job_id in
  Ok (decoded.(site) ++ "-" ++ decoded.(env) ++ "-" ++ pretty decoded.(broker_slot))%string.

(** ** Leases *)

(** [Duration::div_f64(10.0)], an f64 quotient rounded to nanoseconds. *)
Class DivF64 : Type := {
  div_f64_10 : Z -> Z;
  div_f64_nonneg d : 0 <= d -> 0 <= div_f64_10 d
}.

Inductive LeaseLookup : Type :=
| LeaseActive (lease : BrokerLeaseRecord)
| LeaseMissingOrExpired
| LeaseUnknown.

Section lease.
Context {div : DivF64}.

Definition lease_grace_duration (lease : BrokerLeaseRecord) : Z :=
  Z.min (div_f64_10 (Z.max 0 (lease.(lease_until) - lease.(updated_at)))) (10 ^ 9).

Definition lease_is_active_with_grace (now : Z) (lease : BrokerLeaseRecord) : bool :=
  now <? lease.(lease_until) + lease_grace_duration lease.
End lease.

Section recovery.
Context {V S : Type} `{JsonValue V} `{JobStore V S} `{BrokerLeaseStore S} {div : DivF64}.
Context (cfg : BrokerConfig).

(** [now] is the wall clock of the lookup. *)
Definition lookup_owner_lease (now : Z) (owner : string) (s : S) : LeaseLookup :=
  if negb cfg.(has_store) then LeaseUnknown
  else match get_broker_lease owner s with
       | Ok (Some lease) =>
           if lease_is_active_with_grace now lease then LeaseActive lease else LeaseMissingOrExpired
       | Ok None => LeaseMissingOrExpired
       | Err _ => LeaseUnknown
       end.

Definition owner_not_found_outcome (id : string) (s : S) : PollOutcome * S :=
  if negb cfg.(has_store) then (PollNotFound, s)
  else match durable_job_present id s with
       | (Ok true, s) => (queued id, s)
       | (Ok false, s) => (PollNotFound, s)
       | (Err _, s) => (queued id, s)
       end.

(** ** The proxy *)

Section proxy_call.
Context (send : string -> Z -> option Reply) (internal_poll_timeout : Z).

Definition try_proxy_with_lease (lease : BrokerLeaseRecord) (id : string) (timeout : option Z) (s : S)
    : option PollOutcome * S :=
  match send (proxy_url lease.(internal_poll_base_url) id) (default internal_poll_timeout timeout) with
  | None => (None, s)
  | Some reply =>
      match reply_outcome id reply with
      | Some outcome => (Some outcome, s)
      | None => let '(outcome, s) := owner_not_found_outcome id s in (Some outcome, s)
      end
  end.
End proxy_call.

(** ** Claiming with backoff *)

Definition millis (n : Z) : Z := n * 10 ^ 6.

(** The clock: [call_time k] is the duration of the [k]th claim, [oversleep k]
    what the sleep after it adds to what was asked. *)
Section claim.
Context (call_time oversleep : nat -> Z) (id expected_owner self : string).

Fixpoint claim_loop (fuel k : nat) (now deadline delay : Z) (s : S)
    : option (result DbError (ClaimResult V) * S) :=
  match fuel with
  | O => None
  | Datatypes.S fuel =>
      let '(r, s) := claim_if_owner id expected_owner self s in
      match r with
      | Ok _ | Err (Conflict _) | Err (SlotExhausted _ _ _) => Some (r, s)
      | Err (Backend _) =>
          let now := now + call_time k in
          if deadline <=? now then Some (r, s)
          else
            let sleep_for := Z.min delay (Z.max 0 (deadline - now)) in
            if sleep_for =? 0 then Some (r, s)
            else claim_loop fuel (Datatypes.S k) (now + sleep_for + oversleep k) deadline
                   (Z.min (2 * delay) (millis 1000)) s
      end
  end.

(** Six attempts are always enough; see [claim_with_backoff_total]. *)
Definition claim_fuel : nat := 6.

Definition claim_with_backoff (timeout : option Z) (now : Z) (s : S)
    : option (result DbError (ClaimResult V) * S) :=
  let budget := Z.min (default (millis 2000) timeout) (millis 2000) in
  claim_loop claim_fuel 0 now (now + budget) (millis 100) s.
End claim.

(** ** The poll *)

Record PollEnv : Type := mkPollEnv {
  wait : Bits V -> bool * Bits V;
  wait' : Bits V -> bool * Bits V;
  send : string -> Z -> option Reply;
  internal_poll_timeout : Z;
  utc_now : Z;
  instant_now : Z;
  call_time : nat -> Z;
  oversleep : nat -> Z;
  rnd : list Z;
  fresh : nat;
  fresh_cell : Lifecycle
}.

(** The claimed record is submitted again and polled at once. *)
Definition recover (e : PollEnv) (id : string) (record : PersistentJobRecord V) (b : Bits V)
    : PollOutcome * Bits V :=
  let job := restore record e.(fresh) in
  let '(_, b) := submit cfg BypassLimitAlreadyPersisted e.(rnd) e.(utc_now) e.(instant_now) e.(fresh) e.(fresh_cell) job b in
  match poll_local cfg id e.(wait') e.(instant_now) b with
  | (Some outcome, b) => (outcome, b)
  | (None, b) => (queued id, b)
  end.

(** What follows the claim. *)
Definition after_claim (e : PollEnv) (id owner : string) (timeout : option Z)
    (claimed : result DbError (ClaimResult V)) (b : Bits V) (s : S) : PollOutcome * Bits V * S :=
  match claimed with
  | Ok (Claimed record) => let '(outcome, b) := recover e id record b in (outcome, b, s)
  | Ok (Active owner') =>
      if decide (owner' = broker_name cfg) then (queued id, b, s)
      else match lookup_owner_lease e.(utc_now) owner' s with
           | LeaseActive lease =>
               let '(outcome, s) := try_proxy_with_lease e.(send) e.(internal_poll_timeout) lease id timeout s in
               (default (queued id) outcome, b, s)
           | LeaseMissingOrExpired | LeaseUnknown => (queued id, b, s)
           end
  | Ok NotFound => if decide (owner = broker_name cfg) then (PollNotFound, b, s) else (JobLost, b, s)
  | Err _ => (queued id, b, s)
  end.

(** [None] would be a claim loop that does not return. *)
Definition claim_and_recover (e : PollEnv) (id owner : string) (timeout : option Z) (b : Bits V) (s : S)
    : option (PollOutcome * Bits V * S) :=
  if negb cfg.(has_store) then Some (PollNotFound, b, s)
  else '(claimed, s) ← claim_with_backoff e.(call_time) e.(oversleep) id owner (broker_name cfg) timeout
                         e.(instant_now) s;
       Some (after_claim e id owner timeout claimed b s).

Definition poll (e : PollEnv) (id : string) (timeout : option Z) (b : Bits V) (s : S)
    : option (PollOutcome * Bits V * S) :=
  match poll_local cfg id e.(wait) e.(instant_now) b with
  | (Some outcome, b) => Some (outcome, b, s)
  | (None, b) =>
      match slot_from_job_id id with
      | Err _ => Some (PollNotFound, b, s)
      | Ok owner =>
          if decide (owner = broker_name cfg) then claim_and_recover e id owner timeout b s
          else match lookup_owner_lease e.(utc_now) owner s with
               | LeaseActive lease =>
                   let '(outcome, s) := try_proxy_with_lease e.(send) e.(internal_poll_timeout) lease id timeout s in
                   Some (default (queued id) outcome, b, s)
               | LeaseUnknown => Some (queued id, b, s)
               | LeaseMissingOrExpired => claim_and_recover e id owner timeout b s
               end
      end
  end.

(** ** The HTTP handlers of server.rs

    The inner [None] is a panic of the handler. *)
Section handlers.
Context {text : HttpText}.

Definition poll_by_id (e : PollEnv) (id : string) (poll_timeout retry_after_secs : Z) (b : Bits V) (s : S)
    : option (option Response * Bits V * S) :=
  '(outcome, b, s) ← poll e id (Some poll_timeout) b s;
  Some (poll_response outcome retry_after_secs, b, s).

Definition submit_job (e : PollEnv) (uuid : string) (request_body : V) (l : nat) (poll_timeout retry_after_secs : Z)
    (b : Bits V) (s : S) : option (option Response * Bits V * S) :=
  match submit cfg EnforceLimit e.(rnd) e.(utc_now) e.(instant_now) l (new_lifecycle e.(instant_now))
          (Job.new uuid request_body e.(utc_now) l) b with
  | (Ok (Accepted id), b) => poll_by_id e id poll_timeout retry_after_secs b s
  | (Ok SubmitOverloaded, b) => Some (Some (overloaded_response "broker at capacity" retry_after_secs), b, s)
  | (Err _, b) => Some (None, b, s)
  end.
End handlers.

(** ** Lemmas *)

(** What [k] more sleeps can cover from [delay] on. *)
Fixpoint covered (n : nat) (delay : Z) : Z :=
  match n with O => 0 | Datatypes.S n => delay + covered n (Z.min (2 * delay) (millis 1000)) end.

Section claim_lemmas.
Context (ct os : nat -> Z) (id expected_owner self : string).
Hypothesis Hct : forall k, 0 <= ct k.
Hypothesis Hos : forall k, 0 <= os k.

Lemma covered_nonneg n delay : 0 <= delay -> 0 <= covered n delay.
Proof.
  revert delay; induction n as [|n IH]; intros delay Hd; simpl; [lia|].
  specialize (IH (Z.min (2 * delay) (millis 1000))). unfold millis in *. lia.
Qed.

Lemma claim_loop_returns n k now deadline delay (s : S) :
  0 < delay -> deadline - now <= covered n delay ->
  is_Some (claim_loop ct os id expected_owner self (Datatypes.S n) k now deadline delay s).
Proof.
  revert k now delay s; induction n as [|n IH]; intros k now delay s Hd Hc; specialize (Hct k) as Hk.
  - cbn [claim_loop covered] in *. destruct (claim_if_owner _ _ _ s) as [[|[]] s']; eauto.
    rewrite (proj2 (Z.leb_le _ _)) by lia. eauto.
  - change (claim_loop ct os id expected_owner self (Datatypes.S (Datatypes.S n)) k now deadline delay s)
      with (let '(r, s) := claim_if_owner id expected_owner self s in
            match r with
            | Ok _ | Err (Conflict _) | Err (SlotExhausted _ _ _) => Some (r, s)
            | Err (Backend _) =>
                let now := now + ct k in
                if deadline <=? now then Some (r, s)
                else
                  let sleep_for := Z.min delay (Z.max 0 (deadline - now)) in
                  if sleep_for =? 0 then Some (r, s)
                  else claim_loop ct os id expected_owner self (Datatypes.S n) (Datatypes.S k)
                         (now + sleep_for + os k) deadline (Z.min (2 * delay) (millis 1000)) s
            end).
    destruct (claim_if_owner _ _ _ s) as [[|[]] s']; eauto. cbv zeta.
    destruct (Z.leb_spec deadline (now + ct k)); [eauto|].
    destruct (Z.eqb_spec (Z.min delay (Z.max 0 (deadline - (now + ct k)))) 0); [eauto|].
    specialize (Hos k) as Ho. cbn [covered] in Hc.
    apply IH; [unfold millis; lia|].
    assert (0 <= covered n (Z.min (2 * delay) (millis 1000))) by (apply covered_nonneg; unfold millis; lia).
    lia.
Qed.

(** The answer is that of one claim, made after failed claims that changed no
    record. *)
Lemma claim_loop_answer {lookup_job : string -> S -> option (PersistentJobRecord V)}
    `{!JobStoreLaws S lookup_job} fuel k now deadline delay (s s' : S) r :
  claim_loop ct os id expected_owner self fuel k now deadline delay s = Some (r, s') ->
  exists s0, claim_if_owner id expected_owner self s0 = (r, s') /\
             forall i, lookup_job i s0 = lookup_job i s.
Proof.
  revert k now delay s; induction fuel as [|fuel IH]; intros k now delay s; [done|]. cbn [claim_loop].
  destruct (claim_if_owner _ _ _ s) as [r1 s1] eqn:Hc.
  destruct r1 as [c|[m|m|? ? ?]]; try (intros [= <- <-]; eauto; fail). cbv zeta.
  repeat case_match; try (intros [= <- <-]; eauto; fail).
  intros (s0 & Hs0 & Hl)%IH. exists s0. split; [done|]. intros i. by rewrite Hl, (claim_err _ _ _ _ _ _ Hc).
Qed.
End claim_lemmas.

Lemma take_and_remove_jobs l i (b : Bits V) b' :
  take_and_remove cfg l i b = (None, b') -> b' = b.
Proof.
  unfold take_and_remove, take_result. intros Ht. repeat case_match; by simplify_eq.
Qed.

(** A local poll that finds nothing leaves the broker as it was. *)
Lemma poll_local_None id w now (b b' : Bits V) :
  poll_local cfg id w now b = (None, b') -> b' = b /\ lookup_job id b = None.
Proof.
  unfold poll_local. destruct (Broker.lookup_job id b) as [[l j]|]; [|by intros [= <-]].
  by destruct (poll_local_from _ _ _ _ _).
Qed.

Lemma poll_local_present id w now (b b' : Bits V) o :
  poll_local cfg id w now b = (Some o, b') -> o <> PollNotFound /\ o <> JobLost.
Proof.
  unfold poll_local. destruct (Broker.lookup_job id b) as [[l j]|]; [|done].
  destruct (poll_local_from _ _ _ _ _) as [o' b1] eqn:Hp. intros [= <- <-].
  unfold poll_local_from in Hp. repeat case_match; by simplify_eq.
Qed.

Lemma recover_present e id record (b b' : Bits V) o :
  recover e id record b = (o, b') -> o <> PollNotFound /\ o <> JobLost.
Proof.
  unfold recover. destruct (submit _ _ _ _ _ _ _ _ _) as [r b1].
  destruct (poll_local _ _ _ _ _) as [[o'|] b2] eqn:Hp; intros [= <- <-]; [|done].
  by eapply poll_local_present.
Qed.

Lemma reply_present id reply o : reply_outcome id reply = Some o -> o <> PollNotFound /\ o <> JobLost.
Proof. unfold reply_outcome, reply_redirect. intros Ho. repeat case_match; by simplify_eq. Qed.

(** ** Properties *)

(** A claim always comes back: whatever the store answers and however
    long its calls and the sleeps take, [claim_with_backoff] returns after at
    most six attempts. *)
Theorem claim_with_backoff_total ct os id expected self timeout now (s : S) :
  (forall k, 0 <= ct k) -> (forall k, 0 <= os k) ->
  is_Some (claim_with_backoff ct os id expected self timeout now s).
Proof.
  intros Hct Hos. apply claim_loop_returns; [done|done|unfold millis; lia|].
  change (covered 5 (millis 100)) with (millis 2500). unfold millis. lia.
Qed.

Section store_laws.
Context {lookup_job : string -> S -> option (PersistentJobRecord V)} `{!JobStoreLaws S lookup_job}.

(** The names the presence probe uses are not those of a broker. *)
Definition no_reserved_name (s : S) : Prop :=
  forall id r, lookup_job id s = Some r -> r.(rec_broker_id) <> "__never_expected__"%string.

Lemma owner_not_found_spec id (s s' : S) o :
  no_reserved_name s -> owner_not_found_outcome id s = (o, s') ->
  (forall i, lookup_job i s' = lookup_job i s) /\
  (cfg.(has_store) = true -> is_Some (lookup_job id s) -> o = queued id) /\ o <> JobLost.
Proof.
  intros Hn. unfold owner_not_found_outcome. destruct (has_store cfg); simpl; [|by intros [= <- <-]].
  destruct (durable_job_present id s) as [[b|e] s1] eqn:Hp.
  - apply (durable_job_present_spec (lookup_job:=lookup_job)) in Hp as [-> Hl]; [|by eapply Hn].
    case_bool_decide; intros [= <- <-]; by split_and!.
  - intros [= <- <-]. split_and!; try done. unfold durable_job_present in Hp.
    destruct (claim_if_owner _ _ _ s) as [[c|e'] s2] eqn:Hc; [done|]. simplify_eq.
    eapply (claim_err (lookup_job:=lookup_job)). done.
Qed.

Lemma try_proxy_spec snd ipt lease id timeout (s s' : S) o :
  no_reserved_name s -> try_proxy_with_lease snd ipt lease id timeout s = (o, s') ->
  (forall i, lookup_job i s' = lookup_job i s) /\
  (cfg.(has_store) = true -> is_Some (lookup_job id s) ->
   default (queued id) o <> PollNotFound /\ default (queued id) o <> JobLost).
Proof.
  intros Hn. unfold try_proxy_with_lease. destruct (snd _ _) as [reply|]; [|by intros [= <- <-]].
  destruct (reply_outcome id reply) as [o'|] eqn:Hr.
  - intros [= <- <-]. split; [done|]. intros _ _. by eapply reply_present.
  - destruct (owner_not_found_outcome id s) as [o' s1] eqn:Ho. intros [= <- <-].
    apply owner_not_found_spec in Ho as (Hl & Hq & Hj); [|done]. split; [done|].
    intros Hst Hs. by rewrite (Hq Hst Hs).
Qed.

(** A live owner is left alone: while the lease of another broker is
    active, a poll of one of its jobs claims nothing, changes no durable
    record and starts no job here. *)
Theorem active_lease_respected e id timeout (b b' : Bits V) (s s' : S) owner lease out :
  no_reserved_name s -> cfg.(has_store) = true ->
  slot_from_job_id id = Ok owner -> owner <> broker_name cfg ->
  get_broker_lease owner s = Ok (Some lease) -> lease_is_active_with_grace e.(utc_now) lease = true ->
  Broker.lookup_job id b = None ->
  poll e id timeout b s = Some (out, b', s') ->
  b' = b /\ forall i, lookup_job i s' = lookup_job i s.
Proof.
  intros Hn Hst Hid Hne Hget Hact Hb. unfold poll, poll_local. rewrite Hb, Hid, decide_False by done.
  unfold lookup_owner_lease. rewrite Hst. simpl. rewrite Hget, Hact.
  destruct (try_proxy_with_lease _ _ lease id timeout s) as [o s1] eqn:Hp.
  intros [= <- <- <-]. split; [done|]. by apply try_proxy_spec in Hp as [Hl _].
Qed.

(** C6. A durable job is never reported missing: as long as the store has a
    record of it, a poll of its id at any broker of the cluster, whatever the
    leases, the store's errors and the owner's reply, answers neither that the
    job does not exist nor that it is lost. *)
Theorem durable_never_missing e id d timeout (b b' : Bits V) (s s' : S) out :
  no_reserved_name s -> cfg.(has_store) = true -> decode id = Ok d ->
  is_Some (lookup_job id s) ->
  poll e id timeout b s = Some (out, b', s') ->
  out <> PollNotFound /\ out <> JobLost.
Proof.
  intros Hn Hst Hid Hrec. unfold poll.
  destruct (poll_local cfg id e.(wait) e.(instant_now) b) as [[o|] b1] eqn:Hp.
  { intros [= <- <- <-]. by eapply poll_local_present. }
  unfold slot_from_job_id, decode_job_id. rewrite Hid. set (owner := (_ ++ _)%string).
  assert (forall snd ipt lease s1 o s2, (forall i, lookup_job i s1 = lookup_job i s) ->
            try_proxy_with_lease snd ipt lease id timeout s1 = (o, s2) ->
            default (queued id) o <> PollNotFound /\ default (queued id) o <> JobLost) as Hproxy.
  { intros snd ipt lease s1 o s2 Hl Ht. apply try_proxy_spec in Ht as [_ Ht].
    - apply Ht; [done|]. by rewrite Hl.
    - intros i r. rewrite Hl. apply Hn. }
  assert (claim_and_recover e id owner timeout b1 s = Some (out, b', s') ->
          out <> PollNotFound /\ out <> JobLost) as Hclaim.
  { unfold claim_and_recover. rewrite Hst. simpl.
    destruct (claim_with_backoff _ _ _ _ _ _ _ s) as [[r s1]|] eqn:Hc; [|done]. simpl.
    apply (claim_loop_answer _ _ _ _ _ (lookup_job:=lookup_job)) in Hc as (s0 & Hc & Hl). intros [= Ho].
    destruct r as [c|]; [|by unfold after_claim in Ho; simplify_eq].
    apply claim_law in Hc as [-> Hl']. rewrite Hl in Ho, Hl'. destruct Hrec as [rec Hrec].
    rewrite Hrec in Ho, Hl'. unfold claim_spec in *.
    case_decide; [|case_decide]; simpl in Ho.
    - destruct (recover e id rec b1) as [o2 b2] eqn:Hr. simplify_eq. by eapply recover_present.
    - destruct (recover e id _ b1) as [o2 b2] eqn:Hr. simplify_eq. by eapply recover_present.
    - case_decide; [by simplify_eq|]. destruct (lookup_owner_lease _ _ s1); [|by simplify_eq..].
      destruct (try_proxy_with_lease _ _ _ _ _ s1) as [o2 s2] eqn:Ht. simplify_eq.
      eapply Hproxy; [|done]. intros i. rewrite Hl'. simpl. destruct (decide (i = id)) as [->|]; auto. }
  case_decide; [done|]. destruct (lookup_owner_lease _ owner s); [|done|by intros [= <- <- <-]].
  destruct (try_proxy_with_lease _ _ _ _ _ s) as [o2 s2] eqn:Ht. intros [= <- <- <-]. by eapply Hproxy.
Qed.

(** C12. An orphaned job is run again by the broker that is polled: when the
    owner named by the id has no live lease, the record is still under that
    owner (or already under this broker), the id is not in this broker's table,
    the claim goes through and the poll answers, then afterwards the record belongs to this broker, a job with the id, the
    original request, the user, the metadata and the creation time of the
    record is in the table and counted, and the answer is that of a poll of
    this job. *)
Theorem orphan_recovered e id owner timeout (b b' : Bits V) (s s' : S) r c out :
  cfg.(has_store) = true -> is_ok (decode id) = true -> slot_from_job_id id = Ok owner ->
  lookup_job id s = Some r -> r.(rec_job_id) = id ->
  r.(rec_broker_id) = owner \/ r.(rec_broker_id) = broker_name cfg ->
  owner = broker_name cfg \/ lookup_owner_lease e.(utc_now) owner s = LeaseMissingOrExpired ->
  b.(jobs) !! id = None ->
  (exists s1, claim_with_backoff e.(call_time) e.(oversleep) id owner (broker_name cfg) timeout e.(instant_now) s
              = Some (Ok c, s1)) ->
  poll e id timeout b s = Some (out, b', s') ->
  lookup_job id s' = Some (with_broker (broker_name cfg) r) /\
  exists b1, Broker.lookup_job id b1 = Some (e.(fresh), restore (with_broker (broker_name cfg) r) e.(fresh)) /\
    b1.(job_count) = b.(job_count) + 1 /\ b1.(in_flight) = b.(in_flight) + 1 /\
    (forall i, i <> id -> b1.(jobs) !! i = b.(jobs) !! i) /\
    poll_local cfg id e.(wait') e.(instant_now) b1 = (Some out, b').
Proof.
  intros Hst Hid Hslot Hrec Hrid Hown Hlease Hb (s1 & Hc) Hp. unfold poll, poll_local in Hp.
  assert (Broker.lookup_job id b = None) as Hb' by (unfold Broker.lookup_job; by rewrite Hb).
  rewrite Hb', Hslot in Hp.
  assert (claim_and_recover e id owner timeout b s = Some (out, b', s')) as Hclaim.
  { case_decide; [done|]. destruct Hlease as [|Hl]; [done|]. by rewrite Hl in Hp. }
  unfold claim_and_recover in Hclaim. rewrite Hst, Hc in Hclaim. simpl in Hclaim.
  apply (claim_loop_answer _ _ _ _ _ (lookup_job:=lookup_job)) in Hc as (s0 & Hc & Hl).
  apply claim_law in Hc as [-> Hl']. specialize (Hl' id). rewrite decide_True, Hl, Hrec in Hl' by done.
  rewrite Hl, Hrec in Hclaim. unfold claim_spec in *.
  set (r' := with_broker (broker_name cfg) r).
  assert (exists x, after_claim e id owner timeout (Ok (Claimed r')) b s1 = x /\ x = (out, b', s') /\
            lookup_job id s1 = Some r') as (x & Ha & -> & Hs1).
  { destruct Hown as [Ho|Ho]; repeat case_decide; simplify_eq; simpl in *; eexists; (split; [done|]);
      try (split; [done|done]).
    all: assert (r' = r) as -> by (unfold r'; destruct r; simpl in *; by subst).
    all: by simplify_eq. }
  simpl in Ha. unfold recover in Ha.
  assert (submit cfg BypassLimitAlreadyPersisted (rnd e) (utc_now e) (instant_now e) (fresh e) (fresh_cell e)
            (restore r' (fresh e)) b =
          (Ok (Accepted id), insert_job cfg (instant_now e) (fresh e) (fresh_cell e) (restore r' (fresh e))
             (upd_count (job_count b + 1) b))) as Hsub.
  { unfold submit, assign_id. simpl. rewrite Hrid. destruct (decode id); [|done]. simpl. by rewrite Hrid, Hb. }
  rewrite Hsub in Ha. set (b1 := insert_job _ _ _ _ _ _) in Ha.
  assert (Broker.lookup_job id b1 = Some (fresh e, restore r' (fresh e))) as Hlk.
  { unfold Broker.lookup_job, b1. simpl. rewrite Hrid, lookup_insert_eq. simpl. by rewrite lookup_insert_eq. }
  destruct (poll_local cfg id (wait' e) (instant_now e) b1) as [[o|] b2] eqn:Hpl.
  2: { apply poll_local_None in Hpl as [_ Hn]. by rewrite Hlk in Hn. }
  simplify_eq. split; [done|]. exists b1. split_and!; try done.
  intros i Hi. unfold b1. simpl. rewrite lookup_insert_ne; [done|congruence].
Qed.
(** A job that was taken over once is not taken over again: the claim is made
    under the broker the id names, so when the record is under a third broker
    that holds no live lease either, the poll answers that the job is queued,
    claims nothing and starts nothing. *)
Theorem second_orphan_queued e id owner timeout (b b' : Bits V) (s s' : S) r out :
  cfg.(has_store) = true -> slot_from_job_id id = Ok owner -> lookup_job id s = Some r ->
  r.(rec_broker_id) <> owner -> r.(rec_broker_id) <> broker_name cfg ->
  owner = broker_name cfg \/ lookup_owner_lease e.(utc_now) owner s = LeaseMissingOrExpired ->
  (forall c s1 lease,
     claim_with_backoff e.(call_time) e.(oversleep) id owner (broker_name cfg) timeout e.(instant_now) s = Some (c, s1) ->
     lookup_owner_lease e.(utc_now) r.(rec_broker_id) s1 <> LeaseActive lease) ->
  Broker.lookup_job id b = None ->
  poll e id timeout b s = Some (out, b', s') ->
  out = queued id /\ b' = b /\ forall i, lookup_job i s' = lookup_job i s.
Proof.
  intros Hst Hslot Hrec Hne Hself Hlease Hdead Hb Hp. unfold poll, poll_local in Hp. rewrite Hb, Hslot in Hp.
  assert (claim_and_recover e id owner timeout b s = Some (out, b', s')) as Hclaim.
  { case_decide; [done|]. destruct Hlease as [|Hl]; [done|]. by rewrite Hl in Hp. }
  unfold claim_and_recover in Hclaim. rewrite Hst in Hclaim. simpl in Hclaim.
  destruct (claim_with_backoff _ _ _ _ _ _ _ s) as [[c s1]|] eqn:Hc; [|done]. pose proof (fun lease => Hdead _ _ lease eq_refl) as Hdead'.
  apply (claim_loop_answer _ _ _ _ _ (lookup_job:=lookup_job)) in Hc as (s0 & Hc & Hl). simpl in Hclaim.
  destruct c as [c|err].
  2: { injection Hclaim as <- <- <-. split_and!; [done..|]. intros i. by rewrite (claim_err _ _ _ _ _ _ Hc), Hl. }
  assert (claim_spec owner (broker_name cfg) (Some r) = (Active r.(rec_broker_id), Some r)) as Hspec.
  { unfold claim_spec. by rewrite !decide_False. }
  apply claim_law in Hc as [-> Hl']. rewrite Hl, Hrec, Hspec in Hclaim, Hl'. simpl in Hclaim, Hl'.
  rewrite decide_False in Hclaim by done.
  assert (forall i, lookup_job i s1 = lookup_job i s) as Hsame.
  { intros i. rewrite Hl'. destruct (decide (i = id)) as [->|]; [done|apply Hl]. }
  destruct (lookup_owner_lease _ _ s1) as [lease| |] eqn:Ho; [by destruct (Hdead' lease)|by simplify_eq..].
Qed.
End store_laws.

(** Requests route home: the id a broker mints names that broker, so a
    poll of it at any other broker asks for this broker's lease, and a poll at
    this broker never proxies. *)
Theorem own_ids_route_home rnd now id :
  0 <= cfg.(slot) <= u16_max -> byte_list 5 rnd ->
  new_job_id cfg rnd now = Ok id -> slot_from_job_id id = Ok (broker_name cfg).
Proof.
  intros Hslot Hrnd Hid. apply decode_encode_aux in Hid; [|done..].
  unfold slot_from_job_id, decode_job_id. by rewrite Hid.
Qed.
End recovery.

(** ** A concrete cluster: a record left behind by broker 42, polled at broker 7 *)

#[local] Existing Instance no_text.
#[local] Existing Instance no_chrono.

#[export] Instance tenth : DivF64.
Proof. refine {| div_f64_10 := fun d => d / 10 |}. intros. by apply Z.div_pos. Defined.

Definition peer_cfg : BrokerConfig := mkBrokerConfig 2 "bol" "dev" 7 10 true true.
Definition peer_env : PollEnv :=
  mkPollEnv (V:=sample) (fun b => (false, b)) (fun b => (false, b)) (fun _ _ => None) 5 100 100
    (fun _ => 3) (fun _ => 1) [] 0%nat (new_lifecycle 0).
Definition orphan_record (owner : string) : PersistentJobRecord sample :=
  mkRecord demo_id owner (JString "req") (JString "user") JNull 9.

Definition orphan_store (owner : string) : MemoryStore.MemoryStore sample :=
  (upsert_job_memory (orphan_record owner) MemoryStore.new).2.
Definition leased_store : MemoryStore.MemoryStore sample :=
  (upsert_broker_lease_memory 50 "bol-dev-42" "http://b42/job/" 100 (orphan_store "bol-dev-42")).2.

Lemma orphan_no_reserved owner :
  owner <> "__never_expected__"%string ->
  no_reserved_name (lookup_job:=lookup_job_memory) (orphan_store owner).
Proof.
  intros Hne id r. unfold lookup_job_memory. destruct (memory_job_key id); [|done].
  assert (MemoryStore.jobs (orphan_store owner) = {[ "bol/dev/42/017sg4fag005yaa01a04hmasw9" := orphan_record owner ]})
    as -> by reflexivity.
  by intros [_ <-]%lookup_singleton_Some.
Qed.

Lemma claim_with_backoff_total_witness :
  is_Some (claim_with_backoff (fun _ => 3) (fun _ => 1) demo_id "bol-dev-42" "bol-dev-7" None 0 leased_store).
Proof. by apply (claim_with_backoff_total (V:=sample) (fun _ => 3) (fun _ => 1)). Defined.

Lemma active_lease_respected_witness :
  exists out b' s', poll peer_cfg peer_env demo_id None bits_new leased_store = Some (out, b', s') /\ b' = bits_new.
Proof.
  eexists. eexists. eexists. split; [vm_compute; reflexivity|].
  refine (proj1 (active_lease_respected (lookup_job:=lookup_job_memory) peer_cfg peer_env demo_id None bits_new _
    leased_store _ "bol-dev-42" (mkLease "bol-dev-42" "http://b42/job/" (50 + 60 * 10 ^ 9) 50) _ _ _ _ _ _ _ _ _));
    [|reflexivity|vm_compute; reflexivity|by vm_compute|vm_compute; reflexivity|vm_compute; reflexivity
     |vm_compute; reflexivity|vm_compute; reflexivity].
  exact (orphan_no_reserved "bol-dev-42" ltac:(done)).
Defined.

Lemma durable_never_missing_witness :
  exists out b' s', poll peer_cfg peer_env demo_id None bits_new (orphan_store "bol-dev-42") = Some (out, b', s') /\
    out <> PollNotFound.
Proof.
  eexists. eexists. eexists. split; [vm_compute; reflexivity|].
  refine (proj1 (durable_never_missing (lookup_job:=lookup_job_memory) peer_cfg peer_env demo_id
    (mkDecodedId 1 "bol" "dev" (custom_epoch + 97445 * nanos_per_sec) 42 [0x01; 0x23; 0x45; 0x67; 0x89])
    None bits_new _ (orphan_store "bol-dev-42") _ _ _ _ _ _ _));
    [|reflexivity|vm_compute; reflexivity|eexists; vm_compute; reflexivity|vm_compute; reflexivity].
  exact (orphan_no_reserved "bol-dev-42" ltac:(done)).
Defined.

Lemma orphan_recovered_witness :
  exists out b' s', poll peer_cfg peer_env demo_id None bits_new (orphan_store "bol-dev-42") = Some (out, b', s') /\
    lookup_job_memory demo_id s' = Some (orphan_record "bol-dev-7").
Proof.
  eexists. eexists. eexists. split; [vm_compute; reflexivity|].
  refine (proj1 (orphan_recovered (lookup_job:=lookup_job_memory) peer_cfg peer_env demo_id "bol-dev-42"
    None bits_new _ (orphan_store "bol-dev-42") _ (orphan_record "bol-dev-42") (Claimed (orphan_record "bol-dev-7")) _
    _ _ _ _ _ _ _ _ _ _));
    [reflexivity|vm_compute; reflexivity|vm_compute; reflexivity|vm_compute; reflexivity|reflexivity
    |left; reflexivity|right; vm_compute; reflexivity|reflexivity|eexists; vm_compute; reflexivity|vm_compute; reflexivity].
Defined.

Lemma own_ids_route_home_witness :
  new_job_id demo_cfg [0x01; 0x23; 0x45; 0x67; 0x89] (custom_epoch + 97445999999999) = Ok demo_id /\
  slot_from_job_id demo_id = Ok "bol-dev-42"%string.
Proof.
  split; [vm_compute; reflexivity|].
  apply (own_ids_route_home demo_cfg [0x01; 0x23; 0x45; 0x67; 0x89] (custom_epoch + 97445999999999)).
  - by vm_compute.
  - apply (bool_decide_unpack _). by vm_compute.
  - vm_compute. reflexivity.
Defined.
