(* ===== verification/WorkerServer.v ===== *)
(** * The worker server ([worker_server.rs]) and the remote pool's configuration

    The HTTP server in front of all remote pools: registration, the lazy bind
    of its listener, and the dispatch of a request to the router of the pool
    its path names.  Routers, the listener and the URI parser are parameters. *)
From Stdlib Require Import Ascii.
From S2P Require Import Prelude Json Errors.

(** ** Pool names *)

Definition is_ascii_alphanumeric (c : Z) : bool :=
  ((48 <=? c) && (c <=? 57)) || ((65 <=? c) && (c <=? 90)) || ((97 <=? c) && (c <=? 122)).

Definition pool_char (c : Z) : bool := is_ascii_alphanumeric c || (c =? 95) || (c =? 45).

(** [char_text] renders a character in an error message. *)
Definition validate_pool_name (char_text : Z -> string) (name : string) : result string unit :=
  if decide (name = "") then Err "pool name must not be empty"
  else match find (fun c => negb (pool_char c)) (chars name) with
       | Some ch => Err ("pool name '" ++ name ++ "' contains invalid character '" ++ char_text ch
                         ++ "'; only alphanumeric characters, underscores, and hyphens are allowed")
       | None => Ok tt
       end%string.

(** ** Paths *)

Definition strip_slash (path : string) : string :=
  match path with String c rest => if decide (c = "/"%char) then rest else path | EmptyString => path end.

(** The text before the first slash and the text from it on. *)
Fixpoint split_slash (s : string) : option (string * string) :=
  match s with
  | EmptyString => None
  | String c s' =>
      if decide (c = "/"%char) then Some (""%string, s)
      else match split_slash s' with Some (a, b) => Some (String c a, b) | None => None end
  end.

Definition extract_pool_and_rest (path : string) : string * string :=
  let after_slash := strip_slash path in
  match split_slash after_slash with
  | Some (pool, rest) => (pool, rest)
  | None => if decide (after_slash = "") then ("", "/")%string else (after_slash, "/"%string)
  end.

(** ** The server *)

(** [started]: the cell is set; [listening]: a listener was bound and serves. *)
Record WorkerServer (R : Type) : Type := mkWorkerServer {
  host : string;
  port : Z;
  advertised_addr : option string;
  pools : gmap string R;
  started : bool;
  listening : bool;
  shutdown_sent : bool
}.
Arguments mkWorkerServer {R}. Arguments host {R}. Arguments port {R}. Arguments advertised_addr {R}.
Arguments pools {R}. Arguments started {R}. Arguments listening {R}. Arguments shutdown_sent {R}.

Section server.
Context {R : Type} (char_text : Z -> string).

Definition with_advertised_addr (host : string) (port : Z) (addr : option string) : WorkerServer R :=
  mkWorkerServer host port addr ∅ false false false.
Definition new (host : string) (port : Z) : WorkerServer R := with_advertised_addr host port None.

Definition with_pools (m : gmap string R) (ws : WorkerServer R) : WorkerServer R :=
  mkWorkerServer ws.(host) ws.(port) ws.(advertised_addr) m ws.(started) ws.(listening) ws.(shutdown_sent).
Definition with_started (l : bool) (ws : WorkerServer R) : WorkerServer R :=
  mkWorkerServer ws.(host) ws.(port) ws.(advertised_addr) ws.(pools) true l ws.(shutdown_sent).

Definition address (ws : WorkerServer R) : string := (ws.(host) ++ ":" ++ pretty ws.(port))%string.

Definition callback_url (ws : WorkerServer R) (pool_name : string) : option string :=
  (fun addr => "http://" ++ trim_end "/" addr ++ "/" ++ pool_name)%string <$> ws.(advertised_addr).

Definition shutdown (ws : WorkerServer R) : WorkerServer R :=
  mkWorkerServer ws.(host) ws.(port) ws.(advertised_addr) ws.(pools) ws.(started) ws.(listening) true.

(** What the three steps of taking a listener answer: bind, set non-blocking,
    convert. *)
Record Listener : Type := mkListener {
  bind_to : result string unit;
  set_nonblocking : result string unit;
  from_std : result string unit
}.

(** The cell is set before the bind is tried. *)
Definition ensure_started (l : Listener) (ws : WorkerServer R) : result string unit * WorkerServer R :=
  if ws.(started) then (Ok tt, ws)
  else
    let bind_addr := address ws in
    let r :=
      let? _ := map_err (fun e => "worker server failed to bind to " ++ bind_addr ++ ": " ++ e)%string l.(bind_to) in
      let? _ := map_err (fun e => "worker server: failed to set non-blocking on listener: " ++ e)%string
                  l.(set_nonblocking) in
      map_err (fun e => "worker server: failed to convert listener to async: " ++ e)%string l.(from_std) in
    (r, with_started (is_ok r) ws).

Definition register_pool (l : Listener) (pool_name : string) (router : R) (ws : WorkerServer R)
    : result string unit * WorkerServer R :=
  match validate_pool_name char_text pool_name with
  | Err e => (Err e, ws)
  | Ok _ => ensure_started l (with_pools (<[pool_name := router]> ws.(pools)) ws)
  end.

Definition start (l : Listener) (ws : WorkerServer R) : result string unit * WorkerServer R :=
  if decide (ws.(pools) = ∅) then (Ok tt, ws) else ensure_started l ws.

(** ** Requests *)

Context {Req Resp : Type} (call : R -> string -> Req -> Resp) (parse_path_and_query : string -> bool)
  (uri_from_parts : string -> Req -> bool).

Inductive PoolResponse : Type :=
| Plain (status : Z) (text : string)
| Routed (response : Resp).

(** The pools in the order the map lists them. *)
Definition available_pools_string (ws : WorkerServer R) : string :=
  String.concat ", " (map_to_list ws.(pools)).*1.

Definition dispatch_to_pool (ws : WorkerServer R) (path : string) (query : option string) (req : Req) : PoolResponse :=
  let '(pool_name, rest_path) := extract_pool_and_rest path in
  if decide (pool_name = "") then
    Plain 404 ("no pool specified; available pools: [" ++ available_pools_string ws ++ "]")
  else
    match ws.(pools) !! pool_name with
    | None => Plain 404 ("pool '" ++ pool_name ++ "' not found; available pools: [" ++ available_pools_string ws ++ "]")
    | Some router =>
        let new_pq := match query with Some q => rest_path ++ "?" ++ q | None => rest_path end in
        if negb (parse_path_and_query new_pq) then Plain 400 "invalid request path"
        else if negb (uri_from_parts new_pq req) then Plain 400 "invalid request URI"
        else Routed (call router new_pq req)
    end%string.
End server.

(** ** Which router a request reaches *)

Lemma valid_name_no_slash char_text name :
  validate_pool_name char_text name = Ok tt -> name <> ""%string /\ has_char "/" name = false.
Proof.
  unfold validate_pool_name. case_decide; [done|].
  destruct (find _ (chars name)) eqn:Hf; [done|]. intros _. split; [done|].
  apply has_char_chars, Forall_forall. intros c Hc%list_elem_of_In. apply (find_none _ _ Hf) in Hc.
  apply negb_false_iff in Hc. unfold pool_char, is_ascii_alphanumeric in Hc. unfold is_ascii.
  change (byte_val "/") with 47. lia.
Qed.

Lemma split_slash_app name rest :
  has_char "/" name = false -> split_slash (name ++ String "/" rest) = Some (name, String "/" rest).
Proof.
  induction name as [|c name IH]; [done|]. cbn [has_char]. rewrite orb_false_iff, bool_decide_eq_false. intros [Hc Hn].
  change ((if decide (c = "/"%char) then Some (""%string, String c (name ++ String "/" rest))
           else match split_slash (name ++ String "/" rest) with Some (a, b) => Some (String c a, b) | None => None end)
          = Some (String c name, String "/" rest)).
  by rewrite decide_False, IH.
Qed.

Lemma split_slash_none name : has_char "/" name = false -> split_slash name = None.
Proof.
  induction name as [|c name IH]; [done|]. cbn [has_char split_slash]. rewrite orb_false_iff, bool_decide_eq_false.
  intros [Hc Hn]. by rewrite decide_False, IH.
Qed.

(** The path below a pool: empty, or from a slash on. *)
Lemma extract_pool name rest :
  name <> ""%string -> has_char "/" name = false ->
  extract_pool_and_rest ("/" ++ name ++ String "/" rest) = (name, String "/" rest) /\
  extract_pool_and_rest ("/" ++ name) = (name, "/"%string).
Proof.
  intros Hne Hn. unfold extract_pool_and_rest.
  change (strip_slash ("/" ++ name ++ String "/" rest)) with (name ++ String "/" rest)%string.
  change (strip_slash ("/" ++ name)) with name.
  rewrite split_slash_app, split_slash_none by done. split; [done|]. by rewrite decide_False.
Qed.

Section reach.
Context {R Req Resp : Type} (char_text : Z -> string) (call : R -> string -> Req -> Resp)
  (parse_path_and_query : string -> bool) (uri_from_parts : string -> Req -> bool).

(** A pool is reachable from its registration on: once [register_pool] has
    answered [Ok], every request under its name, and no other, is handed to its
    router with the rest of the path and the query, before or after the
    listener was already serving, until the name is registered again. *)
Theorem pool_reachable l name router (ws ws' : WorkerServer R) rest query req :
  let pq := match query with Some q => String "/" rest ++ "?" ++ q | None => String "/" rest end%string in
  register_pool char_text l name router ws = (Ok tt, ws') ->
  parse_path_and_query pq = true -> uri_from_parts pq req = true ->
  dispatch_to_pool call parse_path_and_query uri_from_parts ws' ("/" ++ name ++ String "/" rest) query req
    = Routed (call router pq req) /\
  forall other, other <> name -> ws'.(pools) !! other = ws.(pools) !! other.
Proof.
  intros pq. unfold register_pool. destruct (validate_pool_name char_text name) as [[]|e] eqn:Hv; [|done].
  apply valid_name_no_slash in Hv as [Hne Hns]. intros He Hpq Huri.
  assert (ws'.(pools) = <[name := router]> ws.(pools)) as Hpools.
  { unfold ensure_started in He. by destruct (started _); inversion He. }
  split; [|intros other Ho; by rewrite Hpools, lookup_insert_ne].
  unfold dispatch_to_pool. rewrite (proj1 (extract_pool name rest Hne Hns)), decide_False by done.
  rewrite Hpools, lookup_insert_eq. fold pq. by rewrite Hpq, Huri.
Qed.
End reach.

(** The listener is taken care of as soon as there is a pool. *)
Definition lazily_started {R} (ws : WorkerServer R) : Prop := ws.(pools) <> ∅ -> ws.(started) = true.

Lemma register_pool_started {R} char_text l name (router : R) ws x ws' :
  register_pool char_text l name router ws = (x, ws') -> lazily_started ws -> lazily_started ws'.
Proof.
  unfold register_pool. destruct (validate_pool_name char_text name); [|by intros [= <- <-]].
  unfold ensure_started. destruct (started _) eqn:Hs; intros [= <- <-] _ _; simpl; by rewrite ?Hs.
Qed.

(** So [start] never has anything left to do. *)
Lemma start_idle {R} l (ws : WorkerServer R) : lazily_started ws -> start l ws = (Ok tt, ws).
Proof.
  intros Hws. unfold start. case_decide as Hp; [done|]. unfold ensure_started. by rewrite (Hws Hp).
Qed.

(** A bind that fails is reported once: the cell is already set, so the next
    registration answers [Ok] although nothing listens. *)
Example bind_failure_reported_once :
  let failing := mkListener (Err "address in use") (Ok tt) (Ok tt) in
  let '(r1, ws1) := register_pool (R:=unit) (fun _ => "?"%string) failing "a" tt (new "0.0.0.0" 9001) in
  let '(r2, ws2) := register_pool (fun _ => "?"%string) failing "b" tt ws1 in
  is_ok r1 = false /\ r2 = Ok tt /\ ws2.(listening) = false.
Proof. by vm_compute. Qed.

Lemma pool_reachable_witness :
  let l := mkListener (Ok tt) (Ok tt) (Ok tt) in
  let ws' := (register_pool (fun _ => "?"%string) l "mars-1" 7 (new "0.0.0.0" 9001)).2 in
  dispatch_to_pool (fun r pq (_ : unit) => (r, pq)) (fun _ => true) (fun _ _ => true) ws'
    "/mars-1/work" (Some "timeout_ms=5"%string) tt = Routed (7, "/work?timeout_ms=5"%string).
Proof.
  apply (pool_reachable (fun _ => "?"%string) (fun r pq (_ : unit) => (r, pq)) (fun _ => true) (fun _ _ => true)
           (mkListener (Ok tt) (Ok tt) (Ok tt)) "mars-1" 7 (new "0.0.0.0" 9001) _ "work" (Some "timeout_ms=5"%string) tt);
    vm_compute; reflexivity.
Defined.

(** ** The remote pool's configuration ([remote_pool.rs]) *)

Section remote_pool_config.
Context {V F : Type} `{JsonValue V} (as_f64 : V -> result string F) (sixty : F)
  (unknown_field_text : string -> string).

(** The visitor over the entries of the map, in order. *)
Fixpoint visit_map (entries : list (string * V)) (heartbeat_timeout_secs : option F) : result string F :=
  match entries with
  | [] => Ok (default sixty heartbeat_timeout_secs)
  | (key, value) :: entries =>
      if decide (key = "heartbeat_timeout_secs") then
        match heartbeat_timeout_secs with
        | Some _ => Err "duplicate field `heartbeat_timeout_secs`"
        | None => let? v := as_f64 value in visit_map entries (Some v)
        end
      else if decide (key = "bind") then
        Err "remote_pool.bind has been removed; configure host and port at bits.worker_server instead"
      else Err (unknown_field_text key)
  end%string.

(** What it accepts: nothing but one timeout, which is 60 s by default. *)
Lemma visit_map_accepts entries hb :
  visit_map entries None = Ok hb ->
  entries = [] /\ hb = sixty \/
  exists v, entries = [("heartbeat_timeout_secs"%string, v)] /\ as_f64 v = Ok hb.
Proof.
  destruct entries as [|[k v] entries]; simpl; [intros [= <-]; by left|].
  case_decide; [subst|case_decide; done]. destruct (as_f64 v) as [f|] eqn:Hf; [|done].
  destruct entries as [|[k' v'] entries]; simpl; [intros [= <-]; right; by eauto|].
  case_decide; [done|]. by case_decide.
Qed.
End remote_pool_config.
