(* ===== verification/Registry.v ===== *)
(** * The action registry ([actions/registry.rs])

    Built-in factories, collected at compile time, and factories registered at
    run time under names of their own. *)
From S2P Require Import Prelude Errors Routing.

Section registry.
Context {V W D : Type}.
Notation Action := (@Action V W D).

Notation ActionFactory := (V -> result ActionError Action).

Record Registry : Type := mkRegistry {
  inventory : list (string * ActionFactory);
  runtime_registry : gmap string ActionFactory
}.

Fixpoint inventory_get (name : string) (l : list (string * ActionFactory)) : option ActionFactory :=
  match l with
  | [] => None
  | (n, factory) :: l => if decide (n = name) then Some factory else inventory_get name l
  end.

Definition register_runtime_action (name : string) (factory : ActionFactory) (r : Registry)
    : result ActionError unit * Registry :=
  match inventory_get name r.(inventory) with
  | Some _ => (Err (ActionConfigError ("Cannot register '" ++ name ++ "': conflicts with a built-in action")), r)
  | None =>
      match r.(runtime_registry) !! name with
      | Some _ => (Err (ActionConfigError ("Cannot register '" ++ name
                          ++ "': already registered as a runtime action")), r)
      | None => (Ok tt, mkRegistry r.(inventory) (<[name := factory]> r.(runtime_registry)))
      end
  end%string.

Definition list_actions (r : Registry) : list string :=
  r.(inventory).*1 ++ (map_to_list r.(runtime_registry)).*1.

(** Run-time registrations come first. *)
Definition create_action (r : Registry) (name : string) (config : V) : result ActionError Action :=
  match r.(runtime_registry) !! name with
  | Some factory => factory config
  | None =>
      match inventory_get name r.(inventory) with
      | Some factory => factory config
      | None => Err (ActionConfigError ("Unknown action: '" ++ name ++ "'. Available actions: ["
                       ++ String.concat ", " (list_actions r) ++ "]"))
      end
  end%string.

Lemma inventory_get_None name l : inventory_get name l = None <-> name ∉ l.*1.
Proof.
  induction l as [|[n f] l IH]; simpl; [by split; [intros _ ?%elem_of_nil|]|].
  rewrite not_elem_of_cons. case_decide; [naive_solver|]. rewrite IH. naive_solver.
Qed.

(** A name stands for one factory for good: a registration succeeds exactly for
    a name that is not listed yet, the name then creates what its factory
    creates, and no registration, successful or not, changes what a listed name
    creates. *)
Theorem registration_stable name factory r x r' :
  register_runtime_action name factory r = (x, r') ->
  (is_ok x = true <-> name ∉ list_actions r) /\
  (is_ok x = true -> forall config, create_action r' name config = factory config) /\
  (forall other config, other ∈ list_actions r -> create_action r' other config = create_action r other config).
Proof.
  unfold register_runtime_action, list_actions. rewrite not_elem_of_app.
  assert (name ∉ (map_to_list r.(runtime_registry)).*1 <-> r.(runtime_registry) !! name = None) as Hrun.
  { rewrite list_elem_of_fmap, eq_None_not_Some. split.
    - intros Hn [f Hf]. apply Hn. exists (name, f). split; [done|]. by apply elem_of_map_to_list.
    - intros Hn ([n f] & -> & Hf%elem_of_map_to_list). apply Hn. by exists f. }
  rewrite Hrun, <- inventory_get_None. clear Hrun.
  destruct (inventory_get name r.(inventory)) eqn:Hinv; [intros [= <- <-]; split_and!; [split; [done|intros [??]; congruence]|done|done]|].
  destruct (r.(runtime_registry) !! name) eqn:Hr; intros [= <- <-]; [split_and!; [split; [done|intros [??]; congruence]|done|done]|].
  split_and!; [done| |].
  - intros _ config. unfold create_action. simpl. by rewrite lookup_insert_eq.
  - intros other config Hother. unfold create_action. simpl.
    destruct (decide (other = name)) as [->|Hne].
    + apply elem_of_app in Hother as [Hin|([n f] & -> & Hf%elem_of_map_to_list)%list_elem_of_fmap];
        [by apply inventory_get_None in Hinv|simpl in *; congruence].
    + rewrite lookup_insert_ne by done. destruct (r.(runtime_registry) !! other) eqn:Ho; [done|].
      destruct (inventory_get other r.(inventory)) eqn:Hio; [done|]. exfalso.
      apply elem_of_app in Hother as [Hin|([n f] & -> & Hf%elem_of_map_to_list)%list_elem_of_fmap];
        [by apply inventory_get_None in Hio|simpl in *; congruence].
Qed.
End registry.

Lemma registration_stable_witness :
  let r := mkRegistry (V:=unit) (W:=unit) (D:=unit)
             [("http"%string, fun _ => Err (ActionConfigError "http"))] ∅ in
  create_action (register_runtime_action "mars" (fun _ => Err (ActionConfigError "mars")) r).2 "http" tt
  = Err (ActionConfigError "http").
Proof.
  destruct (registration_stable "mars" (fun _ : unit => Err (ActionConfigError "mars"))
              (mkRegistry (V:=unit) (W:=unit) (D:=unit)
                 [("http"%string, fun _ => Err (ActionConfigError "http"))] ∅) _ _ (surjective_pairing _)) as (_ & _ & Hs).
  apply (Hs "http"%string tt). vm_compute. left.
Defined.
