(* ===== verification/Config.v ===== *)
(** * Configuration ([config.rs]): values, limits, actions and routes

    The checks of the YAML configuration from single values up to the route
    tree.  [F] is f64 behind [Float]; the deserialisers that serde derives for
    the configuration structs are parameters.  [Bootstrap] has the top level. *)
From Stdlib Require Import Ascii Sorted.
From S2P Require Import Prelude Json Errors RequestId Queue UserLimit Dispatcher Actions WorkerServer Routing Registry.

(** ** f64 *)

(** [try_from_secs_f64] gives nanoseconds or the text of its error;
    [of_ms] is a literal of the source, in thousandths. *)
Class Float (F : Type) : Type := {
  try_from_secs_f64 : F -> result string Z;
  is_finite : F -> bool;
  is_negative_value : F -> bool;
  f64_le : F -> F -> bool;
  of_ms : Z -> F
}.

Definition validation {A} (path reason : string) : result BitsError A := Err (BConfig (Validation path reason)).
Definition missing {A} (path : string) : result BitsError A := Err (BConfig (MissingField path)).
Definition invalid_route {A} (route reason : string) : result BitsError A := Err (BRouting (InvalidRoute route reason)).
Definition invalid_action {A} (route action reason : string) : result BitsError A :=
  Err (BRouting (InvalidAction route action reason)).

Section floats.
Context {F : Type} `{Float F}.

Definition duration_secs (field : string) (secs : F) : result BitsError Z :=
  map_err (fun e => BConfig (Validation field e)) (try_from_secs_f64 secs).

Definition positive_duration_secs (field : string) (secs : F) : result BitsError Z :=
  let? d := duration_secs field secs in
  if d =? 0 then validation field "must be greater than zero" else Ok d.

Lemma positive_duration_ok field secs d :
  positive_duration_secs field secs = Ok d -> try_from_secs_f64 secs = Ok d /\ d <> 0.
Proof.
  unfold positive_duration_secs, duration_secs. destruct (try_from_secs_f64 secs) as [d'|]; [|done]. simpl.
  destruct (Z.eqb_spec d' 0); [done|]. by intros [= <-].
Qed.

(** The loop over the buckets; [prev] is the one before. *)
Fixpoint validate_bucket_list (field : string) (prev : option F) (buckets : list F) : result BitsError unit :=
  match buckets with
  | [] => Ok tt
  | b :: buckets =>
      if negb (is_finite b) then validation field "must be finite (no NaN or infinity)"
      else if is_negative_value b then validation field "must not be negative"
      else if match prev with Some p => f64_le b p | None => false end
           then validation field "must be strictly increasing"
           else validate_bucket_list field (Some b) buckets
  end.

Definition validate_buckets (field : string) (buckets : list F) : result BitsError unit :=
  match buckets with
  | [] => validation field "must not be empty"
  | _ => validate_bucket_list field None buckets
  end.

Definition above (p b : F) : Prop := f64_le b p = false.

Lemma validate_bucket_list_ok field prev buckets :
  validate_bucket_list field prev buckets = Ok tt <->
  Forall (fun b => is_finite b = true /\ is_negative_value b = false) buckets /\
  Sorted above (option_list prev ++ buckets).
Proof.
  revert prev; induction buckets as [|b buckets IH]; intros prev; simpl.
  { rewrite app_nil_r. split; [|done]. intros _. split; [constructor|]. destruct prev; repeat constructor. }
  destruct (is_finite b) eqn:Hf; simpl; [|split; [done|intros [[[??] _]%Forall_cons _]; congruence]].
  destruct (is_negative_value b) eqn:Hn; [split; [done|intros [[[??] _]%Forall_cons _]; congruence]|].
  destruct prev as [p|]; simpl.
  - destruct (f64_le b p) eqn:Hle.
    + split; [done|]. intros [_ Hs]. inversion Hs as [|?? _ Hhd]; subst. inversion Hhd; subst. unfold above in *. congruence.
    + rewrite IH. simpl. split; intros [Hall Hs].
      * split; [by constructor|]. constructor; [done|]. by constructor.
      * apply Forall_cons in Hall as [_ Hall]. by inversion Hs.
  - rewrite IH. simpl. split; intros [Hall Hs]; (split; [|done]); [by constructor|by apply Forall_cons in Hall as [_ Hall]].
Qed.

(** Buckets are accepted exactly when there is one at least, all are finite and
    not negative, and each is above the one before. *)
Theorem validate_buckets_iff field buckets :
  validate_buckets field buckets = Ok tt <->
  buckets <> [] /\ Forall (fun b => is_finite b = true /\ is_negative_value b = false) buckets /\ Sorted above buckets.
Proof.
  unfold validate_buckets. destruct buckets as [|b buckets]; [split; [done|by intros []]|].
  rewrite validate_bucket_list_ok. simpl. naive_solver.
Qed.
End floats.

(** ** Tags and ceilings *)

Definition usize_max : Z := u64_max.

Section values.
Context {V : Type} `{JsonValue V}.

(** [Display] of the error of [pack_tag]. *)
Context (tag_error_text : EncodeError -> string).

Definition require_site_env_tag (field : string) (value : option V) : result BitsError string :=
  match value with
  | None => missing field
  | Some value =>
      let? tag := match view value with
                  | VString tag => Ok tag
                  | VNumber (Some n) text => Ok text
                  | _ => validation field "must be a string or unsigned integer tag"
                  end in
      match pack_tag tag with
      | Ok _ => Ok tag
      | Err err => validation field (tag_error_text err)
      end
  end.

Definition parse_ceiling (value : V) (path : string) : result BitsError Z :=
  match as_u64 value with
  | None => validation path "must be a non-negative integer"
  | Some n => if n <=? usize_max then Ok n else validation path "value too large for this platform"
  end.

(** ** Per-user limits *)

(** The first key that is not one of [known]. *)
Definition unknown_key (known : list string) (entries : list (string * V)) : option string :=
  find (fun key => negb (bool_decide (key ∈ known))) entries.*1.

Definition as_object_or (path : string) (v : V) : result BitsError (list (string * V)) :=
  ok_or (as_object v) (BConfig (Validation path "must be an object")).

Definition opt_ceiling (path : string) (o : option V) : result BitsError (option Z) :=
  transpose (fun m => parse_ceiling m path) o.

Fixpoint parse_roles (realm_path : string) (entries : list (string * V)) (roles : gmap string Z)
    : result BitsError (gmap string Z) :=
  match entries with
  | [] => Ok roles
  | (role, role_value) :: entries =>
      let? c := parse_ceiling role_value (realm_path ++ ".roles." ++ role) in
      parse_roles realm_path entries (<[role := c]> roles)
  end.

Definition parse_realm (realm : string) (realm_value : V) : result BitsError RealmLimit :=
  let realm_path := ("dispatcher.user_limit.realms." ++ realm)%string in
  let? realm_obj := as_object_or realm_path realm_value in
  match unknown_key ["max"; "roles"]%string realm_obj with
  | Some key => validation realm_path ("unknown field '" ++ key ++ "' (expected 'max' and/or 'roles')")
  | None =>
      let? realm_default := opt_ceiling (realm_path ++ ".max") (map_get "max" realm_obj) in
      let? roles := match map_get "roles" realm_obj with
                    | None => Ok ∅
                    | Some roles_value =>
                        let? roles_obj := as_object_or (realm_path ++ ".roles") roles_value in
                        parse_roles realm_path roles_obj ∅
                    end in
      if bool_decide (realm_default = None) && bool_decide (roles = ∅)
      then validation realm_path "must define 'max' and/or a non-empty 'roles' map"
      else Ok (mkRealmLimit realm_default roles)
  end.

Fixpoint parse_realms (entries : list (string * V)) (realms : gmap string RealmLimit)
    : result BitsError (gmap string RealmLimit) :=
  match entries with
  | [] => Ok realms
  | (realm, realm_value) :: entries =>
      let? r := parse_realm realm realm_value in
      parse_realms entries (<[realm := r]> realms)
  end.

Definition parse_user_limit (value : V) : result BitsError UserLimitConfig :=
  let? obj := as_object_or "dispatcher.user_limit" value in
  let? dflt := opt_ceiling "dispatcher.user_limit.max" (map_get "max" obj) in
  match unknown_key ["max"; "realms"]%string obj with
  | Some key => validation "dispatcher.user_limit"
                  ("unknown field '" ++ key ++ "' (expected 'max' and/or 'realms')")
  | None =>
      let? realms := match map_get "realms" obj with
                     | None => Ok ∅
                     | Some realms_value =>
                         let? realms_obj := as_object_or "dispatcher.user_limit.realms" realms_value in
                         parse_realms realms_obj ∅
                     end in
      if bool_decide (dflt = None) && bool_decide (realms = ∅)
      then validation "dispatcher.user_limit" "must define a global 'max' and/or at least one realm block"
      else Ok (mkUserLimitConfig dflt realms)
  end.

(** ** What a well-formed limit block is *)

Definition ceiling_ok (v : V) : Prop := exists n, as_u64 v = Some n /\ n <= usize_max.
Definition keys_in (known : list string) (entries : list (string * V)) : Prop := Forall (fun k => k ∈ known) entries.*1.
Definition if_present (o : option V) (P : V -> Prop) : Prop := match o with Some v => P v | None => True end.

(** An object all of whose values satisfy [P]. *)
Definition object_of (P : V -> Prop) (v : V) : Prop := exists l, as_object v = Some l /\ Forall (fun e => P e.2) l.
Definition non_empty_object (v : V) : Prop := exists e l, as_object v = Some (e :: l).

Definition realm_ok (v : V) : Prop := exists l, as_object v = Some l /\ keys_in ["max"; "roles"]%string l /\
  if_present (map_get "max" l) ceiling_ok /\ if_present (map_get "roles" l) (object_of ceiling_ok) /\
  (map_get "max" l <> None \/ exists r, map_get "roles" l = Some r /\ non_empty_object r).

Definition user_limit_ok (v : V) : Prop := exists l, as_object v = Some l /\ keys_in ["max"; "realms"]%string l /\
  if_present (map_get "max" l) ceiling_ok /\ if_present (map_get "realms" l) (object_of realm_ok) /\
  (map_get "max" l <> None \/ exists r, map_get "realms" l = Some r /\ non_empty_object r).

Lemma parse_ceiling_ok v path : (exists n, parse_ceiling v path = Ok n) <-> ceiling_ok v.
Proof.
  unfold parse_ceiling, ceiling_ok. destruct (as_u64 v) as [n|]; [|split; intros (? & ?); naive_solver].
  destruct (Z.leb_spec n usize_max); split; intros (m & Hm); [by exists n|by exists n|done|].
  destruct Hm as [[= <-] ?]. lia.
Qed.

Lemma opt_ceiling_ok path o : (exists d, opt_ceiling path o = Ok d) <-> if_present o ceiling_ok.
Proof.
  unfold opt_ceiling, transpose, if_present. destruct o as [v|]; [|split; [done|by exists None]].
  rewrite <- (parse_ceiling_ok v path). destruct (parse_ceiling v path); simpl; split; intros [? ?]; naive_solver.
Qed.

Lemma unknown_key_None known l : unknown_key known l = None <-> keys_in known l.
Proof.
  unfold unknown_key, keys_in. rewrite Forall_forall. split.
  - intros Hf k Hk%list_elem_of_In. apply (find_none _ _ Hf) in Hk. by apply negb_false_iff, bool_decide_eq_true in Hk.
  - intros Hall. destruct (find _ l.*1) as [k|] eqn:Hf; [|done]. apply find_some in Hf as [Hin Hk].
    apply list_elem_of_In, Hall in Hin. by rewrite bool_decide_true in Hk.
Qed.

(** A fold that inserts what each value parses to: it succeeds exactly when
    each does, and is empty only for no entries. *)
Lemma parse_roles_ok path l m :
  (exists m', parse_roles path l m = Ok m') <-> Forall (fun e => ceiling_ok e.2) l.
Proof.
  revert m; induction l as [|[k v] l IH]; intros m; simpl; [split; [by constructor|by eexists]|].
  rewrite Forall_cons, <- (parse_ceiling_ok v (path ++ ".roles." ++ k)). simpl.
  destruct (parse_ceiling v _) as [c|]; [|split; [by intros []|by intros [[] _]]].
  rewrite IH. split; [intros; split; [by eexists|done]|by intros []].
Qed.

Lemma parse_roles_empty path l m m' : parse_roles path l m = Ok m' -> (m' = ∅ <-> m = ∅ /\ l = []).
Proof.
  revert m; induction l as [|[k v] l IH]; intros m; simpl; [intros [= <-]; naive_solver|].
  destruct (parse_ceiling v _) as [c|]; [|done]. intros ->%IH. split; [|naive_solver].
  intros [Hi _]. by apply insert_non_empty in Hi.
Qed.

(** The optional map of a block: absent, or an object whose fold succeeds. *)
Lemma optional_map_ok {B} path (fold : list (string * V) -> result BitsError B) (dflt : B) (P : V -> Prop) o :
  (forall l, (exists m, fold l = Ok m) <-> Forall (fun e => P e.2) l) ->
  (exists m, match o with
             | None => Ok dflt
             | Some v => let? l := as_object_or path v in fold l
             end = Ok m) <-> if_present o (object_of P).
Proof.
  intros Hfold. destruct o as [v|]; simpl; [|split; [done|by eexists]].
  unfold as_object_or, object_of. destruct (as_object v) as [l|]; simpl; [|split; [by intros []|by intros (? & [=] & _)]].
  rewrite Hfold. split; [by eexists|by intros (? & [= <-] & ?)].
Qed.

Lemma optional_map_empty {B} path (fold : list (string * V) -> result BitsError B) (dflt : B) o m :
  (forall l m, fold l = Ok m -> m = dflt <-> l = []) ->
  match o with None => Ok dflt | Some v => let? l := as_object_or path v in fold l end = Ok m ->
  m <> dflt <-> exists v, o = Some v /\ non_empty_object v.
Proof.
  intros Hfold. destruct o as [v|]; simpl; [|intros [= <-]; naive_solver].
  unfold as_object_or, non_empty_object. destruct (as_object v) as [l|] eqn:Hl; simpl; [|done].
  intros Hm%Hfold. rewrite Hm. split; [intros Hne; exists v; destruct l; naive_solver|].
  intros (v' & [= <-] & e & l' & Hv). rewrite Hl in Hv. injection Hv as ->. done.
Qed.

Lemma opt_ceiling_None path o d : opt_ceiling path o = Ok d -> d = None <-> o = None.
Proof.
  unfold opt_ceiling, transpose. destruct o as [v|]; [|by intros [= <-]].
  destruct (parse_ceiling v path); simpl; naive_solver.
Qed.

(** The last check of a block: something in it must be set. *)
Lemma something_set {A B C E} (d : option A) `{!Decision (d = None)} (m dflt : B) `{!Decision (m = dflt)} (e : E)
    (x : C) :
  (exists y, (if bool_decide (d = None) && bool_decide (m = dflt) then Err e else Ok x) = Ok y) <->
  d <> None \/ m <> dflt.
Proof.
  destruct (decide (d = None)), (decide (m = dflt));
    rewrite ?(bool_decide_true (d = None)), ?(bool_decide_false (d = None)), ?(bool_decide_true (m = dflt)),
      ?(bool_decide_false (m = dflt)) by done; simpl; split; [by intros []|naive_solver|by right|by eexists|by left|by eexists|by left|by eexists].
Qed.

Lemma parse_realm_ok realm v : (exists r, parse_realm realm v = Ok r) <-> realm_ok v.
Proof.
  unfold parse_realm, realm_ok. unfold as_object_or at 1.
  destruct (as_object v) as [l|]; simpl; [|split; [by intros []|by intros (? & [=] & _)]].
  destruct (unknown_key _ l) eqn:Hkey.
  { split; [by intros []|intros (? & [= <-] & Hk & _)]. apply unknown_key_None in Hk. congruence. }
  apply unknown_key_None in Hkey. set (path := ("dispatcher.user_limit.realms." ++ realm)%string).
  pose proof (opt_ceiling_ok (path ++ ".max") (map_get "max" l)) as Hmax.
  pose proof (optional_map_ok (path ++ ".roles") (fun l => parse_roles path l ∅) ∅ ceiling_ok (map_get "roles" l)
                (fun l => parse_roles_ok path l ∅)) as Hroles.
  destruct (opt_ceiling _ _) as [d|] eqn:Hd.
  2: { split; [by intros []|intros (? & [= <-] & _ & Hm & _)]. by apply Hmax in Hm as []. }
  destruct (match map_get "roles" l with None => _ | Some _ => _ end) as [rs|] eqn:Hr.
  2: { split; [by intros []|intros (? & [= <-] & _ & _ & Hm & _)]. by apply Hroles in Hm as []. }
  assert (rs <> ∅ <-> exists r, map_get "roles" l = Some r /\ non_empty_object r) as Hne.
  { eapply (optional_map_empty (path ++ ".roles") (fun l => parse_roles path l ∅)); [|exact Hr].
    intros l' m Hm%parse_roles_empty. naive_solver. }
  apply opt_ceiling_None in Hd. unfold validation. rewrite something_set, Hne, Hd. split.
  - intros Hset. exists l. split_and!; [done|done|apply Hmax; by eexists|apply Hroles; by eexists|done].
  - by intros (? & [= <-] & _ & _ & _ & Hset).
Qed.

Lemma parse_realms_ok l m : (exists m', parse_realms l m = Ok m') <-> Forall (fun e => realm_ok e.2) l.
Proof.
  revert m; induction l as [|[k v] l IH]; intros m; simpl; [split; [by constructor|by eexists]|].
  rewrite Forall_cons, <- (parse_realm_ok k v). simpl.
  destruct (parse_realm k v) as [c|]; [|split; [by intros []|by intros [[] _]]].
  rewrite IH. split; [intros; split; [by eexists|done]|by intros []].
Qed.

Lemma parse_realms_empty l m m' : parse_realms l m = Ok m' -> (m' = ∅ <-> m = ∅ /\ l = []).
Proof.
  revert m; induction l as [|[k v] l IH]; intros m; simpl; [intros [= <-]; naive_solver|].
  destruct (parse_realm k v) as [c|]; [|done]. intros ->%IH. split; [|naive_solver].
  intros [Hi _]. by apply insert_non_empty in Hi.
Qed.

(** C30. Limit blocks are accepted exactly when they are well formed: an object with
    no other key than [max] and [realms], every ceiling an integer that fits,
    every realm an object with [max] or some role, and a ceiling somewhere.  So
    a misspelt key or an empty block is rejected instead of leaving users
    without a cap. *)
Theorem parse_user_limit_iff v : (exists cfg, parse_user_limit v = Ok cfg) <-> user_limit_ok v.
Proof.
  unfold parse_user_limit, user_limit_ok. unfold as_object_or at 1.
  destruct (as_object v) as [l|]; simpl; [|split; [by intros []|by intros (? & [=] & _)]].
  pose proof (opt_ceiling_ok "dispatcher.user_limit.max" (map_get "max" l)) as Hmax.
  pose proof (optional_map_ok "dispatcher.user_limit.realms" (fun l => parse_realms l ∅) ∅ realm_ok (map_get "realms" l)
                (fun l => parse_realms_ok l ∅)) as Hrealms.
  destruct (opt_ceiling _ _) as [d|] eqn:Hd.
  2: { split; [by intros []|intros (? & [= <-] & _ & Hm & _)]. by apply Hmax in Hm as []. }
  destruct (unknown_key _ l) eqn:Hkey.
  { split; [by intros []|intros (? & [= <-] & Hk & _)]. apply unknown_key_None in Hk. congruence. }
  apply unknown_key_None in Hkey.
  destruct (match map_get "realms" l with None => _ | Some _ => _ end) as [rs|] eqn:Hr.
  2: { split; [by intros []|intros (? & [= <-] & _ & _ & Hm & _)]. by apply Hrealms in Hm as []. }
  assert (rs <> ∅ <-> exists r, map_get "realms" l = Some r /\ non_empty_object r) as Hne.
  { eapply (optional_map_empty "dispatcher.user_limit.realms" (fun l => parse_realms l ∅)); [|exact Hr].
    intros l' m Hm%parse_realms_empty. naive_solver. }
  apply opt_ceiling_None in Hd. unfold validation. rewrite something_set, Hne, Hd. split.
  - intros Hset. exists l. split_and!; [done|done|apply Hmax; by eexists|apply Hrealms; by eexists|done].
  - by intros (? & [= <-] & _ & _ & _ & Hset).
Qed.
End values.

(** ** Dispatcher blocks *)

Definition DEFAULT_QUEUE_CAPACITY : Z := 500000.

Record DispatcherSettings (F : Type) : Type := mkSettings {
  queue : option QueueKind;
  executor : option (ExecutorKind (F:=F));
  queue_capacity : Z;
  user_limit : option UserLimitConfig
}.
Arguments mkSettings {F}. Arguments queue {F}. Arguments executor {F}. Arguments queue_capacity {F}.
Arguments user_limit {F}.

(** A dispatcher that was built: its identity, what it was built of, and its
    limiter with whether it has a store to share its slots through. *)
Record BuiltDispatcher : Type := mkBuilt {
  handle : nat;
  built : dispatcher_config;
  limiter : option (UserLimiter * bool)
}.

(** The first ["::"] of a text and what is around it. *)
Fixpoint split_colons (s : string) : option (string * string) :=
  match s with
  | EmptyString => None
  | String a s' =>
      match s' with
      | String b rest => if decide (a = ":"%char /\ b = ":"%char) then Some (""%string, rest)
                         else match split_colons s' with Some (x, y) => Some (String a x, y) | None => None end
      | EmptyString => None
      end
  end.

Section parse.
Context {V W F : Type} `{JsonValue V} `{Float F}.
Notation Action := (@Action V W BuiltDispatcher).
Notation Route := (@Route V W BuiltDispatcher).
Notation Switch := (@Switch V W BuiltDispatcher).
Notation TargetAction := (@TargetAction V W).
Notation Settings := (DispatcherSettings F).

(** serde on the two enums. *)
Context (decode_queue : V -> result string QueueKind) (decode_executor : V -> result string (ExecutorKind (F:=F))).

Definition default_settings : Settings := mkSettings None None DEFAULT_QUEUE_CAPACITY None.

Definition decode {A} (path target : string) (f : V -> result string A) (v : V) : result BitsError A :=
  map_err (fun e => BConfig (Decode path target e)) (f v).

Definition parse_queue_capacity (o : option V) : result BitsError Z :=
  match o with
  | None => Ok DEFAULT_QUEUE_CAPACITY
  | Some v =>
      match as_u64 v with
      | None => validation "dispatcher.queue_capacity" "must be a positive integer"
      | Some cap =>
          if cap =? 0 then validation "dispatcher.queue_capacity" "must be greater than zero"
          else if cap <=? usize_max then Ok cap
          else validation "dispatcher.queue_capacity" "value too large for this platform"
      end
  end.

Definition parse_dispatcher_fields (dispatcher : option V) : result BitsError Settings :=
  match dispatcher with
  | None => Ok default_settings
  | Some d =>
      let? map := as_object_or "dispatcher" d in
      let? q := transpose (decode "dispatcher.queue" "QueueKind" decode_queue) (map_get "queue" map) in
      let? ex := transpose (decode "dispatcher.executor" "ExecutorKind" decode_executor) (map_get "executor" map) in
      let? cap := parse_queue_capacity (map_get "queue_capacity" map) in
      let? ul := transpose parse_user_limit (map_get "user_limit" map) in
      if contains_key "concurrency" map
      then validation "dispatcher.concurrency" "removed; set concurrency inside the executor block instead"
      else if contains_key "persistent" map || contains_key "lock_ttl_secs" map
      then validation "dispatcher" "persistent/lock_ttl_secs removed; use bits.persist_after_secs policy"
      else Ok (mkSettings q ex cap ul)
  end.

(** ** The parse context *)

Record Registries : Type := mkRegistries {
  checks : gmap string V;
  transforms : gmap string V;
  targets : gmap string V
}.

Notation ResolvedTarget := (TargetAction * option BuiltDispatcher * option bool)%type.

(** What parsing changes: the cache of named targets, the worker server its
    pools are registered with, the identities handed out, and the names of the
    targets that were built for the cache. *)
Record ParseState : Type := mkParseState {
  resolved_targets : gmap string ResolvedTarget;
  worker_server : option (WorkerServer nat);
  next_handle : nat;
  cached : list string
}.

Definition with_resolved (name : string) (t : ResolvedTarget) (st : ParseState) : ParseState :=
  mkParseState (<[name := t]> st.(resolved_targets)) st.(worker_server) st.(next_handle) (name :: st.(cached)).

(** A step of the parser; [None] is the end of the fuel. *)
Definition P (A : Type) : Type := ParseState -> option (result BitsError A * ParseState).

Definition ret {A} (a : A) : P A := fun st => Some (Ok a, st).
Definition of_result {A} (r : result BitsError A) : P A := fun st => Some (r, st).
Definition bind {A B} (m : P A) (k : A -> P B) : P B := fun st =>
  match m st with
  | None => None
  | Some (Err e, st) => Some (Err e, st)
  | Some (Ok a, st) => k a st
  end.
Notation "'let*' x ':=' m 'in' k" := (bind m (fun x => k))
  (at level 10, x pattern, m at level 100, k at level 200).

(** [iter().map(f).collect::<Result<Vec<_>, _>>()]. *)
Fixpoint collect_p {A B} (f : A -> P B) (l : list A) : P (list B) :=
  match l with
  | [] => ret []
  | a :: l => let* b := f a in let* bs := collect_p f l in ret (b :: bs)
  end.

Context (registry : Registry (V:=V) (W:=W) (D:=BuiltDispatcher)) (registries : Registries) (broker_id : string)
  (has_store : bool) (char_text : Z -> string) (listener : Listener).

(** ** Attaching a dispatcher *)

(** [start_scheduler]: a remote pool registers its router. *)
Definition start_scheduler (ex : Executor) (h : nat) (ws : option (WorkerServer nat))
    : result string unit * option (WorkerServer nat) :=
  match ex, ws with
  | RemotePoolExecutor pool_name _ _, Some ws =>
      let '(r, ws) := register_pool char_text listener pool_name h ws in
      (map_err (fun e => "remote_pool: failed to register pool '" ++ pool_name ++ "': " ++ e)%string r, Some ws)
  | _, _ => (Ok tt, ws)
  end.

Definition build_dispatcher (target_results : bool) (settings : Settings) (pool_name : option string)
    (entry_name : string) : P (option BuiltDispatcher) := fun st =>
  let server := if target_results then callback_url <$> st.(worker_server) else None in
  match from_config try_from_secs_f64 target_results settings.(queue) settings.(executor) pool_name server
          settings.(queue_capacity) with
  | Err e => Some (validation "dispatcher" e, st)
  | Ok None => Some (Ok None, st)
  | Ok (Some cfg) =>
      let '(r, ws) := start_scheduler cfg.(built_executor) st.(next_handle) st.(worker_server) in
      let st' := mkParseState st.(resolved_targets) ws (S st.(next_handle)) st.(cached) in
      match r with
      | Err e => Some (validation "dispatcher" e, st')
      | Ok _ =>
          Some (Ok (Some (mkBuilt st.(next_handle) cfg
                  ((fun c => (UserLimit.new c entry_name broker_id, has_store)) <$> settings.(user_limit)))), st')
      end
  end.

Definition is_remote_pool (settings : Settings) : bool :=
  match settings.(executor) with Some (RemotePool _) => true | _ => false end.

Definition with_executor (ex : ExecutorKind (F:=F)) (s : Settings) : Settings :=
  mkSettings s.(queue) (Some ex) s.(queue_capacity) s.(user_limit).
Definition with_queue (q : QueueKind) (s : Settings) : Settings :=
  mkSettings (Some q) s.(executor) s.(queue_capacity) s.(user_limit).

(** The executor of a remote target defaults to a remote pool, and must be one;
    no other action may have one. *)
Definition remote_settings (is_remote_action : bool) (server : option (WorkerServer nat)) (settings : Settings)
    : result BitsError Settings :=
  if is_remote_action then
    let? settings := match settings.(executor) with
                     | None => Ok (with_executor (RemotePool (of_ms 60000)) settings)
                     | Some (RemotePool _) => Ok settings
                     | Some _ => validation "dispatcher.executor" "'remote' target requires executor: remote_pool"
                     end in
    match server with
    | None => missing "bits.worker_server"
    | Some _ => Ok settings
    end
  else if is_remote_pool settings
       then validation "dispatcher.executor" "remote_pool requires a 'remote' target action"
       else Ok settings.

(** A limit needs a dispatcher to be enforced on. *)
Definition limit_settings (settings : Settings) : Settings :=
  match settings.(user_limit), settings.(queue), settings.(executor) with
  | Some _, None, None => with_queue Fifo settings
  | _, _, _ => settings
  end.

Definition attach_dispatcher (entry_name action_name : string) (action : Action) (settings : Settings)
    (silent : option bool) : P Action := fun st =>
  (let is_remote_action := bool_decide (action_name = "remote"%string) in
   let* settings := of_result (remote_settings is_remote_action st.(worker_server) settings) in
   let settings := limit_settings settings in
   match action with
   | Check a _ _ => let* d := build_dispatcher false settings None entry_name in ret (Check a d silent)
   | Transform a _ _ => let* d := build_dispatcher false settings None entry_name in ret (Transform a d silent)
   | Target a _ _ =>
       let pool_name := if is_remote_action then Some entry_name else None in
       let* d := build_dispatcher true settings pool_name entry_name in ret (Target a d silent)
   | SwitchAction _ =>
       match settings.(queue), settings.(executor) with
       | None, None => ret action
       | _, _ => of_result (validation "dispatcher" "config only valid for Check, Transform, and Target actions")
       end
   end) st.

(** ** Actions *)

Definition parse_silent (o : option V) (e : BitsError) : result BitsError (option bool) :=
  transpose (fun v => ok_or (as_bool v) e) o.

Definition plain_fields (map : list (string * V)) : list (string * V) :=
  filter (fun e => ~ (e.1 = "type"%string \/ e.1 = "dispatcher"%string \/ e.1 = "silent"%string)) map.

Definition action_from_entry (ns entry_name : string) (entry : V) : P Action :=
  let path := (ns ++ "." ++ entry_name)%string in
  let* map := of_result (ok_or (as_object entry)
                (BConfig (Validation path ("must be an object, got: " ++ display entry)))) in
  if contains_key "persistent" map || contains_key "lock_ttl_secs" map
  then of_result (validation path "persistent/lock_ttl_secs removed; use bits.persist_after_secs")
  else
    let* type_name := of_result (ok_or (map_get "type" map ≫= as_str) (BConfig (MissingField (path ++ ".type")))) in
    let* settings := of_result (parse_dispatcher_fields (map_get "dispatcher" map)) in
    let* silent := of_result (parse_silent (map_get "silent" map)
                     (BConfig (Validation (path ++ ".silent") "must be a boolean"))) in
    let config := object (plain_fields map) in
    let* action := of_result (map_err (fun e => BConfig (Validation (path ++ ".type") (ActionError.fmt e)))
                     (create_action registry type_name config)) in
    attach_dispatcher entry_name type_name action settings silent.

Definition unknown_entry (kind ns name route_name : string) : BitsError :=
  BRouting (InvalidAction route_name (ns ++ "::" ++ name) ("unknown " ++ kind ++ " '" ++ name ++ "'")).

Definition cache_target (name : string) (a : Action) : P Action := fun st =>
  Some (Ok a, match a with Target t d surface => with_resolved name (t, d, surface) st | _ => st end).

Definition resolve_named (ns name route_name : string) : P Action :=
  if decide (ns = "check"%string) then
    let* entry := of_result (ok_or (registries.(checks) !! name) (unknown_entry "check" ns name route_name)) in
    action_from_entry ns name entry
  else if decide (ns = "transform"%string) then
    let* entry := of_result (ok_or (registries.(transforms) !! name) (unknown_entry "transform" ns name route_name)) in
    action_from_entry ns name entry
  else if decide (ns = "target"%string) then fun st =>
    match st.(resolved_targets) !! name with
    | Some (target, dispatcher, surface) => Some (Ok (Target target dispatcher surface), st)
    | None =>
        (let* entry := of_result (ok_or (registries.(targets) !! name) (unknown_entry "target" ns name route_name)) in
         let* action := action_from_entry ns name entry in
         cache_target name action) st
    end
  else of_result (invalid_action route_name (ns ++ "::" ++ name) ("unknown namespace '" ++ ns ++ "'")).

Definition validate_inline_action (ns route_name action_name : string) (action : Action) : result BitsError unit :=
  match action with
  | Check _ _ _ => if decide (ns = "check"%string) then Ok tt else
      invalid_action route_name action_name ("inline action namespace '" ++ ns ++ "' does not match action type")
  | Transform _ _ _ => if decide (ns = "transform"%string) then Ok tt else
      invalid_action route_name action_name ("inline action namespace '" ++ ns ++ "' does not match action type")
  | Target _ _ _ => if decide (ns = "target"%string) then Ok tt else
      invalid_action route_name action_name ("inline action namespace '" ++ ns ++ "' does not match action type")
  | SwitchAction _ =>
      invalid_action route_name action_name ("inline action namespace '" ++ ns ++ "' does not match action type")
  end.

Definition split_ns (s route_name : string) : result BitsError (string * string) :=
  ok_or (split_colons s) (BRouting (InvalidAction route_name s "must be namespace::name")).

(** The first entry of an inline action whose key has a namespace. *)
Fixpoint inline_entry (map : list (string * V)) : option (string * string * string * V) :=
  match map with
  | [] => None
  | (key, config) :: map =>
      match split_colons key with
      | Some (ns, name) => Some (key, ns, name, config)
      | None => inline_entry map
      end
  end.

Definition inline_action (map : list (string * V)) (route_name key ns action_name : string) (config : V) : P Action :=
  if decide (action_name = "remote"%string) then
    of_result (invalid_action route_name key
      "target::remote must be defined as a named registry entry (not inline); the pool name is derived from the registry entry name")
  else
    let* action := of_result (map_err (fun e => BRouting (InvalidAction route_name key (ActionError.fmt e)))
                     (create_action registry action_name config)) in
    let* _ := of_result (validate_inline_action ns route_name key action) in
    let* settings := of_result (parse_dispatcher_fields (map_get "dispatcher" map)) in
    let* silent := of_result (parse_silent (map_get "silent" map)
                     (BRouting (InvalidAction route_name key "silent must be a boolean"))) in
    attach_dispatcher action_name action_name action settings silent.

Section parse_action.
Context (nested : V -> string -> P (list Route)).

Definition parse_action (route_name : string) (value : V) : P Action :=
  match view value with
  | VString name =>
      if decide (name = "persist"%string)
      then of_result (invalid_action route_name name
             "'persist' step has been removed; use bits.persist_after_secs instead")
      else let* (ns, entry_name) := of_result (split_ns name route_name) in
           resolve_named ns entry_name route_name
  | VObject map =>
      match map_get "switch" map with
      | Some switch_val =>
          let* routes := nested switch_val "switch" in
          let switch := mkSwitch routes in
          let* _ := of_result (map_err BRouting (validate switch)) in
          ret (SwitchAction switch)
      | None =>
          match inline_entry map with
          | Some (key, ns, action_name, config) => inline_action map route_name key ns action_name config
          | None => of_result (invalid_action route_name (display value) "unrecognised action")
          end
      end
  | _ => of_result (invalid_action route_name (display value) "action must be string or object")
  end.

(** One entry of a list of routes: an object with a single key. *)
Definition parse_entry (section : string) (index : nat) (entry : V) : P Route :=
  let at_index := (section ++ "[" ++ pretty index ++ "]")%string in
  let* map := of_result (ok_or (as_object entry) (BRouting (InvalidRoute at_index "entry must be an object"))) in
  match map with
  | [(name, route_val)] =>
      let* action_values := of_result (ok_or (as_array route_val)
                              (BRouting (InvalidRoute name (section ++ " route must be an array of actions")))) in
      let* actions := collect_p (parse_action name) action_values in
      ret (mkRoute name actions)
  | _ => of_result (invalid_route at_index
           ("entry must have exactly one key (the route name), got " ++ pretty (length map)))
  end.

Fixpoint parse_entries (section : string) (index : nat) (entries : list V) : P (list Route) :=
  match entries with
  | [] => ret []
  | entry :: entries =>
      let* route := parse_entry section index entry in
      let* routes := parse_entries section (S index) entries in
      ret (route :: routes)
  end.
End parse_action.

(** Nested switches are parsed by the same function: the fuel bounds their
    depth. *)
Fixpoint parse_routes (fuel : nat) (value : V) (section : string) : P (list Route) :=
  match fuel with
  | O => fun _ => None
  | S fuel =>
      let* entries := of_result (ok_or (as_array value) (BRouting (InvalidRoute section "must be an array"))) in
      parse_entries (parse_routes fuel) section 0 entries
  end.

(** The merge of a parsed copy into the shared cache: the names that are there
    stay. *)
Definition merge_targets (parsed shared : gmap string ResolvedTarget) : gmap string ResolvedTarget := shared ∪ parsed.

(** [RouteFactory::parse_route]: parses on a copy of the cache, and merges it
    back only when the whole value parsed; the worker server is shared. *)
Definition parse_route (fuel : nat) (name : string) (value : V) : P (list Route) := fun st =>
  match parse_routes fuel value name st with
  | None => None
  | Some (Ok routes, st') =>
      Some (Ok routes, mkParseState (merge_targets st'.(resolved_targets) st.(resolved_targets)) st'.(worker_server)
                         st'.(next_handle) st'.(cached))
  | Some (Err e, st') =>
      Some (Err e, mkParseState st.(resolved_targets) st'.(worker_server) st'.(next_handle) st.(cached))
  end.
End parse.

(** ** What parsing does to its state *)

Section parse_laws.
Context {V W F : Type} `{JsonValue V} `{Float F}.
Notation Action := (@Action V W BuiltDispatcher).
Notation Route := (@Route V W BuiltDispatcher).
Notation State := (@ParseState V W).
Context (decode_queue : V -> result string QueueKind) (decode_executor : V -> result string (ExecutorKind (F:=F))).
Context (registry : Registry (V:=V) (W:=W) (D:=BuiltDispatcher)) (registries : Registries (V:=V)) (broker_id : string)
  (has_store : bool) (char_text : Z -> string) (listener : Listener).

Notation attach := (attach_dispatcher (F:=F) broker_id has_store char_text listener).
Notation from_entry := (action_from_entry decode_queue decode_executor registry broker_id has_store char_text listener).
Notation resolve := (resolve_named decode_queue decode_executor registry registries broker_id has_store char_text listener).
Notation inline := (inline_action decode_queue decode_executor registry broker_id has_store char_text listener).
Notation action_of := (parse_action decode_queue decode_executor registry registries broker_id has_store char_text listener).
Notation entry_of := (parse_entry decode_queue decode_executor registry registries broker_id has_store char_text listener).
Notation entries_of := (parse_entries decode_queue decode_executor registry registries broker_id has_store char_text listener).
Notation routes_of := (parse_routes decode_queue decode_executor registry registries broker_id has_store char_text listener).
Notation route_of := (parse_route decode_queue decode_executor registry registries broker_id has_store char_text listener).

(** Every outcome of a step relates its two states by [R]. *)
Definition keeps (R : State -> State -> Prop) {A} (m : P A) : Prop := forall st r st', m st = Some (r, st') -> R st st'.

Section keeps.
Context (R : State -> State -> Prop) `{!PreOrder R}.

Lemma keeps_ret {A} (a : A) : keeps R (ret a).
Proof. by intros st r st' [= <- <-]. Qed.
Lemma keeps_of_result {A} (x : result BitsError A) : keeps R (of_result x).
Proof. by intros st r st' [= <- <-]. Qed.
Lemma keeps_bind {A B} (m : P A) (k : A -> P B) : keeps R m -> (forall a, keeps R (k a)) -> keeps R (bind m k).
Proof.
  intros Hm Hk st r st'. unfold bind. destruct (m st) as [[[a|e] st1]|] eqn:Hms; [|intros [= <- <-]; by eapply Hm|done].
  intros Hks. etrans; [by eapply Hm|by eapply Hk].
Qed.
Lemma keeps_collect {A B} (f : A -> P B) l : (forall a, keeps R (f a)) -> keeps R (collect_p f l).
Proof.
  intros Hf. induction l as [|a l IH]; [apply keeps_ret|].
  apply keeps_bind; [done|]. intros b. apply keeps_bind; [done|]. intros bs. apply keeps_ret.
Qed.
End keeps.

(** Building actions hands out identities and leaves the cache alone. *)
Definition server_ready (st : State) : Prop :=
  match st.(worker_server) with Some ws => lazily_started ws | None => True end.

Definition builds (st st' : State) : Prop :=
  st'.(resolved_targets) = st.(resolved_targets) /\ st'.(cached) = st.(cached) /\
  (st.(next_handle) <= st'.(next_handle))%nat /\ (server_ready st -> server_ready st').

#[export] Instance builds_preorder : PreOrder builds.
Proof. split; [by intros st|]. intros st1 st2 st3 (? & ? & ? & ?) (? & ? & ? & ?). split_and!; [congruence..|lia|auto]. Qed.

Definition dispatcher_of (a : Action) : option BuiltDispatcher :=
  match a with Check _ d _ | Transform _ d _ | Target _ d _ => d | SwitchAction _ => None end.

(** A dispatcher built between two states is new. *)
Definition fresh_between (st st' : State) (o : option BuiltDispatcher) : Prop :=
  forall d, o = Some d -> (st.(next_handle) <= d.(handle) < st'.(next_handle))%nat.

Lemma start_scheduler_ready ex h ws r ws' :
  start_scheduler char_text listener ex h ws = (r, ws') ->
  match ws with Some w => lazily_started w | None => True end ->
  match ws' with Some w => lazily_started w | None => True end.
Proof.
  unfold start_scheduler. destruct ex as [| |pool hb url], ws as [ws|]; try by intros [= <- <-].
  destruct (register_pool char_text listener pool h ws) as [x ws1] eqn:Hr. intros [= <- <-].
  by eapply register_pool_started.
Qed.

Lemma build_dispatcher_spec tr settings pool entry st r st' :
  build_dispatcher (F:=F) broker_id has_store char_text listener tr settings pool entry st = Some (r, st') ->
  builds st st' /\ forall o, r = Ok o -> fresh_between st st' o.
Proof.
  unfold build_dispatcher. destruct (from_config _ _ _ _ _ _ _) as [[cfg|]|e].
  - destruct (start_scheduler _ _ _ _ _) as [[[]|e] ws] eqn:Hs; pose proof (start_scheduler_ready _ _ _ _ _ Hs);
      intros [= <- <-]; (split; [split_and!; simpl; try done; lia|]); [|done].
    intros o [= <-] d [= <-]. simpl. lia.
  - intros [= <- <-]. split; [done|]. by intros o [= <-].
  - intros [= <- <-]. by split.
Qed.

Lemma attach_spec entry_name action_name (a : Action) settings silent st r st' :
  attach entry_name action_name a settings silent st = Some (r, st') ->
  builds st st' /\ forall a', r = Ok a' -> fresh_between st st' (dispatcher_of a').
Proof.
  unfold attach_dispatcher. unfold bind at 1, of_result.
  destruct (remote_settings _ _ _) as [settings'|e]; [|by intros [= <- <-]].
  destruct a as [c d s|c d s|c d s|sw].
  1-3: unfold bind; destruct (build_dispatcher _ _ _ _ _ _ _ _ st) as [[[o|e] st1]|] eqn:Hb; [..|done];
    apply build_dispatcher_spec in Hb as [Hb Hf]; intros [= <- <-]; (split; [done|]); [|done];
    intros a' [= <-]; by apply Hf.
  destruct (queue (limit_settings settings')), (executor (limit_settings settings')); intros [= <- <-];
    (split; [done|]); try done. by intros a' [= <-].
Qed.

Lemma attach_builds entry_name action_name (a : Action) settings silent :
  keeps builds (attach entry_name action_name a settings silent).
Proof. intros st r st' Ha. by apply attach_spec in Ha as [? _]. Qed.

Lemma from_entry_spec ns name entry st r st' :
  from_entry ns name entry st = Some (r, st') ->
  builds st st' /\ forall a, r = Ok a -> fresh_between st st' (dispatcher_of a).
Proof.
  unfold action_from_entry, bind, of_result. destruct (ok_or _ _) as [map|]; [|by intros [= <- <-]].
  destruct (contains_key _ _ || _); [by intros [= <- <-]|].
  destruct (ok_or _ _) as [ty|]; [|by intros [= <- <-]].
  destruct (parse_dispatcher_fields _ _ _) as [settings|]; [|by intros [= <- <-]].
  destruct (parse_silent _ _) as [silent|]; [|by intros [= <- <-]].
  destruct (map_err _ _) as [a|]; [|by intros [= <- <-]]. apply attach_spec.
Qed.

Lemma inline_builds map route key ns name config : keeps builds (inline map route key ns name config).
Proof.
  unfold inline_action. case_decide; [apply keeps_of_result, _|].
  repeat (apply keeps_bind; [apply _|apply keeps_of_result, _|intros ?]). apply attach_builds.
Qed.

(** ** The cache of named targets *)

(** Each name was built once and has its own dispatcher. *)
Definition cache_wf (st : State) : Prop :=
  NoDup st.(cached) /\
  (forall name, name ∈ st.(cached) <-> is_Some (st.(resolved_targets) !! name)) /\
  (forall name t d s, st.(resolved_targets) !! name = Some (t, Some d, s) -> (d.(handle) < st.(next_handle))%nat) /\
  (forall n1 n2 t1 t2 d1 d2 s1 s2, st.(resolved_targets) !! n1 = Some (t1, Some d1, s1) ->
     st.(resolved_targets) !! n2 = Some (t2, Some d2, s2) -> d1.(handle) = d2.(handle) -> n1 = n2).

Definition grows (st st' : State) : Prop :=
  st.(resolved_targets) ⊆ st'.(resolved_targets) /\ (st.(next_handle) <= st'.(next_handle))%nat /\
  (server_ready st -> server_ready st') /\ (cache_wf st -> cache_wf st').

#[export] Instance grows_preorder : PreOrder grows.
Proof.
  split; [by intros st|]. intros st1 st2 st3 (? & ? & ? & ?) (? & ? & ? & ?).
  split_and!; [by etrans|lia|auto|auto].
Qed.

Lemma builds_grows st st' : builds st st' -> grows st st'.
Proof.
  intros (Hr & Hc & Hn & Hws). split_and!; [by rewrite Hr|done|done|]. intros (Hnd & Hdom & Hlt & Hinj).
  unfold cache_wf. rewrite Hr, Hc. split_and!; try done. intros name t d s Ht%Hlt. lia.
Qed.

Lemma keeps_grows {A} (m : P A) : keeps builds m -> keeps grows m.
Proof. intros Hm st r st' Hs. by eapply builds_grows, Hm. Qed.

Lemma resolve_grows ns name route : keeps grows (resolve ns name route).
Proof.
  unfold resolve_named. repeat case_decide.
  1, 2: apply keeps_bind; [apply _|apply keeps_of_result, _|intros entry];
    apply keeps_grows; intros st r st' Ha; by apply from_entry_spec in Ha as [? _].
  - intros st r st'. destruct (st.(resolved_targets) !! name) as [[[t d] s]|] eqn:Hn; [by intros [= <- <-]|].
    unfold bind, of_result, cache_target. destruct (ok_or _ _) as [entry|]; [|by intros [= <- <-]].
    destruct (from_entry ns name entry st) as [[[a|e] st1]|] eqn:Ha; [..|done];
      apply from_entry_spec in Ha as [Hb Hf]; intros [= <- <-]; [|by apply builds_grows].
    specialize (Hf a eq_refl). destruct a as [| |t d s|]; try by apply builds_grows.
    destruct Hb as (Hr & Hc & Hle & Hws). simpl in Hf. split_and!; simpl.
    + rewrite Hr. by apply insert_subseteq.
    + done.
    + done.
    + unfold cache_wf. simpl. rewrite Hr, Hc. intros (Hnd & Hdom & Hlt & Hinj). split_and!.
      * constructor; [|done]. rewrite Hdom, Hn. by intros [].
      * intros n. rewrite elem_of_cons, lookup_insert_is_Some, Hdom. split; [intros [->|?]; [by left|]|intros [->|[? ?]]; [by left|by right]].
        destruct (decide (name = n)); [by left|by right].
      * intros n t' d' s'. rewrite lookup_insert_Some. intros [[_ [= -> -> ->]]|[_ Ht]]; [by apply Hf|].
        apply Hlt in Ht. lia.
      * intros n1 n2 t1 t2 d1 d2 s1 s2. rewrite !lookup_insert_Some.
        intros [[<- [= -> -> ->]]|[? Hl1]] [[<- [= -> -> ->]]|[? Hl2]] Heq; [done|..|by eapply Hinj].
        -- apply Hlt in Hl2. specialize (Hf _ eq_refl). lia.
        -- apply Hlt in Hl1. specialize (Hf _ eq_refl). lia.
  - apply keeps_of_result, _.
Qed.

Lemma resolve_caches name route st t d s st' :
  resolve "target" name route st = Some (Ok (Target t d s), st') -> st'.(resolved_targets) !! name = Some (t, d, s).
Proof.
  unfold resolve_named. rewrite !decide_False, decide_True by done.
  destruct (st.(resolved_targets) !! name) as [[[t0 d0] s0]|] eqn:Hn; [by intros [= -> -> -> ->]|].
  unfold bind, of_result, cache_target. destruct (ok_or _ _) as [entry|]; [|done].
  destruct (from_entry _ _ _ _) as [[[a|e] st1]|]; try done. destruct a as [| |t1 d1 s1|]; intros [= -> -> -> <-].
  apply lookup_insert_eq.
Qed.

Lemma cached_resolves name route st t d s :
  st.(resolved_targets) !! name = Some (t, d, s) -> resolve "target" name route st = Some (Ok (Target t d s), st).
Proof. intros Hn. unfold resolve_named. rewrite !decide_False, decide_True by done. by rewrite Hn. Qed.

Lemma action_grows nested route value :
  (forall v s, keeps grows (nested v s)) -> keeps grows (action_of nested route value).
Proof.
  intros Hnested. unfold parse_action. destruct (view value) as [| | |name| |map];
    try apply keeps_of_result, _.
  - case_decide; [apply keeps_of_result, _|].
    apply keeps_bind; [apply _|apply keeps_of_result, _|]. intros [ns n]. apply resolve_grows.
  - destruct (map_get "switch" map) as [sw|].
    + repeat (apply keeps_bind; [apply _|first [apply Hnested|apply keeps_of_result, _]|intros ?]). apply keeps_ret, _.
    + destruct (inline_entry map) as [[[[k ns] n] config]|]; [apply keeps_grows, inline_builds|apply keeps_of_result, _].
Qed.

Lemma entries_grow nested section index entries :
  (forall v s, keeps grows (nested v s)) -> keeps grows (entries_of nested section index entries).
Proof.
  intros Hnested. revert index. induction entries as [|entry entries IH]; intros index; [apply keeps_ret, _|].
  apply keeps_bind; [apply _| |intros route; apply keeps_bind; [apply _|done|intros ?; apply keeps_ret, _]].
  apply keeps_bind; [apply _|apply keeps_of_result, _|]. intros map.
  destruct map as [|[name v] [|]]; [apply keeps_of_result, _| |apply keeps_of_result, _].
  apply keeps_bind; [apply _|apply keeps_of_result, _|]. intros values.
  apply keeps_bind; [apply _| |intros ?; apply keeps_ret, _].
  apply keeps_collect; [apply _|]. intros v'. by apply action_grows.
Qed.

Lemma routes_grow fuel value section : keeps grows (routes_of fuel value section).
Proof.
  revert value section. induction fuel as [|fuel IH]; intros value section; [done|].
  apply keeps_bind; [apply _|apply keeps_of_result, _|]. intros entries. by apply entries_grow.
Qed.

(** A route that fails leaves the cache as it was. *)
Lemma route_grows fuel name value st r st' :
  route_of fuel name value st = Some (r, st') ->
  grows st st' /\ (is_ok r = false -> st'.(resolved_targets) = st.(resolved_targets)).
Proof.
  unfold parse_route. destruct (routes_of fuel value name st) as [[[routes|e] st1]|] eqn:Hr; [..|done];
    apply routes_grow in Hr as (Hsub & Hle & Hws & Hwf); intros [= <- <-]; (split; [|done]).
  - unfold grows, cache_wf, merge_targets. simpl. by rewrite (map_subseteq_union _ _ Hsub).
  - split_and!; [done|done|done|]. intros (Hnd & Hdom & Hlt & Hinj). split_and!; try done.
    simpl. intros n t d s Ht%Hlt. lia.
Qed.

(** C20. A named target is one thing: once [target::name] was resolved, whatever
    route is parsed afterwards and whether that succeeds or not, the name stands
    for the same target behind the same dispatcher and building it changes
    nothing; no two names share a dispatcher; a route that is rejected adds no
    name. *)
Theorem named_target_shared st0 name route t d s st1 fuel section value r st2 route' :
  cache_wf st0 -> resolve "target" name route st0 = Some (Ok (Target t d s), st1) ->
  route_of fuel section value st1 = Some (r, st2) ->
  resolve "target" name route' st2 = Some (Ok (Target t d s), st2) /\ cache_wf st2 /\
  (is_ok r = false -> st2.(resolved_targets) = st1.(resolved_targets)).
Proof.
  intros Hwf Hres Hroute. pose proof (resolve_caches _ _ _ _ _ _ _ Hres) as Hcached.
  apply resolve_grows in Hres as (_ & _ & _ & Hres). apply route_grows in Hroute as [(Hsub & _ & _ & Hwf2) Herr].
  split; [|auto]. eapply cached_resolves, lookup_weaken; [exact Hcached|done].
Qed.

(** ** What an entry of the configuration gets *)

(** The remote pool [name] hands its jobs out through the worker server. *)
Definition serves_pool (name : string) (d : BuiltDispatcher) (st : State) : Prop :=
  exists hb ws, d.(built).(built_executor) = RemotePoolExecutor name hb (callback_url ws name) /\ hb <> 0 /\
    st.(worker_server) = Some ws /\ ws.(pools) !! name = Some d.(handle).

Definition runs_remotely (d : BuiltDispatcher) : Prop :=
  match d.(built).(built_executor) with RemotePoolExecutor _ _ _ => True | _ => False end.

Definition limiter_for (entry : string) (settings : DispatcherSettings F) : option (UserLimiter * bool) :=
  (fun c => (UserLimit.new c entry broker_id, has_store)) <$> settings.(user_limit).

Lemma start_scheduler_serves pool hb url h ws ws' :
  start_scheduler char_text listener (RemotePoolExecutor pool hb url) h (Some ws) = (Ok tt, ws') ->
  exists ws1, ws' = Some ws1 /\ ws1.(pools) !! pool = Some h /\ callback_url ws1 pool = callback_url ws pool.
Proof.
  unfold start_scheduler, register_pool. destruct (validate_pool_name char_text pool) as [|e]; [|done].
  unfold ensure_started. destruct (started _); simpl.
  - intros [= <-]. eexists. split_and!; [done|apply lookup_insert_eq|done].
  - destruct (map_err _ (bind_to _)) as [|e]; [|done]. simpl.
    destruct (map_err _ (set_nonblocking _)) as [|e]; [|done]. simpl.
    destruct (map_err _ (from_std _)) as [[]|e]; [|done]. simpl.
    intros [= <-]. eexists. split_and!; [done|apply lookup_insert_eq|done].
Qed.

Lemma build_dispatcher_built tr settings pool entry st o st' :
  build_dispatcher (F:=F) broker_id has_store char_text listener tr settings pool entry st = Some (Ok o, st') ->
  (o = None <-> settings.(queue) = None /\ settings.(executor) = None) /\
  forall d, o = Some d -> d.(limiter) = limiter_for entry settings /\
    d.(built).(built_capacity) = settings.(queue_capacity) /\
    (runs_remotely d <-> is_remote_pool settings = true) /\
    (runs_remotely d -> tr = true /\ exists name, pool = Some name /\ serves_pool name d st').
Proof.
  unfold build_dispatcher, limiter_for. destruct (from_config _ _ _ _ _ _ _) as [[cfg|]|e] eqn:Hc; [| |done].
  2: { intros [= <- <-]. split; [|done]. split; [|done]. intros _. unfold from_config in Hc.
       destruct (queue settings), (executor settings); try done;
         destruct (executor_from_config _ _ _ _ _); try done; simpl in Hc; by destruct (_ =? 0). }
  destruct (start_scheduler _ _ _ _ _) as [[[]|e] ws] eqn:Hs; [|done]. intros [= <- <-].
  assert ((settings.(queue) <> None \/ settings.(executor) <> None) /\ cfg.(built_capacity) = settings.(queue_capacity) /\
          exists tr' pool' server, executor_from_config try_from_secs_f64 tr' settings.(executor) pool' server = Ok cfg.(built_executor))
    as (Hset & Hcap & tr' & pool' & server & Hex).
  { unfold from_config in Hc. destruct (queue settings), (executor settings); try done;
      destruct (executor_from_config _ _ _ _ _) as [ex|] eqn:Hx; try done; simpl in Hc;
      destruct (_ =? 0); try done; injection Hc as <-; (split_and!; [first [by left|by right]|done|by eauto]). }
  split; [split; [done|by intros [??]; destruct Hset]|]. intros d [= <-]. split; [done|]. split; [done|]. split.
  - unfold runs_remotely, is_remote_pool. simpl. destruct (executor settings) as [[c|c|hb]|]; simpl in Hex;
      try (injection Hex as <-; done).
    destruct tr'; [|done]. destruct pool'; [|done]. destruct server; [|done]. simpl in Hex.
    destruct (map_err _ _) as [t|]; [|done]. simpl in Hex. destruct (t =? 0); [done|]. by injection Hex as <-.
  - unfold runs_remotely. simpl. destruct (built_executor cfg) as [| |name hb url] eqn:He; try done. intros _.
    destruct (remote_pool_complete _ _ _ _ _ _ _ _ _ _ _ Hc He) as (-> & -> & Hhb & _ & srv & Hsrv & ->).
    split; [done|]. exists name. split; [done|]. simpl in Hsrv.
    destruct (st.(worker_server)) as [ws0|] eqn:Hws; [|done]. injection Hsrv as <-.
    apply start_scheduler_serves in Hs as (ws1 & -> & Hpool & Hurl).
    exists hb, ws1. simpl. by rewrite He, Hurl.
Qed.

Lemma remote_settings_ok is_remote server (s s' : DispatcherSettings F) :
  remote_settings is_remote server s = Ok s' ->
  s'.(user_limit) = s.(user_limit) /\ s'.(queue_capacity) = s.(queue_capacity) /\ s'.(queue) = s.(queue) /\
  is_remote_pool s' = is_remote /\ (s'.(executor) = None <-> s.(executor) = None /\ is_remote = false).
Proof.
  unfold remote_settings, is_remote_pool. destruct is_remote.
  - destruct (executor s) as [[| |hb]|] eqn:He; simpl; try done; destruct server; try done; intros [= <-];
      simpl; rewrite ?He; split_and!; try done; by split; intros; destruct_and?.
  - destruct (executor s) as [[| |hb]|] eqn:He; try done; intros [= <-]; rewrite He; split_and!; try done;
      by split; intros; destruct_and?.
Qed.

Lemma limit_settings_ok (s : DispatcherSettings F) :
  (limit_settings s).(user_limit) = s.(user_limit) /\ (limit_settings s).(queue_capacity) = s.(queue_capacity) /\
  (limit_settings s).(executor) = s.(executor) /\
  ((limit_settings s).(queue) = None /\ s.(executor) = None <-> s.(queue) = None /\ s.(executor) = None /\ s.(user_limit) = None).
Proof.
  unfold limit_settings. destruct (user_limit s) eqn:Hu, (queue s) eqn:Hq, (executor s) eqn:He;
    simpl; rewrite ?Hu, ?Hq, ?He; naive_solver.
Qed.

(** What an action gets that was attached with [settings]. *)
Record attached (entry action_name : string) (settings : DispatcherSettings F) (a : Action) (st : State) : Prop := {
  attached_none : dispatcher_of a = None <->
    settings.(queue) = None /\ settings.(executor) = None /\ settings.(user_limit) = None /\ action_name <> "remote"%string;
  attached_some : forall d, dispatcher_of a = Some d ->
    d.(limiter) = limiter_for entry settings /\ d.(built).(built_capacity) = settings.(queue_capacity);
  attached_remote : action_name = "remote"%string ->
    exists t d s, a = Target t (Some d) s /\ serves_pool entry d st;
  attached_local : action_name <> "remote"%string -> forall d, dispatcher_of a = Some d -> ~ runs_remotely d
}.

(** The dispatcher of one action with the settings completed. *)
Lemma built_attached entry action_name settings settings1 server (mk : option BuiltDispatcher -> Action) tr st o st' :
  remote_settings (bool_decide (action_name = "remote"%string)) server settings = Ok settings1 ->
  build_dispatcher (F:=F) broker_id has_store char_text listener tr (limit_settings settings1)
    (if (tr && bool_decide (action_name = "remote"%string)) then Some entry else None) entry st = Some (Ok o, st') ->
  (forall o, dispatcher_of (mk o) = o) ->
  (tr = true -> exists t s, forall o, mk o = Target t o s) ->
  attached entry action_name settings (mk o) st'.
Proof.
  intros Hr Hb Hmk Htr. apply remote_settings_ok in Hr as (Hu & Hcap & Hq & Hrem & Hnone).
  destruct (limit_settings_ok settings1) as (Hu' & Hcap' & He' & Hset).
  apply build_dispatcher_built in Hb as [Hnoneb Hsomeb]. unfold limiter_for in Hsomeb.
  assert (is_remote_pool (limit_settings settings1) = bool_decide (action_name = "remote"%string)) as Hrem'.
  { rewrite <- Hrem. unfold is_remote_pool. by rewrite He'. }
  rewrite Hrem', Hu', Hu, Hcap', Hcap in Hsomeb. rewrite He', Hset, Hq, Hnone, Hu, bool_decide_eq_false in Hnoneb.
  assert (o = None <-> settings.(queue) = None /\ settings.(executor) = None /\ settings.(user_limit) = None /\
          action_name <> "remote"%string) as Hon by naive_solver.
  split; rewrite ?Hmk; [done| | |].
  - intros d Hd. apply Hsomeb in Hd as (? & ? & _). done.
  - intros ->. destruct o as [d|]; [|by destruct Hon as [[_ (_ & _ & [])] _]].
    destruct (Hsomeb d eq_refl) as (_ & _ & Hrun & Hsrv). rewrite bool_decide_true in Hrun by done.
    destruct Hsrv as (-> & name & Hname & Hsrv); [by apply Hrun|]. destruct (Htr eq_refl) as (t & s & Ht).
    exists t, d, s. split; [done|]. simpl in Hname. by injection Hname as <-.
  - intros Hne d Hd. apply Hsomeb in Hd as (_ & _ & Hrun & _). rewrite bool_decide_false in Hrun by done.
    intros Hx%Hrun. done.
Qed.

Lemma attach_attached entry action_name (a : Action) settings silent st a' st' :
  attach entry action_name a settings silent st = Some (Ok a', st') -> attached entry action_name settings a' st'.
Proof.
  unfold attach_dispatcher. unfold bind at 1, of_result.
  destruct (remote_settings _ _ _) as [settings1|e] eqn:Hr; [|done].
  destruct a as [c d s|c d s|c d s|sw].
  1-2: unfold bind; destruct (build_dispatcher _ _ _ _ _ _ _ _ st) as [[[o|e] st1]|] eqn:Hb; [|done|done];
    intros [= <- <-]; eapply (built_attached _ _ _ _ _ (fun o => _ c o silent) false); done.
  - unfold bind. destruct (build_dispatcher _ _ _ _ _ _ _ _ st) as [[[o|e] st1]|] eqn:Hb; [|done|done].
    intros [= <- <-]. eapply (built_attached _ _ _ _ _ (fun o => Target c o silent) true); try done.
    intros _. by exists c, silent.
  - destruct (queue (limit_settings settings1)) eqn:Hq, (executor (limit_settings settings1)) eqn:He; try done.
    intros [= <- <-]. apply remote_settings_ok in Hr as (Hu & _ & Hq1 & _ & Hnone).
    destruct (limit_settings_ok settings1) as (_ & _ & He' & Hset). rewrite He' in He.
    destruct Hset as [Hset _]. destruct (Hset (conj Hq He)) as (Hs1 & Hs2 & Hs3).
    apply Hnone in Hs2 as [Hs2 Hrem]. apply bool_decide_eq_false in Hrem.
    split; simpl; [split; [intros _; split_and!; congruence|done]|done|done|done].
Qed.

(** C19. What the configuration of a named entry asks for is what is built: the
    action has a dispatcher exactly when the entry sets a queue, an executor or
    a limit, or is remote; every limit that is configured is enforced, under the
    entry's name, and none else; a remote target is served by the worker server
    under the entry's name by the very dispatcher that holds its jobs, and
    nothing else runs remotely. *)
Theorem entry_built ns name entry st a st' map ty settings :
  from_entry ns name entry st = Some (Ok a, st') ->
  as_object entry = Some map -> map_get "type" map ≫= as_str = Some ty ->
  parse_dispatcher_fields decode_queue decode_executor (map_get "dispatcher" map) = Ok settings ->
  attached name ty settings a st'.
Proof.
  intros Ha Hmap Hty Hset. unfold action_from_entry, bind, of_result in Ha. rewrite Hmap in Ha. simpl in Ha.
  destruct (contains_key "persistent" map || contains_key "lock_ttl_secs" map); [done|].
  rewrite Hty in Ha. simpl in Ha. rewrite Hset in Ha.
  destruct (parse_silent _ _) as [silent|]; [|done]. destruct (map_err _ _) as [a0|]; [|done].
  by apply attach_attached in Ha.
Qed.

(** ** Termination *)

(** Both steps answer, and the same. *)
Definition agree {A} (m m' : P A) : Prop := forall st : State, m st = m' st /\ m st <> None.

Lemma agree_ret {A} (a : A) : agree (ret a) (ret a).
Proof. by intros st. Qed.
Lemma agree_of_result {A} (x : result BitsError A) : agree (of_result x) (of_result x).
Proof. by intros st. Qed.
Lemma agree_bind {A B} (m m' : P A) (k k' : A -> P B) :
  agree m m' -> (forall a, agree (k a) (k' a)) -> agree (bind m k) (bind m' k').
Proof.
  intros Hm Hk st. unfold bind. destruct (Hm st) as [<- Hn]. destruct (m st) as [[[a|e] st1]|]; [apply Hk|done|done].
Qed.
Lemma agree_collect {A B} (f f' : A -> P B) l :
  (forall a, a ∈ l -> agree (f a) (f' a)) -> agree (collect_p f l) (collect_p f' l).
Proof.
  induction l as [|a l IH]; intros Hf; [apply agree_ret|].
  apply agree_bind; [apply Hf, elem_of_cons; by left|]. intros b.
  apply agree_bind; [apply IH; intros x Hx; apply Hf, elem_of_cons; by right|]. intros bs. apply agree_ret.
Qed.

Lemma agree_bind_ok {A B} (x : result BitsError A) (k k' : A -> P B) :
  (forall a, x = Ok a -> agree (k a) (k' a)) -> agree (bind (of_result x) k) (bind (of_result x) k').
Proof. intros Hk st. unfold bind, of_result. destruct x as [a|e]; [by apply Hk|done]. Qed.

Lemma attach_agree entry_name action_name (a : Action) settings silent :
  agree (attach entry_name action_name a settings silent) (attach entry_name action_name a settings silent).
Proof.
  intros st. split; [done|]. unfold attach_dispatcher. unfold bind at 1, of_result.
  destruct (remote_settings _ _ _) as [settings'|e]; [|done].
  assert (forall tr s pool entry,
    build_dispatcher (F:=F) broker_id has_store char_text listener tr s pool entry st <> None) as Hb.
  { intros. unfold build_dispatcher. destruct (from_config _ _ _ _ _ _ _) as [[cfg|]|]; [|done|done].
    by destruct (start_scheduler _ _ _ _ _) as [[[]|] ?]. }
  destruct a; [..|by destruct (queue (limit_settings settings')), (executor (limit_settings settings'))];
    unfold bind; (destruct (build_dispatcher _ _ _ _ _ _ _ _ st) as [[[|] ?]|] eqn:Hx; [done|done|by apply Hb in Hx]).
Qed.

Ltac agree_steps := repeat first
  [apply attach_agree | apply agree_ret | apply agree_of_result | apply agree_bind; [|intros ?] | case_match].

Lemma from_entry_agree ns name entry : agree (from_entry ns name entry) (from_entry ns name entry).
Proof. unfold action_from_entry. agree_steps. Qed.

Lemma resolve_agree ns name route : agree (resolve ns name route) (resolve ns name route).
Proof.
  unfold resolve_named. repeat case_decide.
  1, 2: apply agree_bind; [apply agree_of_result|intros entry; apply from_entry_agree].
  - intros st. destruct (st.(resolved_targets) !! name) as [[[t d] s]|]; [done|].
    apply agree_bind; [apply agree_of_result|]. intros entry.
    apply agree_bind; [apply from_entry_agree|]. by intros a st'.
  - apply agree_of_result.
Qed.

Lemma inline_agree map route key ns name config :
  agree (inline map route key ns name config) (inline map route key ns name config).
Proof. unfold inline_action. agree_steps. Qed.

(** A JSON value is finite: [depth] grows from the members to the whole. *)
Section depth.
Context (depth : V -> nat)
  (depth_array : forall v l x, as_array v = Some l -> x ∈ l -> (depth x < depth v)%nat)
  (depth_object : forall v l k x, as_object v = Some l -> (k, x) ∈ l -> (depth x < depth v)%nat).

Section nested.
Context (nested nested' : V -> string -> @P V W (list Route)) (bound : nat).
Hypothesis Hnested : forall v s, (depth v < bound)%nat -> agree (nested v s) (nested' v s).

Lemma action_agree route value :
  (depth value <= bound)%nat -> agree (action_of nested route value) (action_of nested' route value).
Proof.
  intros Hd. unfold parse_action. destruct (view value) as [| | |name| |map] eqn:Hv; try apply agree_of_result.
  - case_decide; [apply agree_of_result|]. apply agree_bind; [apply agree_of_result|].
    intros [ns n]. apply resolve_agree.
  - destruct (map_get "switch" map) as [sw|] eqn:Hsw.
    + apply agree_bind; [|intros routes; agree_steps]. apply Hnested. apply map_get_elem in Hsw.
      eapply Nat.lt_le_trans; [eapply depth_object; [|exact Hsw]|exact Hd]. unfold as_object. by rewrite Hv.
    + destruct (inline_entry map) as [[[[k ns] n] config]|]; [apply inline_agree|apply agree_of_result].
Qed.

Lemma entries_agree section index entries :
  (forall v, v ∈ entries -> (depth v <= bound)%nat) ->
  agree (entries_of nested section index entries) (entries_of nested' section index entries).
Proof.
  revert index. induction entries as [|entry entries IH]; intros index Hd; [apply agree_ret|].
  apply agree_bind; [|intros route; apply agree_bind; [apply IH; intros v Hv; apply Hd, elem_of_cons; by right|intros ?; apply agree_ret]].
  specialize (Hd entry ltac:(apply elem_of_cons; by left)). unfold parse_entry.
  apply agree_bind_ok. intros map Hmap. destruct (as_object entry) as [l|] eqn:Hl; [|done]. injection Hmap as ->.
  destruct map as [|[name v] [|]]; [apply agree_of_result| |apply agree_of_result].
  apply agree_bind_ok. intros values Hvalues. destruct (as_array v) as [vs|] eqn:Hvs; [|done]. injection Hvalues as ->.
  apply agree_bind; [|intros ?; apply agree_ret]. apply agree_collect. intros x Hx. apply action_agree.
  apply (depth_array _ _ _ Hvs) in Hx.
  assert (depth v < depth entry)%nat by (eapply depth_object; [exact Hl|apply elem_of_cons; by left]). lia.
Qed.
End nested.

Lemma routes_agree fuel fuel' value section :
  (depth value < fuel)%nat -> (depth value < fuel')%nat ->
  agree (routes_of fuel value section) (routes_of fuel' value section).
Proof.
  revert fuel' value section. induction fuel as [|fuel IH]; intros [|fuel'] value section; try lia.
  intros Hf Hf'. simpl. apply agree_bind_ok. intros entries He.
  destruct (as_array value) as [l|] eqn:Hl; [|done]. injection He as ->.
  eapply (entries_agree _ _ (depth value)); [intros v s Hv; apply IH; lia|].
  intros v Hv. eapply Nat.lt_le_incl, depth_array; [exact Hl|done].
Qed.

(** C31. Parsing ends: with fuel above the depth of the value it answers, and more
    fuel changes nothing. *)
Theorem parse_route_terminates fuel name value st :
  (depth value < fuel)%nat ->
  exists r st', route_of fuel name value st = Some (r, st') /\
    (forall fuel', (depth value < fuel')%nat -> route_of fuel' name value st = Some (r, st')).
Proof.
  intros Hf. assert (exists r st', route_of fuel name value st = Some (r, st')) as (r & st' & Hr).
  { unfold parse_route. destruct (routes_agree fuel fuel value name Hf Hf st) as [_ Hn].
    destruct (routes_of fuel value name st) as [[[|] ?]|]; [by do 2 eexists|by do 2 eexists|done]. }
  exists r, st'. split; [done|]. intros fuel' Hf'. rewrite <- Hr. unfold parse_route.
  by destruct (routes_agree fuel' fuel value name Hf' Hf st) as [-> _].
Qed.
End depth.
End parse_laws.

(** ** A concrete configuration *)

Module Sample.

(** Whole nanoseconds for f64. *)
#[export] Instance sample_float : Float Z := {|
  try_from_secs_f64 := fun s => if s <? 0 then Err "can not convert float seconds to Duration: value is negative"%string else Ok s;
  is_finite := fun _ => true;
  is_negative_value := fun s => s <? 0;
  f64_le := Z.leb;
  of_ms := fun ms => ms * 1000000
|}.

Fixpoint depth (v : sample) : nat :=
  match v with
  | JArray l => S (max_list (map depth l))
  | JObject l => S (max_list (map (fun e => depth e.2) l))
  | _ => 0
  end.

Lemma depth_array v l x : as_array v = Some l -> x ∈ l -> (depth x < depth v)%nat.
Proof.
  destruct v; try done. intros [= ->] Hx. simpl. apply Nat.lt_succ_r, max_list_elem_of_le.
  apply list_elem_of_fmap. by exists x.
Qed.
Lemma depth_object v l k x : as_object v = Some l -> (k, x) ∈ l -> (depth x < depth v)%nat.
Proof.
  destruct v; try done. intros [= ->] Hx. simpl. apply Nat.lt_succ_r, max_list_elem_of_le.
  apply list_elem_of_fmap. by exists (k, x).
Qed.

Definition remote (v : sample) : @TargetAction sample unit := mkTarget (fun _ w => (Err (ActionConfigError "remote"), w)) v.
Definition registry : Registry (V:=sample) (W:=unit) (D:=BuiltDispatcher) :=
  mkRegistry [("remote"%string, fun v => Ok (Target (remote v) None None))] ∅.
Definition mars_fields : list (string * sample) := [("type"%string, JString "remote");
  ("dispatcher"%string, JObject [("user_limit"%string, JObject [("max"%string, JNumber 3)])])].
Definition mars : sample := JObject mars_fields.
Definition registries : Registries := mkRegistries ∅ ∅ {["mars"%string := mars]}.
Definition route_value : sample := JArray [JObject [("r"%string, JArray [JString "target::mars"])]].
Definition st0 : @ParseState sample unit := mkParseState ∅ (Some (WorkerServer.new "0.0.0.0" 9001)) 0 [].

Definition decode_queue (v : sample) : result string QueueKind := Err "unknown variant"%string.
Definition decode_executor (v : sample) : result string (ExecutorKind (F:=Z)) := Err "unknown variant"%string.
Definition serving : Listener := mkListener (Ok tt) (Ok tt) (Ok tt).

Abbreviation from_entry := (action_from_entry decode_queue decode_executor registry "ecmwf-prod-0" true (fun _ => "?"%string) serving).
Abbreviation resolve :=
  (resolve_named decode_queue decode_executor registry registries "ecmwf-prod-0" true (fun _ => "?"%string) serving).
Abbreviation routes_of :=
  (parse_routes decode_queue decode_executor registry registries "ecmwf-prod-0" true (fun _ => "?"%string) serving).
Abbreviation route_of :=
  (parse_route decode_queue decode_executor registry registries "ecmwf-prod-0" true (fun _ => "?"%string) serving).

Lemma st0_wf : cache_wf st0.
Proof.
  split_and!; [constructor| | |]; simpl.
  - intros n. rewrite lookup_empty. split; [by intros ?%elem_of_nil|by intros []].
  - intros n t d s. by rewrite lookup_empty.
  - intros n1 n2 t1 t2 d1 d2 s1 s2. by rewrite lookup_empty.
Qed.

Lemma named_target_shared_witness :
  exists t d s st1 r st2, resolve "target" "mars" "a" st0 = Some (Ok (Target t d s), st1) /\
    route_of 5 "b" route_value st1 = Some (r, st2) /\ is_ok r = true /\
    resolve "target" "mars" "c" st2 = Some (Ok (Target t d s), st2).
Proof.
  do 6 eexists. split; [vm_compute; reflexivity|]. split; [vm_compute; reflexivity|]. split; [reflexivity|].
  refine (proj1 (named_target_shared decode_queue decode_executor registry registries "ecmwf-prod-0" true
    (fun _ => "?"%string) serving st0 "mars" "a" _ _ _ _ 5 "b" route_value _ _ "c" st0_wf _ _)); vm_compute; reflexivity.
Defined.

Lemma parse_route_terminates_witness :
  exists r st', route_of 5 "b" route_value st0 = Some (r, st') /\ forall fuel', (3 < fuel')%nat -> route_of fuel' "b" route_value st0 = Some (r, st').
Proof.
  apply (parse_route_terminates decode_queue decode_executor registry registries "ecmwf-prod-0" true
    (fun _ => "?"%string) serving depth depth_array depth_object 5 "b" route_value st0). simpl. lia.
Defined.

Definition mars_settings : DispatcherSettings Z :=
  mkSettings None None DEFAULT_QUEUE_CAPACITY (Some (mkUserLimitConfig (Some 3) ∅)).

Lemma entry_built_witness :
  match from_entry "target" "mars" mars st0 with
  | Some (Ok a, st') => exists t d s, a = Target t (Some d) s /\ serves_pool "mars" d st' /\
      d.(limiter) = Some (UserLimit.new (mkUserLimitConfig (Some 3) ∅) "mars" "ecmwf-prod-0", true)
  | _ => False
  end.
Proof.
  assert (parse_dispatcher_fields decode_queue decode_executor (map_get "dispatcher" mars_fields) = Ok mars_settings) as Hset
    by (vm_compute; reflexivity).
  destruct (from_entry "target" "mars" mars st0) as [[[a|e] st']|] eqn:Ha;
    [|vm_compute in Ha; discriminate Ha|vm_compute in Ha; discriminate Ha].
  destruct (entry_built decode_queue decode_executor registry "ecmwf-prod-0" true (fun _ => "?"%string) serving
    "target" "mars" mars st0 a st' mars_fields "remote" mars_settings Ha eq_refl eq_refl Hset) as [_ Hsome Hrem _].
  destruct (Hrem eq_refl) as (t & d & s & -> & Hs). exists t, d, s. split; [reflexivity|]. split; [exact Hs|].
  destruct (Hsome d eq_refl) as [Hl _]. exact Hl.
Defined.

(** Two routes that name the same new target, parsed side by side: each builds
    it on a copy of the cache of its own.  The cache keeps the first that is
    merged while the worker server keeps the last that was registered, so the
    jobs of the cached target are out of the workers' reach. *)
Definition side_by_side : option (option nat * option nat) :=
  match routes_of 5 route_value "a" st0 with
  | Some (_, stA) =>
      match routes_of 5 route_value "b" (mkParseState st0.(resolved_targets) stA.(worker_server) stA.(next_handle) []) with
      | Some (_, stB) =>
          let shared := merge_targets stB.(resolved_targets) (merge_targets stA.(resolved_targets) st0.(resolved_targets)) in
          Some ('(_, d, _) ← shared !! "mars"%string; (fun d => d.(handle)) <$> d,
                ws ← stB.(worker_server); ws.(pools) !! "mars"%string)
      | None => None
      end
  | None => None
  end.

Example target_out_of_reach : side_by_side = Some (Some 0%nat, Some 1%nat).
Proof. by vm_compute. Qed.
End Sample.
