(* ===== verification/Bootstrap.v ===== *)
(** * Bootstrap ([config.rs], [bits.rs])

    From the text of the configuration to a running broker: the timings and
    limits of the [bits], [server] and [metrics] sections, the choice of the
    persistence backend with its start-up retries, the broker slot, the router,
    the construction of the broker and the routes added at run time.  The YAML
    parser and the deserialisers serde derives are parameters, and so is what
    the deployment answers: the features compiled in, the backend, the thread
    that allocates the slot. *)
From Stdlib Require Import Ascii Sorted.
From S2P Require Import Prelude Json Errors RequestId NatsStore WorkerServer Routing Registry Broker Recovery Config.

Definition seconds (n : Z) : Z := n * nanos_per_sec.

(** ** The sections as they are decoded *)

Section config.
Context {V F : Type}.

Record WorkerServerConfig : Type := mkWorkerServerConfig {
  ws_host : string;
  ws_port : Z;
  ws_advertised_addr : option string
}.

Inductive PersistenceConfig : Type :=
| TikvConfig (endpoints : list string) (broker_lease_ttl_secs : F) (connect_timeout_secs : option F)
| NatsConfig (url jobs_bucket leases_bucket : string) (broker_lease_ttl_secs : F) (num_replicas : Z)
    (connect_timeout_secs : option F) (init_max_attempts : option Z) (jobs_tombstone_ttl_secs : option F).

Record BitsConfig : Type := mkBitsConfig {
  broker_id_prefix : option string;
  site : option V;
  env : option V;
  internal_poll_endpoint : option string;
  internal_poll_timeout_secs : option F;
  sweep_interval_secs : option F;
  reconnect_buffer_secs : option F;
  persist_after_secs : option F;
  persistence : option PersistenceConfig;
  worker_server_cfg : option WorkerServerConfig;
  max_jobs : option Z
}.
Definition default_bits_config : BitsConfig := mkBitsConfig None None None None None None None None None None None.

Record ServerConfig : Type := mkServerConfig {
  server_host : string;
  server_port : Z;
  poll_timeout_secs : F;
  retry_after_secs : Z
}.

Record MetricsConfig : Type := mkMetricsConfig {
  duration_buckets : option (list F);
  queue_wait_buckets : option (list F)
}.

Record HistogramBuckets : Type := mkHistogramBuckets {
  duration : list F;
  queue_wait : list F
}.
End config.
Arguments PersistenceConfig : clear implicits.
Arguments BitsConfig : clear implicits.
Arguments ServerConfig : clear implicits.
Arguments MetricsConfig : clear implicits.
Arguments HistogramBuckets : clear implicits.

Section defaults.
Context {F : Type} `{Float F}.

Definition DEFAULT_POLL_TIMEOUT_SECS : F := of_ms 25000.
Definition DEFAULT_RETRY_AFTER_SECS : Z := 5.
Definition default_server_config : ServerConfig F :=
  mkServerConfig "0.0.0.0" 8080 DEFAULT_POLL_TIMEOUT_SECS DEFAULT_RETRY_AFTER_SECS.

Definition default_buckets : HistogramBuckets F := mkHistogramBuckets
  (of_ms <$> [5; 10; 25; 50; 100; 250; 500; 1000; 2500; 5000; 10000; 25000; 60000; 120000])
  (of_ms <$> [1; 5; 10; 50; 100; 500; 1000; 2500; 5000; 10000; 30000]).

Definition resolve_buckets (field : string) (configured : option (list F)) (dflt : list F) : result BitsError (list F) :=
  match configured with
  | None => Ok dflt
  | Some buckets => let? _ := validate_buckets field buckets in Ok buckets
  end.
End defaults.

(** ** The persistence backend *)

Inductive PersistenceStore : Type :=
| TikvBackend (endpoints : list string) (connect_timeout : Z)
| NatsBackend (store : NatsStore).

(** What the process finds when it starts: the features it was compiled with,
    whether a Tokio runtime is running, what the [n]-th call of [NatsStore::init]
    answers, whether the thread that allocates the slot gets its runtime, and
    what the store answers there, [None] for a panic. *)
Record Deployment : Type := mkDeployment {
  feature_tikv : bool;
  feature_nats : bool;
  in_runtime : bool;
  nats_init : NatsStore -> nat -> result string unit;
  slot_runtime : result string unit;
  allocate_broker_slot : PersistenceStore -> string -> string -> option (result DbError Z)
}.

(** The retries of [init], from attempt [attempt] on with [remaining] more:
    the last error, and the delays that were slept. *)
Definition next_delay (delay : Z) : Z := Z.min (delay * 2) (seconds 10).

Fixpoint init_loop (init : nat -> result string unit) (attempt remaining : nat) (delay : Z) : option string * list Z :=
  match remaining with
  | O => (None, [])
  | S remaining =>
      match init attempt with
      | Ok _ => (None, [])
      | Err e =>
          match remaining with
          | O => (Some e, [])
          | _ => let '(r, slept) := init_loop init (S attempt) remaining (next_delay delay) in (r, delay :: slept)
          end
      end
  end.

Section backend.
Context {F : Type} `{Float F} (d : Deployment).

Definition lease_ttl_secs (secs : F) : result BitsError Z :=
  let? ttl := duration_secs "bits.persistence.broker_lease_ttl_secs" secs in
  if ttl <? seconds 1 then validation "bits.persistence.broker_lease_ttl_secs" "must be at least 1 second" else Ok ttl.

Definition connect_timeout_of (secs : option F) : result BitsError Z :=
  match secs with
  | Some secs => positive_duration_secs "bits.persistence.connect_timeout_secs" secs
  | None => Ok (seconds 10)
  end.

Definition feature_disabled {A} (feature : string) : result BitsError A :=
  Err (BConfig (FeatureDisabled "bits.persistence.type" feature)).

Definition open_tikv (endpoints : list string) (ttl_secs : F) (connect_timeout_secs : option F)
    : result BitsError (PersistenceStore * Z) :=
  if decide (endpoints = []) then validation "bits.persistence.endpoints" "must not be empty"
  else
    let? ttl := lease_ttl_secs ttl_secs in
    let? connect_timeout := connect_timeout_of connect_timeout_secs in
    if d.(feature_tikv) then Ok (TikvBackend endpoints connect_timeout, ttl) else feature_disabled "tikv".

Definition tombstone_ttl (secs : option F) : result BitsError (option Z) :=
  match secs with
  | None => Ok None
  | Some secs =>
      let? ttl := positive_duration_secs "bits.persistence.jobs_tombstone_ttl_secs" secs in
      if ttl <? seconds 1 then validation "bits.persistence.jobs_tombstone_ttl_secs" "must be at least 1 second"
      else Ok (Some ttl)
  end.

Definition non_empty (field value : string) : result BitsError unit :=
  if decide (value = ""%string) then validation field "must not be empty" else Ok tt.

Definition at_least_1 (field : string) (n : Z) : result BitsError unit :=
  if n <? 1 then validation field "must be at least 1" else Ok tt.

(** [NatsStore::init] with its retries. *)
Definition init_nats (store : NatsStore) (max_attempts : Z) : result BitsError unit :=
  if negb d.(in_runtime) then validation "bits.persistence.type" "nats requires a running Tokio runtime for init"
  else match (init_loop (d.(nats_init) store) 1 (Z.to_nat max_attempts) (seconds 1)).1 with
       | Some reason => Err (BConfig (PersistenceInit "bits.persistence" "nats" reason))
       | None => Ok tt
       end.

Definition open_nats (url jobs_bucket leases_bucket : string) (ttl_secs : F) (num_replicas : Z)
    (connect_timeout_secs : option F) (init_max_attempts : option Z) (jobs_tombstone_ttl_secs : option F)
    : result BitsError (PersistenceStore * Z) :=
  let? _ := non_empty "bits.persistence.url" url in
  let? _ := non_empty "bits.persistence.jobs_bucket" jobs_bucket in
  let? _ := non_empty "bits.persistence.leases_bucket" leases_bucket in
  let? _ := at_least_1 "bits.persistence.num_replicas" num_replicas in
  let? ttl := lease_ttl_secs ttl_secs in
  let? connect_timeout := if d.(feature_nats) then connect_timeout_of connect_timeout_secs else Ok 0 in
  let? jobs_tombstone_ttl := tombstone_ttl jobs_tombstone_ttl_secs in
  let max_attempts := default 6 init_max_attempts in
  let? _ := at_least_1 "bits.persistence.init_max_attempts" max_attempts in
  if d.(feature_nats) then
    let store := NatsStore.new url jobs_bucket leases_bucket ttl num_replicas connect_timeout in
    let store := match jobs_tombstone_ttl with Some ttl => with_job_tombstone_ttl ttl store | None => store end in
    let? _ := init_nats store max_attempts in
    Ok (NatsBackend store, ttl)
  else
    let? _ := connect_timeout_of connect_timeout_secs in
    feature_disabled "nats".

Definition DEFAULT_LEASE_TTL : Z := seconds 30.

Definition open_persistence (p : option (PersistenceConfig F)) : result BitsError (option PersistenceStore * Z) :=
  match p with
  | None => Ok (None, DEFAULT_LEASE_TTL)
  | Some (TikvConfig endpoints ttl ct) => let? (store, ttl) := open_tikv endpoints ttl ct in Ok (Some store, ttl)
  | Some (NatsConfig url jb lb ttl n ct attempts tomb) =>
      let? (store, ttl) := open_nats url jb lb ttl n ct attempts tomb in Ok (Some store, ttl)
  end.

(** The slot is allocated on a thread of its own. *)
Definition allocate_startup_broker_slot (store : PersistenceStore) (site env : string) : result BitsError Z :=
  let? _ := map_err (fun e => BConfig (Validation "bits.persistence" e)) d.(slot_runtime) in
  match d.(allocate_broker_slot) store site env with
  | None => validation "bits.persistence" "broker slot allocator panicked"
  | Some r => map_err BPersistence r
  end.
End backend.

(** The delay after the [k]-th failure, from 0: 1, 2, 4, 8 and then 10 s. *)
Definition backoff (k : nat) : Z := Z.min (seconds (2 ^ Z.of_nat k)) (seconds 10).

Lemma backoff_next k : next_delay (backoff k) = backoff (S k).
Proof.
  unfold next_delay, backoff, seconds, nanos_per_sec. rewrite Nat2Z.inj_succ, Z.pow_succ_r by lia.
  assert (0 < 2 ^ Z.of_nat k) by (apply Z.pow_pos_nonneg; lia). lia.
Qed.

Lemma init_loop_from init a n k r slept :
  init_loop init a (S n) (backoff k) = (r, slept) ->
  slept = backoff <$> seq k (length slept) /\ (length slept <= n)%nat /\
  (forall i, (i < length slept)%nat -> is_ok (init (a + i)%nat) = false) /\
  match r with
  | None => is_ok (init (a + length slept)%nat) = true
  | Some e => length slept = n /\ init (a + n)%nat = Err e
  end.
Proof.
  revert a k r slept. induction n as [|n IH]; intros a k r slept; simpl.
  { rewrite Nat.add_0_r. destruct (init a) as [[]|e] eqn:Ha; intros [= <- <-]; simpl; rewrite ?Nat.add_0_r, ?Ha;
      split_and!; try done; lia. }
  destruct (init a) as [[]|e] eqn:Ha.
  { intros [= <- <-]. simpl. rewrite Nat.add_0_r, Ha. split_and!; try done; lia. }
  rewrite backoff_next. change (match init (S a) with Ok _ => _ | Err _ => _ end) with (init_loop init (S a) (S n) (backoff (S k))).
  destruct (init_loop init (S a) (S n) (backoff (S k))) as [r1 slept1] eqn:Hl. intros [= <- <-].
  apply IH in Hl as (Hs & Hlen & Hf & Hr). simpl. split_and!.
  - f_equal. exact Hs.
  - lia.
  - intros [|i] Hi; [by rewrite Nat.add_0_r, Ha|]. rewrite Nat.add_succ_r. apply Hf. lia.
  - rewrite !Nat.add_succ_r. destruct r1 as [e1|]; [|done]. destruct Hr as [-> Hr]. by split.
Qed.

(** The start of the NATS backend is retried as configured: the attempts are
    made one after the other until the first that succeeds and at most [n] of
    them, the waits between them double from one second up to ten, and the start
    fails only when all [n] failed, with the error of the last. *)
Theorem init_loop_spec init n r slept :
  (1 <= n)%nat -> init_loop init 1 n (seconds 1) = (r, slept) ->
  slept = backoff <$> seq 0 (length slept) /\ (length slept < n)%nat /\
  (forall i, (1 <= i <= length slept)%nat -> is_ok (init i) = false) /\
  (r = None <-> exists i, (1 <= i <= n)%nat /\ is_ok (init i) = true) /\
  forall e, r = Some e -> init n = Err e.
Proof.
  intros Hn Hl. destruct n as [|n]; [lia|]. apply (init_loop_from _ _ _ 0) in Hl as (Hs & Hlen & Hf & Hr).
  split_and!; [done|lia| | |].
  - intros [|i] Hi; [lia|]. apply (Hf i). lia.
  - destruct r as [e|].
    + destruct Hr as [Hlen' He]. split; [done|]. intros ([|i] & Hi & Hok); [lia|].
      destruct (decide (i = n)) as [->|Hne]; [simpl in He; by rewrite He in Hok|].
      specialize (Hf i ltac:(lia)). simpl in Hf. congruence.
    + split; [|done]. intros _. exists (S (length slept)). split; [lia|done].
  - intros e ->. by destruct Hr as [_ Hr].
Qed.

Lemma init_loop_spec_witness :
  let init i := if (i =? 3)%nat then Ok tt else Err "down"%string in
  (init_loop init 1 6 (seconds 1)).1 = None.
Proof.
  intros init. apply (init_loop_spec init 6 _ _ ltac:(lia) (surjective_pairing _)).
  exists 3%nat. split; [lia|reflexivity].
Defined.

(** ** [parse_bootstrap] *)

Definition DEFAULT_MAX_JOBS : Z := 500000.

(** The endpoint other brokers reach this one at, when none is configured. *)
Definition derive_endpoint (host : string) (port : Z) : string :=
  let is_wildcard_v4 := bool_decide (host = "0.0.0.0"%string) in
  let is_wildcard_v6 := bool_decide (host = "::"%string) in
  let host := if is_wildcard_v4 || is_wildcard_v6
              then if is_wildcard_v6 then "::1"%string else "127.0.0.1"%string
              else host in
  if has_char ":"%char host then ("http://[" ++ host ++ "]:" ++ pretty port ++ "/job")%string
  else ("http://" ++ host ++ ":" ++ pretty port ++ "/job")%string.

Definition PERSIST_GUARD : Z := seconds 1.

Section bootstrap.
Context {V W F : Type} `{JsonValue V} `{Float F}.
Notation Action := (@Action V W BuiltDispatcher).
Notation Route := (@Route V W BuiltDispatcher).
Notation Switch := (@Switch V W BuiltDispatcher).
Notation State := (@ParseState V W).

(** serde: the YAML text and the derived deserialisers; the texts of [Display]
    and of the error format. *)
Context (from_str : string -> result string V)
  (decode_bits : V -> result string (BitsConfig V F)) (decode_server : V -> result string (ServerConfig F))
  (decode_metrics : V -> result string (MetricsConfig F)) (decode_map : V -> result string (gmap string V))
  (decode_queue : V -> result string Queue.QueueKind)
  (decode_executor : V -> result string (Dispatcher.ExecutorKind (F:=F)))
  (tag_error_text : EncodeError -> string) (seconds_text : Z -> string) (char_text : Z -> string).
Context (registry : Registry (V:=V) (W:=W) (D:=BuiltDispatcher)) (listener : Listener) (d : Deployment).

Record RouteFactory : Type := mkRouteFactory {
  factory_registries : Registries (V:=V);
  factory_broker_id : string;
  factory_has_store : bool;
  factory_state : State
}.
Definition with_factory_state (st : State) (f : RouteFactory) : RouteFactory :=
  mkRouteFactory f.(factory_registries) f.(factory_broker_id) f.(factory_has_store) st.

(** [RouteFactory::parse_route]. *)
Definition factory_parse_route (fuel : nat) (name : string) (value : V) (f : RouteFactory)
    : option (result BitsError (list Route) * RouteFactory) :=
  '(r, st) ← parse_route decode_queue decode_executor registry f.(factory_registries) f.(factory_broker_id)
               f.(factory_has_store) char_text listener fuel name value f.(factory_state);
  Some (r, with_factory_state st f).

Record RuntimeConfig : Type := mkRuntimeConfig {
  router : Switch;
  route_factory : RouteFactory;
  sweep_interval : option Z;
  reconnect_buffer : Z;
  site_tag : string;
  env_tag : string;
  broker_slot : Z;
  internal_poll_url : string;
  internal_poll_timeout : Z;
  job_store : option PersistenceStore;
  broker_lease_ttl : Z;
  persist_after : option Z;
  job_limit : Z
}.

Record Bootstrap : Type := mkBootstrap {
  runtime_config : RuntimeConfig;
  server_config : ServerConfig F;
  had_server_section : bool;
  metrics_buckets : HistogramBuckets F
}.

(** A section of the configuration, when there is one. *)
Definition section_of {A} (name target : string) (f : V -> result string A) (raw : V) : result BitsError (option A) :=
  transpose (decode name target f) (get name raw).

Definition max_jobs_ok (n : option Z) : result BitsError unit :=
  if decide (n = Some 0) then validation "bits.max_jobs" "must be greater than zero" else Ok tt.

Definition retry_after_ok (n : Z) : result BitsError unit :=
  if n =? 0 then validation "server.retry_after_secs" "must be greater than zero" else Ok tt.

(** A job must be persisted before a poll gives up on it.  The sum of durations
    does not overflow: [persist_after] comes from an f64, and the greatest one
    below 2^64 seconds leaves 2048 of them. *)
Definition persist_ok (p : option (PersistenceConfig F)) (persist_after : option Z) (poll_timeout : Z)
    : result BitsError unit :=
  match p, persist_after with
  | Some _, Some persist_after =>
      if poll_timeout <=? persist_after + PERSIST_GUARD
      then validation "bits.persist_after_secs"
             ("bits.persist_after_secs (" ++ seconds_text persist_after
              ++ " s) + 1 s guard must be less than server.poll_timeout_secs (" ++ seconds_text poll_timeout ++ " s)")
      else Ok tt
  | _, _ => Ok tt
  end.

(** The branches of the router; a router without any is not validated. *)
Definition parse_router (fuel : nat) (raw : V) (f : RouteFactory) : option (result BitsError (Switch * RouteFactory)) :=
  match get "routes" raw with
  | None => Some (Ok (mkSwitch [], f))
  | Some routes_val =>
      '(r, f) ← factory_parse_route fuel "routes" routes_val f;
      Some (let? branches := r in
            let router := mkSwitch branches in
            let? _ := if decide (branches = []) then Ok tt else map_err BRouting (validate router) in
            Ok (router, f))
  end.

Definition yaml (config : string) : result BitsError V :=
  let? raw := map_err (fun e => BConfig (Yaml e)) (from_str config) in
  match as_object raw with
  | None => validation "config" "top-level config must be a YAML mapping"
  | Some _ => Ok raw
  end.

Definition start_worker_server_of (c : WorkerServerConfig) : WorkerServer nat :=
  with_advertised_addr c.(ws_host) c.(ws_port) c.(ws_advertised_addr).

Definition parse_buckets (m : MetricsConfig F) : result BitsError (HistogramBuckets F) :=
  let? durations := resolve_buckets "metrics.duration_buckets" m.(duration_buckets) default_buckets.(duration) in
  let? queue_waits := resolve_buckets "metrics.queue_wait_buckets" m.(queue_wait_buckets) default_buckets.(queue_wait) in
  Ok (mkHistogramBuckets durations queue_waits).

Definition broker_id_of (site env : string) (slot : Z) : string := (site ++ "-" ++ env ++ "-" ++ pretty slot)%string.

(** Everything but the router: the factory has parsed nothing yet. *)
Definition parse_sections (raw : V) : result BitsError Bootstrap :=
  let? bits := section_of "bits" "BitsConfig" decode_bits raw in
  let bits := default default_bits_config bits in
  let worker_server := start_worker_server_of <$> bits.(worker_server_cfg) in
  let? site := require_site_env_tag tag_error_text "bits.site" bits.(site) in
  let? env := require_site_env_tag tag_error_text "bits.env" bits.(env) in
  let? internal_poll_timeout := positive_duration_secs "bits.internal_poll_timeout_secs"
                                  (default (of_ms 2500) bits.(internal_poll_timeout_secs)) in
  let? sweep_interval := transpose (positive_duration_secs "bits.sweep_interval_secs") bits.(sweep_interval_secs) in
  let? reconnect_buffer := positive_duration_secs "bits.reconnect_buffer_secs"
                             (default (of_ms 5000) bits.(reconnect_buffer_secs)) in
  let? persist_after := transpose (duration_secs "bits.persist_after_secs") bits.(persist_after_secs) in
  let? _ := max_jobs_ok bits.(max_jobs) in
  let? server := section_of "server" "ServerConfig" decode_server raw in
  let had_server_section := bool_decide (is_Some server) in
  let server := default default_server_config server in
  let? metrics := section_of "metrics" "MetricsConfig" decode_metrics raw in
  let? buckets := parse_buckets (default (mkMetricsConfig None None) metrics) in
  let? poll_timeout := positive_duration_secs "server.poll_timeout_secs" server.(poll_timeout_secs) in
  let? _ := retry_after_ok server.(retry_after_secs) in
  let endpoint := default (derive_endpoint server.(server_host) server.(server_port)) bits.(internal_poll_endpoint) in
  let? _ := persist_ok bits.(persistence) persist_after poll_timeout in
  let? (job_store, lease_ttl) := open_persistence d bits.(persistence) in
  let persist_after := match job_store with None => None | Some _ => persist_after end in
  let? slot := match job_store with
               | Some store => allocate_startup_broker_slot d store site env
               | None => Ok 0
               end in
  let? checks := section_of "checks" "map" decode_map raw in
  let? transforms := section_of "transforms" "map" decode_map raw in
  let? targets := section_of "targets" "map" decode_map raw in
  let factory := mkRouteFactory (mkRegistries (default ∅ checks) (default ∅ transforms) (default ∅ targets))
                   (broker_id_of site env slot) (bool_decide (is_Some job_store))
                   (mkParseState ∅ worker_server 0 []) in
  Ok (mkBootstrap (mkRuntimeConfig (mkSwitch []) factory sweep_interval reconnect_buffer site env slot endpoint
                     internal_poll_timeout job_store lease_ttl persist_after (default DEFAULT_MAX_JOBS bits.(max_jobs)))
        server had_server_section buckets).

Definition with_router (router : Switch) (f : RouteFactory) (b : Bootstrap) : Bootstrap :=
  let c := b.(runtime_config) in
  mkBootstrap (mkRuntimeConfig router f c.(sweep_interval) c.(reconnect_buffer) c.(site_tag) c.(env_tag) c.(broker_slot)
                 c.(internal_poll_url) c.(internal_poll_timeout) c.(job_store) c.(broker_lease_ttl) c.(persist_after)
                 c.(job_limit))
    b.(server_config) b.(had_server_section) b.(metrics_buckets).

(** [None]: the fuel for the depth of the routes ran out. *)
Definition parse_bootstrap (fuel : nat) (config : string) : option (result BitsError Bootstrap) :=
  match yaml config with
  | Err e => Some (Err e)
  | Ok raw =>
      match parse_sections raw with
      | Err e => Some (Err e)
      | Ok b =>
          r ← parse_router fuel raw b.(runtime_config).(route_factory);
          Some (let? (router, f) := r in Ok (with_router router f b))
      end
  end.

(** ** What an accepted configuration promises *)

(** The default, or finite, not negative and strictly increasing. *)
Definition buckets_valid (dflt buckets : list F) : Prop :=
  buckets = dflt \/
  buckets <> [] /\ Forall (fun b => is_finite b = true /\ is_negative_value b = false) buckets /\ Sorted above buckets.

(** The timings, limits and identity. *)
Record settings_valid (b : Bootstrap) : Prop := {
  valid_tags : valid_tag b.(runtime_config).(site_tag) /\ valid_tag b.(runtime_config).(env_tag);
  valid_intervals : b.(runtime_config).(internal_poll_timeout) <> 0 /\ b.(runtime_config).(reconnect_buffer) <> 0 /\
    b.(runtime_config).(sweep_interval) <> Some 0;
  valid_job_limit : b.(runtime_config).(job_limit) <> 0;
  valid_retry_after : b.(server_config).(retry_after_secs) <> 0;
  valid_poll_timeout : exists t, try_from_secs_f64 b.(server_config).(poll_timeout_secs) = Ok t /\ t <> 0;
  valid_without_store : b.(runtime_config).(job_store) = None ->
    b.(runtime_config).(persist_after) = None /\ b.(runtime_config).(broker_slot) = 0;
  valid_lease : seconds 1 <= b.(runtime_config).(broker_lease_ttl);
  valid_persist_after : forall p, b.(runtime_config).(persist_after) = Some p ->
    exists poll_timeout, try_from_secs_f64 b.(server_config).(poll_timeout_secs) = Ok poll_timeout /\
      p + PERSIST_GUARD < poll_timeout;
  valid_buckets : buckets_valid default_buckets.(duration) b.(metrics_buckets).(duration) /\
    buckets_valid default_buckets.(queue_wait) b.(metrics_buckets).(queue_wait);
  valid_slot : forall store, b.(runtime_config).(job_store) = Some store ->
    d.(allocate_broker_slot) store b.(runtime_config).(site_tag) b.(runtime_config).(env_tag)
      = Some (Ok b.(runtime_config).(broker_slot))
}.

(** Splits the steps of a chain that is known to end in [Ok]. *)
Ltac steps_ok H :=
  repeat match type of H with
  | match ?e with Ok _ => _ | Err _ => _ end = Ok _ =>
      let E := fresh "Hok" in destruct e eqn:E; [|discriminate H]
  | (let '(_, _) := ?p in _) = Ok _ => destruct p
  | (if ?b then _ else _) = Ok _ => let E := fresh "Hif" in destruct b eqn:E; try discriminate H
  end.

Lemma tag_valid field value tag : require_site_env_tag tag_error_text field value = Ok tag -> valid_tag tag.
Proof.
  unfold require_site_env_tag. destruct value as [v|]; [|done]. intros Hr.
  destruct (match view v with VString _ => _ | _ => _ end) as [t|]; [|done].
  destruct (pack_tag t) eqn:Hp; [|done]. injection Hr as <-. apply pack_tag_valid. by eexists.
Qed.

Lemma resolve_buckets_valid field o dflt (r : list F) : resolve_buckets field o dflt = Ok r -> buckets_valid dflt r.
Proof.
  unfold resolve_buckets. destruct o as [b|]; [|intros [= <-]; by left].
  destruct (validate_buckets field b) as [[]|] eqn:Hb; [|done]. intros [= <-]. right. by eapply validate_buckets_iff.
Qed.

Lemma lease_at_least (secs : F) ttl : lease_ttl_secs secs = Ok ttl -> seconds 1 <= ttl.
Proof.
  unfold lease_ttl_secs. destruct (duration_secs _ _) as [t|]; [|done]. simpl.
  destruct (Z.ltb_spec t (seconds 1)); [done|]. by intros [= <-].
Qed.

Lemma open_persistence_lease (p : option (PersistenceConfig F)) store ttl :
  open_persistence d p = Ok (store, ttl) -> seconds 1 <= ttl /\ (store <> None -> p <> None).
Proof.
  destruct p as [[endpoints secs ct|url jb lb secs n ct att tomb]|]; simpl.
  - destruct (open_tikv _ _ _ _) as [[s t]|] eqn:Ho; [|done]. intros [= <- <-]. unfold open_tikv in Ho.
    steps_ok Ho; unfold feature_disabled, validation in *; simplify_eq. split; [by eapply lease_at_least|done].
  - destruct (open_nats _ _ _ _ _ _ _ _ _) as [[s t]|] eqn:Ho; [|done]. intros [= <- <-]. unfold open_nats in Ho.
    steps_ok Ho; unfold feature_disabled in *; simplify_eq; (split; [by eapply lease_at_least|done]).
  - intros [= <- <-]. split; [|done]. unfold DEFAULT_LEASE_TTL, seconds, nanos_per_sec. lia.
Qed.

Lemma persist_ok_spec (p : option (PersistenceConfig F)) after poll u :
  persist_ok p (Some after) poll = Ok u -> p <> None -> after + PERSIST_GUARD < poll.
Proof.
  unfold persist_ok. destruct p; [|done]. destruct (Z.leb_spec poll (after + PERSIST_GUARD)); [done|]. by intros _ _.
Qed.

Lemma transpose_positive field (o : option F) r :
  transpose (positive_duration_secs field) o = Ok r -> r <> Some 0.
Proof.
  destruct o as [x|]; simpl; [|by intros [= <-]].
  destruct (positive_duration_secs field x) as [t|] eqn:Hp; [|done]. intros [= <-] [= ->].
  by apply positive_duration_ok in Hp as [_ ?].
Qed.

(** The factory as it starts. *)
Definition factory_fresh (f : RouteFactory) : Prop := cache_wf f.(factory_state) /\ server_ready f.(factory_state).

Lemma max_jobs_valid n u : max_jobs_ok n = Ok u -> default DEFAULT_MAX_JOBS n <> 0.
Proof. unfold max_jobs_ok. case_decide; [done|]. intros _. destruct n as [n|]; simpl; [congruence|done]. Qed.

Lemma retry_after_valid n u : retry_after_ok n = Ok u -> n <> 0.
Proof. unfold retry_after_ok. by destruct (Z.eqb_spec n 0). Qed.

Lemma parse_buckets_valid m r : parse_buckets m = Ok r ->
  buckets_valid default_buckets.(duration) r.(duration) /\ buckets_valid default_buckets.(queue_wait) r.(queue_wait).
Proof.
  unfold parse_buckets. intros Hp. steps_ok Hp. injection Hp as <-.
  split; by eapply resolve_buckets_valid.
Qed.

Lemma allocated store site env n :
  allocate_startup_broker_slot d store site env = Ok n -> d.(allocate_broker_slot) store site env = Some (Ok n).
Proof.
  unfold allocate_startup_broker_slot. destruct (slot_runtime d); [|done]. simpl.
  destruct (allocate_broker_slot d store site env) as [[]|]; simpl; try done. by intros [= ->].
Qed.

Lemma parse_sections_valid raw b : parse_sections raw = Ok b -> settings_valid b /\ factory_fresh b.(runtime_config).(route_factory) /\
    b.(runtime_config).(route_factory).(factory_broker_id)
      = broker_id_of b.(runtime_config).(site_tag) b.(runtime_config).(env_tag) b.(runtime_config).(broker_slot).
Proof.
  unfold parse_sections. intros Hp. steps_ok Hp. injection Hp as <-.
  apply positive_duration_ok in Hok2 as [_ Ht2], Hok4 as [_ Ht4], Hok10 as [Hpoll Hpoll0].
  apply transpose_positive in Hok3. apply max_jobs_valid in Hok6. apply retry_after_valid in Hok11.
  apply parse_buckets_valid in Hok9. apply tag_valid in Hok0, Hok1.
  apply open_persistence_lease in Hok13 as [Hlease Hstore]. split.
  - split; simpl; try done.
    + by eexists.
    + intros ->. split; [done|by injection Hok14].
    + destruct o as [store|]; [|done]. intros p ->. exists a10. split; [done|].
      eapply persist_ok_spec; [exact Hok12|by apply Hstore].
    + intros store ->. by apply allocated.
  - split; [|done]. split; unfold cache_wf, server_ready; simpl.
    + split_and!; [constructor| | |].
      * intros n. rewrite lookup_empty. split; [by intros ?%elem_of_nil|by intros []].
      * intros n t dd s. by rewrite lookup_empty.
      * intros n1 n2 t1 t2 d1 d2 s1 s2. by rewrite lookup_empty.
    + destruct (worker_server_cfg _); simpl; [|done]. intros Hne. by destruct (Hne eq_refl).
Qed.

(** The router and what parsing it left behind. *)
Definition router_valid (s : Switch) : Prop := routes s = [] \/ well_formed s.

Lemma factory_parse_valid fuel name value f r f' :
  factory_parse_route fuel name value f = Some (r, f') -> factory_fresh f ->
  factory_fresh f' /\ f'.(factory_registries) = f.(factory_registries) /\
  f'.(factory_broker_id) = f.(factory_broker_id) /\
  f.(factory_state).(resolved_targets) ⊆ f'.(factory_state).(resolved_targets) /\
  (is_ok r = false -> f'.(factory_state).(resolved_targets) = f.(factory_state).(resolved_targets)).
Proof.
  unfold factory_parse_route. intros Hf [Hwf Hws].
  apply bind_Some in Hf as ([r' st] & Hr & [= <- <-]). apply route_grows in Hr as [(Hsub & _ & Hws' & Hwf') Herr].
  simpl. split_and!; try done. split; auto.
Qed.

Lemma parse_router_valid fuel raw f router f' :
  parse_router fuel raw f = Some (Ok (router, f')) -> factory_fresh f ->
  router_valid router /\ factory_fresh f' /\ f'.(factory_broker_id) = f.(factory_broker_id).
Proof.
  unfold parse_router. destruct (get "routes" raw) as [v|]; [|intros [= <- <-]; split; [by left|done]].
  intros Hp Hf. apply bind_Some in Hp as ([r f1] & Hr & Hp). injection Hp as Hp. steps_ok Hp. injection Hp as <- <-.
  apply factory_parse_valid in Hr as (Hf1 & _ & Hid & _); [|done]. split; [|done]. unfold router_valid. simpl.
  revert Hok0. case_decide as Hb; [by left|]. intros Hv. right. apply validate_well_formed. 
  change (map_err BRouting (validate (mkSwitch a)) = Ok a0) in Hv.
  by destruct (validate (mkSwitch a)) as [[]|].
Qed.

Lemma parse_bootstrap_parts fuel config b :
  parse_bootstrap fuel config = Some (Ok b) ->
  settings_valid b /\ router_valid b.(runtime_config).(router) /\ factory_fresh b.(runtime_config).(route_factory) /\
  b.(runtime_config).(route_factory).(factory_broker_id)
    = broker_id_of b.(runtime_config).(site_tag) b.(runtime_config).(env_tag) b.(runtime_config).(broker_slot).
Proof.
  unfold parse_bootstrap. destruct (yaml config) as [raw|]; [|done].
  destruct (parse_sections raw) as [b0|] eqn:Hs; [|done]. apply parse_sections_valid in Hs as (Hv & Hf & Hname).
  intros Hp. apply bind_Some in Hp as ([[router f]|] & Hr & Hp); [|done]. injection Hp as <-.
  apply parse_router_valid in Hr as (Hrouter & Hf' & Hid); [|done]. split; [by destruct Hv; split|].
  split; [done|]. split; [done|]. simpl. by rewrite Hid.
Qed.

(** ** The broker that is started *)

Definition broker_config (c : RuntimeConfig) : BrokerConfig :=
  mkBrokerConfig c.(job_limit) c.(site_tag) c.(env_tag) c.(broker_slot) c.(reconnect_buffer)
    (bool_decide (is_Some c.(persist_after))) (bool_decide (is_Some c.(job_store))).

(** C22. The identity of a broker is one: the ids it hands out decode to the very
    broker id under which it keeps its lease and its user slots, whatever the
    configured tags, and handing one out never fails before the ids run out. *)
Theorem started_ids_route_home fuel config b rnd now :
  (forall store s e n, d.(allocate_broker_slot) store s e = Some (Ok n) -> 0 <= n <= u16_max) ->
  parse_bootstrap fuel config = Some (Ok b) ->
  byte_list 5 rnd -> custom_epoch <= now < custom_epoch + 2 ^ 32 * nanos_per_sec ->
  exists id, new_job_id (broker_config b.(runtime_config)) rnd now = Ok id /\
    slot_from_job_id id = Ok b.(runtime_config).(route_factory).(factory_broker_id) /\
    b.(runtime_config).(route_factory).(factory_broker_id) = broker_name (broker_config b.(runtime_config)).
Proof.
  intros Halloc (Hv & _ & _ & Hname)%parse_bootstrap_parts Hrnd Hnow. rewrite Hname.
  assert (is_ok (new_job_id (broker_config b.(runtime_config)) rnd now) = true) as Hok.
  { apply encode_succeeds_iff. by destruct (valid_tags _ Hv). }
  assert (0 <= b.(runtime_config).(broker_slot) <= u16_max) as Hslot.
  { destruct (job_store b.(runtime_config)) as [store|] eqn:Hstore.
    - eapply Halloc, (valid_slot _ Hv), Hstore.
    - destruct (valid_without_store _ Hv Hstore) as [_ ->]. unfold u16_max. lia. }
  destruct (new_job_id _ rnd now) as [id|] eqn:Hnew; [|done]. exists id. split; [done|]. split; [|done].
  pose proof (decode_encode_aux _ _ _ _ _ _ Hslot Hrnd Hnew) as Hd.
  unfold slot_from_job_id, decode_job_id. by rewrite Hd.
Qed.

Record RouteHandle : Type := mkRouteHandle {
  handle_name : string;
  handle_router : Switch
}.

(** The broker and the threads it starts. *)
Record Runtime : Type := mkRuntime {
  run_config : BrokerConfig;
  run_router : Switch;
  run_factory : RouteFactory;
  internal_poll_base_url : string;
  run_poll_timeout : Z;
  run_sweep_interval : Z;
  cleanup_worker : bool;
  heartbeat : option Z;
  added_routes : list RouteHandle;
  run_bits : Bits V
}.

Definition DEFAULT_SWEEP_INTERVAL : Z := seconds 180.

(** [client]: building the HTTP client of the proxy. *)
Definition from_runtime_config (client : result string unit) (c : RuntimeConfig) : result BitsError Runtime :=
  let? _ := map_err (fun e => BConfig (Validation "internal_client" e)) client in
  Ok (mkRuntime (broker_config c) c.(router) c.(route_factory) c.(internal_poll_url) c.(internal_poll_timeout)
        (default DEFAULT_SWEEP_INTERVAL c.(sweep_interval)) (bool_decide (is_Some c.(job_store)))
        ((fun _ => c.(broker_lease_ttl)) <$> c.(job_store)) [] bits_new).

Definition into_parts (client : result string unit) (b : Bootstrap) : result BitsError (Runtime * ServerConfig F) :=
  let? bits := from_runtime_config client b.(runtime_config) in Ok (bits, b.(server_config)).

Definition with_run_factory (f : RouteFactory) (rt : Runtime) : Runtime :=
  mkRuntime rt.(run_config) rt.(run_router) f rt.(internal_poll_base_url) rt.(run_poll_timeout)
    rt.(run_sweep_interval) rt.(cleanup_worker) rt.(heartbeat) rt.(added_routes) rt.(run_bits).
Definition with_added (handles : list RouteHandle) (rt : Runtime) : Runtime :=
  mkRuntime rt.(run_config) rt.(run_router) rt.(run_factory) rt.(internal_poll_base_url) rt.(run_poll_timeout)
    rt.(run_sweep_interval) rt.(cleanup_worker) rt.(heartbeat) handles rt.(run_bits).

Definition route_names (rt : Runtime) : list string :=
  Routing.route_names rt.(run_router) ++ flat_map (fun h => Routing.route_names h.(handle_router)) rt.(added_routes).

(** [RouteFactory::start_worker_server]. *)
Definition start_worker_server (f : RouteFactory) : result BitsError unit * RouteFactory :=
  let st := f.(factory_state) in
  match st.(worker_server) with
  | None => (Ok tt, f)
  | Some ws =>
      let '(r, ws') := start listener ws in
      (map_err (fun e => BWorkerServer (Bind (address ws) e)) r,
       with_factory_state (mkParseState st.(resolved_targets) (Some ws') st.(next_handle) st.(cached)) f)
  end.

(** The handle is stored before the worker server is started. *)
Definition add_route (fuel : nat) (name : string) (route_value : V) (rt : Runtime)
    : option (result BitsError RouteHandle * Runtime) :=
  '(r, f) ← factory_parse_route fuel name route_value rt.(run_factory);
  let rt := with_run_factory f rt in
  Some (match r with
        | Err e => (Err e, rt)
        | Ok routes =>
            let switch := mkSwitch routes in
            match validate switch with
            | Err e => (Err (BRouting e), rt)
            | Ok _ =>
                let h := mkRouteHandle name switch in
                let rt := with_added (rt.(added_routes) ++ [h]) rt in
                let '(started, f) := start_worker_server rt.(run_factory) in
                ((let? _ := started in Ok h), with_run_factory f rt)
            end
        end).

(** [Drop]: the dispatchers that are closed, in order, and the worker server
    after its shutdown. *)
Definition drop_bits (rt : Runtime) : list BuiltDispatcher * option (WorkerServer nat) :=
  (close_all rt.(run_router) ++ flat_map (fun h => close_all h.(handle_router)) rt.(added_routes),
   shutdown <$> rt.(run_factory).(factory_state).(worker_server)).

(** What every broker in operation keeps. *)
Definition runtime_valid (rt : Runtime) : Prop :=
  router_valid rt.(run_router) /\ factory_fresh rt.(run_factory) /\
  Forall (fun h => well_formed h.(handle_router)) rt.(added_routes).

(** C21. What the start promises: tags that pack into job ids, timings and limits
    that are not zero, a lease of a second at least, persistence that sets in
    before a poll gives up and only when there is a store, the slot the store
    allocated, increasing buckets; and the broker that is built from it has a
    router that passes validation or is empty, a factory whose names have one
    target each, and a heartbeat and a cleanup worker exactly with a store. *)
Theorem bootstrap_valid fuel config b :
  parse_bootstrap fuel config = Some (Ok b) ->
  settings_valid b /\
    forall client rt server, into_parts client b = Ok (rt, server) ->
    runtime_valid rt /\ rt.(added_routes) = [] /\ rt.(run_sweep_interval) <> 0 /\
    (rt.(cleanup_worker) = true <-> b.(runtime_config).(job_store) <> None) /\
    (forall ttl, rt.(heartbeat) = Some ttl -> seconds 1 <= ttl) /\
    (rt.(heartbeat) = None <-> b.(runtime_config).(job_store) = None).
Proof.
  intros (Hv & Hrouter & Hf & _)%parse_bootstrap_parts. split; [done|]. intros client rt server.
  unfold into_parts, from_runtime_config. destruct client; [|done]. simpl. intros [= <- <-]. simpl.
  destruct (valid_intervals _ Hv) as (_ & _ & Hsweep). pose proof (valid_lease _ Hv) as Hlease. split_and!.
  - by split_and!.
  - done.
  - destruct (sweep_interval _); simpl; [congruence|done].
  - rewrite bool_decide_eq_true. by rewrite <- not_eq_None_Some.
  - by destruct (job_store _); [intros ttl [= <-]|].
  - by destruct (job_store _).
Qed.

(** C32. Adding a route is all or nothing: the handle that is returned is the one
    that is stored, behind the routes that were there, and its routes are well
    formed; a route that is refused leaves the stored routes as they were.  In
    both cases the broker stays valid. *)
Theorem add_route_atomic fuel name value rt r rt' :
  runtime_valid rt -> add_route fuel name value rt = Some (r, rt') ->
  runtime_valid rt' /\ rt'.(run_router) = rt.(run_router) /\
  match r with
  | Ok h => h.(handle_name) = name /\ well_formed h.(handle_router) /\ rt'.(added_routes) = rt.(added_routes) ++ [h]
  | Err _ => rt'.(added_routes) = rt.(added_routes)
  end.
Proof.
  intros (Hrouter & Hf & Hadded) Ha. apply bind_Some in Ha as ([parsed f] & Hp & Ha). apply (inj Some) in Ha. cbv zeta in Ha.
  apply factory_parse_valid in Hp as (Hf' & _ & _ & _ & _); [|done].
  destruct parsed as [routes|e]; [|by injection Ha as <- <-].
  destruct (validate (mkSwitch routes)) as [[]|e] eqn:Hv; [|by injection Ha as <- <-].
  apply validate_well_formed in Hv. destruct (start_worker_server f) as [started f1] eqn:Hs.
  assert (started = Ok tt /\ factory_fresh f1) as [-> Hf1].
  { unfold start_worker_server in Hs. destruct (worker_server f.(factory_state)) as [ws|] eqn:Hws; [|by injection Hs as <- <-].
    destruct Hf' as [Hwf Hready]. unfold server_ready in Hready. rewrite Hws in Hready.
    rewrite start_idle in Hs by done. injection Hs as <- <-. split; [done|]. split; [|done]. exact Hwf. }
  simpl in Ha. rewrite Hs in Ha. injection Ha as <- <-. split; [|done].
  split; [done|]. split; [done|]. apply Forall_app. by split; [|constructor].
Qed.
End bootstrap.

(** ** A concrete start *)

Module Sample.
Import Config.Sample.

Definition bits_cfg : BitsConfig sample Z :=
  mkBitsConfig None (Some (JString "bol")) (Some (JString "dev")) None None None None (Some (seconds 5))
    (Some (TikvConfig ["pd0:2379"%string] (seconds 30) None)) (Some (mkWorkerServerConfig "0.0.0.0" 9001 None)) None.

Definition raw_cfg : sample := JObject [("bits"%string, JNull); ("targets"%string, JNull); ("routes"%string, route_value)].

Definition from_str (s : string) : result string sample := if decide (s = "broker.yaml"%string) then Ok raw_cfg else Err "eof"%string.
Definition decode_bits (v : sample) : result string (BitsConfig sample Z) := Ok bits_cfg.
Definition decode_server (v : sample) : result string (ServerConfig Z) := Err "not an object"%string.
Definition decode_metrics (v : sample) : result string (MetricsConfig Z) := Err "not an object"%string.
Definition decode_map (v : sample) : result string (gmap string sample) := Ok {["mars"%string := mars]}.
Definition no_texts {A} (a : A) : string := "?"%string.

(** A TiKV build whose cluster hands out slot 42. *)
Definition cluster : Deployment :=
  mkDeployment true false true (fun _ _ => Err "no nats"%string) (Ok tt) (fun _ _ _ => Some (Ok 42)).

Abbreviation bootstrap_of := (parse_bootstrap from_str decode_bits decode_server decode_metrics decode_map
  decode_queue decode_executor no_texts no_texts no_texts registry serving cluster).
Abbreviation add := (add_route decode_queue decode_executor no_texts registry serving).

Lemma bootstrap_valid_witness :
  match bootstrap_of 5 "broker.yaml" with
  | Some (Ok b) => settings_valid cluster b
  | _ => False
  end.
Proof.
  destruct (bootstrap_of 5 "broker.yaml") as [[b|e]|] eqn:Hb;
    [|vm_compute in Hb; discriminate Hb|vm_compute in Hb; discriminate Hb].
  exact (proj1 (bootstrap_valid _ _ _ _ _ _ _ _ _ _ _ _ _ _ _ _ Hb)).
Defined.

Lemma started_ids_route_home_witness :
  match bootstrap_of 5 "broker.yaml" with
  | Some (Ok b) => exists id, new_job_id (broker_config b.(runtime_config)) [1; 2; 3; 4; 5] custom_epoch = Ok id /\
      slot_from_job_id id = Ok b.(runtime_config).(route_factory).(factory_broker_id)
  | _ => False
  end.
Proof.
  destruct (bootstrap_of 5 "broker.yaml") as [[b|e]|] eqn:Hb;
    [|vm_compute in Hb; discriminate Hb|vm_compute in Hb; discriminate Hb].
  destruct (started_ids_route_home from_str decode_bits decode_server decode_metrics decode_map decode_queue
    decode_executor no_texts no_texts no_texts registry serving cluster 5 "broker.yaml" b [1; 2; 3; 4; 5] custom_epoch)
    as (id & Hid & Hhome & _).
  - intros store s e n [= <-]. vm_compute. split; discriminate.
  - exact Hb.
  - apply (bool_decide_unpack _). vm_compute. reflexivity.
  - vm_compute. split; [discriminate|reflexivity].
  - exists id. split; [exact Hid|exact Hhome].
Defined.

Definition started : @Runtime sample unit :=
  mkRuntime (mkBrokerConfig 10 "bol" "dev" 42 0 true true) (mkSwitch [])
    (mkRouteFactory Config.Sample.registries "bol-dev-42" true st0) "http://127.0.0.1:8080/job" 1 1 true (Some (seconds 30)) [] bits_new.

Lemma add_route_atomic_witness :
  match add 5 "extra" route_value started with
  | Some (Ok h, rt) => well_formed h.(handle_router) /\ rt.(added_routes) = [h]
  | _ => False
  end.
Proof.
  destruct (add 5 "extra" route_value started) as [[[h|e] rt]|] eqn:Ha;
    [|vm_compute in Ha; discriminate Ha|vm_compute in Ha; discriminate Ha].
  assert (runtime_valid started) as Hv.
  { split; [left; reflexivity|]. split; [|constructor]. split; [exact st0_wf|]. intros Hne. destruct (Hne eq_refl). }
  destruct (add_route_atomic _ _ _ _ _ _ _ _ _ _ _ Hv Ha) as (_ & _ & _ & Hwf & Hadded). split; [exact Hwf|exact Hadded].
Defined.
End Sample.
