(* ===== verification/Heartbeat.v ===== *)
(** * The lease heartbeat and the end of a broker ([runtime/recovery.rs],
    [runtime/maintenance.rs], [bits.rs])

    The thread that renews the lease of a broker until shutdown and then drains,
    and the worker that deletes the durable records of finished jobs.  Time
    passes and the other threads and brokers act whenever the thread blocks:
    they are parameters with laws. *)
From S2P Require Import Prelude Errors Job Store Recovery.

Definition ms (n : Z) : Z := n * 1000000.

(** What the thread sees: the clock, the shutdown flag, the jobs in flight and
    the store; [blocked] numbers the calls it blocked in, and [renewals] lists
    its renewals, the last one first: the instant and the lease in the store
    when it took effect, and whether it succeeded.  [deletions] lists the
    deletions of the lease the thread asked for, the last one first: the instant
    and the jobs in flight when it went for it, and whether it succeeded. *)
Record Renewal : Type := mkRenewal {
  renewed_at : Z;
  seen : result DbError (option BrokerLeaseRecord);
  succeeded : bool
}.

Record Deletion : Type := mkDeletion {
  begun_at : Z;
  unfinished : Z;
  removed : bool
}.

Record World (S : Type) : Type := mkWorld {
  clock : Z;
  stopped : bool;
  in_flight : Z;
  store : S;
  blocked : nat;
  renewals : list Renewal;
  deletions : list Deletion
}.
Arguments mkWorld {S}. Arguments clock {S}. Arguments stopped {S}. Arguments in_flight {S}.
Arguments store {S}. Arguments blocked {S}. Arguments renewals {S}. Arguments deletions {S}.

Section heartbeat.
Context {S : Type} `{BrokerLeaseStore S}.

(** What happens while a call blocks: a wait on the condition variable, a sleep
    of the given duration, or a request to the store. *)
Inductive Blocking : Type := Waiting (d : Z) | Sleeping (d : Z) | Requesting.
Context (elapse : nat -> Blocking -> World S -> World S).

Definition block (c : Blocking) (w : World S) : World S :=
  let w' := elapse w.(blocked) c w in
  mkWorld w'.(clock) w'.(stopped) w'.(in_flight) w'.(store) (Datatypes.S w.(blocked)) w.(renewals)
    w.(deletions).

(** ** [ShutdownSignal] *)

Definition stop (w : World S) : World S :=
  mkWorld w.(clock) true w.(in_flight) w.(store) w.(blocked) w.(renewals) w.(deletions).
Definition is_stopped (w : World S) : bool := w.(stopped).
Definition wait_timeout (d : Z) (w : World S) : World S := if w.(stopped) then w else block (Waiting d) w.

(** ** The thread *)

Context (broker_id base_url : string) (ttl : Z).

(** [broker_lease_ttl.div_f64(2.0)], an f64 quotient rounded to nanoseconds. *)
Context (div_f64_2 : Z -> Z).

Definition tick : Z := Z.max (div_f64_2 ttl) (ms 100).
Definition retry_delay : Z := Z.min (ms 500) tick.

(** A renewal: the request travels, takes effect and is answered. *)
Definition renew (w : World S) : result DbError unit * World S :=
  let w := block Requesting w in
  let '(r, s) := upsert_broker_lease w.(clock) broker_id base_url ttl w.(store) in
  let entry := mkRenewal w.(clock) (get_broker_lease broker_id w.(store)) (is_ok r) in
  (r, block Requesting (mkWorld w.(clock) w.(stopped) w.(in_flight) s w.(blocked) (entry :: w.(renewals)) w.(deletions))).

Fixpoint drain (fuel : nat) (deadline : Z) (w : World S) : option (World S) :=
  match fuel with
  | O => None
  | Datatypes.S fuel =>
      if (0 <? w.(in_flight)) && (w.(clock) <? deadline) then drain fuel deadline (block (Sleeping (ms 50)) w)
      else Some w
  end.

Definition delete_lease (w : World S) : World S :=
  let begun := w.(clock) in
  let left_over := w.(in_flight) in
  let w := block Requesting w in
  let '(r, s) := delete_broker_lease broker_id w.(store) in
  mkWorld w.(clock) w.(stopped) w.(in_flight) s w.(blocked) w.(renewals)
    (mkDeletion begun left_over (is_ok r) :: w.(deletions)).

Definition drain_and_delete (fuel : nat) (w : World S) : option (World S) :=
  delete_lease <$> drain fuel (w.(clock) + ttl) w.

(** One turn of the loop: whether it goes on. *)
Definition beat (w : World S) : bool * World S :=
  if is_stopped w then (false, w)
  else
    let '(r, w) := renew w in
    match r with
    | Ok _ => (true, wait_timeout tick w)
    | Err _ =>
        let w := wait_timeout retry_delay w in
        if is_stopped w then (false, w)
        else let '(_, w) := renew w in (true, wait_timeout tick w)
    end.

(** [fuel] bounds the turns, [None] is a thread that still runs. *)
Fixpoint beats (fuel : nat) (w : World S) : bool * World S :=
  match fuel with
  | O => (true, w)
  | Datatypes.S fuel => let '(go, w) := beat w in if go then beats fuel w else (false, w)
  end.

Definition heartbeat (fuel drain_fuel : nat) (w : World S) : option (World S) :=
  let '(go, w) := beats fuel w in
  if go then None else drain_and_delete drain_fuel w.

(** ** The lease does not lapse *)

(** [late] bounds how much longer than asked a wait or a request takes; nobody
    else writes this broker's lease. *)
Context (late : Z).
Hypothesis elapse_wait : forall n d w, 0 <= d -> (elapse n (Waiting d) w).(clock) <= w.(clock) + d + late.
Hypothesis elapse_request : forall n w, (elapse n Requesting w).(clock) <= w.(clock) + late.
Hypothesis elapse_lease : forall n c w, get_broker_lease broker_id (elapse n c w).(store) = get_broker_lease broker_id w.(store).
Hypothesis renewed : forall now s s', upsert_broker_lease now broker_id base_url ttl s = (Ok tt, s') ->
  exists l, get_broker_lease broker_id s' = Ok (Some l) /\ l.(lease_until) = now + ttl.
Hypothesis not_renewed : forall now s e s', upsert_broker_lease now broker_id base_url ttl s = (Err e, s') ->
  get_broker_lease broker_id s' = get_broker_lease broker_id s.
Hypothesis late_nonneg : 0 <= late.

(** The lease in the store is no older than [age]. *)
Definition fresh (age : Z) (w : World S) : Prop :=
  exists l, get_broker_lease broker_id w.(store) = Ok (Some l) /\ w.(clock) + ttl <= l.(lease_until) + age.

(** Every renewal after the first successful one found a live lease. *)
Fixpoint unbroken (l : list Renewal) : Prop :=
  match l with
  | [] => True
  | e :: l => unbroken l /\
      (existsb succeeded l = true -> exists lease, e.(seen) = Ok (Some lease) /\ e.(renewed_at) < lease.(lease_until))
  end.

(** A failed renewal is followed by one that succeeds. *)
Fixpoint no_double_failure (l : list Renewal) : Prop :=
  match l with
  | e :: l => no_double_failure l /\
      match l with f :: _ => e.(succeeded) = true \/ f.(succeeded) = true | [] => True end
  | [] => True
  end.

(** The state of the thread between its blocking calls: [age] bounds the age of
    the lease once there is one. *)
Definition kept (age : Z) (w : World S) : Prop :=
  unbroken w.(renewals) /\ (existsb succeeded w.(renewals) = true -> fresh age w).

Lemma fresh_block age d c w :
  (forall n w, (elapse n c w).(clock) <= w.(clock) + d) -> fresh age w -> fresh (age + d) (block c w).
Proof.
  intros Hc (l & Hl & Hage). exists l. unfold block. simpl. rewrite elapse_lease. split; [done|].
  specialize (Hc w.(blocked) w). lia.
Qed.

Lemma kept_block age d c w :
  (forall n w, (elapse n c w).(clock) <= w.(clock) + d) -> kept age w -> kept (age + d) (block c w).
Proof. intros Hc [Hu Hf]. split; [done|]. intros Hs. by apply fresh_block, Hf. Qed.

Lemma kept_wait age d w : 0 <= d -> kept age w -> kept (age + d + late) (wait_timeout d w).
Proof.
  intros Hd Hw. unfold wait_timeout. destruct (stopped w).
  - destruct Hw as [Hu Hf]. split; [done|]. intros (l & Hl & Hage)%Hf. exists l. split; [done|lia].
  - replace (age + d + late) with (age + (d + late)) by lia. apply kept_block; [|done].
    intros n w'. rewrite Z.add_assoc. by apply elapse_wait.
Qed.

Lemma renew_kept age w r w' :
  age + late < ttl -> kept age w -> renew w = (r, w') ->
  (exists e, w'.(renewals) = e :: w.(renewals) /\ e.(succeeded) = is_ok r) /\ unbroken w'.(renewals) /\
  (is_ok r = true -> fresh late w') /\
  (is_ok r = false -> existsb succeeded w.(renewals) = true -> fresh (age + 2 * late) w').
Proof.
  intros Hage Hw. apply (kept_block age late Requesting) in Hw as [Hu Hf]; [|done].
  unfold renew. set (w1 := block Requesting w) in *.
  destruct (upsert_broker_lease w1.(clock) broker_id base_url ttl w1.(store)) as [x s] eqn:Hup. intros [= <- <-].
  set (w2 := mkWorld w1.(clock) w1.(stopped) w1.(in_flight) s w1.(blocked)
    (mkRenewal w1.(clock) (get_broker_lease broker_id w1.(store)) (is_ok x) :: w1.(renewals)) w1.(deletions)).
  change (renewals (block Requesting w2)) with (renewals w2). split_and!.
  - by eexists.
  - split; [done|]. intros (l & Hl & Ha)%Hf. exists l. split; [done|]. change (w1.(clock) < lease_until l). lia.
  - intros Hx. destruct x as [[]|]; [|done]. apply (fresh_block 0 late Requesting); [done|].
    apply renewed in Hup as (l & Hl & Hu'). exists l. split; [done|]. change (w1.(clock) + ttl <= lease_until l + 0). lia.
  - intros Hx Hs. destruct x as [|e]; [done|]. replace (age + 2 * late) with (age + late + late) by lia.
    apply (fresh_block _ late Requesting); [done|]. apply not_renewed in Hup.
    destruct (Hf Hs) as (l & Hl & Ha). exists l. unfold w2. cbn [clock store]. by rewrite Hup.
Qed.

Lemma wait_renewals d w : (wait_timeout d w).(renewals) = w.(renewals).
Proof. unfold wait_timeout. by destruct (stopped w). Qed.

Lemma tick_nonneg : 0 <= tick.
Proof. unfold tick, ms. lia. Qed.
Lemma retry_delay_nonneg : 0 <= retry_delay.
Proof. unfold retry_delay. pose proof tick_nonneg. unfold ms. lia. Qed.

(** The age a lease has at the head of the loop. *)
Definition head_age : Z := tick + 2 * late.

Context (margin : tick + retry_delay + 6 * late < ttl).

Lemma fresh_kept age w : unbroken w.(renewals) -> fresh age w -> kept age w.
Proof. intros Hu Hf. by split. Qed.

Lemma beat_kept w go w' :
  kept head_age w -> beat w = (go, w') -> no_double_failure w'.(renewals) ->
  unbroken w'.(renewals) /\ (go = true -> kept head_age w').
Proof.
  intros Hw. unfold beat, is_stopped. pose proof tick_nonneg. pose proof retry_delay_nonneg.
  destruct (stopped w); [intros [= <- <-]; by split; [apply Hw|]|].
  destruct (renew w) as [r w1] eqn:Hr. apply (renew_kept head_age) in Hr as ((e & He & Hs) & Hu & Hok & Herr);
    [|unfold head_age; lia|done].
  destruct r as [u|err].
  - intros [= <- <-] _. rewrite wait_renewals. split; [done|]. intros _.
    unfold head_age. replace (tick + 2 * late) with (late + tick + late) by lia.
    apply kept_wait; [done|]. by apply fresh_kept, Hok.
  - assert (kept (head_age + 2 * late) w1) as Hw1.
    { split; [done|]. rewrite He. simpl. rewrite Hs. simpl. intros Hx. by apply Herr. }
    apply (kept_wait _ retry_delay) in Hw1; [|done].
    destruct (stopped (wait_timeout retry_delay w1)).
    { intros [= <- <-] _. rewrite wait_renewals. by split. }
    destruct (renew (wait_timeout retry_delay w1)) as [r2 w2] eqn:Hr2.
    apply (renew_kept (head_age + 2 * late + retry_delay + late)) in Hr2 as ((e2 & He2 & Hs2) & Hu2 & Hok2 & _);
      [|unfold head_age; lia|done].
    rewrite wait_renewals in He2. intros [= <- <-]. rewrite wait_renewals, He2, He. intros Hnd.
    assert (is_ok r2 = true) as Hr2. { simpl in Hnd. rewrite Hs, Hs2 in Hnd. by destruct Hnd as [_ [|]]. }
    split; [by rewrite <- He, <- He2|]. intros _. unfold head_age.
    replace (tick + 2 * late) with (late + tick + late) by lia. apply kept_wait; [done|]. by apply fresh_kept, Hok2.
Qed.

Lemma no_double_app l l' : no_double_failure (l ++ l') -> no_double_failure l'.
Proof. induction l as [|e l IH]; [done|]. intros [Hl _]. by apply IH. Qed.

Lemma renew_extends w r w' : renew w = (r, w') -> exists l, w'.(renewals) = l ++ w.(renewals).
Proof.
  unfold renew. destruct (upsert_broker_lease _ _ _ _ _) as [x s]. intros [= <- <-]. simpl. by eexists [_].
Qed.

Lemma beat_extends w go w' : beat w = (go, w') -> exists l, w'.(renewals) = l ++ w.(renewals).
Proof.
  unfold beat, is_stopped. destruct (stopped w); [intros [= <- <-]; by exists []|].
  destruct (renew w) as [[u|e] w1] eqn:Hr; apply renew_extends in Hr as [l Hl].
  - intros [= <- <-]. rewrite wait_renewals. by exists l.
  - destruct (stopped _); [intros [= <- <-]; rewrite wait_renewals; by exists l|].
    destruct (renew (wait_timeout _ _)) as [r2 w2] eqn:Hr2. apply renew_extends in Hr2 as [l2 Hl2].
    intros [= <- <-]. rewrite wait_renewals in *. exists (l2 ++ l). by rewrite Hl2, Hl, app_assoc.
Qed.

Lemma beats_extend fuel w go w' : beats fuel w = (go, w') -> exists l, w'.(renewals) = l ++ w.(renewals).
Proof.
  revert w. induction fuel as [|fuel IH]; intros w; simpl; [intros [= <- <-]; by exists []|].
  destruct (beat w) as [[] w1] eqn:Hb; apply beat_extends in Hb as [l1 Hl1]; [|intros [= <- <-]; by exists l1].
  intros [l Hl]%IH. exists (l ++ l1). by rewrite Hl, Hl1, app_assoc.
Qed.

(** The lease of a running broker never lapses: with a margin for the lateness
    of waits and requests, every renewal after the first successful one finds
    the lease still live, as long as no two renewals in a row fail. *)
Theorem lease_unbroken fuel w go w' :
  w.(renewals) = [] -> beats fuel w = (go, w') -> no_double_failure w'.(renewals) ->
  unbroken w'.(renewals) /\ (go = true -> existsb succeeded w'.(renewals) = true -> fresh head_age w').
Proof.
  intros Hw. assert (kept head_age w) as Hk by (by split; rewrite Hw). clear Hw. revert w Hk.
  induction fuel as [|fuel IH]; intros w Hk; simpl; [intros [= <- <-] _; split; [apply Hk|intros _; apply Hk]|].
  destruct (beat w) as [[] w1] eqn:Hb; intros Hbs Hnd.
  - apply (IH w1); [|done|done]. pose proof (beats_extend _ _ _ _ Hbs) as [l Hl].
    rewrite Hl in Hnd. apply no_double_app in Hnd. by eapply beat_kept.
  - injection Hbs as <- <-. apply beat_kept in Hb as [Hu _]; done.
Qed.

(** ** The drain ends *)

Hypothesis elapse_sleep : forall n d w, w.(clock) + d <= (elapse n (Sleeping d) w).(clock).

Lemma drain_S fuel deadline w :
  drain (Datatypes.S fuel) deadline w =
    if (0 <? w.(in_flight)) && (w.(clock) <? deadline) then drain fuel deadline (block (Sleeping (ms 50)) w) else Some w.
Proof. done. Qed.

Lemma drain_ends fuel deadline w :
  deadline - w.(clock) <= ms 50 * Z.of_nat fuel ->
  exists w', drain (Datatypes.S fuel) deadline w = Some w' /\ (w'.(in_flight) <= 0 \/ deadline <= w'.(clock)) /\
    w'.(renewals) = w.(renewals) /\ w'.(deletions) = w.(deletions).
Proof.
  revert w. induction fuel as [|fuel IH]; intros w Hf; rewrite drain_S;
    destruct (Z.ltb_spec 0 w.(in_flight)), (Z.ltb_spec w.(clock) deadline); simpl andb; cbv iota;
    try (exists w; split_and!; [done|lia|done..]); [lia|].
  destruct (IH (block (Sleeping (ms 50)) w)) as (w' & Hw'); [|by exists w'].
  specialize (elapse_sleep w.(blocked) (ms 50) w).
  change (clock (block (Sleeping (ms 50)) w)) with (elapse w.(blocked) (Sleeping (ms 50)) w).(clock). unfold ms in *. lia.
Qed.

(** The loop itself never asks for a deletion. *)

Lemma wait_deletions d w : (wait_timeout d w).(deletions) = w.(deletions).
Proof. unfold wait_timeout. by destruct (stopped w). Qed.

Lemma renew_deletions w : (renew w).2.(deletions) = w.(deletions).
Proof. unfold renew. by destruct (upsert_broker_lease _ _ _ _ _). Qed.

Lemma beat_deletions w : (beat w).2.(deletions) = w.(deletions).
Proof.
  unfold beat, is_stopped. destruct (stopped w); [done|]. pose proof (renew_deletions w) as Hr.
  destruct (renew w) as [[u|e] w1]; simpl in Hr; [by rewrite <- Hr; apply wait_deletions|].
  rewrite <- (wait_deletions retry_delay) in Hr. destruct (stopped _); [done|].
  pose proof (renew_deletions (wait_timeout retry_delay w1)) as Hr2.
  destruct (renew (wait_timeout retry_delay w1)) as [r2 w2]. simpl in *. by rewrite wait_deletions, Hr2.
Qed.

Lemma beats_deletions k w : (beats k w).2.(deletions) = w.(deletions).
Proof.
  revert w. induction k as [|k IH]; intros w; simpl; [done|]. pose proof (beat_deletions w) as Hb.
  destruct (beat w) as [[] w1]; simpl in *; [by rewrite IH|done].
Qed.

(** Once it finds the flag set the loop is over. *)
Lemma beats_stopped k w : (beats k w).2.(stopped) = true -> beats (Datatypes.S k) w = (false, (beats k w).2).
Proof.
  revert w. induction k as [|k IH]; intros w; [simpl; unfold beat, is_stopped; by intros ->|].
  cbn [beats] in *. destruct (beat w) as [[] w1]; [|done]. intros Hs. by rewrite (IH w1 Hs).
Qed.

Lemma delete_lease_asks w :
  exists d, (delete_lease w).(deletions) = d :: w.(deletions) /\ d.(begun_at) = w.(clock) /\
    d.(unfinished) = w.(in_flight) /\ (delete_lease w).(renewals) = w.(renewals) /\
    (d.(removed) = true -> exists s, delete_broker_lease broker_id s = (Ok tt, (delete_lease w).(store))).
Proof.
  unfold delete_lease. destruct (delete_broker_lease broker_id (block Requesting w).(store)) as [r s] eqn:Hd.
  eexists. split_and!; [reflexivity|done..|]. intros Hr. exists (block Requesting w).(store).
  by destruct r as [[]|].
Qed.

Hypothesis deleted : forall s s', delete_broker_lease broker_id s = (Ok tt, s') -> get_broker_lease broker_id s' = Ok None.

(** C24. Shutdown is orderly and ends.  However many turns the thread has made
    when it finds the flag set, it ends: it renews no more, and in all its life
    it asks for one deletion of its lease, once no job is in flight or the drain
    has taken as long as a lease lives; a deletion that succeeds leaves no
    lease. *)
Theorem shutdown_drains k n w :
  (beats k w).2.(stopped) = true -> ttl <= ms 50 * Z.of_nat n ->
  exists w' d, heartbeat (Datatypes.S k) (Datatypes.S n) w = Some w' /\
    w'.(renewals) = (beats k w).2.(renewals) /\ w'.(deletions) = d :: w.(deletions) /\
    (d.(unfinished) <= 0 \/ (beats k w).2.(clock) + ttl <= d.(begun_at)) /\
    (d.(removed) = true -> get_broker_lease broker_id w'.(store) = Ok None).
Proof.
  intros Hs Hn. set (w1 := (beats k w).2) in *.
  destruct (drain_ends n (w1.(clock) + ttl) w1) as (w2 & Hd & Hend & Hr & Hdel); [lia|].
  destruct (delete_lease_asks w2) as (d & Hl & Hb & Hu & Hr2 & Hds).
  exists (delete_lease w2), d. split_and!.
  - unfold heartbeat, drain_and_delete. rewrite (beats_stopped _ _ Hs). fold w1. by rewrite Hd.
  - by rewrite Hr2.
  - rewrite Hl, Hdel. f_equal. apply beats_deletions.
  - rewrite Hu, Hb. exact Hend.
  - intros [s Hdl]%Hds. by eapply deleted.
Qed.
End heartbeat.

(** ** The cleanup worker *)

Section cleanup.
Context {V S : Type} `{JobStore V S}.

(** [runtime]: the worker got its Tokio runtime; [queue]: the ids that were
    sent before the sender was dropped. *)
Definition cleanup_worker (runtime : bool) (queue : list string) (s : S) : S :=
  if runtime then foldl (fun s job_id => (delete_job job_id s).2) s queue else s.

Context {lookup_job : string -> S -> option (PersistentJobRecord V)} `{!JobStoreLaws S lookup_job}.

(** The worker is joined when the broker is dropped, so by then the records
    whose deletion was requested are gone from a store that answers, and no
    other record is touched. *)
Lemma cleanup_worker_spec queue s id :
  (forall jid s, is_ok (delete_job jid s).1 = true) ->
  lookup_job id (cleanup_worker true queue s) = if decide (id ∈ queue) then None else lookup_job id s.
Proof.
  intros Hok. unfold cleanup_worker. revert s. induction queue as [|jid queue IH]; intros s; cbn [foldl].
  { by rewrite decide_False by (by intros ?%elem_of_nil). }
  rewrite IH. specialize (Hok jid s). destruct (delete_job jid s) as [[[]|e] s'] eqn:Hd; [|done]. cbn [snd].
  rewrite (delete_law (lookup_job:=lookup_job) _ _ _ Hd id). repeat case_decide; try done; set_solver.
Qed.
End cleanup.

(** ** A concrete broker *)

Module Sample.

(** A store of one lease that never fails. *)
#[export] Instance lease_cell : BrokerLeaseStore (option BrokerLeaseRecord) := {|
  upsert_broker_lease := fun now id url ttl _ => (Ok tt, Some (mkLease id url (now + ttl) now));
  get_broker_lease := fun _ s => Ok s;
  delete_broker_lease := fun _ _ => (Ok tt, None)
|}.

(** Time passes as asked; shutdown is called during the call [n]; a job is in
    flight throughout. *)
Definition elapse_until (n : nat) (turn : nat) (c : Blocking) (w : World (option BrokerLeaseRecord))
    : World (option BrokerLeaseRecord) :=
  mkWorld (w.(clock) + match c with Waiting d | Sleeping d => d | Requesting => 0 end)
    (w.(stopped) || (n <=? turn)%nat) w.(in_flight) w.(store) w.(blocked) w.(renewals) w.(deletions).

Definition start : World (option BrokerLeaseRecord) := mkWorld 0 false 1 None 0 [] [].
Definition half (d : Z) : Z := d / 2.
Abbreviation run n ttl := (beats (elapse_until n) "bol-dev-42" "http://b42/job" ttl half).

Lemma lease_unbroken_witness :
  unbroken (run 50 (ms 2000) 6 start).2.(renewals) /\ length (run 50 (ms 2000) 6 start).2.(renewals) = 6%nat.
Proof.
  split; [|vm_compute; reflexivity].
  refine (proj1 (lease_unbroken (elapse_until 50) "bol-dev-42" "http://b42/job" (ms 2000) half (ms 1)
    _ _ _ _ _ _ _ 6 start _ _ eq_refl (surjective_pairing _) _)).
  - intros n d w Hd. simpl. unfold ms. lia.
  - intros n w. simpl. unfold ms. lia.
  - intros n c w. reflexivity.
  - intros now s s' Hu. injection Hu as <-. eexists. split; reflexivity.
  - intros now s e s' Hu. discriminate Hu.
  - unfold ms. lia.
  - vm_compute. reflexivity.
  - vm_compute. repeat split; left; reflexivity.
Defined.

Lemma cell_deleted b (s s' : option BrokerLeaseRecord) :
  delete_broker_lease b s = (Ok tt, s') -> get_broker_lease b s' = Ok None.
Proof. intros Hd. injection Hd as <-. reflexivity. Qed.

(** Shut down while it waits for its next renewal. *)
Lemma shutdown_drains_witness :
  exists w' d, heartbeat (elapse_until 3) "bol-dev-42" "http://b42/job" (ms 1000) half 3 21 start = Some w' /\
    w'.(renewals) = (run 3 (ms 1000) 2 start).2.(renewals) /\ w'.(deletions) = [d] /\
    (d.(unfinished) <= 0 \/ (run 3 (ms 1000) 2 start).2.(clock) + ms 1000 <= d.(begun_at)) /\
    (d.(removed) = true -> w'.(store) = None).
Proof.
  destruct (shutdown_drains (elapse_until 3) "bol-dev-42" "http://b42/job" (ms 1000) half
    (fun n d w => Z.le_refl _) (cell_deleted "bol-dev-42") 2 20 start) as (w' & d & H1 & H2 & H3 & H4 & H5);
    [vm_compute; reflexivity|vm_compute; discriminate|].
  exists w', d. split_and!; [exact H1|exact H2|exact H3|exact H4|]. intros Hr. specialize (H5 Hr). by injection H5.
Defined.

(** The lease is not renewed while the broker drains: a broker that is shut down
    half a lease after its last renewal still has a job in flight 650 ms later
    and goes on waiting for it, but its lease and the grace have run out, so
    another broker that polls the job takes it over. *)
Example lease_runs_out_in_drain :
  let '(go, w) := run 2 (ms 1000) 2 start in
  let w' := Nat.iter 13 (block (elapse_until 2) (Sleeping (ms 50))) w in
  go = false /\ (0 <? w'.(in_flight)) && (w'.(clock) <? w.(clock) + ms 1000) = true /\
  lease_is_active_with_grace w'.(clock) <$> w'.(store) = Some false.
Proof. by vm_compute. Qed.
End Sample.
