(* ===== verification/HttpTarget.v ===== *)
(** * The built-in actions ([actions/target_http.rs], [actions/registry.rs])

    The HTTP target: its timeouts, the call and what it makes of the reply, and
    the factories of the two targets the library registers itself.  The HTTP
    client is a parameter that answers or fails on the world. *)
From S2P Require Import Prelude Json Errors Job Actions Routing Registry Config.

(** ** The configuration of the target *)

Section timeouts.
Context {F : Type} `{Float F}.

Definition deserialize_positive_secs (v : F) : result string F :=
  if negb (is_finite v) || f64_le v (of_ms 0) then Err "must be a positive finite number of seconds"%string
  else match try_from_secs_f64 v with
       | Err _ => Err "value overflows Duration; use a smaller number of seconds"%string
       | Ok _ => Ok v
       end.

Definition DEFAULT_TARGET_TIMEOUT_SECS : F := of_ms 30000.

Record HttpTarget : Type := mkHttpTarget {
  url : string;
  connect_timeout_secs : F;
  read_timeout_secs : F
}.

Definition new (url : string) : HttpTarget :=
  mkHttpTarget url DEFAULT_TARGET_TIMEOUT_SECS DEFAULT_TARGET_TIMEOUT_SECS.

(** [Duration::from_secs_f64] panics where [try_from_secs_f64] fails: [None].
    The client is built with the two timeouts. *)
Definition client (t : HttpTarget) : option (Z * Z) :=
  match try_from_secs_f64 t.(connect_timeout_secs), try_from_secs_f64 t.(read_timeout_secs) with
  | Ok connect, Ok read => Some (connect, read)
  | _, _ => None
  end.

(** Timeouts that were accepted never make the construction of the client
    panic. *)
Lemma accepted_client u connect read c r :
  deserialize_positive_secs connect = Ok c -> deserialize_positive_secs read = Ok r ->
  is_Some (client (mkHttpTarget u c r)).
Proof.
  unfold deserialize_positive_secs, client. destruct (negb (is_finite connect) || _); [done|].
  destruct (negb (is_finite read) || _); [done|].
  destruct (try_from_secs_f64 connect) as [dc|] eqn:Hc; [|done]. intros [= <-].
  destruct (try_from_secs_f64 read) as [dr|] eqn:Hr; [|done]. intros [= <-].
  simpl. rewrite Hc, Hr. by eexists.
Qed.
End timeouts.
Arguments HttpTarget : clear implicits.

(** ** The call *)

(** A reply of [reqwest]: the content type is [Err] when it is not visible
    ASCII, [text] the body read as text. *)
Record HttpReply : Type := mkHttpReply {
  status : Z;
  content_type_header : option (result string string);
  content_length : option Z;
  bytes_stream : ByteStream;
  text : result string string
}.

Definition is_success (st : Z) : bool := (200 <=? st) && (st <? 300).
Definition is_client_error (st : Z) : bool := (400 <=? st) && (st <? 500).

(** [as i64] on a u64. *)
Definition as_i64 (n : Z) : Z := if n <? 2 ^ 63 then n else n - 2 ^ 64.

Section call.
Context {V W : Type} `{JsonValue V}.
Context (send : string -> V -> W -> result string HttpReply * W) (status_text : Z -> string).

(** What a reply stands for. *)
Definition interpret (url : string) (response : HttpReply) : result ActionError TargetResult :=
  if is_success response.(status) then
    let content_type := match response.(content_type_header) with
                        | Some (Ok s) => s
                        | _ => "application/octet-stream"%string
                        end in
    let size := default (-1) (as_i64 <$> response.(content_length)) in
    Ok (TargetComplete (Success content_type size response.(bytes_stream)))
  else if is_client_error response.(status) then
    Ok (TargetReject (match response.(text) with Ok reason => reason | Err _ => status_text response.(status) end) true)
  else Err (NetworkError ("HTTP " ++ status_text response.(status) ++ " from " ++ url)).

Definition execute (url : string) (request : V) (w : W) : result ActionError TargetResult * W :=
  let '(r, w) := send url request w in
  (match r with
   | Err e => Err (NetworkError e)
   | Ok response => interpret url response
   end, w).

Context {F : Type} `{Float F}.

(** The client of an accepted target is there, see [accepted_client]. *)
Definition http_target (t : HttpTarget F) (description : V) : @TargetAction V W :=
  mkTarget (fun job w => execute t.(url) (request job) w) description.

(** [register_action!] for targets. *)
Definition target_factory {D A : Type} (from_value : V -> result string A) (action : A -> @TargetAction V W) (config : V)
    : result ActionError (@Action V W D) :=
  let? a := map_err ActionConfigError (from_value config) in Ok (Target (action a) None None).

Definition builtin_actions {D : Type} (decode_http : V -> result string (HttpTarget F))
    (decode_remote : V -> result string unit) (describe_http : HttpTarget F -> V)
    : list (string * (V -> result ActionError (@Action V W D))) :=
  [("http"%string, target_factory decode_http (fun t => http_target t (describe_http t)));
   ("remote"%string, target_factory decode_remote (fun _ => remote_target (object [])))].

(** ** Routes of HTTP targets *)

Context {D : Type} `{Routing.World W} `{Routing.Dispatching D W (Job V)}.

(** Routes of one HTTP target each, with its [silent] setting. *)
Definition failover (targets : list (string * (HttpTarget F * option bool))) : @Switch V W D :=
  mkSwitch ((fun t => mkRoute t.1 [Target (http_target t.2.1 (object [])) None t.2.2]) <$> targets).

Definition refusal (response : HttpReply) : string :=
  match response.(text) with Ok reason => reason | Err _ => status_text response.(status) end.

(** The URLs are tried in turn while the job is alive: the first reply that is no
    4xx decides; a 4xx leaves its reason behind where it is told to be loud. *)
Fixpoint first_accepting (targets : list (string * (HttpTarget F * option bool))) (reasons : list string)
    (job : Job V) (w : W) : result ActionError TargetResult * W :=
  match targets with
  | [] => (Ok (match reasons with
               | [] => TargetReject "no route matched the request" true
               | _ => TargetReject (String.concat "; " reasons) false
               end), w)
  | (_, (t, silent)) :: targets =>
      if is_cancelled (world_cells w) job then (Err Cancelled, w)
      else if negb (client_present (world_now w) (world_cells w) job) then (Err ClientGone, w)
      else
        let '(r, w) := send t.(url) (request job) w in
        match r with
        | Err e => (Err (NetworkError e), w)
        | Ok response =>
            if is_client_error response.(status)
            then first_accepting targets
                   (reasons ++ match silent with Some false => [refusal response] | _ => [] end) job w
            else (interpret t.(url) response, w)
        end
  end.

Lemma interpret_client_error u response :
  is_client_error response.(status) = true -> interpret u response = Ok (TargetReject (refusal response) true).
Proof.
  unfold interpret, is_success, is_client_error. intros Hc.
  destruct ((200 <=? status response) && (status response <? 300)) eqn:Hs; [lia|]. by rewrite Hc.
Qed.

Lemma interpret_other u response :
  is_client_error response.(status) = false ->
  (exists r, interpret u response = Ok (TargetComplete r)) \/ (exists e, interpret u response = Err e).
Proof.
  unfold interpret. intros Hc. destruct (is_success _); [left; by eexists|]. rewrite Hc. right. by eexists.
Qed.

(** C33. Routes that each are one HTTP target, run in place with nothing before it,
    are a failover.  They are tried in order as long as the job is not cancelled
    and its client is there: a 4xx sends the job on to the next route and leaves
    no trace in the answer unless its entry says [silent: false], while a failed
    call or a 5xx ends the dispatch there and then, without trying the routes
    after it. *)
Theorem http_failover targets job w :
  dispatch (failover targets) job w = first_accepting targets [] job w.
Proof.
  unfold failover. cbn [dispatch]. generalize (@nil string) as reasons. revert w.
  induction targets as [|[name [t silent]] targets IH]; intros w reasons; [by destruct reasons|].
  cbn [fmap list_fmap run_routes run_actions fst snd]. unfold run_action, run_target. cbn [as_job first_accepting].
  destruct (is_cancelled (world_cells w) job); [done|].
  destruct (client_present (world_now w) (world_cells w) job); [|done]. cbn [negb target_dispatch http_target].
  unfold execute. destruct (send t.(url) (request job) w) as [[response|e] w1]; [|done].
  destruct (is_client_error (status response)) eqn:Hce.
  - rewrite (interpret_client_error _ _ Hce). cbn [of_target]. unfold reject_with, unwrap_silent.
    destruct silent as [[]|]; apply IH.
  - by destruct (interpret_other t.(url) response Hce) as [[r ->]|[e ->]].
Qed.
End call.

(** ** A concrete failover *)

Module Sample.
Import Config.Sample.

(** The first service refuses the job and the second serves it. *)
Definition send (u : string) (v : sample) (w : Cells) : result string HttpReply * Cells :=
  (if decide (u = "http://a"%string) then Ok (mkHttpReply 422 None None [] (Ok "unknown class"%string))
   else Ok (mkHttpReply 200 (Some (Ok "application/json"%string)) (Some 12) [Ok "{}"%string] (Ok "{}"%string)), w).

Definition two : list (string * (HttpTarget Z * option bool)) :=
  [("first"%string, (HttpTarget.new "http://a", None)); ("second"%string, (HttpTarget.new "http://b", None))].

Lemma http_failover_witness :
  dispatch (failover (D:=Empty_set) send pretty two) sample_job sample_cells
  = (Ok (TargetComplete (Success "application/json" 12 [Ok "{}"%string])), sample_cells).
Proof.
  rewrite (http_failover send pretty two sample_job sample_cells). vm_compute. reflexivity.
Defined.

(** The only service refuses the job, and its entry is loud. *)
Example loud_refusal :
  dispatch (failover (D:=Empty_set) send pretty [("first"%string, (HttpTarget.new "http://a", Some false))])
    sample_job sample_cells
  = (Ok (TargetReject "unknown class" false), sample_cells).
Proof. vm_compute. reflexivity. Qed.
End Sample.
