(* ===== verification/PyBindings.v ===== *)
(** * The Python bindings ([bits-py/src/lib.rs])

    Actions written in Python and the outcomes Python reads.  The interpreter is
    a parameter: classes, instances and coroutines are opaque, a call answers or
    raises on the world.  An object that a coroutine returned is seen through
    its class, one of the binding's own or another. *)
From S2P Require Import Prelude Json Errors Job Actions Routing Registry Broker Config.

(** ** What Python hands back *)

Inductive PyOutcome : Type :=
| PyPass
| PyContinue
| PyReject (reason : string) (silent : bool)
| PySuccess (body : string) (content_type : string)
| PyRedirect (location message : string)
| PyError (message : string)
| PyOther (type_name : string).

(** The exceptions the binding raises. *)
Inductive PyErr : Type :=
| PyTypeError (msg : string)
| PyValueError (msg : string)
| PyRuntimeError (msg : string).

(** The argument of the constructor of [Success]. *)
Inductive PyBody : Type := PyBytes (b : string) | PyStr (s : string) | PyAnyBody.

Definition success_new (body : PyBody) (content_type : option string) : result PyErr PyOutcome :=
  let? (raw, default_ct) := match body with
                            | PyBytes b => Ok (b, "application/octet-stream"%string)
                            | PyStr s => Ok (s, "text/plain; charset=utf-8"%string)
                            | PyAnyBody => Err (PyTypeError "Success body must be bytes or str")
                            end in
  Ok (PySuccess raw (default default_ct content_type)).

Section adapters.
Context {V W PyObj Coro : Type} `{JsonValue V}.

(** The job view: the two dicts Python may replace. *)
Record PyJob : Type := mkPyJob {
  py_id : string;
  py_request : PyObj;
  py_metadata : PyObj;
  py_user : PyObj
}.

(** [pythonize] and [depythonize]; calling a method of an instance on a view,
    which gives a coroutine; the import of [asyncio], and running the coroutine,
    which also leaves the view as it made it. *)
Context (pythonize : V -> result string PyObj) (depythonize : PyObj -> result string V)
  (call_method : PyObj -> string -> PyJob -> W -> result string Coro * W)
  (import_asyncio : W -> result string unit) (asyncio_run : Coro -> PyJob -> W -> result string PyObj * PyJob * W)
  (classify : PyObj -> PyOutcome).

Definition config_error {A} (context e : string) : result ActionError A := Err (ActionConfigError (context ++ e)).

Definition job_to_py (job : Job V) : result string PyJob :=
  let? request := pythonize (request job) in
  let? metadata := pythonize (metadata job) in
  let? user := pythonize (user job) in
  Ok (mkPyJob (id job) request metadata user).

(** [false]: the blocking thread panicked. *)
Context (spawn_blocking : W -> bool) (join_error : string).

Definition run_python_coro (coro : Coro) (view : PyJob) (w : W) : result ActionError PyObj * PyJob * W :=
  if negb (spawn_blocking w) then (config_error "spawn_blocking failed: " join_error, view, w)
  else match import_asyncio w with
       | Err e => (config_error "import asyncio: " e, view, w)
       | Ok _ =>
           let '(r, view, w) := asyncio_run coro view w in
           (map_err (fun e => ActionConfigError ("asyncio.run() raised: " ++ e)) r, view, w)
       end.

Definition check_outcome (o : PyOutcome) (type_name : string) : result ActionError CheckResult :=
  match o with
  | PyPass => Ok CheckPass
  | PyReject reason silent => Ok (CheckReject reason silent)
  | _ => config_error "evaluate() must return Pass or Reject, got: " type_name
  end.

Definition transform_outcome (o : PyOutcome) (type_name : string) : result ActionError TransformResult :=
  match o with
  | PyContinue => Ok TransformContinue
  | PyReject reason silent => Ok (TransformReject reason silent)
  | _ => config_error "execute() must return Continue or Reject, got: " type_name
  end.

Definition target_outcome (o : PyOutcome) (type_name : string) : result ActionError TargetResult :=
  match o with
  | PySuccess body ct => Ok (TargetComplete (Success ct (Z.of_nat (String.length body)) [Ok body]))
  | PyRedirect location message => Ok (TargetComplete (Redirect location message None None))
  | PyError message => Ok (TargetComplete (Errors.Error message))
  | PyReject reason silent => Ok (TargetReject reason silent)
  | _ => config_error "dispatch() must return Success, Redirect, Error, or Reject, got: " type_name
  end.

Context (type_name : PyObj -> string).

(** [PyCheckAdapter::evaluate]: the view and the call fail with one message. *)
Definition py_evaluate (instance : PyObj) (job : Job V) (w : W) : result ActionError CheckResult * W :=
  match job_to_py job with
  | Err e => (config_error "evaluate() call failed: " e, w)
  | Ok view =>
      let '(coro, w) := call_method instance "evaluate" view w in
      match coro with
      | Err e => (config_error "evaluate() call failed: " e, w)
      | Ok coro =>
          let '(r, _, w) := run_python_coro coro view w in
          ((let? o := r in check_outcome (classify o) (type_name o)), w)
      end
  end.

Definition with_request (v : V) (j : Job V) : Job V :=
  mkJob j.(id) j.(original_request) v j.(user) j.(created_at) j.(metadata) j.(cell) j.(persisted) j.(job_result).
Definition with_metadata (v : V) (j : Job V) : Job V :=
  mkJob j.(id) j.(original_request) j.(request) j.(user) j.(created_at) v j.(cell) j.(persisted) j.(job_result).

(** The two dicts are read back one after the other: a metadata that does not
    convert leaves the new request behind. *)
Definition read_back (view : PyJob) (job : Job V) : result ActionError unit * Job V :=
  match depythonize view.(py_request) with
  | Err e => (config_error "request deserialise: " e, job)
  | Ok request =>
      let job := with_request request job in
      match depythonize view.(py_metadata) with
      | Err e => (config_error "metadata deserialise: " e, job)
      | Ok metadata => (Ok tt, with_metadata metadata job)
      end
  end.

(** [PyTransformAdapter::execute]. *)
Definition py_execute (instance : PyObj) (job : Job V) (w : W) : (result ActionError TransformResult * Job V) * W :=
  match job_to_py job with
  | Err e => ((config_error "job serialisation failed: " e, job), w)
  | Ok view =>
      let '(coro, w) := call_method instance "execute" view w in
      match coro with
      | Err e => ((config_error "execute() call failed: " e, job), w)
      | Ok coro =>
          let '(r, view, w) := run_python_coro coro view w in
          match r with
          | Err e => ((Err e, job), w)
          | Ok o =>
              let '(back, job) := read_back view job in
              (((let? _ := back in transform_outcome (classify o) (type_name o)), job), w)
          end
      end
  end.

(** [PyTargetAdapter::dispatch]. *)
Definition py_dispatch (instance : PyObj) (job : Job V) (w : W) : result ActionError TargetResult * W :=
  match job_to_py job with
  | Err e => (config_error "job serialisation failed: " e, w)
  | Ok view =>
      let '(coro, w) := call_method instance "dispatch" view w in
      match coro with
      | Err e => (config_error "dispatch() call failed: " e, w)
      | Ok coro =>
          let '(r, _, w) := run_python_coro coro view w in
          ((let? o := r in target_outcome (classify o) (type_name o)), w)
      end
  end.

(** The adapters as the actions of the broker; Python describes nothing. *)
Definition PyCheckAdapter (instance : PyObj) : @CheckAction V W := mkCheck (py_evaluate instance) (object []).
Definition PyTransformAdapter (instance : PyObj) : @TransformAction V W := mkTransform (py_execute instance) (object []).
Definition PyTargetAdapter (instance : PyObj) : @TargetAction V W := mkTarget (py_dispatch instance) (object []).

(** A transform may change the request and the metadata of a job and nothing
    else: whatever the Python code does to the view, the job keeps its identity,
    its user, its original request and its cells; and a job that goes on has
    the two dicts the view was left with. *)
Theorem transform_confined instance job w r job' w' :
  py_execute instance job w = ((r, job'), w') ->
  (exists request metadata, job' = with_metadata metadata (with_request request job)) /\
  (r = Ok TransformContinue -> exists view, depythonize view.(py_request) = Ok (request job') /\
     depythonize view.(py_metadata) = Ok (metadata job')).
Proof.
  unfold py_execute. assert (exists request metadata, job = with_metadata metadata (with_request request job)) as Hsame.
  { exists (request job), (metadata job). by destruct job. }
  destruct (job_to_py job) as [view|e]; [|by intros [= <- <- <-]].
  destruct (call_method _ _ _ _) as [[coro|e] w1]; [|by intros [= <- <- <-]].
  destruct (run_python_coro coro view w1) as [[[o|e] view'] w2] eqn:Hrun; [|by intros [= <- <- <-]].
  unfold read_back. destruct (depythonize (py_request view')) as [req|e] eqn:Hreq; [|by intros [= <- <- <-]].
  destruct (depythonize (py_metadata view')) as [meta|e] eqn:Hmeta; intros [= <- <- <-].
  - split; [by exists req, meta|]. intros _. exists view'. by rewrite Hreq, Hmeta.
  - split; [|done]. exists req, (metadata job). by destruct job.
Qed.
End adapters.

(** ** Registering a class *)

Inductive ActionKind : Type := KCheck | KTransform | KTarget.

(** What [register_action] looks at: whether the object is a class, which of
    the three bases it extends, and of a method whether it is a coroutine
    function, [None] when there is none. *)
Record PyClass : Type := mkPyClass {
  is_class : bool;
  is_check : bool;
  is_transform : bool;
  is_target : bool;
  method : string -> option bool
}.

Definition detect_kind (cls : PyClass) : result PyErr ActionKind :=
  if negb cls.(is_class) then Err (PyTypeError "register_action: second argument must be a class")
  else match cls.(is_check), cls.(is_transform), cls.(is_target) with
       | true, false, false => Ok KCheck
       | false, true, false => Ok KTransform
       | false, false, true => Ok KTarget
       | false, false, false =>
           Err (PyTypeError "action class must subclass CheckAction, TransformAction, or TargetAction")
       | _, _, _ =>
           Err (PyTypeError "action class must subclass exactly one of CheckAction, TransformAction, TargetAction")
       end.

Definition require_async_method (cls : PyClass) (method_name : string) : result PyErr unit :=
  match cls.(method) method_name with
  | None => Err (PyTypeError ("action class must define an async method '" ++ method_name ++ "'"))
  | Some false => Err (PyTypeError ("action method '" ++ method_name ++ "' must be an async (coroutine) function"))
  | Some true => Ok tt
  end.

Definition method_of (kind : ActionKind) : string :=
  match kind with KCheck => "evaluate" | KTransform => "execute" | KTarget => "dispatch" end.

Section registration.
Context {V W PyObj : Type} `{JsonValue V}.
Notation Action := (@Action V W BuiltDispatcher).
Notation Registry := (Registry (V:=V) (W:=W) (D:=BuiltDispatcher)).

(** Converting the configuration, whether it is a dict then, and calling the
    class with it as keyword arguments; the adapters around an instance. *)
Context (pythonize : V -> result string PyObj) (cast_dict : PyObj -> result string unit)
  (call_class : PyObj -> result string PyObj)
  (check_adapter : PyObj -> @CheckAction V W) (transform_adapter : PyObj -> @TransformAction V W)
  (target_adapter : PyObj -> @TargetAction V W).

Definition wrap_instance (kind : ActionKind) (instance : PyObj) : Action :=
  match kind with
  | KCheck => Check (check_adapter instance) None None
  | KTransform => Transform (transform_adapter instance) None None
  | KTarget => Target (target_adapter instance) None None
  end.

Definition factory (kind : ActionKind) (config : V) : result ActionError Action :=
  let? kwargs := map_err (fun e => ActionConfigError ("config pythonize: " ++ e)) (pythonize config) in
  let? _ := map_err (fun e => ActionConfigError ("config must be a dict, got: " ++ e)) (cast_dict kwargs) in
  let? instance := map_err (fun e => ActionConfigError ("__init__ failed: " ++ e)) (call_class kwargs) in
  Ok (wrap_instance kind instance).

Definition register_action (name : string) (cls : PyClass) (r : Registry)
    : result PyErr unit * Registry :=
  match (let? kind := detect_kind cls in let? _ := require_async_method cls (method_of kind) in Ok kind) with
  | Err e => (Err e, r)
  | Ok kind =>
      let '(x, r) := register_runtime_action name (factory kind) r in
      (map_err (fun e => PyValueError (ActionError.fmt e)) x, r)
  end.

Definition namespace_of (kind : ActionKind) : string :=
  match kind with KCheck => "check" | KTransform => "transform" | KTarget => "target" end.

Lemma wrapped_namespace kind instance ns route action_name :
  is_ok (validate_inline_action ns route action_name (wrap_instance kind instance)) = bool_decide (ns = namespace_of kind).
Proof.
  unfold validate_inline_action. destruct kind; simpl; (case_decide; [by rewrite bool_decide_true|by rewrite bool_decide_false]).
Qed.

(** A class is registered only with exactly one base and its method a coroutine
    function, and then every action that is created under its name has the kind
    of that base, so it passes as an inline action of that namespace and of no
    other; a class that is refused leaves the registry as it was. *)
Theorem registered_kind name cls r x r' :
  register_action name cls r = (x, r') ->
  match x with
  | Err _ => r' = r
  | Ok _ => exists kind, detect_kind cls = Ok kind /\ cls.(method) (method_of kind) = Some true /\
      forall config a ns route key, create_action r' name config = Ok a ->
        is_ok (validate_inline_action ns route key a) = bool_decide (ns = namespace_of kind)
  end.
Proof.
  unfold register_action, require_async_method. destruct (detect_kind cls) as [kind|]; [|by intros [= <- <-]].
  destruct (method cls (method_of kind)) as [[]|] eqn:Hm; [|by intros [= <- <-]..].
  unfold register_runtime_action. destruct (inventory_get name (inventory r)); [by intros [= <- <-]|].
  destruct (runtime_registry r !! name); intros [= <- <-]; [done|]. exists kind. split; [done|]. split; [done|].
  intros config a ns route key. unfold create_action. cbn [runtime_registry]. rewrite lookup_insert_eq. unfold factory.
  destruct (map_err _ (pythonize config)) as [kwargs|]; [|done]. destruct (map_err _ (cast_dict kwargs)); [|done].
  destruct (map_err _ (call_class kwargs)) as [instance|]; [|done]. intros [= <-]. apply wrapped_namespace.
Qed.
End registration.

(** ** What Python reads *)

(** The values of the dicts the binding builds. *)
Inductive PyVal : Type :=
| VText (s : string)
| VInt (n : Z)
| VBytes (b : string)
| VDict (d : list (string * PyVal)).

Definition read_stream (stream : ByteStream) : result PyErr string :=
  map_ok (fun chunks => String.concat "" chunks) (map_err PyRuntimeError (collect (fun chunk => chunk) stream)).

Definition job_result_to_py (result : JobResult) : Prelude.result PyErr PyVal :=
  let dict (status : string) (fields : list (string * PyVal)) := Ok (VDict (("status"%string, VText status) :: fields)) in
  match result with
  | Success content_type size stream =>
      let? body := read_stream stream in
      dict "success"%string [("content_type"%string, VText content_type); ("size"%string, VInt size); ("body"%string, VBytes body)]
  | Redirect location message content_type content_length =>
      dict "redirect"%string
        ([("location"%string, VText location); ("message"%string, VText message)]
         ++ option_list ((fun ct => ("content_type"%string, VText ct)) <$> content_type)
         ++ option_list ((fun cl => ("content_length"%string, VInt cl)) <$> content_length))
  | Errors.Error message => dict "error"%string [("message"%string, VText message)]
  | Failed reason => dict "failed"%string [("reason"%string, VText reason)]
  | Overloaded reason => dict "overloaded"%string [("reason"%string, VText reason)]
  | RateLimited reason => dict "rate_limited"%string [("reason"%string, VText reason)]
  | JobCancelled => dict "cancelled"%string []
  | JobClientGone => dict "client_gone"%string []
  end.

Definition poll_outcome_to_py (outcome : PollOutcome) : result PyErr PyVal :=
  match outcome with
  | Ready r =>
      let? payload := job_result_to_py r in
      Ok (VDict [("status"%string, VText "ready"); ("result"%string, payload)])
  | Pending id _ => Ok (VDict [("status"%string, VText "pending"); ("id"%string, VText id)])
  | PollNotFound => Ok (VDict [("status"%string, VText "not_found")])
  | JobLost => Ok (VDict [("status"%string, VText "job_lost")])
  end.

(** What a Python program finds under a key of a dict. *)
Fixpoint dict_get (key : string) (d : list (string * PyVal)) : option PyVal :=
  match d with
  | [] => None
  | (k, v) :: d => if decide (k = key) then Some v else dict_get key d
  end.
Definition text_of (v : PyVal) : option string := match v with VText s => Some s | _ => None end.
Definition dict_of (v : PyVal) : list (string * PyVal) := match v with VDict d => d | _ => [] end.
Definition status_of (v : PyVal) : option string := dict_get "status" (dict_of v) ≫= text_of.

Definition stream_of (o : PollOutcome) : ByteStream :=
  match o with Ready (Success _ _ stream) => stream | _ => [] end.

(** A poll raises only when the body of a result breaks off, with the error of
    the stream. *)
Lemma poll_raises o e : poll_outcome_to_py o = Err e <-> read_stream (stream_of o) = Err e.
Proof.
  destruct o as [r|id st| |]; try done. destruct r as [ct size stream|loc msg [ct|] [cl|]| | | | | |]; try done.
  unfold poll_outcome_to_py, job_result_to_py. cbn [stream_of]. destruct (read_stream stream); split; by intros [= ->].
Qed.

(** Whether a pending job is queued or processed does not reach Python. *)
Example pending_status_dropped id :
  poll_outcome_to_py (Pending id Queued) = poll_outcome_to_py (Pending id Processing).
Proof. reflexivity. Qed.

(** ** The methods of [Bits] *)

Section bits.
Context {F : Type} `{Float F}.

(** The timeout of a poll; [None] in the result is the panic of
    [Duration::from_secs_f64]. *)
Definition poll_timeout (timeout_secs : option F) : option (result PyErr (option Z)) :=
  match timeout_secs with
  | None => Some (Ok None)
  | Some secs =>
      if negb (is_finite secs) || is_negative_value secs
      then Some (Err (PyValueError "timeout_secs must be a finite non-negative number"))
      else match try_from_secs_f64 secs with
           | Ok d => Some (Ok (Some d))
           | Err _ => None
           end
  end.
End bits.

Definition submit_outcome_to_py (o : SubmitOutcome) : result PyErr string :=
  match o with
  | Accepted id => Ok id
  | SubmitOverloaded => Err (PyRuntimeError "broker at capacity")
  end.

(** ** A concrete action *)

Module Sample.
Import Config.Sample.

(** A transform whose coroutine replaces the request and goes on. *)
Definition convert (v : sample) : result string sample := Ok v.
Definition call (instance : sample) (name : string) (view : PyJob (PyObj:=sample)) (w : unit) : result string unit * unit := (Ok tt, w).
Definition rewrite_request (c : unit) (view : PyJob (PyObj:=sample)) (w : unit)
    : result string sample * PyJob (PyObj:=sample) * unit :=
  (Ok (JString "continue"), mkPyJob view.(py_id) (JString "rewritten") view.(py_metadata) view.(py_user), w).
Definition classify (o : sample) : PyOutcome :=
  match o with JString "continue" => PyContinue | _ => PyOther "dict" end.

Abbreviation execute :=
  (py_execute convert convert call (fun _ => Ok tt) rewrite_request classify (fun _ => true) "panic" (fun _ => "dict"%string)).

Lemma transform_confined_witness :
  exists job', execute JNull sample_job tt = ((Ok TransformContinue, job'), tt) /\
    request job' = JString "rewritten" /\
    exists request metadata, job' = with_metadata metadata (with_request request sample_job).
Proof.
  eexists. split; [reflexivity|]. split; [reflexivity|].
  exact (proj1 (transform_confined convert convert call (fun _ => Ok tt) rewrite_request classify (fun _ => true) "panic"
    (fun _ => "dict"%string) JNull sample_job tt (Ok TransformContinue) _ tt eq_refl)).
Defined.

Definition has_role : PyClass := mkPyClass true true false false (fun m => if decide (m = "evaluate"%string) then Some true else None).
Definition pass : sample -> @CheckAction sample unit := fun _ => mkCheck (fun _ w => (Ok CheckPass, w)) JNull.
Definition keep : sample -> @TransformAction sample unit := fun _ => mkTransform (fun j w => ((Ok TransformContinue, j), w)) JNull.

Abbreviation register := (register_action convert (fun _ => Ok tt) convert pass keep remote).

Lemma registered_kind_witness :
  match register "has_role" has_role Config.Sample.registry with
  | (Ok _, r') => forall config a ns route key, create_action r' "has_role" config = Ok a ->
      is_ok (validate_inline_action ns route key a) = bool_decide (ns = "check"%string)
  | _ => False
  end.
Proof.
  destruct (register "has_role" has_role Config.Sample.registry) as [[u|e] r'] eqn:Hr;
    [|vm_compute in Hr; discriminate Hr].
  destruct (registered_kind convert (fun _ => Ok tt) convert pass keep remote "has_role" has_role Config.Sample.registry
    (Ok u) r' Hr) as (kind & Hkind & _ & Hall). vm_compute in Hkind. injection Hkind as <-. exact Hall.
Defined.
End Sample.
