(* ===== verification/Sweeper.v ===== *)
(** * The sweeper ([runtime/maintenance.rs])

    The thread that expires finished jobs nobody collects and reclaims the
    slots of dead brokers, as the loop it is: [Broker.step] has its atomic
    actions, this file its passes, with the other threads acting in between. *)
From S2P Require Import Prelude Json Errors Job Store Broker.

(** ** Reclaiming within a bound *)

Definition RECLAIM_TIMEOUT : Z := 15 * 10 ^ 9.

Inductive ReclaimOutcome : Type :=
| Reclaimed (n : Z)
| Failed (e : DbError)
| TimedOut.

(** The future answers after a time, or never; the first component is the time
    the call took. *)
Definition reclaim_within (fut : option (Z * result DbError Z)) (timeout : Z) : Z * ReclaimOutcome :=
  match fut with
  | Some (after, r) =>
      if after <=? timeout then (after, match r with Ok n => Reclaimed n | Err e => Failed e end)
      else (timeout, TimedOut)
  | None => (timeout, TimedOut)
  end.

Section sweeper.
Context {V : Type} `{JsonValue V} (cfg : BrokerConfig).
Notation sys := (sys V).

(** [runtime]: the thread got its Tokio runtime, which it asks for when there is
    a store. In pass [p], [now p n] is the clock at the [n]-th look at a job,
    [env p n] what the other threads do before it, [between p n] what they do
    between a removal and the decrement of the counter, and [reclaim p] how the
    store answers the request to reclaim slots. *)
Context (runtime : bool) (now : nat -> nat -> Z) (env between : nat -> nat -> sys -> sys)
  (reclaim : nat -> sys -> option (Z * result DbError Z)).

(** The test on a job that is in the table: it is finished and has no client. *)
Definition due (t : Z) (b : Bits V) (i : string) : bool :=
  match b.(jobs) !! i with
  | Some l => match b.(objs) !! l with Some j => sweepable t b j | None => false end
  | None => false
  end.

(** The walk over the table collects the ids that are due when it reaches them. *)
Fixpoint scan (p n : nat) (keys : list string) (s : sys) : list string * sys :=
  match keys with
  | [] => ([], s)
  | k :: keys =>
      let s := env p n s in
      let '(expired, s') := scan p (S n) keys s in
      (if due (now p n) s.(bits) k then k :: expired else expired, s')
  end.

(** [remove_if] with its test made again, the decrement, and the deletion of the
    durable record, which is recorded with the removal. *)
Definition sweep_id (p n : nat) (i : string) (s : sys) : sys :=
  if due (now p n) s.(bits) i then
    match s.(bits).(jobs) !! i with
    | Some l =>
        let b := (remove_entry i s.(bits)).2 in
        let b := if runtime then schedule_durable_cleanup cfg l i b else b in
        let s := between p n (set_undecremented (s.(undecremented) + 1) (expire l (set_bits b s))) in
        set_undecremented (s.(undecremented) - 1) (set_bits (decrement s.(bits)) s)
    | None => s
    end
  else s.

Fixpoint sweep_ids (p n : nat) (ids : list string) (s : sys) : sys :=
  match ids with
  | [] => s
  | i :: ids => sweep_ids p (S n) ids (sweep_id p n i (env p n s))
  end.

(** One pass over the table, and the bounded reclaim that ends it. *)
Definition sweep (p : nat) (s : sys) : sys * list (Z * ReclaimOutcome) :=
  let keys := (map_to_list s.(bits).(jobs)).*1 in
  let '(expired, s) := scan p 0 keys s in
  let s := sweep_ids p (length keys) expired s in
  (s, if runtime then [reclaim_within (reclaim p s) RECLAIM_TIMEOUT] else []).

(** The thread: [stopped p] is what the shutdown flag is after the wait that
    precedes pass [p], during which the others do [wait p]; [fuel] bounds the
    passes. *)
Fixpoint start_sweeper (wait : nat -> sys -> sys) (stopped : nat -> bool) (fuel p : nat) (s : sys) :
    sys * list (Z * ReclaimOutcome) :=
  match fuel with
  | O => (s, [])
  | S fuel =>
      let s := wait p s in
      if stopped p then (s, [])
      else
        let '(s, o) := sweep p s in
        let '(s, os) := start_sweeper wait stopped fuel (S p) s in
        (s, o ++ os)
  end.

(** ** Passes are runs of the broker *)

(** Nobody else makes the decrement that is ours between a removal and it. *)
Section refines.
Hypothesis env_runs : forall p n s, rtc (step cfg) s (env p n s).
Hypothesis between_runs : forall p n s, rtc (step cfg) s (between p n s).
Hypothesis between_ours : forall p n s, 1 <= s.(undecremented) -> 1 <= (between p n s).(undecremented).
Hypothesis runtime_built : runtime = has_store cfg.

Lemma reachable_trans (s s' : sys) : reachable cfg s -> rtc (step cfg) s s' -> reachable cfg s'.
Proof. unfold reachable. intros Hs Hr. by etrans. Qed.

(** The loop's cleanup is the one of the step relation. *)
Lemma cleanup_without_store l i (b : Bits V) :
  (if runtime then schedule_durable_cleanup cfg l i b else b) = schedule_durable_cleanup cfg l i b.
Proof.
  rewrite runtime_built. unfold schedule_durable_cleanup. destruct (has_store cfg); [done|].
  destruct (objs b !! l) as [j|]; [|done]. by rewrite andb_false_r.
Qed.

Lemma scan_runs p n keys s : rtc (step cfg) s (scan p n keys s).2.
Proof.
  revert n s. induction keys as [|k keys IH]; intros n s; [done|]. cbn [scan].
  specialize (IH (S n) (env p n s)). destruct (scan p (S n) keys _) as [e s']. etrans; [apply env_runs|exact IH].
Qed.

Lemma sweep_id_runs p n i s : reachable cfg s -> rtc (step cfg) s (sweep_id p n i s).
Proof.
  intros (_ & Hu%ac_undecremented & _)%sys_inv_reachable.
  unfold sweep_id, due. destruct (jobs (bits s) !! i) as [l|] eqn:Hl; [|done].
  destruct (objs (bits s) !! l) as [j|] eqn:Hj; [|done]. destruct (sweepable _ _ _) eqn:Hs; [|done].
  rewrite cleanup_without_store. eapply rtc_l; [by eapply (step_sweep cfg s i l j (now p n))|].
  etrans; [apply (between_runs p n)|]. apply rtc_once, step_decrement, between_ours. simpl. lia.
Qed.

Lemma sweep_ids_runs p n ids s : reachable cfg s -> rtc (step cfg) s (sweep_ids p n ids s).
Proof.
  revert n s. induction ids as [|i ids IH]; intros n s Hs; [done|]. cbn [sweep_ids].
  pose proof (env_runs p n s) as He.
  pose proof (sweep_id_runs p n i (env p n s) (reachable_trans _ _ Hs He)) as Hi.
  etrans; [exact He|]. etrans; [exact Hi|]. apply IH. by do 2 (eapply reachable_trans; [|eassumption]).
Qed.

Lemma sweep_runs p s : reachable cfg s -> rtc (step cfg) s (sweep p s).1.
Proof.
  intros Hs. unfold sweep. pose proof (scan_runs p 0 (map_to_list s.(bits).(jobs)).*1 s) as Hr.
  destruct (scan _ _ _ _) as [e s']. cbn [fst snd] in *.
  etrans; [exact Hr|]. by eapply sweep_ids_runs, reachable_trans.
Qed.

(** C35. The sweeper as a loop is the sweeper of the interleaving model: however the
    other threads act before each look at a job and before each decrement, what
    the thread does is a run of the broker's atomic steps, so everything that
    holds in every reachable state holds under the real sweeper. *)
Theorem sweeper_refines wait stopped fuel p s :
  (forall p s, rtc (step cfg) s (wait p s)) ->
  reachable cfg s -> rtc (step cfg) s (start_sweeper wait stopped fuel p s).1.
Proof.
  intros Hwait. revert p s. induction fuel as [|fuel IH]; intros p s Hs; [done|]. cbn [start_sweeper].
  pose proof (reachable_trans _ _ Hs (Hwait p s)) as Hs'.
  destruct (stopped p); [apply Hwait|]. pose proof (sweep_runs p _ Hs') as Hp.
  destruct (sweep p (wait p s)) as [s1 o]. specialize (IH (S p) s1 (reachable_trans _ _ Hs' Hp)).
  destruct (start_sweeper wait stopped fuel (S p) s1). cbn [fst] in *.
  etrans; [apply Hwait|]. by etrans.
Qed.
End refines.
End sweeper.

(** ** What a pass removes *)

Section exact.
Context {V : Type} `{JsonValue V} (cfg : BrokerConfig) (runtime : bool) (t : Z).
Context (reclaim : nat -> sys V -> option (Z * result DbError Z)).
Notation sys := (sys V).
Notation always := (fun _ _ : nat => t).
Notation alone := (fun (_ _ : nat) (s : sys) => s).
Notation sweep_id := (sweep_id cfg runtime always alone).
Notation sweep_ids := (sweep_ids cfg runtime always alone alone).
Notation scan := (scan always alone).

Lemma scan_alone p n keys s : scan p n keys s = (List.filter (due t s.(bits)) keys, s).
Proof.
  revert n. induction keys as [|k keys IH]; intros n; [done|]. cbn [Sweeper.scan List.filter]. rewrite IH.
  by destruct (due t (bits s) k).
Qed.

Lemma due_in_table (b : Bits V) i : due t b i = true -> i ∈ (map_to_list b.(jobs)).*1.
Proof.
  unfold due. destruct (jobs b !! i) as [l|] eqn:Hl; [|done]. intros _. apply list_elem_of_fmap. exists (i, l).
  split; [done|]. by apply elem_of_map_to_list.
Qed.

Lemma sweep_id_alone p n i s :
  (sweep_id p n i s).(bits).(objs) = s.(bits).(objs) /\ (sweep_id p n i s).(bits).(cells) = s.(bits).(cells) /\
  (sweep_id p n i s).(bits).(jobs) = if due t s.(bits) i then delete i s.(bits).(jobs) else s.(bits).(jobs).
Proof.
  unfold Sweeper.sweep_id, due. destruct (jobs (bits s) !! i) as [l|] eqn:Hl; [|done].
  destruct (objs (bits s) !! l) as [j|] eqn:Hj; [|done]. destruct (sweepable _ _ _) eqn:Hs; [|done].
  unfold schedule_durable_cleanup, decrement. simpl. rewrite Hj.
  destruct runtime, (persisted j && has_store cfg); simpl; by destruct (1 <=? _).
Qed.

Lemma due_kept p n k i s : k <> i -> due t (sweep_id p n i s).(bits) k = due t s.(bits) k.
Proof.
  intros Hk. destruct (sweep_id_alone p n i s) as (Ho & Hc & Hj).
  assert (jobs (bits (sweep_id p n i s)) !! k = jobs (bits s) !! k) as Hl.
  { rewrite Hj. destruct (due t (bits s) i); [by rewrite lookup_delete_ne|done]. }
  unfold due, sweepable. by rewrite Hl, Ho, Hc.
Qed.

Lemma sweep_ids_alone p n ids s :
  (forall i, i ∈ ids -> due t s.(bits) i = true \/ s.(bits).(jobs) !! i = None) ->
  (sweep_ids p n ids s).(bits).(objs) = s.(bits).(objs) /\
  forall k, (sweep_ids p n ids s).(bits).(jobs) !! k = if decide (k ∈ ids) then None else s.(bits).(jobs) !! k.
Proof.
  revert n s. induction ids as [|i ids IH]; intros n s Hd; cbn [Sweeper.sweep_ids].
  { split; [done|]. intros k. by rewrite decide_False by (by intros ?%elem_of_nil). }
  destruct (sweep_id_alone p n i s) as (Ho & _ & Hj).
  assert ((sweep_id p n i s).(bits).(jobs) = delete i s.(bits).(jobs)) as Hdel.
  { rewrite Hj. destruct (Hd i) as [->|Hn]; [apply elem_of_cons; by left|done|]. unfold due. rewrite Hn.
    by rewrite delete_id. }
  destruct (IH (S n) (sweep_id p n i s)) as [Ho' Hj'].
  { intros k Hk. destruct (decide (k = i)) as [->|Hne]; [right; rewrite Hdel; by rewrite lookup_delete_eq|].
    rewrite due_kept, Hdel, lookup_delete_ne by done. apply Hd, elem_of_cons. by right. }
  rewrite Ho'. split; [done|]. intros k. rewrite Hj', Hdel.
  destruct (decide (k = i)) as [->|Hne].
  - rewrite lookup_delete_eq, (decide_True (P:=i ∈ i :: ids)) by (apply elem_of_cons; by left). by case_decide.
  - rewrite lookup_delete_ne by done. repeat case_decide; try done; set_solver.
Qed.

(** Left alone, a pass removes exactly the entries of the jobs that are finished
    and whose client is gone, touches no job, and a store that hangs holds it
    for the reclaim timeout and no longer. *)
Theorem sweep_exact p s :
  let '(s', outcomes) := sweep cfg runtime always alone alone reclaim p s in
  s'.(bits).(objs) = s.(bits).(objs) /\
  (forall k, s'.(bits).(jobs) !! k = if due t s.(bits) k then None else s.(bits).(jobs) !! k) /\
  Forall (fun '(took, _) => took <= RECLAIM_TIMEOUT) outcomes.
Proof.
  unfold sweep. rewrite scan_alone. set (keys := (map_to_list s.(bits).(jobs)).*1).
  destruct (sweep_ids_alone p (length keys) (List.filter (due t s.(bits)) keys) s) as [Ho Hj].
  { intros i [_ Hi]%list_elem_of_In%filter_In. by left. }
  split_and!; [exact Ho| |].
  - intros k. rewrite Hj. case_decide as Hin; rewrite list_elem_of_In, filter_In in Hin; [by destruct Hin as [_ ->]|].
    destruct (due t (bits s) k) eqn:Hk; [|done]. destruct Hin. split; [|done].
    by apply list_elem_of_In, due_in_table.
  - destruct runtime; constructor; [|constructor]. unfold reclaim_within.
    destruct (reclaim _ _) as [[after r]|]; [|simpl; lia]. destruct (Z.leb_spec after RECLAIM_TIMEOUT); simpl; lia.
Qed.
End exact.

(** ** A concrete pass *)

(** A finished job nobody polls, its reconnect window over at 100. *)
Definition idle_run : {s : sys sample | reachable demo_cfg s}.
Proof.
  eexists. unfold reachable.
  run (step_reserve _ _ EnforceLimit).
  run (step_insert _ _ 0 0%nat (new_lifecycle 0) demo_job false).
  run (step_start _ _ 0%nat).
  run (step_finish _ _ 0%nat _ demo_payload).
  apply rtc_refl.
Defined.

Definition idle_sys : sys sample := proj1_sig idle_run.

Definition idle_sweeper : sys sample :=
  (start_sweeper demo_cfg true (fun _ _ => 100) (fun _ _ s => s) (fun _ _ s => s) (fun _ _ => None)
    (fun _ s => s) (fun p => (3 <=? p)%nat) 5 0 idle_sys).1.

Lemma sweeper_refines_witness :
  expired idle_sweeper = {[0%nat]} /\ job_count idle_sweeper.(bits) = 0 /\ rtc (step demo_cfg) idle_sys idle_sweeper.
Proof.
  split_and!; [vm_compute; reflexivity|vm_compute; reflexivity|].
  apply (sweeper_refines demo_cfg true (fun _ _ => 100) (fun _ _ s => s) (fun _ _ s => s) (fun _ _ => None)
    (fun _ _ s => rtc_refl _ s) (fun _ _ s => rtc_refl _ s) (fun _ _ s Hs => Hs) eq_refl
    (fun _ s => s) (fun p => (3 <=? p)%nat) 5 0 idle_sys (fun _ s => rtc_refl _ s) (proj2_sig idle_run)).
Defined.
