(* ===== verification/Cluster.v ===== *)
(** * The cluster ([bits.rs], [runtime/], [db/mod.rs] together)

    Any number of brokers, each the system of [Broker], on one store behind the
    interface of [Store]: they join, accept jobs, persist them, crash, claim the
    records of others, run them again and delete what was delivered.  The store
    is any one that keeps the laws; when a lease counts as lapsed is a
    parameter. *)
From S2P Require Import Prelude Json Errors RequestId Job Store MemoryStore Broker Recovery.

(** ** What one broker does to its objects *)

Section member.
Context {V : Type} `{JsonValue V} (cfg : BrokerConfig).
Notation sys := (sys V).

(** A job of this id was delivered or expired here. *)
Definition gone (s : sys) (i : string) : Prop :=
  exists l j, s.(bits).(objs) !! l = Some j /\ j.(id) = i /\ (l ∈ s.(delivered) \/ l ∈ s.(expired)).

(** The object stands for a durable record: it is known to be written, or it
    was restored from one and its runner has not started. *)
Definition durable (s : sys) (l : nat) (j : Job V) : Prop :=
  j.(persisted) = true \/ s.(runners) !! l = Some (RunnerNew true).

#[export] Instance runner_eq_dec : EqDecision runner.
Proof. solve_decision. Defined.

#[export] Instance durable_dec (s : sys) l j : Decision (durable s l j).
Proof. apply _. Defined.

(** The steps that neither accept a job nor end a write of the store. *)
Definition quiet (s s' : sys) : Prop :=
  (forall l, s.(bits).(objs) !! l = None -> s'.(bits).(objs) !! l = None) /\
  (forall l, s.(runners) !! l = Some RunnerPersisting -> s'.(runners) !! l = Some RunnerPersisting).

(** What a step keeps of the objects that were there. *)
Record grows (s s' : sys) : Prop := mkGrows {
  gr_objs l j : s.(bits).(objs) !! l = Some j ->
    exists j', s'.(bits).(objs) !! l = Some j' /\ j'.(id) = j.(id) /\
      (durable s' l j' -> durable s l j \/
        s.(runners) !! l = Some RunnerPersisting /\ s'.(runners) !! l = Some (RunnerDispatching false)) /\
      (durable s l j -> durable s' l j');
  gr_delivered l : l ∈ s.(delivered) -> l ∈ s'.(delivered);
  gr_expired l : l ∈ s.(expired) -> l ∈ s'.(expired)
}.

Lemma grows_same s s' :
  s'.(bits).(objs) = s.(bits).(objs) -> s'.(runners) = s.(runners) ->
  (forall l, l ∈ s.(delivered) -> l ∈ s'.(delivered)) -> (forall l, l ∈ s.(expired) -> l ∈ s'.(expired)) ->
  grows s s'.
Proof.
  intros Ho Hr Hd He. split; [|done|done]. intros l j Hj. exists j. rewrite Ho. unfold durable. rewrite Hr. tauto.
Qed.

(** The object at [l] changes in place with its runner. *)
Lemma grows_alter s s' l f :
  s'.(bits).(objs) = alter f l s.(bits).(objs) ->
  (forall k, k <> l -> s'.(runners) !! k = s.(runners) !! k) ->
  s'.(delivered) = s.(delivered) -> s'.(expired) = s.(expired) ->
  (forall j, s.(bits).(objs) !! l = Some j ->
     (f j).(id) = j.(id) /\
     (durable s' l (f j) -> durable s l j \/
        s.(runners) !! l = Some RunnerPersisting /\ s'.(runners) !! l = Some (RunnerDispatching false)) /\
     (durable s l j -> durable s' l (f j))) ->
  grows s s'.
Proof.
  intros Ho Hr Hd He Hf. split; [|by rewrite Hd|by rewrite He]. intros k j Hj. rewrite Ho.
  eexists. split; [by apply lookup_alter_of|]. case_decide as Hk; [subst; by apply Hf|].
  unfold durable. rewrite Hr by done. tauto.
Qed.

Lemma step_grows (s s' : sys) : objects_of s -> step cfg s s' -> grows s s'.
Proof.
  intros HO Hs. destruct Hs.
  - apply reserve_fields in H1 as [-> _]. by apply grows_same.
  - split; simpl; [|done|done]. intros k j' Hj. exists j'.
    assert (l <> k) by congruence. unfold durable. simpl. rewrite !lookup_insert_ne by done. tauto.
  - by apply grows_same.
  - apply (grows_alter _ _ l (fun j => with_persisted (already || j.(persisted)) j)); simpl; try done.
    { intros k Hk. by rewrite lookup_insert_ne. }
    intros j Hj. unfold durable. simpl. rewrite lookup_insert_eq, H0. split_and!; [done| |].
    + destruct already; simpl; intros [Hp|[=]]; auto.
    + intros [->|[= ->]]; [left; by rewrite orb_true_r|by left].
  - apply (grows_alter _ _ l (fun j => j)); simpl; try done.
    { by rewrite alter_id. }
    { intros k Hk. by rewrite lookup_insert_ne. }
    intros j' Hj. unfold durable. simpl. rewrite lookup_insert_eq, H0.
    split_and!; [done| |]; case_match; intros [?|[=]]; auto.
  - apply (grows_alter _ _ l (if ok then with_persisted true else fun j => j)); destruct ok; simpl; try done.
    { by rewrite alter_id. }
    1, 2: intros k Hk; by rewrite lookup_insert_ne.
    all: intros j Hj; unfold durable; simpl; rewrite lookup_insert_eq, H0; split_and!; try done; auto.
    all: intros [?|[=]]; auto.
  - apply (grows_alter _ _ l (with_result (Some r))); simpl; try done.
    { intros k Hk. by rewrite lookup_insert_ne. }
    intros j Hj. unfold durable. simpl. rewrite lookup_insert_eq, H0. split_and!; [done| |]; intros [?|[=]]; auto.
  - by apply grows_same.
  - by apply grows_same.
  - by apply grows_same.
  - apply take_result_Some in H2 as (j & Hj & Hr & ->).
    split; simpl; [|intros; by right|done]. intros k j' Hj'.
    destruct (decide (poll_handle x = k)) as [<-|Hk].
    + simplify_eq. exists (with_result None j). rewrite lookup_insert_eq. unfold durable. simpl. tauto.
    + exists j'. rewrite lookup_insert_ne by done. unfold durable. simpl. tauto.
  - by apply grows_same.
  - destruct (decrement_fields s.(bits)) as (Ho & _). by apply grows_same.
  - destruct (schedule_fields cfg x.(poll_handle) x.(poll_id) s.(bits)) as (Ho & _). by apply grows_same.
  - by apply grows_same.
  - destruct (schedule_fields cfg l i (upd_jobs (delete i s.(bits).(jobs)) s.(bits))) as (Ho & _).
    apply grows_same; simpl; try done. set_solver.
Qed.

Lemma gone_grows s s' i : grows s s' -> gone s i -> gone s' i.
Proof.
  intros [Ho Hd He] (l & j & Hj & Hi & Hg). destruct (Ho l j Hj) as (j' & Hj' & Hid & _).
  exists l, j'. rewrite Hid. destruct Hg; eauto.
Qed.

(** New objects come from an insertion. *)
Lemma step_origin (s s' : sys) l j :
  step cfg s s' -> s.(bits).(objs) !! l = None -> s'.(bits).(objs) !! l = Some j ->
  s.(bits).(jobs) !! j.(id) = None /\ s'.(bits).(jobs) = <[j.(id) := l]> s.(bits).(jobs).
Proof.
  intros Hs Hl Hj. destruct Hs; simpl in *; try congruence.
  - apply reserve_fields in H1 as [-> _]. simpl in Hj. congruence.
  - rewrite lookup_insert_Some in Hj. destruct Hj as [[-> <-]|[_ Hj]]; [done|congruence].
  - rewrite lookup_alter_None in Hl || (apply lookup_alter_some in Hj as (? & ? & _); congruence).
  - destruct ok; simpl in Hj; [|congruence]. apply lookup_alter_some in Hj as (? & ? & _). congruence.
  - apply lookup_alter_some in Hj as (? & ? & _). congruence.
  - apply take_result_Some in H2 as (j0 & Hj0 & _ & ->). simpl in Hj.
    apply lookup_insert_Some in Hj as [[<- _]|[_ ?]]; congruence.
  - destruct (decrement_fields s.(bits)) as (Ho & _). congruence.
  - destruct (schedule_fields cfg x.(poll_handle) x.(poll_id) s.(bits)) as (Ho & _). congruence.
  - destruct (schedule_fields cfg l0 i (upd_jobs (delete i s.(bits).(jobs)) s.(bits))) as (Ho & _).
    simpl in Ho. congruence.
Qed.

(** Only a delivered or expired job is deleted from the store. *)
Definition cleanup_gone (s : sys) : Prop := forall i, i ∈ s.(bits).(cleanup) -> gone s i.

Lemma schedule_cleanup l i (b : Bits V) k :
  k ∈ (schedule_durable_cleanup cfg l i b).(cleanup) -> k ∈ b.(cleanup) \/ k = i.
Proof. unfold schedule_durable_cleanup. repeat case_match; simpl; try tauto. set_solver. Qed.

Lemma cleanup_gone_step s s' : objects_of s -> cleanup_gone s -> step cfg s s' -> cleanup_gone s'.
Proof.
  intros HO HC Hs. pose proof (step_grows _ _ HO Hs) as Hg.
  assert (forall i, i ∈ s'.(bits).(cleanup) -> i ∈ s.(bits).(cleanup) \/ gone s' i) as Hcl.
  2: { intros i Hi. destruct (Hcl _ Hi); [by eapply gone_grows, HC|done]. }
  intros k. destruct Hs; simpl; try tauto.
  - apply reserve_fields in H1 as [-> _]. tauto.
  - destruct ok; simpl; tauto.
  - apply take_result_Some in H2 as (j & _ & _ & ->). simpl. tauto.
  - destruct (decrement_fields s.(bits)) as (_ & _ & _ & ->). tauto.
  - intros [? | ->]%schedule_cleanup; [by left|right].
    destruct (ob_poller _ _ _ _ _ _ HO _ _ H0) as [(j & Hj & Hid) Ht].
    destruct (schedule_fields cfg x.(poll_handle) x.(poll_id) s.(bits)) as (Ho & _).
    exists x.(poll_handle), j. simpl. rewrite Ho. split_and!; [done..|]. left. apply Ht. by rewrite H1.
  - intros [? | ->]%schedule_cleanup; [by left|right].
    destruct (ob_table _ _ _ _ _ _ HO _ _ H0) as (j' & Hj' & Hid).
    destruct (schedule_fields cfg l i (upd_jobs (delete i s.(bits).(jobs)) s.(bits))) as (Ho & _).
    exists l, j'. simpl in *. rewrite Ho. split_and!; [done..|]. right. set_solver.
Qed.

(** An object whose id has neither been delivered nor expired is the one the
    table names. *)
Definition tabled (s : sys) : Prop :=
  forall l j, s.(bits).(objs) !! l = Some j -> ~ gone s j.(id) -> s.(bits).(jobs) !! j.(id) = Some l.

(** The table loses an entry only with a delivery or an expiry of its id. *)
Lemma step_table (s s' : sys) i l :
  objects_of s -> step cfg s s' -> s.(bits).(jobs) !! i = Some l -> s'.(bits).(jobs) !! i = Some l \/ gone s' i.
Proof.
  intros HO Hs Hi. destruct Hs; simpl; auto.
  - apply reserve_fields in H1 as [-> _]. auto.
  - left. rewrite lookup_insert_ne; [done|congruence].
  - destruct ok; auto.
  - apply take_result_Some in H2 as (j & _ & _ & ->). auto.
  - destruct (decide (x.(poll_id) = i)) as [<-|]; [right|left; by rewrite lookup_delete_ne].
    destruct (ob_poller _ _ _ _ _ _ HO _ _ H0) as [(j & Hj & Hid) Ht].
    exists x.(poll_handle), j. simpl. split_and!; [done..|]. left. apply Ht. by rewrite H1.
  - destruct (decrement_fields s.(bits)) as (_ & -> & _). auto.
  - destruct (schedule_fields cfg x.(poll_handle) x.(poll_id) s.(bits)) as (_ & _ & -> & _). auto.
  - destruct (schedule_fields cfg l0 i0 (upd_jobs (delete i0 s.(bits).(jobs)) s.(bits))) as (Ho & _ & -> & _).
    simpl in *. destruct (decide (i0 = i)) as [<-|]; [right|left; by rewrite lookup_delete_ne].
    destruct (ob_table _ _ _ _ _ _ HO _ _ H0) as (j' & Hj' & Hid).
    exists l0, j'. simpl. rewrite Ho. split_and!; [done..|]. right. set_solver.
Qed.

Lemma tabled_step s s' : objects_of s -> tabled s -> step cfg s s' -> tabled s'.
Proof.
  intros HO HT Hs l j' Hj' Hng. pose proof (step_grows _ _ HO Hs) as Hg.
  destruct (s.(bits).(objs) !! l) as [j|] eqn:Hj.
  - destruct (gr_objs _ _ Hg _ _ Hj) as (j2 & Hj2 & Hid & _). simplify_eq.
    destruct (step_table _ _ j.(id) l HO Hs) as [Ht|Ht]; [|by rewrite Hid|by rewrite Hid in Hng].
    apply HT; [done|]. intros Hgone. apply Hng. rewrite Hid. by eapply gone_grows.
  - destruct (step_origin _ _ _ _ Hs Hj Hj') as [_ ->]. by rewrite lookup_insert_eq.
Qed.

Lemma member_reachable s : reachable cfg s -> objects_of s /\ cleanup_gone s /\ tabled s.
Proof.
  intros Hr. assert (objects_of s) as HO by apply (sys_inv_reachable _ _ Hr). split; [done|]. clear HO.
  enough (Broker.inv cfg s /\ cleanup_gone s /\ tabled s) by tauto.
  unfold reachable in Hr. revert Hr.
  assert (Broker.inv cfg (sys_new : sys) /\ cleanup_gone (sys_new : sys) /\ tabled (sys_new : sys)) as Hn.
  { split_and!; [apply Broker.inv_new|intros i; simpl; set_solver|intros l j; simpl; by rewrite lookup_empty]. }
  intros Hr. revert Hn. induction Hr as [|s1 s2 s3 Hs _ IH]; [done|]. intros (Hi & Hc & Ht). apply IH.
  pose proof (proj1 Hi) as HO.
  split_and!; [by eapply Broker.inv_step|by eapply cleanup_gone_step|by eapply tabled_step].
Qed.
End member.

(** ** The system of brokers *)

Section cluster.
Context {V S : Type} `{JsonValue V} `{JobStore V S}.

(** [hands] are the records this broker has claimed and not yet submitted,
    [cleared] the positions of its cleanup list it has worked off. *)
Record member : Type := mkMember {
  m_cfg : BrokerConfig;
  m_sys : sys V;
  m_up : bool;
  cleared : gset nat;
  hands : list (PersistentJobRecord V)
}.

Record cluster : Type := mkCluster { members : gmap string member; store : S }.

Definition with_sys (s : sys V) (m : member) : member := mkMember m.(m_cfg) s m.(m_up) m.(cleared) m.(hands).
Definition with_hands (h : list (PersistentJobRecord V)) (m : member) : member :=
  mkMember m.(m_cfg) m.(m_sys) m.(m_up) m.(cleared) h.
Definition with_cleared (k : gset nat) (m : member) : member :=
  mkMember m.(m_cfg) m.(m_sys) m.(m_up) k m.(hands).
Definition crashed (m : member) : member := mkMember m.(m_cfg) m.(m_sys) false m.(cleared) m.(hands).
Definition joined (cfg : BrokerConfig) : member := mkMember cfg sys_new true ∅ [].

Definition put (b : string) (m : member) (st : S) (c : cluster) : cluster :=
  mkCluster (<[b := m]> c.(members)) st.

Definition with_store (st : S) (c : cluster) : cluster := mkCluster c.(members) st.

Definition live (c : cluster) (b : string) (m : member) : Prop :=
  c.(members) !! b = Some m /\ m.(m_up) = true.

(** [submit] past its admission: the object goes into the table and gets a
    runner. *)
Definition insertion (cfg : BrokerConfig) (now : Z) (l : nat) (cl : Lifecycle) (j : Job V) (already : bool)
    (s : sys V) : sys V :=
  set_runner l (RunnerNew already)
    (set_reserving (s.(reserving) - 1) (set_bits (insert_job cfg now l cl j s.(bits)) s)).

Definition insertable (l : nat) (j : Job V) (s : sys V) : Prop :=
  1 <= s.(reserving) /\ s.(bits).(objs) !! l = None /\ s.(runners) !! l = None /\
  j.(job_result) = None /\ s.(bits).(jobs) !! j.(id) = None.

(** What the runner does with the answer of the store to its write. *)
Definition persist_end (l : nat) (r : result DbError unit) (s : sys V) : sys V :=
  set_runner l (RunnerDispatching false)
    (if is_ok r then set_written ({[l]} ∪ s.(written)) (upd_obj l (with_persisted true) s) else s).

(** The answer to a claim: a record in hand, or nothing. *)
Definition claimed_into (r : result DbError (ClaimResult V)) (m : member) : member :=
  match r with Ok (Claimed rec) => with_hands (rec :: m.(hands)) m | _ => m end.

(** An id nobody has used. *)
Definition unused (i : string) (c : cluster) (lookup_job : string -> S -> option (PersistentJobRecord V)) : Prop :=
  lookup_job i c.(store) = None /\
  forall b m, c.(members) !! b = Some m ->
    (forall l j, m.(m_sys).(bits).(objs) !! l = Some j -> j.(id) <> i) /\
    (forall r, r ∈ m.(hands) -> r.(rec_job_id) <> i).

(** [lapsed c b o]: broker [b] finds that [o] holds no live lease. *)
Context (lookup_job : string -> S -> option (PersistentJobRecord V)).
Context (lapsed : cluster -> string -> string -> Prop).

Inductive cstep : cluster -> cluster -> Prop :=
(* a broker starts under a name that is its own *)
| c_join c cfg :
    c.(members) !! broker_name cfg = None -> cfg.(has_store) = true ->
    cstep c (put (broker_name cfg) (joined cfg) c.(store) c)
| c_crash c b m : live c b m -> cstep c (put b (crashed m) c.(store) c)
(* anything a broker does by itself *)
| c_local c b m s' :
    live c b m -> step m.(m_cfg) m.(m_sys) s' -> quiet m.(m_sys) s' ->
    cstep c (put b (with_sys s' m) c.(store) c)
| c_accept c b m now l cl j :
    live c b m -> insertable l j m.(m_sys) -> j.(persisted) = false -> unused j.(id) c lookup_job ->
    cstep c (put b (with_sys (insertion m.(m_cfg) now l cl j false m.(m_sys)) m) c.(store) c)
| c_persist c b m l j r st :
    live c b m -> m.(m_sys).(runners) !! l = Some RunnerPersisting ->
    m.(m_sys).(bits).(objs) !! l = Some j ->
    upsert_job (record_of (broker_name m.(m_cfg)) j) c.(store) = (r, st) ->
    cstep c (put b (with_sys (persist_end l r m.(m_sys)) m) st c)
(* a poll of an id whose owner, by the id, is this broker or has no lease *)
| c_claim c b m i owner r st :
    live c b m -> slot_from_job_id i = Ok owner -> owner = broker_name m.(m_cfg) \/ lapsed c b owner ->
    claim_if_owner i owner (broker_name m.(m_cfg)) c.(store) = (r, st) ->
    cstep c (put b (claimed_into r m) st c)
(* the claimed record is submitted again, or the id is in the table already *)
| c_recover c b m rec h1 h2 now l cl :
    live c b m -> m.(hands) = h1 ++ rec :: h2 -> insertable l (restore rec l) m.(m_sys) ->
    cstep c (put b (with_hands (h1 ++ h2)
                     (with_sys (insertion m.(m_cfg) now l cl (restore rec l) true m.(m_sys)) m)) c.(store) c)
| c_discard c b m rec h1 h2 :
    live c b m -> m.(hands) = h1 ++ rec :: h2 -> is_Some (m.(m_sys).(bits).(jobs) !! rec.(rec_job_id)) ->
    cstep c (put b (with_hands (h1 ++ h2) m) c.(store) c)
(* the deletion of a record that was asked for *)
| c_clean c b m k i r st :
    live c b m -> m.(m_sys).(bits).(cleanup) !! k = Some i -> k ∉ m.(cleared) ->
    delete_job i c.(store) = (r, st) ->
    cstep c (put b (with_cleared ({[k]} ∪ m.(cleared)) m) st c)
(* the other tables of the store: leases, slots *)
| c_tables c st : (forall i, lookup_job i st = lookup_job i c.(store)) -> cstep c (with_store st c).

Definition cluster_new (st : S) : cluster := mkCluster ∅ st.

(** A job of this id was delivered or expired by some broker, up or not. *)
Definition retired (c : cluster) (i : string) : Prop :=
  exists b m, c.(members) !! b = Some m /\ gone m.(m_sys) i.

(** Some broker that is up holds a job of this id in an object. *)
Definition held (c : cluster) (b : string) (l : nat) (j : Job V) : Prop :=
  exists m, live c b m /\ m.(m_sys).(bits).(objs) !! l = Some j.
End cluster.
Arguments member : clear implicits.
Arguments cluster : clear implicits.

Section member_steps.
Context {V : Type} `{JsonValue V} (cfg : BrokerConfig).
Notation sys := (sys V).

Lemma grows_refl (s : sys) : grows s s.
Proof. by apply grows_same. Qed.

(** Where an object after a step comes from. *)
Lemma step_objs (s s' : sys) l j :
  objects_of s -> step cfg s s' -> s'.(bits).(objs) !! l = Some j -> is_Some (s.(bits).(objs) !! l) ->
  exists j0, s.(bits).(objs) !! l = Some j0 /\ j0.(id) = j.(id) /\
    (durable s' l j -> durable s l j0 \/
      s.(runners) !! l = Some RunnerPersisting /\ s'.(runners) !! l = Some (RunnerDispatching false)) /\
    (durable s l j0 -> durable s' l j).
Proof.
  intros HO Hs Hj [j0 Hj0]. destruct (gr_objs _ _ (step_grows _ _ _ HO Hs) _ _ Hj0) as (j' & Hj' & Hid & Hd & Hd').
  simplify_eq. exists j0. by rewrite Hid.
Qed.

Lemma quiet_objs (s s' : sys) l j :
  objects_of s -> step cfg s s' -> quiet s s' -> s'.(bits).(objs) !! l = Some j ->
  exists j0, s.(bits).(objs) !! l = Some j0 /\ j0.(id) = j.(id) /\ (durable s' l j <-> durable s l j0).
Proof.
  intros HO Hs [Hq1 Hq2] Hj. destruct (s.(bits).(objs) !! l) as [j0|] eqn:Hj0.
  - destruct (step_objs s s' l j HO Hs Hj) as (j1 & Hj1 & Hid & Hd & Hd'); [by rewrite Hj0|].
    simplify_eq. exists j0. split_and!; [done..|]. split; [|done]. intros [?|[Hp Hn]]%Hd; [done|].
    apply Hq2 in Hp. congruence.
  - apply Hq1 in Hj0. congruence.
Qed.

Lemma insertion_step now l cl j already (s : sys) :
  insertable l j s -> step cfg s (insertion cfg now l cl j already s).
Proof. intros (? & ? & ? & ? & ?). by apply step_insert. Qed.

Lemma insertion_objs now l cl j already (s : sys) k j' :
  (insertion cfg now l cl j already s).(bits).(objs) !! k = Some j' ->
  k = l /\ j' = with_cell l j \/ k <> l /\ s.(bits).(objs) !! k = Some j'.
Proof. simpl. rewrite lookup_insert_Some. naive_solver. Qed.

Lemma insertion_durable now l cl j already (s : sys) k j' :
  k <> l -> durable (insertion cfg now l cl j already s) k j' <-> durable s k j'.
Proof. intros Hk. unfold durable, insertion. simpl. by rewrite lookup_insert_ne. Qed.

Lemma persist_step l r (s : sys) :
  s.(runners) !! l = Some RunnerPersisting -> step cfg s (persist_end l r s).
Proof. intros Hl. by apply (step_persist_end cfg s l (is_ok r)). Qed.

Lemma persist_objs l r (s : sys) k j' :
  (persist_end l r s).(bits).(objs) !! k = Some j' ->
  exists j, s.(bits).(objs) !! k = Some j /\ j.(id) = j'.(id).
Proof.
  unfold persist_end. destruct r; simpl; [|eauto]. intros (j & Hj & ->)%lookup_alter_some.
  exists j. split; [done|]. by case_decide.
Qed.

Lemma persist_durable l r (s : sys) k j j' :
  s.(runners) !! l = Some RunnerPersisting ->
  s.(bits).(objs) !! k = Some j -> (persist_end l r s).(bits).(objs) !! k = Some j' ->
  durable (persist_end l r s) k j' <-> durable s k j \/ k = l /\ is_ok r = true.
Proof.
  intros Hl Hj. unfold persist_end, durable. destruct r; simpl; rewrite ?Hj.
  - rewrite (lookup_alter_of _ _ _ _ _ Hj). intros [= <-]. case_decide as Hk.
    + subst. simpl. rewrite lookup_insert_eq, Hl. naive_solver.
    + rewrite lookup_insert_ne by done. naive_solver.
  - intros [= <-]. destruct (decide (k = l)) as [-> |Hk].
    + rewrite lookup_insert_eq, Hl. naive_solver.
    + rewrite lookup_insert_ne by done. naive_solver.
Qed.
End member_steps.

(** ** A durable job stays in the store *)

Section laws.
Context {V S : Type} `{JsonValue V} `{JobStore V S}.
Context {lookup_job : string -> S -> option (PersistentJobRecord V)} `{!JobStoreLaws S lookup_job}.
Context (lapsed : cluster V S -> string -> string -> Prop).
Notation cluster := (cluster V S).
Notation cstep := (cstep lookup_job lapsed).

Record safe (c : cluster) : Prop := mkSafe {
  sf_member b m : c.(members) !! b = Some m ->
    reachable m.(m_cfg) m.(m_sys) /\ broker_name m.(m_cfg) = b /\ m.(m_cfg).(has_store) = true;
  sf_key i r : lookup_job i c.(store) = Some r -> r.(rec_job_id) = i;
  sf_obj b m l j : c.(members) !! b = Some m -> m.(m_sys).(bits).(objs) !! l = Some j -> durable m.(m_sys) l j ->
    is_Some (lookup_job j.(id) c.(store)) \/ retired c j.(id);
  sf_hand b m r : c.(members) !! b = Some m -> r ∈ m.(hands) ->
    is_Some (lookup_job r.(rec_job_id) c.(store)) \/ retired c r.(rec_job_id)
}.

Lemma retired_put (c : cluster) b (m m' : member V) st i :
  c.(members) !! b = Some m -> grows m.(m_sys) m'.(m_sys) -> retired c i -> retired (put b m' st c) i.
Proof.
  intros Hb Hg (b1 & m1 & Hb1 & Hr). destruct (decide (b = b1)) as [<-|Hne].
  - simplify_eq. exists b, m'. simpl. rewrite lookup_insert_eq. split; [done|]. by eapply gone_grows.
  - exists b1, m1. simpl. by rewrite lookup_insert_ne.
Qed.

(** One broker and the store change. *)
Lemma safe_put (c : cluster) b (m m' : member V) st :
  safe c -> c.(members) !! b = Some m -> m'.(m_cfg) = m.(m_cfg) -> grows m.(m_sys) m'.(m_sys) ->
  reachable m.(m_cfg) m'.(m_sys) ->
  (forall i r, lookup_job i st = Some r -> r.(rec_job_id) = i) ->
  (forall i, is_Some (lookup_job i c.(store)) -> is_Some (lookup_job i st) \/ retired c i) ->
  (forall l j, m'.(m_sys).(bits).(objs) !! l = Some j -> durable m'.(m_sys) l j ->
     is_Some (lookup_job j.(id) st) \/ is_Some (lookup_job j.(id) c.(store)) \/ retired c j.(id)) ->
  (forall r, r ∈ m'.(hands) -> is_Some (lookup_job r.(rec_job_id) st) \/ r ∈ m.(hands)) ->
  safe (put b m' st c).
Proof.
  intros [Hm Hk Ho Hh] Hb Hc Hg Hr Hk' Hst Ho' Hh'.
  assert (forall i, is_Some (lookup_job i c.(store)) \/ retired c i ->
            is_Some (lookup_job i st) \/ retired (put b m' st c) i) as Hkeep.
  { intros i [[?|?]%Hst|?]; [by left|right; by eapply retired_put..]. }
  split; simpl; [| done | |].
  - intros b1 m1. rewrite lookup_insert_Some. intros [[<- <-]|[_ Hb1]]; [|by apply Hm].
    rewrite Hc. split; [done|]. by apply Hm.
  - intros b1 m1 l j. rewrite lookup_insert_Some. intros [[<- <-]|[_ Hb1]] Hj Hd.
    + destruct (Ho' _ _ Hj Hd) as [?|?]; [by left|by apply Hkeep].
    + apply Hkeep. by eapply Ho.
  - intros b1 m1 r. rewrite lookup_insert_Some. intros [[<- <-]|[_ Hb1]] Hin.
    + destruct (Hh' _ Hin) as [?|?]; [by left|]. apply Hkeep. by eapply Hh.
    + apply Hkeep. by eapply Hh.
Qed.

(** What the operations of the store do to the records. *)
Lemma upsert_records r s x s' i :
  upsert_job r s = (x, s') ->
  lookup_job i s' = if is_ok x && bool_decide (i = r.(rec_job_id)) then Some r else lookup_job i s.
Proof.
  intros Hu. destruct x as [[]|e]; simpl.
  - rewrite (upsert_law _ _ _ Hu). by case_decide; case_bool_decide.
  - by rewrite (upsert_err _ _ _ _ Hu).
Qed.

Lemma delete_records jid s x s' i :
  delete_job jid s = (x, s') -> lookup_job i s' = None /\ i = jid \/ lookup_job i s' = lookup_job i s.
Proof.
  intros Hd. destruct x as [[]|e].
  - rewrite (delete_law _ _ _ Hd). case_decide; auto.
  - rewrite (delete_err _ _ _ _ Hd). auto.
Qed.

Lemma claim_records jid expected self s x s' :
  claim_if_owner jid expected self s = (x, s') ->
  (forall i, i <> jid -> lookup_job i s' = lookup_job i s) /\
  (lookup_job jid s' = lookup_job jid s /\
     (forall rec, x = Ok (Claimed rec) -> lookup_job jid s = Some rec /\ rec.(rec_broker_id) = self) \/
   exists r, lookup_job jid s = Some r /\ r.(rec_broker_id) = expected /\ expected <> self /\
     x = Ok (Claimed (with_broker self r)) /\ lookup_job jid s' = Some (with_broker self r)).
Proof.
  intros Hc. destruct x as [c|e].
  - destruct (claim_law _ _ _ _ _ _ Hc) as [-> Hl]. split.
    { intros i Hi. rewrite Hl. by rewrite decide_False. }
    rewrite (Hl jid), decide_True by done. unfold claim_spec. destruct (lookup_job jid s) as [r|] eqn:Hr; [|by left].
    case_decide; [left|case_decide; [right|by left]]; simpl.
    + split; [done|]. by intros rec [= <-].
    + exists r. split_and!; congruence.
  - split; [intros i _|left; split; [|done]]; by rewrite (claim_err _ _ _ _ _ _ Hc).
Qed.

(** The object that was in hand, and the ones that were there. *)
Lemma recovered_durable now l cl rec cfg (s : sys V) k j :
  (insertion cfg now l cl (restore rec l) true s).(bits).(objs) !! k = Some j ->
  durable (insertion cfg now l cl (restore rec l) true s) k j ->
  j.(id) = rec.(rec_job_id) \/ s.(bits).(objs) !! k = Some j /\ durable s k j.
Proof.
  intros [[-> ->]|[Hk Hj]]%insertion_objs Hd; [by left|right].
  split; [done|]. by eapply insertion_durable.
Qed.

Lemma accepted_durable now l cl j cfg (s : sys V) k j' :
  j.(persisted) = false ->
  (insertion cfg now l cl j false s).(bits).(objs) !! k = Some j' ->
  durable (insertion cfg now l cl j false s) k j' ->
  s.(bits).(objs) !! k = Some j' /\ durable s k j'.
Proof.
  intros Hp [[-> ->]|[Hk Hj]]%insertion_objs Hd.
  - exfalso. unfold durable, insertion in Hd. simpl in Hd. rewrite lookup_insert_eq, Hp in Hd. by destruct Hd as [|[=]].
  - split; [done|]. by eapply insertion_durable.
Qed.

Lemma claimed_hands r (m : member V) rec :
  rec ∈ (claimed_into r m).(hands) -> rec ∈ m.(hands) \/ r = Ok (Claimed rec).
Proof.
  unfold claimed_into. destruct r as [[| |rec']|]; simpl; auto. intros [->|?]%elem_of_cons; auto.
Qed.

Lemma claimed_same r (m : member V) :
  (claimed_into r m).(m_sys) = m.(m_sys) /\ (claimed_into r m).(m_cfg) = m.(m_cfg) /\
  (claimed_into r m).(m_up) = m.(m_up).
Proof. by destruct r as [[]|]. Qed.

(** A step that leaves the store alone. *)
Lemma safe_put_same (c : cluster) b (m m' : member V) :
  safe c -> c.(members) !! b = Some m -> m'.(m_cfg) = m.(m_cfg) -> grows m.(m_sys) m'.(m_sys) ->
  reachable m.(m_cfg) m'.(m_sys) ->
  (forall l j, m'.(m_sys).(bits).(objs) !! l = Some j -> durable m'.(m_sys) l j ->
     is_Some (lookup_job j.(id) c.(store)) \/ retired c j.(id)) ->
  (forall r, r ∈ m'.(hands) -> r ∈ m.(hands)) ->
  safe (put b m' c.(store) c).
Proof.
  intros Hs Hb Hc Hg Hr Ho Hh. eapply safe_put; try done.
  - apply Hs.
  - by left.
  - right. by eapply Ho.
  - right. auto.
Qed.

Lemma safe_join (c : cluster) cfg :
  safe c -> c.(members) !! broker_name cfg = None -> cfg.(has_store) = true ->
  safe (put (broker_name cfg) (joined cfg) c.(store) c).
Proof.
  intros [Hm Hk Ho Hh] Hn Hst.
  assert (forall i, retired c i -> retired (put (broker_name cfg) (joined cfg) c.(store) c) i) as Hret.
  { intros i (b & m & Hb & Hg). exists b, m. simpl. rewrite lookup_insert_ne; [done|congruence]. }
  split; simpl.
  - intros b m. rewrite lookup_insert_Some. intros [[<- <-]|[_ Hb]]; [|by apply Hm].
    split_and!; [apply rtc_refl|done..].
  - done.
  - intros b m l j. rewrite lookup_insert_Some. intros [[<- <-]|[_ Hb]]; [done|].
    intros Hj Hd. destruct (Ho _ _ _ _ Hb Hj Hd); auto.
  - intros b m r. rewrite lookup_insert_Some. intros [[<- <-]|[_ Hb]]; [by intros ?%elem_of_nil|].
    intros Hin. destruct (Hh _ _ _ Hb Hin); auto.
Qed.

Lemma safe_local (c : cluster) b (m : member V) s' :
  safe c -> c.(members) !! b = Some m -> step m.(m_cfg) m.(m_sys) s' -> quiet m.(m_sys) s' ->
  safe (put b (with_sys s' m) c.(store) c).
Proof.
  intros Hs Hb Hstep Hq. destruct (sf_member _ Hs _ _ Hb) as (Hr & _).
  destruct (member_reachable _ _ Hr) as [HO _].
  apply (safe_put_same _ _ m); try done; simpl.
  - by eapply step_grows.
  - unfold reachable in *. by eapply rtc_r.
  - intros l j Hj Hd. destruct (quiet_objs _ _ _ _ _ HO Hstep Hq Hj) as (j0 & Hj0 & <- & Hd').
    eapply (sf_obj _ Hs); [done..|]. by apply Hd'.
Qed.

(** A submission or a recovery: the new object is not durable, or its record is
    accounted for. *)
Lemma safe_insertion (c : cluster) b (m : member V) now l cl j already h :
  safe c -> c.(members) !! b = Some m -> insertable l j m.(m_sys) -> (forall r, r ∈ h -> r ∈ m.(hands)) ->
  let s' := insertion m.(m_cfg) now l cl j already m.(m_sys) in
  (forall k j', s'.(bits).(objs) !! k = Some j' -> durable s' k j' ->
     (is_Some (lookup_job j'.(id) c.(store)) \/ retired c j'.(id)) \/
     m.(m_sys).(bits).(objs) !! k = Some j' /\ durable m.(m_sys) k j') ->
  safe (put b (with_hands h (with_sys s' m)) c.(store) c).
Proof.
  intros Hs Hb Hins Hh s' Hnew. destruct (sf_member _ Hs _ _ Hb) as (Hr & _).
  pose proof (insertion_step m.(m_cfg) now l cl j already _ Hins) as Hstep.
  apply (safe_put_same _ _ m); try done; simpl.
  - eapply step_grows; [|done]. by apply (member_reachable m.(m_cfg)).
  - unfold reachable in *. by eapply rtc_r.
  - intros k j' Hj Hd. destruct (Hnew _ _ Hj Hd) as [?|[? ?]]; [done|]. by eapply (sf_obj _ Hs).
Qed.

Lemma safe_persist (c : cluster) b (m : member V) l j r st :
  safe c -> c.(members) !! b = Some m -> m.(m_sys).(runners) !! l = Some RunnerPersisting ->
  m.(m_sys).(bits).(objs) !! l = Some j ->
  upsert_job (record_of (broker_name m.(m_cfg)) j) c.(store) = (r, st) ->
  safe (put b (with_sys (persist_end l r m.(m_sys)) m) st c).
Proof.
  intros Hs Hb Hrun Hj Hu. destruct (sf_member _ Hs _ _ Hb) as (Hr & _).
  pose proof (persist_step m.(m_cfg) l r _ Hrun) as Hstep.
  pose proof (fun i => upsert_records _ _ _ _ i Hu) as Hrec. simpl in Hrec.
  apply (safe_put _ _ m); try done; simpl.
  - eapply step_grows; [|done]. by apply (member_reachable m.(m_cfg)).
  - unfold reachable in *. by eapply rtc_r.
  - intros i rec. rewrite Hrec. destruct (is_ok r); simpl; [|by apply Hs].
    case_bool_decide as Hij; [|by apply Hs]. by intros [= <-].
  - left. rewrite Hrec. case_match; [eauto|done].
  - intros k j' Hj' Hd. destruct (persist_objs _ _ _ _ _ Hj') as (j0 & Hj0 & Hid).
    destruct (proj1 (persist_durable _ _ _ _ _ _ Hrun Hj0 Hj') Hd) as [Hd0|[-> Hok]].
    + rewrite <- Hid. right. by eapply (sf_obj _ Hs).
    + left. simplify_eq. rewrite Hrec, Hok, <- Hid. simpl. rewrite bool_decide_eq_true_2 by done. eauto.
  - by right.
Qed.

Lemma safe_claim (c : cluster) b (m : member V) i owner self r st :
  safe c -> c.(members) !! b = Some m -> claim_if_owner i owner self c.(store) = (r, st) ->
  safe (put b (claimed_into r m) st c).
Proof.
  intros Hs Hb Hcl. destruct (claimed_same r m) as (Hcs & Hcc & _). destruct (sf_member _ Hs _ _ Hb) as (Hr & _).
  destruct (claim_records _ _ _ _ _ _ Hcl) as [Hne Hi].
  apply (safe_put _ _ m); rewrite ?Hcs; try done.
  - apply grows_refl.
  - intros k rec Hrec. destruct (decide (k = i)) as [->|Hki]; [|apply Hs; by rewrite <- Hne].
    destruct Hi as [[Hl _]|(r0 & Hr0 & _ & _ & _ & Hr1)]; [apply Hs; congruence|].
    simplify_eq. simpl. by apply Hs.
  - intros k Hk. left. destruct (decide (k = i)) as [->|Hki]; [|by rewrite Hne].
    destruct Hi as [[-> _]|(r0 & _ & _ & _ & _ & ->)]; eauto.
  - intros l j Hj Hd. right. by eapply (sf_obj _ Hs).
  - intros rec [?|Hrc]%claimed_hands; [by right|left].
    destruct Hi as [[Hl Hc]|(r0 & Hr0 & _ & _ & Hx & Hr1)].
    + destruct (Hc _ Hrc) as [Hl' _]. rewrite (sf_key _ Hs _ _ Hl'), Hl. eauto.
    + simplify_eq. simpl. rewrite (sf_key _ Hs _ _ Hr0). eauto.
Qed.

Lemma cleaned_retired (c : cluster) b (m : member V) k i :
  safe c -> c.(members) !! b = Some m -> m.(m_sys).(bits).(cleanup) !! k = Some i -> retired c i.
Proof.
  intros Hs Hb Hi. destruct (sf_member _ Hs _ _ Hb) as (Hr & _). exists b, m. split; [done|].
  apply (member_reachable m.(m_cfg)); [done|]. by eapply list_elem_of_lookup_2.
Qed.

Lemma safe_clean (c : cluster) b (m : member V) k i r st :
  safe c -> c.(members) !! b = Some m -> retired c i -> delete_job i c.(store) = (r, st) ->
  safe (put b (with_cleared ({[k]} ∪ m.(cleared)) m) st c).
Proof.
  intros Hs Hb Hret Hdel. apply (safe_put _ _ m); try done; simpl.
  - apply grows_refl.
  - by apply (sf_member _ Hs _ _ Hb).
  - intros k' rec. destruct (delete_records _ _ _ _ k' Hdel) as [[-> _]| ->]; [done|apply Hs].
  - intros k' Hk. destruct (delete_records _ _ _ _ k' Hdel) as [[_ ->]| ->]; [by right|by left].
  - intros l j Hj Hd. right. by eapply (sf_obj _ Hs).
  - by right.
Qed.

(** A broker whose system stays as it is. *)
Lemma safe_same (c : cluster) b (m m' : member V) :
  safe c -> c.(members) !! b = Some m -> m'.(m_cfg) = m.(m_cfg) -> m'.(m_sys) = m.(m_sys) ->
  (forall r, r ∈ m'.(hands) -> r ∈ m.(hands)) -> safe (put b m' c.(store) c).
Proof.
  intros Hs Hb Hc Hsys Hh. apply (safe_put_same _ _ m); rewrite ?Hsys; try done; [apply grows_refl| |].
  - by apply (sf_member _ Hs _ _ Hb).
  - intros l j Hj Hd. by eapply (sf_obj _ Hs).
Qed.

Lemma hands_without (rec : PersistentJobRecord V) h1 h2 r : r ∈ h1 ++ h2 -> r ∈ h1 ++ rec :: h2.
Proof. set_solver. Qed.

Lemma safe_tables (c : cluster) st :
  safe c -> (forall i, lookup_job i st = lookup_job i c.(store)) -> safe (with_store st c).
Proof.
  intros [Hm Hk Ho Hh] Hst. split; simpl; [done| | |].
  - intros i r. rewrite Hst. apply Hk.
  - intros b m l j. rewrite Hst. apply Ho.
  - intros b m r. rewrite Hst. apply Hh.
Qed.

Lemma safe_step c c' : safe c -> cstep c c' -> safe c'.
Proof.
  intros Hs Hstep. destruct Hstep as [c cfg Hn Hst|c b m [Hb _]|c b m s' [Hb _] Hstep Hq|c b m now l cl j [Hb _] Hins Hp Hun
    |c b m l j r st [Hb _] Hrun Hj Hu|c b m i owner r st [Hb _] Hid Hmay Hcl|c b m rec h1 h2 now l cl [Hb _] Hh Hins
    |c b m rec h1 h2 [Hb _] Hh Htab|c b m k i r st [Hb _] Hi Hkc Hdel|c st Htab].
  - by apply safe_join.
  - by apply (safe_same _ _ m).
  - by apply safe_local.
  - apply (safe_insertion c b m now l cl j false m.(hands)); try done.
    intros k j' Hj Hd. right. by eapply accepted_durable.
  - by eapply safe_persist.
  - by eapply safe_claim.
  - apply (safe_insertion c b m now l cl (restore rec l) true); try done.
    { rewrite Hh. apply hands_without. }
    intros k j Hj Hd. destruct (recovered_durable _ _ _ _ _ _ _ _ Hj Hd) as [->|?]; [left|by right].
    eapply (sf_hand _ Hs); [done|]. rewrite Hh. set_solver.
  - apply (safe_same _ _ m); try done. simpl. rewrite Hh. apply hands_without.
  - eapply safe_clean; [done..| |done]. by eapply cleaned_retired.
  - by apply safe_tables.
Qed.

Definition creachable (st : S) (c : cluster) : Prop := rtc cstep (cluster_new st) c.

Lemma safe_new st : (forall i, lookup_job i st = None) -> safe (cluster_new st).
Proof.
  intros Hst. split; simpl; intros *; rewrite ?lookup_empty; try done. by rewrite Hst.
Qed.

Lemma safe_reachable st c : (forall i, lookup_job i st = None) -> creachable st c -> safe c.
Proof.
  intros Hst%safe_new Hr. unfold creachable in Hr. induction Hr as [|c1 c2 c3 Hs _ IH]; [done|].
  eauto using safe_step.
Qed.

(** ** One broker at a time

    [sole c b l i]: the object at [b] and [l] is all there is of the id [i]. *)
Definition sole (c : cluster) (b : string) (l : nat) (i : string) : Prop :=
  lookup_job i c.(store) = None /\
  (forall b' m' l' j', c.(members) !! b' = Some m' -> m'.(m_sys).(bits).(objs) !! l' = Some j' ->
     j'.(id) = i -> b' = b /\ l' = l) /\
  (forall b' m' r, c.(members) !! b' = Some m' -> r ∈ m'.(hands) -> r.(rec_job_id) <> i).

Definition owned (c : cluster) (b i : string) : Prop :=
  exists r, lookup_job i c.(store) = Some r /\ r.(rec_broker_id) = b.

Record exclusive (c : cluster) : Prop := mkExclusive {
  ex_obj b m l j : live c b m -> m.(m_sys).(bits).(objs) !! l = Some j -> durable m.(m_sys) l j ->
    ~ retired c j.(id) -> owned c b j.(id);
  ex_hand b m r : live c b m -> r ∈ m.(hands) -> ~ retired c r.(rec_job_id) -> owned c b r.(rec_job_id);
  ex_sole b m l j : c.(members) !! b = Some m -> m.(m_sys).(bits).(objs) !! l = Some j ->
    ~ durable m.(m_sys) l j -> sole c b l j.(id)
}.

Lemma sole_put (c : cluster) b (m m' : member V) st b1 l i :
  c.(members) !! b = Some m -> sole c b1 l i -> lookup_job i st = None ->
  (forall k j, m'.(m_sys).(bits).(objs) !! k = Some j -> j.(id) = i ->
     exists j0, m.(m_sys).(bits).(objs) !! k = Some j0 /\ j0.(id) = i) ->
  (forall r, r ∈ m'.(hands) -> r.(rec_job_id) = i -> exists r0, r0 ∈ m.(hands) /\ r0.(rec_job_id) = i) ->
  sole (put b m' st c) b1 l i.
Proof.
  intros Hb (_ & Hobj & Hh) Hst Ho Hr. split_and!; [done| |]; simpl.
  - intros b2 m2 l2 j2. rewrite lookup_insert_Some. intros [[<- <-]|[_ Hb2]] Hj2 Hid; [|by eapply Hobj].
    destruct (Ho _ _ Hj2 Hid) as (j0 & Hj0 & Hid0). by eapply Hobj.
  - intros b2 m2 r. rewrite lookup_insert_Some. intros [[<- <-]|[_ Hb2]] Hin Hid; [|by eapply Hh].
    destruct (Hr _ Hin Hid) as (r0 & Hin0 & Hid0). by eapply Hh.
Qed.

(** One broker and the store change: its own objects and hands are as they
    should be, what the others own stays theirs, and nothing single is doubled. *)
Lemma exclusive_put (c : cluster) b (m m' : member V) st :
  exclusive c -> c.(members) !! b = Some m -> grows m.(m_sys) m'.(m_sys) ->
  let c' := put b m' st c in
  (m'.(m_up) = true ->
     (forall l j, m'.(m_sys).(bits).(objs) !! l = Some j -> durable m'.(m_sys) l j -> ~ retired c' j.(id) ->
        owned c' b j.(id)) /\
     (forall r, r ∈ m'.(hands) -> ~ retired c' r.(rec_job_id) -> owned c' b r.(rec_job_id))) ->
  (forall b1 m1 i, b1 <> b -> live c b1 m1 -> ~ retired c i -> owned c b1 i -> owned c' b1 i) ->
  (forall b1 m1 l1 j1, b1 <> b -> c.(members) !! b1 = Some m1 -> m1.(m_sys).(bits).(objs) !! l1 = Some j1 ->
     sole c b1 l1 j1.(id) -> sole c' b1 l1 j1.(id)) ->
  (forall l j, m'.(m_sys).(bits).(objs) !! l = Some j -> ~ durable m'.(m_sys) l j -> sole c' b l j.(id)) ->
  exclusive c'.
Proof.
  intros [Ho Hh Hs] Hb Hg c' Hmine Hkeep Hsole Hnew.
  assert (forall i, ~ retired c' i -> ~ retired c i) as Hret.
  { intros i Hn Hr. by eapply Hn, retired_put. }
  split.
  - intros b1 m1 l j [Hb1 Hup]. simpl in Hb1. apply lookup_insert_Some in Hb1 as [[<- <-]|[Hne Hb1]].
    + by apply Hmine.
    + intros Hj Hd Hn. apply Hret in Hn as Hn'. eapply Hkeep; [done..|]. by eapply Ho.
  - intros b1 m1 r [Hb1 Hup]. simpl in Hb1. apply lookup_insert_Some in Hb1 as [[<- <-]|[Hne Hb1]].
    + by apply Hmine.
    + intros Hin Hn. apply Hret in Hn as Hn'. eapply Hkeep; [done..|]. by eapply Hh.
  - intros b1 m1 l j Hb1. simpl in Hb1. apply lookup_insert_Some in Hb1 as [[<- <-]|[Hne Hb1]]; [by apply Hnew|].
    intros Hj Hd. eapply Hsole; [done..|]. by eapply Hs.
Qed.

(** The same when the store stays and no id appears here that was single
    elsewhere. *)
Lemma exclusive_put_same (c : cluster) b (m m' : member V) :
  exclusive c -> live c b m -> grows m.(m_sys) m'.(m_sys) ->
  (forall l j, m'.(m_sys).(bits).(objs) !! l = Some j ->
     exists j0, m.(m_sys).(bits).(objs) !! l = Some j0 /\ j0.(id) = j.(id) /\
       (durable m'.(m_sys) l j <-> durable m.(m_sys) l j0)) ->
  (forall r, r ∈ m'.(hands) -> r ∈ m.(hands)) ->
  exclusive (put b m' c.(store) c).
Proof.
  intros HE [Hb Hup] Hg Ho Hh. set (c' := put b m' c.(store) c).
  assert (forall b1 l i, sole c b1 l i -> sole c' b1 l i) as Hsole.
  { intros b1 l i Hs. eapply sole_put; [done|done|apply Hs| |].
    - intros k j Hj <-. destruct (Ho _ _ Hj) as (j0 & ? & ? & _). eauto.
    - eauto. }
  assert (forall i, ~ retired c' i -> ~ retired c i) as Hret.
  { intros i Hn Hr. by eapply Hn, retired_put. }
  eapply exclusive_put; [done..| | | |]; [|done|by auto|].
  - intros _. split.
    + intros l j Hj Hd Hn. destruct (Ho _ _ Hj) as (j0 & Hj0 & Hid & Hd0). rewrite <- Hid in *.
      eapply (ex_obj _ HE b m); [done|done|by apply Hd0|by apply Hret].
    + intros r Hin Hn. eapply (ex_hand _ HE b m); [done|auto|by apply Hret].
  - intros l j Hj Hd. apply Hsole. destruct (Ho _ _ Hj) as (j0 & Hj0 & Hid & Hd0). rewrite <- Hid.
    eapply (ex_sole _ HE); [done..|]. by rewrite <- Hd0.
Qed.

Lemma retired_put_inv (c : cluster) b (m m' : member V) st i :
  c.(members) !! b = Some m -> grows m.(m_sys) m'.(m_sys) -> ~ retired (put b m' st c) i -> ~ retired c i.
Proof. intros Hb Hg Hn Hr. by eapply Hn, retired_put. Qed.

Lemma exclusive_join (c : cluster) cfg :
  exclusive c -> c.(members) !! broker_name cfg = None ->
  exclusive (put (broker_name cfg) (joined cfg) c.(store) c).
Proof.
  intros [Ho Hh Hs] Hn. set (c' := put _ _ _ c).
  assert (forall b m, c'.(members) !! b = Some m -> m = joined cfg \/ c.(members) !! b = Some m) as Hin.
  { intros b m. simpl. rewrite lookup_insert_Some. intros [[<- <-]|[_ ?]]; auto. }
  assert (forall i, retired c i -> retired c' i) as Hret.
  { intros i (b & m & Hb & Hg). exists b, m. simpl. rewrite lookup_insert_ne; [done|congruence]. }
  split.
  - intros b m l j [[->|Hb]%Hin Hup] Hj Hd Hnr; [done|]. eapply Ho; [done..|]. auto.
  - intros b m r [[->|Hb]%Hin Hup] Hr Hnr; [by apply elem_of_nil in Hr|]. eapply Hh; [done..|]. auto.
  - intros b m l j [->|Hb]%Hin Hj Hd; [done|]. destruct (Hs _ _ _ _ Hb Hj Hd) as (Hl & Hob & Hha).
    split_and!; [done| |].
    + intros b' m' l' j' [->|Hb']%Hin Hj' Hid; [done|]. by eapply Hob.
    + intros b' m' r [->|Hb']%Hin Hr; [by apply elem_of_nil in Hr|]. by eapply Hha.
Qed.

Lemma exclusive_accept (c : cluster) b (m : member V) now l cl j :
  exclusive c -> live c b m -> grows m.(m_sys) (insertion m.(m_cfg) now l cl j false m.(m_sys)) ->
  j.(persisted) = false -> unused j.(id) c lookup_job ->
  exclusive (put b (with_sys (insertion m.(m_cfg) now l cl j false m.(m_sys)) m) c.(store) c).
Proof.
  intros HE [Hb Hup] Hg Hp [Hst Hun]. set (m' := with_sys _ m). set (c' := put b m' c.(store) c).
  assert (forall b1 l1 i, i <> j.(id) -> sole c b1 l1 i -> sole c' b1 l1 i) as Hsole.
  { intros b1 l1 i Hi Hs. eapply sole_put; [done|done|apply Hs| |].
    - intros k j1 [[-> ->]|[_ Hj1]]%insertion_objs Hid; [by subst i|eauto].
    - eauto. }
  eapply exclusive_put; [done|done|done| |done| |].
  - intros _. split.
    + intros k j1 Hj1 Hd Hn. apply (retired_put_inv _ _ m) in Hn; [|done..].
      destruct (accepted_durable _ _ _ _ _ _ _ _ Hp Hj1 Hd) as [Hj Hd']. by apply (ex_obj _ HE b m k j1).
    + intros r Hin Hn. apply (retired_put_inv _ _ m) in Hn; [|done..]. by apply (ex_hand _ HE b m).
  - intros b1 m1 l1 j1 _ Hb1 Hj1 Hs. apply Hsole; [|done]. by apply (proj1 (Hun b1 m1 Hb1) _ _ Hj1).
  - intros k j1 [[-> ->]|[Hk Hj1]]%insertion_objs Hd.
    + split_and!; [done| |]; simpl.
      * intros b2 m2 l2 j2. rewrite lookup_insert_Some. intros [[<- <-]|[_ Hb2]] Hj2 Hid.
        -- apply insertion_objs in Hj2 as [[-> _]|[_ Hj2]]; [done|]. by destruct (proj1 (Hun b m Hb) _ _ Hj2).
        -- by destruct (proj1 (Hun b2 m2 Hb2) _ _ Hj2).
      * intros b2 m2 r. rewrite lookup_insert_Some. intros [[<- <-]|[_ Hb2]] Hr;
          [by apply (proj2 (Hun b m Hb))|by apply (proj2 (Hun b2 m2 Hb2))].
    + apply Hsole; [by apply (proj1 (Hun b m Hb) _ _ Hj1)|]. eapply (ex_sole _ HE); [done..|].
      intros Hd'. apply Hd. by apply insertion_durable.
Qed.

Lemma exclusive_recover (c : cluster) b (m : member V) rec h1 h2 now l cl :
  exclusive c -> live c b m -> m.(hands) = h1 ++ rec :: h2 ->
  grows m.(m_sys) (insertion m.(m_cfg) now l cl (restore rec l) true m.(m_sys)) ->
  exclusive (put b (with_hands (h1 ++ h2)
                      (with_sys (insertion m.(m_cfg) now l cl (restore rec l) true m.(m_sys)) m)) c.(store) c).
Proof.
  intros HE [Hb Hup] Hh Hg. set (m' := with_hands _ _). set (c' := put b m' c.(store) c).
  assert (rec ∈ m.(hands)) as Hrec by (rewrite Hh; set_solver).
  assert (forall r, r ∈ m'.(hands) -> r ∈ m.(hands)) as Hsub by (intros r; simpl; rewrite Hh; set_solver).
  assert (forall b1 l1 i, sole c b1 l1 i -> sole c' b1 l1 i) as Hsole.
  { intros b1 l1 i Hs. eapply sole_put; [done|done|apply Hs| |eauto].
    intros k j1 [[-> ->]|[_ Hj1]]%insertion_objs Hid; [|eauto]. simpl in Hid.
    by destruct (proj2 (proj2 Hs) _ _ _ Hb Hrec). }
  eapply exclusive_put; [done|done|done| |done|by auto|].
  - intros _. split.
    + intros k j1 Hj1 Hd Hn. apply (retired_put_inv _ _ m) in Hn; [|done..].
      destruct (recovered_durable _ _ _ _ _ _ _ _ Hj1 Hd) as [Hid|[Hj Hd']].
      * rewrite Hid in *. by apply (ex_hand _ HE b m).
      * by eapply (ex_obj _ HE b m).
    + intros r Hin Hn. apply (retired_put_inv _ _ m) in Hn; [|done..]. apply (ex_hand _ HE b m); auto. done.
  - intros k j1 [[-> ->]|[Hk Hj1]]%insertion_objs Hd.
    + destruct Hd. right. simpl. by rewrite lookup_insert_eq.
    + apply Hsole. eapply (ex_sole _ HE); [done..|]. intros Hd'. apply Hd. by apply insertion_durable.
Qed.

Lemma exclusive_persist (c : cluster) b (m : member V) l j r st :
  exclusive c -> live c b m -> broker_name m.(m_cfg) = b ->
  m.(m_sys).(runners) !! l = Some RunnerPersisting -> m.(m_sys).(bits).(objs) !! l = Some j ->
  upsert_job (record_of (broker_name m.(m_cfg)) j) c.(store) = (r, st) ->
  grows m.(m_sys) (persist_end l r m.(m_sys)) ->
  exclusive (put b (with_sys (persist_end l r m.(m_sys)) m) st c).
Proof.
  intros HE [Hb Hup] Hname Hrun Hj Hu Hg. set (m' := with_sys _ m). set (c' := put b m' st c).
  pose proof (fun i => upsert_records _ _ _ _ i Hu) as Hrec. rewrite Hname in Hrec. simpl in Hrec.
  assert (forall b1 m1, live c b1 m1 -> ~ retired c j.(id) -> owned c b1 j.(id) -> b1 = b) as Hmine.
  { intros b1 m1 Hb1 Hn (r1 & Hr1 & <-). destruct j.(persisted) eqn:Hp.
    - destruct (ex_obj _ HE b m l j) as (r2 & Hr2 & <-); [done|done|by left|done|]. congruence.
    - destruct (ex_sole _ HE b m l j) as [Hnone _]; [done|done| |congruence].
      intros [Hd|Hd]; congruence. }
  assert (forall b1 m1 i, live c b1 m1 -> ~ retired c i -> owned c b1 i -> owned c' b1 i) as Hkeep.
  { intros b1 m1 i Hb1 Hn Hown. unfold owned, c'. simpl. rewrite Hrec.
    destruct (is_ok r && bool_decide (i = id j)) eqn:Hi; [|done].
    apply andb_true_iff in Hi as [_ ->%bool_decide_eq_true]. eexists. split; [done|]. simpl.
    symmetry. by eapply Hmine. }
  assert (forall b1 m1 l1 j1, c.(members) !! b1 = Some m1 -> m1.(m_sys).(bits).(objs) !! l1 = Some j1 ->
            is_ok r = false \/ ~ (b1 = b /\ l1 = l) -> sole c b1 l1 j1.(id) -> sole c' b1 l1 j1.(id)) as Hsole.
  { intros b1 m1 l1 j1 Hb1 Hj1 Hwhere Hs. eapply sole_put; [done|done| | |eauto].
    - rewrite Hrec. destruct (is_ok r) eqn:Hok; simpl; [|apply Hs]. case_bool_decide as Hid; [|apply Hs].
      destruct Hwhere as [|Hwhere]; [done|]. exfalso. apply Hwhere.
      destruct (proj1 (proj2 Hs) b m l j) as [-> ->]; done.
    - intros k j2 Hj2 Hid. destruct (persist_objs _ _ _ _ _ Hj2) as (j0 & Hj0 & Hid0). exists j0. by rewrite Hid0. }
  eapply exclusive_put; [done|done|done| | | |].
  - intros _. split.
    + intros k j1 Hj1 Hd Hn. apply (retired_put_inv _ _ m) in Hn; [|done..].
      destruct (persist_objs _ _ _ _ _ Hj1) as (j0 & Hj0 & Hid).
      destruct (proj1 (persist_durable _ _ _ _ _ _ Hrun Hj0 Hj1) Hd) as [Hd0|[-> Hok]].
      * rewrite <- Hid in *. apply (Hkeep _ m); [done|done|]. by eapply (ex_obj _ HE b m).
      * simplify_eq. unfold owned, c'. simpl. rewrite Hrec, Hok, <- Hid, bool_decide_eq_true_2 by done. by eexists.
    + intros r1 Hin Hn. apply (retired_put_inv _ _ m) in Hn; [|done..].
      apply (Hkeep _ m); [done|done|]. by apply (ex_hand _ HE b m).
  - intros b1 m1 i _. apply Hkeep.
  - intros b1 m1 l1 j1 Hne Hb1 Hj1. eapply Hsole; [done..|]. right. by intros [].
  - intros k j1 Hj1 Hd. destruct (persist_objs _ _ _ _ _ Hj1) as (j0 & Hj0 & Hid).
    pose proof (persist_durable _ _ _ _ _ _ Hrun Hj0 Hj1) as Hd0. rewrite <- Hid. apply (Hsole b m); [done|done| |].
    + destruct (is_ok r); [right|by left]. intros [_ ->]. apply Hd, Hd0. by right.
    + eapply (ex_sole _ HE); [done..|]. intros ?. apply Hd, Hd0. by left.
Qed.

Lemma exclusive_clean (c : cluster) b (m : member V) k i r st :
  exclusive c -> live c b m -> retired c i -> delete_job i c.(store) = (r, st) ->
  exclusive (put b (with_cleared ({[k]} ∪ m.(cleared)) m) st c).
Proof.
  intros HE [Hb Hup] Hret Hdel. set (m' := with_cleared _ m). set (c' := put b m' st c).
  assert (grows m.(m_sys) m'.(m_sys)) as Hg by apply grows_refl.
  assert (forall i1, lookup_job i1 st = None /\ retired c i1 \/ lookup_job i1 st = lookup_job i1 c.(store)) as Hst.
  { intros i1. destruct (delete_records _ _ _ _ i1 Hdel) as [[? ->]|?]; auto. }
  assert (forall b1 i1, ~ retired c i1 -> owned c b1 i1 -> owned c' b1 i1) as Hkeep.
  { intros b1 i1 Hn Hown. unfold owned. simpl. by destruct (Hst i1) as [[_ ?]| ->]. }
  assert (forall b1 l1 i1, sole c b1 l1 i1 -> sole c' b1 l1 i1) as Hsole.
  { intros b1 l1 i1 Hs. eapply sole_put; [done|done| |eauto..].
    destruct (Hst i1) as [[? _]| ->]; [done|apply Hs]. }
  eapply exclusive_put; [done|done|done| |auto|by auto|].
  - intros _. split.
    + intros l j Hj Hd Hn. apply (retired_put_inv _ _ m) in Hn; [|done..]. apply Hkeep; [done|].
      by apply (ex_obj _ HE b m l j).
    + intros r1 Hin Hn. apply (retired_put_inv _ _ m) in Hn; [|done..]. apply Hkeep; [done|].
      by apply (ex_hand _ HE b m).
  - intros l j Hj Hd. apply Hsole. by apply (ex_sole _ HE b m).
Qed.

Lemma exclusive_tables (c : cluster) st :
  exclusive c -> (forall i, lookup_job i st = lookup_job i c.(store)) -> exclusive (with_store st c).
Proof.
  intros [Ho Hh Hs] Hst. split.
  - intros b m l j Hb Hj Hd Hn. unfold owned. simpl. rewrite Hst. by apply (Ho b m l j).
  - intros b m r Hb Hr Hn. unfold owned. simpl. rewrite Hst. by apply (Hh b m r).
  - intros b m l j Hb Hj Hd. unfold sole. simpl. rewrite Hst. by apply (Hs b m l j).
Qed.

(** What is assumed of the leases: a broker that is up holds one. *)
Definition leases_kept : Prop :=
  forall c b o m, lapsed c b o -> c.(members) !! o = Some m -> m.(m_up) = false.

Lemma exclusive_claim (c : cluster) b (m : member V) i owner r st :
  safe c -> exclusive c -> live c b m -> broker_name m.(m_cfg) = b ->
  (forall m1, owner <> b -> ~ live c owner m1) ->
  claim_if_owner i owner b c.(store) = (r, st) ->
  exclusive (put b (claimed_into r m) st c).
Proof.
  intros Hsafe HE [Hb Hup] Hname Hmay Hcl. destruct (claimed_same r m) as (Hcs & _ & Hcu).
  set (m' := claimed_into r m) in *. set (c' := put b m' st c).
  assert (grows m.(m_sys) m'.(m_sys)) as Hg by (rewrite Hcs; apply grows_refl).
  destruct (claim_records _ _ _ _ _ _ Hcl) as [Hne Hi].
  assert (forall b1 m1 i1, live c b1 m1 -> owned c b1 i1 -> owned c' b1 i1) as Hkeep.
  { intros b1 m1 i1 Hb1 (r1 & Hr1 & Ho1). unfold owned. simpl.
    destruct (decide (i1 = i)) as [->|]; [|rewrite Hne by done; eauto].
    destruct Hi as [[-> _]|(r0 & Hr0 & Hex & Hnb & _ & Hr2)]; [eauto|]. simplify_eq. by destruct (Hmay m1). }
  assert (forall b1 l1 j1 i1, sole c b1 l1 i1 -> j1 = i1 -> sole c' b1 l1 i1) as Hsole.
  { intros b1 l1 j1 i1 Hs _. eapply sole_put; [done|done| |rewrite Hcs; eauto|].
    - destruct (decide (i1 = i)) as [->|]; [|rewrite Hne by done; apply Hs].
      destruct Hi as [[-> _]|(r0 & Hr0 & _)]; [apply Hs|]. destruct Hs as [Hn _]. congruence.
    - intros rec [?| ->]%claimed_hands Hid; [eauto|]. destruct Hs as [Hn _]. exfalso.
      assert (exists r0, lookup_job i c.(store) = Some r0 /\ r0.(rec_job_id) = rec.(rec_job_id)) as (r0 & Hr0 & Hid0).
      { destruct Hi as [[_ Hc]|(r0 & Hr0 & _ & _ & [= ->] & _)]; [|by exists r0].
        destruct (Hc _ eq_refl) as [Hr0 _]. by exists rec. }
      rewrite <- (sf_key _ Hsafe _ _ Hr0) in Hr0. congruence. }
  eapply exclusive_put; [done|done|done| |by eauto|by eauto|].
  - intros _. split.
    + rewrite Hcs. intros l j Hj Hd Hn. apply (retired_put_inv _ _ m) in Hn; [|done..].
      apply (Hkeep _ m); [done|]. by apply (ex_obj _ HE b m l j).
    + intros rec [Hin| ->]%claimed_hands Hn.
      { apply (retired_put_inv _ _ m) in Hn; [|done..]. apply (Hkeep _ m); [done|]. by apply (ex_hand _ HE b m). }
      unfold owned. simpl. destruct Hi as [[Hl Hc]|(r0 & Hr0 & _ & _ & [= ->] & Hr2)].
      * destruct (Hc _ eq_refl) as [Hr0 Ho]. rewrite (sf_key _ Hsafe _ _ Hr0), Hl. eauto.
      * simpl. rewrite (sf_key _ Hsafe _ _ Hr0). eauto.
  - rewrite Hcs. intros l j Hj Hd. eapply Hsole; [|done]. by apply (ex_sole _ HE b m).
Qed.

Lemma exclusive_step (c c' : cluster) :
  leases_kept -> safe c -> exclusive c -> cstep c c' -> exclusive c'.
Proof.
  intros Hlk Hsafe HE Hs. pose proof Hsafe as [Hm _ _ _].
  assert (forall b m s', live c b m -> step m.(m_cfg) m.(m_sys) s' -> grows m.(m_sys) s') as Hgrows.
  { intros b m s' [Hb _] Hstep. destruct (Hm _ _ Hb) as (Hr & _). eapply step_grows; [|done].
    by apply (member_reachable m.(m_cfg)). }
  destruct Hs as [c cfg Hn Hst|c b m Hb|c b m s' Hb Hstep Hq|c b m now l cl j Hb Hins Hp Hun
    |c b m l j r st Hb Hrun Hj Hu|c b m i owner r st Hb Hid Hmay Hcl|c b m rec h1 h2 now l cl Hb Hh Hins
    |c b m rec h1 h2 Hb Hh Htab|c b m k i r st Hb Hi Hkc Hdel|c st Htab].
  1: by apply exclusive_join.
  9: by apply exclusive_tables.
  all: destruct (Hm b m (proj1 Hb)) as (Hr & Hname & _).
  - apply (exclusive_put_same _ _ m); [done..|apply grows_refl| |auto]. intros l j Hj. by exists j.
  - apply (exclusive_put_same _ _ m); [done..|by eapply Hgrows| |auto]. intros l j Hj.
    destruct (quiet_objs m.(m_cfg) _ _ _ _ (proj1 (member_reachable _ _ Hr)) Hstep Hq Hj) as (j0 & ? & ? & ?). eauto.
  - apply exclusive_accept; [done..| |done|done]. eapply Hgrows; [done|]. by apply insertion_step.
  - eapply exclusive_persist; [done..|]. eapply Hgrows; [done|]. by apply persist_step.
  - rewrite Hname in *. eapply exclusive_claim; [done..| |done]. intros m1 Hne [Hb1 Hup1].
    destruct Hmay as [?|Hlap]; [done|]. pose proof (Hlk _ _ _ _ Hlap Hb1). congruence.
  - eapply exclusive_recover; [done..|]. eapply Hgrows; [done|]. by apply insertion_step.
  - apply (exclusive_put_same _ _ m); [done..|apply grows_refl| |].
    + intros l j Hj. by exists j.
    + simpl. rewrite Hh. set_solver.
  - eapply exclusive_clean; [done..| |done]. eapply cleaned_retired; [done|apply Hb|done].
Qed.

Lemma exclusive_reachable st c :
  leases_kept -> (forall i, lookup_job i st = None) -> creachable st c -> exclusive c.
Proof.
  intros Hlk Hst Hr. pose proof (safe_new _ Hst) as Hsafe.
  assert (exclusive (cluster_new st)) as HE.
  { split; unfold live; simpl; intros *; rewrite ?lookup_empty; naive_solver. }
  unfold creachable in Hr. induction Hr as [|c1 c2 c3 Hs _ IH]; [done|].
  eauto using safe_step, exclusive_step.
Qed.

(** The objects of a pending job on brokers that are up are one object. *)
Lemma exclusive_runner (c : cluster) b1 m1 l1 j1 b2 m2 l2 j2 :
  safe c -> exclusive c ->
  live c b1 m1 -> m1.(m_sys).(bits).(objs) !! l1 = Some j1 ->
  live c b2 m2 -> m2.(m_sys).(bits).(objs) !! l2 = Some j2 ->
  j1.(id) = j2.(id) -> ~ retired c j1.(id) ->
  b1 = b2 /\ l1 = l2 /\ (durable m1.(m_sys) l1 j1 -> owned c b1 j1.(id)).
Proof.
  intros Hsafe HE Hb1 Hj1 Hb2 Hj2 Hid Hn.
  assert (durable m1.(m_sys) l1 j1 -> owned c b1 j1.(id)) as Hown by (intros; by eapply (ex_obj _ HE b1 m1)).
  destruct (decide (durable m1.(m_sys) l1 j1)) as [Hd1|Hd1].
  2: { destruct (ex_sole _ HE b1 m1 l1 j1) as (_ & Hob & _); [apply Hb1|done..|].
       destruct (Hob b2 m2 l2 j2) as [-> ->]; [apply Hb2|done..]. }
  destruct (decide (durable m2.(m_sys) l2 j2)) as [Hd2|Hd2].
  2: { destruct (ex_sole _ HE b2 m2 l2 j2) as (_ & Hob & _); [apply Hb2|done..|].
       destruct (Hob b1 m1 l1 j1) as [-> ->]; [apply Hb1|done..]. }
  destruct (Hown Hd1) as (r1 & Hr1 & Ho1).
  destruct (ex_obj _ HE b2 m2 l2 j2) as (r2 & Hr2 & Ho2); [done..|by rewrite <- Hid|].
  rewrite <- Hid in Hr2. assert (b1 = b2) as -> by congruence. split; [done|].
  destruct Hb1 as [Hb1 _], Hb2 as [Hb2 _]. assert (m1 = m2) as -> by congruence.
  destruct (sf_member _ Hsafe _ _ Hb2) as (Hrm & _). destruct (member_reachable _ _ Hrm) as (_ & _ & Ht).
  assert (~ gone m2.(m_sys) j1.(id)) as Hng by (intros ?; apply Hn; by eexists _, _).
  pose proof (Ht _ _ Hj1 Hng) as Ht1. rewrite Hid in Ht1, Hng. pose proof (Ht _ _ Hj2 Hng). by simplify_eq.
Qed.

(** ** A job whose second owner dies *)

(** A live broker has to do with the id: it holds an object or a claimed record
    of it. *)
Definition busy (c : cluster) (i : string) : Prop :=
  exists b m, live c b m /\
    ((exists l j, m.(m_sys).(bits).(objs) !! l = Some j /\ j.(id) = i) \/
     (exists r, r ∈ m.(hands) /\ r.(rec_job_id) = i)).

Lemma retired_put_new (c : cluster) b (m m' : member V) st i :
  c.(members) !! b = Some m ->
  (forall l j, m'.(m_sys).(bits).(objs) !! l = Some j -> j.(id) = i -> busy c i \/ lookup_job i c.(store) = None) ->
  retired (put b m' st c) i -> retired c i \/ busy c i \/ lookup_job i c.(store) = None.
Proof.
  intros Hb Hnew (b1 & m1 & Hb1 & Hg). simpl in Hb1. apply lookup_insert_Some in Hb1 as [[<- <-]|[_ Hb1]].
  - right. destruct Hg as (l & j & Hj & Hid & _). by eapply Hnew.
  - left. by exists b1, m1.
Qed.

Lemma retired_step (c c' : cluster) i :
  safe c -> cstep c c' -> retired c' i -> retired c i \/ busy c i \/ lookup_job i c.(store) = None.
Proof.
  intros [Hm _ _ _] Hs.
  assert (forall b m l j, live c b m -> m.(m_sys).(bits).(objs) !! l = Some j -> busy c j.(id)) as Hbusy.
  { intros b m l j Hb Hj. exists b, m. split; [done|]. left. by exists l, j. }
  destruct Hs as [c cfg Hn Hst|c b m Hb|c b m s' Hb Hstep Hq|c b m now l cl j Hb Hins Hp Hun
    |c b m l j r st Hb Hrun Hj Hu|c b m k owner r st Hb Hid Hmay Hcl|c b m rec h1 h2 now l cl Hb Hh Hins
    |c b m rec h1 h2 Hb Hh Htab|c b m k k' r st Hb Hi Hkc Hdel|c st Htab].
  { intros (b & m & Hb & Hg). simpl in Hb. apply lookup_insert_Some in Hb as [[_ <-]|[_ Hb]]; [|left; by exists b, m].
    destruct Hg as (l & j & Hj & _). done. }
  9: by left.
  all: apply (retired_put_new _ _ m); [apply Hb|]; intros l1 j1 Hj1 Hid1; cbn [m_sys with_sys with_hands with_cleared crashed] in Hj1.
  - left. rewrite <- Hid1. by eapply Hbusy.
  - destruct (Hm b m (proj1 Hb)) as (Hr & _).
    destruct (quiet_objs m.(m_cfg) _ _ _ _ (proj1 (member_reachable _ _ Hr)) Hstep Hq Hj1) as (j0 & Hj0 & Hid & _).
    left. rewrite <- Hid1, <- Hid. by eapply Hbusy.
  - apply insertion_objs in Hj1 as [[-> ->]|[_ Hj1]]; [right; subst; apply Hun|left; rewrite <- Hid1; by eapply Hbusy].
  - destruct (persist_objs _ _ _ _ _ Hj1) as (j0 & Hj0 & Hid). left. rewrite <- Hid1, <- Hid. by eapply Hbusy.
  - rewrite (proj1 (claimed_same r m)) in Hj1. left. rewrite <- Hid1. by eapply Hbusy.
  - apply insertion_objs in Hj1 as [[-> ->]|[_ Hj1]]; left; [|rewrite <- Hid1; by eapply Hbusy].
    exists b, m. split; [done|]. right. exists rec. split; [rewrite Hh; set_solver|done].
  - left. rewrite <- Hid1. by eapply Hbusy.
  - left. rewrite <- Hid1. by eapply Hbusy.
Qed.

(** The record of [i] is with a broker that is down and that the id does not
    name. *)
Record stranded (c : cluster) (i : string) (r : PersistentJobRecord V) : Prop := mkStranded {
  st_record : lookup_job i c.(store) = Some r;
  st_owner m : c.(members) !! r.(rec_broker_id) = Some m -> m.(m_up) = false;
  st_member : is_Some (c.(members) !! r.(rec_broker_id));
  st_hint : slot_from_job_id i <> Ok r.(rec_broker_id);
  st_pending : ~ retired c i
}.

Lemma stranded_idle c i r : exclusive c -> stranded c i r -> ~ busy c i.
Proof.
  intros HE [Hr Ho _ _ Hn] (b & m & [Hb Hup] & Hbusy).
  assert (~ owned c b i) as Hno.
  { intros (r1 & Hr1 & <-). simplify_eq. pose proof (Ho _ Hb). congruence. }
  destruct Hbusy as [(l & j & Hj & <-)|(rec & Hin & <-)].
  - destruct (decide (durable m.(m_sys) l j)) as [Hd|Hd].
    + apply Hno. by eapply (ex_obj _ HE b m).
    + destruct (ex_sole _ HE b m l j) as [Hnone _]; [done..|congruence].
  - apply Hno. by apply (ex_hand _ HE b m).
Qed.

Lemma stranded_step (c c' : cluster) i r :
  leases_kept -> safe c -> exclusive c -> stranded c i r -> cstep c c' -> stranded c' i r.
Proof.
  intros Hlk Hsafe HE HS Hs. pose proof (stranded_idle _ _ _ HE HS) as Hidle.
  destruct HS as [Hr Ho Hm Hh Hn].
  assert (~ retired c' i) as Hn'.
  { intros [?|[?|?]]%(retired_step _ _ _ Hsafe Hs); [done..|congruence]. }
  assert (forall b m, live c b m -> b <> r.(rec_broker_id)) as Hother.
  { intros b m [Hb Hup] ->. pose proof (Ho _ Hb). congruence. }
  assert (forall b m m' st, live c b m -> lookup_job i st = lookup_job i c.(store) ->
            ~ retired (put b m' st c) i -> stranded (put b m' st c) i r) as Hput.
  { intros b m m' st Hb Hst Hret. split; simpl; [congruence| | |done|done].
    - intros m1. rewrite lookup_insert_ne; [apply Ho|by eapply Hother].
    - rewrite lookup_insert_ne; [done|by eapply Hother]. }
  destruct Hs as [c cfg Hnew Hst|c b m Hb|c b m s' Hb Hstep Hq|c b m now l cl j Hb Hins Hp Hun
    |c b m l j x st Hb Hrun Hj Hu|c b m k owner x st Hb Hid Hmay Hcl|c b m rec h1 h2 now l cl Hb Hhands Hins
    |c b m rec h1 h2 Hb Hhands Htab|c b m k k' x st Hb Hi Hkc Hdel|c st Htabs].
  { split; simpl; [done| | |done|done].
    - intros m. rewrite lookup_insert_Some. intros [[Heq _]|[_ ?]]; [|by apply Ho].
      rewrite <- Heq, Hnew in Hm. by destruct Hm.
    - rewrite lookup_insert_is_Some'. by right. }
  9: { split; simpl; [by rewrite Htabs|done..]. }
  all: eapply Hput; [done| |done]; try done.
  - rewrite (upsert_records _ _ _ _ i Hu). destruct (is_ok x); [|done]. simpl. case_bool_decide as Hid; [|done].
    destruct Hidle. exists b, m. split; [done|]. left. by exists l, j.
  - destruct (claim_records _ _ _ _ _ _ Hcl) as [Hne Hk]. destruct (decide (i = k)) as [->|]; [|by apply Hne].
    destruct Hk as [[? _]|(r0 & Hr0 & Hex & _)]; [done|]. exfalso. apply Hh. congruence.
  - destruct (delete_records _ _ _ _ i Hdel) as [[_ ->]|?]; [|done]. destruct Hn. eapply cleaned_retired; [done|apply Hb|done].
Qed.

(** ** Properties *)

Section runs.
Context (st : S) (empty : forall i, lookup_job i st = None).

(** C3. A job that was made durable is safe with the store: whatever brokers join,
    crash, claim, recover, deliver and delete, and whatever the leases say, the
    record of a job whose broker knows it to be persisted is still there, or a
    job of that id has been delivered to a client or expired. *)
Theorem durable_survives c b m l j :
  creachable st c -> c.(members) !! b = Some m -> m.(m_sys).(bits).(objs) !! l = Some j ->
  j.(persisted) = true -> is_Some (lookup_job j.(id) c.(store)) \/ retired c j.(id).
Proof. intros Hr Hb Hj Hp. eapply sf_obj; [by eapply safe_reachable|done..|by left]. Qed.

(** A job has one runner: as long as every broker that is up holds a lease, the
    brokers that are up hold at most one object of a job that is neither
    delivered nor expired, and once the job is durable the record names that
    broker, however claims, recoveries and crashes interleave. *)
Theorem single_runner c b1 m1 l1 j1 b2 m2 l2 j2 :
  leases_kept -> creachable st c ->
  live c b1 m1 -> m1.(m_sys).(bits).(objs) !! l1 = Some j1 ->
  live c b2 m2 -> m2.(m_sys).(bits).(objs) !! l2 = Some j2 ->
  j1.(id) = j2.(id) -> ~ retired c j1.(id) ->
  b1 = b2 /\ l1 = l2 /\ (durable m1.(m_sys) l1 j1 -> owned c b1 j1.(id)).
Proof.
  intros Hlk Hr. apply exclusive_runner; [by eapply safe_reachable|by eapply exclusive_reachable].
Qed.

(** C11. The second orphan is stranded: when the broker that took over a durable job
    is down too, the job stays where it is for ever.  The record keeps naming the
    dead broker, which a claim, made under the broker the id names, never
    matches; no broker ever holds the job again, and it is neither delivered nor
    expired. *)
Theorem second_orphan_stranded c i r c' :
  leases_kept -> creachable st c -> stranded c i r -> rtc cstep c c' ->
  stranded c' i r /\ ~ busy c' i.
Proof.
  intros Hlk Hr HS Hrun. pose proof (exclusive_reachable _ _ Hlk empty Hr) as HE.
  pose proof (safe_reachable _ _ empty Hr) as Hsafe. clear Hr.
  induction Hrun as [c|c1 c2 c3 Hs _ IH]; [split; [done|by eapply stranded_idle]|].
  apply IH; eauto using stranded_step, exclusive_step, safe_step.
Qed.
End runs.
End laws.

(** ** A lease that is right about who is down *)

Section down.
Context {V S : Type} `{JsonValue V} `{JobStore V S}.

Definition down (c : cluster V S) (_ o : string) : Prop :=
  exists m, c.(members) !! o = Some m /\ m.(m_up) = false.

Lemma down_leases : leases_kept down.
Proof. intros c b o m (m' & Hm' & Hd) Hm. by simplify_eq. Qed.

Context (lookup_job : string -> S -> option (PersistentJobRecord V)).

Lemma cstep_mono (lapsed lapsed' : cluster V S -> string -> string -> Prop) c c' :
  (forall b o, lapsed c b o -> lapsed' c b o) -> cstep lookup_job lapsed c c' -> cstep lookup_job lapsed' c c'.
Proof.
  intros Hl Hs. destruct Hs as [| | | | |c b m i owner r st Hb Hid Hmay Hcl| | | |]; [econstructor; eassumption..| | | | |];
    [|econstructor; eassumption..].
  eapply c_claim; [eassumption..| |eassumption]. destruct Hmay as [?|?]; auto.
Qed.

(** Brokers do not come back up, and their names are not taken again. *)
Lemma cstep_members lapsed (c c' : cluster V S) o m :
  cstep lookup_job lapsed c c' -> c.(members) !! o = Some m ->
  exists m', c'.(members) !! o = Some m' /\ (m'.(m_up) = true -> m.(m_up) = true).
Proof.
  assert (forall b m1 m1' st, live c b m1 -> c.(members) !! o = Some m ->
            exists m', (put b m1' st c).(members) !! o = Some m' /\ (m'.(m_up) = true -> m.(m_up) = true)) as Hput.
  { intros b m1 m1' st [Hb Hup] Ho. simpl. destruct (decide (b = o)) as [->|Hne].
    - rewrite lookup_insert_eq. simplify_eq. eauto.
    - rewrite lookup_insert_ne by done. eauto. }
  intros Hs Ho. destruct Hs as [c cfg Hn| | | | | | | | |]; try by eapply Hput.
  - simpl. rewrite lookup_insert_ne by congruence. eauto.
  - simpl. eauto.
Qed.
End down.

(** ** Concrete clusters on the in-memory store *)

#[local] Existing Instance no_text.
#[local] Existing Instance no_chrono.

Definition quiet_check {V : Type} (s s' : sys V) : bool :=
  bool_decide (dom s'.(bits).(objs) ⊆ dom s.(bits).(objs)) &&
  bool_decide (map_Forall (fun l r => r = RunnerPersisting -> s'.(runners) !! l = Some RunnerPersisting) s.(runners)).

Lemma quiet_by {V : Type} (s s' : sys V) : quiet_check s s' = true -> quiet s s'.
Proof.
  intros [Hd%bool_decide_eq_true Hr%bool_decide_eq_true]%andb_true_iff. split.
  - intros l Hl. apply not_elem_of_dom. apply not_elem_of_dom in Hl. set_solver.
  - intros l Hl. by apply (Hr l RunnerPersisting).
Qed.

Definition unused_check {V S : Type} (i : string) (c : cluster V S)
    (lookup_job : string -> S -> option (PersistentJobRecord V)) : bool :=
  match lookup_job i c.(store) with Some _ => false | None => true end &&
  bool_decide (map_Forall (fun (_ : string) m =>
    map_Forall (fun (_ : nat) j => j.(id) <> i) m.(m_sys).(bits).(objs) /\
    Forall (fun r => r.(rec_job_id) <> i) m.(hands)) c.(members)).

Lemma unused_by {V S : Type} i (c : cluster V S) lookup_job :
  unused_check i c lookup_job = true -> unused i c lookup_job.
Proof.
  intros [Hl Hf%bool_decide_eq_true]%andb_true_iff. split; [by destruct (lookup_job i _)|].
  intros b m Hb. destruct (Hf _ _ Hb) as [Ho Hh]. split; [intros l j Hj; by apply (Ho l)|].
  intros r Hr. rewrite Forall_forall in Hh. by apply Hh.
Qed.

(** A cluster in which nothing was delivered or expired yet. *)
Lemma nothing_retired {V S : Type} (c : cluster V S) i :
  bool_decide (map_Forall (fun (_ : string) m => m.(m_sys).(delivered) = [] /\ m.(m_sys).(expired) = ∅)
                 c.(members)) = true ->
  ~ retired c i.
Proof.
  intros Hf%bool_decide_eq_true (b & m & Hb & l & j & _ & _ & Hg).
  destruct (Hf _ _ Hb) as [Hd He]. rewrite Hd, He in Hg. set_solver.
Qed.

Module Sample.
Notation mem := (MemoryStore.MemoryStore sample).
Notation look := (lookup_job_memory (V:=sample)).

Lemma new_empty i : look i MemoryStore.new = None.
Proof. unfold lookup_job_memory. destruct (memory_job_key i); [|done]. apply lookup_empty. Qed.

Ltac norm :=
  lazymatch goal with |- rtc _ ?a _ => let a' := eval vm_compute in a in change a with a' end.
Ltac now_live := split; vm_compute; reflexivity.
Tactic Notation "locally" uconstr(b) uconstr(r) :=
  eapply rtc_l; [eapply (c_local _ _ _ b);
    [now_live|eapply r; (vm_compute; first [reflexivity|discriminate|exact I])|apply quiet_by; vm_compute; reflexivity]|norm].
Ltac fits := split_and!; [vm_compute; discriminate|vm_compute; reflexivity..].
Tactic Notation "accept" uconstr(b) constr(l) constr(j) :=
  eapply rtc_l; [eapply (c_accept _ _ _ b _ 0 l (new_lifecycle 0) j);
    [now_live|fits|reflexivity|apply unused_by; vm_compute; reflexivity]|norm].
Tactic Notation "persist" uconstr(b) constr(l) :=
  eapply rtc_l; [eapply (c_persist _ _ _ b _ l); [now_live|vm_compute; reflexivity..]|norm].
Tactic Notation "crash" uconstr(b) := eapply rtc_l; [eapply (c_crash _ _ _ b); now_live|norm].
Tactic Notation "join" constr(cfg) :=
  eapply rtc_l; [apply (c_join _ _ _ cfg); [vm_compute; reflexivity|reflexivity]|norm].
Tactic Notation "claim" uconstr(b) constr(i) :=
  eapply rtc_l; [eapply (c_claim _ _ _ b _ i);
    [now_live|vm_compute; reflexivity|first [left; vm_compute; reflexivity|right; exact I|right; eexists; split; vm_compute; reflexivity]
    |vm_compute; reflexivity]|norm].
Tactic Notation "recover" uconstr(b) constr(l) :=
  eapply rtc_l; [eapply (c_recover _ _ _ b _ _ [] [] 0 l (new_lifecycle 0)); [now_live|reflexivity|fits]|norm].

Tactic Notation "from" uconstr(run) :=
  etrans; [exact (proj2_sig run)|norm].

(** Broker 42 takes a job and makes it durable. *)
Definition made_durable : {c | creachable (lookup_job:=look) down MemoryStore.new c}.
Proof.
  eexists. unfold creachable.
  join demo_cfg.
  locally "bol-dev-42" (step_reserve _ _ EnforceLimit).
  accept "bol-dev-42" 0%nat demo_job.
  locally "bol-dev-42" (step_start _ _ 0%nat).
  locally "bol-dev-42" (step_persist_begin _ _ 0%nat).
  persist "bol-dev-42" 0%nat.
  apply rtc_refl.
Defined.

(** It crashes, and broker 7 takes the job over. *)
Definition taken_over : {c | creachable (lookup_job:=look) down MemoryStore.new c}.
Proof.
  eexists. unfold creachable. from made_durable.
  crash "bol-dev-42".
  join peer_cfg.
  claim "bol-dev-7" demo_id.
  locally "bol-dev-7" (step_reserve _ _ BypassLimitAlreadyPersisted).
  recover "bol-dev-7" 0%nat.
  locally "bol-dev-7" (step_start _ _ 0%nat).
  apply rtc_refl.
Defined.

(** Broker 7 crashes too. *)
Definition orphaned_twice : {c | creachable (lookup_job:=look) down MemoryStore.new c}.
Proof. eexists. unfold creachable. from taken_over. crash "bol-dev-7". apply rtc_refl. Defined.

Lemma durable_survives_witness :
  let c := proj1_sig taken_over in
  is_Some (look demo_id c.(store)) \/ retired c demo_id.
Proof.
  assert (exists m j, (proj1_sig taken_over).(members) !! "bol-dev-42"%string = Some m /\
            m.(m_sys).(bits).(objs) !! 0%nat = Some j /\ j.(persisted) = true /\ j.(id) = demo_id)
    as (m & j & Hm & Hj & Hp & Hid).
  { eexists _, _. split_and!; [vm_compute; reflexivity|vm_compute; reflexivity|reflexivity|reflexivity]. }
  intros c. pose proof (durable_survives down MemoryStore.new new_empty c "bol-dev-42" m 0 j (proj2_sig taken_over) Hm Hj Hp) as Hs.
  by rewrite Hid in Hs.
Defined.

Lemma single_runner_witness :
  let c := proj1_sig taken_over in
  exists m j, live c "bol-dev-7" m /\ m.(m_sys).(bits).(objs) !! 0%nat = Some j /\
    owned (lookup_job:=look) c "bol-dev-7" demo_id.
Proof.
  assert (exists m j, live (proj1_sig taken_over) "bol-dev-7" m /\
            m.(m_sys).(bits).(objs) !! 0%nat = Some j /\ durable m.(m_sys) 0 j /\ j.(id) = demo_id)
    as (m & j & Hm & Hj & Hp & Hid).
  { eexists _, _. split_and!; [now_live|vm_compute; reflexivity|left; reflexivity|reflexivity]. }
  intros c. exists m, j. split_and!; [done..|].
  assert (~ retired c j.(id)) as Hn.
  { apply nothing_retired. vm_compute. reflexivity. }
  pose proof (single_runner down MemoryStore.new new_empty c "bol-dev-7" m 0 j "bol-dev-7" m 0 j
    down_leases (proj2_sig taken_over) Hm Hj Hm Hj eq_refl Hn) as (_ & _ & Hown).
  rewrite Hid in Hown. by apply Hown.
Defined.

Lemma second_orphan_stranded_witness :
  let c := proj1_sig orphaned_twice in
  stranded (lookup_job:=look) c demo_id (mkRecord demo_id "bol-dev-7" JNull (JObject []) (JObject []) 0) /\
  ~ busy c demo_id.
Proof.
  assert (stranded (lookup_job:=look) (proj1_sig orphaned_twice) demo_id
            (mkRecord demo_id "bol-dev-7" JNull (JObject []) (JObject []) 0)) as HS.
  { split.
    - vm_compute. reflexivity.
    - intros m. vm_compute. by intros [= <-].
    - eexists. vm_compute. reflexivity.
    - vm_compute. done.
    - apply nothing_retired. vm_compute. reflexivity. }
  intros c. apply (second_orphan_stranded down MemoryStore.new new_empty c demo_id _ c down_leases
    (proj2_sig orphaned_twice) HS (rtc_refl _ _)).
Defined.

(** A second poll of a job that was just delivered, before its record is
    deleted: the broker claims its own record and runs the job again. *)
Definition run_again : {c | creachable (lookup_job:=look) down MemoryStore.new c}.
Proof.
  eexists. unfold creachable. from made_durable.
  locally "bol-dev-42" (step_poll _ _ 0%nat false demo_id).
  locally "bol-dev-42" (step_finish _ _ 0%nat _ demo_payload).
  locally "bol-dev-42" (step_connect _ _ 0%nat).
  locally "bol-dev-42" (step_take _ _ 0%nat).
  locally "bol-dev-42" (step_remove _ _ 0%nat).
  claim "bol-dev-42" demo_id.
  locally "bol-dev-42" (step_reserve _ _ BypassLimitAlreadyPersisted).
  recover "bol-dev-42" 1%nat.
  apply rtc_refl.
Defined.

Example delivered_job_runs_again :
  let c := proj1_sig run_again in
  exists m, live c "bol-dev-42" m /\ m.(m_sys).(delivered) = [0%nat] /\
    m.(m_sys).(bits).(jobs) !! demo_id = Some 1%nat /\ m.(m_sys).(runners) !! 1%nat = Some (RunnerNew true).
Proof. eexists. split_and!; [now_live|vm_compute; reflexivity..]. Qed.

(** Broker 42 is up but lets its lease lapse; broker 7 takes the job over; the
    sweeper of broker 42, whose clients went to broker 7, expires its copy and
    deletes the record, which is broker 7's by now; then broker 7 crashes. *)
Definition record_lost : {c | creachable (lookup_job:=look) (fun _ _ _ => True) MemoryStore.new c}.
Proof.
  eexists. unfold creachable.
  join demo_cfg.
  locally "bol-dev-42" (step_reserve _ _ EnforceLimit).
  accept "bol-dev-42" 0%nat demo_job.
  locally "bol-dev-42" (step_start _ _ 0%nat).
  locally "bol-dev-42" (step_persist_begin _ _ 0%nat).
  persist "bol-dev-42" 0%nat.
  join peer_cfg.
  claim "bol-dev-7" demo_id.
  locally "bol-dev-7" (step_reserve _ _ BypassLimitAlreadyPersisted).
  recover "bol-dev-7" 0%nat.
  locally "bol-dev-42" (step_finish _ _ 0%nat _ demo_payload).
  eapply rtc_l; [eapply (c_local _ _ _ "bol-dev-42");
    [now_live|eapply (step_sweep _ _ demo_id 0%nat _ 100); [vm_compute; reflexivity..]|apply quiet_by; vm_compute; reflexivity]|norm].
  eapply rtc_l; [eapply (c_clean _ _ _ "bol-dev-42" _ 0%nat); [now_live|vm_compute; reflexivity|vm_compute; set_solver|vm_compute; reflexivity]|norm].
  crash "bol-dev-7".
  apply rtc_refl.
Defined.

Example lapsed_owner_deletes :
  let c := proj1_sig record_lost in
  look demo_id c.(store) = None /\
  map_Forall (fun (_ : string) m => m.(m_sys).(delivered) = [] /\
                (m.(m_up) = true -> m.(m_sys).(bits).(jobs) = ∅)) c.(members).
Proof. split; [vm_compute; reflexivity|apply (bool_decide_unpack _); by vm_compute]. Qed.
End Sample.
