(* ===== verification/Leases.v ===== *)
(** * Leases and clocks ([runtime/recovery.rs] over [bits.rs])

    The brokers of [Cluster] with their wall clocks, their heartbeat threads and
    the leases in the store.  A poll reads the lease of an owner, judges it by
    the clock of its own broker some time later, and claims some time after
    that.  As long as threads and polls are punctual, a lease that is judged
    lapsed is the lease of a broker that is down: the runs of this system are
    runs of [Cluster] in which [lapsed] never errs. *)
From stdpp Require Import relations.
From S2P Require Import Prelude Json Errors RequestId Job Store MemoryStore Broker Recovery Heartbeat Cluster.

(** ** The state *)

(** Where the heartbeat thread of a broker is: a renewal is under way (the
    second one of its turn if [retry]), was carried out and is being answered,
    the thread sleeps until its next turn or its second attempt, or it waits for
    the jobs in flight of a broker that shuts down. *)
Inductive Phase : Type :=
| Renewing (retry : bool)
| Answered (retry ok : bool)
| Pausing
| Retrying
| Draining.

Record Thread : Type := mkThread { phase : Phase; since : Z }.

(** A poll of [reader] that has the answer of the store about [owner]. *)
Record Lookup : Type := mkLookup {
  reader : string;
  owner : string;
  answer : result DbError (option BrokerLeaseRecord);
  asked_at : Z
}.

(** [suspects]: the pairs of a broker and an owner it found without a lease. *)
Record timed (V S : Type) : Type := mkTimed {
  wall : Z;
  brokers : cluster V S;
  threads : gmap string Thread;
  lookups : list Lookup;
  suspects : list (string * string)
}.
Arguments mkTimed {V S}. Arguments wall {V S}. Arguments brokers {V S}. Arguments threads {V S}.
Arguments lookups {V S}. Arguments suspects {V S}.

(** What [lookup_owner_lease] makes of the answer of the store. *)
Definition judge {div : DivF64} (now : Z) (r : result DbError (option BrokerLeaseRecord)) : LeaseLookup :=
  match r with
  | Ok (Some lease) => if lease_is_active_with_grace now lease then LeaseActive lease else LeaseMissingOrExpired
  | Ok None => LeaseMissingOrExpired
  | Err _ => LeaseUnknown
  end.

Lemma lookup_owner_lease_judge {S : Type} `{BrokerLeaseStore S} {div : DivF64} cfg now o s :
  cfg.(has_store) = true -> lookup_owner_lease cfg now o s = judge now (get_broker_lease o s).
Proof. unfold lookup_owner_lease. by intros ->. Qed.

Section leases.
Context {V S : Type} `{JsonValue V} `{JobStore V S} `{BrokerLeaseStore S} {div : DivF64}.
Context {lookup_job : string -> S -> option (PersistentJobRecord V)}
  {lease_of : string -> S -> option BrokerLeaseRecord} {granted : Z -> Z}.

(** The settings of each broker, and how far its wall clock is off. *)
Context (base_url : string -> string) (ttl : string -> Z) (div_f64_2 : Z -> Z) (offset : string -> Z).
Notation timed := (timed V S).

Definition clock_of (b : string) (w : timed) : Z := w.(wall) + offset b.

Definition set_thread (b : string) (p : Phase) (w : timed) : timed :=
  mkTimed w.(wall) w.(brokers) (<[b := mkThread p w.(wall)]> w.(threads)) w.(lookups) w.(suspects).
Definition set_wall (t : Z) (w : timed) : timed :=
  mkTimed t w.(brokers) w.(threads) w.(lookups) w.(suspects).
Definition set_brokers (c : cluster V S) (w : timed) : timed :=
  mkTimed w.(wall) c w.(threads) w.(lookups) w.(suspects).
Definition set_lookups (l : list Lookup) (w : timed) : timed :=
  mkTimed w.(wall) w.(brokers) w.(threads) l w.(suspects).
Definition suspect (b o : string) (w : timed) : timed :=
  mkTimed w.(wall) w.(brokers) w.(threads) w.(lookups) ((b, o) :: w.(suspects)).

(** The thread of [start_broker_lease_heartbeat] between its blocking calls:
    what follows the answer to a renewal, and what follows a sleep. *)
Definition after_answer (retry ok : bool) : Phase := if ok || retry then Pausing else Retrying.
Definition after_sleep (p : Phase) : option Phase :=
  match p with Pausing => Some (Renewing false) | Retrying => Some (Renewing true) | _ => None end.

(** How long the thread means to stay in a phase. *)
Definition asleep (b : string) (p : Phase) : Z :=
  match p with
  | Pausing => tick (ttl b) div_f64_2
  | Retrying => retry_delay (ttl b) div_f64_2
  | Renewing _ | Answered _ _ | Draining => 0
  end.

(** A broker is gone, and the store is what the deletion of its lease left. *)
Definition leave (b : string) (m : member V) (st : S) (w : timed) : timed :=
  set_brokers (put b (crashed m) st w.(brokers)) w.

Definition suspected (w : timed) (_ : cluster V S) (b o : string) : Prop := (b, o) ∈ w.(suspects).

Inductive tstep : timed -> timed -> Prop :=
| t_pass w d : 0 <= d -> tstep w (set_wall (w.(wall) + d) w)
(* a broker starts, and its heartbeat with it *)
| t_join w cfg :
    w.(brokers).(members) !! broker_name cfg = None -> cfg.(has_store) = true ->
    tstep w (set_thread (broker_name cfg) (Renewing false)
               (set_brokers (put (broker_name cfg) (joined cfg) w.(brokers).(store) w.(brokers)) w))
(* everything brokers do with jobs, and their crashes; see [work_leases] *)
| t_work w c :
    cstep lookup_job (suspected w) w.(brokers) c ->
    (forall b, w.(brokers).(members) !! b = None -> c.(members) !! b = None) ->
    (forall b, lease_of b c.(store) = lease_of b w.(brokers).(store)) ->
    tstep w (set_brokers c w)
| t_renew w b m retry t r st :
    live w.(brokers) b m -> w.(threads) !! b = Some (mkThread (Renewing retry) t) ->
    upsert_broker_lease (clock_of b w) b (base_url b) (ttl b) w.(brokers).(store) = (r, st) ->
    tstep w (set_thread b (Answered retry (is_ok r)) (set_brokers (with_store st w.(brokers)) w))
| t_answer w b m retry ok t :
    live w.(brokers) b m -> w.(threads) !! b = Some (mkThread (Answered retry ok) t) ->
    tstep w (set_thread b (after_answer retry ok) w)
| t_wake w b m p p' t :
    live w.(brokers) b m -> w.(threads) !! b = Some (mkThread p t) -> after_sleep p = Some p' ->
    tstep w (set_thread b p' w)
(* shutdown ends a sleep; the thread drains and renews no more, and deletes the
   lease when it has waited enough, the last thing the broker does *)
| t_stop w b m p p' t :
    live w.(brokers) b m -> w.(threads) !! b = Some (mkThread p t) -> after_sleep p = Some p' ->
    tstep w (set_thread b Draining w)
| t_leave w b m t r st :
    live w.(brokers) b m -> w.(threads) !! b = Some (mkThread Draining t) ->
    delete_broker_lease b w.(brokers).(store) = (r, st) ->
    tstep w (leave b m st w)
(* a poll asks for the lease of an owner, and later looks at its clock *)
| t_lookup w b m o :
    live w.(brokers) b m -> b <> o ->
    tstep w (set_lookups (mkLookup b o (get_broker_lease o w.(brokers).(store)) w.(wall) :: w.(lookups)) w)
| t_judge w m r l1 l2 :
    w.(lookups) = l1 ++ r :: l2 -> live w.(brokers) r.(reader) m ->
    tstep w ((match judge (clock_of r.(reader) w) r.(answer) with
              | LeaseMissingOrExpired => suspect r.(reader) r.(owner)
              | LeaseActive _ | LeaseUnknown => fun w => w
              end) (set_lookups (l1 ++ l2) w)).

(** The leases change with renewals and deletions only: what [t_work] excludes are
    steps on the other tables of the store, and brokers that start. *)
Lemma work_leases `{!LeaseStoreLaws S lookup_job lease_of granted} lapsed c c' b :
  cstep lookup_job lapsed c c' -> (exists st, c' = with_store st c) \/ lease_of b c'.(store) = lease_of b c.(store).
Proof.
  intros Hs. destruct Hs as [| | | |c b1 m l j r st _ _ _ Hu|c b1 m i o r st _ _ _ Hc| | |c b1 m k i r st _ _ _ Hd|];
    simpl; eauto; right.
  - by eapply (upsert_job_leases (lookup_job:=lookup_job)).
  - by eapply (claim_leases (lookup_job:=lookup_job)).
  - by eapply (delete_job_leases (lookup_job:=lookup_job)).
Qed.

(** ** What is assumed of a run *)

(** [late] bounds how much longer than meant a thread stays in a phase and how
    long a poll takes from its question to its verdict. *)
Context (late : Z).

(** In every state: threads of brokers that are up are in time, a drain included,
    and none of them failed to renew twice in a turn; polls of brokers that are up are in time,
    and ask only about brokers that have had their first lease or are down. *)
Record punctual (w : timed) : Prop := mkPunctual {
  pu_thread b m th : live w.(brokers) b m -> w.(threads) !! b = Some th ->
    w.(wall) <= th.(since) + asleep b th.(phase) + late /\ th.(phase) <> Answered true false;
  pu_lookup r m : r ∈ w.(lookups) -> live w.(brokers) r.(reader) m -> w.(wall) <= r.(asked_at) + late;
  pu_known r : r ∈ w.(lookups) ->
    is_Some (lease_of r.(owner) w.(brokers).(store)) \/ down w.(brokers) r.(reader) r.(owner)
}.

Definition pstep (w w' : timed) : Prop := punctual w /\ tstep w w' /\ punctual w'.

Definition timed_new (t : Z) (st : S) : timed := mkTimed t (cluster_new st) ∅ [] [].

(** ** The age of a lease *)

Context `{!JobStoreLaws S lookup_job} `{!LeaseStoreLaws S lookup_job lease_of granted}.

(** The lease was written at [t0], by the clock of its broker. *)
Definition written_at (b : string) (t0 : Z) (l : BrokerLeaseRecord) : Prop :=
  l.(lease_until) = t0 + offset b + granted (ttl b) /\ l.(updated_at) = t0 + offset b.

Definition grace (b : string) : Z := Z.min (div_f64_10 (Z.max 0 (granted (ttl b)))) (10 ^ 9).

Lemma grace_of b t0 l : written_at b t0 l -> lease_grace_duration l = grace b.
Proof. intros [Hu Ha]. unfold lease_grace_duration, grace. rewrite Hu, Ha. do 3 f_equal. lia. Qed.

(** The age a lease may have when its thread enters a phase, and the greatest
    age it reaches. *)
Definition entry_age (b : string) (p : Phase) : Z :=
  match p with
  | Answered _ true => 0
  | Pausing => late
  | Renewing false => asleep b Pausing + 2 * late
  | Answered _ false => asleep b Pausing + 3 * late
  | Retrying => asleep b Pausing + 4 * late
  | Renewing true | Draining => asleep b Pausing + asleep b Retrying + 5 * late
  end.
Definition oldest (b : string) : Z := asleep b Pausing + asleep b Retrying + 6 * late.

Context (late_nonneg : 0 <= late).

Lemma asleep_nonneg b p : 0 <= asleep b p.
Proof. destruct p; simpl; try lia; [apply tick_nonneg|apply retry_delay_nonneg]. Qed.

Lemma entry_oldest b p : p <> Answered true false -> entry_age b p + asleep b p + late <= oldest b.
Proof.
  intros Hp. pose proof (asleep_nonneg b Pausing). pose proof (asleep_nonneg b Retrying). unfold oldest.
  destruct p as [[]|r []| | |]; simpl in *; lia.
Qed.

(** Leases and what polls saw of them are as fresh as the phase of the owner's
    thread says, and suspects are down. *)
Record timely (w : timed) : Prop := mkTimely {
  ti_thread b m : live w.(brokers) b m -> is_Some (w.(threads) !! b);
  ti_lease b l : lease_of b w.(brokers).(store) = Some l -> is_Some (w.(brokers).(members) !! b);
  ti_age b m th l : live w.(brokers) b m -> w.(threads) !! b = Some th ->
    lease_of b w.(brokers).(store) = Some l ->
    exists t0, written_at b t0 l /\ th.(since) <= t0 + entry_age b th.(phase);
  ti_lookup r : r ∈ w.(lookups) -> is_Some (w.(brokers).(members) !! r.(owner)) /\
    forall m, live w.(brokers) r.(owner) m ->
      match r.(answer) with
      | Ok (Some l) => exists t0, written_at r.(owner) t0 l /\ r.(asked_at) <= t0 + oldest r.(owner)
      | Ok None => False
      | Err _ => True
      end;
  ti_suspect b o : (b, o) ∈ w.(suspects) -> down w.(brokers) b o
}.

Lemma set_thread_same b p w :
  set_thread b p w = set_thread b p (set_brokers (with_store w.(brokers).(store) w.(brokers)) w).
Proof. by destruct w as [t [ms st] th ls ss]. Qed.

Lemma timely_pass w d : timely w -> timely (set_wall (w.(wall) + d) w).
Proof. by intros []. Qed.

Lemma timely_thread w b m p st :
  timely w -> live w.(brokers) b m ->
  (forall b', b' <> b -> lease_of b' st = lease_of b' w.(brokers).(store)) ->
  (forall l, lease_of b st = Some l -> exists t0, written_at b t0 l /\ w.(wall) <= t0 + entry_age b p) ->
  timely (set_thread b p (set_brokers (with_store st w.(brokers)) w)).
Proof.
  intros [Hth Hle Hag Hlo Hsu] Hb Hother Hnew. split; try done; simpl.
  - intros b1 m1 Hb1. rewrite lookup_insert_is_Some'. right. by eapply Hth.
  - intros b1 l. destruct (decide (b1 = b)) as [->|Hne]; [by rewrite (proj1 Hb)|]. rewrite Hother by done. apply Hle.
  - intros b1 m1 th l Hb1. rewrite lookup_insert_Some. intros [[<- <-]|[Hne Hth1]]; [apply Hnew|].
    rewrite Hother by done. by eapply Hag.
Qed.

Lemma timely_join w cfg :
  timely w -> w.(brokers).(members) !! broker_name cfg = None ->
  timely (set_thread (broker_name cfg) (Renewing false)
            (set_brokers (put (broker_name cfg) (joined cfg) w.(brokers).(store) w.(brokers)) w)).
Proof.
  intros [Hth Hle Hag Hlo Hsu] Hn. set (n := broker_name cfg) in *.
  assert (forall b m, live (put n (joined cfg) w.(brokers).(store) w.(brokers)) b m -> b = n \/ live w.(brokers) b m) as Hlive.
  { intros b m [Hb Hup]. simpl in Hb. apply lookup_insert_Some in Hb as [[<- _]|[_ Hb]]; [by left|by right]. }
  split; simpl.
  - intros b m Hb. rewrite lookup_insert_is_Some'. destruct (Hlive _ _ Hb) as [->|?]; [by left|right; by eapply Hth].
  - intros b l Hl. rewrite lookup_insert_is_Some'. right. by eapply Hle.
  - intros b m th l Hb Ht Hl. assert (b <> n) as Hne by (intros ->; apply Hle in Hl; rewrite Hn in Hl; by destruct Hl).
    rewrite lookup_insert_ne in Ht by done. destruct (Hlive _ _ Hb) as [?|?]; [done|]. by eapply Hag.
  - intros r Hr. destruct (Hlo r Hr) as [Hm Hl]. split; [rewrite lookup_insert_is_Some'; by right|].
    intros m Hb. destruct (Hlive _ _ Hb) as [Heq|?]; [rewrite Heq, Hn in Hm; by destruct Hm|by eapply Hl].
  - intros b o (m & Hm & Hd)%Hsu. exists m. simpl. rewrite lookup_insert_ne; [done|congruence].
Qed.

Lemma timely_work w c lapsed :
  timely w -> cstep lookup_job lapsed w.(brokers) c ->
  (forall b, w.(brokers).(members) !! b = None -> c.(members) !! b = None) ->
  (forall b, lease_of b c.(store) = lease_of b w.(brokers).(store)) -> timely (set_brokers c w).
Proof.
  intros [Hth Hle Hag Hlo Hsu] Hs Hmem Hls.
  assert (forall o, is_Some (w.(brokers).(members) !! o) -> is_Some (c.(members) !! o)) as Hkeep.
  { intros o [m Hm]. destruct (cstep_members _ _ _ _ _ _ Hs Hm) as (m' & -> & _). by eexists. }
  assert (forall b m, live c b m -> exists m0, live w.(brokers) b m0) as Hback.
  { intros b m [Hb Hup]. destruct (w.(brokers).(members) !! b) as [m0|] eqn:Hm0; [|by rewrite Hmem in Hb].
    destruct (cstep_members _ _ _ _ _ _ Hs Hm0) as (m' & Hm' & Hup'). simplify_eq. exists m0. split; auto. }
  split; simpl.
  - intros b m (m0 & Hb)%Hback. by eapply Hth.
  - intros b l. rewrite Hls. eauto.
  - intros b m th l (m0 & Hb)%Hback Ht. rewrite Hls. by eapply Hag.
  - intros r Hr. destruct (Hlo r Hr) as [Hm Hl]. split; [by apply Hkeep|]. intros m (m0 & Hb)%Hback. by eapply Hl.
  - intros b o (m & Hm & Hd)%Hsu. destruct (cstep_members _ _ _ _ _ _ Hs Hm) as (m' & Hm' & Hup).
    exists m'. split; [done|]. destruct (m_up m') eqn:Hu; [|done]. rewrite Hup in Hd; done.
Qed.

Lemma timely_leave w b m st :
  timely w -> live w.(brokers) b m ->
  (forall b', b' <> b -> lease_of b' st = lease_of b' w.(brokers).(store)) -> timely (leave b m st w).
Proof.
  intros [Hth Hle Hag Hlo Hsu] Hb Hother.
  assert (forall b1 m1, live (leave b m st w).(brokers) b1 m1 -> b1 <> b /\ live w.(brokers) b1 m1) as Hlive.
  { intros b1 m1 [Hb1 Hup]. simpl in Hb1. apply lookup_insert_Some in Hb1 as [[_ <-]|[Hne Hb1]]; [done|by split]. }
  split; simpl.
  - intros b1 m1 [_ Hb1]%Hlive. by eapply Hth.
  - intros b1 l Hl. rewrite lookup_insert_is_Some'. destruct (decide (b1 = b)) as [->|Hne]; [by left|right].
    rewrite Hother in Hl by done. by eapply Hle.
  - intros b1 m1 th l [Hne Hb1]%Hlive Ht. rewrite Hother by done. by eapply Hag.
  - intros r Hr. destruct (Hlo r Hr) as [Hm Hl]. split; [rewrite lookup_insert_is_Some'; by right|].
    intros m1 [_ Hb1]%Hlive. by eapply Hl.
  - intros b1 o (m1 & Hm1 & Hd)%Hsu. destruct Hb as [Hb Hup]. exists m1. simpl. rewrite lookup_insert_ne; [done|congruence].
Qed.

(** The age of the lease of a broker that is up, at any time. *)
Lemma age_now w b m l :
  timely w -> punctual w -> live w.(brokers) b m -> lease_of b w.(brokers).(store) = Some l ->
  exists t0, written_at b t0 l /\ w.(wall) <= t0 + oldest b.
Proof.
  intros HT HP Hb Hl. destruct (ti_thread _ HT _ _ Hb) as [th Hth].
  destruct (ti_age _ HT _ _ _ _ Hb Hth Hl) as (t0 & Hw & Ht). exists t0. split; [done|].
  destruct (pu_thread _ HP _ _ _ Hb Hth) as [Hp Hne]. pose proof (entry_oldest b _ Hne). lia.
Qed.

Lemma timely_lookup w b o :
  timely w -> punctual w ->
  let w' := set_lookups (mkLookup b o (get_broker_lease o w.(brokers).(store)) w.(wall) :: w.(lookups)) w in
  punctual w' -> timely w'.
Proof.
  intros HT HP w' HP'. assert (HT' := HT). destruct HT' as [Hth Hle Hag Hlo Hsu]. split; try done; simpl.
  intros r [->|Hr]%elem_of_cons; [|by apply Hlo]. simpl.
  destruct (pu_known _ HP' (mkLookup b o (get_broker_lease o w.(brokers).(store)) w.(wall))) as [[l Hl]|(m0 & Hm0 & Hd)];
    [by left| |]; simpl in *.
  - split; [by eapply Hle|]. intros m Hm.
    destruct (get_broker_lease o _) as [x|] eqn:Hg; [|done]. apply (get_lease_law (lookup_job:=lookup_job)) in Hg as ->.
    rewrite Hl. by eapply age_now.
  - split; [by eexists|]. intros m [Hm Hup]. congruence.
Qed.

(** ** A lease judged lapsed is the lease of a broker that is down *)

(** [skew] bounds how far apart two wall clocks are. *)
Context (skew : Z) (skewed : forall a b, offset a - offset b <= skew).
Context (margin : forall b, oldest b + late + skew < granted (ttl b) + grace b).

Lemma fresh_active b o w t0 l :
  written_at o t0 l -> w.(wall) <= t0 + oldest o + late -> lease_is_active_with_grace (clock_of b w) l = true.
Proof.
  intros Hw Ht. unfold lease_is_active_with_grace. rewrite (grace_of _ _ _ Hw). destruct Hw as [-> _].
  apply Z.ltb_lt. unfold clock_of. pose proof (skewed b o). pose proof (margin o). lia.
Qed.

Lemma timely_judge w m r l1 l2 :
  timely w -> punctual w -> w.(lookups) = l1 ++ r :: l2 -> live w.(brokers) r.(reader) m ->
  timely ((match judge (clock_of r.(reader) w) r.(answer) with
           | LeaseMissingOrExpired => suspect r.(reader) r.(owner)
           | LeaseActive _ | LeaseUnknown => fun w => w
           end) (set_lookups (l1 ++ l2) w)).
Proof.
  intros HT HP Hls Hr. assert (r ∈ w.(lookups)) as Hin by (rewrite Hls; set_solver).
  pose proof (pu_lookup _ HP _ _ Hin Hr) as Hlate. destruct HT as [Hth Hle Hag Hlo Hsu].
  assert (timely (set_lookups (l1 ++ l2) w)) as HT'.
  { split; try done. intros r' Hr'. apply Hlo. rewrite Hls. simpl in Hr'. set_solver. }
  destruct (Hlo r Hin) as [[m0 Hm0] Hfresh].
  assert (judge (clock_of r.(reader) w) r.(answer) = LeaseMissingOrExpired -> down w.(brokers) r.(reader) r.(owner)) as Hdown.
  { intros Hj. exists m0. split; [done|]. destruct (m_up m0) eqn:Hup; [|done]. specialize (Hfresh m0 (conj Hm0 Hup)).
    destruct (answer r) as [[l|]|e]; [|done..]. destruct Hfresh as (t0 & Hw & Ht). simpl in Hj.
    rewrite (fresh_active (reader r) (owner r) w t0) in Hj; [done|done|lia]. }
  destruct (judge _ _); [done| |done]. destruct HT' as [Hth' Hle' Hag' Hlo' Hsu'].
  split; try done. simpl. intros b o [[= -> ->]|?]%elem_of_cons; [by apply Hdown|by apply Hsu].
Qed.

Lemma timely_step w w' : timely w -> pstep w w' -> timely w'.
Proof.
  intros HT (HP & Hs & HP').
  assert (forall b m th l, live w.(brokers) b m -> w.(threads) !! b = Some th -> lease_of b w.(brokers).(store) = Some l ->
            exists t0, written_at b t0 l /\ w.(wall) <= t0 + entry_age b th.(phase) + asleep b th.(phase) + late) as Hage.
  { intros b m th l Hb Hth Hl. destruct (ti_age _ HT _ _ _ _ Hb Hth Hl) as (t0 & ? & ?). exists t0. split; [done|].
    destruct (pu_thread _ HP _ _ _ Hb Hth). lia. }
  pose proof (fun b => asleep_nonneg b Pausing) as Hwait. pose proof (fun b => asleep_nonneg b Retrying) as Hretry.
  destruct Hs as [w d Hd|w cfg Hn Hst|w c Hc Hmem Hls|w b m retry t r st Hb Hth Hu|w b m retry ok t Hb Hth
    |w b m p p' t Hb Hth Hp|w b m p p' t Hb Hth Hp|w b m t r st Hb Hth Hd|w b m o Hb Hne|w m r l1 l2 Hls Hr].
  - by apply timely_pass.
  - by apply timely_join.
  - by eapply timely_work.
  - pose proof (fun b' => renew_other (lookup_job:=lookup_job) _ _ _ _ _ _ _ b' Hu) as Hother.
    eapply timely_thread; [done..|]. intros l Hl.
    assert (lease_of b st = Some (mkLease b (base_url b) (clock_of b w + granted (ttl b)) (clock_of b w)) ->
            exists t0, written_at b t0 l /\ w.(wall) <= t0 + entry_age b (Answered retry (is_ok r))) as Hnew.
    { intros Hl'. simplify_eq. exists w.(wall). specialize (Hwait b). split; [by split|].
      destruct (is_ok r); simpl in *; lia. }
    destruct r as [[]|e].
    + apply Hnew. by eapply renew_law.
    + destruct (renew_any (lookup_job:=lookup_job) _ _ _ _ _ _ _ Hu) as [Hsame|?]; [|by apply Hnew].
      rewrite Hsame in Hl. destruct (Hage _ _ _ _ Hb Hth Hl) as (t0 & ? & Ht). exists t0. split; [done|].
      destruct retry; simpl in *; [|lia]. exfalso.
      refine (proj2 (pu_thread _ HP' b m (mkThread (Answered true false) w.(wall)) _ _) eq_refl); [done|].
      simpl. apply lookup_insert_eq.
  - rewrite set_thread_same. eapply timely_thread; [done..|]. intros l Hl.
    destruct (Hage _ _ _ _ Hb Hth Hl) as (t0 & ? & Ht). exists t0. split; [done|].
    destruct retry, ok; simpl in *; try lia. exfalso.
    by destruct (pu_thread _ HP _ _ _ Hb Hth) as [_ []].
  - rewrite set_thread_same. eapply timely_thread; [done..|]. intros l Hl.
    destruct (Hage _ _ _ _ Hb Hth Hl) as (t0 & ? & Ht). exists t0. split; [done|].
    destruct p; simplify_eq/=; lia.
  - rewrite set_thread_same. eapply timely_thread; [done..|]. intros l Hl.
    destruct (Hage _ _ _ _ Hb Hth Hl) as (t0 & ? & Ht). exists t0. split; [done|].
    specialize (Hwait b). specialize (Hretry b). destruct p; simplify_eq/=; lia.
  - eapply timely_leave; [done..|]. intros b'. by eapply (end_other (lookup_job:=lookup_job)).
  - by apply timely_lookup.
  - by eapply timely_judge.
Qed.

(** ** The refinement *)

Section runs.
Context (t : Z) (st : S) (empty : forall i, lookup_job i st = None) (unleased : forall b, lease_of b st = None).

Lemma timely_new : timely (timed_new t st).
Proof.
  split; simpl; unfold live; simpl; intros *; rewrite ?lookup_empty, ?unleased; try done; try naive_solver.
  all: by intros ?%elem_of_nil.
Qed.

Lemma tstep_cluster w w' :
  timely w -> tstep w w' -> rtc (cstep lookup_job down) w.(brokers) w'.(brokers).
Proof.
  intros HT Hs. destruct Hs as [|w cfg Hn Hst|w c Hc|w b m retry t' r s' _ _ Hu| | | |w b m t' r s' Hb _ Hd| |w m r l1 l2 _ _]; try apply rtc_refl.
  - apply rtc_once. by apply c_join.
  - apply rtc_once. eapply cstep_mono; [|done]. apply HT.
  - apply rtc_once. apply c_tables. intros i. by eapply (renew_jobs (lease_of:=lease_of)).
  - eapply rtc_l; [apply (c_tables _ _ _ s'); intros i; by eapply (end_jobs (lease_of:=lease_of))|].
    apply rtc_once. by apply (c_crash _ _ (with_store s' w.(brokers)) b m).
  - destruct (judge _ _); apply rtc_refl.
Qed.

Lemma pstep_refines w :
  rtc pstep (timed_new t st) w -> timely w /\ creachable (lookup_job:=lookup_job) down st w.(brokers).
Proof.
  intros Hr. assert (timely (timed_new t st) /\ creachable (lookup_job:=lookup_job) down st (timed_new t st).(brokers)) as Hn.
  { split; [apply timely_new|apply rtc_refl]. }
  revert Hn. induction Hr as [|w1 w2 w3 Hs _ IH]; [done|]. intros [HT Hc]. apply IH.
  split; [by eapply timely_step|]. unfold creachable in *. etrans; [exact Hc|]. eapply tstep_cluster; [done|apply Hs].
Qed.

(** C2. A job has one runner while its brokers are punctual.  They renew their
    leases, read each other's, judge them by their own clocks, claim what they
    find orphaned, crash, and shut down, in any interleaving.  A run is punctual
    if waits, requests, drains, and polls from their question to their verdict
    are at most [late] late, no thread fails to renew twice in a turn, and a
    poll asks only about brokers that already had a lease or are down; clocks
    are at most [skew] apart, and [late] and [skew] fit in the lease.  In every
    punctual run the brokers that are up hold at most one object of a job that
    is neither delivered nor expired, and once the job is durable its record
    names that broker.  A broker that left does not come back under its name. *)
Theorem timed_single_runner w b1 m1 l1 j1 b2 m2 l2 j2 :
  rtc pstep (timed_new t st) w ->
  live w.(brokers) b1 m1 -> m1.(m_sys).(bits).(objs) !! l1 = Some j1 ->
  live w.(brokers) b2 m2 -> m2.(m_sys).(bits).(objs) !! l2 = Some j2 ->
  j1.(id) = j2.(id) -> ~ retired w.(brokers) j1.(id) ->
  b1 = b2 /\ l1 = l2 /\ (durable m1.(m_sys) l1 j1 -> owned (lookup_job:=lookup_job) w.(brokers) b1 j1.(id)).
Proof.
  intros [_ Hr]%pstep_refines. apply exclusive_runner.
  - by eapply safe_reachable.
  - by eapply (exclusive_reachable down), Hr; [apply down_leases|].
Qed.
End runs.
End leases.

(** ** The thread of [Heartbeat] takes the steps of this system *)

Section heartbeat.
Context {V S : Type} `{JsonValue V} `{JobStore V S} `{BrokerLeaseStore S} {div : DivF64}.
Context (lookup_job : string -> S -> option (PersistentJobRecord V)) (lease_of : string -> S -> option BrokerLeaseRecord).
Context (base_url : string -> string) (ttl : string -> Z) (div_f64_2 : Z -> Z) (offset : string -> Z) (b : string).
Notation timed := (timed V S).
Notation tstep := (tstep (lookup_job:=lookup_job) (lease_of:=lease_of) base_url ttl offset).
Notation World := (World timed).

(** To its thread the rest of the system is a store of leases. *)
#[local] Instance system_leases : BrokerLeaseStore timed := {|
  upsert_broker_lease := fun now o url d w =>
    let '(r, st) := upsert_broker_lease now o url d w.(brokers).(store) in (r, set_brokers (with_store st w.(brokers)) w);
  get_broker_lease := fun o w => get_broker_lease o w.(brokers).(store);
  delete_broker_lease := fun o w =>
    let '(r, st) := delete_broker_lease o w.(brokers).(store) in (r, set_brokers (with_store st w.(brokers)) w)
|}.

(** The system with the thread of [b] in a phase since [t]. *)
Definition inside (p : Phase) (t : Z) (w : timed) : timed :=
  mkTimed w.(wall) w.(brokers) (<[b := mkThread p t]> w.(threads)) w.(lookups) w.(suspects).

(** The thread reads the clock of its broker, which is up. *)
Definition in_step (w : World) : Prop :=
  w.(clock) = clock_of offset b w.(Heartbeat.store) /\ exists m, live w.(Heartbeat.store).(brokers) b m.

(** While the thread blocks the system makes steps of its own, whatever the
    phase. *)
Context (elapse : nat -> Blocking -> World -> World).
Hypothesis elapse_runs : forall n call w p t, in_step w ->
  in_step (elapse n call w) /\
  rtc tstep (inside p t w.(Heartbeat.store)) (inside p t (elapse n call w).(Heartbeat.store)).

Lemma block_runs call w p t :
  in_step w -> in_step (block elapse call w) /\
  rtc tstep (inside p t w.(Heartbeat.store)) (inside p t (block elapse call w).(Heartbeat.store)).
Proof. intros Hw. unfold block. by apply (elapse_runs w.(blocked) call w p t) in Hw as [[? ?] ?]. Qed.

Lemma wait_runs d w p t :
  in_step w -> in_step (wait_timeout elapse d w) /\
  rtc tstep (inside p t w.(Heartbeat.store)) (inside p t (wait_timeout elapse d w).(Heartbeat.store)).
Proof. unfold wait_timeout. destruct (stopped w); [by split|apply block_runs]. Qed.

Lemma renew_runs w r w' retry t :
  in_step w -> renew elapse b (base_url b) (ttl b) w = (r, w') ->
  in_step w' /\ exists t', rtc tstep (inside (Renewing retry) t w.(Heartbeat.store))
                                     (inside (Answered retry (is_ok r)) t' w'.(Heartbeat.store)).
Proof.
  intros Hw. unfold renew. destruct (block_runs Requesting w (Renewing retry) t Hw) as [Hw1 Hr1].
  set (w1 := block elapse Requesting w) in *. destruct Hw1 as [Hc1 [m Hm]]. cbn [upsert_broker_lease system_leases].
  destruct (upsert_broker_lease w1.(clock) b (base_url b) (ttl b) w1.(Heartbeat.store).(brokers).(store)) as [x st] eqn:Hu.
  cbv iota beta zeta. intros [= <- <-]. set (w2 := mkWorld _ _ _ _ _ _ _).
  assert (in_step w2) as Hw2 by (split; [exact Hc1|by exists m]).
  destruct (block_runs Requesting w2 (Answered retry (is_ok x)) w1.(Heartbeat.store).(wall) Hw2) as [Hw3 Hr3].
  split; [done|]. exists w1.(Heartbeat.store).(wall). etrans; [exact Hr1|]. eapply rtc_l; [|exact Hr3].
  rewrite Hc1 in Hu.
  pose proof (t_renew (lookup_job:=lookup_job) (lease_of:=lease_of) base_url ttl offset
    (inside (Renewing retry) t w1.(Heartbeat.store)) b m retry t x st Hm (lookup_insert_eq _ _ _) Hu) as Hs.
  unfold set_thread, inside in *. simpl in *. by rewrite insert_insert_eq in Hs.
Qed.

(** The thread moves on: after an answer, or after a sleep. *)
Definition moves (p p' : Phase) : Prop :=
  (exists retry ok, p = Answered retry ok /\ p' = after_answer retry ok) \/ after_sleep p = Some p'.

Lemma move_on p p' t w :
  in_step w -> moves p p' ->
  tstep (inside p t w.(Heartbeat.store)) (inside p' w.(Heartbeat.store).(wall) w.(Heartbeat.store)).
Proof.
  intros [_ [m Hm]] Hp.
  assert (set_thread b p' (inside p t w.(Heartbeat.store)) = inside p' w.(Heartbeat.store).(wall) w.(Heartbeat.store)) as <-.
  { unfold set_thread, inside. simpl. by rewrite insert_insert_eq. }
  destruct Hp as [(retry & ok & -> & ->)|Hp].
  - eapply t_answer; [exact Hm|apply lookup_insert_eq].
  - eapply t_wake; [exact Hm|apply lookup_insert_eq|done].
Qed.

(** An answer, then the sleep it leads to, then the next phase. *)
Lemma sleep_runs retry ok p t d w :
  in_step w -> after_sleep (after_answer retry ok) = Some p ->
  in_step (wait_timeout elapse d w) /\
  exists t', rtc tstep (inside (Answered retry ok) t w.(Heartbeat.store))
                       (inside p t' (wait_timeout elapse d w).(Heartbeat.store)).
Proof.
  intros Hw Hp. destruct (wait_runs d w (after_answer retry ok) w.(Heartbeat.store).(wall) Hw) as [Hw' Hr].
  split; [done|]. eexists. eapply rtc_l; [apply (move_on _ (after_answer retry ok)); [done|left; eauto]|].
  eapply rtc_r; [exact Hr|]. apply move_on; [done|by right].
Qed.

Lemma beat_runs w w' t :
  in_step w -> beat elapse b (base_url b) (ttl b) div_f64_2 w = (true, w') ->
  in_step w' /\ exists t', rtc tstep (inside (Renewing false) t w.(Heartbeat.store))
                                     (inside (Renewing false) t' w'.(Heartbeat.store)).
Proof.
  intros Hw. unfold beat, is_stopped. destruct (stopped w); [done|].
  destruct (renew elapse b (base_url b) (ttl b) w) as [r w1] eqn:Hr. destruct (renew_runs _ _ _ false t Hw Hr) as (Hw1 & t1 & Hr1).
  destruct r as [u|e].
  - intros [= <-]. destruct (sleep_runs false true (Renewing false) t1 (tick (ttl b) div_f64_2) w1 Hw1 eq_refl) as (? & t2 & Hr2).
    split; [done|]. exists t2. by etrans.
  - destruct (sleep_runs false false (Renewing true) t1 (retry_delay (ttl b) div_f64_2) w1 Hw1 eq_refl) as (Hw2 & t2 & Hr2).
    destruct (stopped _); [done|]. set (w2 := wait_timeout elapse (retry_delay (ttl b) div_f64_2) w1) in *.
    destruct (renew elapse b (base_url b) (ttl b) w2) as [r3 w3] eqn:Hr3.
    destruct (renew_runs _ _ _ true t2 Hw2 Hr3) as (Hw3 & t3 & Hrun3). intros [= <-].
    destruct (sleep_runs true (is_ok r3) (Renewing false) t3 (tick (ttl b) div_f64_2) w3 Hw3) as (? & t4 & Hr4).
    { by destruct (is_ok r3). }
    split; [done|]. exists t4. etrans; [exact Hr1|]. etrans; [exact Hr2|]. etrans; [exact Hrun3|exact Hr4].
Qed.

(** C23. The heartbeat loop is one of the threads of this system: while it blocks
    the other brokers, polls and clocks do what they do, and any number of its
    turns, failed renewals and second attempts included, is a run of the
    system's steps from the head of the loop to the head of the loop. *)
Theorem heartbeat_refines fuel w w' t :
  in_step w -> beats elapse b (base_url b) (ttl b) div_f64_2 fuel w = (true, w') ->
  in_step w' /\ exists t', rtc tstep (inside (Renewing false) t w.(Heartbeat.store))
                                     (inside (Renewing false) t' w'.(Heartbeat.store)).
Proof.
  revert w t. induction fuel as [|fuel IH]; intros w t Hw; simpl; [intros [= <-]; split; [done|]; by exists t|].
  destruct (beat _ _ _ _ _ w) as [[] w1] eqn:Hb; [|done]. intros Hbs.
  destruct (beat_runs _ _ t Hw Hb) as (Hw1 & t1 & Hr1). destruct (IH _ t1 Hw1 Hbs) as (Hw' & t' & Hr').
  split; [done|]. exists t'. by etrans.
Qed.
End heartbeat.

(** ** Concrete runs *)

Module Sample.
Import Cluster.Sample.

#[local] Existing Instance no_text.
#[local] Instance chrono_all : Chrono := fun ttl => Some ttl.

Definition url (_ : string) : string := "http://broker/job".
Definition lease_ttl (_ : string) : Z := ms 30000.
Definition half (d : Z) : Z := d / 2.

(** Broker 7's clock is a second behind. *)
Definition off (b : string) : Z := if (b =? "bol-dev-7")%string then - ms 1000 else 0.

Abbreviation tstep := (tstep (lookup_job:=look) (lease_of:=lease_of_memory) url lease_ttl off).
Abbreviation punctual := (punctual (lease_of:=lease_of_memory) lease_ttl half (ms 1000)).
Abbreviation pstep := (pstep (lookup_job:=look) (lease_of:=lease_of_memory) url lease_ttl half off (ms 1000)).

#[export] Instance phase_eq_dec : EqDecision Phase.
Proof. solve_decision. Defined.

(** [punctual], evaluated. *)
Definition in_time (w : timed sample mem) : bool :=
  forallb (fun '(b, th) =>
    match w.(brokers).(members) !! b with
    | Some m => negb m.(m_up) ||
        (w.(wall) <=? th.(since) + asleep lease_ttl half b th.(phase) + ms 1000) &&
        bool_decide (th.(phase) <> Answered true false)
    | None => true
    end) (map_to_list w.(threads)) &&
  forallb (fun r => (w.(wall) <=? r.(asked_at) + ms 1000) &&
    (bool_decide (is_Some (lease_of_memory r.(owner) w.(brokers).(store))) ||
     match w.(brokers).(members) !! r.(owner) with Some m => negb m.(m_up) | None => false end)) w.(lookups).

Lemma in_time_punctual w : in_time w = true -> punctual w.
Proof.
  intros [Hth Hlo]%andb_true_iff. rewrite forallb_forall in Hlo. rewrite forallb_forall in Hth.
  assert (forall r, r ∈ w.(lookups) -> w.(wall) <= r.(asked_at) + ms 1000 /\
            (is_Some (lease_of_memory r.(owner) w.(brokers).(store)) \/ down w.(brokers) r.(reader) r.(owner))) as Hl.
  { intros r [Ha Hk]%list_elem_of_In%Hlo%andb_true_iff. split; [lia|].
    apply orb_true_iff in Hk as [?%bool_decide_eq_true|Hk]; [by left|right].
    destruct (members _ !! owner r) as [m|] eqn:Hm; [|done]. exists m. split; [done|]. by apply negb_true_iff. }
  split.
  - intros b m th [Hb Hup] Ht%elem_of_map_to_list%list_elem_of_In%Hth. rewrite Hb, Hup in Ht.
    apply andb_true_iff in Ht as [? ?%bool_decide_eq_true]. split; [lia|done].
  - intros r m Hr _. by apply Hl.
  - intros r Hr. by apply Hl.
Qed.

(** Steps of a run, as a program: what an action leads to, if it can be taken. *)
Inductive action : Type :=
| Pass (d : Z)
| Join (cfg : BrokerConfig)
| Renew (b : string)
| Hear (b : string)
| Stop (b : string)
| Leave (b : string)
| Ask (b o : string)
| Judge
| Crash (b : string)
| Reserve (b : string) (p : SubmissionAdmission)
| Accept (b : string) (l : nat) (j : Job sample)
| Start (b : string) (l : nat)
| PersistBegin (b : string) (l : nat)
| Persist (b : string) (l : nat)
| Claim (b i : string)
| Recover (b : string) (l : nat).

Notation system := (timed sample mem).

Definition up (b : string) (w : system) : option (member sample) :=
  m ← w.(brokers).(members) !! b; if m.(m_up) then Some m else None.

Definition onto (b : string) (m : member sample) (st : mem) (w : system) : system :=
  set_brokers (put b m st w.(brokers)) w.

(** A step of a broker by itself. *)
Definition locally (b : string) (f : BrokerConfig -> sys sample -> option (sys sample)) (w : system) : option system :=
  m ← up b w; s' ← f m.(m_cfg) m.(m_sys);
  if quiet_check m.(m_sys) s' then Some (onto b (with_sys s' m) w.(brokers).(store) w) else None.

Definition fits_check (l : nat) (j : Job sample) (s : sys sample) : bool :=
  (1 <=? s.(reserving)) && bool_decide (s.(bits).(objs) !! l = None) && bool_decide (s.(runners) !! l = None) &&
  bool_decide (j.(job_result) = None) && bool_decide (s.(bits).(jobs) !! j.(id) = None).

Definition thread_at (b : string) (w : system) : option Thread := w.(threads) !! b.

Definition act (x : action) (w : system) : option system :=
  match x with
  | Pass d => if 0 <=? d then Some (set_wall (w.(wall) + d) w) else None
  | Join cfg =>
      match w.(brokers).(members) !! broker_name cfg with
      | None => if cfg.(has_store)
                then Some (set_thread (broker_name cfg) (Renewing false)
                             (onto (broker_name cfg) (joined cfg) w.(brokers).(store) w))
                else None
      | Some _ => None
      end
  | Renew b =>
      m ← up b w; th ← thread_at b w;
      match th.(phase) with
      | Renewing retry =>
          let '(r, st) := upsert_broker_lease (clock_of off b w) b (url b) (lease_ttl b) w.(brokers).(store) in
          Some (set_thread b (Answered retry (is_ok r)) (set_brokers (with_store st w.(brokers)) w))
      | _ => None
      end
  | Hear b =>
      m ← up b w; th ← thread_at b w;
      match th.(phase) with Answered retry ok => Some (set_thread b (after_answer retry ok) w) | _ => None end
  | Stop b =>
      m ← up b w; th ← thread_at b w; _ ← after_sleep th.(phase); Some (set_thread b Draining w)
  | Leave b =>
      m ← up b w; th ← thread_at b w;
      match th.(phase) with Draining => Some (leave b m (delete_broker_lease b w.(brokers).(store)).2 w) | _ => None end
  | Ask b o =>
      m ← up b w;
      if (b =? o)%string then None
      else Some (set_lookups (mkLookup b o (get_broker_lease o w.(brokers).(store)) w.(wall) :: w.(lookups)) w)
  | Judge =>
      match w.(lookups) with
      | [] => None
      | r :: ls =>
          m ← up r.(reader) w;
          Some ((match judge (clock_of off r.(reader) w) r.(answer) with
                 | LeaseMissingOrExpired => suspect r.(reader) r.(owner)
                 | LeaseActive _ | LeaseUnknown => fun w => w
                 end) (set_lookups ls w))
      end
  | Crash b => m ← up b w; Some (onto b (crashed m) w.(brokers).(store) w)
  | Reserve b p => locally b (fun cfg s =>
      if cfg.(has_store) then b' ← reserve cfg p s.(bits); Some (set_reserving (s.(reserving) + 1) (set_bits b' s))
      else None) w
  | Accept b l j =>
      m ← up b w;
      if fits_check l j m.(m_sys) && negb j.(persisted) && unused_check j.(id) w.(brokers) look
      then Some (onto b (with_sys (insertion m.(m_cfg) 0 l (new_lifecycle 0) j false m.(m_sys)) m) w.(brokers).(store) w)
      else None
  | Start b l => locally b (fun cfg s =>
      match s.(runners) !! l with
      | Some (RunnerNew already) =>
          Some (upd_obj l (fun j => with_persisted (already || j.(persisted)) j)
                  (set_runner l (RunnerDispatching cfg.(persist_after)) s))
      | _ => None
      end) w
  | PersistBegin b l => locally b (fun cfg s =>
      j ← s.(bits).(objs) !! l;
      match s.(runners) !! l with
      | Some (RunnerDispatching true) =>
          Some (set_runner l (if cfg.(has_store) && negb j.(persisted) && bool_decide (j.(job_result) = None)
                              then RunnerPersisting else RunnerDispatching false) s)
      | _ => None
      end) w
  | Persist b l =>
      m ← up b w; j ← m.(m_sys).(bits).(objs) !! l;
      match m.(m_sys).(runners) !! l with
      | Some RunnerPersisting =>
          let '(r, st) := upsert_job (record_of (broker_name m.(m_cfg)) j) w.(brokers).(store) in
          Some (onto b (with_sys (persist_end l r m.(m_sys)) m) st w)
      | _ => None
      end
  | Claim b i =>
      m ← up b w;
      match slot_from_job_id i with
      | Ok o =>
          if bool_decide ((b, o) ∈ w.(suspects))
          then let '(r, st) := claim_if_owner i o (broker_name m.(m_cfg)) w.(brokers).(store) in
               Some (onto b (claimed_into r m) st w)
          else None
      | Err _ => None
      end
  | Recover b l =>
      m ← up b w;
      match m.(hands) with
      | rec :: hs =>
          if fits_check l (restore rec l) m.(m_sys)
          then Some (onto b (with_hands hs (with_sys
                       (insertion m.(m_cfg) 0 l (new_lifecycle 0) (restore rec l) true m.(m_sys)) m)) w.(brokers).(store) w)
          else None
      | [] => None
      end
  end.

(** ** The program makes steps of the system *)

Lemma up_live b w m : up b w = Some m -> live w.(brokers) b m.
Proof. unfold up. destruct (members _ !! b) as [m0|] eqn:Hb; [|done]. simpl. destruct (m_up m0) eqn:Hu; [|done]. by intros [= <-]. Qed.

Lemma fits_insertable l j s : fits_check l j s = true -> insertable l j s.
Proof.
  unfold fits_check. rewrite !andb_true_iff, !bool_decide_eq_true. intros [[[[? ?] ?] ?] ?]. split_and!; [lia|done..].
Qed.

(** A step of [Cluster] on one broker that is up. *)
Lemma onto_step b m m' st w :
  live w.(brokers) b m ->
  cstep look (suspected w) w.(brokers) (put b m' st w.(brokers)) ->
  (forall o, lease_of_memory o st = lease_of_memory o w.(brokers).(store)) ->
  tstep w (onto b m' st w).
Proof.
  intros [Hb _] Hs Hl. apply t_work; [done| |done]. intros o Ho. simpl. rewrite lookup_insert_ne; [done|congruence].
Qed.

Lemma locally_sound b f w w' :
  (forall cfg s s', f cfg s = Some s' -> step cfg s s') -> locally b f w = Some w' -> tstep w w'.
Proof.
  intros Hf. unfold locally. destruct (up b w) as [m|] eqn:Hm; [|done]. simpl. apply up_live in Hm.
  destruct (f _ _) as [s'|] eqn:Hs; [|done]. simpl. destruct (quiet_check _ s') eqn:Hq; [|done]. intros [= <-].
  apply (onto_step b m); [done| |done]. apply c_local; [done|by apply Hf|by apply quiet_by].
Qed.

Lemma act_sound x w w' : act x w = Some w' -> tstep w w'.
Proof.
  destruct x as [d|cfg|b|b|b|b|b o| |b|b p|b l j|b l|b l|b l|b i|b l]; cbn [act].
  - destruct (Z.leb_spec 0 d); [|done]. intros [= <-]. by apply t_pass.
  - destruct (members _ !! _) eqn:Hn; [done|]. destruct (has_store cfg) eqn:Hs; [|done]. intros [= <-]. by apply t_join.
  - destruct (up b w) as [m|] eqn:Hm; [|done]. apply up_live in Hm. unfold thread_at. cbn [mbind option_bind].
    destruct (threads w !! b) as [[ph t]|] eqn:Ht; [|done]. cbn [mbind option_bind phase]. destruct ph as [retry| | | |]; try done.
    destruct (upsert_broker_lease _ _ _ _ _) as [r st] eqn:Hu. intros [= <-]. by eapply t_renew.
  - destruct (up b w) as [m|] eqn:Hm; [|done]. apply up_live in Hm. unfold thread_at. cbn [mbind option_bind].
    destruct (threads w !! b) as [[ph t]|] eqn:Ht; [|done]. cbn [mbind option_bind phase]. destruct ph as [|retry ok| | |]; try done.
    intros [= <-]. by eapply t_answer.
  - destruct (up b w) as [m|] eqn:Hm; [|done]. apply up_live in Hm. unfold thread_at. cbn [mbind option_bind].
    destruct (threads w !! b) as [[ph t]|] eqn:Ht; [|done]. cbn [mbind option_bind phase].
    destruct (after_sleep ph) as [p'|] eqn:Hp; [|done]. intros [= <-]. by eapply t_stop.
  - destruct (up b w) as [m|] eqn:Hm; [|done]. apply up_live in Hm. unfold thread_at. cbn [mbind option_bind].
    destruct (threads w !! b) as [[ph t]|] eqn:Ht; [|done]. cbn [mbind option_bind phase]. destruct ph; try done.
    intros [= <-]. eapply t_leave; [done..|]. apply surjective_pairing.
  - destruct (up b w) as [m|] eqn:Hm; [|done]. apply up_live in Hm. cbn [mbind option_bind phase].
    destruct (String.eqb_spec b o) as [|n]; [done|]. intros [= <-].
    exact (t_lookup (lookup_job:=look) (lease_of:=lease_of_memory) url lease_ttl off w b m o Hm n).
  - destruct (lookups w) as [|r ls] eqn:Hl; [done|]. destruct (up _ w) as [m|] eqn:Hm; [|done]. apply up_live in Hm.
    cbn [mbind option_bind phase]. intros [= <-]. by apply (t_judge _ _ _ w m r [] ls).
  - destruct (up b w) as [m|] eqn:Hm; [|done]. apply up_live in Hm. cbn [mbind option_bind phase]. intros [= <-].
    apply (onto_step b m); [done| |done]. by apply c_crash.
  - apply locally_sound. intros cfg s s'. destruct (has_store cfg) eqn:Hs; [|done].
    destruct (reserve cfg p (bits s)) as [b'|] eqn:Hr; [|done]. intros [= <-]. by apply step_reserve with p.
  - destruct (up b w) as [m|] eqn:Hm; [|done]. apply up_live in Hm. cbn [mbind option_bind phase].
    destruct (_ && _ && _) eqn:Hc; [|done]. intros [= <-]. rewrite !andb_true_iff, negb_true_iff in Hc.
    destruct Hc as [[? ?] ?]. apply (onto_step b m); [done| |done].
    apply c_accept; [done|by apply fits_insertable|done|by apply unused_by].
  - apply locally_sound. intros cfg s s'. destruct (runners s !! l) as [[already| | |]|] eqn:Hr; try done.
    intros [= <-]. by apply step_start.
  - apply locally_sound. intros cfg s s'. destruct (objs _ !! l) as [j|] eqn:Hj; [|done]. cbn [mbind option_bind phase].
    destruct (runners s !! l) as [[|[]| |]|] eqn:Hr; try done. intros [= <-]. by apply step_persist_begin.
  - destruct (up b w) as [m|] eqn:Hm; [|done]. apply up_live in Hm. cbn [mbind option_bind phase].
    destruct (objs _ !! l) as [j|] eqn:Hj; [|done]. cbn [mbind option_bind phase]. destruct (runners _ !! l) as [[| | |]|] eqn:Hr; try done.
    destruct (upsert_job _ _) as [r st] eqn:Hu. intros [= <-].
    apply (onto_step b m); [done|by eapply c_persist|]. intros o. by eapply (upsert_job_leases (lookup_job:=look)).
  - destruct (up b w) as [m|] eqn:Hm; [|done]. apply up_live in Hm. cbn [mbind option_bind phase].
    destruct (slot_from_job_id i) as [o|] eqn:Ho; [|done]. case_bool_decide; [|done].
    destruct (claim_if_owner _ _ _ _) as [r st] eqn:Hc. intros [= <-].
    apply (onto_step b m); [done|eapply c_claim; [done..|by right|done]|].
    intros k. by eapply (claim_leases (lookup_job:=look)).
  - destruct (up b w) as [m|] eqn:Hm; [|done]. apply up_live in Hm. cbn [mbind option_bind phase]. destruct (hands m) as [|rec hs] eqn:Hh; [done|].
    destruct (fits_check _ _ _) eqn:Hf; [|done]. intros [= <-]. apply (onto_step b m); [done| |done].
    apply (c_recover _ _ _ b m rec [] hs); [done..|by apply fits_insertable].
Qed.

(** A run; [checked] asks that every state be in time. *)
Fixpoint run (checked : bool) (xs : list action) (w : system) : option system :=
  match xs with
  | [] => Some w
  | x :: xs => w' ← act x w; if negb checked || in_time w' then run checked xs w' else None
  end.

Lemma run_sound xs w w' : run false xs w = Some w' -> rtc tstep w w'.
Proof.
  revert w. induction xs as [|x xs IH]; intros w; simpl; [by intros [= <-]|].
  destruct (act x w) as [w1|] eqn:Hx; [|done]. intros Hr%IH. eapply rtc_l; [by eapply act_sound|done].
Qed.

Lemma run_punctual xs w w' : in_time w = true -> run true xs w = Some w' -> rtc pstep w w'.
Proof.
  revert w. induction xs as [|x xs IH]; intros w Hw; simpl; [by intros [= <-]|].
  destruct (act x w) as [w1|] eqn:Hx; [|done]. simpl. destruct (in_time w1) eqn:Hw1; [|done]. intros Hr%IH; [|done].
  eapply rtc_l; [|done]. split_and!; [by apply in_time_punctual|by eapply act_sound|by apply in_time_punctual].
Qed.

(** The broker is up and holds the job, durable there or not, in the object. *)
Definition holds (b : string) (l : nat) (i : string) (w : system) : bool :=
  match up b w with
  | Some m => match m.(m_sys).(bits).(objs) !! l with
              | Some j => bool_decide (j.(id) = i) && bool_decide (durable m.(m_sys) l j)
              | None => false
              end
  | None => false
  end.

Lemma holds_spec b l i w :
  holds b l i w = true ->
  exists m j, live w.(brokers) b m /\ m.(m_sys).(bits).(objs) !! l = Some j /\ j.(id) = i /\ durable m.(m_sys) l j.
Proof.
  unfold holds. destruct (up b w) as [m|] eqn:Hm; [|done]. apply up_live in Hm.
  destruct (objs _ !! l) as [j|] eqn:Hj; [|done]. intros [?%bool_decide_eq_true ?%bool_decide_eq_true]%andb_true_iff.
  by exists m, j.
Qed.

Definition pending (w : system) : bool :=
  bool_decide (map_Forall (fun (_ : string) m => m.(m_sys).(delivered) = [] /\ m.(m_sys).(expired) = ∅)
                 w.(brokers).(members)).

Definition start : system := timed_new 0 MemoryStore.new.

Lemma new_unleased b : lease_of_memory b (MemoryStore.new (V:=sample)) = None.
Proof. apply lookup_empty. Qed.

(** Broker 42 leases, takes a job, makes it durable and crashes; broker 7 comes
    up later, finds the lease lapsed and takes the job over. *)
Definition taken_over_in_time : list action :=
  [Join demo_cfg; Renew "bol-dev-42"; Hear "bol-dev-42";
   Reserve "bol-dev-42" EnforceLimit; Accept "bol-dev-42" 0 demo_job; Start "bol-dev-42" 0;
   PersistBegin "bol-dev-42" 0; Persist "bol-dev-42" 0;
   Pass (ms 10000); Crash "bol-dev-42"; Pass (ms 40000);
   Join peer_cfg; Renew "bol-dev-7"; Pass (ms 300); Hear "bol-dev-7";
   Ask "bol-dev-7" "bol-dev-42"; Pass (ms 500); Judge; Claim "bol-dev-7" demo_id;
   Reserve "bol-dev-7" BypassLimitAlreadyPersisted; Recover "bol-dev-7" 0; Start "bol-dev-7" 0].

Lemma timed_single_runner_witness :
  exists w, run true taken_over_in_time start = Some w /\
    exists m j, live w.(brokers) "bol-dev-7" m /\ m.(m_sys).(bits).(objs) !! 0%nat = Some j /\
      owned (lookup_job:=look) w.(brokers) "bol-dev-7" demo_id.
Proof.
  assert (match run true taken_over_in_time start with
          | Some w => holds "bol-dev-7" 0 demo_id w && pending w
          | None => false
          end = true) as Hrun by (vm_compute; reflexivity).
  destruct (run true taken_over_in_time start) as [w|] eqn:Hw; [|discriminate]. exists w. split; [reflexivity|].
  apply andb_true_iff in Hrun as [(m & j & Hm & Hj & Hid & Hd)%holds_spec Hp]. exists m, j. split_and!; [done..|].
  assert (rtc pstep start w) as Hr by (apply (run_punctual taken_over_in_time); [vm_compute; reflexivity|done]).
  refine (eq_ind _ (owned w.(brokers) "bol-dev-7") (proj2 (proj2 (timed_single_runner url lease_ttl half off (ms 1000) _ (ms 1000) _ _
    0 MemoryStore.new new_empty new_unleased w "bol-dev-7" m 0%nat j "bol-dev-7" m 0%nat j Hr Hm Hj Hm Hj eq_refl _)) Hd) _ Hid).
  - vm_compute. discriminate.
  - intros a b. unfold off. repeat case_match; vm_compute; discriminate.
  - intros b. vm_compute. reflexivity.
  - by apply nothing_retired.
Defined.

(** A broker accepts and persists a job before its first lease is written; a
    poll at another broker finds no lease and takes the job over, and both run
    it. *)
Definition polled_before_first_lease : list action :=
  [Join demo_cfg; Reserve "bol-dev-42" EnforceLimit; Accept "bol-dev-42" 0 demo_job; Start "bol-dev-42" 0;
   PersistBegin "bol-dev-42" 0; Persist "bol-dev-42" 0;
   Join peer_cfg; Ask "bol-dev-7" "bol-dev-42"; Judge; Claim "bol-dev-7" demo_id; Renew "bol-dev-42";
   Reserve "bol-dev-7" BypassLimitAlreadyPersisted; Recover "bol-dev-7" 0; Start "bol-dev-7" 0].

Example early_poll_runs_twice :
  exists w, rtc tstep start w /\ w.(wall) = 0 /\
    holds "bol-dev-42" 0 demo_id w = true /\ holds "bol-dev-7" 0 demo_id w = true /\ pending w = true.
Proof.
  assert (match run false polled_before_first_lease start with
          | Some w => (w.(wall) =? 0) && holds "bol-dev-42" 0 demo_id w && holds "bol-dev-7" 0 demo_id w && pending w
          | None => false
          end = true) as Hrun by (vm_compute; reflexivity).
  destruct (run false polled_before_first_lease start) as [w|] eqn:Hw; [|discriminate]. exists w.
  split; [by eapply run_sound|]. rewrite !andb_true_iff in Hrun. destruct Hrun as [[[? ?] ?] ?]. split_and!; [lia|done..].
Qed.

(** Broker 42 is shut down with a durable job in flight and drains, which the
    lease it renews no more does not outlive: broker 7 takes the job over, and
    both run it. *)
Definition drained_for_long : list action :=
  [Join demo_cfg; Renew "bol-dev-42"; Hear "bol-dev-42";
   Reserve "bol-dev-42" EnforceLimit; Accept "bol-dev-42" 0 demo_job; Start "bol-dev-42" 0;
   PersistBegin "bol-dev-42" 0; Persist "bol-dev-42" 0;
   Pass (ms 10000); Stop "bol-dev-42"; Join peer_cfg; Renew "bol-dev-7"; Hear "bol-dev-7"; Pass (ms 23000);
   Ask "bol-dev-7" "bol-dev-42"; Judge; Claim "bol-dev-7" demo_id;
   Reserve "bol-dev-7" BypassLimitAlreadyPersisted; Recover "bol-dev-7" 0; Start "bol-dev-7" 0].

Example long_drain_runs_twice :
  exists w, rtc tstep start w /\ holds "bol-dev-42" 0 demo_id w = true /\ holds "bol-dev-7" 0 demo_id w = true /\
    pending w = true /\ exists t, thread_at "bol-dev-42" w = Some (mkThread Draining t) /\ w.(wall) < t + lease_ttl "bol-dev-42".
Proof.
  assert (match run false drained_for_long start with
          | Some w => holds "bol-dev-42" 0 demo_id w && holds "bol-dev-7" 0 demo_id w && pending w &&
                      match thread_at "bol-dev-42" w with
                      | Some (mkThread Draining t) => w.(wall) <? t + lease_ttl "bol-dev-42" | _ => false end
          | None => false
          end = true) as Hrun by (vm_compute; reflexivity).
  destruct (run false drained_for_long start) as [w|] eqn:Hw; [|discriminate]. exists w.
  split; [by eapply run_sound|]. rewrite !andb_true_iff in Hrun. destruct Hrun as [[[? ?] ?] Hth]. split_and!; [done..|].
  clear Hw. revert Hth. generalize (thread_at "bol-dev-42" w). intros [[ph t]|]; [|discriminate].
  destruct ph; try discriminate. intros Ht. exists t. split; [reflexivity|by apply Z.ltb_lt].
Qed.

(** The thread of broker 42 while nothing but time passes: two turns. *)
Definition after (n : nat) (call : Blocking) (w : World system) : World system :=
  let d := match call with Waiting d | Sleeping d => Z.max 0 d | Requesting => ms 1 end in
  mkWorld (w.(clock) + d) w.(stopped) w.(in_flight)
    (set_wall (w.(Heartbeat.store).(wall) + d) w.(Heartbeat.store)) w.(blocked) w.(renewals) w.(deletions).

Definition alone : World system :=
  mkWorld 0 false 0 (onto "bol-dev-42" (joined demo_cfg) MemoryStore.new start) 0 [] [].

Lemma heartbeat_refines_witness :
  exists w' t',
    @beats system (system_leases (V:=sample)) after "bol-dev-42" "http://broker/job" (ms 30000) half 2 alone = (true, w') /\
    rtc tstep (inside "bol-dev-42" (Renewing false) 0 alone.(Heartbeat.store))
              (inside "bol-dev-42" (Renewing false) t' w'.(Heartbeat.store)).
Proof.
  destruct (@beats system (system_leases (V:=sample)) after "bol-dev-42" "http://broker/job" (ms 30000) half 2 alone)
    as [go w'] eqn:Hb.
  assert (go = true) as ->.
  { change go with (go, w').1. rewrite <- Hb. vm_compute. reflexivity. }
  exists w'.
  assert (in_step off "bol-dev-42" alone) as Halone.
  { split; [reflexivity|]. exists (joined demo_cfg). split; [vm_compute; reflexivity|reflexivity]. }
  refine (let '(conj _ (ex_intro _ t' Ht)) :=
    heartbeat_refines look lease_of_memory url lease_ttl half off "bol-dev-42" after _ 2 alone w' 0 Halone Hb in
    ex_intro _ t' (conj eq_refl Ht)).
  intros n call w ph t [Hc [m Hm]]. split; [split; [|by exists m]|].
  - unfold after, clock_of in *. simpl. rewrite Hc. lia.
  - apply rtc_once. apply (t_pass _ _ _ (inside "bol-dev-42" ph t w.(Heartbeat.store))).
    destruct call; simpl; unfold ms; lia.
Defined.
End Sample.
