(* ===== verification/Metrics.v ===== *)
(** * Metrics ([metrics.rs])

    The measurements the broker emits, as a log the meter provider aggregates,
    and the broker of [Broker] with the measurements its submissions and runners
    make.  A counter reads as the sum of what was added to its series. *)
From S2P Require Import Prelude Json Errors Job Broker Cluster Bootstrap.

(** The instruments, and the names they are built with. *)
Inductive instrument : Type :=
| JobsAccepted
| JobsFinished
| JobDuration
| RouteHandleJobsAccepted
| RouteHandleJobsFinished
| RouteHandleJobDuration
| QueueDepth
| QueueWait.

#[export] Instance instrument_eq_dec : EqDecision instrument.
Proof. solve_decision. Defined.

Definition instrument_name (i : instrument) : string :=
  match i with
  | JobsAccepted => "bits.jobs.accepted"
  | JobsFinished => "bits.jobs.finished"
  | JobDuration => "bits.job.duration.seconds"
  | RouteHandleJobsAccepted => "bits.route_handle.jobs.accepted"
  | RouteHandleJobsFinished => "bits.route_handle.jobs.finished"
  | RouteHandleJobDuration => "bits.route_handle.job.duration.seconds"
  | QueueDepth => "bits.dispatcher.queue_depth"
  | QueueWait => "bits.dispatcher.queue_wait.seconds"
  end.

(** *** The Prometheus provider *)

(** The boundaries a view sets for an instrument, by its name. *)
Definition boundaries {F} (buckets : HistogramBuckets F) (name : string) : option (list F) :=
  if decide (name = "bits.job.duration.seconds"%string \/ name = "bits.route_handle.job.duration.seconds"%string)
  then Some buckets.(duration)
  else if decide (name = "bits.dispatcher.queue_wait.seconds"%string) then Some buckets.(queue_wait)
  else None.

(** [HANDLE.get_or_init]: the provider of the process is built once; [None] is a
    process without one. *)
Definition init_prometheus {F} (buckets : HistogramBuckets F) (handle : option (HistogramBuckets F))
    : HistogramBuckets F * option (HistogramBuckets F) :=
  match handle with Some h => (h, Some h) | None => (buckets, Some buckets) end.

Definition histogram (i : instrument) : bool :=
  match i with JobDuration | RouteHandleJobDuration | QueueWait => true | _ => false end.

(** Every histogram of the broker gets configured boundaries, and no counter
    does: a view that misspelt a name would leave one with the defaults of the
    exporter. *)
Lemma views_cover {F} (buckets : HistogramBuckets F) i :
  is_Some (boundaries buckets (instrument_name i)) <-> histogram i = true.
Proof. destruct i; vm_compute; (split; [by intros [] || done|eauto || done]). Qed.

Section metrics.
Context {F : Type}.

(** An attribute set, as the code writes it. *)
Notation attrs := (list (string * string)).

Inductive measurement : Type :=
| Add (i : instrument) (n : Z) (a : attrs)
| Sample (i : instrument) (x : F) (a : attrs).

Notation log := (list measurement).

Definition OUTCOME_KEY : string := "outcome".
Definition ROUTE_HANDLE_KEY : string := "route_handle".

(** *** The dispatcher's queue *)

Definition record_queue_enqueued (g : log) : log := Add QueueDepth 1 [] :: g.

Definition record_queue_dequeued (waited : F) (g : log) : log :=
  Sample QueueWait waited [] :: Add QueueDepth (-1) [] :: g.

Definition record_queue_drained (count : Z) (g : log) : log :=
  if 0 <? count then Add QueueDepth (- count) [] :: g else g.

(** *** Jobs *)

Definition record_job_accepted (g : log) : log := Add JobsAccepted 1 [] :: g.

Definition record_job_finished (outcome : string) (g : log) : log :=
  Add JobsFinished 1 [(OUTCOME_KEY, outcome)] :: g.

Definition record_job_duration (outcome : string) (seconds : F) (g : log) : log :=
  Sample JobDuration seconds [(OUTCOME_KEY, outcome)] :: g.

Definition record_route_handle_job_accepted (route_handle : string) (g : log) : log :=
  Add RouteHandleJobsAccepted 1 [(ROUTE_HANDLE_KEY, route_handle)] :: g.

Definition record_route_handle_job_finished (route_handle outcome : string) (g : log) : log :=
  Add RouteHandleJobsFinished 1 [(ROUTE_HANDLE_KEY, route_handle); (OUTCOME_KEY, outcome)] :: g.

Definition record_route_handle_job_duration (route_handle outcome : string) (seconds : F) (g : log) : log :=
  Sample RouteHandleJobDuration seconds
    [(ROUTE_HANDLE_KEY, route_handle); (OUTCOME_KEY, outcome)] :: g.

(** What [submit] records of a job it let in, and the runner of one that ended. *)
Definition record_accepted (already_persisted : bool) (route_handle : option string) (g : log) : log :=
  if already_persisted then g
  else match route_handle with
       | Some name => record_route_handle_job_accepted name (record_job_accepted g)
       | None => record_job_accepted g
       end.

Definition record_finished (route_handle : option string) (r : JobResult) (duration_secs : F) (g : log) : log :=
  let outcome := JobResult.job_result_outcome r in
  let g := record_job_duration outcome duration_secs (record_job_finished outcome g) in
  match route_handle with
  | Some rh =>
      record_route_handle_job_duration rh outcome duration_secs (record_route_handle_job_finished rh outcome g)
  | None => g
  end.

(** ** Reading the series *)

(** The measurement carries the attributes. *)
Definition carries (a b : attrs) : bool := forallb (fun kv => bool_decide (kv ∈ b)) a.

(** What a counter shows for the series that carry the attributes [a], summed
    over the other attributes, and how many samples a histogram has. *)
Definition added (i : instrument) (a : attrs) (m : measurement) : Z :=
  match m with Add k n b => if decide (k = i) then Z.b2z (carries a b) * n else 0 | Sample _ _ _ => 0 end.

Definition sampled (i : instrument) (a : attrs) (m : measurement) : Z :=
  match m with Sample k _ b => if decide (k = i) then Z.b2z (carries a b) else 0 | Add _ _ _ => 0 end.

Definition total (f : measurement -> Z) (g : log) : Z := foldr (fun m z => f m + z) 0 g.
Definition reading (i : instrument) (a : attrs) : log -> Z := total (added i a).
Definition samples (i : instrument) (a : attrs) : log -> Z := total (sampled i a).

Lemma total_cons f m g : total f (m :: g) = f m + total f g.
Proof. done. Qed.

(** The depth gauge follows the queue: an item in, an item out, the stranded
    ones at the close. *)
Lemma queue_depth_reading waited count g :
  0 <= count ->
  let depth := reading QueueDepth [] in
  depth (record_queue_enqueued g) = depth g + 1 /\ depth (record_queue_dequeued waited g) = depth g - 1 /\
  depth (record_queue_drained count g) = depth g - count.
Proof.
  intros Hc depth. unfold depth, reading, record_queue_drained, record_queue_enqueued, record_queue_dequeued.
  split_and!; [..|destruct (Z.ltb_spec 0 count); [|lia]]; rewrite !total_cons; cbn -[total]; repeat case_decide; try done; lia.
Qed.

(** The three job series, for all jobs or for those of one route handle. *)
Definition job_series (rh : option string) : instrument * instrument * instrument :=
  match rh with
  | None => (JobsAccepted, JobsFinished, JobDuration)
  | Some _ => (RouteHandleJobsAccepted, RouteHandleJobsFinished, RouteHandleJobDuration)
  end.

Definition job_attrs (rh : option string) : attrs := match rh with None => [] | Some h => [(ROUTE_HANDLE_KEY, h)] end.

Definition accepted_jobs (rh : option string) : log -> Z := reading (job_series rh).1.1 (job_attrs rh).
Definition finished_jobs (rh : option string) : log -> Z := reading (job_series rh).1.2 (job_attrs rh).
Definition duration_samples (rh : option string) : log -> Z := samples (job_series rh).2 (job_attrs rh).

(** A job submitted through [route_handle] counts for all, and for its handle. *)
Definition counts_for (rh route_handle : option string) : bool :=
  match rh with None => true | Some _ => bool_decide (rh = route_handle) end.

Lemma carries_nil b : carries [] b = true.
Proof. done. Qed.

Lemma carries_handle h name rest :
  Forall (fun kv => kv.1 <> ROUTE_HANDLE_KEY) rest ->
  carries [(ROUTE_HANDLE_KEY, h)] ((ROUTE_HANDLE_KEY, name) :: rest) = bool_decide (Some h = Some name).
Proof.
  intros Hr. unfold carries. simpl. rewrite andb_true_r. apply bool_decide_ext. rewrite elem_of_cons. split.
  - intros [[= ->]|Hin]; [done|]. rewrite Forall_forall in Hr. by destruct (Hr _ Hin).
  - intros [= ->]. by left.
Qed.

Lemma record_accepted_reading rh route_handle already g :
  accepted_jobs rh (record_accepted already route_handle g) =
    accepted_jobs rh g + Z.b2z (negb already && counts_for rh route_handle) /\
  finished_jobs rh (record_accepted already route_handle g) = finished_jobs rh g /\
  duration_samples rh (record_accepted already route_handle g) = duration_samples rh g.
Proof.
  unfold record_accepted, accepted_jobs, finished_jobs, duration_samples, reading, samples.
  destruct already; [simpl; split_and!; lia|].
  destruct rh as [h|], route_handle as [name|];
    unfold record_route_handle_job_accepted, record_job_accepted; rewrite !total_cons; cbn -[total carries];
    rewrite ?carries_nil, ?carries_handle by (by apply Forall_nil); repeat case_decide; try done; try case_bool_decide; try done; simpl Z.b2z; split_and!; lia.
Qed.

Lemma record_finished_reading rh route_handle r secs g :
  let g' := record_finished route_handle r secs g in
  accepted_jobs rh g' = accepted_jobs rh g /\
  finished_jobs rh g' = finished_jobs rh g + Z.b2z (counts_for rh route_handle) /\
  duration_samples rh g' = duration_samples rh g + Z.b2z (counts_for rh route_handle).
Proof.
  unfold record_finished, accepted_jobs, finished_jobs, duration_samples, reading, samples.
  destruct rh as [h|], route_handle as [name|];
    unfold record_route_handle_job_duration, record_route_handle_job_finished, record_job_duration, record_job_finished;
    rewrite !total_cons; cbn -[total carries];
    rewrite ?carries_nil, ?carries_handle by (by apply Forall_singleton); repeat case_decide; try done; try case_bool_decide; try done; simpl Z.b2z; split_and!; lia.
Qed.
End metrics.
Arguments measurement : clear implicits.

(** ** The broker with its measurements *)

Section metered.
Context {V F : Type} `{JsonValue V} (cfg : BrokerConfig).

(** [ongoing] are the jobs whose runner is at work, with the route handle they
    came through; [recovered] counts the ones submitted again from the store. *)
Record metered : Type := mkMetered {
  broker : sys V;
  log : list (measurement F);
  ongoing : gmap nat (option string);
  recovered : Z
}.

Definition metered_new : metered := mkMetered sys_new [] ∅ 0.

(** The steps that start or end no runner. *)
Definition no_runner_starts_or_ends (s s' : sys V) : Prop :=
  forall l, active <$> s'.(runners) !! l = active <$> s.(runners) !! l.

Inductive mstep : metered -> metered -> Prop :=
| m_other m s' :
    step cfg m.(broker) s' -> no_runner_starts_or_ends m.(broker) s' ->
    mstep m (mkMetered s' m.(log) m.(ongoing) m.(recovered))
(* a recovery comes through no route handle *)
| m_submit m now l cl j already route_handle :
    insertable l j m.(broker) -> (already = true -> route_handle = None) ->
    mstep m (mkMetered (insertion cfg now l cl j already m.(broker)) (record_accepted already route_handle m.(log))
               (<[l := route_handle]> m.(ongoing)) (m.(recovered) + Z.b2z already))
| m_finish m s' l may route_handle r duration_secs :
    m.(broker).(runners) !! l = Some (RunnerDispatching may) -> m.(ongoing) !! l = Some route_handle ->
    s' = set_runner l RunnerDone (upd_obj l (with_result (Some r))
           (set_bits (upd_in_flight (m.(broker).(bits).(in_flight) - 1) m.(broker).(bits)) m.(broker))) ->
    mstep m (mkMetered s' (record_finished route_handle r duration_secs m.(log)) (delete l m.(ongoing)) m.(recovered)).

Record balanced (m : metered) : Prop := mkBalanced {
  ba_reachable : reachable cfg m.(broker);
  ba_ongoing l : is_Some (m.(ongoing) !! l) <-> active <$> m.(broker).(runners) !! l = Some true;
  ba_jobs rh : accepted_jobs rh m.(log) + (if rh then 0 else m.(recovered)) =
    finished_jobs rh m.(log) + map_count (counts_for rh) m.(ongoing);
  ba_durations rh : duration_samples rh m.(log) = finished_jobs rh m.(log)
}.

Lemma map_count_same {A B} (P : A -> bool) (Q : B -> bool) (m1 : gmap nat A) (m2 : gmap nat B) :
  (forall k, P <$> m1 !! k = Some true <-> Q <$> m2 !! k = Some true) -> map_count P m1 = map_count Q m2.
Proof.
  intros Hpq. unfold map_count. rewrite <- !size_dom. do 2 f_equal. apply set_eq. intros k. rewrite !elem_of_dom.
  assert (forall A (R : A -> bool) (m : gmap nat A),
            is_Some (filter (fun p => R p.2 = true) m !! k) <-> R <$> m !! k = Some true) as Hf.
  { intros A0 R m. unfold is_Some. setoid_rewrite map_lookup_filter_Some. split.
    - intros (a & Ha & HR). rewrite Ha. simpl in *. by rewrite HR.
    - destruct (m !! k) as [a|]; [|done]. intros [= HR]. by exists a. }
  by rewrite !Hf.
Qed.

Lemma balanced_step m m' : balanced m -> mstep m m' -> balanced m'.
Proof.
  intros [Hr Ho Hj Hd] Hs. destruct Hs as [m s' Hs Hq|m now l cl j already rh Hins Hrec|m s' l may rh r secs Hl Hrh ->].
  - split; simpl; [by eapply rtc_r| |done|done]. intros l. by rewrite Hq.
  - pose proof (insertion_step cfg now l cl j already _ Hins) as Hs.
    destruct Hins as (_ & _ & Hl & _). assert (m.(ongoing) !! l = None) as Hn.
    { apply eq_None_not_Some. by rewrite Ho, Hl. }
    split; simpl.
    + by eapply rtc_r.
    + intros k. destruct (decide (k = l)) as [->|Hk]; [by rewrite !lookup_insert_eq|by rewrite !lookup_insert_ne].
    + intros k. destruct (record_accepted_reading k rh already m.(log)) as (-> & -> & _).
      rewrite map_count_fresh by done. specialize (Hj k).
      destruct already; [rewrite (Hrec eq_refl); destruct k; simpl in *; lia|destruct k; simpl in *; lia].
    + intros k. by destruct (record_accepted_reading k rh already m.(log)) as (_ & -> & ->).
  - split; simpl.
    + eapply rtc_r; [done|]. by eapply step_finish.
    + intros k. destruct (decide (k = l)) as [->|Hk].
      * rewrite lookup_insert_eq, lookup_delete_eq. simpl. split; [by intros []|done].
      * by rewrite lookup_insert_ne, lookup_delete_ne.
    + intros k. destruct (record_finished_reading k rh r secs m.(log)) as (-> & -> & _).
      rewrite (map_count_delete _ _ _ _ Hrh). specialize (Hj k). lia.
    + intros k. destruct (record_finished_reading k rh r secs m.(log)) as (_ & -> & ->). by rewrite Hd.
Qed.

Lemma balanced_reachable m : rtc mstep metered_new m -> balanced m.
Proof.
  intros Hr. assert (balanced metered_new) as Hn.
  { split; simpl; [apply rtc_refl| |by intros [|]|done]. intros l. rewrite !lookup_empty. simpl. by split; [intros []|]. }
  induction Hr as [|m1 m2 m3 Hs _ IH]; [done|]. eauto using balanced_step.
Qed.

(** C40. The job counters balance: at every moment the jobs counted as accepted and
    the recovered ones, which are not, are the finished ones and those whose
    runner is at work; for a route handle, through which nothing is recovered,
    accepted is finished plus running; and every finished job has its duration
    sampled once.  The runners at work are those the in-flight gauge shows. *)
Theorem job_metrics_balance m :
  rtc mstep metered_new m ->
  (accepted_jobs None m.(log) + m.(recovered) = finished_jobs None m.(log) + m.(broker).(bits).(in_flight)) /\
  (forall h, accepted_jobs (Some h) m.(log) =
     finished_jobs (Some h) m.(log) + map_count (counts_for (Some h)) m.(ongoing)) /\
  (forall rh, duration_samples rh m.(log) = finished_jobs rh m.(log)).
Proof.
  intros Hm%balanced_reachable. destruct Hm as [Hr Ho Hj Hd]. split_and!; [| |done].
  - destruct (sys_inv_reachable cfg _ Hr) as (_ & [_ _ _ -> _] & _). rewrite (Hj None). f_equal.
    apply map_count_same. intros l. rewrite <- Ho. destruct (m.(ongoing) !! l); simpl; split; [eauto|done|done|by intros []].
  - intros h. specialize (Hj (Some h)). simpl in Hj. lia.
Qed.
End metered.

(** ** A concrete broker *)

Notation meters := (metered (V:=sample) (F:=Z)).

Definition measured : {m : meters | rtc (mstep demo_cfg) metered_new m}.
Proof.
  eexists.
  eapply rtc_l; [eapply m_other; [eapply (step_reserve _ _ EnforceLimit); (vm_compute; first [reflexivity|discriminate])|done]|].
  eapply rtc_l; [eapply (m_submit _ _ 0 0%nat (new_lifecycle 0) demo_job false (Some "r"%string));
    [split_and!; [vm_compute; discriminate|vm_compute; reflexivity..]|done]|].
  apply rtc_refl.
Defined.

Lemma job_metrics_balance_witness :
  accepted_jobs None (proj1_sig measured).(log) = 1 /\
  accepted_jobs (Some "r"%string) (proj1_sig measured).(log) =
    finished_jobs (Some "r"%string) (proj1_sig measured).(log) + 1.
Proof.
  destruct (job_metrics_balance demo_cfg (proj1_sig measured) (proj2_sig measured)) as (_ & Hh & _).
  split; [vm_compute; reflexivity|exact (Hh "r"%string)].
Defined.
