(* ===== verification/Api.v ===== *)
(** * The HTTP API ([server.rs])

    The routes, the handlers behind them, and a client: it submits a job and
    follows the redirects of the long poll until it has the result. *)
From Stdlib Require Import Ascii.
From S2P Require Import Prelude Json Errors RequestId Job Store MemoryStore Broker Server Recovery.

(** ** Routes *)

(** Axum's decoding of a path segment; [None] is a segment it rejects. *)
Class PathText : Type := {
  percent_decode : string -> option string;
  percent_decode_plain s : has_char "%"%char s = false -> percent_decode s = Some s
}.

(** A [get] route of axum also answers HEAD, with the body removed. *)
Inductive Method : Type := GET | HEAD | POST | OtherMethod.

Definition gets (m : Method) : bool := match m with GET | HEAD => true | _ => false end.

(** The handler a request goes to, or axum's own answer. *)
Inductive Endpoint : Type :=
| SubmitJob
| PollJob (id : string)
| RenderMetrics
| BadPath
| MethodNotAllowed
| NoRoute.

Fixpoint strip_prefix (p s : string) : option string :=
  match p, s with
  | EmptyString, _ => Some s
  | String a p, String b s => if decide (a = b) then strip_prefix p s else None
  | String _ _, EmptyString => None
  end.

Lemma strip_prefix_app p s : strip_prefix p (p ++ s) = Some s.
Proof. induction p as [|a p IH]; [done|]. simpl. by rewrite decide_True. Qed.

(** The one segment a route [prefix{id}] leaves. *)
Definition one_segment (prefix path : string) : option string :=
  match strip_prefix prefix path with
  | Some rest => if decide (rest = ""%string) then None else if has_char "/"%char rest then None else Some rest
  | None => None
  end.

Definition job_segment : string -> option string := one_segment "/job/".

Lemma one_segment_app prefix s :
  s <> ""%string -> has_char "/"%char s = false -> one_segment prefix (prefix ++ s) = Some s.
Proof. intros Hne Hs. unfold one_segment. by rewrite strip_prefix_app, decide_False, Hs. Qed.

Section router.
Context {path_text : PathText}.

(** [metrics]: a Prometheus handle is installed, and its route merged in. *)
Definition router (metrics : bool) (m : Method) (path : string) : Endpoint :=
  if decide (path = "/job"%string) then match m with POST => SubmitJob | _ => MethodNotAllowed end
  else if metrics && bool_decide (path = "/metrics"%string) then if gets m then RenderMetrics else MethodNotAllowed
  else match job_segment path with
       | Some segment =>
           if gets m then match percent_decode segment with Some id => PollJob id | None => BadPath end
           else MethodNotAllowed
       | None => NoRoute
       end.

(** The location of a pending job leads back to the poll of its id. *)
Lemma location_routes_back metrics id d :
  decode id = Ok d -> router metrics GET ("/job/" ++ id) = PollJob id.
Proof.
  intros Hid. destruct (request_id_text id d Hid) as (_ & Hs & _ & Hp). unfold router, job_segment.
  assert (id <> ""%string) as Hne by (intros ->; vm_compute in Hid; done).
  rewrite one_segment_app by done. rewrite (percent_decode_plain _ Hp).
  rewrite decide_False by done. by rewrite bool_decide_eq_false_2, andb_false_r by done.
Qed.
End router.

(** ** Requests *)

Record AppState : Type := mkAppState { poll_timeout : Z; retry_after_secs : Z; metrics_installed : bool }.

Record Request (V : Type) : Type := mkRequest { method : Method; path : string; json : option V }.
Arguments mkRequest {V}. Arguments method {V}. Arguments path {V}. Arguments json {V}.

Section server.
Context {V S : Type} `{JsonValue V} `{JobStore V S} `{BrokerLeaseStore S} {div : DivF64} {text : HttpText}
  {path_text : PathText}.
(** What axum answers by itself, and the rendering of the metrics. *)
Context (axum_reply : Endpoint -> Response).
Context (cfg : BrokerConfig) (state : AppState).

Definition bodiless (r : Response) : Response := mkResponse r.(status) r.(headers) BodyEmpty.

Definition answered (m : Method) (x : option (option Response * Bits V * S)) : option (option Response * Bits V * S) :=
  match m, x with HEAD, Some (r, b, s) => Some (option_map bodiless r, b, s) | _, _ => x end.

(** One request; [uuid] and [l] are for the job a submission creates. The inner
    [None] is a panic of the handler. *)
Definition serve_request (e : PollEnv) (uuid : string) (l : nat) (req : Request V) (b : Bits V) (s : S)
    : option (option Response * Bits V * S) :=
  answered req.(method)
  match router state.(metrics_installed) req.(method) req.(path) with
  | SubmitJob =>
      match req.(json) with
      | Some request_body =>
          submit_job cfg e uuid request_body l state.(poll_timeout) state.(retry_after_secs) b s
      | None => Some (Some (axum_reply SubmitJob), b, s)
      end
  | PollJob id => poll_by_id cfg e id state.(poll_timeout) state.(retry_after_secs) b s
  | ep => Some (Some (axum_reply ep), b, s)
  end.

(** A HEAD request does what the GET does, a poll's delivery included: the
    result it takes out of the table goes nowhere. *)
Lemma head_serves_get e uuid l path (b : Bits V) (s : S) :
  serve_request e uuid l (mkRequest HEAD path None) b s =
  answered HEAD (serve_request e uuid l (mkRequest GET path None) b s).
Proof.
  unfold serve_request. cbn [method Api.path json].
  assert (router state.(metrics_installed) HEAD path = router state.(metrics_installed) GET path) as ->.
  { done. }
  by destruct (match router _ _ _ with SubmitJob => _ | _ => _ end) as [[[]]|].
Qed.

(** ** A client

    It asks the location of a redirect as long as it is a poll of this API. *)
Definition next_poll (reply : option Response) : option string :=
  match reply with
  | Some r =>
      if r.(status) =? 303 then
        match header LOCATION r with
        | Some location => match router state.(metrics_installed) GET location with PollJob _ => Some location | _ => None end
        | None => None
        end
      else None
  | None => None
  end.

Fixpoint follow (envs : list PollEnv) (reply : option Response) (b : Bits V) (s : S)
    : option (option Response * Bits V * S) :=
  match next_poll reply, envs with
  | Some location, e :: envs =>
      '(reply, b, s) ← serve_request e "" 0 (mkRequest GET location None) b s; follow envs reply b s
  | _, _ => Some (reply, b, s)
  end.

Definition session (e : PollEnv) (envs : list PollEnv) (uuid : string) (l : nat) (request_body : V)
    (b : Bits V) (s : S) : option (option Response * Bits V * S) :=
  '(reply, b, s) ← serve_request e uuid l (mkRequest POST "/job" (Some request_body)) b s;
  follow envs reply b s.

(** ** A session *)

(** The job [id] is in the table, at [l], without a result. *)
Definition waiting (id : string) (l : nat) (b : Bits V) : Prop :=
  exists j, Broker.lookup_job id b = Some (l, j) /\ j.(job_result) = None.

(** The rest of the broker during a poll: the job stays without a result, or
    its runner stores one and wakes the poll. *)
Definition keeps (id : string) (l : nat) (w : Bits V -> bool * Bits V) : Prop :=
  forall b, waiting id l b -> waiting id l (w b).2.

Definition finishes (id : string) (l : nat) (r : JobResult) (w : Bits V -> bool * Bits V) : Prop :=
  forall b, waiting id l b ->
    (w b).1 = true /\ exists j, Broker.lookup_job id (w b).2 = Some (l, j) /\ j.(job_result) = Some r.

Lemma lookup_job_objs id (b : Bits V) l j : Broker.lookup_job id b = Some (l, j) -> b.(objs) !! l = Some j.
Proof.
  unfold Broker.lookup_job. destruct (jobs b !! id) as [l'|]; [|done]. simpl.
  destruct (objs b !! l') as [j'|] eqn:Hj; [|done]. simpl. by intros [= <- <-].
Qed.

Lemma take_waiting id l (b : Bits V) : waiting id l b -> take_and_remove cfg l id b = (None, b).
Proof.
  intros (j & Hj%lookup_job_objs & Hr). unfold take_and_remove, take_result. by rewrite Hj, Hr.
Qed.

Lemma take_finished id l (b : Bits V) j r :
  Broker.lookup_job id b = Some (l, j) -> j.(job_result) = Some r ->
  exists b', take_and_remove cfg l id b = (Some r, b') /\ b'.(jobs) !! id = None.
Proof.
  intros Hl Hr. pose proof (lookup_job_objs _ _ _ _ Hl) as Hj. unfold take_and_remove, take_result.
  rewrite Hj, Hr. eexists. split; [done|].
  destruct (schedule_fields cfg l id (remove_job id (upd_objs (<[l := with_result None j]> b.(objs)) b)))
    as (_ & _ & -> & _).
  destruct (remove_job_fields id (upd_objs (<[l := with_result None j]> b.(objs)) b)) as (_ & _ & -> & _).
  apply lookup_delete_eq.
Qed.

Lemma poll_waiting e id l timeout (b : Bits V) (s : S) :
  waiting id l b -> keeps id l e.(wait) ->
  exists st b', poll cfg e id timeout b s = Some (Pending id st, b', s) /\ waiting id l b'.
Proof.
  intros Hw Hk. pose proof Hw as (j & Hj & Hr). unfold poll, poll_local, poll_local_from. rewrite Hj.
  assert (waiting id l (connect j b)) as Hc by done. rewrite (take_waiting _ _ _ Hc).
  pose proof (Hk _ Hc) as Hk'. destruct (e.(wait) (connect j b)) as [w b2]. simpl in Hk'.
  destruct w; [rewrite (take_waiting _ _ _ Hk')|]; eexists _, _; (split; [done|]); exact Hk'.
Qed.

Lemma poll_finishing e id l timeout (b : Bits V) (s : S) r :
  waiting id l b -> finishes id l r e.(wait) ->
  exists b', poll cfg e id timeout b s = Some (Ready r, b', s) /\ b'.(jobs) !! id = None.
Proof.
  intros Hw Hf. pose proof Hw as (j & Hj & Hr). unfold poll, poll_local, poll_local_from. rewrite Hj.
  assert (waiting id l (connect j b)) as Hc by done. rewrite (take_waiting _ _ _ Hc).
  destruct (Hf _ Hc) as [Hn (j2 & Hj2 & Hr2)]. destruct (e.(wait) (connect j b)) as [w b2]. simpl in *. subst w.
  destruct (take_finished _ _ _ _ _ Hj2 Hr2) as (b3 & -> & Hgone). eexists. by split.
Qed.

(** The client of a pending job asks again. *)
Lemma next_poll_pending id d st :
  decode id = Ok d -> next_poll (poll_response (Pending id st) state.(retry_after_secs)) = Some ("/job/" ++ id)%string.
Proof.
  intros Hid. rewrite (pending_response _ _ _ _ Hid). unfold next_poll. simpl.
  assert (visible ("/job/" ++ id)) as Hl.
  { destruct (request_id_text _ _ Hid) as (Hv & _). apply visible_app; [| |done]; apply (bool_decide_unpack _); by vm_compute. }
  unfold header. simpl. change (String "/" (String "j" (String "o" (String "b" (String "/" id))))) with ("/job/" ++ id)%string.
  rewrite (proj2 (visible_ok _ Hl)). by rewrite (location_routes_back _ _ _ Hid).
Qed.

Lemma follow_session es ef id d l st r (b : Bits V) (s : S) :
  decode id = Ok d -> waiting id l b -> Forall (fun e => keeps id l e.(wait)) es -> finishes id l r ef.(wait) ->
  next_poll (poll_response (Ready r) state.(retry_after_secs)) = None ->
  exists b', follow (es ++ [ef]) (poll_response (Pending id st) state.(retry_after_secs)) b s
             = Some (poll_response (Ready r) state.(retry_after_secs), b', s) /\ b'.(jobs) !! id = None.
Proof.
  intros Hid Hw Hes Hf Hstop. revert st b Hw.
  assert (forall e b, serve_request e "" 0 (mkRequest GET ("/job/" ++ id) None) b s =
            poll_by_id cfg e id state.(poll_timeout) state.(retry_after_secs) b s) as Hserve.
  { intros e b. unfold serve_request. cbn [method path]. by rewrite (location_routes_back _ _ _ Hid). }
  induction Hes as [|e es Hk _ IH]; intros st b Hw; cbn [app follow]; rewrite (next_poll_pending _ _ _ Hid), Hserve;
    unfold poll_by_id.
  - destruct (poll_finishing ef id l (Some state.(poll_timeout)) b s r Hw Hf) as (b' & -> & Hgone).
    exists b'. split; [|done]. cbn [mbind option_bind follow]. by rewrite Hstop.
  - destruct (poll_waiting e id l (Some state.(poll_timeout)) b s Hw Hk) as (st' & b' & -> & Hw').
    cbn [mbind option_bind]. by apply IH.
Qed.

(** Submission leaves the job waiting, under an id that decodes. *)
Lemma submit_waiting (e : PollEnv (V:=V)) uuid l body id (b b1 : Bits V) :
  0 <= cfg.(slot) <= u16_max -> byte_list 5 e.(rnd) ->
  submit cfg EnforceLimit e.(rnd) e.(utc_now) e.(instant_now) l (new_lifecycle e.(instant_now))
    (Job.new uuid body e.(utc_now) l) b = (Ok (Accepted id), b1) ->
  waiting id l b1 /\ exists d, decode id = Ok d.
Proof.
  intros Hslot Hrnd. unfold submit. destruct (assign_id _ _ _ _) as [j|err] eqn:Ha; [|done].
  destruct (reserve _ _ b) as [b0|]; [|done]. destruct (jobs b0 !! Job.id j) eqn:Hj; [done|]. intros [= <- <-].
  assert (j.(job_result) = None /\ exists d, decode (Job.id j) = Ok d) as [Hres Hd].
  { unfold assign_id in Ha. destruct (decode _) as [d|] eqn:Hdec; [injection Ha as <-; eauto|].
    destruct (new_job_id cfg e.(rnd) e.(utc_now)) as [i|] eqn:Hi; [|done]. injection Ha as <-. split; [done|].
    eexists. by apply decode_encode_aux in Hi. }
  split; [|done]. exists (with_cell l j). unfold Broker.lookup_job. simpl. rewrite lookup_insert_eq. simpl.
  by rewrite lookup_insert_eq.
Qed.

(** C7. A client gets its result: it submits a job, is redirected while the job has
    no result, however often, and the poll during which the runner stores the
    result answers exactly that result; the job is then gone from the table, and
    the store was never asked. *)
Theorem client_gets_result (e0 : PollEnv (V:=V)) es ef uuid l body id r (b b1 : Bits V) (s : S) :
  0 <= cfg.(slot) <= u16_max -> byte_list 5 e0.(rnd) ->
  submit cfg EnforceLimit e0.(rnd) e0.(utc_now) e0.(instant_now) l (new_lifecycle e0.(instant_now))
    (Job.new uuid body e0.(utc_now) l) b = (Ok (Accepted id), b1) ->
  Forall (fun e => keeps id l e.(wait)) (e0 :: es) -> finishes id l r ef.(wait) ->
  next_poll (poll_response (Ready r) state.(retry_after_secs)) = None ->
  exists b2, session e0 (es ++ [ef]) uuid l body b s =
               Some (poll_response (Ready r) state.(retry_after_secs), b2, s) /\ b2.(jobs) !! id = None.
Proof.
  intros Hslot Hrnd Hsub [Hk Hes]%Forall_cons Hf Hstop.
  destruct (submit_waiting _ _ _ _ _ _ _ Hslot Hrnd Hsub) as [Hw [d Hid]].
  unfold session, serve_request. cbn [method path json]. change (router _ POST "/job") with SubmitJob.
  cbn iota. unfold submit_job. rewrite Hsub. unfold poll_by_id.
  destruct (poll_waiting e0 id l (Some state.(poll_timeout)) b1 s Hw Hk) as (st & b' & -> & Hw').
  cbn [mbind option_bind]. by eapply follow_session.
Qed.
End server.

(** ** Two brokers *)

Section proxied.
Context {V S : Type} `{JsonValue V} `{JobStore V S} `{BrokerLeaseStore S} {div : DivF64} {text : HttpText} `{!Wire}.
Context {lookup_job : string -> S -> option (PersistentJobRecord V)} `{!JobStoreLaws S lookup_job}.







End proxied.

(** ** A concrete session *)

#[local] Existing Instance no_text.
#[local] Existing Instance no_chrono.

#[export] Instance plain_path : PathText.
Proof. by refine {| percent_decode := Some |}. Defined.

Module Sample.
Definition app : AppState := mkAppState (25 * 10 ^ 9) 5 true.
Definition payload : JobResult := Success "text/plain" 2 [Ok "ok"%string].

(** A poll during which nothing happens, and one during which the runner of the
    job at [l] finishes. *)
Definition idle (b : Bits sample) : bool * Bits sample := (false, b).
Definition done_at (l : nat) (b : Bits sample) : bool * Bits sample :=
  (true, upd_objs (alter (with_result (Some payload)) l b.(objs)) b).

Definition env (w : Bits sample -> bool * Bits sample) : PollEnv :=
  mkPollEnv w (fun b => (false, b)) (fun _ _ => None) 5 (custom_epoch + 97445999999999) 100
    (fun _ => 3) (fun _ => 1) [0x01; 0x23; 0x45; 0x67; 0x89] 0%nat (new_lifecycle 0).

Lemma done_finishes id l : finishes id l payload (done_at l).
Proof.
  intros b (j & Hj & Hr). split; [done|]. exists (with_result (Some payload) j). split; [|done].
  pose proof (lookup_job_objs _ _ _ _ Hj) as Ho. revert Hj. unfold Broker.lookup_job, done_at. simpl.
  destruct (jobs b !! id) as [l'|]; [|done]. simpl. destruct (objs b !! l') as [j'|] eqn:Hj'; [|done].
  simpl. intros [= -> ->]. by rewrite lookup_alter_eq, Ho.
Qed.

Definition empty_store : MemoryStore.MemoryStore sample := MemoryStore.new.

Lemma client_gets_result_witness :
  exists b2, session (text:=plain_text) (fun _ => mkResponse 404 [] BodyEmpty) demo_cfg app (env idle)
      ([env idle; env idle] ++ [env (done_at 0)]) "uuid" 0 JNull bits_new empty_store
    = Some (poll_response (Ready payload) 5, b2, empty_store) /\ b2.(jobs) !! demo_id = None.
Proof.
  eapply (client_gets_result (text:=plain_text) (fun _ => mkResponse 404 [] BodyEmpty) demo_cfg app
    (env idle) [env idle; env idle] (env (done_at 0)) "uuid" 0 JNull demo_id payload bits_new _ empty_store).
  - by vm_compute.
  - apply (bool_decide_unpack _). by vm_compute.
  - vm_compute. reflexivity.
  - assert (keeps demo_id 0 idle) as Hk by (intros b Hb; exact Hb). by apply Forall_cons_2; [|apply Forall_cons_2; [|apply Forall_cons_2; [|apply Forall_nil]]].
  - apply done_finishes.
  - vm_compute. reflexivity.
Defined.

(** A HEAD request that finds the result takes it, and the job is gone. *)
Example head_loses_result :
  let b := (submit demo_cfg EnforceLimit (env idle).(rnd) (env idle).(utc_now) 100 0 (new_lifecycle 100)
              (Job.new "uuid" JNull (env idle).(utc_now) 0) bits_new).2 in
  let serve := serve_request (text:=plain_text) (fun _ => mkResponse 404 [] BodyEmpty) demo_cfg app (env idle) "" 0
                 (mkRequest HEAD ("/job/" ++ demo_id) None) in
  let b := (done_at 0 b).2 in
  exists b', serve b empty_store = Some (Some (mkResponse 200 [("content-type"%string, "text/plain"%string)] BodyEmpty), b', empty_store) /\ Broker.lookup_job demo_id b' = None.
Proof. eexists. split; vm_compute; reflexivity. Qed.


End Sample.
