(* ===== verification/PoolApi.v ===== *)
(** * The remote pool's HTTP interface ([executor/remote_pool.rs] behind
    [worker_server.rs])

    The routes a remote pool registers, the requests they take, and what a
    worker gets that follows the protocol: a job, the time its heartbeats buy,
    and the delivery of its outcome. *)
From Stdlib Require Import Ascii.
From stdpp Require Import functions.
From S2P Require Import Prelude Json Errors RequestId Job Queue Actions Dispatcher RemotePool WorkerServer Server Api.

(** ** Routes *)

Inductive PoolEndpoint : Type :=
| GetWork
| PostHeartbeat (job_id : string)
| PostData (job_id : string)
| PostRedirect (job_id : string)
| PostReject (job_id : string)
| PostError (job_id : string)
| PoolBadPath
| PoolMethodNotAllowed
| PoolNoRoute.

Definition post_routes : list (string * (string -> PoolEndpoint)) :=
  [("/heartbeat/", PostHeartbeat); ("/complete/data/", PostData); ("/complete/redirect/", PostRedirect);
   ("/complete/reject/", PostReject); ("/complete/error/", PostError)]%string.

Fixpoint match_posts (routes : list (string * (string -> PoolEndpoint))) (path : string)
    : option ((string -> PoolEndpoint) * string) :=
  match routes with
  | [] => None
  | (prefix, ep) :: routes =>
      match one_segment prefix path with Some segment => Some (ep, segment) | None => match_posts routes path end
  end.

Definition pool_router `{PathText} (m : Method) (path : string) : PoolEndpoint :=
  if decide (path = "/work"%string) then if gets m then GetWork else PoolMethodNotAllowed
  else match match_posts post_routes path with
       | Some (ep, segment) =>
           match m with
           | POST => match percent_decode segment with Some job_id => ep job_id | None => PoolBadPath end
           | _ => PoolMethodNotAllowed
           end
       | None => PoolNoRoute
       end.

(** ** Requests *)

Definition default_timeout_ms : Z := 30000.

Record PollParams : Type := mkPollParams { timeout_ms : Z }.
Record RedirectRequest : Type := mkRedirectRequest {
  location : string;
  message : string;
  redirect_content_type : option string;
  redirect_content_length : option Z
}.
Record RejectRequest : Type := mkRejectRequest { reason : string }.
Record ErrorRequest : Type := mkErrorRequest { error_message : string }.

(** The [Query] and [Json] extractors with the deserialisers serde derives;
    [None] is a request they reject.  No query leaves the default timeout. *)
Class WorkerInput (V : Type) : Type := {
  poll_params : option string -> option PollParams;
  redirect_request : V -> option RedirectRequest;
  reject_request : V -> option RejectRequest;
  error_request : V -> option ErrorRequest;
  poll_params_none : poll_params None = Some (mkPollParams default_timeout_ms)
}.

(** A request target as the [http] crate reads it: what it accepts, its path
    and its query.  Letters, digits, [-], [_] and [/] are always themselves. *)
Definition plain_pq (p : string) : Prop :=
  exists rest, p = String "/"%char rest /\ Forall (fun c => pool_char c || (c =? 47) = true) (chars p).

Class RequestTarget : Type := {
  parse_path_and_query : string -> bool;
  uri_path : string -> string;
  uri_query : string -> option string;
  plain_target p : plain_pq p -> parse_path_and_query p = true /\ uri_path p = p /\ uri_query p = None
}.

Record PoolRequest (V : Type) : Type := mkPoolRequest {
  pool_method : Method;
  content_type : header_value;
  content_length : header_value;
  pool_body : ByteStream;
  pool_json : option V
}.
Arguments mkPoolRequest {V}. Arguments pool_method {V}. Arguments content_type {V}. Arguments content_length {V}.
Arguments pool_body {V}. Arguments pool_json {V}.

(** A job, a bare status, or what axum answers itself. *)
Inductive PoolReply (V : Type) : Type :=
| Work (response : WorkResponse V)
| Status (code : Z)
| Refused (ep : PoolEndpoint).
Arguments Work {V}. Arguments Status {V}. Arguments Refused {V}.

(** ** Serving a request *)

Section pool_api.
Context {V Q : Type} `{JsonValue V} `{QueueOps Q (Job V)} `{PathText} `{WorkerInput V} `{RequestTarget}.
Notation State := (RemotePoolState Q).

Definition coded (r : Z * State) : PoolReply V * State := let '(code, st) := r in (Status code, st).

(** The reply to [/work]; to a HEAD, without the job. *)
Definition work_reply (m : Method) (r : result Z (WorkResponse V)) : PoolReply V :=
  match r with
  | Ok w => match m with HEAD => Status OK | _ => Work w end
  | Err code => Status code
  end.

(** The handler of one request, at [now]; [gone] tells which callers have
    dropped their end.  [timeout_ms] bounds the wait of [/work] on the queue:
    [handle_get_work] sees the queue as it is when the wait ends. *)
Definition pool_call (now : Z) (gone : nat -> bool) (pq : string) (req : PoolRequest V) (st : State)
    : PoolReply V * State :=
  match pool_router req.(pool_method) (uri_path pq) with
  | GetWork =>
      match poll_params (uri_query pq) with
      | Some _ => let '(r, st) := handle_get_work now gone st in (work_reply req.(pool_method) r, st)
      | None => (Refused GetWork, st)
      end
  | PostHeartbeat job_id => coded (handle_heartbeat now job_id st)
  | PostData job_id =>
      coded (handle_complete_data job_id req.(content_type) req.(content_length) req.(pool_body) st)
  | PostRedirect job_id =>
      match req.(pool_json) ≫= redirect_request with
      | Some r => coded (handle_complete_redirect job_id r.(location) r.(message) r.(redirect_content_type)
                           r.(redirect_content_length) st)
      | None => (Refused (PostRedirect job_id), st)
      end
  | PostReject job_id =>
      match req.(pool_json) ≫= reject_request with
      | Some r => coded (handle_complete_reject job_id r.(reason) st)
      | None => (Refused (PostReject job_id), st)
      end
  | PostError job_id =>
      match req.(pool_json) ≫= error_request with
      | Some r => coded (handle_complete_error job_id r.(error_message) st)
      | None => (Refused (PostError job_id), st)
      end
  | ep => (Refused ep, st)
  end.

(** What a request does to the pool. *)
Definition pool_event (now : Z) (gone : nat -> bool) (pq : string) (req : PoolRequest V) : option (event (V:=V)) :=
  match pool_router req.(pool_method) (uri_path pq) with
  | GetWork => (fun _ => EvWork now gone) <$> poll_params (uri_query pq)
  | PostHeartbeat job_id => Some (EvHeartbeat now job_id)
  | PostData job_id => Some (EvData job_id req.(content_type) req.(content_length) req.(pool_body))
  | PostRedirect job_id =>
      (fun r => EvRedirect job_id r.(location) r.(message) r.(redirect_content_type) r.(redirect_content_length))
        <$> (req.(pool_json) ≫= redirect_request)
  | PostReject job_id => (fun r => EvReject job_id r.(reason)) <$> (req.(pool_json) ≫= reject_request)
  | PostError job_id => (fun r => EvError job_id r.(error_message)) <$> (req.(pool_json) ≫= error_request)
  | _ => None
  end.

(** A request is one event of the pool, or it changes nothing. *)
Lemma pool_call_event now gone pq req n st :
  (n, (pool_call now gone pq req st).2) =
  match pool_event now gone pq req with Some e => run_event (n, st) e | None => (n, st) end.
Proof.
  unfold pool_call, pool_event, coded. destruct (pool_router _ _); try done.
  - destruct (poll_params _); [|done]. cbn. by destruct (handle_get_work _ _ _).
  - cbn. by destruct (handle_heartbeat _ _ _).
  - cbn. by destruct (handle_complete_data _ _ _ _ _).
  - destruct (pool_json req ≫= _); [|done]. cbn. by destruct (handle_complete_redirect _ _ _ _ _ _).
  - destruct (pool_json req ≫= _); [|done]. cbn. by destruct (handle_complete_reject _ _ _).
  - destruct (pool_json req ≫= _); [|done]. cbn. by destruct (handle_complete_error _ _ _).
Qed.

(** The worker server in front: a registered router is the number of its pool,
    whose state its handlers share with the dispatcher. *)
Record Workers : Type := mkWorkers { server : WorkerServer nat; pool_states : nat -> State }.

Context (uri_from_parts : string -> PoolRequest V -> bool).

Definition serve_worker (now : Z) (gone : nat -> bool) (path : string) (query : option string) (req : PoolRequest V)
    (w : Workers) : PoolResponse (Resp:=PoolReply V) * Workers :=
  match dispatch_to_pool (fun (h : nat) pq req => (h, pq, req)) parse_path_and_query uri_from_parts w.(server) path
          query req with
  | Plain code text => (Plain code text, w)
  | Routed (h, pq, req) =>
      let '(r, st) := pool_call now gone pq req (w.(pool_states) h) in
      (Routed r, mkWorkers w.(server) (<[h := st]> w.(pool_states)))
  end.
End pool_api.

(** ** The routes of a worker *)

Lemma plain_app p s :
  plain_pq p -> Forall (fun c => 48 <= c <= 57 \/ 97 <= c <= 122) (chars s) -> plain_pq (p ++ s).
Proof.
  intros (rest & -> & Hp) Hs. exists (rest ++ s)%string. split; [done|].
  rewrite chars_app by (eapply Forall_impl; [done|]; unfold pool_char, is_ascii_alphanumeric, is_ascii; simpl; lia).
  apply Forall_app_2; [done|]. eapply Forall_impl; [done|]. unfold pool_char, is_ascii_alphanumeric. simpl. lia.
Qed.

(** What a worker posts about a job. *)
Inductive Posting : Type := Alive | Data | Redirected | Rejected | Failed.

Definition posting_path (p : Posting) : string :=
  match p with
  | Alive => "heartbeat/"
  | Data => "complete/data/"
  | Redirected => "complete/redirect/"
  | Rejected => "complete/reject/"
  | Failed => "complete/error/"
  end.
Definition posting_endpoint (p : Posting) : string -> PoolEndpoint :=
  match p with
  | Alive => PostHeartbeat
  | Data => PostData
  | Redirected => PostRedirect
  | Rejected => PostReject
  | Failed => PostError
  end.

(** The outcome it posts, if any. *)
Definition posted_outcome {V} `{WorkerInput V} (p : Posting) (req : PoolRequest V) : option WorkerOutcome :=
  match p with
  | Alive => None
  | Data => Some (WorkerComplete (content_type_of req.(content_type)) (content_length_of req.(content_length))
                    req.(pool_body))
  | Redirected => (fun r => WorkerRedirect r.(location) r.(message) r.(redirect_content_type) r.(redirect_content_length))
                    <$> (req.(pool_json) ≫= redirect_request)
  | Rejected => (fun r => WorkerReject r.(reason)) <$> (req.(pool_json) ≫= reject_request)
  | Failed => (fun r => WorkerError r.(error_message)) <$> (req.(pool_json) ≫= error_request)
  end.

Section worker.
Context {V Q : Type} `{JsonValue V} `{QueueOps Q (Job V)} `{PathText} `{WorkerInput V} `{RequestTarget}.
Context (char_text : Z -> string) (uri_from_parts : string -> PoolRequest V -> bool).
Notation State := (RemotePoolState Q).

Lemma posting_routed p id d :
  decode id = Ok d ->
  plain_pq (String "/" (posting_path p ++ id)) /\
  pool_router POST (String "/" (posting_path p ++ id)) = posting_endpoint p id.
Proof.
  intros Hid. destruct (request_id_text _ _ Hid) as (_ & Hs & _ & Hp). pose proof (request_id_chars _ _ Hid) as Hc.
  assert (id <> ""%string) as Hne by (intros ->; vm_compute in Hid; done). split.
  - change (plain_pq (String "/" (posting_path p) ++ id)). apply plain_app; [|done]. exists (posting_path p).
    split; [done|]. apply (bool_decide_unpack _). by destruct p.
  - destruct p; unfold pool_router; (rewrite decide_False by done); unfold match_posts, post_routes;
      lazymatch goal with |- context [one_segment ?pre (String "/" (?s ++ id))] =>
        change (String "/" (s ++ id)) with (String "/" s ++ id)%string end;
      repeat (lazymatch goal with |- context [one_segment ?pre (?p ++ id)] =>
        first [rewrite (one_segment_app pre id Hne Hs : one_segment pre (p ++ id) = _)
              |rewrite (eq_refl : one_segment pre (p ++ id) = None)] end; cbn iota);
      by rewrite (percent_decode_plain _ Hp).
Qed.

(** A pool that [register_pool] answered [Ok] for. *)
Definition serves (name : string) (h : nat) (ws : WorkerServer nat) : Prop :=
  validate_pool_name char_text name = Ok tt /\ ws.(pools) !! name = Some h.

Lemma register_serves l name h ws ws' : register_pool char_text l name h ws = (Ok tt, ws') -> serves name h ws'.
Proof.
  unfold register_pool, serves. destruct (validate_pool_name char_text name) as [[]|]; [|done].
  intros He. split; [done|]. unfold ensure_started in He. destruct (started _); inversion He; apply lookup_insert_eq.
Qed.

(** A plain path under the name of a pool is served by that pool. *)
Lemma serve_plain now gone name h p req (w : Workers) :
  serves name h w.(server) -> plain_pq (String "/" p) -> uri_from_parts (String "/" p) req = true ->
  serve_worker uri_from_parts now gone ("/" ++ name ++ String "/" p) None req w =
  let '(r, st) := pool_call now gone (String "/" p) req (w.(pool_states) h) in
  (Routed r, mkWorkers w.(server) (<[h := st]> w.(pool_states))).
Proof.
  intros [[Hne Hns]%valid_name_no_slash Hh] Hp Huri. unfold serve_worker, dispatch_to_pool.
  rewrite (proj1 (extract_pool name p Hne Hns)), decide_False, Hh by done. cbv zeta.
  by rewrite (proj1 (plain_target _ Hp)), Huri.
Qed.

(** Posting an outcome for a job is completing it. *)
Lemma post_completes now gone p id d req o (st : State) :
  req.(pool_method) = POST -> decode id = Ok d -> posted_outcome p req = Some o ->
  pool_call now gone (String "/" (posting_path p ++ id)) req st = coded (complete id o st).
Proof.
  intros Hm Hid Ho. destruct (posting_routed p id d Hid) as [Hp Hr]. unfold pool_call.
  destruct (plain_target _ Hp) as (_ & -> & _). rewrite Hm, Hr.
  destruct p; [done|injection Ho as <-; done|..]; apply fmap_Some in Ho as (r & Hreq & ->); cbn iota;
    cbv [posting_endpoint]; by rewrite Hreq.
Qed.
End worker.

(** ** A job in a worker's hands *)

Section attended.
Context {V Q : Type} `{JsonValue V} `{QueueOps Q (Job V)}.
Notation State := (RemotePoolState Q).

(** A run during which the worker that has the job [id] keeps it: whenever the
    reaper looks, its last heartbeat is younger than the timeout; nobody posts
    an outcome in its place, no job is dispatched under the same id, and the
    server is not shut down.  Everything else may happen. *)
Fixpoint attended (timeout : Z) (id : string) (last : Z) (es : list (event (V:=V))) : bool :=
  match es with
  | [] => true
  | e :: es =>
      match e with
      | EvHeartbeat now j => attended timeout id (if decide (j = id) then now else last) es
      | EvReap now => (Z.max 0 (now - last) <? timeout) && attended timeout id last es
      | EvDispatch job _ => bool_decide (job.(Job.id) <> id) && attended timeout id last es
      | EvData j _ _ _ | EvRedirect j _ _ _ _ | EvReject j _ | EvError j _ =>
          bool_decide (j <> id) && attended timeout id last es
      | EvShutdown => false
      | EvTakeBack _ | EvWork _ _ => attended timeout id last es
      end
  end.

(** The worker has the job of the call [c], and nobody else can get it. *)
Record held (id : string) (c : nat) (last timeout : Z) (s : State) : Prop := mkHeld {
  held_entry : s.(in_progress) !! id = Some (mkInProgress c last);
  held_pending : s.(dispatcher).(pending) !! id = None;
  held_timeout : s.(heartbeat_timeout) = timeout
}.

Lemma pending_drop_permit item (d : Dispatcher Q) : (drop_permit item d).(pending) = d.(pending).
Proof. unfold drop_permit. by destruct (item_permit item). Qed.

Lemma held_post id c last timeout job guard n s :
  job.(Job.id) <> id -> held id c last timeout s -> held id c last timeout (post job guard n s).
Proof.
  intros Hne [He Hp Ht]. unfold post, insert_pending. destruct (closing (dispatcher s)); [by split|].
  destruct (pending (dispatcher s) !! Job.id job) as [o|] eqn:Ho; (split; [done| |done]); simpl;
    rewrite ?pending_drop_permit; simpl; by rewrite lookup_insert_ne.
Qed.

Lemma held_take_back id c last timeout j s : held id c last timeout s -> held id c last timeout (take_back j s).
Proof.
  intros [He Hp Ht]. unfold take_back, take_pending.
  destruct (pending (dispatcher s) !! j) as [o|]; [|done]. split; [done| |done].
  simpl. rewrite pending_drop_permit. by apply lookup_delete_None; right.
Qed.

Lemma held_work id c last timeout now gone s :
  held id c last timeout s -> held id c last timeout (handle_get_work now gone s).2.
Proof.
  intros [He Hp Ht]. unfold handle_get_work, take_pending. destruct (dequeue _) as [| |job q]; [done..|]. simpl.
  destruct (pending (dispatcher s) !! Job.id job) as [o|] eqn:Ho.
  2: { split; [done| |done]. simpl. by apply lookup_delete_None; right. }
  assert (Job.id job <> id) as Hne by (intros Heq; by rewrite Heq, Hp in Ho).
  assert (delete (Job.id job) (pending (dispatcher s)) !! id = None) as Hd by (by apply lookup_delete_None; right).
  destruct (gone _); [split; simpl; rewrite ?pending_drop_permit; done|].
  destruct (work_guard _ _ _ _); [split; simpl; rewrite ?pending_drop_permit; done|].
  unfold insert_in_progress. simpl. destruct (in_progress s !! Job.id job);
    split; simpl; rewrite ?pending_drop_permit, ?lookup_insert_ne; done.
Qed.

Lemma held_complete id c last timeout j o s :
  j <> id -> held id c last timeout s -> held id c last timeout (complete j o s).2.
Proof.
  intros Hne [He Hp Ht]. unfold complete. destruct (in_progress s !! j); [|done].
  split; [|done..]. simpl. by rewrite lookup_delete_ne.
Qed.

Lemma held_heartbeat id c last timeout now j s :
  held id c last timeout s -> held id c (if decide (j = id) then now else last) timeout (handle_heartbeat now j s).2.
Proof.
  intros [He Hp Ht]. unfold handle_heartbeat. case_decide as Hj.
  - subst j. rewrite He. split; [|done..]. apply lookup_insert_eq.
  - destruct (in_progress s !! j); [|done]. split; [|done..]. simpl. by rewrite lookup_insert_ne.
Qed.

Lemma held_reap id c last timeout now s :
  Z.max 0 (now - last) < timeout -> held id c last timeout s -> held id c last timeout (reap now s).
Proof.
  intros Hlt [He Hp Ht]. unfold reap.
  destruct (drop_outcomes_in_progress (expired now s) (with_in_progress (keep_alive now s) s)) as (Hm & Hh & _).
  assert (forall l (s : State), dispatcher (fold_right drop_outcome s l) = dispatcher s) as Hd
    by (intros l s'; by induction l as [|e l IH]; simpl).
  split; [rewrite Hm|by rewrite Hd|by rewrite Hh].
  apply map_lookup_filter_Some. split; [done|]. apply Z.ltb_lt. simpl. by rewrite Ht.
Qed.

Lemma held_run es : forall id c last timeout n s n' s',
  attended timeout id last es = true -> held id c last timeout s -> run es (n, s) = (n', s') ->
  exists last', held id c last' timeout s'.
Proof.
  induction es as [|e es IH]; intros id c last timeout n s n' s' Ha Hh Hr; [injection Hr as <- <-; eauto|].
  change (run (e :: es) (n, s)) with (run es (run_event (n, s) e)) in Hr.
  destruct e; cbn [attended] in Ha; try done; cbn [run_event] in Hr;
    try (apply andb_true_iff in Ha as [Hc Ha]; first [apply bool_decide_eq_true in Hc|apply Z.ltb_lt in Hc]);
    eapply IH; try exact Hr; try exact Ha;
    unfold handle_complete_data, handle_complete_redirect, handle_complete_reject, handle_complete_error;
    eauto using held_post, held_take_back, held_work, held_complete, held_heartbeat, held_reap.
Qed.

(** Taking a job that is due. *)
Lemma work_taken now gone job q item s :
  dequeue s.(dispatcher).(queue) = Dequeued job q -> s.(dispatcher).(pending) !! job.(Job.id) = Some item ->
  gone item.(item_call) = false -> work_guard item.(item_guard) now s.(cells) job = None ->
  exists s', handle_get_work now gone s =
    (Ok (mkWorkResponse job.(Job.id) job.(request) job.(user) job.(metadata) s.(RemotePool.callback_url)), s') /\
    held job.(Job.id) item.(item_call) now s.(heartbeat_timeout) s'.
Proof.
  intros Hq Hp Hg Hw. unfold handle_get_work, take_pending. rewrite Hq. simpl. rewrite Hp, Hg, Hw.
  assert (forall e (s : State), RemotePool.callback_url (insert_in_progress (Job.id job) e s) = RemotePool.callback_url s) as Hu
    by (intros e s'; unfold insert_in_progress; by destruct (in_progress s' !! Job.id job)).
  eexists. split; [simpl; by rewrite Hu|].
  unfold insert_in_progress. simpl. destruct (in_progress s !! Job.id job);
    split; simpl; rewrite ?pending_drop_permit, ?lookup_insert_eq; try done; apply lookup_delete_eq.
Qed.
End attended.

(** ** A worker's session *)

Section session.
Context {V Q : Type} `{JsonValue V} `{QueueOps Q (Job V)} `{PathText} `{WorkerInput V} `{RequestTarget}.
Context (char_text : Z -> string) (uri_from_parts : string -> PoolRequest V -> bool).
Hypothesis uri_ok : forall pq req, plain_pq pq -> uri_from_parts pq req = true.

Lemma replied_once (s : RemotePoolState Q) l c r :
  NoDup (places s) -> s.(replies) = l ++ [(c, r)] -> filter (fun p => p.1 = c) s.(replies) = [(c, r)].
Proof.
  unfold places. intros (_ & _ & (_ & _ & (Hnd & _)%NoDup_app)%NoDup_app)%NoDup_app Hl.
  rewrite Hl, fmap_app in Hnd. apply NoDup_app in Hnd as (_ & Hnd & _). rewrite Hl, filter_app.
  rewrite (filter_cons_True _ (c, r)) by done. rewrite filter_nil.
  enough (filter (fun p => p.1 = c) l = []) as -> by done.
  apply elem_of_nil_inv. intros [c' r'] [Hc Hin]%list_elem_of_filter. simpl in Hc. subst c'.
  apply (Hnd c); [by apply (list_elem_of_fmap_2 fst _ (c, r'))|by left].
Qed.

(** The calls of a pool are all in one place, whatever happened. *)
Lemma run_nodup es (d : Dispatcher Q) timeout url h0 n s :
  d.(pending) = ∅ -> run es (0%nat, new_pool d timeout url h0) = (n, s) -> NoDup (places s).
Proof.
  intros Hd Hr. apply run_places in Hr; [rewrite Hr; apply NoDup_seq|].
  unfold places. simpl. by rewrite Hd, !values_empty.
Qed.

(** C8. A worker that follows the protocol is heard: the [/work] request of a pool
    that has a job due is answered with that job; and as long as its heartbeats
    come in time, the server is not shut down, no other worker posts an outcome
    for this job, which the server would accept, and no job is dispatched under
    the same id, then, whatever the other workers do with other jobs, callers
    and the reaper, the outcome it posts is answered with 200 and is the one
    reply the job's caller gets. *)
Theorem worker_delivers d timeout url h0 es0 n s now gone job q item id_parts name h work (w : Workers (Q:=Q)) :
  d.(pending) = ∅ -> run es0 (0%nat, new_pool d timeout url h0) = (n, s) ->
  dequeue s.(dispatcher).(queue) = Dequeued job q -> s.(dispatcher).(pending) !! job.(Job.id) = Some item ->
  gone item.(item_call) = false -> work_guard item.(item_guard) now s.(cells) job = None ->
  decode job.(Job.id) = Ok id_parts ->
  serves char_text name h w.(server) -> w.(pool_states) h = s -> work.(pool_method) = GET ->
  exists s1,
    serve_worker uri_from_parts now gone ("/" ++ name ++ "/work") None work w =
      (Routed (Work (mkWorkResponse job.(Job.id) job.(request) job.(user) job.(metadata) s.(RemotePool.callback_url))),
       mkWorkers w.(server) (<[h := s1]> w.(pool_states))) /\
    forall es1 n2 s2 now2 gone2 p req o (w2 : Workers (Q:=Q)),
      attended s.(heartbeat_timeout) job.(Job.id) now es1 = true -> run es1 (n, s1) = (n2, s2) ->
      serves char_text name h w2.(server) -> w2.(pool_states) h = s2 ->
      req.(pool_method) = POST -> posted_outcome p req = Some o ->
      exists s3,
        serve_worker uri_from_parts now2 gone2 ("/" ++ name ++ String "/" (posting_path p ++ job.(Job.id))) None req w2 =
          (Routed (Status OK), mkWorkers w2.(server) (<[h := s3]> w2.(pool_states))) /\
        filter (fun r => r.1 = item.(item_call)) s3.(replies) = [(item.(item_call), translate (Some o))].
Proof.
  intros Hd Hrun Hq Hp Hg Hguard Hid Hserves Hs Hget.
  destruct (work_taken now gone job q item s Hq Hp Hg Hguard) as (s1 & Hwork & Hheld). exists s1.
  assert (plain_pq "/work") as Hplain by (exists "work"%string; split; [done|]; apply (bool_decide_unpack _); by vm_compute).
  destruct (plain_target _ Hplain) as (_ & Hpath & Hquery). split.
  - change ("/" ++ name ++ "/work")%string with ("/" ++ name ++ String "/" "work")%string.
    rewrite (serve_plain char_text uri_from_parts now gone name h "work" work w Hserves Hplain (uri_ok _ _ Hplain)).
    unfold pool_call. rewrite Hpath, Hquery, Hget, poll_params_none, Hs. cbn [pool_router gets].
    change (pool_router GET "/work") with GetWork. cbn iota. by rewrite Hwork.
  - intros es1 n2 s2 now2 gone2 p req o w2 Ha Hrun1 Hserves2 Hs2 Hpost Ho.
    destruct (held_run _ _ _ _ _ _ _ _ _ Ha Hheld Hrun1) as (last' & [He _ _]).
    destruct (posting_routed p job.(Job.id) _ Hid) as [Hpp _].
    rewrite (serve_plain char_text uri_from_parts now2 gone2 name h _ req w2 Hserves2 Hpp (uri_ok _ _ Hpp)).
    rewrite (post_completes now2 gone2 p _ _ req o _ Hpost Hid Ho), Hs2. unfold complete. rewrite He. cbn [coded].
    assert (NoDup (places s2)) as Hnd.
    { apply (run_nodup (es0 ++ EvWork now gone :: es1) d timeout url h0 n2 s2 Hd). unfold run in *.
      rewrite foldl_app, Hrun. cbn [foldl run_event]. by rewrite Hwork. }
    eexists. split; [done|]. apply (replied_once _ s2.(replies)); [|done].
    pose proof (places_complete job.(Job.id) o s2) as Hpl. unfold complete in Hpl. rewrite He in Hpl. by rewrite Hpl.
Qed.
End session.

(** ** A concrete session *)

(** Targets split at the first question mark; the JSON of the [sample] type. *)
#[export] Instance split_target : RequestTarget.
Proof.
  refine {|
    parse_path_and_query := fun _ => true;
    uri_path := fun pq => default pq (head (split_str "?"%char pq));
    uri_query := fun pq => head (tail (split_str "?"%char pq))
  |}.
  intros p (rest & _ & Hp). rewrite split_none; [done|]. apply has_char_chars. eapply Forall_impl; [exact Hp|].
  unfold pool_char, is_ascii_alphanumeric, is_ascii. change (byte_val "?") with 63. simpl. lia.
Defined.

#[export] Instance sample_input : WorkerInput sample := {|
  poll_params := fun q =>
    match q with
    | None => Some (mkPollParams default_timeout_ms)
    | Some q => strip_prefix "timeout_ms=" q ≫= fun t => mkPollParams <$> parse_u64 t
    end;
  redirect_request := fun v =>
    location ← get "location" v ≫= as_str;
    Some (mkRedirectRequest location (default ""%string (get "message" v ≫= as_str)) (get "content_type" v ≫= as_str)
            (get "content_length" v ≫= as_u64));
  reject_request := fun v => mkRejectRequest <$> (get "reason" v ≫= as_str);
  error_request := fun v => mkErrorRequest <$> (get "message" v ≫= as_str);
  poll_params_none := eq_refl
|}.

Module Sample.
Definition job_id : string := "017sg4fag005yaa01a04hmasw9".
Definition job_a : Job sample := sample_job job_id.
Definition job_b : Job sample := sample_job "b".
Definition pool_s : RemotePoolState (FifoQueue (Job sample)) :=
  (run [EvDispatch job_a GuardCancelled; EvDispatch job_b GuardNone] (0%nat, sample_pool)).2.

Definition char_text : Z -> string := fun _ => "?"%string.
Definition ws : WorkerServer nat :=
  (register_pool char_text (mkListener (Ok tt) (Ok tt) (Ok tt)) "mars" 3%nat (WorkerServer.new "0.0.0.0" 9001)).2.
Definition workers (s : RemotePoolState (FifoQueue (Job sample))) : Workers (Q:=FifoQueue (Job sample)) :=
  mkWorkers ws (fun _ => s).
Definition any_uri : string -> PoolRequest sample -> bool := fun _ _ => true.
Definition request (m : Method) (json : option sample) : PoolRequest sample := mkPoolRequest m None None [] json.

(** Another worker takes the other job and falls silent; this one's heartbeats
    carry it past two ticks of the reaper. *)
Definition between : list (event (V:=sample)) :=
  [EvWork 5 (fun _ => false); EvHeartbeat 8 job_id; EvReap 15; EvHeartbeat 16 job_id; EvReap 25].

Lemma worker_delivers_witness :
  exists s1 s3 : RemotePoolState (FifoQueue (Job sample)),
    (serve_worker any_uri 0 (fun _ => false) ("/" ++ "mars" ++ "/work") None (request GET None) (workers pool_s)).1 =
      Routed (Work (mkWorkResponse job_id JNull (JObject []) (JObject []) None)) /\
    (serve_worker any_uri 26 (fun _ => false) ("/" ++ "mars" ++ String "/" (posting_path Rejected ++ job_id)) None
       (request POST (Some (JObject [("reason"%string, JString "no data")]))) (workers (run between (2%nat, s1)).2)).1 =
      Routed (Status OK) /\
    filter (fun r => r.1 = 0%nat) s3.(replies) = [(0%nat, Ok (TargetReject "no data" true))].
Proof.
  destruct (worker_delivers char_text any_uri (fun _ _ _ => eq_refl) sample_pool.(dispatcher) 10 None
    {[ 0%nat := new_lifecycle 0 ]} [EvDispatch job_a GuardCancelled; EvDispatch job_b GuardNone] 2 pool_s
    0 (fun _ => false) job_a (mkFifo true [job_b]) (mkItem GuardCancelled 0 true)
    (mkDecodedId 1 "bol" "dev" (custom_epoch + 97445 * nanos_per_sec) 42 [0x01; 0x23; 0x45; 0x67; 0x89])
    "mars" 3%nat (request GET None) (workers pool_s)) as (s1 & Hwork & Hpost);
    [try (vm_compute; reflexivity); split; vm_compute; reflexivity..|].
  destruct (Hpost between (run between (2%nat, s1)).1 (run between (2%nat, s1)).2 26 (fun _ => false) Rejected
    (request POST (Some (JObject [("reason"%string, JString "no data")]))) (WorkerReject "no data")
    (workers (run between (2%nat, s1)).2)) as (s3 & Hreply & Hone).
  - vm_compute. reflexivity.
  - apply surjective_pairing.
  - split; vm_compute; reflexivity.
  - done.
  - done.
  - vm_compute. reflexivity.
  - exists s1, s3. split_and!; [exact (f_equal fst Hwork)|exact (f_equal fst Hreply)|exact Hone].
Defined.

(** A HEAD request takes the job too, and drops it with the body: nobody knows
    of it, and its caller waits for the reaper. *)
Example head_takes_work :
  let '(r, w) := serve_worker any_uri 0 (fun _ => false) "/mars/work" None (request HEAD None) (workers pool_s) in
  r = Routed (Status OK) /\ is_Some ((w.(pool_states) 3%nat).(in_progress) !! job_id) /\
  (reap 10 (w.(pool_states) 3%nat)).(replies) = [(0%nat, Err (ResourceError "worker heartbeat timeout or disconnect"))].
Proof. vm_compute. split_and!; try reflexivity. by eexists. Qed.
End Sample.
