(* ===== verification/PyClient.v ===== *)
(** * The Python class [Bits] ([src/bits-py/src/lib.rs])

    Its methods over the broker, the writable attributes of the job view, and a
    Python program that submits a job and polls until it is no longer pending. *)
From S2P Require Import Prelude Json Errors RequestId Job Store MemoryStore Broker Server Recovery Config PyBindings Api.

Section bits_py.
Context {V S F PyObj : Type} `{JsonValue V} `{JobStore V S} `{BrokerLeaseStore S} {div : DivF64} `{Float F}.
Context (depythonize : PyObj -> result string V) (cfg : BrokerConfig).

Definition set_request (value : PyObj) (view : PyJob (PyObj:=PyObj)) : PyJob (PyObj:=PyObj) :=
  mkPyJob view.(py_id) value view.(py_metadata) view.(py_user).
Definition set_metadata (value : PyObj) (view : PyJob (PyObj:=PyObj)) : PyJob (PyObj:=PyObj) :=
  mkPyJob view.(py_id) view.(py_request) value view.(py_user).

(** [None] is a panic, here and in [poll_py]. *)
Definition submit_py (e : PollEnv (V:=V)) (uuid : string) (l : nat) (request : PyObj) (b : Bits V)
    : option (result PyErr string) * Bits V :=
  match depythonize request with
  | Err err => (Some (Err (PyValueError err)), b)
  | Ok request_value =>
      match submit cfg EnforceLimit e.(rnd) e.(utc_now) e.(instant_now) l (new_lifecycle e.(instant_now))
              (Job.new uuid request_value e.(utc_now) l) b with
      | (Ok outcome, b) => (Some (submit_outcome_to_py outcome), b)
      | (Err _, b) => (None, b)
      end
  end.

Definition poll_py (e : PollEnv (V:=V)) (job_id : string) (timeout_secs : option F) (b : Bits V) (s : S)
    : option (option (result PyErr PyVal) * Bits V * S) :=
  match PyBindings.poll_timeout timeout_secs with
  | None => Some (None, b, s)
  | Some (Err err) => Some (Some (Err err), b, s)
  | Some (Ok timeout) =>
      '(outcome, b, s) ← poll cfg e job_id timeout b s; Some (Some (poll_outcome_to_py outcome), b, s)
  end.

(** Whether the job was known is not told. *)
Definition cancel_py (job_id : string) (b : Bits V) : result PyErr unit * Bits V := (Ok tt, (cancel job_id b).2).

(** [while status == "pending": poll]. *)
Fixpoint await_py (envs : list PollEnv) (job_id : string) (timeout_secs : option F) (b : Bits V) (s : S)
    : option (option (result PyErr PyVal) * Bits V * S) :=
  match envs with
  | [] => None
  | e :: envs =>
      '(answer, b, s) ← poll_py e job_id timeout_secs b s;
      match answer with
      | Some (Ok payload) =>
          if decide (status_of payload = Some "pending"%string) then await_py envs job_id timeout_secs b s
          else Some (answer, b, s)
      | _ => Some (answer, b, s)
      end
  end.

Lemma await_result id l r es ef timeout_secs timeout body (b : Bits V) (s : S) :
  PyBindings.poll_timeout timeout_secs = Some (Ok timeout) ->
  waiting id l b -> Forall (fun e => keeps id l e.(wait)) es -> finishes id l r ef.(wait) ->
  read_stream (stream_of (Ready r)) = Ok body ->
  exists payload b', await_py (es ++ [ef]) id timeout_secs b s = Some (Some (Ok payload), b', s) /\
    poll_outcome_to_py (Ready r) = Ok payload /\ b'.(jobs) !! id = None.
Proof.
  intros Ht Hw Hes Hf Hbody. revert b Hw. induction Hes as [|e es Hk _ IH]; intros b Hw; cbn [app await_py];
    unfold poll_py; rewrite Ht.
  - destruct (poll_finishing cfg ef id l timeout b s r Hw Hf) as (b' & -> & Hgone). cbn [mbind option_bind].
    assert (exists payload, poll_outcome_to_py (Ready r) = Ok payload /\ status_of payload = Some "ready"%string) as (payload & Hp & Ho).
    { unfold poll_outcome_to_py, job_result_to_py, stream_of in *.
      destruct r as [ct size stream|loc msg [ct|] [cl|]| | | | | |]; rewrite ?Hbody; eexists _; (split; [done|]); done. }
    rewrite Hp, Ho. eauto.
  - destruct (poll_waiting cfg e id l timeout b s Hw Hk) as (st & b' & -> & Hw'). cbn [mbind option_bind].
    assert (exists p, poll_outcome_to_py (Pending id st) = Ok p /\ status_of p = Some "pending"%string)
      as (p & -> & ->) by (eexists; split; reflexivity).
    by apply IH.
Qed.

(** A Python program gets its result: the id that submit returned is pending in
    every poll until the runner has stored the result, and the payload of that
    poll is the one of exactly this result. *)
Theorem python_gets_result (e0 : PollEnv (V:=V)) es ef uuid l request id r timeout_secs timeout body (b b1 : Bits V) (s : S) :
  0 <= cfg.(slot) <= u16_max -> byte_list 5 e0.(rnd) ->
  submit_py e0 uuid l request b = (Some (Ok id), b1) -> PyBindings.poll_timeout timeout_secs = Some (Ok timeout) ->
  Forall (fun e => keeps id l e.(wait)) es -> finishes id l r ef.(wait) ->
  read_stream (stream_of (Ready r)) = Ok body ->
  exists payload b2, await_py (es ++ [ef]) id timeout_secs b1 s = Some (Some (Ok payload), b2, s) /\
    poll_outcome_to_py (Ready r) = Ok payload /\ b2.(jobs) !! id = None.
Proof.
  intros Hslot Hrnd Hsub Ht Hes Hf Hbody. unfold submit_py in Hsub.
  destruct (depythonize request) as [v|]; [|done].
  destruct (submit _ _ _ _ _ _ _ _ b) as [[[i|]|] b'] eqn:Hs; simplify_eq/=.
  apply submit_waiting in Hs as [Hw _]; [|done..]. by eapply await_result.
Qed.

(** A cancellation reaches the job and nothing else, and an unknown id changes
    nothing and is not reported. *)
Lemma cancel_py_spec job_id (b : Bits V) :
  (cancel_py job_id b).1 = Ok tt /\ (cancel_py job_id b).2.(jobs) = b.(jobs) /\
  (Broker.lookup_job job_id b = None -> (cancel_py job_id b).2 = b) /\
  (forall l j, Broker.lookup_job job_id b = Some (l, j) -> is_Some (b.(cells) !! j.(cell)) ->
     is_cancelled (cancel_py job_id b).2.(cells) j = true).
Proof.
  unfold cancel_py, cancel. destruct (Broker.lookup_job job_id b) as [[l j]|]; split_and!; try done.
  intros l' j' [= <- <-] [c Hc]. unfold is_cancelled, Job.request_cancel, on_cell. simpl.
  rewrite lookup_alter_eq, Hc. done.
Qed.
End bits_py.

(** ** A concrete program *)

#[local] Existing Instance no_text.
#[local] Existing Instance no_chrono.

Module Sample.
Import Config.Sample Api.Sample.

Lemma python_gets_result_witness :
  exists payload b1 b2,
    submit_py Ok demo_cfg (env idle) "uuid" 0 JNull bits_new = (Some (Ok demo_id), b1) /\
    await_py (F:=Z) demo_cfg ([env idle] ++ [env (done_at 0)]) demo_id None b1 empty_store
      = Some (Some (Ok payload), b2, empty_store) /\ poll_outcome_to_py (Ready Api.Sample.payload) = Ok payload.
Proof.
  destruct (submit_py Ok demo_cfg (env idle) "uuid" 0 JNull bits_new) as [r b1] eqn:Hs.
  assert (r = Some (Ok demo_id)) as -> by (apply (f_equal fst) in Hs; vm_compute in Hs; by rewrite <- Hs).
  destruct (python_gets_result (F:=Z) Ok demo_cfg (env idle) [env idle] (env (done_at 0)) "uuid" 0 JNull demo_id
    Api.Sample.payload None None "ok" bits_new b1 empty_store) as (payload & b2 & Ha & Hp & _).
  - clear Hs. split; vm_compute; discriminate.
  - clear Hs. apply (bool_decide_unpack _). by vm_compute.
  - exact Hs.
  - reflexivity.
  - apply Forall_singleton. intros b Hb. exact Hb.
  - apply done_finishes.
  - reflexivity.
  - exists payload, b1, b2. by split_and!.
Defined.
End Sample.
