(* ===== verification/Main.v ===== *)
(** * The server binary ([src/bits-server/src/main.rs], [server.rs], [telemetry.rs])

    What the process does around the broker: the signals that end it, the
    listening server, the order of its start, and the lines it logs.  Files,
    sockets, signals and the log sink are parameters. *)
From Stdlib Require Import Ascii.
From S2P Require Import Prelude Json Errors MemoryStore Routing Registry Broker WorkerServer Config Bootstrap Api Metrics.

(** ** [shutdown_signal] *)

(** When a signal arrives, if ever: Ctrl-C with the outcome of its listener. *)
Definition arrival : Type := option Z.
Definition ctrl_c_arrival : Type := option (Z * result string unit).

(** The instant at which the future is ready: with a SIGTERM stream the first of
    the two, but a Ctrl-C listener that fails leaves the stream alone. *)
Definition shutdown_signal (ctrl_c : ctrl_c_arrival) (sigterm : result string arrival) : arrival :=
  match sigterm with
  | Ok term =>
      match ctrl_c with
      | Some (t, r) =>
          if match term with Some u => u <? t | None => false end then term
          else match r with Ok _ => Some t | Err _ => term end
      | None => term
      end
  | Err _ => match ctrl_c with Some (t, Ok _) => Some t | _ => None end
  end.

(** A signal that the process can hear. *)
Definition heard (ctrl_c : ctrl_c_arrival) (sigterm : result string arrival) (t : Z) : Prop :=
  ctrl_c = Some (t, Ok tt) \/ sigterm = Ok (Some t).

(** The process drains at the first signal it can hear, and never without one:
    a failed listener neither ends it nor keeps the other signal from ending it. *)
Lemma shutdown_signal_first ctrl_c sigterm :
  match shutdown_signal ctrl_c sigterm with
  | Some t => heard ctrl_c sigterm t /\ forall u, heard ctrl_c sigterm u -> t <= u
  | None => forall u, ~ heard ctrl_c sigterm u
  end.
Proof.
  unfold shutdown_signal, heard.
  destruct sigterm as [[u|]|e], ctrl_c as [[t [[]|e']]|]; try destruct (Z.ltb_spec u t);
    try (split; [by auto|]); intros ? [[=]|[=]]; subst; lia.
Qed.

(** ** [serve_with_shutdown] *)

Inductive MainError : Type := Io (text : string) | Broker (e : BitsError).

Definition ESC : ascii := ascii_of_nat 27.
Definition ansi (code text : string) : string := String ESC ("[" ++ code ++ "m" ++ text).

Section serve.
Context {V W F : Type} `{JsonValue V} `{Float F}.
Notation Runtime := (@Runtime V W).

Definition DEFAULT_POLL_TIMEOUT : Z := seconds 25.

(** [ServerConfig::poll_timeout]. *)
Definition poll_timeout_of (config : ServerConfig F) : Z :=
  match try_from_secs_f64 config.(poll_timeout_secs) with Ok d => d | Err _ => DEFAULT_POLL_TIMEOUT end.

Definition bind_addr (config : ServerConfig F) : string :=
  (config.(server_host) ++ ":" ++ pretty config.(server_port))%string.

(** The server in operation: its requests are those of [Api.serve_request] in
    this state until a shutdown signal. *)
Record Serving : Type := mkServing {
  broker : Runtime;
  app : AppState;
  local_addr : string;
  printed : list string
}.

Definition banner (broker_id local_addr routes : string) : list string :=
  [""; "  " ++ ansi "1" (ansi "96" "bits" ++ ansi "0" "");
   "  " ++ ansi "2" "broker" ++ ansi "0" "  " ++ broker_id;
   "  " ++ ansi "2" "server" ++ ansi "0" "  " ++ local_addr;
   "  " ++ ansi "2" "routes" ++ ansi "0" "  " ++ routes; ""]%string.

(** [bind]: the listener and its local address. *)
Definition serve_with_shutdown (bind : string -> result string string) (handle : option (HistogramBuckets F))
    (bits : Runtime) (config : ServerConfig F) : result MainError Serving :=
  let broker_id := broker_name bits.(run_config) in
  let routes := String.concat ", " (route_names bits) in
  let app := mkAppState (poll_timeout_of config) config.(Bootstrap.retry_after_secs) (bool_decide (is_Some handle)) in
  let? local_addr := map_err Io (bind (bind_addr config)) in
  Ok (mkServing bits app local_addr (banner broker_id local_addr routes)).

(** ** [main] *)

(** How the process ends up: it exits with its usage, returns an error, or
    serves, with the handle of the metrics it installed. *)
Inductive Outcome : Type :=
| Usage
| Failed (e : MainError)
| Served (s : Serving) (handle : HistogramBuckets F).

Context (parse : string -> option (result BitsError (@Bootstrap V W F))) (client : result string unit).

Definition main (args : list string) (read_to_string : string -> result string string)
    (bind : string -> result string string) : option Outcome :=
  match args !! 1%nat with
  | None => Some Usage
  | Some config_path =>
      match read_to_string config_path with
      | Err e => Some (Failed (Io e))
      | Ok config_str =>
          bootstrap ← parse config_str;
          Some (match bootstrap with
                | Err e => Failed (Broker e)
                | Ok bootstrap =>
                    let buckets := bootstrap.(metrics_buckets) in
                    match into_parts client bootstrap with
                    | Err e => Failed (Broker e)
                    | Ok (bits, server_config) =>
                        let '(h, handle) := init_prometheus buckets None in
                        match serve_with_shutdown bind handle bits server_config with
                        | Err e => Failed e
                        | Ok s => Served s h
                        end
                    end
                end)
      end
  end.
End serve.
Arguments Serving : clear implicits.
Arguments Outcome : clear implicits.

(** ** What a process that serves has checked *)

Section promises.
Context {V W F : Type} `{JsonValue V} `{Float F}.
Context (from_str : string -> result string V)
  (decode_bits : V -> result string (BitsConfig V F)) (decode_server : V -> result string (ServerConfig F))
  (decode_metrics : V -> result string (MetricsConfig F)) (decode_map : V -> result string (gmap string V))
  (decode_queue : V -> result string Queue.QueueKind)
  (decode_executor : V -> result string (Dispatcher.ExecutorKind (F:=F)))
  (tag_error_text : RequestId.EncodeError -> string) (seconds_text : Z -> string) (char_text : Z -> string).
Context (registry : Registry (V:=V) (W:=W) (D:=BuiltDispatcher)) (listener : Listener) (d : Deployment).
Notation parse fuel := (parse_bootstrap from_str decode_bits decode_server decode_metrics decode_map decode_queue
  decode_executor tag_error_text seconds_text char_text registry listener d fuel).

(** The process that serves was given a configuration it could read and accept;
    it polls for exactly the configured time, which is not zero, so the fallback
    of [poll_timeout] is never taken; a job is persisted a second and more
    before the poll that submitted it gives up; metrics are exposed, with the
    configured boundaries; and its broker is valid. *)
Theorem served_as_configured fuel client args read bind s h :
  main (parse fuel) client args read bind = Some (Served s h) ->
  exists path text b, args !! 1%nat = Some path /\ read path = Ok text /\ parse fuel text = Some (Ok b) /\
    runtime_valid s.(broker) /\
    s.(app).(metrics_installed) = true /\ h = b.(metrics_buckets) /\
    bind (bind_addr b.(server_config)) = Ok s.(local_addr) /\
    try_from_secs_f64 b.(server_config).(poll_timeout_secs) = Ok s.(app).(poll_timeout) /\ s.(app).(poll_timeout) <> 0 /\
    s.(app).(retry_after_secs) <> 0 /\
    forall p, b.(runtime_config).(persist_after) = Some p -> p + PERSIST_GUARD < s.(app).(poll_timeout).
Proof.
  unfold main. destruct (args !! 1%nat) as [path|]; [|done]. destruct (read path) as [text|] eqn:Hread; [|done].
  intros Hm. apply bind_Some in Hm as (r & Hp & Hm). apply (inj Some) in Hm. destruct r as [b|]; [|done].
  destruct (into_parts client b) as [[rt config]|] eqn:Hi; [|done].
  unfold init_prometheus, serve_with_shutdown in Hm. destruct (bind _) as [addr|] eqn:Hbind; [|done]. injection Hm as <- <-.
  apply parse_bootstrap_parts in Hp as Hv. destruct Hv as (Hv & Hrouter & Hf & _).
  unfold into_parts, from_runtime_config in Hi. destruct client; [|done]. injection Hi as <- <-.
  destruct (valid_poll_timeout _ _ Hv) as (t & Ht & Ht0). unfold poll_timeout_of in *.
  exists path, text, b. simpl. rewrite Ht. split_and!; try done.
  - by apply Hv.
  - intros p Hpa. destruct (valid_persist_after _ _ Hv p Hpa) as (t' & Ht' & Hlt). congruence.
Qed.

(** Nothing is installed and no address taken before the configuration is
    accepted and the broker is built. *)
Lemma main_refuses fuel client args read bind path text e :
  args !! 1%nat = Some path -> read path = Ok text -> parse fuel text = Some (Err e) ->
  main (parse fuel) client args read bind = Some (Failed (Broker e)).
Proof. intros Ha Hr Hp. unfold main. by rewrite Ha, Hr, Hp. Qed.
End promises.

(** ** [PrettyFormat]: a log line *)

Inductive Level : Type := TRACE | DEBUG | INFO | WARN | ERROR.

Definition badge (level : Level) : string * string :=
  match level with
  | TRACE => (ansi "35" "", "TRACE")
  | DEBUG => (ansi "34" "", "DEBUG")
  | INFO => (ansi "92" "", " INFO")
  | WARN => (ansi "93" "", " WARN")
  | ERROR => (ansi "91" "", "ERROR")
  end%string.

Section format.
Context {Writer E : Type} (write_str : string -> Writer -> result E Writer).

(** [write!]: its pieces in order, up to the first that fails. *)
Fixpoint write (pieces : list string) (w : Writer) : result E Writer :=
  match pieces with
  | [] => Ok w
  | p :: pieces => let? w := write_str p w in write pieces w
  end.

Definition write_span (fields : option string) (w : Writer) : result E Writer :=
  match fields with
  | Some fields => if (fields =? "")%string then Ok w
                   else write [ansi "96" "["; fields; ("]" ++ ansi "0" " ")%string] w
  | None => Ok w
  end.

Fixpoint write_spans (scope : list (option string)) (w : Writer) : result E Writer :=
  match scope with
  | [] => Ok w
  | span :: scope => let? w := write_span span w in write_spans scope w
  end.

(** [now]: the local time as hours, minutes and seconds; [scope]: the formatted
    fields of the spans, the outermost first; [format_fields]: the message and
    the fields of the event. *)
Definition format_event (now : string) (level : Level) (scope : option (list (option string)))
    (format_fields : Writer -> result E Writer) (w : Writer) : result E Writer :=
  let? w := write [ansi "2" ""; now; ansi "0" " "] w in
  let '(colour, label) := badge level in
  let? w := write [colour; ansi "1" ""; label; ansi "0" "  "] w in
  let? w := write_spans (default [] scope) w in
  let? w := format_fields w in
  write [String (ascii_of_nat 10) ""] w.
End format.

(** A sink that takes everything. *)
Definition append (s : string) (w : string) : result unit string := Ok (w ++ s)%string.

Definition text (pieces : list string) : string := foldr String.append "" pieces.

Lemma append_nil w : (w ++ "")%string = w.
Proof. induction w as [|c w IH]; [done|]. change (String c (w ++ "") = String c w)%string. by rewrite IH. Qed.

Lemma write_append pieces w : write append pieces w = Ok (w ++ text pieces)%string.
Proof.
  revert w. induction pieces as [|p pieces IH]; intros w; unfold text in *; simpl; [by rewrite append_nil|].
  by rewrite IH, <- string_app_assoc.
Qed.

Definition span_text (fields : option string) : string :=
  match fields with
  | Some fields => if (fields =? "")%string then "" else text [ansi "96" "["; fields; ("]" ++ ansi "0" " ")%string]
  | None => ""
  end.

Lemma write_spans_append scope w : write_spans append scope w = Ok (w ++ text (span_text <$> scope))%string.
Proof.
  revert w. induction scope as [|f scope IH]; intros w; unfold text in *; simpl; [by rewrite append_nil|].
  unfold write_span, span_text. destruct f as [f|]; [destruct (f =? "")%string|]; try apply IH.
  rewrite write_append. rewrite IH. by rewrite <- string_app_assoc.
Qed.

(** The line: the time, a badge of five characters whatever the level, the spans
    with fields from the outermost in, the message, and a newline. *)
Lemma format_event_line now level scope message w :
  format_event append now level scope (append message) w =
    Ok (w ++ text [ansi "2" ""; now; ansi "0" " "] ++
        text [(badge level).1; ansi "1" ""; (badge level).2; ansi "0" "  "] ++
        text (span_text <$> default [] scope) ++ message ++ String (ascii_of_nat 10) "")%string /\
  String.length (badge level).2 = 5%nat.
Proof.
  split; [|by destruct level]. unfold format_event. rewrite write_append.
  rewrite (surjective_pairing (badge level)), write_append, write_spans_append. unfold append at 1.
  rewrite write_append. by rewrite <- !string_app_assoc.
Qed.

(** ** A concrete process *)

Module Sample.
Import Config.Sample Bootstrap.Sample.

Definition bootstrap_of : string -> option (result BitsError (@Bootstrap.Bootstrap sample unit Z)) :=
  parse_bootstrap from_str decode_bits decode_server decode_metrics decode_map
    decode_queue decode_executor no_texts no_texts no_texts registry serving cluster 5.

(** The configuration is the text of its file; a free port. *)
Definition process : option (Outcome sample unit Z) :=
  main bootstrap_of (Ok tt) ["bits-server"; "broker.yaml"]%string Ok Ok.

Lemma served_as_configured_witness :
  match process with
  | Some (Served s _) => s.(local_addr) = "0.0.0.0:8080"%string /\ s.(app).(poll_timeout) <> 0
  | _ => False
  end.
Proof.
  assert (match process with
          | Some (Served s _) => (s.(local_addr) =? "0.0.0.0:8080")%string
          | _ => false
          end = true) as Haddr by (vm_compute; reflexivity).
  destruct process as [[|e|s h]|] eqn:Hp; [discriminate Haddr..| |discriminate Haddr].
  destruct (served_as_configured _ _ _ _ _ _ _ _ _ _ _ _ _ _ _ _ _ _ _ _ Hp)
    as (path & txt & b & _ & _ & _ & _ & _ & _ & _ & _ & Hpoll & _).
  split; [by apply String.eqb_eq|exact Hpoll].
Defined.
End Sample.
